(* ===== verification/_CoqProject ===== *)
-Q . S2P
Prelude.v
Record.v
Hash.v
Index.v
IndexSpec.v
Latch.v
Resp.v
RespSpec.v
Session.v
Functions.v
FunctionsSpec.v
Epoch.v
EpochProtocol.v
Device.v
Log.v
LogSpec.v
LogLive.v
LogTiling.v
Store.v
StoreInv.v
StoreSpec.v
StoreAttempt.v
StoreRefine.v
StoreOps.v
Txn.v
TxnStore.v
Scan.v
ScanSpec.v
Checkpoint.v
CheckpointSpec.v
Aof.v
Glob.v
Shared.v
Commands.v
CommandsSpec.v
CommandsTrace.v
Replay.v
Server.v
StoreDb.v
Config.v
Keyspace.v
StoreKeyspace.v
Answers.v
CommandsKeyspace.v
Conversation.v
Clients.v
Restart.v
