(* ===== verification/Prelude.v ===== *)
(** * mini-garnet: a verification development

    mini-garnet is a Redis-compatible server in two crates: [tsavorite], a
    concurrent key-value store (hash index, hybrid log over memory and a device,
    epochs, checkpoints), and [garnet], the RESP front end (parser, commands,
    transactions, append-only file).  This library models both from the source
    under src/crates and proves what makes them correct.

    ** How the program fits together

    A connection's bytes are parsed into commands ([garnet/src/resp.rs]) and
    dispatched ([commands.rs]); a command makes a few calls on its store session
    ([tsavorite/src/store.rs]), which finds the newest record of the key through
    the hash index ([index.rs]), under a bucket latch and inside an epoch
    ([epoch.rs]), and reads or changes it in the hybrid log ([log.rs]) by way of
    the callbacks of the data type ([functions.rs]).  A command that wrote bumps
    the watch table ([shared.rs]) and is appended to the operation log
    ([aof.rs]), which recovery replays.

    ** The files

    Prelude        machine integers over [Z] with their wrap-around, bits,
                   slices, little-endian codecs; the tactics and lemmas the
                   other files share.
    Record         [record.rs]: header word and record layout.  The bytes are
                   modelled twice, as the raw buffer the code addresses and as
                   the structured [cell] every other file uses; the two are
                   proved to agree.
    Hash           [hash.rs].
    Index, IndexSpec, Latch
                   [index.rs]: buckets, tags and overflow chains, against an
                   abstract map from (bucket, tag) to an address; the bucket
                   latches as a step relation of interleaved atomic accesses.
    Resp, RespSpec [resp.rs]: parser and writers; round trips.
    Session, Functions, FunctionsSpec
                   the callback interface as a class with its laws, the string
                   callbacks, and their refinement of an abstract string store.
    Epoch, EpochProtocol
                   [epoch.rs]: the sequential operations, and the protocol as a
                   step relation of atomic accesses by any number of threads.
    Device         [device.rs]: positioned reads and writes of bytes.
    Log, LogSpec, LogLive, LogTiling
                   [log.rs]: allocation, the four boundaries, flushing, closing
                   and reusing pages, scanning; the invariant that every record
                   allocated stays readable, progress of flushing, and that
                   the records of a page lie end to end, so that a walk from
                   its first one finds them all.
    Store, StoreInv, StoreSpec, StoreAttempt, StoreRefine, StoreOps
                   [store.rs]: the internal operations, attempt by attempt, and
                   the retry loops; the store implements a finite map, one
                   theorem per operation.
    Txn, TxnStore  [store.rs]: two-phase locking of buckets; no deadlock; the
                   operations inside a transaction keep the map and its latches.
    Scan, ScanSpec [store.rs]: the scan of live records; it visits the map.
    Checkpoint, CheckpointSpec
                   [checkpoint.rs]: phases, metadata, recovery of the index; a
                   checkpoint with nobody in flight, then recovery, give back
                   the map.
    Aof            [aof.rs]: framing, commit modes, waiting, truncation, replay.
    Glob           the pattern matcher of [commands.rs].
    Shared         [shared.rs]: watch table, shared state, SAVE; and [Database],
                   the class that states what a command needs of the store.
    Commands       [commands.rs]: every handler, over [Database].
    CommandsSpec   handlers as programs over a few primitives, the invariant of
                   a session, optimistic watches.
    CommandsTrace  a logic of effects over a database that records its calls:
                   two-phase locking, bookkeeping of writes, the log of EXEC;
                   the calls on the whole store (scan, clear, checkpoint) are
                   recorded too, and shown to come from their commands only.
    Replay         replay of the log ([shared.rs], second half).
    Server         [server.rs]: receive buffer, batches, admission.
    Config         [main.rs], settings in [shared.rs], [log.rs], [store.rs]:
                   command line, defaults, and start-up until connections are
                   accepted.
    StoreDb        the store as an instance of [Database]; recovery of the
                   server; whole commands, a restart and a connection evaluated
                   against the real store.
    Keyspace, StoreKeyspace
                   values and expirations instead of records: what the store's
                   operations do to the binding of a key, as a class of laws of
                   a [Database]; the store obeys them.
    Answers        the reference: the reply and the bindings every command on
                   string keys leaves, over a plain map, and what a client sees
                   of MULTI and EXEC.
    CommandsKeyspace, Conversation
                   the handlers answer as the reference, by a weakest
                   precondition; then a connection to the started server, from
                   the bytes sent to the bytes read back, and what the log says
                   of the commands executed.
    Clients        many connections on one store, taking turns: the slots of
                   the epoch table they claim, and what each one reads.
    Restart        a crash and a restart: replaying part of the log gives back
                   the bindings after some of the commands.

    ** Conventions

    Sequential code is a function; [None] is a panic, an index out of bounds, a
    read of memory that holds no record, or fuel that ran out.  Where the order
    of several threads' accesses matters (latches, epochs) the code is a step
    relation, one atomic access per step, and the theorems are invariants of all
    interleavings.  [u64] arithmetic is reduced with [wrap64], [i64] with
    [wrap_i64], as a release build does.  Operations of the store run one
    attempt at a time in an otherwise idle process: other threads' effects enter
    only through the state they leave, a script of one client at a time.

    ** Fuel

    Loops whose end is not structural carry fuel: a walk along a chain is
    bounded by its first address, since addresses descend; a probe of a bucket
    chain by the number of overflow buckets; the retry loops of the store by
    [ATTEMPTS] ([RETRIES] for the commands), proved to be enough; scans by the
    number of pages; a batch of commands by the bytes left; the matcher by the
    product of the lengths.  The theorems say that the result is reached within
    it.

    ** What the theorems show

    The whole: a client that sends a script of commands on string keys, in
    transactions or not, over one connection, in any pieces, reads back what the
    reference answers, byte by byte, and the store is left with the bindings of
    the reference.  Any number of clients that take turns, up to the size of the
    epoch table, are answered as the reference answers them, each with its own
    transaction.  And over a crash: if the server logs, whatever prefix of its
    log file survives, a restart brings back what the reference holds after a
    prefix of the commands executed, all of them when writes are committed and
    the file is whole, and the next clients are answered from there.
    The reference is silent where the code's answer depends on where a record
    lies (GETEX, SETNX, SET GET and DEL of a key that has expired but lingers, SET
    XX or SET GET without an expiry on a key that has one, PERSIST without one);
    room for a write is a budget of pages and overflow buckets, one of each per
    write, and a new store has it for scripts of [CAPACITY] = 131072 words, its
    overflow buckets; a read and a frame are at most [FRAME] = 32 KiB, half the
    receive buffer, and a record has to fit a page.
    Store: each operation returns and acts on an abstract map, in memory and on
    the device alike, and takes at most one page and one overflow bucket.
    Epochs: no thread reads what has been reclaimed.  Log: records survive until
    closed, waits for flushing end.  Index: the two-phase
    insertion implements insertion.  Latches: mutual exclusion, and what clearing
    the table breaks.  Callbacks: both update paths implement the command.
    Protocol: parsing and printing are inverse, incremental parsing is stable.
    Commands: locking, bookkeeping, the session invariant, conflicts, replay.
    Connections: replies do not depend on how the bytes arrive.
    Transactions: bucket order excludes deadlock, locks exclude other sessions
    and are given back.  Scans: every binding of the map, once.  Checkpoints: a
    quiet checkpoint followed by recovery keeps the map.
    Several theorems state defects of the code; the manifest lists them.

    ** Not modelled

    Sockets, threads and the module lists are I/O and glue.  The device and the
    log file are their contents; errors of the operating system are not
    modelled.  The reference leaves out WATCH, QUIT, scans, FLUSHDB and
    administration, most of which have theorems of their own, and a restart from
    a checkpoint and a log together is evaluated, not proved.  The bytes of the
    device are not tied to the records the log writes to it beyond the layout
    proved in Record. *)

From stdpp Require Export prelude list gmap strings.
From Stdlib Require Export ZArith Lia.
From Stdlib Require Ascii String.

Open Scope Z_scope.

(** ** Machine words

    A [u64] is a [Z] in [[0, 2^64)]; every wrapping operation of the code is
    written with [wrap64]. *)

Abbreviation word := Z (only parsing).
Abbreviation bytes := (list Z) (only parsing).

Definition two64 : Z := 2 ^ 64.
Definition wrap64 (z : Z) : Z := z mod two64.
(** Rust's [!x] on a [u64]. *)
Definition not64 (z : Z) : Z := Z.lxor z (Z.ones 64).
Definition is_u64 (z : Z) : Prop := 0 <= z < two64.

Definition i64_min : Z := - 2 ^ 63.
Definition i64_max : Z := 2 ^ 63 - 1.
Definition is_i64 (z : Z) : Prop := i64_min <= z <= i64_max.
Definition in_i64 (z : Z) : bool := (i64_min <=? z) && (z <=? i64_max).
(** Two's complement reduction to [i64] (release-mode arithmetic). *)
Definition wrap_i64 (z : Z) : Z := (z + 2 ^ 63) mod two64 - 2 ^ 63.
(** [i64::checked_add] and [i64::checked_mul]. *)
Definition checked_i64 (z : Z) : option Z := if in_i64 z then Some z else None.

Global Instance is_u64_dec z : Decision (is_u64 z).
Proof. unfold is_u64. apply _. Defined.
Global Instance is_i64_dec z : Decision (is_i64 z).
Proof. unfold is_i64. apply _. Defined.

Lemma in_i64_spec z : in_i64 z = true <-> is_i64 z.
Proof. unfold in_i64, is_i64. rewrite andb_true_iff, !Z.leb_le. tauto. Qed.

Lemma wrap_i64_range z : is_i64 (wrap_i64 z).
Proof.
  unfold is_i64, wrap_i64, i64_min, i64_max, two64.
  pose proof (Z.mod_pos_bound (z + 2 ^ 63) (2 ^ 64) eq_refl). lia.
Qed.

Lemma wrap_i64_id z : is_i64 z -> wrap_i64 z = z.
Proof.
  unfold is_i64, wrap_i64, i64_min, i64_max, two64. intros H.
  rewrite Z.mod_small by lia. lia.
Qed.

Lemma wrap64_range z : is_u64 (wrap64 z).
Proof. unfold is_u64, wrap64, two64. apply Z.mod_pos_bound. reflexivity. Qed.

Lemma wrap64_id z : is_u64 z -> wrap64 z = z.
Proof. unfold is_u64, wrap64. intros. by apply Z.mod_small. Qed.

(** ** Bits

    Header words, hash entries and latch words are all read through
    [Z.testbit]; [word_eq] reduces an equation between words to bits. *)

Lemma word_eq a b : (forall n, 0 <= n -> Z.testbit a n = Z.testbit b n) -> a = b.
Proof. intros H. apply Z.bits_inj'. exact H. Qed.

Lemma testbit_high w k n : 0 <= w < 2 ^ k -> k <= n -> Z.testbit w n = false.
Proof.
  intros [H0 H1] Hn. destruct (decide (w = 0)) as [->|]; [apply Z.bits_0|].
  apply Z.bits_above_log2; [done|].
  assert (Z.log2 w < k) by (apply Z.log2_lt_pow2; lia). lia.
Qed.

Lemma testbit_u64 w n : is_u64 w -> 64 <= n -> Z.testbit w n = false.
Proof. unfold is_u64, two64. intros. by apply (testbit_high w 64). Qed.

Lemma testbit_pow2 k n : 0 <= k -> Z.testbit (2 ^ k) n = (k =? n).
Proof. apply Z.pow2_bits_eqb. Qed.

Lemma testbit_ones k n : 0 <= k -> Z.testbit (Z.ones k) n = (0 <=? n) && (n <? k).
Proof. apply Z.testbit_ones. Qed.

Lemma testbit_not64 w n : 0 <= n ->
  Z.testbit (not64 w) n = xorb (Z.testbit w n) (n <? 64).
Proof.
  intros. unfold not64. rewrite Z.lxor_spec, testbit_ones by lia.
  by replace (0 <=? n) with true by lia.
Qed.

(** [w & (1 << k) != 0] tests bit [k]. *)
Lemma land_pow2_test w k : 0 <= k -> negb (Z.land w (2 ^ k) =? 0) = Z.testbit w k.
Proof.
  intros Hk. destruct (Z.testbit w k) eqn:E.
  - apply negb_true_iff, Z.eqb_neq. intros H0.
    apply (f_equal (fun z => Z.testbit z k)) in H0.
    rewrite Z.land_spec, testbit_pow2, Z.eqb_refl, E, Z.bits_0 in H0; done.
  - apply negb_false_iff, Z.eqb_eq, word_eq. intros n Hn.
    rewrite Z.land_spec, testbit_pow2, Z.bits_0 by done.
    destruct (Z.eqb_spec k n) as [<-|]; [by rewrite E|apply andb_false_r].
Qed.

Lemma land_ones_bound w k : 0 <= k -> 0 <= Z.land w (Z.ones k) < 2 ^ k.
Proof.
  intros. rewrite Z.land_ones by done. apply Z.mod_pos_bound.
  apply Z.pow_pos_nonneg; lia.
Qed.

Lemma bits_lt_pow2 w k :
  0 <= w -> 0 <= k -> (forall n, k <= n -> Z.testbit w n = false) -> w < 2 ^ k.
Proof.
  intros H0 Hk Hb. destruct (decide (w = 0)) as [->|]; [by apply Z.pow_pos_nonneg|].
  apply Z.log2_lt_pow2; [lia|].
  destruct (decide (Z.log2 w < k)) as [|Hge]; [done|exfalso].
  assert (Ht : Z.testbit w (Z.log2 w) = false) by (apply Hb; lia).
  rewrite Z.bit_log2 in Ht; [done|lia].
Qed.

Lemma lor_u64 a b : is_u64 a -> is_u64 b -> is_u64 (Z.lor a b).
Proof.
  unfold is_u64, two64. intros Ha Hb.
  assert (0 <= Z.lor a b) by (apply Z.lor_nonneg; lia). split; [done|].
  apply bits_lt_pow2; [done|lia|]. intros n Hn.
  rewrite Z.lor_spec, !(testbit_high _ 64) by lia. done.
Qed.

Lemma land_u64_l a b : is_u64 a -> is_u64 (Z.land a b).
Proof.
  unfold is_u64, two64. intros Ha.
  assert (0 <= Z.land a b) by (apply Z.land_nonneg; lia). split; [done|].
  apply bits_lt_pow2; [done|lia|]. intros n Hn.
  rewrite Z.land_spec, (testbit_high a 64) by lia. done.
Qed.

(** The bits of a word assembled from a low field and the rest. *)
Lemma testbit_split k lo hi n : 0 <= k -> 0 <= lo < 2 ^ k -> 0 <= n ->
  Z.testbit (lo + 2 ^ k * hi) n = if n <? k then Z.testbit lo n else Z.testbit hi (n - k).
Proof.
  intros Hk Hlo Hn. destruct (Z.ltb_spec n k).
  - rewrite <- (Z.mod_pow2_bits_low _ k) by lia. f_equal.
    rewrite Z.mul_comm, Z.mod_add by lia. by apply Z.mod_small.
  - replace n with (n - k + k) at 1 by lia. rewrite <- Z.div_pow2_bits by lia. f_equal.
    rewrite Z.mul_comm, Z.div_add by lia. rewrite Z.div_small by lia. lia.
Qed.

Create Rewrite HintDb bits.
#[export] Hint Rewrite Z.land_spec Z.lor_spec Z.lxor_spec Z.bits_0 : bits.
#[export] Hint Rewrite testbit_pow2 testbit_ones testbit_not64 using lia : bits.

Create HintDb words.
#[export] Hint Resolve wrap64_range lor_u64 land_u64_l wrap_i64_range : words.

(** Push [testbit] through the operations, decide the index comparisons that
    are linear, and finish with boolean case analysis. *)
Ltac bit_cases :=
  repeat match goal with
  | |- context [Z.eqb ?a ?b] => destruct (Z.eqb_spec a b); [try lia; try subst|]
  | |- context [Z.ltb ?a ?b] => destruct (Z.ltb_spec a b); try lia
  | |- context [Z.leb ?a ?b] => destruct (Z.leb_spec a b); try lia
  end.
Ltac bool_solve :=
  repeat match goal with
  | |- context [Z.testbit ?a ?b] => destruct (Z.testbit a b)
  end; simpl; try reflexivity; try congruence.
Ltac bits := autorewrite with bits; bit_cases; bool_solve.

(** Case analysis on every scrutinee of a hypothesis, the failed branches
    discarded. *)
Ltac split_match H :=
  repeat match type of H with
  | context [match ?x with _ => _ end] => destruct x eqn:?; cbn [mbind option_bind fmap option_fmap option_map] in H; try discriminate H
  end.

(** Case analysis on the scrutinee of the first [match] or [if] of the goal. *)
Ltac case_match_eqn :=
  match goal with
  | |- context [match ?x with _ => _ end] => destruct x eqn:?
  end.

(** ** Bytes and strings *)

Definition is_byte (b : Z) : Prop := 0 <= b < 256.
Definition is_bytes (l : bytes) : Prop := Forall is_byte l.

(** A Rust byte-string literal [b"..."]. *)
Definition bs (s : string) : bytes :=
  map (fun a => Z.of_nat (Ascii.nat_of_ascii a)) (String.list_ascii_of_string s).

(** [&buf[s..e]]; the callers establish [s <= e <= len]. *)
Definition slice {A} (s e : nat) (l : list A) : list A := take (e - s) (drop s l).

Lemma length_slice {A} s e (l : list A) :
  (s <= e)%nat -> (e <= length l)%nat -> length (slice s e l) = (e - s)%nat.
Proof. intros. unfold slice. rewrite length_take, length_drop. lia. Qed.

Lemma slice_app_middle {A} (a b c : list A) :
  slice (length a) (length a + length b) (a ++ b ++ c) = b.
Proof.
  unfold slice. rewrite drop_app_length.
  replace (length a + length b - length a)%nat with (length b) by lia.
  by rewrite take_app_length.
Qed.

Lemma slice_app_l {A} s e (l k : list A) :
  (e <= length l)%nat -> slice s e (l ++ k) = slice s e l.
Proof.
  intros. unfold slice. destruct (decide (s <= length l)%nat).
  - rewrite drop_app_le by done. rewrite take_app_le; [done|]. rewrite length_drop. lia.
  - replace (e - s)%nat with 0%nat by lia. done.
Qed.

(** Overwrite [l[off..off+len b]] with [b]. *)
Definition splice {A} (off : nat) (b l : list A) : list A :=
  take off l ++ b ++ drop (off + length b) l.

Lemma length_splice {A} off (b l : list A) :
  (off + length b <= length l)%nat -> length (splice off b l) = length l.
Proof.
  intros. unfold splice. rewrite !length_app, length_take, length_drop. lia.
Qed.

Lemma slice_splice_same {A} off (b l : list A) :
  (off + length b <= length l)%nat -> slice off (off + length b) (splice off b l) = b.
Proof.
  intros H. unfold splice.
  assert (E : length (take off l) = off) by (rewrite length_take; lia).
  rewrite <- E at 1 2. apply slice_app_middle.
Qed.

Lemma lookup_splice_out {A} off (b l : list A) i :
  (off + length b <= length l)%nat -> (i < off \/ off + length b <= i)%nat ->
  splice off b l !! i = l !! i.
Proof.
  intros Hl Hi. unfold splice.
  assert (E : length (take off l) = off) by (rewrite length_take; lia).
  destruct Hi.
  - rewrite lookup_app_l by lia. by apply lookup_take_lt.
  - rewrite lookup_app_r by lia. rewrite lookup_app_r by lia.
    rewrite lookup_drop. f_equal. lia.
Qed.

Lemma lookup_slice {A} s e (l : list A) i :
  (i < e - s)%nat -> slice s e l !! i = l !! (s + i)%nat.
Proof. intros. unfold slice. rewrite lookup_take_lt by done. apply lookup_drop. Qed.

Lemma slice_ext {A} s e (l k : list A) :
  length l = length k ->
  (forall i, (s <= i < e)%nat -> l !! i = k !! i) -> slice s e l = slice s e k.
Proof.
  intros Hlen H. apply list_eq. intros i.
  destruct (decide (i < e - s)%nat).
  - rewrite !lookup_slice by done. apply H. lia.
  - unfold slice. rewrite !lookup_take_ge by lia. done.
Qed.

Lemma slice_splice_out {A} off (b l : list A) s e :
  (off + length b <= length l)%nat -> (e <= off \/ off + length b <= s)%nat ->
  slice s e (splice off b l) = slice s e l.
Proof.
  intros Hl Hd. apply slice_ext; [by apply length_splice|].
  intros i Hi. apply lookup_splice_out; [done|lia].
Qed.

(** ** Little-endian integers: [to_le_bytes] and [from_le_bytes] *)

Fixpoint le_bytes (n : nat) (z : Z) : bytes :=
  match n with
  | O => []
  | S n => z mod 256 :: le_bytes n (z / 256)
  end.
Fixpoint le_value (l : bytes) : Z :=
  match l with
  | [] => 0
  | b :: l => b + 256 * le_value l
  end.

Lemma length_le_bytes n z : length (le_bytes n z) = n.
Proof. revert z. induction n; intros; simpl; [done|by rewrite IHn]. Qed.

Lemma le_bytes_ok n z : is_bytes (le_bytes n z).
Proof.
  revert z. induction n; intros; simpl; constructor.
  - unfold is_byte. apply Z.mod_pos_bound. lia.
  - apply IHn.
Qed.

Lemma le_value_bytes n z : le_value (le_bytes n z) = z mod 256 ^ Z.of_nat n.
Proof.
  revert z. induction n as [|n IH]; intros z; simpl.
  - by rewrite Z.mod_1_r.
  - rewrite IH. replace (Z.of_nat (S n)) with (1 + Z.of_nat n) by lia.
    rewrite Z.pow_add_r, Z.pow_1_r by lia.
    rewrite Z.rem_mul_r; [lia|lia|]. apply Z.pow_pos_nonneg; lia.
Qed.

Lemma le_value_small n z :
  0 <= z < 256 ^ Z.of_nat n -> le_value (le_bytes n z) = z.
Proof. intros. rewrite le_value_bytes. by apply Z.mod_small. Qed.

Lemma le_value_bound l : is_bytes l -> 0 <= le_value l < 256 ^ Z.of_nat (length l).
Proof.
  induction 1 as [|b l Hb Hl IH]; cbn [le_value length]; [lia|].
  replace (Z.of_nat (S (length l))) with (1 + Z.of_nat (length l)) by lia.
  rewrite Z.pow_add_r, Z.pow_1_r by lia. unfold is_byte in Hb. lia.
Qed.

Lemma le_bytes_value l : is_bytes l -> le_bytes (length l) (le_value l) = l.
Proof.
  induction 1 as [|b l Hb Hl IH]; cbn [le_value length le_bytes]; [done|].
  unfold is_byte in Hb. f_equal.
  - replace (b + 256 * le_value l) with (b + le_value l * 256) by lia.
    rewrite Z.mod_add by lia. by apply Z.mod_small.
  - replace (b + 256 * le_value l) with (b + le_value l * 256) by lia.
    rewrite Z.div_add, Z.div_small by lia. exact IH.
Qed.

#[global] Arguments le_bytes : simpl never.

(** A signed 64-bit integer read back from its unsigned image. *)
Definition i64_of_u64 (z : Z) : Z := if z <? 2 ^ 63 then z else z - two64.
Definition u64_of_i64 (z : Z) : Z := wrap64 z.

Lemma i64_of_u64_of_i64 z : is_i64 z -> i64_of_u64 (u64_of_i64 z) = z.
Proof.
  unfold is_i64, i64_of_u64, u64_of_i64, wrap64, i64_min, i64_max, two64. intros H.
  destruct (decide (0 <= z)).
  - rewrite Z.mod_small by lia. destruct (Z.ltb_spec z (2 ^ 63)); lia.
  - replace (z mod 2 ^ 64) with (z + 2 ^ 64).
    + destruct (Z.ltb_spec (z + 2 ^ 64) (2 ^ 63)); lia.
    + apply Z.mod_unique with (-1); lia.
Qed.

(** ** Results

    [Result<A, E>] is [E + A]; [←] is the [?] operator. *)

#[export] Instance sum_bind {E} : MBind (sum E) := fun A B f m =>
  match m with inl e => inl e | inr a => f a end.
#[export] Instance sum_ret {E} : MRet (sum E) := fun A => inr.

(** ** Lists *)

Lemma filter_ext_in {A} (P Q : A -> Prop) `{forall x, Decision (P x)} `{forall x, Decision (Q x)}
    (l : list A) : (forall x, x ∈ l -> (P x <-> Q x)) -> filter P l = filter Q l.
Proof.
  induction l as [|a l IH]; intros H1; [done|].
  assert (Ea := H1 a ltac:(by left)). rewrite !filter_cons, IH by (intros; apply H1; by right).
  destruct (decide (P a)), (decide (Q a)); tauto.
Qed.

Lemma alter_insert_twice {A} (ls : list (list A)) n i w w' :
  alter (fun l => <[i := w']> l) n (alter (fun l => <[i := w]> l) n ls) =
  alter (fun l => <[i := w']> l) n ls.
Proof.
  apply list_eq. intros j. destruct (decide (n = j)) as [->|].
  - rewrite !list_lookup_alter_eq. destruct (ls !! j); [simpl|done]. f_equal.
    apply list_insert_insert_eq.
  - by rewrite !list_lookup_alter_ne.
Qed.
