(* ===== verification/Record.v ===== *)
(** * Records of the hybrid log ([crates/tsavorite/src/record.rs])

    The [RecordInfo] header word, the layout arithmetic, the byte-level
    accessors of [RecordPtr] over a page image, and the structured [cell] that
    the rest of the development manipulates in place of raw bytes, with the
    theorems that justify it. *)

From S2P Require Import Prelude.

(** ** The [RecordInfo] word *)

Definition ADDRESS_BITS : Z := 48.
Definition ADDRESS_MASK : Z := Z.ones 48.
Definition TOMBSTONE_BIT : Z := 2 ^ 48.
Definition VALID_BIT : Z := 2 ^ 49.
Definition IN_NEW_VERSION_BIT : Z := 2 ^ 50.
Definition MODIFIED_BIT : Z := 2 ^ 51.
Definition SEALED_BIT : Z := 2 ^ 52.
Definition INVALID_ADDRESS : Z := 0.
Definition TEMP_INVALID_ADDRESS : Z := 1.

Definition info_new (previous_address : Z) (in_new_version : bool) : word :=
  let w := Z.land previous_address ADDRESS_MASK in
  if in_new_version then Z.lor w IN_NEW_VERSION_BIT else w.
Definition previous_address (w : word) : Z := Z.land w ADDRESS_MASK.
Definition is_valid (w : word) : bool := negb (Z.land w VALID_BIT =? 0).
Definition is_tombstone (w : word) : bool := negb (Z.land w TOMBSTONE_BIT =? 0).
Definition is_sealed (w : word) : bool := negb (Z.land w SEALED_BIT =? 0).
Definition in_new_version (w : word) : bool := negb (Z.land w IN_NEW_VERSION_BIT =? 0).
Definition is_modified (w : word) : bool := negb (Z.land w MODIFIED_BIT =? 0).
Definition is_closed (w : word) : bool := negb (is_valid w) || is_sealed w.

(** The atomic updates, as functions from the old word to the new one. *)
Definition unseal_and_validate (w : word) : word :=
  Z.land (Z.lor w VALID_BIT) (not64 SEALED_BIT).
Definition try_seal (w : word) : bool * word :=
  if negb (Z.land w SEALED_BIT =? 0) || (Z.land w VALID_BIT =? 0) then (false, w)
  else (true, Z.lor w SEALED_BIT).
Definition seal_and_invalidate (w : word) : word :=
  Z.land (Z.lor w SEALED_BIT) (not64 VALID_BIT).
Definition set_invalid (w : word) : word := Z.land w (not64 VALID_BIT).
Definition set_tombstone (w : word) : word := Z.lor w TOMBSTONE_BIT.
Definition set_modified (w : word) : word := Z.lor w MODIFIED_BIT.
Definition try_update_previous_address (w expected new : word) : bool * word :=
  if negb (Z.land w ADDRESS_MASK =? Z.land expected ADDRESS_MASK) then (false, w)
  else (true, Z.lor (Z.land w (not64 ADDRESS_MASK)) (Z.land new ADDRESS_MASK)).

(** *** The CAS loops

    [unseal_and_validate], [try_seal] and [try_update_previous_address] are
    loops around [compare_exchange_weak].  [cas_loop f w env] runs one of them
    against an environment: [w] is the value last read, and each element of
    [env] is the content of the cell at the next CAS together with a flag that
    makes the weak CAS fail spuriously.  [None]: still looping when [env] ends;
    [Some (inl w)]: gave up on the value [w]; [Some (inr (c, n))]: the CAS
    replaced the content [c] by [n]. *)
Fixpoint cas_loop (f : word -> option word) (w : word) (env : list (word * bool))
    : option (word + word * word) :=
  match f w with
  | None => Some (inl w)
  | Some n =>
      match env with
      | [] => None
      | (c, spurious) :: env =>
          if (c =? w) && negb spurious then Some (inr (c, n)) else cas_loop f c env
      end
  end.
Definition try_seal_body (w : word) : option word :=
  if negb (Z.land w SEALED_BIT =? 0) || (Z.land w VALID_BIT =? 0) then None
  else Some (Z.lor w SEALED_BIT).
Definition unseal_and_validate_body (w : word) : option word :=
  Some (Z.land (Z.lor w VALID_BIT) (not64 SEALED_BIT)).

(** *** Reading a word by bits *)

Lemma is_valid_bit w : is_valid w = Z.testbit w 49.
Proof. by apply (land_pow2_test w 49). Qed.
Lemma is_tombstone_bit w : is_tombstone w = Z.testbit w 48.
Proof. by apply (land_pow2_test w 48). Qed.
Lemma is_sealed_bit w : is_sealed w = Z.testbit w 52.
Proof. by apply (land_pow2_test w 52). Qed.
Lemma in_new_version_bit w : in_new_version w = Z.testbit w 50.
Proof. by apply (land_pow2_test w 50). Qed.
Lemma is_modified_bit w : is_modified w = Z.testbit w 51.
Proof. by apply (land_pow2_test w 51). Qed.

Create Rewrite HintDb info.
#[export] Hint Rewrite is_valid_bit is_tombstone_bit is_sealed_bit
  in_new_version_bit is_modified_bit : info.

Ltac unfold_info :=
  unfold is_closed, info_new, unseal_and_validate, seal_and_invalidate, set_invalid,
    set_tombstone, set_modified, previous_address, ADDRESS_MASK, TOMBSTONE_BIT,
    VALID_BIT, IN_NEW_VERSION_BIT, MODIFIED_BIT, SEALED_BIT in *.
Ltac info_bits := autorewrite with info; unfold_info; bits.

Lemma previous_address_range w : 0 <= previous_address w < 2 ^ 48.
Proof. apply land_ones_bound. lia. Qed.

Lemma previous_address_small a : 0 <= a < 2 ^ 48 -> Z.land a ADDRESS_MASK = a.
Proof.
  intros. unfold ADDRESS_MASK. rewrite Z.land_ones by lia. by apply Z.mod_small.
Qed.

(** Two words agree on the address exactly when their low 48 bits agree. *)
Lemma previous_address_ext w w' :
  (forall n, 0 <= n < 48 -> Z.testbit w n = Z.testbit w' n) ->
  previous_address w = previous_address w'.
Proof.
  intros H. apply word_eq. intros n Hn. unfold previous_address, ADDRESS_MASK.
  rewrite !Z.land_spec, testbit_ones by lia.
  destruct (Z.ltb_spec n 48); [rewrite (H n) by lia; done|].
  by rewrite !andb_false_r.
Qed.

Lemma info_new_u64 a v : is_u64 (info_new a v).
Proof.
  assert (H : is_u64 (Z.land a ADDRESS_MASK)).
  { pose proof (land_ones_bound a 48). unfold is_u64, two64, ADDRESS_MASK. lia. }
  unfold info_new. destruct v; [|done]. apply lor_u64; [done|].
  unfold is_u64, two64, IN_NEW_VERSION_BIT. lia.
Qed.

(** The observable content of a header word. *)
Record info_view := InfoView {
  v_prev : Z; v_tombstone : bool; v_valid : bool; v_new : bool;
  v_modified : bool; v_sealed : bool }.
Definition view (w : word) : info_view :=
  InfoView (previous_address w) (is_tombstone w) (is_valid w) (in_new_version w)
    (is_modified w) (is_sealed w).

Ltac view_solve :=
  unfold view; f_equal;
  [ try (apply previous_address_ext; intros; info_bits) | try info_bits.. ].

Lemma view_info_new a v : 0 <= a < 2 ^ 48 ->
  view (info_new a v) = InfoView a false false v false false.
Proof.
  intros Ha.
  assert (forall n, 48 <= n -> Z.testbit a n = false) as Hb
    by (intros; by apply (testbit_high a 48)).
  unfold view. f_equal.
  - rewrite <- (previous_address_small a) at 2 by done.
    apply previous_address_ext. intros. destruct v; info_bits.
  - destruct v; info_bits.
  - destruct v; info_bits.
  - destruct v; info_bits.
  - destruct v; info_bits.
  - destruct v; info_bits.
Qed.

Lemma view_unseal_and_validate w :
  view (unseal_and_validate w) =
  let v := view w in
  InfoView (v_prev v) (v_tombstone v) true (v_new v) (v_modified v) false.
Proof. view_solve. Qed.
Lemma view_seal_and_invalidate w :
  view (seal_and_invalidate w) =
  let v := view w in
  InfoView (v_prev v) (v_tombstone v) false (v_new v) (v_modified v) true.
Proof. view_solve. Qed.
Lemma view_set_invalid w :
  view (set_invalid w) =
  let v := view w in
  InfoView (v_prev v) (v_tombstone v) false (v_new v) (v_modified v) (v_sealed v).
Proof. view_solve. Qed.
Lemma view_set_tombstone w :
  view (set_tombstone w) =
  let v := view w in
  InfoView (v_prev v) true (v_valid v) (v_new v) (v_modified v) (v_sealed v).
Proof. view_solve. Qed.
Lemma view_set_modified w :
  view (set_modified w) =
  let v := view w in
  InfoView (v_prev v) (v_tombstone v) (v_valid v) (v_new v) true (v_sealed v).
Proof. view_solve. Qed.
Lemma view_lor_sealed w :
  view (Z.lor w SEALED_BIT) =
  let v := view w in
  InfoView (v_prev v) (v_tombstone v) (v_valid v) (v_new v) (v_modified v) true.
Proof. view_solve. Qed.

Lemma try_seal_view w :
  try_seal w =
  if v_valid (view w) && negb (v_sealed (view w)) then (true, Z.lor w SEALED_BIT)
  else (false, w).
Proof.
  unfold try_seal. cbn. unfold is_sealed, is_valid.
  destruct (Z.land w SEALED_BIT =? 0), (Z.land w VALID_BIT =? 0); done.
Qed.

Lemma view_relink w a : 0 <= a < 2 ^ 48 ->
  view (Z.lor (Z.land w (not64 ADDRESS_MASK)) (Z.land a ADDRESS_MASK)) =
  let v := view w in
  InfoView a (v_tombstone v) (v_valid v) (v_new v) (v_modified v) (v_sealed v).
Proof.
  intros Ha.
  assert (forall n, 48 <= n -> Z.testbit a n = false) as Hb
    by (intros; by apply (testbit_high a 48)).
  unfold view. f_equal; [|info_bits..].
  rewrite <- (previous_address_small a) at 2 by done.
  apply previous_address_ext. intros. info_bits.
Qed.

(** A CAS loop that stops successfully replaced, atomically, exactly the value
    it had last read; so its effect is the pure function at one instant. *)
Lemma cas_loop_success f w env c n :
  cas_loop f w env = Some (inr (c, n)) ->
  f c = Some n /\ exists i, env !! i = Some (c, false).
Proof.
  revert w. induction env as [|[c' s] env IH]; intros w; simpl.
  - by destruct (f w).
  - destruct (f w) as [m|] eqn:Ef; [|done].
    destruct (Z.eqb_spec c' w) as [->|]; simpl.
    + destruct s; simpl.
      * intros [? [i ?]]%IH. split; [done|]. by exists (S i).
      * intros [= -> ->]. split; [done|]. by exists 0%nat.
    + intros [? [i ?]]%IH. split; [done|]. by exists (S i).
Qed.

Lemma cas_loop_refusal f w env c :
  cas_loop f w env = Some (inl c) -> f c = None.
Proof.
  revert w. induction env as [|[c' s] env IH]; intros w; simpl.
  - destruct (f w) eqn:Ef; [done|]. by intros [= <-].
  - destruct (f w) as [m|] eqn:Ef; [|by intros [= <-]].
    destruct ((c' =? w) && negb s); [done|]. apply IH.
Qed.

(** ** Layout arithmetic *)

Definition RECORD_INFO_SIZE : nat := 8.
Definition DATA_HEADER_SIZE : nat := 16.
Definition FIXED_HEADER_SIZE : nat := RECORD_INFO_SIZE + DATA_HEADER_SIZE.
Definition EXPIRATION_SIZE : nat := 8.
Definition FLAG_HAS_EXPIRATION : Z := 1.
Definition MIN_DISK_READ : nat := FIXED_HEADER_SIZE.
#[global] Arguments FIXED_HEADER_SIZE : simpl never.
#[global] Arguments EXPIRATION_SIZE : simpl never.

Record RecordSizeInfo := SizeInfo {
  key_len_of : nat; value_cap_of : nat; has_expiration_of : bool }.

Definition align8 (n : Z) : Z := Z.land (n + 7) (not64 7).

Definition total_size_of (s : RecordSizeInfo) : Z :=
  align8 (Z.of_nat (FIXED_HEADER_SIZE +
    (if has_expiration_of s then EXPIRATION_SIZE else 0) +
    key_len_of s + value_cap_of s)).

Lemma align8_eq n : 0 <= n < 2 ^ 63 -> align8 n = 8 * ((n + 7) / 8).
Proof.
  intros Hn. unfold align8.
  replace (8 * ((n + 7) / 8)) with (Z.shiftl (Z.shiftr (n + 7) 3) 3)
    by (rewrite Z.shiftl_mul_pow2, Z.shiftr_div_pow2 by lia; change (2 ^ 3) with 8; lia).
  apply word_eq. intros k Hk. change 7 with (Z.ones 3) at 2.
  rewrite Z.land_spec, testbit_not64, testbit_ones by lia.
  destruct (decide (k < 3)).
  - rewrite Z.shiftl_spec_low by lia.
    destruct (Z.leb_spec 0 k), (Z.ltb_spec k 3), (Z.ltb_spec k 64); try lia.
    simpl. apply andb_false_r.
  - rewrite Z.shiftl_spec, Z.shiftr_spec by lia. replace (k - 3 + 3) with k by lia.
    destruct (Z.ltb_spec k 64).
    + destruct (Z.leb_spec 0 k), (Z.ltb_spec k 3); try lia. simpl. apply andb_true_r.
    + rewrite (testbit_high (n + 7) 64) by lia. done.
Qed.

(** An aligned size is the least multiple of 8 that is large enough. *)
Lemma align8_spec n : 0 <= n < 2 ^ 63 ->
  align8 n mod 8 = 0 /\ n <= align8 n < n + 8.
Proof.
  intros Hn. rewrite align8_eq by done.
  replace (8 * ((n + 7) / 8)) with ((n + 7) / 8 * 8) by lia. rewrite Z.mod_mul by lia.
  pose proof (Z.div_mod (n + 7) 8). pose proof (Z.mod_pos_bound (n + 7) 8). lia.
Qed.

(** ** [RecordPtr] over a page image

    [mem] is the byte image and [p] the offset of the record in it. *)

Definition info_load (mem : bytes) (p : nat) : word := le_value (slice p (p + 8) mem).
Definition info_store (mem : bytes) (p : nat) (w : word) : bytes :=
  splice p (le_bytes 8 w) mem.
Definition hdr_off (p i : nat) : nat := p + RECORD_INFO_SIZE + 4 * i.
Definition hdr_u32 (mem : bytes) (p i : nat) : Z :=
  le_value (slice (hdr_off p i) (hdr_off p i + 4) mem).
Definition set_hdr_u32 (mem : bytes) (p i : nat) (v : Z) : bytes :=
  splice (hdr_off p i) (le_bytes 4 v) mem.
Definition key_len (mem : bytes) (p : nat) : nat := Z.to_nat (hdr_u32 mem p 0).
Definition value_len (mem : bytes) (p : nat) : nat := Z.to_nat (hdr_u32 mem p 1).
Definition value_cap (mem : bytes) (p : nat) : nat := Z.to_nat (hdr_u32 mem p 2).
Definition flags (mem : bytes) (p : nat) : Z := hdr_u32 mem p 3.
Definition has_expiration_slot (mem : bytes) (p : nat) : bool :=
  negb (Z.land (flags mem p) FLAG_HAS_EXPIRATION =? 0).
Definition key_offset (mem : bytes) (p : nat) : nat :=
  FIXED_HEADER_SIZE + (if has_expiration_slot mem p then EXPIRATION_SIZE else 0).
Definition key (mem : bytes) (p : nat) : bytes :=
  let o := (p + key_offset mem p)%nat in slice o (o + key_len mem p) mem.
Definition value (mem : bytes) (p : nat) : bytes :=
  let o := (p + key_offset mem p + key_len mem p)%nat in
  slice o (o + value_len mem p) mem.
(** [value_buf_mut()[off..off + len v].copy_from_slice(v)], within capacity. *)
Definition value_buf_write (mem : bytes) (p off : nat) (v : bytes) : bytes :=
  splice (p + key_offset mem p + key_len mem p + off) v mem.
Definition set_value_len (mem : bytes) (p : nat) (n : nat) : bytes :=
  set_hdr_u32 mem p 1 (Z.of_nat n).
Definition expiration (mem : bytes) (p : nat) : Z :=
  if has_expiration_slot mem p
  then i64_of_u64 (le_value (slice (p + FIXED_HEADER_SIZE) (p + FIXED_HEADER_SIZE + 8) mem))
  else 0.
Definition set_expiration (mem : bytes) (p : nat) (ts : Z) : bool * bytes :=
  if has_expiration_slot mem p
  then (true, splice (p + FIXED_HEADER_SIZE) (le_bytes 8 (u64_of_i64 ts)) mem)
  else (false, mem).
Definition total_size (mem : bytes) (p : nat) : Z :=
  align8 (Z.of_nat (key_offset mem p + key_len mem p + value_cap mem p)).
Definition init (mem : bytes) (p : nat) (prev : word) (in_new : bool)
    (size : RecordSizeInfo) (k : bytes) : bytes :=
  let info := Z.lor (info_new prev in_new) SEALED_BIT in
  let mem := info_store mem p info in
  let mem := set_hdr_u32 mem p 0 (Z.of_nat (length k)) in
  let mem := set_hdr_u32 mem p 1 0 in
  let mem := set_hdr_u32 mem p 2 (Z.of_nat (value_cap_of size)) in
  let mem := set_hdr_u32 mem p 3
               (if has_expiration_of size then FLAG_HAS_EXPIRATION else 0) in
  let mem := if has_expiration_of size then snd (set_expiration mem p 0) else mem in
  splice (p + key_offset mem p) k mem.
Definition to_bytes (mem : bytes) (p : nat) : bytes :=
  slice p (p + Z.to_nat (total_size mem p)) mem.
Definition total_size_from_header (hdr : bytes) : Z :=
  let u i := le_value (slice (RECORD_INFO_SIZE + 4 * i) (RECORD_INFO_SIZE + 4 * i + 4) hdr) in
  let exp := if negb (Z.land (u 3%nat) FLAG_HAS_EXPIRATION =? 0)
             then Z.of_nat EXPIRATION_SIZE else 0 in
  align8 (Z.of_nat FIXED_HEADER_SIZE + exp + u 0%nat + u 2%nat).

(** The layout test of the source, at the byte level. *)
Definition layout_sample : bytes :=
  let size := SizeInfo 3 10 true in
  let mem := init (replicate 48 0) 0 0x1234 true size (bs "abc") in
  let mem := value_buf_write mem 0 0 (bs "hello") in
  let mem := set_value_len mem 0 5 in
  let mem := snd (set_expiration mem 0 99) in
  info_store mem 0 (unseal_and_validate (info_load mem 0)).
Example layout_roundtrip_sample :
  let m := layout_sample in
  (previous_address (info_load m 0), is_valid (info_load m 0), is_sealed (info_load m 0),
   key m 0, value m 0, expiration m 0, total_size m 0,
   total_size_from_header (to_bytes m 0)) =
  (0x1234, true, false, bs "abc", bs "hello", 99, 48, 48).
Proof. vm_compute. reflexivity. Qed.

(** ** Cells: records as structured values

    [c_buf] is the whole value capacity, of which the first [c_vlen] bytes are
    the value; [c_slot] is the expiration slot, when the record has one. *)

Record cell := Cell {
  c_info : word; c_key : bytes; c_vlen : nat; c_buf : bytes; c_slot : option Z }.

Definition c_value (c : cell) : bytes := take (c_vlen c) (c_buf c).
Definition c_cap (c : cell) : nat := length (c_buf c).
Definition c_has_slot (c : cell) : bool := match c_slot c with Some _ => true | None => false end.
Definition c_expiration (c : cell) : Z := default 0 (c_slot c).
Definition c_set_info (c : cell) (w : word) : cell :=
  Cell w (c_key c) (c_vlen c) (c_buf c) (c_slot c).
Definition c_set_value_len (c : cell) (n : nat) : cell :=
  Cell (c_info c) (c_key c) n (c_buf c) (c_slot c).
Definition c_write_buf (c : cell) (off : nat) (v : bytes) : cell :=
  Cell (c_info c) (c_key c) (c_vlen c) (splice off v (c_buf c)) (c_slot c).
Definition c_set_expiration (c : cell) (ts : Z) : bool * cell :=
  match c_slot c with
  | Some _ => (true, Cell (c_info c) (c_key c) (c_vlen c) (c_buf c) (Some ts))
  | None => (false, c)
  end.
Definition c_total_size (c : cell) : Z :=
  total_size_of (SizeInfo (length (c_key c)) (c_cap c) (c_has_slot c)).
(** [RecordPtr::init] on zeroed memory. *)
Definition c_init (prev : word) (in_new : bool) (size : RecordSizeInfo) (k : bytes) : cell :=
  Cell (Z.lor (info_new prev in_new) SEALED_BIT) k 0 (replicate (value_cap_of size) 0)
    (if has_expiration_of size then Some 0 else None).

Definition cell_ok (c : cell) : Prop :=
  is_u64 (c_info c) /\ Z.of_nat (length (c_key c)) < 2 ^ 32 /\
  Z.of_nat (c_cap c) < 2 ^ 32 /\ (c_vlen c <= c_cap c)%nat /\
  match c_slot c with Some ts => is_i64 ts | None => True end.

(** *** What is stored at an offset *)

(** [l] is stored at offset [p] of [mem]. *)
Definition holds (mem : bytes) (p : nat) (l : bytes) : Prop :=
  exists a b, mem = a ++ l ++ b /\ length a = p.

Lemma holds_sub mem p a f b q :
  holds mem p (a ++ f ++ b) -> q = (p + length a)%nat -> holds mem q f.
Proof.
  intros (x & y & -> & <-) ->. exists (x ++ a), (b ++ y).
  rewrite length_app, <- !app_assoc. done.
Qed.

Lemma holds_slice mem p f n : holds mem p f -> length f = n -> slice p (p + n) mem = f.
Proof. intros (a & b & -> & <-) <-. apply slice_app_middle. Qed.

Lemma holds_splice mem p a f b f' q :
  holds mem p (a ++ f ++ b) -> length f' = length f -> q = (p + length a)%nat ->
  holds (splice q f' mem) p (a ++ f' ++ b).
Proof.
  intros (x & y & -> & <-) Hl ->. exists x, y. split; [|done].
  rewrite <- !app_assoc. unfold splice.
  replace (x ++ a ++ f ++ b ++ y) with ((x ++ a) ++ f ++ b ++ y) by by rewrite <- !app_assoc.
  rewrite <- length_app, take_app_length, Hl, <- length_app.
  replace ((x ++ a) ++ f ++ b ++ y) with (((x ++ a) ++ f) ++ b ++ y) by by rewrite <- !app_assoc.
  rewrite drop_app_length. by rewrite <- !app_assoc.
Qed.

Lemma holds_bound mem p l : holds mem p l -> (p + length l <= length mem)%nat.
Proof. intros (a & b & -> & <-). rewrite !length_app. lia. Qed.

(** A record image is a header word, four 32-bit words and a body. *)
Definition hdr_bytes (hdr : list Z) : bytes := concat (map (le_bytes 4) hdr).
Definition raw_at (mem : bytes) (p : nat) (i : word) (hdr : list Z) (body : bytes) : Prop :=
  holds mem p (le_bytes 8 i ++ hdr_bytes hdr ++ body) /\ length hdr = 4%nat.

Lemma length_hdr_bytes hdr : length (hdr_bytes hdr) = (4 * length hdr)%nat.
Proof.
  unfold hdr_bytes. induction hdr as [|v hdr IH]; [done|]. cbn [map concat length].
  rewrite length_app, length_le_bytes, IH. lia.
Qed.

Lemma hdr_bytes_app a b : hdr_bytes (a ++ b) = hdr_bytes a ++ hdr_bytes b.
Proof. unfold hdr_bytes. by rewrite map_app, concat_app. Qed.

(** The [j]-th 32-bit word of the header, located. *)
Lemma raw_focus hdr j (v : Z) body i : hdr !! j = Some v ->
  exists a b, hdr = a ++ v :: b /\ length a = j /\
  le_bytes 8 i ++ hdr_bytes hdr ++ body =
  (le_bytes 8 i ++ hdr_bytes a) ++ le_bytes 4 v ++ (hdr_bytes b ++ body) /\
  length (le_bytes 8 i ++ hdr_bytes a) = (8 + 4 * j)%nat.
Proof.
  intros Hj. exists (take j hdr), (drop (S j) hdr).
  assert (Hlt := lookup_lt_Some _ _ _ Hj).
  assert (E : hdr = take j hdr ++ v :: drop (S j) hdr) by (symmetry; by apply take_drop_middle).
  assert (El : length (take j hdr) = j) by (rewrite length_take; lia).
  split_and!; [done|done| |by rewrite length_app, length_hdr_bytes, length_le_bytes, El].
  rewrite E at 1. rewrite hdr_bytes_app. unfold hdr_bytes at 2. cbn [map concat].
  fold (hdr_bytes (drop (S j) hdr)). by rewrite <- !app_assoc.
Qed.

Section Raw.
Context (mem : bytes) (p : nat) (i : word) (hdr : list Z) (body : bytes).
Context (Hraw : raw_at mem p i hdr body).

Lemma raw_info_load : is_u64 i -> info_load mem p = i.
  Proof.
    intros Hi. destruct Hraw as [H _]. unfold info_load.
    rewrite (holds_slice _ _ (le_bytes 8 i) 8); [by apply le_value_small| |apply length_le_bytes].
    apply (holds_sub _ _ [] _ _ _ H). simpl. lia.
  Qed.

Lemma raw_info_store w : raw_at (info_store mem p w) p w hdr body.
  Proof.
    destruct Hraw as [H Hl]. split; [|done].
    apply (holds_splice _ _ [] (le_bytes 8 i) _ _ _ H); [by rewrite !length_le_bytes|simpl; lia].
  Qed.

Lemma raw_hdr_u32 j v : hdr !! j = Some v -> 0 <= v < 2 ^ 32 -> hdr_u32 mem p j = v.
  Proof.
    intros Hj Hv. destruct Hraw as [H _].
    destruct (raw_focus hdr j v body i Hj) as (a & b & _ & _ & E & El). rewrite E in H.
    unfold hdr_u32. rewrite (holds_slice _ _ (le_bytes 4 v) 4);
      [by apply le_value_small| |apply length_le_bytes].
    apply (holds_sub _ _ _ _ _ _ H). rewrite El. unfold hdr_off, RECORD_INFO_SIZE. lia.
  Qed.

Lemma raw_set_hdr_u32 j v : (j < 4)%nat ->
    raw_at (set_hdr_u32 mem p j v) p i (<[j := v]> hdr) body.
  Proof.
    intros Hj. destruct Hraw as [H Hl].
    destruct (lookup_lt_is_Some_2 hdr j) as [v0 Hv0]; [lia|].
    destruct (raw_focus hdr j v0 body i Hv0) as (a & b & Eh & Ea & E & El). rewrite E in H.
    split; [|by rewrite length_insert].
    destruct (raw_focus (<[j := v]> hdr) j v body i) as (a' & b' & Eh' & Ea' & E' & _);
      [apply list_lookup_insert_eq; lia|].
    rewrite Eh, <- Ea, insert_app_r_alt, Nat.sub_diag in Eh' by lia. cbn in Eh'.
    apply app_inj_1 in Eh'; [|lia]. destruct Eh' as [<- [= <-]].
    rewrite E'. apply (holds_splice _ _ _ _ _ _ _ H); [by rewrite !length_le_bytes|].
    rewrite El. unfold hdr_off, RECORD_INFO_SIZE. lia.
  Qed.

Lemma raw_body_holds : holds mem (p + 24) body.
  Proof.
    destruct Hraw as [H Hl]. rewrite <- (app_nil_r body), app_assoc in H.
    apply (holds_sub _ _ _ _ [] _ ltac:(rewrite <- app_assoc in H; rewrite <- app_assoc; exact H)).
    rewrite length_app, length_hdr_bytes, length_le_bytes, Hl. lia.
  Qed.

Lemma raw_body_splice a f b f' q : body = a ++ f ++ b -> length f' = length f ->
    q = (p + 24 + length a)%nat -> raw_at (splice q f' mem) p i hdr (a ++ f' ++ b).
  Proof.
    intros -> Hf ->. destruct Hraw as [H Hl]. split; [|done].
    rewrite !(app_assoc (hdr_bytes hdr)), !(app_assoc (le_bytes 8 i)) in *.
    apply (holds_splice _ _ _ _ _ _ _ H); [done|].
    rewrite !length_app, length_hdr_bytes, length_le_bytes, Hl. lia.
  Qed.
End Raw.

(** *** The bytes of a cell *)

Definition enc_flags (c : cell) : Z := if c_has_slot c then FLAG_HAS_EXPIRATION else 0.
Definition enc_slot (c : cell) : bytes :=
  match c_slot c with Some ts => le_bytes 8 (u64_of_i64 ts) | None => [] end.
Definition enc_hdr (c : cell) : list Z :=
  [Z.of_nat (length (c_key c)); Z.of_nat (c_vlen c); Z.of_nat (c_cap c); enc_flags c].
Definition enc_body (c : cell) : bytes := enc_slot c ++ c_key c ++ c_buf c.
Definition cell_at (mem : bytes) (p : nat) (c : cell) : Prop :=
  raw_at mem p (c_info c) (enc_hdr c) (enc_body c).

Section Accessors.
Context (mem : bytes) (p : nat) (c : cell) (Hat : cell_at mem p c) (Hok : cell_ok c).

Lemma at_info_load : info_load mem p = c_info c.
  Proof. apply (raw_info_load _ _ _ _ _ Hat). by destruct Hok. Qed.
Lemma at_key_len : key_len mem p = length (c_key c).
  Proof.
    destruct Hok as (_ & ? & _). unfold key_len.
    rewrite (raw_hdr_u32 _ _ _ _ _ Hat 0 _ eq_refl); lia.
  Qed.
Lemma at_value_len : value_len mem p = c_vlen c.
  Proof.
    destruct Hok as (_ & _ & ? & ? & _). unfold value_len.
    rewrite (raw_hdr_u32 _ _ _ _ _ Hat 1 _ eq_refl); lia.
  Qed.
Lemma at_value_cap : value_cap mem p = c_cap c.
  Proof.
    destruct Hok as (_ & _ & ? & _ & _). unfold value_cap.
    rewrite (raw_hdr_u32 _ _ _ _ _ Hat 2 _ eq_refl); lia.
  Qed.
Lemma at_has_slot : has_expiration_slot mem p = c_has_slot c.
  Proof.
    unfold has_expiration_slot, flags.
    rewrite (raw_hdr_u32 _ _ _ _ _ Hat 3 _ eq_refl);
      unfold enc_flags, FLAG_HAS_EXPIRATION; by destruct (c_has_slot c).
  Qed.
Lemma at_key_offset : key_offset mem p = (24 + length (enc_slot c))%nat.
  Proof.
    unfold key_offset. rewrite at_has_slot. unfold c_has_slot, enc_slot.
    by destruct (c_slot c); rewrite ?length_le_bytes.
  Qed.
Lemma at_key : key mem p = c_key c.
  Proof.
    unfold key. rewrite at_key_len, at_key_offset.
    apply holds_slice; [|done].
    apply (holds_sub _ _ _ _ _ _ (raw_body_holds _ _ _ _ _ Hat)). lia.
  Qed.
Lemma at_value : value mem p = c_value c.
  Proof.
    unfold value, c_value. rewrite at_value_len, at_key_len, at_key_offset.
    destruct Hok as (_ & _ & _ & Hle & _). unfold c_cap in Hle.
    apply holds_slice; [|rewrite length_take; lia].
    pose proof (raw_body_holds _ _ _ _ _ Hat) as H. unfold enc_body in H.
    rewrite <- (take_drop (c_vlen c) (c_buf c)), (app_assoc (enc_slot c)) in H.
    apply (holds_sub _ _ _ _ _ _ H). rewrite length_app. lia.
  Qed.
Lemma at_expiration : expiration mem p = c_expiration c.
  Proof.
    unfold expiration, c_expiration. rewrite at_has_slot. unfold c_has_slot.
    destruct Hok as (_ & _ & _ & _ & Hts).
    pose proof (raw_body_holds _ _ _ _ _ Hat) as H. unfold enc_body, enc_slot in H.
    destruct (c_slot c) as [ts|]; [simpl|done].
    rewrite (holds_slice _ _ (le_bytes 8 (u64_of_i64 ts)) 8); [| |apply length_le_bytes].
    - rewrite le_value_small; [by apply i64_of_u64_of_i64|]. apply wrap64_range.
    - apply (holds_sub _ _ [] _ _ _ H). simpl. change FIXED_HEADER_SIZE with 24%nat. lia.
  Qed.
Lemma at_total_size : total_size mem p = c_total_size c.
  Proof.
    unfold total_size, c_total_size, total_size_of.
    rewrite at_key_len, at_key_offset, at_value_cap.
    cbn [key_len_of value_cap_of has_expiration_of].
    change FIXED_HEADER_SIZE with 24%nat. change EXPIRATION_SIZE with 8%nat.
    unfold enc_slot, c_has_slot. destruct (c_slot c); [|done].
    by rewrite length_le_bytes.
  Qed.
End Accessors.

(** *** Mutators preserve the representation *)

Section Mutators.
Context (mem : bytes) (p : nat) (c : cell) (Hat : cell_at mem p c) (Hok : cell_ok c).

Lemma at_info_store w : cell_at (info_store mem p w) p (c_set_info c w).
  Proof. apply (raw_info_store _ _ _ _ _ Hat). Qed.
Lemma at_set_value_len n : cell_at (set_value_len mem p n) p (c_set_value_len c n).
  Proof. apply (raw_set_hdr_u32 _ _ _ _ _ Hat 1 (Z.of_nat n)). lia. Qed.
Lemma at_value_buf_write off v : (off + length v <= c_cap c)%nat ->
    cell_at (value_buf_write mem p off v) p (c_write_buf c off v).
  Proof.
    intros Hv. unfold c_cap in Hv. unfold cell_at, value_buf_write.
    rewrite (at_key_len _ _ _ Hat Hok), (at_key_offset _ _ _ Hat).
    unfold enc_hdr, enc_body, c_write_buf, c_cap. simpl c_buf.
    rewrite length_splice by lia.
    replace (enc_slot _ ++ c_key c ++ splice off v (c_buf c)) with
      ((enc_slot c ++ c_key c ++ take off (c_buf c)) ++ v ++ drop (off + length v) (c_buf c))
      by (unfold splice; by rewrite <- !app_assoc).
    apply (raw_body_splice _ _ _ _ _ Hat _ (take (length v) (drop off (c_buf c)))).
    - unfold enc_body. rewrite <- !app_assoc. do 2 f_equal.
      by rewrite <- (drop_drop (c_buf c)), take_drop, take_drop.
    - rewrite length_take, length_drop. lia.
    - rewrite !length_app, length_take. lia.
  Qed.
Lemma at_set_expiration ts :
    fst (set_expiration mem p ts) = fst (c_set_expiration c ts) /\
    cell_at (snd (set_expiration mem p ts)) p (snd (c_set_expiration c ts)).
  Proof.
    unfold set_expiration, c_set_expiration. rewrite (at_has_slot _ _ _ Hat).
    unfold c_has_slot. destruct (c_slot c) as [old|] eqn:Es; [|done]. split; [done|].
    simpl snd. unfold cell_at, enc_hdr, enc_body, enc_flags, enc_slot, c_has_slot in *.
    cbn. rewrite Es in Hat.
    apply (raw_body_splice _ _ _ _ _ Hat [] (le_bytes 8 (u64_of_i64 old))); [done| |].
    - by rewrite !length_le_bytes.
    - change FIXED_HEADER_SIZE with 24%nat. simpl. lia.
  Qed.
End Mutators.

(** *** [init] lays a fresh cell out over zeroed memory *)

Definition init_room (size : RecordSizeInfo) : nat :=
  24 + (if has_expiration_of size then 8 else 0) + key_len_of size + value_cap_of size.

Lemma zeroed_raw mem p n : holds mem p (replicate (24 + n) 0) ->
  raw_at mem p 0 [0; 0; 0; 0] (replicate n 0).
Proof. intros H. split; [|done]. rewrite replicate_add in H. exact H. Qed.

Lemma at_init mem p prev in_new size k :
  key_len_of size = length k -> holds mem p (replicate (init_room size) 0) ->
  cell_at (init mem p prev in_new size k) p (c_init prev in_new size k).
Proof.
  intros Hk H0. unfold init_room in H0. rewrite <- !Nat.add_assoc in H0.
  apply zeroed_raw in H0. unfold init.
  apply (raw_info_store _ _ _ _ _) with (w := Z.lor (info_new prev in_new) SEALED_BIT) in H0.
  apply (raw_set_hdr_u32 _ _ _ _ _) with (j := 0%nat) (v := Z.of_nat (length k)) in H0; [|lia].
  apply (raw_set_hdr_u32 _ _ _ _ _) with (j := 1%nat) (v := 0) in H0; [|lia].
  apply (raw_set_hdr_u32 _ _ _ _ _) with (j := 2%nat) (v := Z.of_nat (value_cap_of size)) in H0; [|lia].
  apply (raw_set_hdr_u32 _ _ _ _ _) with (j := 3%nat)
    (v := if has_expiration_of size then FLAG_HAS_EXPIRATION else 0) in H0; [|lia].
  cbn [insert list_insert] in H0.
  set (m := set_hdr_u32 _ p 3 _) in *. clearbody m.
  assert (Hslot : forall mem' i b, raw_at mem' p i [Z.of_nat (length k); 0;
      Z.of_nat (value_cap_of size); if has_expiration_of size then FLAG_HAS_EXPIRATION else 0] b ->
    has_expiration_slot mem' p = has_expiration_of size).
  { intros mem' i b H. unfold has_expiration_slot, flags.
    rewrite (raw_hdr_u32 _ _ _ _ _ H 3 _ eq_refl);
      unfold FLAG_HAS_EXPIRATION; by destruct (has_expiration_of size). }
  unfold set_expiration, key_offset. rewrite (Hslot _ _ _ H0).
  unfold cell_at, enc_hdr, enc_body, enc_flags, enc_slot, c_has_slot, c_cap, c_init.
  cbn [c_info c_key c_vlen c_buf c_slot]. rewrite length_replicate. rewrite Hk in H0.
  destruct (has_expiration_of size); simpl snd.
  - rewrite !replicate_add in H0.
    eapply (raw_body_splice _ _ _ _ _) with (a := []) (f := replicate 8 0)
      (f' := le_bytes 8 (u64_of_i64 0)) (q := (p + FIXED_HEADER_SIZE)%nat) in H0;
      [|done|by rewrite length_le_bytes|simpl; change FIXED_HEADER_SIZE with 24%nat; lia].
    rewrite (Hslot _ _ _ H0).
    apply (raw_body_splice _ _ _ _ _ H0 _ (replicate (length k) 0)); [done| |].
    + by rewrite length_replicate.
    + rewrite length_le_bytes. change FIXED_HEADER_SIZE with 24%nat.
      change EXPIRATION_SIZE with 8%nat. lia.
  - rewrite (Hslot _ _ _ H0). simpl in H0. rewrite replicate_add in H0.
    apply (raw_body_splice _ _ _ _ _ H0 [] (replicate (length k) 0)); [done| |].
    + by rewrite length_replicate.
    + simpl. change FIXED_HEADER_SIZE with 24%nat. lia.
Qed.

(** The record as the store publishes it: initialised, filled, and validated. *)
Definition publish_image (mem : bytes) (p : nat) (prev : word) (in_new : bool)
    (size : RecordSizeInfo) (k v : bytes) (ts : Z) : bytes :=
  let mem := init mem p prev in_new size k in
  let mem := value_buf_write mem p 0 v in
  let mem := set_value_len mem p (length v) in
  let mem := snd (set_expiration mem p ts) in
  info_store mem p (unseal_and_validate (info_load mem p)).

Definition c_publish (prev : word) (in_new : bool) (size : RecordSizeInfo)
    (k v : bytes) (ts : Z) : cell :=
  let c := c_init prev in_new size k in
  let c := c_write_buf c 0 v in
  let c := c_set_value_len c (length v) in
  let c := snd (c_set_expiration c ts) in
  c_set_info c (unseal_and_validate (c_info c)).

Definition size_ok (size : RecordSizeInfo) : Prop :=
  Z.of_nat (key_len_of size) < 2 ^ 32 /\ Z.of_nat (value_cap_of size) < 2 ^ 32.

Lemma c_init_ok prev in_new size k :
  key_len_of size = length k -> size_ok size -> cell_ok (c_init prev in_new size k).
Proof.
  intros Hk [? ?]. unfold cell_ok, c_init, c_cap. simpl. rewrite length_replicate.
  split_and!; [|lia|done|lia|].
  - apply lor_u64; [apply info_new_u64|]. unfold is_u64, two64, SEALED_BIT. lia.
  - destruct (has_expiration_of size); [|done]. unfold is_i64, i64_min, i64_max. lia.
Qed.

Lemma c_write_buf_ok c off v :
  cell_ok c -> (off + length v <= c_cap c)%nat -> cell_ok (c_write_buf c off v).
Proof.
  unfold cell_ok, c_write_buf, c_cap. simpl. intros ? ?. by rewrite length_splice.
Qed.
Lemma c_set_value_len_ok c n : cell_ok c -> (n <= c_cap c)%nat -> cell_ok (c_set_value_len c n).
Proof. unfold cell_ok. simpl. intros (?&?&?&?&?) ?. by split_and!. Qed.
Lemma c_set_expiration_ok c ts :
  cell_ok c -> is_i64 ts -> cell_ok (snd (c_set_expiration c ts)).
Proof.
  unfold cell_ok, c_set_expiration. intros (?&?&?&?&?) ?.
  destruct (c_slot c) eqn:E; simpl; [by split_and!|]. rewrite E. by split_and!.
Qed.

Lemma at_publish mem p prev in_new size k v ts :
  key_len_of size = length k -> size_ok size -> (length v <= value_cap_of size)%nat ->
  is_i64 ts -> holds mem p (replicate (init_room size) 0) ->
  cell_at (publish_image mem p prev in_new size k v ts) p
          (c_publish prev in_new size k v ts).
Proof.
  intros Hk Hs Hv Hts H0. unfold publish_image, c_publish.
  assert (Hcap : c_cap (c_init prev in_new size k) = value_cap_of size)
    by (unfold c_cap, c_init; simpl; apply length_replicate).
  pose proof (at_init mem p prev in_new size k Hk H0) as H1.
  pose proof (c_init_ok prev in_new size k Hk Hs) as K1.
  pose proof (at_value_buf_write _ _ _ H1 K1 0 v ltac:(lia)) as H2.
  pose proof (c_write_buf_ok _ 0 v K1 ltac:(lia)) as K2.
  pose proof (at_set_value_len _ _ _ H2 (length v)) as H3.
  assert (K3 : cell_ok (c_set_value_len (c_write_buf (c_init prev in_new size k) 0 v) (length v))).
  { apply c_set_value_len_ok; [done|]. unfold c_cap, c_write_buf in *. simpl in *.
    rewrite length_splice; lia. }
  destruct (at_set_expiration _ _ _ H3 ts) as [_ H4].
  pose proof (c_set_expiration_ok _ ts K3 Hts) as K4.
  rewrite (at_info_load _ _ _ H4 K4). by apply at_info_store.
Qed.

Lemma c_publish_ok prev in_new size k v ts :
  key_len_of size = length k -> size_ok size -> (length v <= value_cap_of size)%nat ->
  is_i64 ts -> cell_ok (c_publish prev in_new size k v ts).
Proof.
  intros Hk [? ?] Hv Hts. unfold cell_ok, c_publish, c_cap, c_set_expiration, c_init.
  pose proof (lor_u64 _ SEALED_BIT (info_new_u64 prev in_new) ltac:(unfold is_u64, two64, SEALED_BIT; lia)).
  assert (is_u64 (unseal_and_validate (Z.lor (info_new prev in_new) SEALED_BIT))).
  { unfold unseal_and_validate. apply land_u64_l, lor_u64; [done|].
    unfold is_u64, two64, VALID_BIT. lia. }
  destruct (has_expiration_of size); simpl;
    rewrite length_splice, length_replicate by (rewrite length_replicate; simpl; lia);
    split_and!; try done; lia.
Qed.

Lemma c_publish_fields prev in_new size k v ts :
  (length v <= value_cap_of size)%nat ->
  let c := c_publish prev in_new size k v ts in
  c_key c = k /\ c_value c = v /\ c_cap c = value_cap_of size /\
  c_has_slot c = has_expiration_of size /\
  c_expiration c = (if has_expiration_of size then ts else 0).
Proof.
  intros Hv. unfold c_publish, c_set_expiration, c_init, c_value, c_cap, c_has_slot, c_expiration,
    c_write_buf, splice.
   rewrite take_0, app_nil_l.
  destruct (has_expiration_of size); simpl;
    (split_and!; [done| | |done|done];
     [by rewrite take_app_length
     |rewrite length_app, length_drop, length_replicate; lia]).
Qed.

(** ** Properties *)

(** C25.  Every atomic update of the header word changes its own field and no
    other: publishing sets Valid and clears Sealed, a failed publication does
    the reverse, tombstoning and marking modified touch one bit, sealing
    succeeds exactly on a valid, unsealed word, and relinking replaces the
    48-bit previous address under a check of the old one. *)
Theorem header_word_updates w :
  view (unseal_and_validate w) =
    InfoView (previous_address w) (is_tombstone w) true (in_new_version w) (is_modified w) false /\
  view (seal_and_invalidate w) =
    InfoView (previous_address w) (is_tombstone w) false (in_new_version w) (is_modified w) true /\
  view (set_invalid w) =
    InfoView (previous_address w) (is_tombstone w) false (in_new_version w) (is_modified w) (is_sealed w) /\
  view (set_tombstone w) =
    InfoView (previous_address w) true (is_valid w) (in_new_version w) (is_modified w) (is_sealed w) /\
  view (set_modified w) =
    InfoView (previous_address w) (is_tombstone w) (is_valid w) (in_new_version w) true (is_sealed w) /\
  fst (try_seal w) = negb (is_closed w) /\
  view (snd (try_seal w)) =
    InfoView (previous_address w) (is_tombstone w) (is_valid w) (in_new_version w) (is_modified w)
      (is_sealed w || is_valid w) /\
  (forall a n, 0 <= n < 2 ^ 48 ->
    fst (try_update_previous_address w a n) = (previous_address w =? previous_address a) /\
    view (snd (try_update_previous_address w a n)) =
      InfoView (if previous_address w =? previous_address a then n else previous_address w)
        (is_tombstone w) (is_valid w) (in_new_version w) (is_modified w) (is_sealed w)).
Proof.
  rewrite view_unseal_and_validate, view_seal_and_invalidate, view_set_invalid,
    view_set_tombstone, view_set_modified, !try_seal_view. unfold is_closed. cbn.
  do 5 (split; [done|]). split; [|split].
  - by destruct (is_valid w), (is_sealed w).
  - destruct (is_valid w) eqn:Ev, (is_sealed w) eqn:Es; cbn;
      rewrite ?view_lor_sealed; unfold view; cbn; by rewrite Ev, ?Es.
  - intros a n Hn. unfold try_update_previous_address, previous_address.
    destruct (Z.land w ADDRESS_MASK =? Z.land a ADDRESS_MASK); cbn;
      [by rewrite view_relink|done].
Qed.

(** C26.  Layout round trip at the byte level: after [init] over zeroed memory,
    copying a value that fits, setting its length and the expiration, and
    validating, every accessor reads back what was written; the record is open;
    its total size is the size that was allocated. *)
Theorem layout_roundtrip mem p prev in_new size k v ts :
  key_len_of size = length k -> size_ok size -> (length v <= value_cap_of size)%nat ->
  is_i64 ts -> 0 <= prev < 2 ^ 48 -> holds mem p (replicate (init_room size) 0) ->
  let m := publish_image mem p prev in_new size k v ts in
  key m p = k /\ value m p = v /\ value_cap m p = value_cap_of size /\
  has_expiration_slot m p = has_expiration_of size /\
  expiration m p = (if has_expiration_of size then ts else 0) /\
  previous_address (info_load m p) = prev /\
  is_closed (info_load m p) = false /\ is_tombstone (info_load m p) = false /\
  in_new_version (info_load m p) = in_new /\ total_size m p = total_size_of size.
Proof.
  intros Hk Hs Hv Hts Hp H0 m.
  pose proof (at_publish mem p prev in_new size k v ts Hk Hs Hv Hts H0) as Ha.
  pose proof (c_publish_ok prev in_new size k v ts Hk Hs Hv Hts) as Ho.
  fold m in Ha. rewrite (at_key _ _ _ Ha Ho), (at_value _ _ _ Ha Ho), (at_value_cap _ _ _ Ha Ho),
    (at_has_slot _ _ _ Ha), (at_expiration _ _ _ Ha Ho), (at_info_load _ _ _ Ha Ho),
    (at_total_size _ _ _ Ha Ho).
  assert (Ei : c_info (c_publish prev in_new size k v ts) =
    unseal_and_validate (Z.lor (info_new prev in_new) SEALED_BIT))
    by (unfold c_publish, c_set_expiration; by destruct (c_slot _)).
  rewrite Ei. set (w := unseal_and_validate _) in *.
  assert (Ew : view w = InfoView prev false true in_new false false)
    by (unfold w; by rewrite view_unseal_and_validate, view_lor_sealed, view_info_new).
  clearbody w. unfold view in Ew. injection Ew as E1 E2 E3 E4 _ E6.
  unfold is_closed. rewrite E1, E2, E3, E4, E6.
  unfold c_total_size. destruct (c_publish_fields prev in_new size k v ts Hv)
    as (-> & -> & -> & -> & ->).
  destruct size as [kl cap has]; simpl in *. subst kl. by split_and!.
Qed.

Lemma layout_roundtrip_witness :
  let m := publish_image (replicate 48 0) 0 0x1234 true (SizeInfo 3 10 true)
             (bs "abc") (bs "hello") 99 in
  key m 0 = bs "abc" /\ value m 0 = bs "hello" /\ expiration m 0 = 99.
Proof.
  destruct (layout_roundtrip (replicate 48 0) 0 0x1234 true (SizeInfo 3 10 true)
    (bs "abc") (bs "hello") 99) as (H1 & H2 & _ & _ & H5 & _).
  - reflexivity.
  - unfold size_ok. simpl. lia.
  - simpl. lia.
  - unfold is_i64, i64_min, i64_max. lia.
  - lia.
  - exists [], (replicate 3 0). split; reflexivity.
  - split; [exact H1|split; [exact H2|exact H5]].
Defined.
