(* ===== verification/Hash.v ===== *)
(** * The key hash ([crates/tsavorite/src/hash.rs])

    The wyhash-style mixer on 64-bit words, with its wrap-around, and the range
    of its result. *)

From S2P Require Import Prelude.

Definition mum (a b : word) : word :=
  let r := (a * b) mod 2 ^ 128 in
  Z.lxor (wrap64 r) (wrap64 (Z.shiftr r 64)).
Definition P0 : word := 0xa0761d6478bd642f.
Definition P1 : word := 0xe7037ed1a0b428db.
Definition P2 : word := 0x8ebc6af09c88c6e3.
Definition read_u64 (b : bytes) : word := le_value (slice 0 8 b).
Definition read_u32 (b : bytes) : word := le_value (slice 0 4 b).
Definition rotate_left (w : word) (n : Z) : word :=
  Z.lor (wrap64 (Z.shiftl w n)) (Z.shiftr w (64 - n)).

(** The loop over 16-byte blocks; [fuel] bounds the number of blocks. *)
Fixpoint hash_blocks (fuel : nat) (seed : word) (p : bytes) : word * bytes :=
  match fuel with
  | O => (seed, p)
  | S fuel =>
      if (16 <=? length p)%nat then
        hash_blocks fuel
          (mum (Z.lxor (read_u64 p) P1) (Z.lxor (read_u64 (drop 8 p)) seed)) (drop 16 p)
      else (seed, p)
  end.

(** The tail of at most 15 bytes, read as two words. *)
Definition hash_tail (p : bytes) : word * word :=
  let n := length p in
  if (n =? 0)%nat then (0, 0)
  else if (n <=? 3)%nat then
    (Z.lor (Z.lor (Z.shiftl (nth 0 p 0) 16) (Z.shiftl (nth (Nat.shiftr n 1) p 0) 8))
       (nth (n - 1) p 0), 0)
  else if (n <=? 7)%nat then (read_u32 p, read_u32 (drop (n - 4) p))
  else (read_u64 p, read_u64 (drop (n - 8) p)).

Definition hash64 (key : bytes) : word :=
  let len := Z.of_nat (length key) in
  let seed := Z.lxor P0 (wrap64 (wrap64 len * P1)) in
  let '(seed, p) := hash_blocks (length key) seed key in
  let '(a, b) := hash_tail p in
  let h := mum (Z.lxor a P1) (Z.lxor b seed) in
  mum (Z.lxor h P2) (Z.lxor (rotate_left h 29) (wrap64 len)).

Lemma lxor_u64 a b : is_u64 a -> is_u64 b -> is_u64 (Z.lxor a b).
Proof.
  unfold is_u64, two64. intros Ha Hb.
  assert (0 <= Z.lxor a b) by (apply Z.lxor_nonneg; lia). split; [done|].
  apply bits_lt_pow2; [done|lia|]. intros n Hn.
  rewrite Z.lxor_spec, !(testbit_high _ 64) by lia. done.
Qed.
#[export] Hint Resolve lxor_u64 : words.

Lemma mum_u64 a b : is_u64 (mum a b).
Proof. unfold mum. auto with words. Qed.

(** More fuel than there are blocks changes nothing, so [length key] is enough. *)
Lemma hash_blocks_fuel n m seed p :
  (length p < 16 * S n)%nat -> (length p < 16 * S m)%nat ->
  hash_blocks n seed p = hash_blocks m seed p.
Proof.
  revert m seed p. induction n as [|n IH]; intros m seed p Hn Hm; destruct m; cbn [hash_blocks]; try done.
  - destruct (Nat.leb_spec 16 (length p)); [lia|done].
  - destruct (Nat.leb_spec 16 (length p)); [lia|done].
  - destruct (Nat.leb_spec 16 (length p)); [|done].
    apply IH; rewrite length_drop; lia.
Qed.

Lemma hash_blocks_tail n seed p :
  (length p < 16 * S n)%nat -> (length (snd (hash_blocks n seed p)) < 16)%nat.
Proof.
  revert seed p. induction n as [|n IH]; intros seed p H; cbn [hash_blocks]; [simpl; lia|].
  destruct (Nat.leb_spec 16 (length p)); [|simpl; lia].
  apply IH. rewrite length_drop. lia.
Qed.

(** The hash is a 64-bit word for every key, and all input blocks are consumed. *)
Theorem hash64_u64 k : is_u64 (hash64 k).
Proof.
  unfold hash64. destruct (hash_blocks _ _ _) as [seed p].
  destruct (hash_tail p). apply mum_u64.
Qed.

Example hash64_distinct :
  hash64 (bs "hello") <> hash64 (bs "hellp") /\ hash64 (bs "") <> hash64 (bs "a") /\
  hash64 (bs "0123456789abcdef") <> hash64 (bs "0123456789abcdeg").
Proof. vm_compute. repeat split; discriminate. Qed.

Lemma hash64_nonneg k : 0 <= hash64 k.
Proof. pose proof (hash64_u64 k) as H. unfold is_u64 in H. lia. Qed.
