(* ===== verification/Index.v ===== *)
(** * The hash index ([crates/tsavorite/src/index.rs])

    64-byte buckets of eight words: seven entries [tentative:1 tag:15
    address:48] and an eighth word shared by the overflow pointer (low 48 bits)
    and the bucket latch (high 16 bits). *)

From S2P Require Import Prelude Record Hash.

Definition ENTRIES_PER_BUCKET : nat := 7.
Definition OVERFLOW_ENTRY : nat := 7.
Definition TAG_BITS : Z := 15.
Definition TAG_SHIFT : Z := 48.
Definition TAG_MASK : word := Z.shiftl (Z.ones 15) 48.
Definition TENTATIVE_BIT : word := 2 ^ 63.

(** ** Entry words *)

Definition entry_make (tag address : word) (tentative : bool) : word :=
  let w := Z.lor (Z.land (wrap64 (Z.shiftl tag TAG_SHIFT)) TAG_MASK) (Z.land address ADDRESS_MASK) in
  if tentative then Z.lor w TENTATIVE_BIT else w.
Definition entry_address (w : word) : word := Z.land w ADDRESS_MASK.
Definition entry_tag (w : word) : word := Z.shiftr (Z.land w TAG_MASK) TAG_SHIFT.
Definition is_tentative (w : word) : bool := negb (Z.land w TENTATIVE_BIT =? 0).
Definition is_empty (w : word) : bool := w =? 0.

Lemma testbit_wrap64 w n : 0 <= n -> Z.testbit (wrap64 w) n = (n <? 64) && Z.testbit w n.
Proof.
  intros Hn. unfold wrap64, two64. destruct (Z.ltb_spec n 64).
  - by rewrite Z.mod_pow2_bits_low.
  - by rewrite Z.mod_pow2_bits_high by lia.
Qed.

Lemma is_tentative_bit w : is_tentative w = Z.testbit w 63.
Proof. by apply (land_pow2_test w 63). Qed.

Lemma testbit_tag_mask n : 0 <= n -> Z.testbit TAG_MASK n = (48 <=? n) && (n <? 63).
Proof.
  intros. unfold TAG_MASK. rewrite Z.shiftl_spec, testbit_ones by lia.
  destruct (Z.leb_spec 0 (n - 48)), (Z.ltb_spec (n - 48) 15), (Z.leb_spec 48 n),
    (Z.ltb_spec n 63); done || lia.
Qed.

Lemma testbit_entry tag a t n : 0 <= n ->
  Z.testbit (entry_make tag a t) n =
  (if n <? 48 then Z.testbit a n
   else if n <? 63 then Z.testbit tag (n - 48)
   else if n =? 63 then t else false).
Proof.
  intros Hn. unfold entry_make, TENTATIVE_BIT, ADDRESS_MASK, TAG_SHIFT.
  assert (E : Z.testbit (Z.lor (Z.land (wrap64 (Z.shiftl tag 48)) TAG_MASK)
     (Z.land a (Z.ones 48))) n =
     (if n <? 48 then Z.testbit a n else if n <? 63 then Z.testbit tag (n - 48) else false)).
  { rewrite Z.lor_spec, !Z.land_spec, testbit_wrap64, Z.shiftl_spec, testbit_tag_mask,
      testbit_ones by lia.
    destruct (Z.ltb_spec n 64), (Z.leb_spec 48 n), (Z.ltb_spec n 63), (Z.leb_spec 0 n),
      (Z.ltb_spec n 48); try lia; simpl; rewrite ?andb_true_r, ?andb_false_r, ?orb_false_r; done. }
  destruct t; [rewrite Z.lor_spec, testbit_pow2 by lia|]; rewrite E.
  - destruct (Z.eqb_spec n 63) as [->|]; [done|].
    destruct (Z.eqb_spec 63 n); [lia|]. by rewrite orb_false_r.
  - by destruct (n =? 63).
Qed.

Lemma entry_address_make tag a t : 0 <= a < 2 ^ 48 -> entry_address (entry_make tag a t) = a.
Proof.
  intros Ha. unfold entry_address, ADDRESS_MASK. apply word_eq. intros n Hn.
  rewrite Z.land_spec, testbit_entry, testbit_ones by lia.
  destruct (Z.ltb_spec n 48), (Z.leb_spec 0 n); try lia; simpl; [apply andb_true_r|].
  rewrite (testbit_high a 48) by lia. apply andb_false_r.
Qed.

Lemma testbit_entry_tag w n : 0 <= n ->
  Z.testbit (entry_tag w) n = (n <? 15) && Z.testbit w (n + 48).
Proof.
  intros Hn. unfold entry_tag, TAG_SHIFT.
  rewrite Z.shiftr_spec, Z.land_spec, testbit_tag_mask by lia.
  destruct (Z.ltb_spec n 15), (Z.leb_spec 48 (n + 48)), (Z.ltb_spec (n + 48) 63); try lia;
    simpl; by rewrite ?andb_true_r, ?andb_false_r.
Qed.

Lemma entry_tag_make tag a t : 0 <= tag < 2 ^ 15 -> entry_tag (entry_make tag a t) = tag.
Proof.
  intros Ht. apply word_eq. intros n Hn. rewrite testbit_entry_tag, testbit_entry by lia.
  destruct (Z.ltb_spec n 15); simpl.
  - destruct (Z.ltb_spec (n + 48) 48), (Z.ltb_spec (n + 48) 63); try lia. f_equal. lia.
  - by rewrite (testbit_high tag 15) by lia.
Qed.

Lemma is_tentative_make tag a t : is_tentative (entry_make tag a t) = t.
Proof. rewrite is_tentative_bit, testbit_entry by lia. done. Qed.

Lemma entry_make_nonempty tag a t : 0 < a < 2 ^ 48 -> is_empty (entry_make tag a t) = false.
Proof.
  intros Ha. unfold is_empty. apply Z.eqb_neq. intros E.
  pose proof (entry_address_make tag a t ltac:(lia)) as H. rewrite E in H.
  unfold entry_address in H. rewrite Z.land_0_l in H. lia.
Qed.

Lemma entry_make_u64 tag a t : is_u64 (entry_make tag a t).
Proof.
  assert (H : is_u64 (Z.lor (Z.land (wrap64 (Z.shiftl tag TAG_SHIFT)) TAG_MASK) (Z.land a ADDRESS_MASK))).
  { apply lor_u64; [apply land_u64_l, wrap64_range|].
    pose proof (land_ones_bound a 48). unfold is_u64, two64, ADDRESS_MASK. lia. }
  unfold entry_make. destruct t; [|done]. apply lor_u64; [done|].
  unfold is_u64, two64, TENTATIVE_BIT. lia.
Qed.

Lemma entry_tag_range w : 0 <= entry_tag w < 2 ^ 15.
Proof.
  assert (0 <= entry_tag w).
  { unfold entry_tag. apply Z.shiftr_nonneg, Z.land_nonneg. right. unfold TAG_MASK.
    apply Z.shiftl_nonneg. done. }
  split; [done|]. apply bits_lt_pow2; [done|lia|]. intros n Hn.
  rewrite testbit_entry_tag by lia. by replace (n <? 15) with false by lia.
Qed.

(** ** Buckets, slots and the table *)

(** A bucket is either in the main table or in the overflow arena, where
    address [a] names [overflow[a - 1]]. *)
Inductive bref := Main (bi : nat) | Over (addr : Z).
Global Instance bref_eq_dec : EqDecision bref.
Proof. solve_decision. Defined.

Abbreviation Bucket := (list Z) (only parsing).
Definition bucket_new : Bucket := replicate 8 0.

Record HashIndex := Index {
  buckets : list Bucket; mask : word; overflow : list Bucket; overflow_next : word }.
(** [entry] points to word [sr_i] of bucket [sr_ref]. *)
Record SlotRef := Slot { sr_ref : bref; sr_i : nat; sr_bucket : nat; sr_tag : word }.

Definition next_power_of_two (n : Z) : Z := if n <=? 1 then 1 else 2 ^ (Z.log2_up n).

Definition index_new (size : Z) : HashIndex :=
  let size := next_power_of_two (Z.max size 2) in
  Index (replicate (Z.to_nat size) bucket_new) (size - 1)
    (replicate (Z.to_nat (Z.max (size * 2) 1024)) bucket_new) 1.

Definition bucket_index (ix : HashIndex) (hash : word) : nat := Z.to_nat (Z.land hash (mask ix)).
Definition tag_of (hash : word) : word := Z.shiftr hash (64 - TAG_BITS).

Definition overflow_bucket (ix : HashIndex) (addr : word) : option Bucket :=
  if addr <=? 0 then None else overflow ix !! Z.to_nat (addr - 1).
(** The words of a bucket; [None] is an index out of bounds, a panic. *)
Definition get_bucket (ix : HashIndex) (b : bref) : option Bucket :=
  match b with Main bi => buckets ix !! bi | Over a => overflow_bucket ix a end.
Definition load_word (ix : HashIndex) (b : bref) (i : nat) : option word :=
  ws ← get_bucket ix b; ws !! i.
Definition store_word (ix : HashIndex) (b : bref) (i : nat) (w : word) : HashIndex :=
  match b with
  | Main bi => Index (alter (fun ws => <[i := w]> ws) bi (buckets ix)) (mask ix)
                 (overflow ix) (overflow_next ix)
  | Over a => if a <=? 0 then ix else Index (buckets ix) (mask ix)
                 (alter (fun ws => <[i := w]> ws) (Z.to_nat (a - 1)) (overflow ix)) (overflow_next ix)
  end.

(** [SlotRef::load], [try_cas] and [try_elide]. *)
Definition slot_load (ix : HashIndex) (s : SlotRef) : option word := load_word ix (sr_ref s) (sr_i s).
Definition slot_try_cas (ix : HashIndex) (s : SlotRef) (expected new_address : word)
    : option (bool * HashIndex) :=
  cur ← slot_load ix s;
  if cur =? expected
  then Some (true, store_word ix (sr_ref s) (sr_i s) (entry_make (sr_tag s) new_address false))
  else Some (false, ix).
Definition slot_try_elide (ix : HashIndex) (s : SlotRef) (expected : word)
    : option (bool * HashIndex) :=
  cur ← slot_load ix s;
  if cur =? expected then Some (true, store_word ix (sr_ref s) (sr_i s) 0) else Some (false, ix).

Definition alloc_overflow_bucket (ix : HashIndex) : option (word * HashIndex) :=
  let a := overflow_next ix in
  if a <=? Z.of_nat (length (overflow ix))
  then Some (a, Index (buckets ix) (mask ix) (overflow ix) (a + 1))
  else None.

(** [walk_chain]: visit the buckets of a chain in order until the visitor
    stops or the chain ends.  [None] is a panic or exhausted fuel. *)
Fixpoint walk_chain {A} (fuel : nat) (ix : HashIndex) (b : bref)
    (visit : A -> bref -> Bucket -> bool * A) (s : A) : option A :=
  match fuel with
  | O => None
  | S fuel =>
      ws ← get_bucket ix b;
      let '(stop, s) := visit s b ws in
      if stop then Some s else
      w ← ws !! OVERFLOW_ENTRY;
      let next := Z.land w ADDRESS_MASK in
      if next =? 0 then Some s else walk_chain fuel ix (Over next) visit s
  end.
(** Overflow addresses increase along a chain, so this is enough. *)
Definition chain_fuel (ix : HashIndex) : nat := S (length (overflow ix)).

(** The scan of one bucket, [for i in 0..ENTRIES_PER_BUCKET]: the first index
    whose word satisfies [p]. *)
Definition scan_bucket (p : nat -> word -> bool) (ws : Bucket) : option nat :=
  head (filter (fun i => match ws !! i with Some w => p i w | None => false end = true)
          (seq 0 ENTRIES_PER_BUCKET)).

Definition matches_tag (tag : word) (w : word) : bool :=
  negb (is_empty w) && (entry_tag w =? tag) && negb (is_tentative w).

Definition find_tag (ix : HashIndex) (hash : word) : option (option SlotRef) :=
  let bi := bucket_index ix hash in
  let tag := tag_of hash in
  walk_chain (chain_fuel ix) ix (Main bi)
    (fun found b ws =>
       match scan_bucket (fun _ w => matches_tag tag w) ws with
       | Some i => (true, Some (Slot b i bi tag))
       | None => (false, found)
       end) None.

(** Scan a chain for a matching tag or the first free slot, linking a new
    overflow bucket when the chain is full: [inl] is [Ok], [inr] is [Err]. *)
Fixpoint find_tag_or_free (fuel : nat) (ix : HashIndex) (b : bref) (free : option SlotRef)
    (bi : nat) (tag : word) : option ((SlotRef + SlotRef) * HashIndex) :=
  match fuel with
  | O => None
  | S fuel =>
      ws ← get_bucket ix b;
      let free := match free with
                  | Some f => Some f
                  | None => (fun i => Slot b i bi tag) <$> scan_bucket (fun _ w => is_empty w) ws
                  end in
      match scan_bucket (fun _ w => matches_tag tag w) ws with
      | Some i => Some (inl (Slot b i bi tag), ix)
      | None =>
          w ← ws !! OVERFLOW_ENTRY;
          let next := Z.land w ADDRESS_MASK in
          if negb (next =? 0) then find_tag_or_free fuel ix (Over next) free bi tag
          else match free with
               | Some f => Some (inr f, ix)
               | None =>
                   '(new_addr, ix) ← alloc_overflow_bucket ix;
                   let ix := store_word ix b OVERFLOW_ENTRY
                               (Z.lor (Z.land w (not64 ADDRESS_MASK)) new_addr) in
                   find_tag_or_free fuel ix b free bi tag
               end
      end
  end.

Definition slot_eqb (b : bref) (i : nat) (s : SlotRef) : bool :=
  bool_decide (b = sr_ref s) && (i =? sr_i s)%nat.

(** Is there an entry with this tag, tentative or not, other than [mine]? *)
Definition other_slot_with_tag (ix : HashIndex) (bi : nat) (tag : word) (mine : SlotRef)
    : option bool :=
  walk_chain (chain_fuel ix) ix (Main bi)
    (fun other b ws =>
       match scan_bucket (fun i w => negb (slot_eqb b i mine) &&
                                     (negb (is_empty w) && (entry_tag w =? tag))) ws with
       | Some _ => (true, true)
       | None => (false, other)
       end) false.

(** The two-phase tentative insertion; [fuel] bounds the restarts. *)
Fixpoint find_or_create_tag (fuel : nat) (ix : HashIndex) (hash : word)
    : option (SlotRef * HashIndex) :=
  match fuel with
  | O => None
  | S fuel =>
      let bi := bucket_index ix hash in
      let tag := tag_of hash in
      r ← find_tag_or_free (2 + chain_fuel ix) ix (Main bi) None bi tag;
      match r with
      | (inl found, ix) => Some (found, ix)
      | (inr free, ix) =>
          cur ← slot_load ix free;
          if negb (cur =? 0) then find_or_create_tag fuel ix hash
          else
            let ix := store_word ix (sr_ref free) (sr_i free) (entry_make tag TEMP_INVALID_ADDRESS true) in
            other ← other_slot_with_tag ix bi tag free;
            if (other : bool) then
              find_or_create_tag fuel (store_word ix (sr_ref free) (sr_i free) 0) hash
            else
              Some (free, store_word ix (sr_ref free) (sr_i free) (entry_make tag TEMP_INVALID_ADDRESS false))
      end
  end.

(** Visit every non-tentative entry: (bucket, tag, address). *)
Definition bucket_entries (bi : nat) (ws : Bucket) : list (nat * word * word) :=
  omap (fun i => match ws !! i with
                 | Some w => if negb (is_empty w) && negb (is_tentative w)
                             then Some (bi, entry_tag w, entry_address w) else None
                 | None => None
                 end) (seq 0 ENTRIES_PER_BUCKET).
Definition for_each_entry (ix : HashIndex) : option (list (nat * word * word)) :=
  ls ← mapM (fun bi => walk_chain (chain_fuel ix) ix (Main bi)
                    (fun acc _ ws => (false, acc ++ bucket_entries bi ws)) [])
         (seq 0 (length (buckets ix)));
  Some (concat ls).

Definition clear (ix : HashIndex) : HashIndex :=
  Index (map (fun ws => replicate (length ws) 0) (buckets ix)) (mask ix)
    (map (fun ws => replicate (length ws) 0) (overflow ix)) 1.

(** The crafted-hash test of the source: 39 tags in one bucket chain. *)
Definition crafted (t : nat) : word := Z.shiftl (Z.of_nat t) 49.
Definition insert_all (ts : list nat) (ix : HashIndex) : option HashIndex :=
  foldl (fun o t => ix ← o; '(s, ix) ← find_or_create_tag 2 ix (crafted t);
                    cur ← slot_load ix s; '(_, ix) ← slot_try_cas ix s cur (64 * Z.of_nat t); Some ix)
    (Some ix) ts.
Definition lookup_hash (ix : HashIndex) (h : word) : option word :=
  o ← find_tag ix h; s ← o; w ← slot_load ix s; Some (entry_address w).

Example overflow_buckets_are_used :
  (ix ← insert_all (seq 1 39) (index_new 2);
   es ← for_each_entry ix;
   Some (length es, overflow_next ix, forallb (fun t => bool_decide
      (lookup_hash ix (crafted t) = Some (64 * Z.of_nat t))) (seq 1 39)))
  = Some (39%nat, 6, true).
Proof. vm_compute. reflexivity. Qed.
