(* ===== verification/IndexSpec.v ===== *)
(** * The hash index implements a map

    The well-formedness invariant of the bucket chains, the specification of
    [find_tag] and [find_or_create_tag], and the directory they implement. *)

From S2P Require Import Prelude Record Hash Index.

(** ** Chains *)

Definition overflow_ptr (ix : HashIndex) (b : bref) : option word :=
  w ← load_word ix b OVERFLOW_ENTRY; Some (Z.land w ADDRESS_MASK).
Definition linked (ix : HashIndex) (b b' : bref) : Prop :=
  exists n, overflow_ptr ix b = Some n /\ n <> 0 /\ b' = Over n.
Definition reach (ix : HashIndex) : bref -> bref -> Prop := rtc (linked ix).

(** Position of a bucket in the allocation order: overflow links increase it. *)
Definition rank (b : bref) : Z := match b with Main _ => 0 | Over a => a end.

Record table_ok (ix : HashIndex) : Prop := {
  ok_mask : exists k, 0 < k < 64 /\ mask ix = Z.ones k /\ Z.of_nat (length (buckets ix)) = 2 ^ k;
  ok_len : forall b ws, get_bucket ix b = Some ws -> length ws = 8%nat;
  ok_next : 1 <= overflow_next ix <= Z.of_nat (length (overflow ix)) + 1;
  ok_arena : Z.of_nat (length (overflow ix)) < 2 ^ 47;
  ok_link : forall b n, overflow_ptr ix b = Some n -> n = 0 \/ rank b < n < overflow_next ix;
  ok_inj : forall b b' n, overflow_ptr ix b = Some n -> overflow_ptr ix b' = Some n ->
             n <> 0 -> b = b';
  ok_fresh : forall a, overflow_next ix <= a <= Z.of_nat (length (overflow ix)) ->
             get_bucket ix (Over a) = Some bucket_new;
  ok_word : forall b w, load_word ix b OVERFLOW_ENTRY = Some w -> is_u64 w }.

(** At most one entry per (chain, tag), and none of them tentative: the state
    between operations. *)
Record entries_ok (ix : HashIndex) : Prop := {
  ok_settled : forall b i w, (i < ENTRIES_PER_BUCKET)%nat -> load_word ix b i = Some w ->
             is_tentative w = false;
  ok_unique : forall bi b b' i i' w w',
             reach ix (Main bi) b -> reach ix (Main bi) b' ->
             (i < ENTRIES_PER_BUCKET)%nat -> (i' < ENTRIES_PER_BUCKET)%nat ->
             load_word ix b i = Some w -> load_word ix b' i' = Some w' ->
             is_empty w = false -> is_empty w' = false -> entry_tag w = entry_tag w' ->
             b = b' /\ i = i' }.

(** ** Loads and stores *)

Lemma get_bucket_over ix a ws : get_bucket ix (Over a) = Some ws ->
  1 <= a <= Z.of_nat (length (overflow ix)).
Proof.
  simpl. unfold overflow_bucket. destruct (Z.leb_spec a 0); [done|].
  intros H1%lookup_lt_Some. lia.
Qed.

Lemma get_bucket_over_is_Some ix a : 1 <= a <= Z.of_nat (length (overflow ix)) ->
  is_Some (get_bucket ix (Over a)).
Proof.
  intros H. simpl. unfold overflow_bucket. destruct (Z.leb_spec a 0); [lia|].
  apply lookup_lt_is_Some. lia.
Qed.

Lemma get_bucket_store ix b i w b' :
  get_bucket (store_word ix b i w) b' =
  if decide (b = b') then (fun ws => <[i := w]> ws) <$> get_bucket ix b' else get_bucket ix b'.
Proof.
  destruct b as [bi|a], b' as [bi'|a'].
  - simpl. case_decide as H; [injection H as <-; by rewrite list_lookup_alter_eq|].
    rewrite list_lookup_alter_ne; [done|congruence].
  - simpl. unfold overflow_bucket. done.
  - simpl. by destruct (a <=? 0).
  - simpl. unfold overflow_bucket. destruct (Z.leb_spec a 0).
    + case_decide as H1; [|done]. injection H1 as ->. by replace (a' <=? 0) with true by lia.
    + simpl. destruct (Z.leb_spec a' 0); [by case_decide|].
      case_decide as H1; [injection H1 as <-; by rewrite list_lookup_alter_eq|].
      rewrite list_lookup_alter_ne; [done|]. intros E. apply H1. f_equal. lia.
Qed.

Lemma load_store_eq ix b i w w0 :
  load_word ix b i = Some w0 -> load_word (store_word ix b i w) b i = Some w.
Proof.
  unfold load_word. rewrite get_bucket_store, decide_True by done.
  destruct (get_bucket ix b) as [ws|]; [simpl|done]. intros H.
  apply list_lookup_insert_eq. by eapply lookup_lt_Some.
Qed.

Lemma load_store_ne ix b i w b' i' :
  ~ (b = b' /\ i = i') -> load_word (store_word ix b i w) b' i' = load_word ix b' i'.
Proof.
  intros Hne. unfold load_word. rewrite get_bucket_store.
  case_decide as E; [|done]. destruct (get_bucket ix b') as [ws|]; [simpl|done].
  apply list_lookup_insert_ne. naive_solver.
Qed.

Lemma overflow_ptr_store_entry ix b i w b' :
  (i < ENTRIES_PER_BUCKET)%nat -> overflow_ptr (store_word ix b i w) b' = overflow_ptr ix b'.
Proof.
  intros Hi. unfold overflow_ptr. rewrite load_store_ne; [done|].
  unfold ENTRIES_PER_BUCKET, OVERFLOW_ENTRY in *. lia.
Qed.

Lemma store_word_meta ix b i w :
  mask (store_word ix b i w) = mask ix /\ overflow_next (store_word ix b i w) = overflow_next ix /\
  length (buckets (store_word ix b i w)) = length (buckets ix) /\
  length (overflow (store_word ix b i w)) = length (overflow ix).
Proof.
  destruct b; simpl; [by rewrite length_alter|]. destruct (addr <=? 0); [done|].
  simpl. by rewrite length_alter.
Qed.

Lemma bucket_index_store ix b i w h : bucket_index (store_word ix b i w) h = bucket_index ix h.
Proof. unfold bucket_index. by rewrite (proj1 (store_word_meta ix b i w)). Qed.

Lemma linked_store_entry ix b i w x y :
  (i < ENTRIES_PER_BUCKET)%nat -> linked (store_word ix b i w) x y <-> linked ix x y.
Proof. intros. unfold linked. setoid_rewrite overflow_ptr_store_entry; done. Qed.

Lemma reach_store_entry ix b i w x y :
  (i < ENTRIES_PER_BUCKET)%nat -> reach (store_word ix b i w) x y <-> reach ix x y.
Proof.
  intros Hi. split; apply rtc_subrel; intros ? ?; by apply linked_store_entry.
Qed.

Lemma table_ok_store_entry ix b i w :
  table_ok ix -> (i < ENTRIES_PER_BUCKET)%nat ->
  (match b with Main _ => True | Over a => a < overflow_next ix end) ->
  table_ok (store_word ix b i w).
Proof.
  intros [Hm Hl Hn Ha Hk Hj Hf Hwd] Hi Hb.
  destruct (store_word_meta ix b i w) as (E1 & E2 & E3 & E4).
  split; rewrite ?E1, ?E2, ?E3, ?E4; try done.
  - intros b' ws. rewrite get_bucket_store. case_decide; [|apply Hl].
    intros (ws' & Hws & ->)%fmap_Some. rewrite length_insert. by eapply Hl.
  - intros b' n. rewrite overflow_ptr_store_entry by done. apply Hk.
  - intros b' b'' n. rewrite !overflow_ptr_store_entry by done. apply Hj.
  - intros a' Ha'. rewrite get_bucket_store. case_decide; [subst; lia|]. by apply Hf.
  - intros b' w'. rewrite load_store_ne; [apply Hwd|].
    unfold ENTRIES_PER_BUCKET, OVERFLOW_ENTRY in *. lia.
Qed.

(** ** Chains end, and no two chains share a bucket *)

Lemma load_word_ok ix b ws i : table_ok ix -> get_bucket ix b = Some ws ->
  (i < 8)%nat -> is_Some (load_word ix b i).
Proof.
  intros Hok Hb Hi. unfold load_word. rewrite Hb. simpl.
  apply lookup_lt_is_Some. by rewrite (ok_len _ Hok _ _ Hb).
Qed.

Lemma linked_bucket ix b b' : table_ok ix -> linked ix b b' ->
  is_Some (get_bucket ix b') /\ rank b < rank b' < overflow_next ix.
Proof.
  intros Hok (n & Hn & Hne & ->).
  destruct (ok_link _ Hok _ _ Hn) as [|Hr]; [done|]. simpl. split; [|done].
  apply get_bucket_over_is_Some. pose proof (ok_next _ Hok).
  assert (0 <= rank b).
  { destruct b; simpl; [lia|]. unfold overflow_ptr, load_word in Hn.
    destruct (get_bucket ix (Over addr)) eqn:E; [|done].
    apply get_bucket_over in E. lia. }
  lia.
Qed.

Lemma reach_rank ix b b' : table_ok ix -> reach ix b b' -> rank b <= rank b'.
Proof.
  intros Hok. induction 1 as [|x y z Hxy _ IH]; [lia|].
  apply (linked_bucket _ _ _ Hok) in Hxy. lia.
Qed.

Lemma reach_main_disjoint ix bi bi' b : table_ok ix ->
  reach ix (Main bi) b -> reach ix (Main bi') b -> bi = bi'.
Proof.
  intros Hok H1 H2. revert b H1 bi' H2.
  apply (rtc_ind_r (fun b => forall bi', reach ix (Main bi') b -> bi = bi')).
  - intros bi' H2. apply rtc_inv_r in H2 as [E|(y & _ & (n & _ & _ & E))]; congruence.
  - intros y z _ Hyz IH bi' H2. apply rtc_inv_r in H2 as [E|(y' & Hy' & Hl)].
    + destruct Hyz as (n & _ & _ & ->). done.
    + apply IH. destruct Hyz as (n & Hn & Hne & ->), Hl as (n' & Hn' & _ & [= <-]).
      by rewrite (ok_inj _ Hok _ _ _ Hn Hn' Hne).
Qed.

(** ** What a scan and a walk find *)

Lemma scan_bucket_Some p ws i : scan_bucket p ws = Some i ->
  (i < ENTRIES_PER_BUCKET)%nat /\ exists w, ws !! i = Some w /\ p i w = true.
Proof.
  unfold scan_bucket. intros H.
  assert (Hin : i ∈ filter (fun i => match ws !! i with Some w => p i w | None => false end = true)
    (seq 0 ENTRIES_PER_BUCKET)).
  { destruct (filter _ _); [done|]. injection H as <-. by left. }
  apply list_elem_of_filter in Hin as [Hp Hs]. apply elem_of_seq in Hs.
  split; [lia|]. destruct (ws !! i) as [w|]; [by exists w|done].
Qed.

Lemma scan_bucket_None p ws i w : scan_bucket p ws = None ->
  (i < ENTRIES_PER_BUCKET)%nat -> ws !! i = Some w -> p i w = false.
Proof.
  unfold scan_bucket. intros H Hi Hw.
  destruct (p i w) eqn:Ep; [|done].
  assert (Hin : i ∈ filter (fun i => match ws !! i with Some w => p i w | None => false end = true)
    (seq 0 ENTRIES_PER_BUCKET)).
  { apply list_elem_of_filter. split; [by rewrite Hw|]. apply elem_of_seq. lia. }
  destruct (filter _ _); [by apply not_elem_of_nil in Hin|done].
Qed.

(** The overflow word is not scanned. *)
Lemma scan_bucket_link p ws x : scan_bucket p (<[7%nat := x]> ws) = scan_bucket p ws.
Proof.
  unfold scan_bucket. f_equal. apply filter_ext_in. intros j Hj%elem_of_seq.
  rewrite list_lookup_insert_ne; [done|]. unfold ENTRIES_PER_BUCKET in Hj. lia.
Qed.

(** A position of the chain starting at [b] whose word satisfies [p]. *)
Definition hit (ix : HashIndex) (b : bref) (p : bref -> nat -> word -> bool)
    (b' : bref) (i : nat) : Prop :=
  reach ix b b' /\ (i < ENTRIES_PER_BUCKET)%nat /\
  exists w, load_word ix b' i = Some w /\ p b' i w = true.
Definition no_hit (ix : HashIndex) (b : bref) (p : bref -> nat -> word -> bool) : Prop :=
  forall b' i w, reach ix b b' -> (i < ENTRIES_PER_BUCKET)%nat ->
    load_word ix b' i = Some w -> p b' i w = false.

Lemma hit_here ix b p ws i : get_bucket ix b = Some ws ->
  scan_bucket (p b) ws = Some i -> hit ix b p b i.
Proof.
  intros Hb (Hi & w & Hw & Hp)%scan_bucket_Some. split_and!; [apply rtc_refl|done|].
  exists w. unfold load_word. by rewrite Hb.
Qed.

Lemma hit_next ix b b1 p b' i : linked ix b b1 -> hit ix b1 p b' i -> hit ix b p b' i.
Proof. intros Hl (Hr & ?). split; [by eapply rtc_l|done]. Qed.

Lemma no_hit_next ix b ws p : get_bucket ix b = Some ws -> scan_bucket (p b) ws = None ->
  (forall b1, linked ix b b1 -> no_hit ix b1 p) -> no_hit ix b p.
Proof.
  intros Hb Hs Hn b' i w Hr Hi Hw. inversion Hr as [|x y z Hl Hr']; subst.
  - unfold load_word in Hw. rewrite Hb in Hw. simpl in Hw. by eapply scan_bucket_None.
  - by eapply Hn.
Qed.

Lemma walk_chain_spec {A} ix (p : bref -> nat -> word -> bool) (f : bref -> nat -> A) acc :
  table_ok ix -> forall fuel b, is_Some (get_bucket ix b) ->
  Z.of_nat (length (overflow ix)) < rank b + Z.of_nat fuel ->
  exists r, walk_chain fuel ix b
    (fun acc b ws => match scan_bucket (p b) ws with
                     | Some i => (true, f b i) | None => (false, acc) end) acc = Some r /\
    ((exists b' i, hit ix b p b' i /\ r = f b' i) \/ (no_hit ix b p /\ r = acc)).
Proof.
  intros Hok. induction fuel as [|fuel IH]; intros b [ws Hb] Hf.
  - destruct b as [bi|a]; simpl in Hf; [lia|]. apply get_bucket_over in Hb. lia.
  - simpl. rewrite Hb. simpl. destruct (scan_bucket (p b) ws) as [i|] eqn:Es.
    + exists (f b i). split; [done|]. left. exists b, i. by split; [eapply hit_here|].
    + destruct (load_word_ok ix b ws 7 Hok Hb ltac:(lia)) as [w Hw].
      unfold load_word in Hw. rewrite Hb in Hw. simpl in Hw.
      unfold OVERFLOW_ENTRY. rewrite Hw. simpl.
      assert (Hp : overflow_ptr ix b = Some (Z.land w ADDRESS_MASK)).
      { unfold overflow_ptr, load_word. rewrite Hb. simpl. unfold OVERFLOW_ENTRY. by rewrite Hw. }
      destruct (Z.eqb_spec (Z.land w ADDRESS_MASK) 0) as [E0|E0].
      * exists acc. split; [done|]. right. split; [|done].
        apply (no_hit_next _ _ ws); [done..|]. intros b1 (n & Hn & ? & _).
        rewrite Hp in Hn. congruence.
      * assert (Hl : linked ix b (Over (Z.land w ADDRESS_MASK))) by (eexists; eauto).
        destruct (linked_bucket _ _ _ Hok Hl) as [Hs Hr].
        destruct (IH _ Hs ltac:(lia)) as (r & Hwk & Hcase).
        exists r. split; [done|]. destruct Hcase as [(b' & i & Hh & ->)|[Hn ->]].
        -- left. exists b', i. split; [by eapply hit_next|done].
        -- right. split; [|done]. apply (no_hit_next _ _ ws); [done..|].
           intros b1 (n & Hn1 & _ & ->). rewrite Hp in Hn1. by injection Hn1 as <-.
Qed.

(** ** Linking a fresh overflow bucket *)

Lemma overflow_ptr_spec ix b ws w : get_bucket ix b = Some ws -> ws !! 7%nat = Some w ->
  overflow_ptr ix b = Some (Z.land w ADDRESS_MASK).
Proof.
  intros Hb Hw. unfold overflow_ptr, load_word. rewrite Hb. simpl.
  unfold OVERFLOW_ENTRY. by rewrite Hw.
Qed.

Lemma relink_address w n : 0 <= n < 2 ^ 48 ->
  Z.land (Z.lor (Z.land w (not64 ADDRESS_MASK)) n) ADDRESS_MASK = n.
Proof.
  intros Hn. rewrite <- (previous_address_small n) at 2 by done.
  change (previous_address (Z.lor (Z.land w (not64 ADDRESS_MASK)) n) = previous_address n).
  apply previous_address_ext. intros. info_bits.
Qed.

Definition link_new (ix : HashIndex) (b : bref) (w : word) : HashIndex :=
  store_word (Index (buckets ix) (mask ix) (overflow ix) (overflow_next ix + 1)) b
    OVERFLOW_ENTRY (Z.lor (Z.land w (not64 ADDRESS_MASK)) (overflow_next ix)).

Section Link.
Context (ix : HashIndex) (b : bref) (ws : list Z) (w : word).
Context (Hok : table_ok ix) (Hb : get_bucket ix b = Some ws) (Hw : ws !! 7%nat = Some w).
Context (H0 : Z.land w ADDRESS_MASK = 0).
Context (Hroom : overflow_next ix <= Z.of_nat (length (overflow ix))).
Context (Hin : rank b < overflow_next ix).

Let n := overflow_next ix.
Let ix' := link_new ix b w.

Lemma link_meta : mask ix' = mask ix /\ overflow_next ix' = n + 1 /\
  length (buckets ix') = length (buckets ix) /\ length (overflow ix') = length (overflow ix).
Proof. unfold ix', link_new. by destruct (store_word_meta (Index (buckets ix) (mask ix) (overflow ix) (overflow_next ix + 1)) b OVERFLOW_ENTRY (Z.lor (Z.land w (not64 ADDRESS_MASK)) (overflow_next ix))) as (-> & -> & -> & ->). Qed.

Lemma link_bucket b' : get_bucket ix' b' =
  if decide (b = b') then (fun ws => <[7%nat := Z.lor (Z.land w (not64 ADDRESS_MASK)) n]> ws) <$> get_bucket ix b'
  else get_bucket ix b'.
Proof. unfold ix', link_new. rewrite get_bucket_store. by destruct b'. Qed.

Lemma link_load b' i : (i < ENTRIES_PER_BUCKET)%nat -> load_word ix' b' i = load_word ix b' i.
Proof.
  intros Hi. unfold load_word. rewrite link_bucket. case_decide; [|done].
  destruct (get_bucket ix b'); [simpl|done]. apply list_lookup_insert_ne.
  unfold ENTRIES_PER_BUCKET in Hi. lia.
Qed.

Lemma link_ptr b' : overflow_ptr ix' b' = if decide (b = b') then Some n else overflow_ptr ix b'.
Proof.
  unfold overflow_ptr, load_word. rewrite link_bucket. case_decide as E; [subst b'|done].
  rewrite Hb. simpl. unfold OVERFLOW_ENTRY. rewrite list_lookup_insert_eq
    by (rewrite (ok_len _ Hok _ _ Hb); lia).
  simpl. rewrite relink_address; [done|]. pose proof (ok_next _ Hok). pose proof (ok_arena _ Hok). lia.
Qed.

Lemma link_old_ptr : overflow_ptr ix b = Some 0.
Proof. rewrite (overflow_ptr_spec _ _ _ _ Hb Hw). by rewrite H0. Qed.

Lemma fresh_ptr a : n <= a <= Z.of_nat (length (overflow ix)) -> overflow_ptr ix (Over a) = Some 0.
Proof. intros Ha. by rewrite (overflow_ptr_spec _ _ _ 0 (ok_fresh _ Hok _ Ha)). Qed.

Lemma link_table_ok : table_ok ix'.
Proof.
  destruct link_meta as (E1 & E2 & E3 & E4). pose proof (ok_next _ Hok) as Hn.
  split; rewrite ?E1, ?E2, ?E3, ?E4.
  - apply (ok_mask _ Hok).
  - intros b' ws'. rewrite link_bucket. case_decide; [|apply (ok_len _ Hok)].
    intros (ws0 & Hws & ->)%fmap_Some. rewrite length_insert. by eapply (ok_len _ Hok).
  - unfold n. lia.
  - apply (ok_arena _ Hok).
  - intros b' m. rewrite link_ptr. case_decide as E; [subst b'; intros [= <-]|].
    + right. fold n in Hin. lia.
    + intros [|]%(ok_link _ Hok); [by left|right]. unfold n. lia.
  - intros b1 b2 m. rewrite !link_ptr. repeat case_decide; subst; try done.
    + intros [= <-] [|]%(ok_link _ Hok) ?; unfold n in *; lia.
    + intros [|]%(ok_link _ Hok) [= <-] ?; unfold n in *; lia.
    + apply (ok_inj _ Hok).
  - intros a Ha. rewrite link_bucket. case_decide as E; [subst b; simpl in Hin; unfold n in *; lia|].
    apply (ok_fresh _ Hok). unfold n in *. lia.
  - intros b' w'. unfold load_word. rewrite link_bucket. case_decide as E; [subst b'|apply (ok_word _ Hok b')].
    rewrite Hb. simpl. unfold OVERFLOW_ENTRY. rewrite list_lookup_insert_eq
      by (rewrite (ok_len _ Hok _ _ Hb); lia). intros [= <-].
    assert (is_u64 w) by (apply (ok_word _ Hok b); unfold load_word; by rewrite Hb).
    apply lor_u64; [by apply land_u64_l|]. unfold is_u64, two64, n. pose proof (ok_arena _ Hok). lia.
Qed.

Lemma link_linked x y : linked ix' x y <-> linked ix x y \/ (x = b /\ y = Over n).
Proof.
  unfold linked. rewrite link_ptr. case_decide as E.
  - subst x. rewrite link_old_ptr. pose proof (ok_next _ Hok). split.
    + intros (m & [= <-] & _ & ->). by right.
    + intros [(m & [= <-] & ? & _)|[_ ->]]; [done|]. exists n. unfold n. split_and!; [done|lia|done].
  - split; [by left|]. intros [?|[-> _]]; [done|congruence].
Qed.

Lemma link_reach bi y :
  reach ix' (Main bi) y <-> reach ix (Main bi) y \/ (reach ix (Main bi) b /\ y = Over n).
Proof.
  split.
  - revert y. apply (rtc_ind_r (fun y => reach ix (Main bi) y \/ (reach ix (Main bi) b /\ y = Over n))).
    + left. apply rtc_refl.
    + intros y z _ [Hl|[-> ->]]%link_linked [Hr|[Hr ->]].
      * left. by eapply rtc_r.
      * exfalso. destruct Hl as (m & Hm & ? & _). rewrite fresh_ptr in Hm; [congruence|].
        unfold n. lia.
      * right. done.
      * right. split; [|done]. done.
  - intros [Hr|[Hr ->]].
    + eapply rtc_subrel; [|exact Hr]. intros ? ? ?. apply link_linked. by left.
    + eapply rtc_r; [|apply link_linked; by right].
      eapply rtc_subrel; [|exact Hr]. intros ? ? ?. apply link_linked. by left.
Qed.

Lemma link_fresh_entry i : (i < ENTRIES_PER_BUCKET)%nat -> load_word ix' (Over n) i = Some 0.
Proof.
  intros Hi. rewrite link_load by done. unfold load_word. rewrite (ok_fresh _ Hok) by (unfold n; lia).
  simpl. unfold bucket_new, ENTRIES_PER_BUCKET in *. apply lookup_replicate_2. lia.
Qed.

Lemma link_entries_ok : entries_ok ix -> entries_ok ix'.
Proof.
  intros [Hs Hu]. split.
  - intros b' i w'. intros Hi. rewrite link_load by done. by apply Hs.
  - intros bi b1 b2 i1 i2 w1 w2 R1 R2 I1 I2 L1 L2 E1 E2 Et.
    apply link_reach in R1 as [R1|[_ ->]]; apply link_reach in R2 as [R2|[_ ->]].
    + rewrite link_load in L1, L2 by done. by eapply Hu.
    + rewrite link_fresh_entry in L2 by done. injection L2 as <-. done.
    + rewrite link_fresh_entry in L1 by done. injection L1 as <-. done.
    + rewrite link_fresh_entry in L1 by done. injection L1 as <-. done.
Qed.
End Link.

(** ** [find_tag] and [find_or_create_tag] *)

(** The latch half of a bucket's last word. *)
Definition latch_bits (ix : HashIndex) (b : bref) : option word :=
  w ← load_word ix b OVERFLOW_ENTRY; Some (Z.land w (not64 ADDRESS_MASK)).

(** What growing a chain by at most one fresh bucket preserves. *)
Record grown (ix ix' : HashIndex) : Prop := {
  gr_table : table_ok ix'; gr_entries : entries_ok ix';
  gr_mask : mask ix' = mask ix;
  gr_load : forall b i, (i < ENTRIES_PER_BUCKET)%nat -> load_word ix' b i = load_word ix b i;
  gr_latch : forall b, latch_bits ix' b = latch_bits ix b;
  gr_reach : forall bi y, reach ix (Main bi) y -> reach ix' (Main bi) y;
  gr_new : forall bi y, reach ix' (Main bi) y -> reach ix (Main bi) y \/
             (forall i, (i < ENTRIES_PER_BUCKET)%nat -> load_word ix' y i = Some 0);
  gr_next : overflow_next ix' <= overflow_next ix + 1 /\ length (overflow ix') = length (overflow ix) }.

Lemma grown_refl ix : table_ok ix -> entries_ok ix -> grown ix ix.
Proof. intros. split; auto. lia. Qed.

Lemma relink_latch w n : 0 <= n < 2 ^ 48 ->
  Z.land (Z.lor (Z.land w (not64 ADDRESS_MASK)) n) (not64 ADDRESS_MASK) = Z.land w (not64 ADDRESS_MASK).
Proof.
  intros Hn. assert (Hb : forall k, 48 <= k -> Z.testbit n k = false)
    by (intros; by apply (testbit_high n 48)).
  unfold ADDRESS_MASK. apply word_eq. intros k Hk.
  rewrite !Z.land_spec, Z.lor_spec, Z.land_spec, testbit_not64, testbit_ones by lia.
  destruct (Z.leb_spec 0 k); [|lia].
  destruct (Z.ltb_spec k 48); [|rewrite Hb by lia];
    destruct (Z.ltb_spec k 64); simpl; try lia; bool_solve.
Qed.

Lemma link_grown ix b ws w : table_ok ix -> entries_ok ix -> get_bucket ix b = Some ws ->
  ws !! 7%nat = Some w -> Z.land w ADDRESS_MASK = 0 ->
  overflow_next ix <= Z.of_nat (length (overflow ix)) -> rank b < overflow_next ix ->
  grown ix (link_new ix b w).
Proof.
  intros Hok He Hb Hw H0 Hroom Hin. split.
  - by eapply link_table_ok.
  - by eapply link_entries_ok.
  - apply (link_meta ix b w).
  - intros. by apply link_load.
  - intros b'. unfold latch_bits, load_word. rewrite link_bucket. case_decide as E; [subst b'|done].
    rewrite Hb. simpl. unfold OVERFLOW_ENTRY.
    rewrite list_lookup_insert_eq by (rewrite (ok_len _ Hok _ _ Hb); lia). simpl.
    rewrite relink_latch, Hw; [done|]. pose proof (ok_next _ Hok). pose proof (ok_arena _ Hok). lia.
  - intros bi y Hr. eapply link_reach; [done..|]. by left.
  - intros bi y [Hr|[_ ->]]%(link_reach ix b ws w Hok Hb Hw H0 Hroom Hin); [by left|].
    right. intros i Hi. by apply link_fresh_entry.
  - destruct (link_meta ix b w) as (_ & E1 & _ & E2). lia.
Qed.

Definition tag_pred (tag : word) : bref -> nat -> word -> bool := fun _ _ w => matches_tag tag w.

(** A claimable slot for [(bi, tag)]. *)
Definition free_slot (ix : HashIndex) (bi : nat) (tag : word) (f : SlotRef) : Prop :=
  f = Slot (sr_ref f) (sr_i f) bi tag /\ reach ix (Main bi) (sr_ref f) /\
  (sr_i f < ENTRIES_PER_BUCKET)%nat /\ slot_load ix f = Some 0.

Lemma rank_reached ix bi b : table_ok ix -> reach ix (Main bi) b -> rank b < overflow_next ix.
Proof.
  intros Hok Hr. apply rtc_inv_r in Hr as [<-|(y & _ & Hl)].
  - simpl. pose proof (ok_next _ Hok). lia.
  - apply (linked_bucket _ _ _ Hok) in Hl. lia.
Qed.

Lemma free_here ix b ws bi tag i : get_bucket ix b = Some ws -> reach ix (Main bi) b ->
  scan_bucket (fun _ w => is_empty w) ws = Some i -> free_slot ix bi tag (Slot b i bi tag).
Proof.
  intros Hb Hr (Hi & w & Hw & Hz)%scan_bucket_Some. split_and!; [done..|].
  unfold slot_load, load_word. simpl. rewrite Hb. simpl. rewrite Hw.
  unfold is_empty in Hz. by apply Z.eqb_eq in Hz as ->.
Qed.

Lemma free_or ix b ws bi tag free : get_bucket ix b = Some ws -> reach ix (Main bi) b ->
  (forall f, free = Some f -> free_slot ix bi tag f) ->
  forall f, match free with Some f => Some f
    | None => (fun i => Slot b i bi tag) <$> scan_bucket (fun _ w => is_empty w) ws end = Some f ->
  free_slot ix bi tag f.
Proof.
  intros Hb Hr Hfree f. destruct free as [f0|]; [intros [= <-]; by apply Hfree|].
  intros (i & Hi & ->)%fmap_Some. by eapply free_here.
Qed.

(** The fresh bucket is scanned next and offers its first slot. *)
Lemma find_in_fresh fuel ix a bi tag : get_bucket ix (Over a) = Some bucket_new ->
  find_tag_or_free (S fuel) ix (Over a) None bi tag = Some (inr (Slot (Over a) 0 bi tag), ix).
Proof. intros Ha. cbn -[get_bucket scan_bucket]. rewrite Ha. reflexivity. Qed.

Lemma find_tag_or_free_spec ix bi tag : table_ok ix -> entries_ok ix ->
  overflow_next ix <= Z.of_nat (length (overflow ix)) ->
  forall fuel b free, reach ix (Main bi) b -> is_Some (get_bucket ix b) ->
  Z.of_nat (length (overflow ix)) + 2 < rank b + Z.of_nat fuel ->
  (forall f, free = Some f -> free_slot ix bi tag f) ->
  exists r ix', find_tag_or_free fuel ix b free bi tag = Some (r, ix') /\
  match r with
  | inl s => ix' = ix /\ s = Slot (sr_ref s) (sr_i s) bi tag /\
             hit ix b (tag_pred tag) (sr_ref s) (sr_i s)
  | inr f => no_hit ix b (tag_pred tag) /\ grown ix ix' /\ free_slot ix' bi tag f
  end.
Proof.
  intros Hok He Hroom. induction fuel as [|fuel IH]; intros b free Hr [ws Hb] Hf Hfree.
  { destruct b as [m|a]; simpl in Hf; [lia|]. apply get_bucket_over in Hb. lia. }
  cbn [find_tag_or_free]. rewrite Hb. cbn [mbind option_bind].
  pose proof (free_or ix b ws bi tag free Hb Hr Hfree) as Hfree'.
  set (free' := match free with Some f => Some f | None => _ end) in *.
  destruct (scan_bucket (fun _ w => matches_tag tag w) ws) as [i|] eqn:Es.
  { exists (inl (Slot b i bi tag)), ix. split; [done|]. split_and!; [done..|].
    by eapply (hit_here _ _ (tag_pred tag)). }
  destruct (load_word_ok ix b ws 7 Hok Hb ltac:(lia)) as [w Hw].
  unfold load_word in Hw. rewrite Hb in Hw. cbn in Hw.
  rewrite (Hw : ws !! OVERFLOW_ENTRY = Some w). cbn [mbind option_bind].
  pose proof (overflow_ptr_spec _ _ _ _ Hb Hw) as Hp.
  destruct (Z.eqb_spec (Z.land w ADDRESS_MASK) 0) as [E0|E0]; cbn [negb].
  - assert (Hno : no_hit ix b (tag_pred tag)).
    { apply (no_hit_next _ _ ws); [done..|]. intros b1 (n & Hn & ? & _). congruence. }
    destruct free' as [f|] eqn:Ef.
    + exists (inr f), ix. split; [done|]. split_and!; [exact Hno|by apply grown_refl|by apply (Hfree' f)].
    + unfold alloc_overflow_bucket. destruct (Z.leb_spec (overflow_next ix) (Z.of_nat (length (overflow ix)))); [|lia].
      cbn [mbind option_bind]. fold (link_new ix b w).
      pose proof (rank_reached _ _ _ Hok Hr) as Hrank.
      pose proof (link_grown ix b ws w Hok He Hb Hw E0 Hroom Hrank) as Hg.
      pose proof (link_bucket ix b w) as Hlb. pose proof (ok_next _ Hok) as Hn1.
      assert (Hb' : get_bucket (link_new ix b w) b =
        Some (<[7%nat := Z.lor (Z.land w (not64 ADDRESS_MASK)) (overflow_next ix)]> ws))
        by (by rewrite Hlb, decide_True, Hb).
      destruct fuel as [|[|fuel]]; [destruct b; simpl in *; try apply get_bucket_over in Hb; lia..|].
      exists (inr (Slot (Over (overflow_next ix)) 0 bi tag)), (link_new ix b w).
      split; [|split_and!; [done|done|]].
      * remember (S fuel) as fuel1. cbn [find_tag_or_free]. rewrite Hb'. cbn [mbind option_bind].
        rewrite !scan_bucket_link, Es. unfold free' in Ef. destruct free; [done|]. rewrite Ef.
        rewrite list_lookup_insert_eq by (rewrite (ok_len _ Hok _ _ Hb); lia).
        cbn [mbind option_bind]. rewrite relink_address by (pose proof (ok_arena _ Hok); lia).
        destruct (Z.eqb_spec (overflow_next ix) 0); [lia|]. cbn [negb]. subst fuel1.
        apply find_in_fresh. rewrite Hlb, decide_False.
        -- apply (ok_fresh _ Hok). lia.
        -- intros ->. simpl in Hrank. lia.
      * split_and!; [done| |unfold ENTRIES_PER_BUCKET; simpl; lia|].
        -- simpl. eapply link_reach; [done..|]. by right.
        -- unfold slot_load. simpl. eapply link_fresh_entry; [done..|unfold ENTRIES_PER_BUCKET; lia].
  - assert (Hl : linked ix b (Over (Z.land w ADDRESS_MASK))) by (eexists; eauto).
    destruct (linked_bucket _ _ _ Hok Hl) as [Hs Hrk].
    destruct (IH _ free' ltac:(by eapply rtc_r) Hs ltac:(lia) Hfree') as (r & ix' & Hrun & Hpost).
    exists r, ix'. split; [done|]. destruct r as [s|f].
    + destruct Hpost as (-> & ? & ?). split_and!; [done|done|by eapply hit_next].
    + destruct Hpost as (? & ? & ?). split_and!; [|done|done].
      apply (no_hit_next _ _ ws); [done..|]. intros b1 (n & Hn & _ & ->). by simplify_eq.
Qed.

Lemma bucket_index_lt ix h : table_ok ix -> 0 <= h -> (bucket_index ix h < length (buckets ix))%nat.
Proof.
  intros Hok Hh. destruct (ok_mask _ Hok) as (k & Hk & Em & El). unfold bucket_index. rewrite Em.
  pose proof (land_ones_bound h k). lia.
Qed.

Lemma main_bucket ix h : table_ok ix -> 0 <= h -> is_Some (get_bucket ix (Main (bucket_index ix h))).
Proof. intros. simpl. apply lookup_lt_is_Some. by apply bucket_index_lt. Qed.

(** [find_tag] finds an entry exactly when the chain holds one. *)
Lemma find_tag_spec ix h : table_ok ix -> 0 <= h ->
  let bi := bucket_index ix h in let tag := tag_of h in
  exists r, find_tag ix h = Some r /\
  match r with
  | Some s => s = Slot (sr_ref s) (sr_i s) bi tag /\
              hit ix (Main bi) (tag_pred tag) (sr_ref s) (sr_i s)
  | None => no_hit ix (Main bi) (tag_pred tag)
  end.
Proof.
  intros Hok Hh bi tag. unfold find_tag. fold bi tag.
  destruct (walk_chain_spec ix (tag_pred tag) (fun b i => Some (Slot b i bi tag)) None Hok
    (chain_fuel ix) (Main bi) (main_bucket ix h Hok Hh)) as (r & Hw & Hr).
  { unfold chain_fuel. simpl. lia. }
  exists r. split; [exact Hw|].
  destruct Hr as [(b & i & Hh' & ->)|[Hn ->]]; [by split|done].
Qed.

(** Under uniqueness, any hit is the one [find_tag] returns. *)
Lemma find_tag_hit ix h b i : table_ok ix -> entries_ok ix -> 0 <= h ->
  hit ix (Main (bucket_index ix h)) (tag_pred (tag_of h)) b i ->
  find_tag ix h = Some (Some (Slot b i (bucket_index ix h) (tag_of h))).
Proof.
  intros Hok He Hh Hhit. destruct (find_tag_spec ix h Hok Hh) as (r & -> & Hr).
  destruct Hhit as (R1 & I1 & w1 & L1 & M1). unfold tag_pred, matches_tag in M1.
  destruct r as [s|].
  - destruct Hr as (Es & R2 & I2 & w2 & L2 & M2). unfold tag_pred, matches_tag in M2.
    rewrite !andb_true_iff, !negb_true_iff, Z.eqb_eq in M1, M2.
    destruct M1 as [[E1 T1] _], M2 as [[E2 T2] _].
    destruct (ok_unique _ He _ _ _ _ _ _ _ R2 R1 I2 I1 L2 L1 E2 E1) as [Eb Ei]; [congruence|].
    rewrite Es. by rewrite <- Eb, <- Ei.
  - specialize (Hr _ _ _ R1 I1 L1). unfold tag_pred, matches_tag in Hr. congruence.
Qed.

Lemma find_tag_none ix h : table_ok ix -> 0 <= h ->
  no_hit ix (Main (bucket_index ix h)) (tag_pred (tag_of h)) -> find_tag ix h = Some None.
Proof.
  intros Hok Hh Hn. destruct (find_tag_spec ix h Hok Hh) as (r & -> & Hr).
  destruct r as [s|]; [|done]. destruct Hr as (_ & R & I & w & L & M).
  by rewrite (Hn _ _ _ R I L) in M.
Qed.

Lemma other_slot_spec ix bi tag f : table_ok ix -> is_Some (get_bucket ix (Main bi)) ->
  (forall b i w, reach ix (Main bi) b -> (i < ENTRIES_PER_BUCKET)%nat ->
     load_word ix b i = Some w -> ~ (b = sr_ref f /\ i = sr_i f) ->
     is_empty w = false -> entry_tag w <> tag) ->
  other_slot_with_tag ix bi tag f = Some false.
Proof.
  intros Hok Hb Hno. unfold other_slot_with_tag.
  destruct (walk_chain_spec ix (fun b i w => negb (slot_eqb b i f) &&
      (negb (is_empty w) && (entry_tag w =? tag))) (fun _ _ => true) false Hok
    (chain_fuel ix) (Main bi) Hb) as (r & -> & Hr).
  { unfold chain_fuel. simpl. lia. }
  destruct Hr as [(b & i & (R & I & w & L & M) & ->)|[_ ->]]; [exfalso|done].
  rewrite !andb_true_iff, !negb_true_iff, Z.eqb_eq in M. destruct M as (Hne & Hem & Ht).
  eapply Hno; [done..| |done|done]. intros [-> ->].
  unfold slot_eqb in Hne. rewrite bool_decide_true, Nat.eqb_refl in Hne by done. done.
Qed.

(** Writing a settled entry with a fresh tag into a free slot keeps the table
    well-formed and makes exactly that entry visible. *)
Section Claim.
Context (ix : HashIndex) (bi : nat) (tag : word) (f : SlotRef) (w : word).
Context (Hok : table_ok ix) (He : entries_ok ix) (Hf : free_slot ix bi tag f).
Context (Hno : no_hit ix (Main bi) (tag_pred tag)).
Context (Hwt : is_tentative w = false) (Hwe : is_empty w = false) (Hwg : entry_tag w = tag).

Let ix' := store_word ix (sr_ref f) (sr_i f) w.

Lemma claim_in : sr_bucket f = bi /\ reach ix (Main bi) (sr_ref f) /\
  (sr_i f < ENTRIES_PER_BUCKET)%nat /\ load_word ix (sr_ref f) (sr_i f) = Some 0.
Proof. destruct Hf as (E & R & I & L). split_and!; [by rewrite E|done..]. Qed.

Lemma claim_table : table_ok ix'.
Proof.
  destruct claim_in as (_ & R & I & _). apply table_ok_store_entry; [done|done|].
  pose proof (rank_reached _ _ _ Hok R). by destruct (sr_ref f).
Qed.

Lemma claim_load b i : load_word ix' b i =
  if decide (b = sr_ref f /\ i = sr_i f) then Some w else load_word ix b i.
Proof.
  destruct claim_in as (_ & _ & _ & L). unfold ix'. case_decide as E.
  - destruct E as [-> ->]. by eapply load_store_eq.
  - apply load_store_ne. intros [<- <-]; by apply E.
Qed.

Lemma claim_reach x y : reach ix' x y <-> reach ix x y.
Proof. apply reach_store_entry. apply claim_in. Qed.

Lemma claim_entries : entries_ok ix'.
Proof.
  destruct claim_in as (_ & R & I & L). split.
  - intros b i w' Hi. rewrite claim_load. case_decide; [intros [= <-]; done|].
    by apply (ok_settled _ He).
  - intros bi' b1 b2 i1 i2 w1 w2 R1 R2 I1 I2. rewrite !claim_load.
    apply claim_reach in R1, R2.
    assert (Hnew : forall b i w', reach ix (Main bi') b -> (i < ENTRIES_PER_BUCKET)%nat ->
      load_word ix b i = Some w' -> is_empty w' = false -> reach ix (Main bi') (sr_ref f) ->
      entry_tag w' = entry_tag w -> False).
    { intros b i w' Rb Hi Lb Eb Rf Et. rewrite (reach_main_disjoint _ _ _ _ Hok Rf R) in Rb.
      pose proof (Hno _ _ _ Rb Hi Lb) as Hm. unfold tag_pred, matches_tag in Hm.
      rewrite Eb, (ok_settled _ He _ _ _ Hi Lb), Et, Hwg, Z.eqb_refl in Hm. done. }
    destruct (decide (b1 = sr_ref f /\ i1 = sr_i f)) as [[-> ->]|],
      (decide (b2 = sr_ref f /\ i2 = sr_i f)) as [[-> ->]|].
    + done.
    + intros [= <-] L2 _ E2 Et. exfalso. by eapply (Hnew b2 i2 w2).
    + intros L1 [= <-] E1 _ Et. exfalso. by eapply (Hnew b1 i1 w1).
    + by apply (ok_unique _ He bi').
Qed.

Lemma claim_hit : hit ix' (Main bi) (tag_pred tag) (sr_ref f) (sr_i f).
Proof.
  destruct claim_in as (_ & R & I & L). split_and!; [by apply claim_reach|done|].
  exists w. rewrite claim_load, decide_True by done. split; [done|].
  unfold tag_pred, matches_tag. rewrite Hwe, Hwt, Hwg, Z.eqb_refl. done.
Qed.

Lemma claim_no_other : forall b i w', reach ix (Main bi) b -> (i < ENTRIES_PER_BUCKET)%nat ->
  load_word ix b i = Some w' -> is_empty w' = false -> entry_tag w' <> tag.
Proof.
  intros b i w' Rb Hi Lb Eb Et. pose proof (Hno _ _ _ Rb Hi Lb) as Hm.
  unfold tag_pred, matches_tag in Hm.
  by rewrite Eb, (ok_settled _ He _ _ _ Hi Lb), Et, Z.eqb_refl in Hm.
Qed.
End Claim.

Lemma store_store ix b i w w' :
  store_word (store_word ix b i w) b i w' = store_word ix b i w'.
Proof.
  destruct b as [bi|a]; simpl; [by rewrite alter_insert_twice|].
  destruct (a <=? 0) eqn:E; simpl; [done|]. by rewrite alter_insert_twice.
Qed.

Lemma latch_bits_store ix b i w b' : (i < ENTRIES_PER_BUCKET)%nat ->
  latch_bits (store_word ix b i w) b' = latch_bits ix b'.
Proof.
  intros Hi. unfold latch_bits. rewrite load_store_ne; [done|].
  unfold ENTRIES_PER_BUCKET, OVERFLOW_ENTRY in *. lia.
Qed.

Lemma grown_no_hit ix ix' bi tag : grown ix ix' ->
  no_hit ix (Main bi) (tag_pred tag) -> no_hit ix' (Main bi) (tag_pred tag).
Proof.
  intros Hg Hn b i w R Hi L. destruct (gr_new _ _ Hg _ _ R) as [R'|Hz].
  - rewrite (gr_load _ _ Hg) in L by done. by eapply Hn.
  - rewrite Hz in L by done. by injection L as <-.
Qed.

Lemma grown_hit ix ix' bi tag b i : grown ix ix' ->
  hit ix (Main bi) (tag_pred tag) b i -> hit ix' (Main bi) (tag_pred tag) b i.
Proof.
  intros Hg (R & I & w & L & M). split_and!; [by apply (gr_reach _ _ Hg)|done|].
  exists w. by rewrite (gr_load _ _ Hg).
Qed.

(** Claiming [f] for [(bi, tag)] leaves every other tag's lookup alone. *)
Lemma claim_frame ix bi tag f w h' :
  table_ok ix -> entries_ok ix -> free_slot ix bi tag f -> no_hit ix (Main bi) (tag_pred tag) ->
  is_tentative w = false -> is_empty w = false -> entry_tag w = tag -> 0 <= h' ->
  (bucket_index ix h', tag_of h') <> (bi, tag) ->
  let ix' := store_word ix (sr_ref f) (sr_i f) w in
  find_tag ix' h' = find_tag ix h' /\
  forall s', find_tag ix h' = Some (Some s') -> slot_load ix' s' = slot_load ix s'.
Proof.
  intros Hok He Hf Hno Hwt Hwe Hwg Hh Hne ix'.
  pose proof (claim_table ix bi tag f w Hok Hf) as Hok'.
  pose proof (claim_entries ix bi tag f w Hok He Hf Hno Hwt Hwg) as He'.
  destruct (claim_in ix bi tag f Hf) as (_ & R & I & L).
  assert (Ebi : bucket_index ix' h' = bucket_index ix h') by apply bucket_index_store.
  destruct (find_tag_spec ix h' Hok Hh) as (r & Hr & Hpost). rewrite Hr. destruct r as [s|].
  - destruct Hpost as (Es & Rs & Is & ws & Ls & Ms).
    assert (Hd : ~ (sr_ref s = sr_ref f /\ sr_i s = sr_i f)).
    { intros [E1 E2]. rewrite E1, E2, L in Ls. by injection Ls as <-. }
    split.
    + rewrite Es, <- Ebi. apply (find_tag_hit ix'); [done..|]. rewrite Ebi.
      split_and!; [by apply (claim_reach ix bi tag f w Hf)|done|]. exists ws.
      split; [|done]. rewrite (claim_load ix bi tag f w Hf). by rewrite decide_False.
    + intros s' [= <-]. unfold slot_load. rewrite (claim_load ix bi tag f w Hf). by rewrite decide_False.
  - split; [|done]. apply find_tag_none; [done..|]. rewrite Ebi.
    intros b i w' Rb Hi Lb. apply (claim_reach ix bi tag f w Hf) in Rb.
    rewrite (claim_load ix bi tag f w Hf) in Lb. case_decide as E; [|by eapply Hpost].
    destruct E as [-> ->]. injection Lb as <-. unfold tag_pred, matches_tag. rewrite Hwg.
    destruct (Z.eqb_spec tag (tag_of h')) as [Et|]; [|by rewrite andb_false_r]. exfalso. apply Hne.
    by rewrite (reach_main_disjoint _ _ _ _ Hok Rb R), Et.
Qed.

(** Growing the chain leaves every lookup alone. *)
Lemma grown_frame ix ix' h' : table_ok ix -> grown ix ix' -> 0 <= h' ->
  find_tag ix' h' = find_tag ix h' /\
  forall s', find_tag ix h' = Some (Some s') -> slot_load ix' s' = slot_load ix s'.
Proof.
  intros Hok Hg Hh.
  assert (Ebi : bucket_index ix' h' = bucket_index ix h')
    by (unfold bucket_index; by rewrite (gr_mask _ _ Hg)).
  destruct (find_tag_spec ix h' Hok Hh) as (r & Hr & Hpost). rewrite Hr. destruct r as [s|].
  - destruct Hpost as (Es & Hs). split.
    + rewrite Es, <- Ebi. apply find_tag_hit; [apply Hg|apply Hg|done|].
      rewrite Ebi. by eapply grown_hit.
    + intros s' [= <-]. unfold slot_load. apply (gr_load _ _ Hg). apply Hs.
  - split; [|done]. apply find_tag_none; [apply Hg|done|]. rewrite Ebi. by eapply grown_no_hit.
Qed.

Lemma tag_of_range h : is_u64 h -> 0 <= tag_of h < 2 ^ 15.
Proof.
  unfold is_u64, two64, tag_of, TAG_BITS. intros H. rewrite Z.shiftr_div_pow2 by lia.
  change (64 - 15) with 49. split; [apply Z.div_pos; lia|].
  apply Z.div_lt_upper_bound; lia.
Qed.

Lemma fresh_entry_ok tag : 0 <= tag < 2 ^ 15 ->
  let w := entry_make tag TEMP_INVALID_ADDRESS false in
  is_tentative w = false /\ is_empty w = false /\ entry_tag w = tag.
Proof.
  intros Ht w. unfold w, TEMP_INVALID_ADDRESS. split_and!.
  - apply is_tentative_make.
  - apply entry_make_nonempty. lia.
  - by apply entry_tag_make.
Qed.

(** The claim path of [find_or_create_tag], once a free slot was found. *)
Lemma create_in_free fuel ix ix1 h f :
  table_ok ix -> is_u64 h -> grown ix ix1 ->
  let bi := bucket_index ix h in let tag := tag_of h in
  no_hit ix (Main bi) (tag_pred tag) -> free_slot ix1 bi tag f ->
  find_tag_or_free (2 + chain_fuel ix) ix (Main bi) None bi tag = Some (inr f, ix1) ->
  find_or_create_tag (S fuel) ix h =
    Some (f, store_word ix1 (sr_ref f) (sr_i f) (entry_make tag TEMP_INVALID_ADDRESS false)).
Proof.
  intros Hok Hh Hg bi tag Hno Hf Hrun. cbn [find_or_create_tag]. fold bi tag. rewrite Hrun.
  cbn [mbind option_bind]. pose proof Hf as (Es & R & I & L). rewrite L. cbn [mbind option_bind].
  rewrite Z.eqb_refl. cbn [negb].
  rewrite (other_slot_spec _ bi tag f).
  - cbn [mbind option_bind]. by rewrite store_store.
  - apply table_ok_store_entry; [apply Hg|done|].
    pose proof (rank_reached _ _ _ (gr_table _ _ Hg) R). by destruct (sr_ref f).
  - rewrite get_bucket_store. pose proof (main_bucket ix1 h (gr_table _ _ Hg) ltac:(apply Hh)) as [ws Hws].
    unfold bi. replace (bucket_index ix h) with (bucket_index ix1 h)
      by (unfold bucket_index; by rewrite (gr_mask _ _ Hg)).
    rewrite Hws. case_decide; by eexists.
  - intros b i w' Rb Hi Lb Hne Eb. apply reach_store_entry in Rb; [|done].
    rewrite load_store_ne in Lb by (intros [<- <-]; by apply Hne).
    eapply (claim_no_other ix1 bi tag); [apply Hg|by eapply grown_no_hit|done..].
Qed.

(** One insertion, slot by slot. *)
Lemma find_or_create_tag_ok ix h fuel :
  table_ok ix -> entries_ok ix -> is_u64 h ->
  overflow_next ix <= Z.of_nat (length (overflow ix)) ->
  exists s ix', find_or_create_tag (S fuel) ix h = Some (s, ix') /\
    table_ok ix' /\ entries_ok ix' /\ mask ix' = mask ix /\
    sr_bucket s = bucket_index ix h /\ sr_tag s = tag_of h /\
    find_tag ix' h = Some (Some s) /\
    slot_load ix' s = (match find_tag ix h with
                       | Some (Some s0) => slot_load ix s0
                       | _ => Some (entry_make (tag_of h) TEMP_INVALID_ADDRESS false)
                       end) /\
    (forall h', 0 <= h' -> (bucket_index ix h', tag_of h') <> (bucket_index ix h, tag_of h) ->
       find_tag ix' h' = find_tag ix h' /\
       forall s', find_tag ix h' = Some (Some s') -> slot_load ix' s' = slot_load ix s') /\
    (forall b, latch_bits ix' b = latch_bits ix b).
Proof.
  intros Hok He Hh Hroom. assert (H0 : 0 <= h) by apply Hh.
  destruct (find_tag_or_free_spec ix (bucket_index ix h) (tag_of h) Hok He Hroom
    (2 + chain_fuel ix) (Main (bucket_index ix h)) None (rtc_refl _ _) (main_bucket ix h Hok H0))
    as (r & ix1 & Hrun & Hpost); [unfold chain_fuel; cbn [rank]; lia|done|].
  destruct r as [s|f].
  - destruct Hpost as (-> & Es & Hhit). exists s, ix.
    pose proof (find_tag_hit _ _ _ _ Hok He H0 Hhit) as Hf. rewrite <- Es in Hf.
    cbn [find_or_create_tag]. rewrite Hrun. cbn [mbind option_bind].
    rewrite Hf. assert (sr_bucket s = bucket_index ix h /\ sr_tag s = tag_of h) as [? ?]
      by (rewrite Es; by split). by split_and!.
  - destruct Hpost as (Hno & Hg & Hf).
    pose proof (gr_table _ _ Hg) as Hok1. pose proof (gr_entries _ _ Hg) as He1.
    pose proof (grown_no_hit _ _ _ _ Hg Hno) as Hno1.
    destruct (fresh_entry_ok (tag_of h) (tag_of_range _ Hh)) as (W1 & W2 & W3).
    set (w := entry_make (tag_of h) TEMP_INVALID_ADDRESS false) in *.
    assert (Ebi : bucket_index ix1 h = bucket_index ix h)
      by (unfold bucket_index; by rewrite (gr_mask _ _ Hg)).
    exists f, (store_word ix1 (sr_ref f) (sr_i f) w).
    pose proof Hf as (Es & _ & If & _).
    split; [by eapply create_in_free|]. split; [by eapply claim_table|].
    split; [by eapply claim_entries|].
    split; [rewrite (proj1 (store_word_meta ix1 (sr_ref f) (sr_i f) w)); apply (gr_mask _ _ Hg)|].
    split; [by rewrite Es|]. split; [by rewrite Es|].
    rewrite (find_tag_none _ _ Hok H0 Hno). split_and!.
    + assert (E' : f = Slot (sr_ref f) (sr_i f)
        (bucket_index (store_word ix1 (sr_ref f) (sr_i f) w) h) (tag_of h))
        by (rewrite bucket_index_store, Ebi; exact Es).
      rewrite (find_tag_hit _ h (sr_ref f) (sr_i f));
        [by rewrite <- E'|by eapply claim_table|by eapply claim_entries|done|].
      rewrite bucket_index_store, Ebi. by apply (claim_hit ix1 (bucket_index ix h)).
    + unfold slot_load. rewrite (claim_load ix1 _ _ f w Hf). by rewrite decide_True.
    + intros h' Hh' Hne.
      destruct (grown_frame ix ix1 h' Hok Hg Hh') as [G1 G2].
      destruct (claim_frame ix1 (bucket_index ix h) (tag_of h) f w h') as [C1 C2]; [try done..|].
      { unfold bucket_index in *. by rewrite (gr_mask _ _ Hg). }
      rewrite <- G1. split; [exact C1|]. intros s' Hs'.
      rewrite C2 by done. apply G2. by rewrite <- G1.
    + intros b. rewrite latch_bits_store by done. apply (gr_latch _ _ Hg).
Qed.

(** An insertion takes at most one bucket of the overflow arena. *)
Lemma find_or_create_tag_room ix h fuel s ix' : table_ok ix -> entries_ok ix -> is_u64 h ->
  overflow_next ix <= Z.of_nat (length (overflow ix)) -> find_or_create_tag (S fuel) ix h = Some (s, ix') ->
  overflow_next ix' <= overflow_next ix + 1 /\ length (overflow ix') = length (overflow ix).
Proof.
  intros Hok He Hh Hroom E. assert (H0 : 0 <= h) by apply Hh.
  destruct (find_tag_or_free_spec ix (bucket_index ix h) (tag_of h) Hok He Hroom
    (2 + chain_fuel ix) (Main (bucket_index ix h)) None (rtc_refl _ _) (main_bucket ix h Hok H0))
    as (r & ix1 & Hrun & Hpost); [unfold chain_fuel; cbn [rank]; lia|done|].
  destruct r as [s'|f].
  - destruct Hpost as (-> & _ & _). cbn [find_or_create_tag] in E. rewrite Hrun in E. cbn [mbind option_bind] in E.
    injection E as _ <-. lia.
  - destruct Hpost as (Hno & Hg & Hf). rewrite (create_in_free fuel ix ix1 h f Hok Hh Hg Hno Hf Hrun) in E.
    pose proof (gr_next _ _ Hg) as Hn.
    destruct (store_word_meta ix1 (sr_ref f) (sr_i f) (entry_make (tag_of h) TEMP_INVALID_ADDRESS false)) as (_ & E1 & _ & E2).
    assert (ix' = store_word ix1 (sr_ref f) (sr_i f) (entry_make (tag_of h) TEMP_INVALID_ADDRESS false)) as -> by congruence.
    by rewrite E1, E2.
Qed.

(** ** The index as a map *)

(** The word of the entry for a hash. *)
Definition entry_word (ix : HashIndex) (h : word) : option word :=
  match find_tag ix h with Some (Some s) => slot_load ix s | _ => None end.
(** [M] is the directory the chains implement: one entry per (bucket, tag). *)
Definition represents (ix : HashIndex) (M : gmap (nat * Z) word) : Prop :=
  forall h, is_u64 h -> entry_word ix h = M !! (bucket_index ix h, tag_of h).

Lemma entry_word_found ix h s : find_tag ix h = Some (Some s) -> entry_word ix h = slot_load ix s.
Proof. unfold entry_word. by intros ->. Qed.

Lemma find_tag_loads ix h s : table_ok ix -> 0 <= h -> find_tag ix h = Some (Some s) ->
  exists w, slot_load ix s = Some w /\ (sr_i s < ENTRIES_PER_BUCKET)%nat /\ sr_bucket s = bucket_index ix h /\
    is_empty w = false /\ is_tentative w = false /\ entry_tag w = tag_of h.
Proof.
  intros Hok Hh Hf. destruct (find_tag_spec ix h Hok Hh) as (r & Hr & Hp). rewrite Hf in Hr.
  injection Hr as <-. destruct Hp as (Es & _ & Hi & w & Hw & Hm). exists w.
  unfold tag_pred, matches_tag in Hm. rewrite !andb_true_iff, !negb_true_iff, Z.eqb_eq in Hm.
  destruct Hm as [[? ?] ?]. split_and!; try done. by rewrite Es.
Qed.

(** What [find_or_create_tag] leaves to everyone else. *)
Lemma find_or_create_tag_entry_word ix h fuel :
  table_ok ix -> entries_ok ix -> is_u64 h -> overflow_next ix <= Z.of_nat (length (overflow ix)) ->
  exists s ix', find_or_create_tag (S fuel) ix h = Some (s, ix') /\ table_ok ix' /\ entries_ok ix' /\
    mask ix' = mask ix /\ sr_bucket s = bucket_index ix h /\ find_tag ix' h = Some (Some s) /\
    entry_word ix' h = Some (default (entry_make (tag_of h) TEMP_INVALID_ADDRESS false) (entry_word ix h)) /\
    (forall h', 0 <= h' -> (bucket_index ix h', tag_of h') <> (bucket_index ix h, tag_of h) ->
       entry_word ix' h' = entry_word ix h') /\
    (forall b, latch_bits ix' b = latch_bits ix b).
Proof.
  intros Hok He Hh Hroom.
  destruct (find_or_create_tag_ok ix h fuel Hok He Hh Hroom)
    as (s & ix' & Hrun & Hok' & He' & Hm & Hb & _ & Hf & Hw & Hoth & Hl).
  exists s, ix'. split_and!; try done.
  - rewrite (entry_word_found _ _ _ Hf), Hw. unfold entry_word.
    destruct (find_tag_spec ix h Hok ltac:(apply Hh)) as ([s0|] & E & _); rewrite E; [|done].
    destruct (find_tag_loads ix h s0 Hok ltac:(apply Hh) E) as (w & -> & _). done.
  - intros h' Hh' Hne. destruct (Hoth h' Hh' Hne) as [E1 E2]. unfold entry_word. rewrite E1.
    destruct (find_tag ix h') as [[s'|]|]; [by apply E2|done|done].
Qed.

(** A tag that is already there needs no room. *)
Lemma find_tag_or_free_hit ix bi tag s fuel : forall b free fuel', (fuel <= fuel')%nat ->
  walk_chain fuel ix b (fun found b ws =>
    match scan_bucket (fun _ w => matches_tag tag w) ws with
    | Some i => (true, Some (Slot b i bi tag))
    | None => (false, found)
    end) None = Some (Some s) ->
  find_tag_or_free fuel' ix b free bi tag = Some (inl s, ix).
Proof.
  induction fuel as [|fuel IH]; intros b free fuel' Hle; cbn [walk_chain]; [done|].
  destruct fuel' as [|fuel']; [lia|]. cbn [find_tag_or_free].
  destruct (get_bucket ix b) as [ws|]; [|done]. cbn [mbind option_bind].
  destruct (scan_bucket (fun _ w => matches_tag tag w) ws) as [i|]; [by intros [= <-]|].
  destruct (ws !! OVERFLOW_ENTRY) as [w|]; [|done]. cbn [mbind option_bind]. cbv zeta.
  destruct (Z.land w ADDRESS_MASK =? 0); [done|]. cbn [negb]. apply IH. lia.
Qed.

Lemma find_or_create_tag_hit ix h fuel s : find_tag ix h = Some (Some s) ->
  find_or_create_tag (S fuel) ix h = Some (s, ix).
Proof.
  intros Hf. cbn [find_or_create_tag]. cbv zeta.
  rewrite (find_tag_or_free_hit ix _ _ s (chain_fuel ix)) by (done || lia). done.
Qed.

(** C18.  [find_or_create_tag] refines insertion into a finite map keyed by
    (bucket, tag): when the overflow arena is not exhausted it returns, in one
    pass, the slot that [find_tag] finds afterwards; the directory the chains
    implement gains a settled entry holding the temporary address if it had
    none for this pair and is otherwise unchanged, the latches are untouched,
    and the chain invariant (well-formed links, at most one entry per chain and
    tag, none tentative) holds again. *)
Theorem find_or_create_tag_refines_insert ix h fuel M :
  table_ok ix -> entries_ok ix -> is_u64 h ->
  overflow_next ix <= Z.of_nat (length (overflow ix)) -> represents ix M ->
  let k := (bucket_index ix h, tag_of h) in
  exists s ix', find_or_create_tag (S fuel) ix h = Some (s, ix') /\
    table_ok ix' /\ entries_ok ix' /\ find_tag ix' h = Some (Some s) /\
    represents ix' (match M !! k with
                    | Some _ => M
                    | None => <[k := entry_make (tag_of h) TEMP_INVALID_ADDRESS false]> M
                    end) /\
    (forall b, latch_bits ix' b = latch_bits ix b).
Proof.
  intros Hok He Hh Hroom HM k.
  destruct (find_or_create_tag_entry_word ix h fuel Hok He Hh Hroom)
    as (s & ix' & Hrun & Hok' & He' & Hm & _ & Hf & Hw & Hoth & Hl).
  exists s, ix'. split_and!; try done. intros h' Hh'.
  assert (Ebi : bucket_index ix' h' = bucket_index ix h') by (unfold bucket_index; by rewrite Hm).
  rewrite Ebi. destruct (decide ((bucket_index ix h', tag_of h') = k)) as [Ek|Hne].
  - assert (Eh : entry_word ix' h' = entry_word ix' h).
    { unfold entry_word, find_tag. injection Ek as E1 E2. rewrite Ebi, E1, E2.
      unfold bucket_index. by rewrite Hm. }
    rewrite Ek, Eh, Hw, (HM h Hh). fold k. destruct (M !! k) eqn:E; [done|]. simpl. by rewrite lookup_insert_eq.
  - rewrite Hoth by (apply Hh' || done). rewrite (HM h' Hh'). destruct (M !! k); [done|].
    by rewrite lookup_insert_ne by done.
Qed.

(** ** The empty index, and publishing through a slot *)

Lemma next_power_of_two_spec n : 2 <= n <= 2 ^ 40 ->
  exists k, 0 < k <= 40 /\ next_power_of_two n = 2 ^ k /\ n <= next_power_of_two n.
Proof.
  intros Hn. unfold next_power_of_two. destruct (Z.leb_spec n 1); [lia|].
  exists (Z.log2_up n). pose proof (Z.log2_up_spec n ltac:(lia)).
  assert (0 < Z.log2_up n) by (apply Z.log2_up_pos; lia).
  assert (Z.log2_up n <= 40) by (apply Z.log2_up_le_pow2; lia). split_and!; lia.
Qed.

Lemma lookup_replicate_bucket n i ws :
  (replicate n bucket_new : list (list Z)) !! i = Some ws -> ws = bucket_new.
Proof. by intros [? _]%lookup_replicate. Qed.

Lemma index_new_bucket size b ws : get_bucket (index_new size) b = Some ws -> ws = bucket_new.
Proof.
  destruct b as [bi|a]; simpl; unfold overflow_bucket; simpl.
  - apply lookup_replicate_bucket.
  - destruct (a <=? 0); [done|]. apply lookup_replicate_bucket.
Qed.

Lemma index_new_word size b i w : load_word (index_new size) b i = Some w -> w = 0.
Proof.
  unfold load_word. destruct (get_bucket _ b) as [ws|] eqn:E; [simpl|done].
  rewrite (index_new_bucket _ _ _ E). unfold bucket_new. by intros [? _]%lookup_replicate.
Qed.

Lemma index_new_ok size : size <= 2 ^ 40 ->
  table_ok (index_new size) /\ entries_ok (index_new size) /\
  overflow_next (index_new size) <= Z.of_nat (length (overflow (index_new size))).
Proof.
  intros Hs. destruct (next_power_of_two_spec (Z.max size 2)) as (k & Hk & E & Hle); [lia|].
  assert (Hb : 2 <= 2 ^ k <= 2 ^ 40).
  { split; [rewrite <- E; lia|]. apply Z.pow_le_mono_r; lia. }
  assert (Hptr : forall b n, overflow_ptr (index_new size) b = Some n -> n = 0).
  { intros b n. unfold overflow_ptr. destruct (load_word _ b _) as [w|] eqn:Ew; [simpl|done].
    rewrite (index_new_word _ _ _ _ Ew). by intros [= <-]. }
  assert (Ho : Z.of_nat (length (overflow (index_new size))) = Z.max (2 ^ k * 2) 1024).
  { unfold index_new. simpl. rewrite E, length_replicate. lia. }
  split; [split|split].
  - exists k. unfold index_new. simpl. rewrite E, length_replicate.
    split_and!; [lia|lia| |lia]. rewrite Z.ones_equiv. lia.
  - intros b ws ->%index_new_bucket. done.
  - rewrite Ho. simpl. lia.
  - rewrite Ho. lia.
  - intros b n ->%Hptr. by left.
  - intros b b' n ->%Hptr _ ?. done.
  - intros a Ha. rewrite Ho in Ha. simpl in Ha.
    destruct (get_bucket_over_is_Some (index_new size) a) as [ws Hws]; [lia|].
    rewrite Hws. f_equal. by eapply index_new_bucket.
  - intros b w ->%index_new_word. done.
  - split.
    + intros b i w _ ->%index_new_word. done.
    + intros bi b b' i i' w w' _ _ _ _ ->%index_new_word. done.
  - rewrite Ho. simpl. lia.
Qed.

Lemma witness_hash : is_u64 (hash64 (bs "k")).
Proof. apply hash64_u64. Qed.

Lemma index_new_represents size : size <= 2 ^ 40 -> represents (index_new size) ∅.
Proof.
  intros Hs h Hh. rewrite lookup_empty. unfold entry_word.
  destruct (find_tag_spec (index_new size) h (proj1 (index_new_ok size Hs)) ltac:(apply Hh)) as ([s|] & -> & Hp);
    [|done]. destruct Hp as (_ & _ & _ & w & Hw & Hm). apply index_new_word in Hw as ->. done.
Qed.

Lemma find_or_create_tag_witness :
  exists s ix', find_or_create_tag 1 (index_new 16) (hash64 (bs "k")) = Some (s, ix') /\
    find_tag ix' (hash64 (bs "k")) = Some (Some s) /\
    entry_word ix' (hash64 (bs "k")) = Some (entry_make (tag_of (hash64 (bs "k"))) TEMP_INVALID_ADDRESS false).
Proof.
  destruct (index_new_ok 16 ltac:(lia)) as (Ht & He & Hr).
  destruct (find_or_create_tag_refines_insert (index_new 16) (hash64 (bs "k")) 0 ∅ Ht He
    witness_hash Hr (index_new_represents 16 ltac:(lia))) as (s & ix' & H1 & _ & _ & H2 & H3 & _).
  exists s, ix'. split; [exact H1|]. split; [exact H2|]. rewrite (H3 _ witness_hash).
  vm_compute in H1. injection H1 as _ <-. vm_compute. reflexivity.
Defined.

(** Changing the latch half of a bucket's last word changes no chain and no
    entry. *)
Section SetLatch.
Context (ix : HashIndex) (bi : nat) (w w' : word).
Context (Hok : table_ok ix) (He : entries_ok ix).
Context (Hw : load_word ix (Main bi) OVERFLOW_ENTRY = Some w).
Context (Hptr : Z.land w' ADDRESS_MASK = Z.land w ADDRESS_MASK) (Hu : is_u64 w').

Let ix' := store_word ix (Main bi) OVERFLOW_ENTRY w'.

Lemma set_latch_load b i : (i < ENTRIES_PER_BUCKET)%nat -> load_word ix' b i = load_word ix b i.
Proof. intros Hi. apply load_store_ne. unfold ENTRIES_PER_BUCKET, OVERFLOW_ENTRY in *. lia. Qed.

Lemma set_latch_ptr b : overflow_ptr ix' b = overflow_ptr ix b.
Proof.
  unfold overflow_ptr. destruct (decide (b = Main bi)) as [->|Hne].
  - unfold ix'. rewrite (load_store_eq _ _ _ _ _ Hw), Hw. simpl. by rewrite Hptr.
  - unfold ix'. rewrite load_store_ne; [done|]. intros [E _]. by apply Hne.
Qed.

Lemma set_latch_reach x y : reach ix' x y <-> reach ix x y.
Proof.
  assert (Hl : forall x y, linked ix' x y <-> linked ix x y)
    by (intros; unfold linked; by setoid_rewrite set_latch_ptr).
  split; apply rtc_subrel; intros ? ?; by apply Hl.
Qed.

Lemma set_latch_table : table_ok ix'.
Proof.
  destruct (store_word_meta ix (Main bi) OVERFLOW_ENTRY w') as (E1 & E2 & E3 & E4).
  unfold ix'. destruct Hok as [Hm Hl Hn Ha Hk Hj Hf Hwd]. split; rewrite ?E1, ?E2, ?E3, ?E4; try done.
  - intros b' ws. rewrite get_bucket_store. case_decide; [|apply Hl].
    intros (ws' & Hws & ->)%fmap_Some. rewrite length_insert. by eapply Hl.
  - intros b' n. rewrite set_latch_ptr. apply Hk.
  - intros b' b'' n. rewrite !set_latch_ptr. apply Hj.
  - intros b' w0. destruct (decide (b' = Main bi)) as [->|Hne].
    + rewrite (load_store_eq _ _ _ _ _ Hw). by intros [= <-].
    + rewrite load_store_ne; [apply Hwd|]. intros [E _]. by apply Hne.
Qed.

Lemma set_latch_entries : entries_ok ix'.
Proof.
  split.
  - intros b i w0 Hi. rewrite set_latch_load by done. by apply (ok_settled _ He).
  - intros x b b' i i' v v' R1 R2 I1 I2. rewrite !set_latch_load by done.
    apply set_latch_reach in R1, R2. by apply (ok_unique _ He x).
Qed.

Lemma set_latch_find h : 0 <= h -> find_tag ix' h = find_tag ix h.
Proof.
  intros Hh. assert (Ebi : bucket_index ix' h = bucket_index ix h) by apply bucket_index_store.
  destruct (find_tag_spec ix h Hok Hh) as ([s|] & -> & Hp).
  - destruct Hp as (Es & R & I & v & L & M). rewrite Es, <- Ebi.
    apply find_tag_hit; [apply set_latch_table|apply set_latch_entries|done|].
    rewrite Ebi. split_and!; [by apply set_latch_reach|done|]. exists v. by rewrite set_latch_load.
  - apply find_tag_none; [apply set_latch_table|done|]. rewrite Ebi. intros b i v R I L.
    apply set_latch_reach in R. rewrite set_latch_load in L by done. by apply (Hp b i v).
Qed.

Lemma set_latch_entry_word h : 0 <= h -> entry_word ix' h = entry_word ix h.
Proof.
  intros Hh. unfold entry_word. rewrite set_latch_find by done.
  destruct (find_tag ix h) as [[s|]|] eqn:E; try done.
  destruct (find_tag_loads ix h s Hok Hh E) as (? & _ & Hi & _). unfold slot_load. by rewrite set_latch_load.
Qed.
End SetLatch.

(** Replacing the word of an entry by one with the same tag changes no lookup. *)
Lemma slot_try_cas_spec ix h s w a : table_ok ix -> entries_ok ix -> is_u64 h ->
  find_tag ix h = Some (Some s) -> slot_load ix s = Some w -> 0 < a < 2 ^ 48 ->
  exists ix', slot_try_cas ix s w a = Some (true, ix') /\ table_ok ix' /\ entries_ok ix' /\
    mask ix' = mask ix /\ overflow_next ix' = overflow_next ix /\
    length (overflow ix') = length (overflow ix) /\
    slot_load ix' s = Some (entry_make (tag_of h) a false) /\
    (forall h', 0 <= h' -> find_tag ix' h' = find_tag ix h') /\
    (forall h' s', 0 <= h' -> find_tag ix h' = Some (Some s') ->
       (bucket_index ix h', tag_of h') <> (bucket_index ix h, tag_of h) ->
       slot_load ix' s' = slot_load ix s') /\
    (forall b, load_word ix' b OVERFLOW_ENTRY = load_word ix b OVERFLOW_ENTRY).
Proof.
  intros Hok He Hh Hfind Hload Ha. assert (H0 : 0 <= h) by apply Hh.
  destruct (find_tag_spec ix h Hok H0) as (r & Hr & Hs). rewrite Hfind in Hr.
  injection Hr as <-. destruct Hs as (Es & R & I & w0 & L & M).
  assert (Ew : w0 = w) by (unfold slot_load in Hload; congruence). subst w0.
  unfold tag_pred, matches_tag in M. rewrite !andb_true_iff, !negb_true_iff, Z.eqb_eq in M.
  destruct M as [[Mne Mt] Mten].
  set (w' := entry_make (tag_of h) a false).
  assert (Wt : is_tentative w' = false) by apply is_tentative_make.
  assert (We : is_empty w' = false) by (by apply entry_make_nonempty).
  assert (Wg : entry_tag w' = tag_of h) by (apply entry_tag_make, tag_of_range, Hh).
  set (ix' := store_word ix (sr_ref s) (sr_i s) w').
  assert (Hload' : forall b i, load_word ix' b i =
    if decide (b = sr_ref s /\ i = sr_i s) then Some w' else load_word ix b i).
  { intros b i. case_decide as E; [destruct E as [-> ->]; by eapply load_store_eq|].
    apply load_store_ne. intros [<- <-]. by apply E. }
  assert (Hreach : forall x y, reach ix' x y <-> reach ix x y)
    by (intros; by apply reach_store_entry).
  assert (Htab : table_ok ix').
  { apply table_ok_store_entry; [done..|].
    pose proof (rank_reached _ _ _ Hok R). by destruct (sr_ref s). }
  (* every position holds a word with the same emptiness and tag as before *)
  assert (Hsame : forall b i w1, load_word ix' b i = Some w1 -> exists w0,
    load_word ix b i = Some w0 /\ is_empty w1 = is_empty w0 /\ entry_tag w1 = entry_tag w0 /\
    is_tentative w1 = is_tentative w0).
  { intros b i w1. rewrite Hload'. case_decide as E; [|by exists w1].
    destruct E as [-> ->]. intros [= <-]. exists w. rewrite Wt, We, Wg, Mne, Mt, Mten. done. }
  assert (Hent : entries_ok ix').
  { split.
    - intros b i w1 Hi (w0 & L0 & _ & _ & ->)%Hsame. by eapply (ok_settled _ He).
    - intros bi b1 b2 i1 i2 w1 w2 R1 R2 I1 I2 (v1 & L1 & -> & -> & _)%Hsame
        (v2 & L2 & -> & -> & _)%Hsame. apply Hreach in R1, R2. by eapply (ok_unique _ He). }
  exists ix'. unfold slot_try_cas. rewrite Hload. cbn [mbind option_bind]. rewrite Z.eqb_refl.
  assert (Etag : sr_tag s = tag_of h) by (by rewrite Es). rewrite Etag. fold w' ix'.
  destruct (store_word_meta ix (sr_ref s) (sr_i s) w') as (M1 & M2 & _ & M4).
  split_and!; try done.
  - unfold slot_load. by rewrite Hload', decide_True.
  - intros h' Hh'. destruct (find_tag_spec ix h' Hok Hh') as (r & -> & Hp).
    assert (Ebi : bucket_index ix' h' = bucket_index ix h') by apply bucket_index_store.
    destruct r as [s'|].
    + destruct Hp as (Es' & R' & I' & v & L' & M'). rewrite Es', <- Ebi.
      apply find_tag_hit; [done..|]. rewrite Ebi. split_and!; [by apply Hreach|done|].
      rewrite Hload'. case_decide as E; [|by exists v]. exists w'. split; [done|].
      destruct E as [E1 E2]. rewrite E1, E2, L in L'. injection L' as <-.
      unfold tag_pred, matches_tag in *. rewrite Wt, We, Wg. rewrite Mne, Mt, Mten in M'. done.
    + apply find_tag_none; [done..|]. rewrite Ebi. intros b i w1 Rb Hi (w0 & L0 & E1 & E2 & E3)%Hsame.
      apply Hreach in Rb. unfold tag_pred, matches_tag. rewrite E1, E2, E3.
      apply (Hp b i w0 Rb Hi L0).
  - intros h' s' Hh' Hs' Hne. destruct (find_tag_spec ix h' Hok Hh') as (r & Hr & Hp).
    rewrite Hs' in Hr. injection Hr as <-. destruct Hp as (Es' & R' & I' & v & L' & M').
    unfold slot_load. rewrite Hload'. case_decide as E; [exfalso|done]. destruct E as [E1 E2].
    rewrite E1, E2 in L'. rewrite E1 in R'. rewrite L in L'. injection L' as <-.
    unfold tag_pred, matches_tag in M'. rewrite !andb_true_iff, Z.eqb_eq in M'.
    apply Hne. by rewrite (reach_main_disjoint _ _ _ _ Hok R' R), <- Mt, (proj2 (proj1 M')).
  - intros b. apply load_store_ne. unfold ENTRIES_PER_BUCKET, OVERFLOW_ENTRY in *. lia.
Qed.

(** Clearing a new index. *)
Lemma clear_new size : clear (index_new size) = index_new size.
Proof.
  unfold clear, index_new. cbn [buckets mask overflow overflow_next].
  assert (E : forall n, map (fun ws => replicate (length ws) 0) (replicate n bucket_new) = replicate n bucket_new)
    by (intros n; induction n as [|n IH]; [done|]; simpl; by rewrite IH).
  by rewrite !E.
Qed.
