(* ===== verification/Latch.v ===== *)
(** * Bucket latches ([crates/tsavorite/src/index.rs], entry 7)

    The reader/writer latch in the high 16 bits of a bucket's last word: its
    operations on an index with no interference, and the protocol as a step
    relation over the atomic actions of concurrent threads. *)

From S2P Require Import Prelude Record Hash Index.

Definition SHARED_ONE : word := 2 ^ 48.
Definition SHARED_MASK : word := Z.shiftl (Z.ones 15) 48.
Definition EXCLUSIVE_BIT : word := 2 ^ 63.
Definition MAX_LOCK_SPINS : nat := 10.
Definition MAX_READER_DRAIN_SPINS : nat := 100.

Definition has_exclusive (w : word) : bool := negb (Z.land w EXCLUSIVE_BIT =? 0).
Definition shared_full (w : word) : bool := Z.land w SHARED_MASK =? SHARED_MASK.
Definition no_readers (w : word) : bool := Z.land w SHARED_MASK =? 0.

(** ** The operations without interference

    Every failed spin re-reads the same word. *)

Fixpoint lock_shared_spin (spins : nat) (w : word) : bool * word :=
  match spins with
  | O => (false, w)
  | S spins =>
      if has_exclusive w || shared_full w then lock_shared_spin spins w
      else (true, w + SHARED_ONE)
  end.
Fixpoint acquire_exclusive_spin (spins : nat) (w : word) : bool * word :=
  match spins with
  | O => (false, w)
  | S spins =>
      if has_exclusive w then acquire_exclusive_spin spins w
      else (true, Z.lor w EXCLUSIVE_BIT)
  end.
Fixpoint drain_readers_spin (spins : nat) (w : word) : bool :=
  match spins with
  | O => false
  | S spins => if no_readers w then true else drain_readers_spin spins w
  end.

Definition latch_word (ix : HashIndex) (bucket : nat) : option word :=
  load_word ix (Main bucket) OVERFLOW_ENTRY.
Definition set_latch_word (ix : HashIndex) (bucket : nat) (w : word) : HashIndex :=
  store_word ix (Main bucket) OVERFLOW_ENTRY w.

Definition try_lock_shared (ix : HashIndex) (bucket : nat) : option (bool * HashIndex) :=
  w ← latch_word ix bucket;
  let '(ok, w) := lock_shared_spin MAX_LOCK_SPINS w in
  Some (ok, set_latch_word ix bucket w).
(** [fetch_sub] wraps. *)
Definition unlock_shared (ix : HashIndex) (bucket : nat) : option HashIndex :=
  w ← latch_word ix bucket; Some (set_latch_word ix bucket (wrap64 (w - SHARED_ONE))).
Definition try_lock_exclusive (ix : HashIndex) (bucket : nat) : option (bool * HashIndex) :=
  w ← latch_word ix bucket;
  let '(acquired, w) := acquire_exclusive_spin MAX_LOCK_SPINS w in
  if acquired : bool then
    if drain_readers_spin MAX_READER_DRAIN_SPINS w then Some (true, set_latch_word ix bucket w)
    else Some (false, set_latch_word ix bucket (Z.land w (not64 EXCLUSIVE_BIT)))
  else Some (false, set_latch_word ix bucket w).
Definition unlock_exclusive (ix : HashIndex) (bucket : nat) : option HashIndex :=
  w ← latch_word ix bucket; Some (set_latch_word ix bucket (Z.land w (not64 EXCLUSIVE_BIT))).
Definition is_locked_exclusive (ix : HashIndex) (bucket : nat) : option bool :=
  w ← latch_word ix bucket; Some (has_exclusive w).

(** ** The word as three fields *)

Definition latch_make (ptr readers : Z) (writer : bool) : word :=
  ptr + 2 ^ 48 * (readers + 2 ^ 15 * Z.b2z writer).
Definition latch_fields_ok (ptr readers : Z) : Prop := 0 <= ptr < 2 ^ 48 /\ 0 <= readers < 2 ^ 15.

Lemma testbit_latch p c x n : latch_fields_ok p c -> 0 <= n ->
  Z.testbit (latch_make p c x) n =
  (if n <? 48 then Z.testbit p n else if n <? 63 then Z.testbit c (n - 48) else (n =? 63) && x).
Proof.
  intros [Hp Hc] Hn. unfold latch_make. rewrite testbit_split by lia.
  destruct (Z.ltb_spec n 48); [done|]. rewrite testbit_split by lia.
  destruct (Z.ltb_spec (n - 48) 15), (Z.ltb_spec n 63); try lia; [done|].
  destruct (Z.eqb_spec n 63) as [->|]; [by destruct x|].
  apply testbit_high with 1; [|lia]. destruct x; simpl; lia.
Qed.

Lemma latch_ptr p c x : latch_fields_ok p c -> Z.land (latch_make p c x) ADDRESS_MASK = p.
Proof.
  intros H. unfold ADDRESS_MASK. apply word_eq. intros n Hn.
  rewrite Z.land_spec, testbit_latch, testbit_ones by (done || lia).
  destruct (Z.ltb_spec n 48), (Z.leb_spec 0 n); try lia; simpl; [apply andb_true_r|].
  rewrite (testbit_high p 48); [apply andb_false_r|apply H|done].
Qed.

Lemma latch_has_exclusive p c x : latch_fields_ok p c -> has_exclusive (latch_make p c x) = x.
Proof.
  intros H. unfold has_exclusive, EXCLUSIVE_BIT. rewrite land_pow2_test by lia.
  by rewrite testbit_latch.
Qed.

Lemma latch_shared p c x : latch_fields_ok p c ->
  Z.land (latch_make p c x) SHARED_MASK = 2 ^ 48 * c.
Proof.
  intros H. assert (Hc := proj2 H). apply word_eq. intros n Hn.
  change SHARED_MASK with TAG_MASK.
  rewrite Z.land_spec, testbit_latch, testbit_tag_mask by done.
  replace (2 ^ 48 * c) with (0 + 2 ^ 48 * c) by lia. rewrite testbit_split by lia.
  destruct (Z.ltb_spec n 48); [rewrite Z.bits_0; destruct (Z.leb_spec 48 n); [lia|]; apply andb_false_r|].
  destruct (Z.ltb_spec n 63), (Z.leb_spec 48 n); try lia; simpl; [apply andb_true_r|].
  rewrite (testbit_high c 15) by lia. apply andb_false_r.
Qed.

Lemma latch_no_readers p c x : latch_fields_ok p c -> no_readers (latch_make p c x) = (c =? 0).
Proof. intros H. unfold no_readers. rewrite latch_shared by done. lia. Qed.

Lemma latch_full p c x : latch_fields_ok p c -> shared_full (latch_make p c x) = (c =? 2 ^ 15 - 1).
Proof.
  intros H. unfold shared_full. rewrite latch_shared by done.
  change SHARED_MASK with (2 ^ 48 * (2 ^ 15 - 1)). lia.
Qed.

Lemma latch_set_exclusive p c : latch_fields_ok p c ->
  Z.lor (latch_make p c false) EXCLUSIVE_BIT = latch_make p c true.
Proof.
  intros H. unfold EXCLUSIVE_BIT. apply word_eq. intros n Hn.
  rewrite Z.lor_spec, !testbit_latch, testbit_pow2 by (done || lia).
  destruct (Z.ltb_spec n 48), (Z.ltb_spec n 63), (Z.eqb_spec n 63), (Z.eqb_spec 63 n); try lia;
    simpl; by rewrite ?orb_false_r.
Qed.

Lemma latch_clear_exclusive p c x : latch_fields_ok p c ->
  Z.land (latch_make p c x) (not64 EXCLUSIVE_BIT) = latch_make p c false.
Proof.
  intros H. unfold EXCLUSIVE_BIT. apply word_eq. intros n Hn.
  rewrite Z.land_spec, testbit_not64, testbit_pow2, !testbit_latch by (done || lia).
  destruct (Z.ltb_spec n 48), (Z.ltb_spec n 63), (Z.eqb_spec n 63), (Z.eqb_spec 63 n),
    (Z.ltb_spec n 64); try lia; simpl; by rewrite ?andb_true_r, ?andb_false_r.
Qed.

Lemma latch_add_reader p c x : latch_make p c x + SHARED_ONE = latch_make p (c + 1) x.
Proof. unfold latch_make, SHARED_ONE. lia. Qed.

Lemma latch_sub_reader p c x : latch_fields_ok p c -> 0 < c ->
  wrap64 (latch_make p c x - SHARED_ONE) = latch_make p (c - 1) x.
Proof.
  intros [Hp Hc] H0. rewrite wrap64_id.
  - unfold latch_make, SHARED_ONE. lia.
  - unfold is_u64, two64, latch_make, SHARED_ONE. destruct x; simpl; lia.
Qed.

Lemma latch_link c x n : latch_fields_ok n c ->
  Z.lor (Z.land (latch_make 0 c x) (not64 ADDRESS_MASK)) n = latch_make n c x.
Proof.
  intros H. assert (Hn0 := proj1 H). assert (H0 : latch_fields_ok 0 c) by (destruct H; split; lia).
  apply word_eq. intros k Hk. unfold ADDRESS_MASK.
  rewrite Z.lor_spec, Z.land_spec, testbit_not64, testbit_ones, !testbit_latch by (done || lia).
  destruct (Z.ltb_spec k 48).
  - rewrite Z.bits_0. done.
  - rewrite (testbit_high n 48) by lia.
    destruct (Z.leb_spec 0 k), (Z.ltb_spec k 63), (Z.eqb_spec k 63), (Z.ltb_spec k 64);
      try lia; simpl; by rewrite ?orb_false_r, ?andb_true_r.
Qed.

(** ** The protocol: concurrent threads on one latch word *)

Inductive latch_pc :=
  | Idle
  | Reading
  | Draining (spins : nat)   (** exclusive bit set, readers not yet drained *)
  | Writing.
Global Instance latch_pc_eq_dec : EqDecision latch_pc.
Proof. solve_decision. Defined.

Definition is_reader (pc : latch_pc) : bool := match pc with Reading => true | _ => false end.
Definition is_writer (pc : latch_pc) : bool :=
  match pc with Draining _ | Writing => true | _ => false end.
Definition count (f : latch_pc -> bool) (pcs : list latch_pc) : Z :=
  Z.of_nat (length (filter (fun pc => f pc = true) pcs)).

(** One atomic action of thread [t]: the CAS, fetch or load of the code that
    takes effect there.  Failed CASes and unsuccessful spins change nothing
    but the spin counter.  [latch_link_step] is the CAS of [find_tag_or_free]
    on the same word. *)
Inductive latch_step : word * list latch_pc -> word * list latch_pc -> Prop :=
  | shared_step w pcs t : pcs !! t = Some Idle ->
      has_exclusive w || shared_full w = false ->
      latch_step (w, pcs) (w + SHARED_ONE, <[t := Reading]> pcs)
  | unshare_step w pcs t : pcs !! t = Some Reading ->
      latch_step (w, pcs) (wrap64 (w - SHARED_ONE), <[t := Idle]> pcs)
  | acquire_step w pcs t : pcs !! t = Some Idle -> has_exclusive w = false ->
      latch_step (w, pcs)
        (Z.lor w EXCLUSIVE_BIT, <[t := Draining MAX_READER_DRAIN_SPINS]> pcs)
  | drained_step w pcs t n : pcs !! t = Some (Draining (S n)) -> no_readers w = true ->
      latch_step (w, pcs) (w, <[t := Writing]> pcs)
  | spin_step w pcs t n : pcs !! t = Some (Draining (S n)) -> no_readers w = false ->
      latch_step (w, pcs) (w, <[t := Draining n]> pcs)
  | timeout_step w pcs t : pcs !! t = Some (Draining 0) ->
      latch_step (w, pcs) (Z.land w (not64 EXCLUSIVE_BIT), <[t := Idle]> pcs)
  | release_step w pcs t : pcs !! t = Some Writing ->
      latch_step (w, pcs) (Z.land w (not64 EXCLUSIVE_BIT), <[t := Idle]> pcs)
  | latch_link_step w pcs n : Z.land w ADDRESS_MASK = 0 -> 0 < n < 2 ^ 48 ->
      latch_step (w, pcs) (Z.lor (Z.land w (not64 ADDRESS_MASK)) n, pcs).

Definition latch_inv (s : word * list latch_pc) : Prop :=
  exists p x, fst s = latch_make p (count is_reader (snd s)) x /\
    latch_fields_ok p (count is_reader (snd s)) /\
    count is_writer (snd s) = Z.b2z x /\
    (forall t, snd s !! t = Some Writing -> count is_reader (snd s) = 0).

Lemma count_insert f pcs t old new : pcs !! t = Some old ->
  count f (<[t := new]> pcs) = count f pcs - Z.b2z (f old) + Z.b2z (f new).
Proof.
  intros Ht. unfold count. rewrite <- (take_drop_middle _ _ _ Ht) at 2.
  rewrite insert_take_drop by (by eapply lookup_lt_Some).
  rewrite !filter_app, !filter_cons, !length_app.
  destruct (f old) eqn:Eo, (f new) eqn:En; repeat case_decide; simpl in *; try congruence; lia.
Qed.

Lemma count_nonneg f pcs : 0 <= count f pcs.
Proof. unfold count. lia. Qed.

Lemma count_pos f pcs t pc : pcs !! t = Some pc -> f pc = true -> 0 < count f pcs.
Proof.
  intros Ht Hf. pose proof (count_insert f pcs t pc Idle Ht).
  pose proof (count_nonneg f (<[t := Idle]> pcs)). rewrite Hf in *.
  destruct (f Idle) eqn:E; simpl in *; [|lia].
  unfold count in *. assert (pc ∈ filter (fun pc => f pc = true) pcs).
  { apply list_elem_of_filter. split; [done|]. by eapply list_elem_of_lookup_2. }
  destruct (filter _ pcs); [by apply not_elem_of_nil in H1|simpl; lia].
Qed.

(** Two distinct threads satisfying [f] are counted twice. *)
Lemma count_two f pcs t t' pc pc' : t <> t' -> pcs !! t = Some pc -> pcs !! t' = Some pc' ->
  f pc = true -> f pc' = true -> f Idle = false -> 2 <= count f pcs.
Proof.
  intros Hne Ht Ht' Hf Hf' Hi. pose proof (count_insert f pcs t pc Idle Ht) as E.
  assert (H : (<[t := Idle]> pcs) !! t' = Some pc') by (by rewrite list_lookup_insert_ne).
  pose proof (count_pos f _ _ _ H Hf'). rewrite Hf, Hi in E. simpl in E. lia.
Qed.

Lemma writing_draining_excl (pcs : list latch_pc) t t' : count is_writer pcs <= 1 ->
  pcs !! t = Some Writing -> pcs !! t' = Some Writing -> t = t'.
Proof.
  intros Hc Ht Ht'. destruct (decide (t = t')); [done|].
  pose proof (count_two is_writer pcs t t' _ _ ltac:(done) Ht Ht' eq_refl eq_refl eq_refl). lia.
Qed.

(** A thread moves from [old] to [new]: nobody else changes, so a writer seen
    afterwards is the mover or was there before. *)
Lemma writer_after (pcs : list latch_pc) t new t' : <[t := new]> pcs !! t' = Some Writing ->
  new = Writing \/ pcs !! t' = Some Writing.
Proof.
  intros H. destruct (decide (t = t')) as [<-|].
  - destruct (decide (t < length pcs)%nat).
    + rewrite list_lookup_insert_eq in H by done. left. congruence.
    + rewrite list_insert_ge in H by lia. by right.
  - rewrite list_lookup_insert_ne in H by done. by right.
Qed.

Lemma no_writer_count (pcs : list latch_pc) t : count is_writer pcs = 0 -> pcs !! t = Some Writing -> False.
Proof. intros H Ht. pose proof (count_pos is_writer _ _ _ Ht eq_refl). lia. Qed.

Ltac recount Ht :=
  rewrite ?(count_insert is_reader _ _ _ _ Ht), ?(count_insert is_writer _ _ _ _ Ht); simpl.

Ltac latch_parts :=
  split; [f_equal; lia|split; [split; lia|split; [simpl in *; lia|]]].

Lemma latch_step_inv s s' : latch_step s s' -> latch_inv s -> latch_inv s'.
Proof.
  intros Hs (p & x & Ew & Hf & Hwr & Hex).
  destruct Hs as [w pcs t Ht Hg|w pcs t Ht|w pcs t Ht Hg|w pcs t n Ht Hg|w pcs t n Ht Hg
    |w pcs t Ht|w pcs t Ht|w pcs n Hz Hn]; simpl in *; subst w; pose proof (count_nonneg is_reader pcs).
  - rewrite latch_has_exclusive, latch_full in Hg by done.
    apply orb_false_iff in Hg as [-> Hc]. destruct Hf as [Hp Hc'].
    exists p, false. simpl. recount Ht. rewrite latch_add_reader. latch_parts.
    intros t' [H'|H']%writer_after; [done|]. destruct (no_writer_count _ _ Hwr H').
  - pose proof (count_pos is_reader _ _ _ Ht eq_refl). destruct Hf as [Hp Hc'].
    exists p, x. simpl. recount Ht. rewrite latch_sub_reader by done.
    latch_parts.
    intros t' [H'|H']%writer_after; [done|]. specialize (Hex _ H'). lia.
  - rewrite latch_has_exclusive in Hg by done. subst x.
    exists p, true. simpl. recount Ht. rewrite latch_set_exclusive by done.
    destruct Hf. latch_parts.
    intros t' [H'|H']%writer_after; [done|]. destruct (no_writer_count _ _ Hwr H').
  - rewrite latch_no_readers in Hg by done. exists p, x. simpl. recount Ht.
    destruct Hf. latch_parts. intros _ _. lia.
  - exists p, x. simpl. recount Ht. destruct Hf. latch_parts.
    intros t' [H'|H']%writer_after; [done|]. rewrite (Hex _ H'). lia.
  - pose proof (count_pos is_writer _ _ _ Ht eq_refl). exists p, false. simpl. recount Ht.
    rewrite latch_clear_exclusive by done.
    destruct Hf, x; [|simpl in *; lia]. latch_parts.
    intros t' [H'|H']%writer_after; [done|]. rewrite (Hex _ H'). lia.
  - pose proof (count_pos is_writer _ _ _ Ht eq_refl). exists p, false. simpl. recount Ht.
    rewrite latch_clear_exclusive by done.
    destruct Hf, x; [|simpl in *; lia]. latch_parts.
    intros t' [H'|H']%writer_after; [done|]. rewrite (Hex _ H'). lia.
  - rewrite latch_ptr in Hz by done. subst p. exists n, x. simpl.
    assert (latch_fields_ok n (count is_reader pcs)) by (destruct Hf; split; lia).
    rewrite latch_link by done. done.
Qed.

Lemma count_all_idle f k : f Idle = false -> count f (replicate k Idle) = 0.
Proof.
  intros H. unfold count. induction k; [done|]. simpl.
  rewrite filter_cons. case_decide; [congruence|done].
Qed.

Definition latch_start (p : word) (threads : nat) : word * list latch_pc :=
  (p, replicate threads Idle).

Lemma latch_start_inv p k : 0 <= p < 2 ^ 48 -> latch_inv (latch_start p k).
Proof.
  intros. exists p, false. simpl. rewrite !count_all_idle by done. unfold latch_make, latch_fields_ok.
  repeat split; simpl; try lia. 
Qed.

Lemma latch_reachable_inv p k s : 0 <= p < 2 ^ 48 -> rtc latch_step (latch_start p k) s -> latch_inv s.
Proof.
  intros Hp Hr. pose proof (latch_start_inv p k Hp). induction Hr; eauto using latch_step_inv.
Qed.

(** C22. Whatever the threads do with a bucket's latch word, including linking
    an overflow bucket through it, at most one thread holds the latch
    exclusively; while one does, no thread holds it shared; and the word always
    reads back as the number of shared holders with the overflow pointer that
    was linked. *)
Theorem latch_mutual_exclusion p k w pcs t :
  0 <= p < 2 ^ 48 -> rtc latch_step (latch_start p k) (w, pcs) -> pcs !! t = Some Writing ->
  (forall t', t' <> t -> pcs !! t' <> Some Reading /\ pcs !! t' <> Some Writing) /\
  has_exclusive w = true /\ no_readers w = true.
Proof.
  intros Hp Hr Ht. destruct (latch_reachable_inv _ _ _ Hp Hr) as (p' & x & Ew & Hf & Hwr & Hex).
  simpl in *. specialize (Hex _ Ht). rewrite Ew, latch_has_exclusive, latch_no_readers by done.
  pose proof (count_pos is_writer _ _ _ Ht eq_refl). split_and!.
  - intros t' Hne. split; intros Ht'.
    + pose proof (count_pos is_reader _ _ _ Ht' eq_refl). lia.
    + apply Hne. eapply writing_draining_excl; [|done..]. destruct x; simpl in *; lia.
  - destruct x; simpl in *; [done|lia].
  - lia.
Qed.

(** Two readers come and go around a writer. *)
Lemma latch_mutual_exclusion_witness :
  rtc latch_step (latch_start 5 2) (latch_make 5 0 true, [Writing; Idle]) /\
  has_exclusive (latch_make 5 0 true) = true.
Proof.
  assert (H : rtc latch_step (latch_start 5 2) (latch_make 5 0 true, [Writing; Idle])).
  { eapply rtc_l; [apply (shared_step _ _ 1); done|]. simpl.
    eapply rtc_l; [apply (acquire_step _ _ 0); done|]. simpl.
    eapply rtc_l; [apply (spin_step _ _ 0 99); done|]. simpl.
    eapply rtc_l; [apply (unshare_step _ _ 1); done|]. simpl.
    eapply rtc_l; [apply (drained_step _ _ 0 98); done|]. simpl. apply rtc_refl. }
  split; [done|]. by apply (latch_mutual_exclusion 5 2 _ [Writing; Idle] 0).
Defined.

(** ** The operations of one thread on the table *)

Lemma lock_shared_spin_spec n w : (0 < n)%nat ->
  lock_shared_spin n w = if has_exclusive w || shared_full w then (false, w) else (true, w + SHARED_ONE).
Proof.
  intros Hn. destruct (has_exclusive w || shared_full w) eqn:E.
  - clear Hn. induction n; simpl; [done|by rewrite E].
  - destruct n; [lia|]. simpl. by rewrite E.
Qed.

Lemma acquire_exclusive_spin_spec n w : (0 < n)%nat ->
  acquire_exclusive_spin n w = if has_exclusive w then (false, w) else (true, Z.lor w EXCLUSIVE_BIT).
Proof.
  intros Hn. destruct (has_exclusive w) eqn:E.
  - clear Hn. induction n; simpl; [done|by rewrite E].
  - destruct n; [lia|]. simpl. by rewrite E.
Qed.

Lemma drain_readers_spin_spec n w : (0 < n)%nat -> drain_readers_spin n w = no_readers w.
Proof.
  intros Hn. destruct (no_readers w) eqn:E.
  - destruct n; [lia|]. simpl. by rewrite E.
  - clear Hn. induction n; simpl; [done|by rewrite E].
Qed.

#[local] Arguments lock_shared_spin : simpl never.
#[local] Arguments acquire_exclusive_spin : simpl never.
#[local] Arguments drain_readers_spin : simpl never.

Lemma latch_word_set ix b w w0 : latch_word ix b = Some w0 ->
  latch_word (set_latch_word ix b w) b = Some w.
Proof.
  unfold latch_word, set_latch_word, load_word, store_word, get_bucket. simpl.
  rewrite list_lookup_alter_eq. destruct (buckets ix !! b) as [ws|]; simpl; [|done].
  intros H. by rewrite list_lookup_insert_eq by (by eapply lookup_lt_Some).
Qed.

Lemma set_latch_word_twice ix b w w' :
  set_latch_word (set_latch_word ix b w) b w' = set_latch_word ix b w'.
Proof. unfold set_latch_word, store_word. simpl. by rewrite alter_insert_twice. Qed.

Lemma set_latch_word_same ix b w : latch_word ix b = Some w -> set_latch_word ix b w = ix.
Proof.
  unfold latch_word, set_latch_word, load_word, store_word, get_bucket. destruct ix as [bk m o n].
  simpl. intros H. f_equal. apply list_eq. intros j. destruct (decide (b = j)) as [<-|].
  - rewrite list_lookup_alter_eq. destruct (bk !! b) as [ws|]; simpl in *; [|done].
    by rewrite list_insert_id.
  - by rewrite list_lookup_alter_ne.
Qed.

Lemma try_lock_shared_spec ix b p c x :
  latch_word ix b = Some (latch_make p c x) -> latch_fields_ok p c ->
  if negb x && (c <? 2 ^ 15 - 1) then
    exists ix', try_lock_shared ix b = Some (true, ix') /\
      latch_word ix' b = Some (latch_make p (c + 1) x) /\ unlock_shared ix' b = Some ix
  else try_lock_shared ix b = Some (false, ix).
Proof.
  intros Hw Hf. unfold try_lock_shared. rewrite Hw. cbn [mbind option_bind].
  rewrite lock_shared_spin_spec by (unfold MAX_LOCK_SPINS; lia).
  rewrite latch_has_exclusive, latch_full by done. assert (Hc := proj2 Hf).
  destruct x; simpl; [by rewrite set_latch_word_same|].
  destruct (Z.ltb_spec c (2 ^ 15 - 1)), (Z.eqb_spec c (2 ^ 15 - 1)); try lia;
    [|by rewrite set_latch_word_same].
  eexists. split; [done|]. rewrite latch_add_reader.
  rewrite (latch_word_set _ _ _ _ Hw). split; [done|].
  unfold unlock_shared. rewrite (latch_word_set _ _ _ _ Hw). simpl.
  rewrite latch_sub_reader by (destruct Hf; split || idtac; lia).
  rewrite set_latch_word_twice, set_latch_word_same; [done|]. rewrite Hw. do 2 f_equal. lia.
Qed.

Lemma try_lock_exclusive_spec ix b p c x :
  latch_word ix b = Some (latch_make p c x) -> latch_fields_ok p c ->
  if negb x && (c =? 0) then
    exists ix', try_lock_exclusive ix b = Some (true, ix') /\
      latch_word ix' b = Some (latch_make p c true) /\ unlock_exclusive ix' b = Some ix
  else try_lock_exclusive ix b = Some (false, ix).
Proof.
  intros Hw Hf. unfold try_lock_exclusive. rewrite Hw. cbn [mbind option_bind].
  rewrite acquire_exclusive_spin_spec by (unfold MAX_LOCK_SPINS; lia).
  rewrite latch_has_exclusive by done. destruct x; simpl; [by rewrite set_latch_word_same|].
  rewrite latch_set_exclusive, drain_readers_spin_spec, latch_no_readers
    by (done || unfold MAX_READER_DRAIN_SPINS; lia).
  destruct (c =? 0).
  - eexists. split; [done|]. unfold unlock_exclusive.
    rewrite (latch_word_set _ _ _ _ Hw). simpl. split; [done|].
    by rewrite latch_clear_exclusive, set_latch_word_twice, set_latch_word_same.
  - by rewrite latch_clear_exclusive, set_latch_word_same.
Qed.

(** The outcome of each lock attempt is decided by the word: shared succeeds
    unless a writer is present or the count is saturated, exclusive succeeds
    exactly when nobody holds the latch; a failed attempt leaves the table as
    it was, and the matching unlock undoes a successful one. *)
Theorem latch_lock_unlock ix b p c x :
  latch_word ix b = Some (latch_make p c x) -> latch_fields_ok p c ->
  (if negb x && (c <? 2 ^ 15 - 1) then
     exists ix', try_lock_shared ix b = Some (true, ix') /\
       latch_word ix' b = Some (latch_make p (c + 1) x) /\ unlock_shared ix' b = Some ix
   else try_lock_shared ix b = Some (false, ix)) /\
  (if negb x && (c =? 0) then
     exists ix', try_lock_exclusive ix b = Some (true, ix') /\
       is_locked_exclusive ix' b = Some true /\ unlock_exclusive ix' b = Some ix
   else try_lock_exclusive ix b = Some (false, ix)).
Proof.
  intros Hw Hf. split; [by apply try_lock_shared_spec|].
  pose proof (try_lock_exclusive_spec ix b p c x Hw Hf) as He.
  destruct (negb x && (c =? 0)); [|done]. destruct He as (ix' & ? & Hw' & ?).
  exists ix'. split_and!; try done. unfold is_locked_exclusive. rewrite Hw'. simpl.
  by rewrite latch_has_exclusive.
Qed.

Lemma latch_lock_unlock_witness :
  exists ix', try_lock_shared (index_new 2) 1 = Some (true, ix') /\
       latch_word ix' 1 = Some (latch_make 0 1 false) /\ unlock_shared ix' 1 = Some (index_new 2).
Proof.
  exact (proj1 (latch_lock_unlock (index_new 2) 1 0 0 false
    ltac:(vm_compute; reflexivity) ltac:(unfold latch_fields_ok; lia))).
Defined.

(** [clear] zeroes the latch bits with the entries: a thread that held the
    latch shared across it wraps the word on release, and from then on no
    thread can lock the bucket in either mode. *)
Theorem clear_then_unlock_wedges_bucket ix b w :
  latch_word ix b = Some w ->
  exists ix', unlock_shared (clear ix) b = Some ix' /\
    latch_word ix' b = Some (latch_make 0 (2 ^ 15 - 1) true) /\
    try_lock_shared ix' b = Some (false, ix') /\ try_lock_exclusive ix' b = Some (false, ix').
Proof.
  intros Hw. assert (H0 : latch_word (clear ix) b = Some 0).
  { revert Hw. unfold latch_word, load_word, get_bucket, clear. simpl.
    rewrite list_lookup_fmap. destruct (buckets ix !! b) as [ws|]; simpl; [|done].
    intros H. apply lookup_replicate_2. by eapply lookup_lt_Some. }
  unfold unlock_shared. rewrite H0. eexists. split; [done|].
  pose proof (latch_word_set _ _ (wrap64 (0 - SHARED_ONE)) _ H0) as H1.
  change (wrap64 (0 - SHARED_ONE)) with (latch_make 0 (2 ^ 15 - 1) true) in H1 at 2.
  split; [done|].
  split; [apply (try_lock_shared_spec _ _ _ _ _ H1)|apply (try_lock_exclusive_spec _ _ _ _ _ H1)]; split; lia.
Qed.

Lemma clear_then_unlock_wedges_bucket_witness :
  exists ix', unlock_shared (clear (index_new 2)) 1 = Some ix' /\
    try_lock_shared ix' 1 = Some (false, ix') /\ try_lock_exclusive ix' 1 = Some (false, ix').
Proof.
  destruct (clear_then_unlock_wedges_bucket (index_new 2) 1 0 ltac:(vm_compute; reflexivity))
    as (ix' & H1 & _ & H2). by exists ix'.
Defined.
