(* ===== verification/Resp.v ===== *)
(** * The RESP protocol ([crates/garnet/src/resp.rs])

    The incremental zero-copy command parser, the reply writers and the two
    integer codecs.  Positions in a buffer are [nat]s, bytes are [Z]s. *)

From S2P Require Import Prelude.

Definition CR : Z := 13.
Definition LF : Z := 10.

(** ** Parsing *)

Record ArgSlice := Arg { start : nat; end_ : nat }.
Global Instance ArgSlice_eq_dec : EqDecision ArgSlice.
Proof. solve_decision. Defined.
Definition arg_bytes (buf : bytes) (a : ArgSlice) : bytes := slice (start a) (end_ a) buf.

Inductive ProtocolError := Malformed (msg : string).

Definition at_ (buf : bytes) (i : nat) : Z := default 0 (buf !! i).

(** [while i + 1 < buf.len()]: the index of the first CRLF at or after [pos]. *)
Fixpoint find_crlf_loop (fuel : nat) (buf : bytes) (i : nat) : option nat :=
  match fuel with
  | O => None
  | S fuel =>
      if (i + 1 <? length buf)%nat then
        if (at_ buf i =? CR) && (at_ buf (i + 1) =? LF) then Some i
        else find_crlf_loop fuel buf (i + 1)
      else None
  end.
Definition find_crlf (buf : bytes) (pos : nat) : option nat :=
  find_crlf_loop (length buf) buf pos.

Definition is_ascii_digit (c : Z) : bool := (48 <=? c) && (c <=? 57).

Fixpoint parse_digits (v : Z) (digits : bytes) : ProtocolError + Z :=
  match digits with
  | [] => inr v
  | c :: digits =>
      if negb (is_ascii_digit c) then inl (Malformed "non-digit in integer") else
      match (v ← checked_i64 (v * 10); checked_i64 (v + (c - 48))) with
      | None => inl (Malformed "integer overflow")
      | Some v => parse_digits v digits
      end
  end.

Definition parse_int (s : bytes) : ProtocolError + Z :=
  match s with
  | [] => inl (Malformed "empty integer")
  | c :: s' =>
      let '(neg, digits) := if c =? 45 then (true, s') else (false, s) in
      match digits with
      | [] => inl (Malformed "empty integer")
      | _ => v ← parse_digits 0 digits; inr (if neg : bool then - v else v)
      end
  end.

(** One iteration of [parse_array]'s loop: [inr None] is an incomplete
    command, otherwise the argument and the offset past its CRLF. *)
Definition parse_bulk (buf : bytes) (cur : nat) : ProtocolError + option (ArgSlice * nat) :=
  if (length buf <=? cur)%nat then inr None else
  if negb (at_ buf cur =? 36) then inl (Malformed "expected bulk string") else
  match find_crlf buf (cur + 1) with
  | None => inr None
  | Some cr =>
      len ← parse_int (slice (cur + 1) cr buf);
      if len <? 0 then inl (Malformed "negative bulk length") else
      let start := (cr + 2)%nat in
      if Z.of_nat (length buf) <? Z.of_nat start + len + 2 then inr None else
      let end_ := (start + Z.to_nat len)%nat in
      if negb (at_ buf end_ =? CR) || negb (at_ buf (end_ + 1) =? LF)
      then inl (Malformed "bulk string not CRLF terminated")
      else inr (Some (Arg start end_, (end_ + 2)%nat))
  end.

Fixpoint parse_bulks (count : nat) (buf : bytes) (cur : nat) (args : list ArgSlice)
    : ProtocolError + option (list ArgSlice * nat) :=
  match count with
  | O => inr (Some (args, cur))
  | S count =>
      r ← parse_bulk buf cur;
      match r with
      | None => inr None
      | Some (a, cur) => parse_bulks count buf cur (args ++ [a])
      end
  end.

Definition parse_array (buf : bytes) (pos : nat) : ProtocolError + option (list ArgSlice * nat) :=
  match find_crlf buf (pos + 1) with
  | None => inr None
  | Some cr =>
      count ← parse_int (slice (pos + 1) cr buf);
      if count <? 0 then inl (Malformed "negative array length") else
      if 1024 * 1024 <? count then inl (Malformed "array too large") else
      parse_bulks (Z.to_nat count) buf (cr + 2) []
  end.

(** The two inner loops of [parse_inline]. *)
Fixpoint skip_while (fuel : nat) (p : Z -> bool) (buf : bytes) (cr i : nat) : nat :=
  match fuel with
  | O => i
  | S fuel => if (i <? cr)%nat && p (at_ buf i) then skip_while fuel p buf cr (i + 1) else i
  end.
Fixpoint inline_words (fuel : nat) (buf : bytes) (cr i : nat) (args : list ArgSlice)
    : list ArgSlice :=
  match fuel with
  | O => args
  | S fuel =>
      if (cr <=? i)%nat then args else
      let i := skip_while (cr - i) (fun c => c =? 32) buf cr i in
      if (cr <=? i)%nat then args else
      let start := i in
      let i := skip_while (cr - i) (fun c => negb (c =? 32)) buf cr i in
      inline_words fuel buf cr i (args ++ [Arg start i])
  end.
Definition parse_inline (buf : bytes) (pos : nat) : ProtocolError + option (list ArgSlice * nat) :=
  match find_crlf buf pos with
  | None => inr None
  | Some cr => inr (Some (inline_words (cr - pos) buf cr pos [], (cr + 2)%nat))
  end.

(** The arguments and the offset past the command; [inr None] is [Ok(None)],
    after which the caller reads no argument. *)
Definition parse_command (buf : bytes) (pos : nat) : ProtocolError + option (list ArgSlice * nat) :=
  if (length buf <=? pos)%nat then inr None
  else if at_ buf pos =? 42 then parse_array buf pos else parse_inline buf pos.

(** ** Integers as text *)

(** [I64Buf]: digits are written backwards into a 20-byte buffer.  [None] is an
    index underflow, a panic. *)
Fixpoint fmt_loop (fuel : nat) (i : nat) (u : Z) (buf : bytes) : option (nat * bytes) :=
  match fuel with
  | O => None
  | S fuel =>
      if 0 <? u then
        match i with
        | O => None
        | S i => fmt_loop fuel i (u / 10) (<[i := 48 + u mod 10]> buf)
        end
      else Some (i, buf)
  end.
Definition I64Buf_fmt (v : Z) : option bytes :=
  let u := Z.abs v in
  let buf := replicate 20 0 in
  let '(i, buf) := if u =? 0 then (19%nat, <[19%nat := 48]> buf) else (20%nat, buf) in
  '(i, buf) ← fmt_loop 21 i u buf;
  if v <? 0 then
    match i with
    | O => None
    | S i => Some (drop i (<[i := 45]> buf))
    end
  else Some (drop i buf).

(** [fmt] never panics on an [i64] ([I64Buf_fmt_spec]). *)
Definition write_i64_digits (out : bytes) (v : Z) : bytes := out ++ default [] (I64Buf_fmt v).

Fixpoint digit_len_loop (fuel : nat) (n : nat) (u : Z) : nat :=
  match fuel with
  | O => n
  | S fuel => if 0 <? u then digit_len_loop fuel (n + 1) (u / 10) else n
  end.
Definition i64_digit_len (v : Z) : nat :=
  let n := if v <? 0 then 1%nat else 0%nat in
  let u := Z.abs v in
  if u =? 0 then 1%nat else digit_len_loop 20 n u.

(** [str::from_utf8]: the code points of well-formed UTF-8. *)
Definition cont (b : Z) : bool := (128 <=? b) && (b <? 192).
Fixpoint utf8_decode (fuel : nat) (s : bytes) : option (list Z) :=
  match fuel with
  | O => None
  | S fuel =>
    match s with
    | [] => Some []
    | a :: s =>
      if a <? 128 then cs ← utf8_decode fuel s; Some (a :: cs)
      else if (194 <=? a) && (a <? 224) then
        match s with
        | b :: s =>
          if cont b then cs ← utf8_decode fuel s; Some ((a - 192) * 64 + (b - 128) :: cs) else None
        | _ => None
        end
      else if (224 <=? a) && (a <? 240) then
        match s with
        | b :: c :: s =>
          let cp := (a - 224) * 4096 + (b - 128) * 64 + (c - 128) in
          if cont b && cont c && (2048 <=? cp) && negb ((55296 <=? cp) && (cp <? 57344))
          then cs ← utf8_decode fuel s; Some (cp :: cs) else None
        | _ => None
        end
      else if (240 <=? a) && (a <? 245) then
        match s with
        | b :: c :: d :: s =>
          let cp := (a - 240) * 262144 + (b - 128) * 4096 + (c - 128) * 64 + (d - 128) in
          if cont b && cont c && cont d && (65536 <=? cp) && (cp <? 1114112)
          then cs ← utf8_decode fuel s; Some (cp :: cs) else None
        | _ => None
        end
      else None
    end
  end.
Definition from_utf8 (s : bytes) : option (list Z) := utf8_decode (S (length s)) s.

(** [char::is_whitespace]: the White_Space property. *)
Definition is_whitespace (c : Z) : bool :=
  ((9 <=? c) && (c <=? 13)) || (c =? 32) || (c =? 133) || (c =? 160) || (c =? 5760) ||
  ((8192 <=? c) && (c <=? 8202)) || (c =? 8232) || (c =? 8233) || (c =? 8239) ||
  (c =? 8287) || (c =? 12288).
Fixpoint trim_start (s : list Z) : list Z :=
  match s with
  | c :: s' => if is_whitespace c then trim_start s' else s
  | [] => []
  end.
Definition trim (s : list Z) : list Z := rev (trim_start (rev (trim_start s))).

(** [i64::from_str]: a sign, then at least one digit, no overflow. *)
Fixpoint from_digits (neg : bool) (v : Z) (s : list Z) : option Z :=
  match s with
  | [] => Some v
  | c :: s =>
      if is_ascii_digit c then
        v ← checked_i64 (v * 10);
        v ← checked_i64 (if neg then v - (c - 48) else v + (c - 48));
        from_digits neg v s
      else None
  end.
Definition i64_from_str (s : list Z) : option Z :=
  match s with
  | [] => None
  | c :: s' =>
      if (c =? 43) || (c =? 45) then
        match s' with [] => None | _ => from_digits (c =? 45) 0 s' end
      else from_digits false 0 s
  end.
Definition parse_i64 (s : bytes) : option Z := cs ← from_utf8 s; i64_from_str (trim cs).

(** ** Reply writers: append to a send buffer *)

Definition crlf : bytes := [CR; LF].
Definition OK : bytes := bs "+OK" ++ crlf.
Definition PONG : bytes := bs "+PONG" ++ crlf.
Definition QUEUED : bytes := bs "+QUEUED" ++ crlf.
Definition NULL_BULK : bytes := bs "$-1" ++ crlf.
Definition NULL_ARRAY : bytes := bs "*-1" ++ crlf.
Definition EMPTY_ARRAY : bytes := bs "*0" ++ crlf.

Definition write_simple (out s : bytes) : bytes := ((out ++ [43]) ++ s) ++ crlf.
Definition write_error (out s : bytes) : bytes := ((out ++ [45]) ++ s) ++ crlf.
Definition write_integer (out : bytes) (v : Z) : bytes := write_i64_digits (out ++ [58]) v ++ crlf.
Definition write_bulk_header (out : bytes) (len : nat) : bytes :=
  write_i64_digits (out ++ [36]) (wrap_i64 (Z.of_nat len)) ++ crlf.
Definition write_bulk (out data : bytes) : bytes :=
  (write_bulk_header out (length data) ++ data) ++ crlf.
Definition write_array_header (out : bytes) (n : nat) : bytes :=
  write_i64_digits (out ++ [42]) (wrap_i64 (Z.of_nat n)) ++ crlf.
(** A command as a client sends it, and as [RespSession::run] builds it. *)
Definition encode_command (args : list bytes) : bytes :=
  foldl write_bulk (write_array_header [] (length args)) args.

(** The tests of the source. *)
Definition parse (buf : bytes) (pos : nat) : option (list bytes * nat) :=
  match parse_command buf pos with
  | inr (Some (args, next)) => Some (map (arg_bytes buf) args, next)
  | _ => None
  end.
Example parses_array_command :
  let buf := bs "*3" ++ crlf ++ bs "$3" ++ crlf ++ bs "SET" ++ crlf ++ bs "$1" ++ crlf ++
    bs "k" ++ crlf ++ bs "$5" ++ crlf ++ bs "hello" ++ crlf in
  parse buf 0 = Some ([bs "SET"; bs "k"; bs "hello"], length buf).
Proof. vm_compute. reflexivity. Qed.
Example parses_inline :
  parse (bs "SET  a b" ++ crlf) 0 = Some ([bs "SET"; bs "a"; bs "b"], 10%nat).
Proof. vm_compute. reflexivity. Qed.
Example writes_replies :
  write_error (write_simple (write_array_header (write_bulk (write_integer [] (-42)) (bs "hi")) 2)
    (bs "OK")) (bs "ERR x") =
  bs ":-42" ++ crlf ++ bs "$2" ++ crlf ++ bs "hi" ++ crlf ++ bs "*2" ++ crlf ++ bs "+OK" ++ crlf ++
  bs "-ERR x" ++ crlf.
Proof. vm_compute. reflexivity. Qed.
Example digit_lens : map i64_digit_len [0; -105; i64_min] = [1; 4; 20]%nat.
Proof. vm_compute. reflexivity. Qed.
