(* ===== verification/RespSpec.v ===== *)
(** * What the RESP parser and the integer codecs guarantee

    Bounds and progress of the parser, stability of its answers when more bytes
    arrive, and the round trips of commands and of integers. *)

From S2P Require Import Prelude Resp.

(** ** Integers as text *)

Definition digits_val (v : Z) (ds : bytes) : Z := foldl (fun v c => v * 10 + (c - 48)) v ds.
Definition digits (ds : bytes) : Prop := Forall (fun c => is_ascii_digit c = true) ds.

Lemma is_ascii_digit_spec c : is_ascii_digit c = true <-> 48 <= c <= 57.
Proof. unfold is_ascii_digit. lia. Qed.

Lemma digits_val_ge v ds : 0 <= v -> digits ds -> v <= digits_val v ds.
Proof.
  intros Hv Hd. revert v Hv. induction Hd as [|c ds Hc Hd IH]; intros v Hv; simpl; [lia|].
  apply is_ascii_digit_spec in Hc. specialize (IH (v * 10 + (c - 48)) ltac:(lia)). lia.
Qed.

Lemma digits_val_app v ds ds' : digits_val v (ds ++ ds') = digits_val (digits_val v ds) ds'.
Proof. unfold digits_val. by rewrite foldl_app. Qed.

Lemma checked_i64_ok z : is_i64 z -> checked_i64 z = Some z.
Proof. intros H. unfold checked_i64. by rewrite (proj2 (in_i64_spec z) H). Qed.

Lemma parse_digits_spec v ds : 0 <= v -> digits ds -> digits_val v ds <= i64_max ->
  parse_digits v ds = inr (digits_val v ds).
Proof.
  intros Hv Hd. revert v Hv. induction Hd as [|c ds Hc Hd IH]; intros v Hv Hmax; simpl; [done|].
  rewrite Hc. simpl. apply is_ascii_digit_spec in Hc.
  pose proof (digits_val_ge (v * 10 + (c - 48)) ds ltac:(lia) Hd). simpl in Hmax.
  unfold is_i64, i64_min, i64_max in *.
  rewrite !checked_i64_ok by (unfold is_i64, i64_min, i64_max; lia). simpl.
  rewrite checked_i64_ok by (unfold is_i64, i64_min, i64_max; lia). apply IH; lia.
Qed.

Lemma from_digits_spec (neg : bool) v ds : 0 <= v -> digits ds ->
  is_i64 (if neg then - digits_val v ds else digits_val v ds) ->
  from_digits neg (if neg then - v else v) ds =
  Some (if neg then - digits_val v ds else digits_val v ds).
Proof.
  intros Hv Hd. revert v Hv. induction Hd as [|c ds Hc Hd IH]; intros v Hv Hmax; simpl; [done|].
  rewrite Hc. apply is_ascii_digit_spec in Hc.
  pose proof (digits_val_ge (v * 10 + (c - 48)) ds ltac:(lia) Hd) as Hge. simpl in Hmax.
  specialize (IH (v * 10 + (c - 48)) ltac:(lia) Hmax).
  assert (Hr : forall z, Z.abs z <= v * 10 + (c - 48) -> (0 <= z <-> neg = false) \/ z = 0 ->
    is_i64 z).
  { unfold is_i64, i64_min, i64_max in *. intros z. destruct neg; simpl in *; lia. }
  destruct neg.
  - rewrite (checked_i64_ok (- v * 10)) by (apply Hr; lia). simpl.
    rewrite checked_i64_ok; [|apply Hr; lia]. simpl.
    replace (- v * 10 - (c - 48)) with (- (v * 10 + (c - 48))) by lia. exact IH.
  - rewrite (checked_i64_ok (v * 10)) by (apply Hr; lia). simpl.
    rewrite checked_i64_ok; [|apply Hr; lia]. exact IH.
Qed.

(** The loop of [fmt] from index [i] writes the digits of [u] just before [i]. *)
Lemma fmt_loop_spec fuel i u buf :
  0 <= u < 10 ^ Z.of_nat (pred fuel) -> (0 < fuel)%nat -> (pred fuel <= i <= length buf)%nat ->
  exists ds, fmt_loop fuel i u buf =
      Some ((i - length ds)%nat, take (i - length ds) buf ++ ds ++ drop i buf) /\
    digits ds /\ digits_val 0 ds = u /\ (length ds < fuel)%nat /\
    (u = 0 <-> ds = []) /\ (forall d, head ds = Some d -> d <> 48) /\
    forall f n, u < 10 ^ Z.of_nat f -> digit_len_loop f n u = (n + length ds)%nat.
Proof.
  revert i u buf. induction fuel as [|fuel IH]; intros i u buf Hu H0 Hi; [lia|].
  simpl pred in *. simpl fmt_loop. destruct (Z.ltb_spec 0 u).
  - destruct fuel as [|fuel]; [simpl in Hu; lia|]. destruct i as [|i]; [lia|].
    destruct (IH i (u / 10) (<[i:=48 + u mod 10]> buf)) as (ds & -> & Hd & Hv & Hl & Hz & Hh & Hlen).
    { simpl pred. replace (Z.of_nat (S fuel)) with (1 + Z.of_nat fuel) in Hu by lia.
      rewrite Z.pow_add_r, Z.pow_1_r in Hu by lia.
      split; [apply Z.div_pos; lia|]. apply Z.div_lt_upper_bound; lia. }
    { lia. }
    { rewrite length_insert. simpl. lia. }
    pose proof (Z.mod_pos_bound u 10 eq_refl) as Hm. pose proof (Z.div_mod u 10 ltac:(lia)) as Hdm.
    exists (ds ++ [48 + u mod 10]). rewrite length_app. simpl. split_and!.
    + f_equal. f_equal; [lia|]. rewrite take_insert, decide_False by lia.
      replace (S i - (length ds + 1))%nat with (i - length ds)%nat by lia. f_equal.
      rewrite <- app_assoc. f_equal. rewrite (drop_S _ (48 + u mod 10)).
      * rewrite drop_insert_lt by lia. done.
      * apply list_lookup_insert_eq. lia.
    + apply Forall_app. split; [done|]. constructor; [|done]. apply is_ascii_digit_spec. lia.
    + rewrite digits_val_app, Hv. simpl. lia.
    + lia.
    + split; [lia|]. by intros [_ ?]%app_nil.
    + intros d. destruct ds as [|d0 ds]; simpl; [|apply Hh].
      intros [= <-]. assert (u / 10 = 0) by (by apply Hz). lia.
    + intros f n Hf. destruct f as [|f]; [simpl in Hf; lia|]. simpl.
      destruct (Z.ltb_spec 0 u); [|lia]. rewrite Hlen; [lia|].
      replace (Z.of_nat (S f)) with (1 + Z.of_nat f) in Hf by lia.
      rewrite Z.pow_add_r, Z.pow_1_r in Hf by lia. apply Z.div_lt_upper_bound; lia.
  - exists []. simpl. assert (u = 0) as -> by lia.
    rewrite Nat.sub_0_r, take_drop. split_and!; try done; try constructor; try lia.
    intros f n _. destruct f; simpl; lia.
Qed.

(** The text of an [i64]: an optional sign and digits without leading zeros. *)
Definition decimal (v : Z) (s : bytes) : Prop :=
  exists ds, s = (if v <? 0 then [45] else []) ++ ds /\ digits ds /\ ds <> [] /\
    digits_val 0 ds = Z.abs v /\ (head ds = Some 48 -> ds = [48]).

Lemma I64Buf_fmt_spec v : is_i64 v ->
  exists s, I64Buf_fmt v = Some s /\ decimal v s /\ length s = i64_digit_len v.
Proof.
  intros Hv. unfold I64Buf_fmt, i64_digit_len, is_i64, i64_min, i64_max in *.
  destruct (Z.eqb_spec (Z.abs v) 0) as [E0|E0].
  { assert (v = 0) as -> by lia. exists [48]. split; [done|]. split; [|done]. exists [48].
    by repeat constructor. }
  destruct (fmt_loop_spec 21 20 (Z.abs v) (replicate 20 0)) as (ds & -> & Hd & Hdv & Hl & Hz & Hh & Hlen).
  { simpl pred. split; [lia|]. change (10 ^ Z.of_nat 20) with 100000000000000000000. lia. }
  { lia. } { simpl. lia. }
  assert (Hne : ds <> []) by (intros E; apply Hz in E; lia).
  assert (Hl19 : (length ds <= 19)%nat).
  { destruct (decide (length ds <= 19)%nat) as [|Hgt]; [done|exfalso].
    pose proof (Hlen 19%nat 0%nat ltac:(change (10 ^ Z.of_nat 19) with 10000000000000000000; lia)) as E.
    assert (Hb : forall f n u, (digit_len_loop f n u <= n + f)%nat).
    { clear. intros f. induction f as [|f IH]; intros n u; simpl; [lia|].
      destruct (0 <? u); [|lia]. specialize (IH (n + 1)%nat (u / 10)). lia. }
    specialize (Hb 19%nat 0%nat (Z.abs v)). lia. }
  set (pre := take (20 - length ds) (replicate 20 0)).
  assert (Hpre : length pre = (20 - length ds)%nat) by (unfold pre; rewrite length_take; simpl; lia).
  change (drop 20 (replicate 20 0)) with (@nil Z). rewrite app_nil_r. clearbody pre.
  rewrite !(Hlen 20%nat) by (change (10 ^ Z.of_nat 20) with 100000000000000000000; lia).
  cbn [mbind option_bind]. exists ((if v <? 0 then [45] else []) ++ ds). split.
  - destruct (v <? 0).
    + destruct (20 - length ds)%nat as [|i] eqn:Ei; [lia|]. simpl. do 2 f_equal.
      rewrite (drop_S _ 45) by (apply list_lookup_insert_eq; rewrite length_app; lia).
      rewrite drop_insert_lt by lia. f_equal. rewrite <- Hpre. by rewrite drop_app_length.
    + simpl. f_equal. rewrite <- Hpre. by rewrite drop_app_length.
  - split; [|destruct (v <? 0); simpl; lia]. exists ds. split_and!; try done.
    intros H. by apply Hh in H.
Qed.

Lemma utf8_ascii fuel s : Forall (fun c => c < 128) s -> (length s < fuel)%nat ->
  utf8_decode fuel s = Some s.
Proof.
  intros Hs. revert fuel. induction Hs as [|c s Hc Hs IH]; intros fuel Hf;
    (destruct fuel as [|fuel]; [simpl in Hf; lia|]); simpl; [done|].
  simpl in Hf. destruct (Z.ltb_spec c 128); [|lia]. by rewrite IH by lia.
Qed.

Lemma trim_start_id s : (forall c, head s = Some c -> is_whitespace c = false) -> trim_start s = s.
Proof. destruct s as [|c s]; simpl; [done|]. intros H. by rewrite H. Qed.

Lemma trim_id s : Forall (fun c => is_whitespace c = false) s -> trim s = s.
Proof.
  intros Hs. unfold trim. rewrite (trim_start_id s).
  - rewrite trim_start_id; [apply rev_involutive|].
    intros c Hc. rewrite Forall_forall in Hs. apply Hs, list_elem_of_In, in_rev.
    destruct (rev s); simplify_eq/=; by left.
  - intros c Hc. rewrite Forall_forall in Hs. apply Hs. destruct s; simplify_eq/=; by left.
Qed.

Lemma decimal_plain v s : decimal v s ->
  Forall (fun c => c < 128) s /\ Forall (fun c => is_whitespace c = false) s.
Proof.
  intros (ds & -> & Hd & _). split; apply Forall_app; split; try (by destruct (v <? 0); repeat constructor);
    (eapply Forall_impl; [exact Hd|]); intros c Hc%is_ascii_digit_spec; unfold is_whitespace; lia.
Qed.

Lemma parse_i64_decimal v s : is_i64 v -> decimal v s -> parse_i64 s = Some v.
Proof.
  intros Hv Hs. destruct (decimal_plain _ _ Hs) as [Ha Hw].
  unfold parse_i64, from_utf8. rewrite utf8_ascii by (done || lia). simpl.
  rewrite trim_id by done. destruct Hs as (ds & -> & Hd & Hne & Hval & _).
  destruct ds as [|d ds]; [done|]. unfold i64_from_str.
  pose proof (from_digits_spec (v <? 0) 0 (d :: ds) ltac:(lia) Hd) as Hf. rewrite Hval in Hf.
  destruct (Z.ltb_spec v 0); simpl app; cbv iota in *.
  - change (- 0) with 0 in Hf. change ((45 =? 43) || (45 =? 45)) with true. change (45 =? 45) with true. cbv iota. rewrite Hf; [f_equal; lia|]. by replace (- Z.abs v) with v by lia.
  - inversion Hd as [|? ? Hc Hd']; subst. apply is_ascii_digit_spec in Hc.
    replace ((d =? 43) || (d =? 45)) with false by lia.
    rewrite Hf; [f_equal; lia|]. by replace (Z.abs v) with v by lia.
Qed.

Lemma parse_int_decimal v s : is_i64 v -> v <> i64_min -> decimal v s -> parse_int s = inr v.
Proof.
  intros Hv Hmin (ds & -> & Hd & Hne & Hval & _). destruct ds as [|d ds]; [done|].
  pose proof (parse_digits_spec 0 (d :: ds) ltac:(lia) Hd) as Hp. rewrite Hval in Hp.
  unfold is_i64, i64_min, i64_max in *. unfold parse_int.
  destruct (Z.ltb_spec v 0); simpl app; cbv iota in *.
  - change (45 =? 45) with true. cbv iota. rewrite Hp by lia. simpl. f_equal. lia.
  - inversion Hd as [|? ? Hc Hd']; subst. apply is_ascii_digit_spec in Hc.
    replace (d =? 45) with false by lia. rewrite Hp by lia. simpl. f_equal. lia.
Qed.

(** C27. Formatting an [i64] never panics, produces the shortest decimal text
    (optional minus sign, no leading zero) of exactly [i64_digit_len] bytes,
    and both parsers read it back: [parse_i64] every value, [parse_int], which
    negates afterwards, every value except [i64::MIN]. *)
Theorem integer_text_roundtrip v : is_i64 v ->
  exists s, I64Buf_fmt v = Some s /\ decimal v s /\ length s = i64_digit_len v /\
    parse_i64 s = Some v /\ (v <> i64_min -> parse_int s = inr v).
Proof.
  intros Hv. destruct (I64Buf_fmt_spec v Hv) as (s & Hs & Hd & Hl). exists s.
  split_and!; try done; [by apply parse_i64_decimal|intros; by apply parse_int_decimal].
Qed.

Lemma integer_text_roundtrip_witness :
  exists s, I64Buf_fmt i64_min = Some s /\ length s = 20%nat /\ parse_i64 s = Some i64_min.
Proof.
  destruct (integer_text_roundtrip i64_min) as (s & H1 & _ & H2 & H3 & _);
    [unfold is_i64, i64_min, i64_max; lia|].
  exists s. split; [done|]. split; [rewrite H2; reflexivity|done].
Defined.

(** ** CRLF scanning *)

Definition crlf_at (buf : bytes) (i : nat) : Prop := buf !! i = Some CR /\ buf !! (i + 1)%nat = Some LF.

Lemma at_lookup buf i c : (i < length buf)%nat -> at_ buf i = c <-> buf !! i = Some c.
Proof.
  intros [x Hx]%lookup_lt_is_Some. unfold at_. rewrite Hx. simpl. split; congruence.
Qed.

Lemma at_app buf more i : (i < length buf)%nat -> at_ (buf ++ more) i = at_ buf i.
Proof. intros. unfold at_. by rewrite lookup_app_l. Qed.

Lemma crlf_at_test buf i : (i + 1 < length buf)%nat ->
  (at_ buf i =? CR) && (at_ buf (i + 1) =? LF) = true <-> crlf_at buf i.
Proof.
  intros. rewrite andb_true_iff, !Z.eqb_eq, !at_lookup by lia. done.
Qed.

Lemma crlf_at_lt buf i : crlf_at buf i -> (i + 1 < length buf)%nat.
Proof. intros [_ H%lookup_lt_Some]. lia. Qed.

Lemma find_crlf_loop_spec fuel buf i : (length buf <= i + fuel)%nat ->
  match find_crlf_loop fuel buf i with
  | Some j => (i <= j)%nat /\ crlf_at buf j /\ forall k, (i <= k < j)%nat -> ~ crlf_at buf k
  | None => forall k, (i <= k)%nat -> ~ crlf_at buf k
  end.
Proof.
  revert i. induction fuel as [|fuel IH]; intros i Hf; simpl.
  { intros k Hk ?%crlf_at_lt. lia. }
  destruct (Nat.ltb_spec (i + 1) (length buf)).
  - destruct ((at_ buf i =? CR) && (at_ buf (i + 1) =? LF)) eqn:E.
    + apply crlf_at_test in E; [|done]. split_and!; [done|done|lia].
    + specialize (IH (i + 1)%nat ltac:(lia)).
      assert (Hi : ~ crlf_at buf i) by (rewrite <- crlf_at_test, E; done).
      destruct (find_crlf_loop fuel buf (i + 1)) as [j|].
      * destruct IH as (? & ? & Hk). split_and!; [lia|done|].
        intros k ?. destruct (decide (k = i)) as [->|]; [done|]. apply Hk. lia.
      * intros k ?. destruct (decide (k = i)) as [->|]; [done|]. apply IH. lia.
  - intros k ? ?%crlf_at_lt. lia.
Qed.

Lemma find_crlf_Some buf pos i : find_crlf buf pos = Some i <->
  (pos <= i)%nat /\ crlf_at buf i /\ forall k, (pos <= k < i)%nat -> ~ crlf_at buf k.
Proof.
  unfold find_crlf. pose proof (find_crlf_loop_spec (length buf) buf pos ltac:(lia)) as H.
  destruct (find_crlf_loop _ _ _) as [j|]; split.
  - by intros [= <-].
  - intros (Hp & Hc & Hk). destruct H as (Hp' & Hc' & Hk'). f_equal.
    destruct (lt_eq_lt_dec i j) as [[Hlt| ->]|Hlt]; [|done|].
    + destruct (Hk' i); [lia|done].
    + destruct (Hk j); [lia|done].
  - done.
  - intros (Hp & Hc & _). by destruct (H i).
Qed.

Lemma crlf_at_app buf more i : (i + 1 < length buf)%nat -> crlf_at (buf ++ more) i <-> crlf_at buf i.
Proof. intros. unfold crlf_at. by rewrite !lookup_app_l by lia. Qed.

Lemma find_crlf_app buf more pos i : find_crlf buf pos = Some i -> find_crlf (buf ++ more) pos = Some i.
Proof.
  rewrite !find_crlf_Some. intros (Hp & Hc & Hk). pose proof (crlf_at_lt _ _ Hc).
  split; [done|]. split; [by apply crlf_at_app|].
  intros k Hk'. rewrite crlf_at_app by lia. by apply Hk.
Qed.

(** ** The parser's answers are stable under more input *)

Lemma parse_bulk_app buf more cur : parse_bulk buf cur <> inr None ->
  parse_bulk (buf ++ more) cur = parse_bulk buf cur.
Proof.
  unfold parse_bulk. rewrite length_app.
  destruct (Nat.leb_spec (length buf) cur) as [|Hcur]; [done|].
  destruct (Nat.leb_spec (length buf + length more) cur); [lia|].
  rewrite at_app by done. destruct (negb (at_ buf cur =? 36)); [done|].
  destruct (find_crlf buf (cur + 1)) as [cr|] eqn:Ecr; [|done].
  rewrite (find_crlf_app _ more _ _ Ecr). apply find_crlf_Some in Ecr as (_ & Hcr%crlf_at_lt & _).
  rewrite slice_app_l by lia. destruct (parse_int _) as [e|len]; [done|]. cbn [mbind sum_bind].
  destruct (Z.ltb_spec len 0); [done|].
  destruct (Z.ltb_spec (Z.of_nat (length buf)) (Z.of_nat (cr + 2) + len + 2)); [done|].
  destruct (Z.ltb_spec (Z.of_nat (length buf + length more)) (Z.of_nat (cr + 2) + len + 2)); [lia|].
  by rewrite !at_app by lia.
Qed.

Lemma parse_bulks_app count buf more cur args : parse_bulks count buf cur args <> inr None ->
  parse_bulks count (buf ++ more) cur args = parse_bulks count buf cur args.
Proof.
  revert cur args. induction count as [|count IH]; intros cur args; simpl; [done|].
  intros H. rewrite parse_bulk_app; [|by intros E; rewrite E in H].
  destruct (parse_bulk buf cur) as [e|[[a cur']|]]; [done| |done]. by apply IH.
Qed.

Lemma parse_array_app buf more pos : parse_array buf pos <> inr None ->
  parse_array (buf ++ more) pos = parse_array buf pos.
Proof.
  unfold parse_array. destruct (find_crlf buf (pos + 1)) as [cr|] eqn:Ecr; [|done].
  rewrite (find_crlf_app _ more _ _ Ecr). apply find_crlf_Some in Ecr as (_ & Hcr%crlf_at_lt & _).
  rewrite slice_app_l by lia. destruct (parse_int _) as [e|count]; [done|]. cbn [mbind sum_bind].
  destruct (count <? 0); [done|]. destruct (1024 * 1024 <? count); [done|].
  apply parse_bulks_app.
Qed.

Lemma skip_while_app fuel p buf more cr i : (cr <= length buf)%nat ->
  skip_while fuel p (buf ++ more) cr i = skip_while fuel p buf cr i.
Proof.
  intros Hcr. revert i. induction fuel as [|fuel IH]; intros i; simpl; [done|].
  destruct (Nat.ltb_spec i cr); simpl; [|done]. rewrite at_app by lia.
  destruct (p (at_ buf i)); [apply IH|done].
Qed.

Lemma inline_words_app fuel buf more cr i args : (cr <= length buf)%nat ->
  inline_words fuel (buf ++ more) cr i args = inline_words fuel buf cr i args.
Proof.
  intros Hcr. revert i args. induction fuel as [|fuel IH]; intros i args; simpl; [done|].
  rewrite !skip_while_app by done. by rewrite IH.
Qed.

Lemma parse_inline_app buf more pos : parse_inline buf pos <> inr None ->
  parse_inline (buf ++ more) pos = parse_inline buf pos.
Proof.
  unfold parse_inline. destruct (find_crlf buf pos) as [cr|] eqn:Ecr; [|done].
  rewrite (find_crlf_app _ more _ _ Ecr). apply find_crlf_Some in Ecr as (_ & Hcr%crlf_at_lt & _).
  by rewrite inline_words_app by lia.
Qed.

Lemma parse_command_app buf more pos : parse_command buf pos <> inr None ->
  parse_command (buf ++ more) pos = parse_command buf pos.
Proof.
  unfold parse_command. rewrite length_app.
  destruct (Nat.leb_spec (length buf) pos); [done|].
  destruct (Nat.leb_spec (length buf + length more) pos); [lia|]. rewrite at_app by done.
  destruct (_ =? _); [apply parse_array_app|apply parse_inline_app].
Qed.

(** ** Positions are relative

    What lies before the position does not matter: parsing behind [pre] gives
    the same answer, moved. *)
Section Shift.
Context (pre : bytes).
Abbreviation k := (length pre).
Definition shift_arg (a : ArgSlice) : ArgSlice := Arg (k + start a) (k + end_ a).
Definition shift_result {A} (f : A -> A) (x : ProtocolError + option (A * nat)) : ProtocolError + option (A * nat) :=
  match x with
  | inr (Some (a, n)) => inr (Some (f a, (k + n)%nat))
  | x => x
  end.

Lemma at_shift buf i : at_ (pre ++ buf) (k + i) = at_ buf i.
Proof. unfold at_. by rewrite lookup_app_r, Nat.add_sub' by lia. Qed.
Lemma slice_shift buf s e : slice (k + s) (k + e) (pre ++ buf) = slice s e buf.
Proof. unfold slice. rewrite drop_app_ge by lia. f_equal; [lia|]. f_equal. lia. Qed.
Lemma crlf_at_shift buf i : crlf_at (pre ++ buf) (k + i) <-> crlf_at buf i.
Proof. unfold crlf_at. rewrite !lookup_app_r by lia. by replace (k + i + 1 - k)%nat with (i + 1)%nat by lia; rewrite Nat.add_sub'. Qed.
Lemma find_crlf_shift buf pos : find_crlf (pre ++ buf) (k + pos) = Nat.add k <$> find_crlf buf pos.
Proof.
  apply option_eq. intros j. rewrite find_crlf_Some, fmap_Some. split.
  - intros (Hp & Hc & Hk). exists (j - k)%nat. split; [|lia]. apply find_crlf_Some.
    replace j with (k + (j - k))%nat in Hc by lia. apply (crlf_at_shift buf) in Hc. split_and!; [lia|done|].
    intros m Hm Hc'. apply (Hk (k + m)%nat); [lia|]. by apply crlf_at_shift.
  - intros (i & (Hp & Hc & Hk)%find_crlf_Some & ->). split_and!; [lia|by apply crlf_at_shift|].
    intros m Hm Hc'. apply (Hk (m - k)%nat); [lia|]. apply crlf_at_shift. by replace (k + (m - k))%nat with m by lia.
Qed.

Lemma parse_bulk_shift buf cur : parse_bulk (pre ++ buf) (k + cur) = shift_result shift_arg (parse_bulk buf cur).
Proof.
  unfold parse_bulk. rewrite length_app, at_shift.
  destruct (Nat.leb_spec (length buf) cur), (Nat.leb_spec (k + length buf) (k + cur)); try lia; [done|].
  destruct (negb (at_ buf cur =? 36)); [done|]. rewrite <- Nat.add_assoc, find_crlf_shift.
  destruct (find_crlf buf (cur + 1)) as [cr|]; [|done]. cbn [fmap option_fmap option_map]. rewrite slice_shift.
  destruct (parse_int _) as [e|len]; [done|]. cbn [mbind sum_bind]. destruct (Z.ltb_spec len 0); [done|].
  destruct (Z.ltb_spec (Z.of_nat (length buf)) (Z.of_nat (cr + 2) + len + 2)),
    (Z.ltb_spec (Z.of_nat (k + length buf)) (Z.of_nat (k + cr + 2) + len + 2)); try lia; [done|].
  rewrite <- !Nat.add_assoc, !at_shift, !Nat.add_assoc. destruct (_ || _); [done|]. cbn.
  unfold shift_arg. cbn. do 3 f_equal; [f_equal; lia|lia].
Qed.
Lemma parse_bulks_shift count buf : forall cur args,
  parse_bulks count (pre ++ buf) (k + cur) (map shift_arg args) = shift_result (map shift_arg) (parse_bulks count buf cur args).
Proof.
  induction count as [|count IH]; intros cur args; [done|]. cbn [parse_bulks]. rewrite parse_bulk_shift.
  destruct (parse_bulk buf cur) as [e|[[a cur']|]]; [done| |done]. cbn. rewrite <- IH. by rewrite map_app.
Qed.
Lemma skip_while_shift fuel p buf cr : forall i,
  skip_while fuel p (pre ++ buf) (k + cr) (k + i) = (k + skip_while fuel p buf cr i)%nat.
Proof.
  induction fuel as [|fuel IH]; intros i; [done|]. cbn [skip_while]. rewrite at_shift.
  destruct (Nat.ltb_spec i cr), (Nat.ltb_spec (k + i) (k + cr)); try lia; [|done]. cbn [andb].
  destruct (p _); [|done]. by rewrite <- Nat.add_assoc.
Qed.
Lemma inline_words_shift fuel buf cr : forall i args,
  inline_words fuel (pre ++ buf) (k + cr) (k + i) (map shift_arg args) = map shift_arg (inline_words fuel buf cr i args).
Proof.
  assert (Hleb : forall a b, (k + a <=? k + b)%nat = (a <=? b)%nat).
  { intros a b. destruct (Nat.leb_spec a b), (Nat.leb_spec (k + a) (k + b)); lia. }
  assert (Hsub : forall a b, (k + a - (k + b))%nat = (a - b)%nat) by lia.
  induction fuel as [|fuel IH]; intros i args; [done|]. cbn [inline_words]. cbv zeta.
  rewrite Hleb. destruct (cr <=? i)%nat; [done|]. rewrite Hsub, skip_while_shift, Hleb.
  destruct (cr <=? _)%nat; [done|]. rewrite Hsub, skip_while_shift, <- IH. by rewrite map_app.
Qed.
Lemma parse_command_shift buf pos : parse_command (pre ++ buf) (k + pos) = shift_result (map shift_arg) (parse_command buf pos).
Proof.
  unfold parse_command. rewrite length_app, at_shift.
  destruct (Nat.leb_spec (length buf) pos), (Nat.leb_spec (k + length buf) (k + pos)); try lia; [done|].
  destruct (at_ buf pos =? 42).
  - unfold parse_array. rewrite <- Nat.add_assoc, find_crlf_shift. destruct (find_crlf buf (pos + 1)) as [cr|]; [|done].
    cbn [fmap option_fmap option_map]. rewrite slice_shift. destruct (parse_int _) as [e|count]; [done|]. cbn [mbind sum_bind].
    destruct (count <? 0); [done|]. destruct (1024 * 1024 <? count); [done|].
    rewrite <- Nat.add_assoc. apply (parse_bulks_shift _ _ _ []).
  - unfold parse_inline. rewrite find_crlf_shift. destruct (find_crlf buf pos) as [cr|]; [|done].
    cbn [fmap option_fmap option_map shift_result]. replace (k + cr - (k + pos))%nat with (cr - pos)%nat by lia.
    rewrite (inline_words_shift _ _ _ _ []). by rewrite Nat.add_assoc.
Qed.
Lemma args_shift buf args : map (arg_bytes (pre ++ buf)) (map shift_arg args) = map (arg_bytes buf) args.
Proof. rewrite map_map. apply map_ext. intros a. apply slice_shift. Qed.
End Shift.

(** ** Bounds and progress *)

(** The ranges lie in order inside [[lo, hi)]. *)
Fixpoint ranges (lo : nat) (args : list ArgSlice) (hi : nat) : Prop :=
  match args with
  | [] => (lo <= hi)%nat
  | a :: args => (lo <= start a <= end_ a)%nat /\ ranges (end_ a) args hi
  end.

Lemma ranges_weaken lo lo' args hi hi' : ranges lo args hi -> (lo' <= lo)%nat -> (hi <= hi')%nat ->
  ranges lo' args hi'.
Proof.
  revert lo lo'. induction args as [|a args IH]; intros lo lo'; simpl; [lia|].
  intros [? H] ? ?. split; [lia|]. eapply IH; [exact H|lia|lia].
Qed.

Lemma ranges_snoc lo args a hi : ranges lo args (start a) -> (start a <= end_ a <= hi)%nat ->
  ranges lo (args ++ [a]) hi.
Proof.
  revert lo. induction args as [|b args IH]; intros lo; simpl; [lia|].
  intros [? H] ?. split; [done|]. by apply IH.
Qed.

Lemma parse_bulk_bounds buf cur a next : parse_bulk buf cur = inr (Some (a, next)) ->
  (cur < start a <= end_ a)%nat /\ (next = end_ a + 2)%nat /\ (next <= length buf)%nat /\
  crlf_at buf (end_ a).
Proof.
  unfold parse_bulk. destruct (Nat.leb_spec (length buf) cur); [done|].
  destruct (negb (at_ buf cur =? 36)); [done|].
  destruct (find_crlf buf (cur + 1)) as [cr|] eqn:Ecr; [|done].
  apply find_crlf_Some in Ecr as (Hge & _ & _).
  destruct (parse_int _) as [e|len]; [done|]. cbn [mbind sum_bind].
  destruct (Z.ltb_spec len 0); [done|]. case_match eqn:E1; [done|]. case_match eqn:E2; [done|].
  intros [= <- <-]. simpl. apply Z.ltb_ge in E1.
  split_and!; [lia..|]. apply crlf_at_test; [lia|].
  apply orb_false_iff in E2 as [E2 E3]. apply negb_false_iff in E2, E3. by rewrite E2, E3.
Qed.

Lemma parse_bulks_bounds count buf cur args lo args' next :
  parse_bulks count buf cur args = inr (Some (args', next)) ->
  ranges lo args cur -> (cur <= length buf)%nat ->
  ranges lo args' next /\ (cur <= next <= length buf)%nat /\ length args' = (length args + count)%nat.
Proof.
  revert cur args. induction count as [|count IH]; intros cur args; simpl.
  { intros [= <- <-] ? ?. split_and!; [done|lia..]. }
  destruct (parse_bulk buf cur) as [e|[[a cur']|]] eqn:E; [done| |done]. cbn [mbind sum_bind].
  apply parse_bulk_bounds in E as (? & -> & ? & _). intros Hrun Hr Hc.
  apply IH in Hrun as (? & ? & ->); [|apply ranges_snoc; [eapply ranges_weaken; [done|lia..]|lia]|lia].
  rewrite length_app. simpl. split_and!; [done|lia..].
Qed.

Lemma skip_while_ge fuel p buf cr i : (i <= cr)%nat ->
  (i <= skip_while fuel p buf cr i <= cr)%nat.
Proof.
  revert i. induction fuel as [|fuel IH]; intros i Hi; simpl; [lia|].
  destruct (Nat.ltb_spec i cr); simpl; [|lia].
  destruct (p _); [|lia]. specialize (IH (i + 1)%nat ltac:(lia)). lia.
Qed.

Lemma inline_words_bounds fuel buf cr i args lo : ranges lo args i -> (i <= cr)%nat ->
  ranges lo (inline_words fuel buf cr i args) cr.
Proof.
  revert i args. induction fuel as [|fuel IH]; intros i args Hr Hi; simpl.
  { by eapply ranges_weaken. }
  destruct (Nat.leb_spec cr i); [by eapply ranges_weaken|].
  set (s := skip_while _ _ buf cr i). pose proof (skip_while_ge (cr - i) (fun c => c =? 32) buf cr i Hi) as Hsk.
  fold s in Hsk. destruct (Nat.leb_spec cr s); [by eapply ranges_weaken|].
  pose proof (skip_while_ge (cr - s) (fun c => negb (c =? 32)) buf cr s ltac:(lia)).
  apply IH; [|lia]. apply ranges_snoc; simpl; [|lia]. eapply ranges_weaken; [done|lia..].
Qed.

Lemma parse_command_bounds buf pos args next : parse_command buf pos = inr (Some (args, next)) ->
  (pos < next <= length buf)%nat /\ ranges pos args next.
Proof.
  unfold parse_command. destruct (Nat.leb_spec (length buf) pos); [done|].
  destruct (at_ buf pos =? 42).
  - unfold parse_array. destruct (find_crlf buf (pos + 1)) as [cr|] eqn:Ecr; [|done].
    apply find_crlf_Some in Ecr as (Hge & Hcr%crlf_at_lt & _).
    destruct (parse_int _) as [e|count]; [done|]. cbn [mbind sum_bind].
    destruct (count <? 0); [done|]. destruct (1024 * 1024 <? count); [done|].
    intros H1. apply (parse_bulks_bounds _ _ _ _ pos) in H1 as (? & ? & _); simpl; [|lia..].
    split; [lia|done].
  - unfold parse_inline. destruct (find_crlf buf pos) as [cr|] eqn:Ecr; [|done].
    apply find_crlf_Some in Ecr as (Hge & Hcr%crlf_at_lt & _). intros [= <- <-].
    split; [lia|]. eapply (ranges_weaken pos pos _ cr); [|lia..].
    apply inline_words_bounds; simpl; lia.
Qed.

(** The bytes consumed are all the parser needed. *)
Lemma find_crlf_trunc buf more pos i : find_crlf (buf ++ more) pos = Some i -> (i + 1 < length buf)%nat ->
  find_crlf buf pos = Some i.
Proof.
  rewrite !find_crlf_Some. intros (Hp & Hc & Hk) Hi. split_and!; [done|by apply (crlf_at_app buf more)|].
  intros k Hk'. specialize (Hk k Hk'). rewrite crlf_at_app in Hk by lia. done.
Qed.
Lemma parse_bulk_trunc buf more cur a n : parse_bulk (buf ++ more) cur = inr (Some (a, n)) -> (n <= length buf)%nat ->
  parse_bulk buf cur = inr (Some (a, n)).
Proof.
  intros E Hn. rewrite <- E. symmetry. apply parse_bulk_app. destruct (parse_bulk_bounds _ _ _ _ E) as (Ha & -> & _).
  revert E. unfold parse_bulk. rewrite length_app. destruct (Nat.leb_spec (length buf) cur); [lia|].
  destruct (Nat.leb_spec (length buf + length more) cur); [lia|]. rewrite at_app by done.
  destruct (negb _); [done|]. destruct (find_crlf (buf ++ more) _) as [cr|] eqn:Ec; [|done].
  destruct (parse_int _) as [e|len] eqn:Ei; [done|]. cbn [mbind sum_bind]. destruct (Z.ltb_spec len 0); [done|].
  destruct (Z.of_nat (length buf + length more) <? _); [done|]. destruct (negb (at_ (buf ++ more) _ =? CR) || _); [done|]. intros [= <-]. cbn [start end_] in *.
  rewrite (find_crlf_trunc buf more _ cr) by (done || lia). rewrite slice_app_l in Ei by lia. rewrite Ei. cbn [mbind sum_bind].
  destruct (Z.ltb_spec len 0); [lia|]. destruct (Z.ltb_spec (Z.of_nat (length buf)) (Z.of_nat (cr + 2) + len + 2)); [lia|].
  by destruct (_ || _).
Qed.
Lemma parse_bulks_next count buf cur args args' n : parse_bulks count buf cur args = inr (Some (args', n)) -> (cur <= n)%nat.
Proof.
  revert cur args. induction count as [|count IH]; intros cur args; simpl; [by intros [= _ <-]|].
  destruct (parse_bulk buf cur) as [e|[[a cur']|]] eqn:E; [done| |done]. cbn [mbind sum_bind]. intros H%IH.
  apply parse_bulk_bounds in E. lia.
Qed.
Lemma parse_bulks_trunc count buf more cur args args' n : parse_bulks count (buf ++ more) cur args = inr (Some (args', n)) ->
  (n <= length buf)%nat -> parse_bulks count buf cur args = inr (Some (args', n)).
Proof.
  revert cur args. induction count as [|count IH]; intros cur args; [done|]. cbn [parse_bulks]. intros E Hn.
  destruct (parse_bulk (buf ++ more) cur) as [e|[[a cur']|]] eqn:Eb; [done| |done]. cbn [mbind sum_bind] in E.
  pose proof (parse_bulks_next _ _ _ _ _ _ E). rewrite (parse_bulk_trunc _ _ _ _ _ Eb) by lia. by apply IH.
Qed.
Lemma parse_command_trunc buf more pos args n : parse_command (buf ++ more) pos = inr (Some (args, n)) -> (n <= length buf)%nat ->
  parse_command buf pos = inr (Some (args, n)).
Proof.
  intros E Hn. destruct (parse_command_bounds _ _ _ _ E) as [Hb _]. rewrite <- E. symmetry. apply parse_command_app.
  revert E. unfold parse_command. rewrite length_app. destruct (Nat.leb_spec (length buf) pos); [lia|].
  destruct (Nat.leb_spec (length buf + length more) pos); [lia|]. rewrite at_app by done. destruct (_ =? 42).
  - unfold parse_array. destruct (find_crlf (buf ++ more) _) as [cr|] eqn:Ec; [|done].
    destruct (parse_int _) as [e|count] eqn:Ei; [done|]. cbn [mbind sum_bind].
    destruct (count <? 0) eqn:E1; [done|]. destruct (1024 * 1024 <? count) eqn:E2; [done|]. intros E.
    pose proof (parse_bulks_next _ _ _ _ _ _ E). rewrite (find_crlf_trunc buf more _ cr) by (done || lia).
    rewrite slice_app_l in Ei by lia. rewrite Ei. cbn [mbind sum_bind]. rewrite E1, E2.
    by rewrite (parse_bulks_trunc _ _ _ _ _ _ _ E).
  - unfold parse_inline. destruct (find_crlf (buf ++ more) _) as [cr|] eqn:Ec; [|done]. intros [= _ <-].
    by rewrite (find_crlf_trunc buf more _ cr) by (done || lia).
Qed.

Lemma ranges_le lo args hi : ranges lo args hi -> (lo <= hi)%nat.
Proof. revert lo. induction args as [|a args IH]; intros lo; simpl; [done|]. intros [? ?%IH]. lia. Qed.
Lemma ranges_app buf more lo args hi : ranges lo args hi -> (hi <= length buf)%nat ->
  map (arg_bytes (buf ++ more)) args = map (arg_bytes buf) args.
Proof.
  intros Hr Hle. revert lo Hr. induction args as [|a args IH]; intros lo; simpl; [done|].
  intros [? Hr]. rewrite (IH _ Hr). f_equal. apply slice_app_l. apply ranges_le in Hr. lia.
Qed.
(** A command found is found in any longer buffer, with the same bytes. *)
Lemma parse_command_more buf more pos args next : parse_command buf pos = inr (Some (args, next)) ->
  parse_command (buf ++ more) pos = inr (Some (args, next)) /\
  slice pos next (buf ++ more) = slice pos next buf /\
  map (arg_bytes (buf ++ more)) args = map (arg_bytes buf) args.
Proof.
  intros E. destruct (parse_command_bounds _ _ _ _ E) as [Hn Hr]. split_and!.
  - rewrite parse_command_app; [done|by rewrite E].
  - apply slice_app_l. lia.
  - eapply ranges_app; [exact Hr|lia].
Qed.

(** C28. The parser is incremental: a complete command consumes at least one
    byte, its arguments are in-order ranges strictly inside the consumed bytes,
    and the answer, whether a command or an error, is the one it gives for any
    longer buffer.  So re-parsing once more bytes have arrived never changes
    what was already recognised. *)
Theorem parse_command_incremental buf more pos :
  match parse_command buf pos with
  | inr (Some (args, next)) =>
      (pos < next <= length buf)%nat /\ ranges pos args next /\
      parse_command (buf ++ more) pos = inr (Some (args, next)) /\
      map (arg_bytes (buf ++ more)) args = map (arg_bytes buf) args
  | inr None => True
  | inl e => parse_command (buf ++ more) pos = inl e
  end.
Proof.
  pose proof (parse_command_app buf more pos) as Happ.
  destruct (parse_command buf pos) as [e|[[args next]|]] eqn:E; [by apply Happ| |done].
  destruct (parse_command_bounds _ _ _ _ E) as [Hn Hr]. destruct (parse_command_more _ more _ _ _ E) as (? & _ & ?).
  by split_and!; [lia..| | |].
Qed.

(** ** Round trip: what the writers emit, the parser reads *)

Lemma decimal_no_cr v s : decimal v s -> Forall (fun c => c <> CR) s.
Proof.
  intros (ds & -> & Hd & _). apply Forall_app.
  split; [by destruct (v <? 0); repeat constructor|]. eapply Forall_impl; [exact Hd|].
  intros c Hc%is_ascii_digit_spec ->. unfold CR in Hc. lia.
Qed.

Lemma length_text n : Z.of_nat n <= i64_max ->
  exists s, (forall out, write_i64_digits out (wrap_i64 (Z.of_nat n)) = out ++ s) /\
    Forall (fun c => c <> CR) s /\ parse_int s = inr (Z.of_nat n).
Proof.
  intros Hn. assert (Hv : is_i64 (Z.of_nat n)) by (unfold is_i64, i64_min, i64_max in *; lia).
  rewrite wrap_i64_id by done. destruct (I64Buf_fmt_spec _ Hv) as (s & Hs & Hd & _).
  exists s. split_and!; [intros out; unfold write_i64_digits; by rewrite Hs|by eapply decimal_no_cr|].
  apply parse_int_decimal; [done|unfold i64_min; lia|done].
Qed.

Lemma crlf_at_middle a b rest : crlf_at (a ++ b ++ crlf ++ rest) (length a + length b).
Proof.
  rewrite app_assoc, <- length_app. generalize (a ++ b). intros l. unfold crlf_at. split.
  - by rewrite lookup_app_r, Nat.sub_diag by lia.
  - rewrite lookup_app_r by lia. by replace (length l + 1 - length l)%nat with 1%nat by lia.
Qed.

(** A line [c text CRLF] in the middle of a buffer. *)
Lemma find_crlf_text pre c s rest : Forall (fun c => c <> CR) s ->
  let buf := pre ++ (c :: s) ++ crlf ++ rest in
  find_crlf buf (length pre + 1) = Some (length pre + 1 + length s)%nat /\
  slice (length pre + 1) (length pre + 1 + length s) buf = s /\ at_ buf (length pre) = c.
Proof.
  intros Hs buf. assert (E : buf = (pre ++ [c]) ++ s ++ crlf ++ rest)
    by (unfold buf; by rewrite <- !app_assoc).
  assert (Hl : (length pre + 1)%nat = length (pre ++ [c])) by (rewrite length_app; done).
  split_and!.
  - apply find_crlf_Some. split_and!; [lia| |].
    + rewrite E, Hl. apply crlf_at_middle.
    + intros k Hk [Hcr _]. rewrite Hl in Hk. rewrite E, lookup_app_r, lookup_app_l in Hcr by lia.
      apply list_elem_of_lookup_2 in Hcr. rewrite Forall_forall in Hs. by apply (Hs _ Hcr).
  - rewrite E, Hl. apply slice_app_middle.
  - unfold buf, at_. rewrite lookup_app_r, Nat.sub_diag by lia. done.
Qed.

#[local] Arguments write_bulk : simpl never.

Lemma write_bulk_app out d : write_bulk out d = out ++ write_bulk [] d.
Proof. unfold write_bulk, write_bulk_header, write_i64_digits. by rewrite <- !app_assoc. Qed.

Lemma foldl_write_bulk out ds : foldl write_bulk out ds = out ++ foldl write_bulk [] ds.
Proof.
  revert out. induction ds as [|d ds IH]; intros out; simpl; [by rewrite app_nil_r|].
  rewrite IH, (IH (write_bulk [] d)), write_bulk_app. by rewrite <- app_assoc.
Qed.

Lemma parse_bulk_write pre d rest : Z.of_nat (length d) <= i64_max ->
  let buf := pre ++ write_bulk [] d ++ rest in
  let next := (length pre + length (write_bulk [] d))%nat in
  exists a, parse_bulk buf (length pre) = inr (Some (a, next)) /\ arg_bytes buf a = d.
Proof.
  intros Hd buf next. destruct (length_text _ Hd) as (s & Hw & Hs & Hp).
  assert (E : write_bulk [] d = (36 :: s) ++ crlf ++ d ++ crlf).
  { unfold write_bulk, write_bulk_header. rewrite Hw. by rewrite <- !app_assoc. }
  set (st := (length pre + 1 + length s + 2)%nat).
  assert (En : next = (st + length d + 2)%nat).
  { unfold next, st. rewrite E, !length_app. simpl. lia. }
  assert (Eb : buf = pre ++ (36 :: s) ++ crlf ++ (d ++ crlf ++ rest)).
  { unfold buf. rewrite E. by rewrite <- !app_assoc. }
  assert (Eb2 : buf = (pre ++ (36 :: s) ++ crlf) ++ d ++ (crlf ++ rest)).
  { rewrite Eb. by rewrite <- !app_assoc. }
  assert (Hst : length (pre ++ (36 :: s) ++ crlf) = st).
  { rewrite !length_app. simpl. unfold st. lia. }
  assert (Hlen : length buf = (next + length rest)%nat).
  { unfold buf, next. rewrite !length_app. lia. }
  destruct (find_crlf_text pre 36 s (d ++ crlf ++ rest) Hs) as (Hf & Hsl & Hc).
  rewrite <- Eb in Hf, Hsl, Hc. exists (Arg st (st + length d)).
  split; [|unfold arg_bytes; simpl; rewrite Eb2, <- Hst; apply slice_app_middle].
  unfold parse_bulk. destruct (Nat.leb_spec (length buf) (length pre)); [lia|].
  rewrite Hc. change (negb (36 =? 36)) with false. cbv iota. rewrite Hf, Hsl, Hp.
  cbn [mbind sum_bind]. fold st. destruct (Z.ltb_spec (Z.of_nat (length d)) 0); [lia|].
  destruct (Z.ltb_spec (Z.of_nat (length buf)) (Z.of_nat st + Z.of_nat (length d) + 2)); [lia|].
  rewrite Nat2Z.id.
  assert (Hcl : crlf_at buf (st + length d)).
  { rewrite Eb2, <- Hst. apply crlf_at_middle. }
  apply crlf_at_test in Hcl; [|lia]. rewrite <- negb_andb, Hcl. simpl. by rewrite En.
Qed.

#[local] Opaque write_bulk.

Lemma parse_bulks_write ds pre args rest : Forall (fun d => Z.of_nat (length d) <= i64_max) ds ->
  let buf := pre ++ foldl write_bulk [] ds ++ rest in
  exists new, parse_bulks (length ds) buf (length pre) args =
      inr (Some (args ++ new, (length pre + length (foldl write_bulk [] ds))%nat)) /\
    map (arg_bytes buf) new = ds.
Proof.
  intros Hds. revert pre args. induction Hds as [|d ds Hd Hds IH]; intros pre args buf; simpl.
  { exists []. rewrite app_nil_r. split; [f_equal; do 2 f_equal; lia|done]. }
  assert (Eb : buf = pre ++ write_bulk [] d ++ (foldl write_bulk [] ds ++ rest)).
  { unfold buf. simpl. by rewrite (foldl_write_bulk (write_bulk [] d)), <- !app_assoc. }
  destruct (parse_bulk_write pre d (foldl write_bulk [] ds ++ rest) Hd) as (a & Ha & Hb).
  rewrite <- Eb in Ha, Hb. rewrite Ha. cbn [mbind sum_bind].
  destruct (IH (pre ++ write_bulk [] d) (args ++ [a])) as (new & Hn & Hm).
  rewrite <- !app_assoc, <- Eb, length_app in Hn. rewrite <- !app_assoc, <- Eb in Hm.
  exists (a :: new). rewrite Hn, (foldl_write_bulk (write_bulk [] d)), length_app.
  rewrite Nat.add_assoc. split; [done|]. simpl. by rewrite Hb, Hm.
Qed.

Lemma encode_parses pre args rest :
  Z.of_nat (length args) <= 1024 * 1024 -> Forall (fun d => Z.of_nat (length d) <= i64_max) args ->
  exists slices, parse_command (pre ++ encode_command args ++ rest) (length pre) =
      inr (Some (slices, (length pre + length (encode_command args))%nat)) /\
    map (arg_bytes (pre ++ encode_command args ++ rest)) slices = args.
Proof.
  intros Hn Hds. destruct (length_text (length args)) as (s & Hw & Hs & Hp).
  { unfold i64_max. lia. }
  assert (E : encode_command args = ((42 :: s) ++ crlf) ++ foldl write_bulk [] args).
  { unfold encode_command. rewrite foldl_write_bulk. unfold write_array_header. by rewrite Hw. }
  set (body := foldl write_bulk [] args) in *.
  assert (Eb : pre ++ encode_command args ++ rest = pre ++ (42 :: s) ++ crlf ++ (body ++ rest)).
  { rewrite E. by rewrite <- !app_assoc. }
  destruct (find_crlf_text pre 42 s (body ++ rest) Hs) as (Hf & Hsl & Hc).
  destruct (parse_bulks_write args (pre ++ (42 :: s) ++ crlf) [] rest Hds) as (new & Hb & Hm).
  fold body in Hb, Hm. rewrite <- !app_assoc in Hb, Hm. rewrite Eb.
  set (buf := pre ++ (42 :: s) ++ crlf ++ body ++ rest) in *.
  exists new. split; [|exact Hm]. unfold parse_command.
  assert (Hlt : (length pre < length buf)%nat) by (unfold buf; rewrite !length_app; simpl; lia).
  destruct (Nat.leb_spec (length buf) (length pre)); [lia|]. rewrite Hc.
  change (42 =? 42) with true. cbv iota. unfold parse_array. rewrite Hf, Hsl, Hp.
  cbn [mbind sum_bind]. destruct (Z.ltb_spec (Z.of_nat (length args)) 0); [lia|].
  destruct (Z.ltb_spec (1024 * 1024) (Z.of_nat (length args))); [lia|]. rewrite Nat2Z.id.
  assert (El : length (pre ++ (42 :: s) ++ crlf) = (length pre + 1 + length s + 2)%nat)
    by (rewrite !length_app; simpl; lia).
  rewrite El in Hb. rewrite Hb, E, !length_app. simpl. do 3 f_equal. lia.
Qed.

(** C29. Anywhere in a stream, the RESP encoding of a command (what a client
    sends, and what [write_array_header] and [write_bulk] produce) parses back
    to exactly its arguments, whatever bytes they contain, and the parser stops
    exactly at its end. *)
Theorem encode_parse_roundtrip pre args rest :
  Z.of_nat (length args) <= 1024 * 1024 -> Forall (fun d => Z.of_nat (length d) <= i64_max) args ->
  exists slices, parse_command (pre ++ encode_command args ++ rest) (length pre) =
      inr (Some (slices, (length pre + length (encode_command args))%nat)) /\
    map (arg_bytes (pre ++ encode_command args ++ rest)) slices = args.
Proof. apply encode_parses. Qed.

Lemma encode_parse_roundtrip_witness :
  exists slices, parse_command (encode_command [bs "SET"; bs "k"; crlf ++ [0; 255]] ++ bs "*1") 0 =
    inr (Some (slices, 30%nat)).
Proof.
  destruct (encode_parse_roundtrip [] [bs "SET"; bs "k"; crlf ++ [0; 255]] (bs "*1"))
    as (slices & H & _); [simpl; lia|repeat constructor; done|].
  exists slices. exact H.
Defined.
