(* ===== verification/Session.v ===== *)
(** * The callback interface of the store ([crates/tsavorite/src/store.rs])

    The narrow waist between the store and the application: what a read,
    upsert, RMW or delete asks of the application ([trait SessionFunctions]).
    The state a callback mutates, its [&mut self] and its output, is one type
    [Out]; a callback that can index out of bounds returns [option], [None]
    being a panic.  Records are the structured cells of [Record]. *)

From S2P Require Import Prelude Record.

Inductive Status :=
  | NotFound | Found | Created | InPlaceUpdated | CopyUpdated | Deleted | Canceled | Error.
Global Instance Status_eq_dec : EqDecision Status.
Proof. solve_decision. Defined.

Definition is_updated (s : Status) : bool :=
  match s with Created | InPlaceUpdated | CopyUpdated | Deleted => true | _ => false end.

Inductive InPlaceResult := Updated | NeedCopy | Expired | Cancel | DeleteNow.
Inductive CopyDecision := Copy | CancelCopy | DeleteCopy.
Global Instance InPlaceResult_eq_dec : EqDecision InPlaceResult.
Proof. solve_decision. Defined.
Global Instance CopyDecision_eq_dec : EqDecision CopyDecision.
Proof. solve_decision. Defined.

Class SessionFunctions (Input Out : Type) := {
  reader : bytes -> Input -> cell -> Out -> option (bool * Out);
  upsert_size : bytes -> Input -> RecordSizeInfo;
  initial_writer : bytes -> Input -> cell -> Out -> option (cell * Out);
  post_initial_writer : bytes -> Input -> cell -> Out -> cell * Out;
  in_place_writer : bytes -> Input -> cell -> Out -> option (bool * cell * Out);
  need_initial_update : bytes -> Input -> Out -> bool * Out;
  initial_size : bytes -> Input -> RecordSizeInfo;
  initial_updater : bytes -> Input -> cell -> Out -> option (cell * Out);
  post_initial_updater : bytes -> Input -> cell -> Out -> cell * Out;
  in_place_updater : bytes -> Input -> cell -> Out -> option (InPlaceResult * cell * Out);
  need_copy_update : bytes -> Input -> cell -> Out -> CopyDecision * Out;
  copy_size : bytes -> Input -> cell -> RecordSizeInfo;
  (** the old record, then the new one *)
  copy_updater : bytes -> Input -> cell -> cell -> Out -> option (cell * Out);
  post_copy_updater : bytes -> Input -> cell -> Out -> cell * Out;
  post_deleter : bytes -> Out -> Out }.

(** The trait's empty default bodies of the [post_*] callbacks. *)
Definition post_default {Input Out} (_ : bytes) (_ : Input) (rec : cell) (out : Out) : cell * Out :=
  (rec, out).

(** ** What the store relies on

    A callback keeps the record's header word, key and capacity (they belong to
    the store), keeps the representation well formed, and does not panic on a
    record of the size it asked for. *)
Definition frame (c c' : cell) : Prop :=
  c_info c' = c_info c /\ c_key c' = c_key c /\ c_cap c' = c_cap c /\ c_has_slot c' = c_has_slot c.

Global Instance frame_preorder : PreOrder frame.
Proof.
  split; [by intros c|]. intros a b c (?&?&?&?) (?&?&?&?). unfold frame. split_and!; congruence.
Qed.

(** A cell allocated for [size] under key [k]. *)
Definition sized (size : RecordSizeInfo) (k : bytes) (c : cell) : Prop :=
  c_key c = k /\ c_cap c = value_cap_of size /\ c_has_slot c = has_expiration_of size /\ cell_ok c.

Lemma c_init_sized prev in_new size k : key_len_of size = length k -> size_ok size ->
  sized size k (c_init prev in_new size k).
Proof.
  intros Hk Hs. unfold sized. split_and!; [done| | |by apply c_init_ok].
  - unfold c_cap. simpl. by rewrite length_replicate.
  - unfold c_has_slot. simpl. by destruct (has_expiration_of size).
Qed.

Class LawfulFunctions {Input Out} (F : SessionFunctions Input Out) (input_ok : Input -> Prop) := {
  upsert_key : forall k i, key_len_of (upsert_size k i) = length k;
  initial_key : forall k i, key_len_of (initial_size k i) = length k;
  copy_key : forall k i old, key_len_of (copy_size k i old) = length k;
  reader_total : forall k i c o, input_ok i -> cell_ok c -> is_Some (reader k i c o);
  writer_total : forall k i c o, input_ok i -> sized (upsert_size k i) k c ->
    exists c' o', initial_writer k i c o = Some (c', o') /\ frame c c' /\ cell_ok c';
  in_place_writer_total : forall k i c o, input_ok i -> cell_ok c ->
    exists b c' o', in_place_writer k i c o = Some (b, c', o') /\ frame c c' /\ cell_ok c';
  updater_total : forall k i c o, input_ok i -> sized (initial_size k i) k c ->
    exists c' o', initial_updater k i c o = Some (c', o') /\ frame c c' /\ cell_ok c';
  in_place_updater_total : forall k i c o, input_ok i -> cell_ok c ->
    exists r c' o', in_place_updater k i c o = Some (r, c', o') /\ frame c c' /\ cell_ok c';
  copy_updater_total : forall k i old c o o1, input_ok i -> cell_ok old ->
    need_copy_update k i old o = (Copy, o1) -> sized (copy_size k i old) k c ->
    exists c' o', copy_updater k i old c o1 = Some (c', o') /\ frame c c' /\ cell_ok c';
  post_frames : forall k i c o, cell_ok c ->
    let ok c' := frame c c' /\ cell_ok c' in
    ok (fst (post_initial_writer k i c o)) /\ ok (fst (post_initial_updater k i c o)) /\
    ok (fst (post_copy_updater k i c o)) }.
