(* ===== verification/Functions.v ===== *)
(** * The string data type ([crates/garnet/src/functions.rs])

    What each RESP string command does to a record, as the callbacks of
    [Session]: values, lazy expiration, sizes, the in-place and the copy path. *)

From S2P Require Import Prelude Record Resp Session.

Inductive StringOp :=
  | Get | GetRange (start_ end_ : Z) | Strlen | Ttl (ms : bool)
  | Set_ | SetKeepTtl | SetNx | SetXx | SetGet (keep_ttl : bool)
  | IncrBy | Append | SetRange (offset : nat) | GetDel | GetEx | Exists | Expire | Persist.
Global Instance StringOp_eq_dec : EqDecision StringOp.
Proof. solve_decision. Defined.

Record StringInput := Input {
  op : StringOp; operand : bytes; delta : Z; in_expiration : Z; now_ms : Z }.
Definition input_simple (op : StringOp) (operand : bytes) (now : Z) : StringInput :=
  Input op operand 0 0 now.
Definition input_read (op : StringOp) (now : Z) : StringInput := input_simple op [] now.

Record StringOutput := Output { o_bytes : bytes; has_bytes : bool; int : Z; has_int : bool }.
Definition output_default : StringOutput := Output [] false 0 false.
Definition set_bytes (o : StringOutput) (b : bytes) : StringOutput := Output b true (int o) (has_int o).
Definition set_int (o : StringOutput) (v : Z) : StringOutput := Output (o_bytes o) (has_bytes o) v true.
Definition set_has_bytes (o : StringOutput) (b : bool) : StringOutput :=
  Output (o_bytes o) b (int o) (has_int o).

Definition expired (rec : cell) (now : Z) : bool :=
  c_has_slot rec && negb (c_expiration rec =? 0) && (c_expiration rec <=? now).

(** GETRANGE bounds as [start, end) offsets. *)
Definition range_bounds (start_ end_ : Z) (len : nat) : nat * nat :=
  let len := Z.of_nat len in
  let norm i := if i <? 0 then Z.max (len + i) 0 else Z.min i len in
  let s := norm start_ in
  let e := if end_ <? 0 then len + end_ else Z.min end_ (len - 1) in
  if (len =? 0) || (e <? s) || (len <=? s) then (0%nat, 0%nat)
  else (Z.to_nat s, Z.to_nat (Z.min (e + 1) len)).

(** [value_buf_mut()[off..off + len].copy_from_slice(v)]; out of range panics. *)
Definition buf_write (c : cell) (off : nat) (v : bytes) : option cell :=
  if (off + length v <=? c_cap c)%nat then Some (c_write_buf c off v) else None.
(** [value_buf_mut()[s..e].fill(0)]. *)
Definition buf_zero (c : cell) (s e : nat) : option cell :=
  if (s <=? e)%nat then buf_write c s (replicate (e - s) 0) else None.
Definition write_val (c : cell) (v : bytes) : option cell :=
  c ← buf_write c 0 v; Some (c_set_value_len c (length v)).

(** [set_expiration(ts)] when the result is dropped. *)
Definition put_expiration (c : cell) (ts : Z) : cell := snd (c_set_expiration c ts).

(** ** Read *)

Definition str_reader (k : bytes) (i : StringInput) (rec : cell) (out : StringOutput)
    : option (bool * StringOutput) :=
  if expired rec (now_ms i) then Some (false, out) else
  match op i with
  | GetRange s e =>
      let '(s, e) := range_bounds s e (c_vlen rec) in
      if (s <=? e)%nat && (e <=? length (c_value rec))%nat
      then Some (true, set_bytes out (slice s e (c_value rec))) else None
  | Exists => Some (true, out)
  | Strlen => Some (true, set_int out (Z.of_nat (c_vlen rec)))
  | Ttl ms =>
      let v := if negb (c_has_slot rec) || (c_expiration rec =? 0) then -1 else
               let rem := Z.max (wrap_i64 (c_expiration rec - now_ms i)) 0 in
               if ms : bool then rem else Z.quot (wrap_i64 (rem + 999)) 1000 in
      Some (true, set_int out v)
  | _ => Some (true, set_bytes out (c_value rec))
  end.

(** ** Upsert *)

Definition str_upsert_size (k : bytes) (i : StringInput) : RecordSizeInfo :=
  SizeInfo (length k) (length (operand i)) (negb (in_expiration i =? 0)).

Definition str_initial_writer (k : bytes) (i : StringInput) (rec : cell) (out : StringOutput)
    : option (cell * StringOutput) :=
  rec ← write_val rec (operand i);
  Some (if negb (in_expiration i =? 0) then put_expiration rec (in_expiration i) else rec, out).

Definition str_in_place_writer (k : bytes) (i : StringInput) (rec : cell) (out : StringOutput)
    : option (bool * cell * StringOutput) :=
  let v := operand i in
  if (c_cap rec <? length v)%nat then Some (false, rec, out) else
  if c_has_slot rec then
    let rec := put_expiration rec (in_expiration i) in
    rec ← write_val rec v; Some (true, rec, out)
  else if negb (in_expiration i =? 0) then Some (false, rec, out)
  else rec ← write_val rec v; Some (true, rec, out).

(** ** RMW: the key is absent *)

Definition str_need_initial_update (k : bytes) (i : StringInput) (out : StringOutput)
    : bool * StringOutput :=
  (match op i with SetXx | GetDel | GetEx | Expire | Persist => false | _ => true end, out).

Definition str_initial_size (k : bytes) (i : StringInput) : RecordSizeInfo :=
  let cap := match op i with
             | IncrBy => i64_digit_len (delta i)
             | SetRange offset => (offset + length (operand i))%nat
             | _ => length (operand i)
             end in
  SizeInfo (length k) cap (negb (in_expiration i =? 0)).

Definition str_initial_write (i : StringInput) (rec : cell) (out : StringOutput)
    : option (cell * StringOutput) :=
  match op i with
  | IncrBy =>
      s ← I64Buf_fmt (delta i);
      rec ← write_val rec s; Some (rec, set_int out (delta i))
  | SetRange offset =>
      let v := operand i in
      rec ← buf_zero rec 0 offset;
      rec ← buf_write rec offset v;
      let n := (offset + length v)%nat in
      Some (c_set_value_len rec n, set_int out (Z.of_nat n))
  | Append =>
      let v := operand i in
      rec ← write_val rec v; Some (rec, set_int out (Z.of_nat (length v)))
  | SetGet _ =>
      rec ← write_val rec (operand i); Some (rec, set_has_bytes out false)
  | _ => rec ← write_val rec (operand i); Some (rec, out)
  end.
Definition str_initial_updater (k : bytes) (i : StringInput) (rec : cell) (out : StringOutput)
    : option (cell * StringOutput) :=
  '(rec, out) ← str_initial_write i rec out;
  Some (if negb (in_expiration i =? 0) then put_expiration rec (in_expiration i) else rec, out).

(** ** RMW in place *)

Definition apply_ttl_in_place (rec : cell) (i : StringInput) : bool * cell :=
  match op i with
  | SetKeepTtl | SetGet true => (true, rec)
  | Set_ | SetXx | SetGet false | GetEx =>
      if negb (in_expiration i =? 0) then c_set_expiration rec (in_expiration i)
      else if c_has_slot rec then c_set_expiration rec 0
      else (true, rec)
  | _ => if negb (in_expiration i =? 0) then c_set_expiration rec (in_expiration i) else (true, rec)
  end.

Definition is_set_get (o : StringOp) : bool := match o with SetGet _ => true | _ => false end.

Definition str_in_place_updater (k : bytes) (i : StringInput) (rec : cell) (out : StringOutput)
    : option (InPlaceResult * cell * StringOutput) :=
  if expired rec (now_ms i) then Some (Expired, rec, out) else
  match op i with
  | SetNx => Some (Cancel, rec, out)
  | SetXx | Set_ | SetKeepTtl | SetGet _ =>
      let v := operand i in
      if (c_cap rec <? length v)%nat then Some (NeedCopy, rec, out) else
      let out := if is_set_get (op i) then set_bytes out (c_value rec) else out in
      let '(ok, rec) := apply_ttl_in_place rec i in
      if negb ok then Some (NeedCopy, rec, out) else
      rec ← write_val rec v; Some (Updated, rec, out)
  | IncrBy =>
      match (cur ← parse_i64 (c_value rec); checked_i64 (cur + delta i)) with
      | None => Some (Cancel, rec, set_int out i64_min)
      | Some n =>
          s ← I64Buf_fmt n;
          if (c_cap rec <? length s)%nat then Some (NeedCopy, rec, out) else
          rec ← write_val rec s; Some (Updated, rec, set_int out n)
      end
  | Append =>
      let v := operand i in
      let n := (c_vlen rec + length v)%nat in
      if (c_cap rec <? n)%nat then Some (NeedCopy, rec, out) else
      rec ← buf_write rec (c_vlen rec) v;
      Some (Updated, c_set_value_len rec n, set_int out (Z.of_nat n))
  | SetRange offset =>
      let v := operand i in
      let n := Nat.max (offset + length v) (c_vlen rec) in
      if (c_cap rec <? n)%nat then Some (NeedCopy, rec, out) else
      let old_len := c_vlen rec in
      rec ← (if (old_len <? offset)%nat then buf_zero rec old_len offset else Some rec);
      rec ← buf_write rec offset v;
      Some (Updated, c_set_value_len rec n, set_int out (Z.of_nat n))
  | GetDel => Some (DeleteNow, rec, set_bytes out (c_value rec))
  | GetEx =>
      let out := set_bytes out (c_value rec) in
      let '(ok, rec) := apply_ttl_in_place rec i in
      Some (if ok : bool then Updated else NeedCopy, rec, out)
  | Expire =>
      if c_has_slot rec then Some (Updated, put_expiration rec (in_expiration i), set_int out 1)
      else Some (NeedCopy, rec, out)
  | Persist =>
      if c_has_slot rec && negb (c_expiration rec =? 0)
      then Some (Updated, put_expiration rec 0, set_int out 1)
      else Some (Cancel, rec, set_int out 0)
  | _ => Some (NeedCopy, rec, out)
  end.

(** ** RMW by copy *)

Definition str_need_copy_update (k : bytes) (i : StringInput) (old : cell) (out : StringOutput)
    : CopyDecision * StringOutput :=
  if expired old (now_ms i) then
    (match op i with
     | Set_ | SetKeepTtl | SetNx | IncrBy | Append | SetRange _ | GetEx => Copy
     | _ => CancelCopy
     end, out)
  else match op i with
  | SetNx => (CancelCopy, out)
  | IncrBy =>
      match (cur ← parse_i64 (c_value old); checked_i64 (cur + delta i)) with
      | Some _ => (Copy, out)
      | None => (CancelCopy, out)
      end
  | GetDel => (DeleteCopy, set_bytes out (c_value old))
  | Expire => (Copy, set_int out 1)
  | _ => (Copy, out)
  end.

Definition old_val (old : cell) (i : StringInput) : bytes :=
  if expired old (now_ms i) then [] else c_value old.
Definition incr_source (old : cell) (i : StringInput) : Z :=
  if expired old (now_ms i) then 0 else default 0 (parse_i64 (old_val old i)).
Definition has_ttl (old : cell) : bool := c_has_slot old && negb (c_expiration old =? 0).

Definition str_copy_size (k : bytes) (i : StringInput) (old : cell) : RecordSizeInfo :=
  let old_val := old_val old i in
  let cap := match op i with
             | IncrBy => i64_digit_len (wrap_i64 (incr_source old i + delta i))
             | Append => (length old_val + length (operand i))%nat
             | SetRange offset => Nat.max (offset + length (operand i)) (length old_val)
             | GetEx | Expire | Persist => length old_val
             | _ => length (operand i)
             end in
  let has_exp := match op i with
                 | Persist => false
                 | Set_ => negb (in_expiration i =? 0)
                 | _ => negb (in_expiration i =? 0) || has_ttl old
                 end in
  SizeInfo (length k) cap has_exp.

(** The [match] on the command: the new value and the reply. *)
Definition str_copy_write (i : StringInput) (old new : cell) (out : StringOutput)
    : option (cell * StringOutput) :=
  let old_val := old_val old i in
  match op i with
  | IncrBy =>
      let n := wrap_i64 (incr_source old i + delta i) in
      s ← I64Buf_fmt n;
      new ← write_val new s; Some (new, set_int out n)
  | Append =>
      let appended := operand i in
      let new_len := (length old_val + length appended)%nat in
      new ← buf_write new 0 old_val;
      new ← buf_write new (length old_val) appended;
      Some (c_set_value_len new new_len, set_int out (Z.of_nat new_len))
  | SetRange offset =>
      let v := operand i in
      let n := Nat.max (offset + length v) (length old_val) in
      new ← buf_zero new 0 n;
      new ← buf_write new 0 old_val;
      new ← buf_write new offset v;
      Some (c_set_value_len new n, set_int out (Z.of_nat n))
  | SetGet _ => new ← write_val new (operand i); Some (new, set_bytes out old_val)
  | GetEx => new ← write_val new old_val; Some (new, set_bytes out old_val)
  | Expire => new ← write_val new old_val; Some (new, out)
  | Persist => new ← write_val new old_val; Some (new, set_int out 1)
  | _ => new ← write_val new (operand i); Some (new, out)
  end.

Definition str_copy_updater (k : bytes) (i : StringInput) (old new : cell) (out : StringOutput)
    : option (cell * StringOutput) :=
  let old_expired := expired old (now_ms i) in
  let carry_ttl := has_ttl old && negb old_expired in
  '(new, out) ← str_copy_write i old new out;
  if c_has_slot new then
    let exp := match op i with
               | Set_ | Expire | GetEx => in_expiration i
               | Persist => 0
               | _ => if negb (in_expiration i =? 0) then in_expiration i
                      else if carry_ttl then c_expiration old else 0
               end in
    Some (put_expiration new exp, out)
  else Some (new, out).

#[export] Instance StringFunctions : SessionFunctions StringInput StringOutput := {
  reader := str_reader;
  upsert_size := str_upsert_size;
  initial_writer := str_initial_writer;
  post_initial_writer := post_default;
  in_place_writer := str_in_place_writer;
  need_initial_update := str_need_initial_update;
  initial_size := str_initial_size;
  initial_updater := str_initial_updater;
  post_initial_updater := post_default;
  in_place_updater := str_in_place_updater;
  need_copy_update := str_need_copy_update;
  copy_size := str_copy_size;
  copy_updater := str_copy_updater;
  post_copy_updater := post_default;
  post_deleter := fun _ out => out }.
