(* ===== verification/FunctionsSpec.v ===== *)
(** * What the string callbacks compute

    The abstract effect of each command on a key's value and expiration, and
    that the in-place path and the copy path both implement it, without
    panicking and with records of exactly the size they asked for. *)

From S2P Require Import Prelude Record Resp RespSpec Session Functions.

(** ** Writing into a record's value buffer *)

Lemma length_c_value c : (c_vlen c <= c_cap c)%nat -> length (c_value c) = c_vlen c.
Proof. unfold c_value, c_cap. rewrite length_take. lia. Qed.

Lemma ok_vlen c : cell_ok c -> (c_vlen c <= c_cap c)%nat.
Proof. by intros (_ & _ & _ & ? & _). Qed.

Lemma buf_write_spec c off v : (off + length v <= c_cap c)%nat ->
  buf_write c off v = Some (c_write_buf c off v) /\ frame c (c_write_buf c off v) /\
  c_slot (c_write_buf c off v) = c_slot c /\ c_vlen (c_write_buf c off v) = c_vlen c.
Proof.
  intros H. unfold buf_write. destruct (Nat.leb_spec (off + length v) (c_cap c)); [|lia].
  split_and!; try done. unfold frame, c_cap, c_has_slot in *. simpl.
  by rewrite length_splice.
Qed.

Lemma frame_set_value_len c c' n : frame c c' -> frame c (c_set_value_len c' n).
Proof. by intros. Qed.

Lemma ok_resize c c' n : frame c c' -> cell_ok c -> c_slot c' = c_slot c -> (n <= c_cap c)%nat ->
  cell_ok (c_set_value_len c' n).
Proof.
  intros (Ei & Ek & Ec & _) (H1 & H2 & H3 & H4 & H5) Es Hn. unfold cell_ok, c_set_value_len, c_cap in *.
  simpl. rewrite Ei, Ek, Es, Ec. split_and!; try done.
Qed.

(** A callback's record after writing value [v]: everything else is framed. *)
Definition written (c : cell) (v : bytes) (c' : cell) : Prop :=
  c_value c' = v /\ c_vlen c' = length v /\ c_slot c' = c_slot c /\ frame c c' /\ cell_ok c'.

Lemma write_val_spec c v : cell_ok c -> (length v <= c_cap c)%nat ->
  exists c', write_val c v = Some c' /\ written c v c'.
Proof.
  intros Hok Hv. unfold write_val.
  destruct (buf_write_spec c 0 v) as (-> & Hf & Hs & _); [lia|]. simpl.
  eexists. split; [done|]. unfold written. split_and!; try done.
  - unfold c_value. simpl. unfold splice. simpl. by rewrite take_app_length.
  - by eapply ok_resize.
Qed.

Lemma write_val_None c v : (c_cap c < length v)%nat -> write_val c v = None.
Proof.
  intros. unfold write_val, buf_write. destruct (Nat.leb_spec (0 + length v) (c_cap c)); [lia|done].
Qed.

Lemma append_spec c v : cell_ok c -> (c_vlen c + length v <= c_cap c)%nat ->
  exists c', buf_write c (c_vlen c) v = Some c' /\
    written c (c_value c ++ v) (c_set_value_len c' (c_vlen c + length v)).
Proof.
  intros Hok Hn. destruct (buf_write_spec c (c_vlen c) v Hn) as (E & Hf & Hs & _).
  eexists. split; [exact E|]. pose proof (length_c_value c (ok_vlen _ Hok)) as Hl.
  unfold written. rewrite length_app, Hl. split_and!; try done.
  - unfold c_value at 1. simpl. unfold splice. fold (c_value c).
    rewrite app_assoc, take_app_le by (rewrite length_app; lia).
    rewrite take_ge; [done|]. rewrite length_app. lia.
  - by eapply ok_resize.
Qed.

(** SETRANGE: zero padding up to the offset, then the new bytes over the old. *)
Definition setrange (off : nat) (w v : bytes) : bytes :=
  take off (v ++ replicate (off - length v) 0) ++ w ++ drop (off + length w) v.

Lemma length_setrange off w v : length (setrange off w v) = Nat.max (off + length w) (length v).
Proof.
  unfold setrange. rewrite !length_app, length_take, length_drop, length_app, length_replicate. lia.
Qed.

Lemma setrange_splice off w v b : (Nat.max (off + length w) (length v) <= length b)%nat ->
  take (length v) b = v ->
  (forall j, (length v <= j < off)%nat -> b !! j = Some 0) ->
  take (Nat.max (off + length w) (length v)) (splice off w b) = setrange off w v.
Proof.
  intros Hb Hv Hz. apply list_eq. intros j.
  destruct (decide (j < Nat.max (off + length w) (length v))%nat) as [Hj|Hj].
  2: { rewrite lookup_take_ge, lookup_ge_None_2; [done|rewrite length_setrange; lia|lia]. }
  rewrite lookup_take_lt by done.
  assert (Hbv : forall k, (k < length v)%nat -> b !! k = v !! k).
  { intros k Hk. rewrite <- Hv. by rewrite lookup_take_lt. }
  unfold setrange. set (p := take off (v ++ replicate (off - length v) 0)).
  assert (Hp : length p = off).
  { unfold p. rewrite length_take, length_app, length_replicate. lia. }
  destruct (decide (j < off)%nat) as [H1|H1].
  - rewrite lookup_splice_out by lia. rewrite lookup_app_l by lia. unfold p.
    rewrite lookup_take_lt by done. destruct (decide (j < length v)%nat).
    + rewrite lookup_app_l by done. by apply Hbv.
    + rewrite lookup_app_r, lookup_replicate_2 by lia. apply Hz. lia.
  - rewrite lookup_app_r by lia. rewrite Hp. destruct (decide (j < off + length w)%nat) as [H2|H2].
    + rewrite lookup_app_l by lia. unfold splice.
      rewrite lookup_app_r; rewrite length_take; [|lia].
      rewrite lookup_app_l by lia. f_equal. lia.
    + rewrite lookup_splice_out by lia. rewrite lookup_app_r, lookup_drop by lia.
      rewrite Hbv by lia. f_equal. lia.
Qed.

Lemma buf_zero_spec c s e : (s <= e <= c_cap c)%nat ->
  buf_zero c s e = Some (c_write_buf c s (replicate (e - s) 0)).
Proof.
  intros H. unfold buf_zero. destruct (Nat.leb_spec s e); [|lia].
  apply buf_write_spec. rewrite length_replicate. lia.
Qed.

Lemma lookup_write_zero c s e j : (s <= e <= c_cap c)%nat ->
  c_buf (c_write_buf c s (replicate (e - s) 0)) !! j =
  if decide (s <= j < e)%nat then Some 0 else c_buf c !! j.
Proof.
  intros H. unfold c_cap in H. simpl. case_decide as Hj.
  - unfold splice. rewrite lookup_app_r; rewrite length_take; [|lia].
    rewrite lookup_app_l by (rewrite length_replicate; lia).
    apply lookup_replicate_2. lia.
  - apply lookup_splice_out; rewrite length_replicate; lia.
Qed.

(** Both paths of SETRANGE: [c] holds [v], zero-padded up to the offset. *)
Lemma setrange_spec c0 c off w v : cell_ok c0 -> frame c0 c -> c_slot c = c_slot c0 ->
  let n := Nat.max (off + length w) (length v) in
  (n <= c_cap c)%nat -> take (length v) (c_buf c) = v ->
  (forall j, (length v <= j < off)%nat -> c_buf c !! j = Some 0) ->
  exists c', buf_write c off w = Some c' /\ written c0 (setrange off w v) (c_set_value_len c' n).
Proof.
  intros Hok Hf0 Hs0 n Hn Hv Hz. destruct (buf_write_spec c off w) as (E & Hf & Hs & _); [lia|].
  eexists. split; [exact E|]. unfold written. rewrite length_setrange. split_and!; try done.
  - unfold c_value. simpl. by apply setrange_splice.
  - eapply (transitivity Hf0). exact Hf.
  - eapply ok_resize; [eapply (transitivity Hf0); exact Hf|done|by rewrite Hs|].
    destruct Hf0 as (_ & _ & <- & _). done.
Qed.

(** ** Expirations *)

Lemma put_expiration_spec c ts : cell_ok c -> is_i64 ts ->
  c_value (put_expiration c ts) = c_value c /\ c_vlen (put_expiration c ts) = c_vlen c /\
  c_expiration (put_expiration c ts) = (if c_has_slot c then ts else c_expiration c) /\
  frame c (put_expiration c ts) /\ cell_ok (put_expiration c ts).
Proof.
  intros (H1 & H2 & H3 & H4 & H5) Hts. unfold put_expiration, c_set_expiration, frame, c_value, c_cap,
    c_has_slot, c_expiration, cell_ok, c_cap in *. destruct (c_slot c) eqn:E; simpl;
    rewrite ?E; split_and!; done.
Qed.

Lemma no_slot_expiration c : c_has_slot c = false -> c_expiration c = 0.
Proof. unfold c_has_slot, c_expiration. by destruct (c_slot c). Qed.

Lemma has_ttl_expiration c : has_ttl c = negb (c_expiration c =? 0).
Proof.
  unfold has_ttl. destruct (c_has_slot c) eqn:E; [done|]. by rewrite no_slot_expiration.
Qed.

Lemma c_slot_frame c c' : c_slot c' = c_slot c -> c_expiration c' = c_expiration c /\ c_has_slot c' = c_has_slot c.
Proof. unfold c_expiration, c_has_slot. by intros ->. Qed.

(** ** The abstract effect of a command on a live key *)

Definition input_ok (i : StringInput) : Prop :=
  is_i64 (delta i) /\ is_i64 (in_expiration i) /\ is_i64 (now_ms i) /\
  match op i with GetRange s e => is_i64 s /\ is_i64 e | _ => True end.

(** The commands the dispatcher sends to [rmw] and [upsert]. *)
Definition is_write (o : StringOp) : bool :=
  match o with Get | GetRange _ _ | Strlen | Ttl _ | Exists => false | _ => true end.

Definition incr_result (i : StringInput) (v : bytes) : option Z :=
  cur ← parse_i64 v; checked_i64 (cur + delta i).

Definition spec_value (i : StringInput) (v : bytes) : option bytes :=
  match op i with
  | Set_ | SetXx | SetKeepTtl | SetGet _ => Some (operand i)
  | IncrBy => n ← incr_result i v; I64Buf_fmt n
  | Append => Some (v ++ operand i)
  | SetRange offset => Some (setrange offset (operand i) v)
  | GetEx | Expire | Persist => Some v
  | _ => None
  end.
Definition spec_ttl (i : StringInput) (e : Z) : Z :=
  match op i with
  | Set_ | SetXx | SetGet false | GetEx | Expire => in_expiration i
  | Persist => 0
  | _ => e
  end.
Definition spec_reply (i : StringInput) (v : bytes) (out : StringOutput) : StringOutput :=
  match op i with
  | IncrBy => set_int out (default 0 (incr_result i v))
  | Append => set_int out (Z.of_nat (length v + length (operand i)))
  | SetRange offset => set_int out (Z.of_nat (Nat.max (offset + length (operand i)) (length v)))
  | SetGet _ | GetEx => set_bytes out v
  | Expire | Persist => set_int out 1
  | _ => out
  end.

(** A record [c'] that holds value [v] and expiration [e] in [c]'s place. *)
Definition replaced (c : cell) (v : bytes) (e : Z) (c' : cell) : Prop :=
  c_value c' = v /\ c_vlen c' = length v /\ c_expiration c' = e /\ frame c c' /\ cell_ok c'.

Lemma written_replaced c v c' e : written c v c' -> e = c_expiration c -> replaced c v e c'.
Proof.
  intros (H1 & H2 & H3 & H4 & H5) ->. unfold replaced. split_and!; try done.
  by apply c_slot_frame.
Qed.

Lemma written_put c v c' ts : written c v c' -> is_i64 ts ->
  replaced c v (if c_has_slot c then ts else c_expiration c) (put_expiration c' ts).
Proof.
  intros (H1 & H2 & H3 & H4 & H5) Hts. destruct (put_expiration_spec c' ts H5 Hts) as (E1 & E2 & E3 & E4 & E5).
  destruct (c_slot_frame _ _ H3) as [E6 E7]. rewrite E6, E7 in E3. unfold replaced.
  split_and!; [congruence|congruence|done|by etransitivity|done].
Qed.

Lemma is_i64_0 : is_i64 0.
Proof. unfold is_i64, i64_min, i64_max. lia. Qed.

(** [apply_ttl_in_place] then a value write that fits. *)
Lemma put_write c ts v : cell_ok c -> is_i64 ts -> (length v <= c_cap c)%nat ->
  exists c', write_val (put_expiration c ts) v = Some c' /\
    replaced c v (if c_has_slot c then ts else c_expiration c) c'.
Proof.
  intros Hok Hts Hv. destruct (put_expiration_spec c ts Hok Hts) as (_ & _ & E3 & E4 & E5).
  destruct (write_val_spec (put_expiration c ts) v) as (c' & -> & W1 & W2 & W3 & W4 & W5); [done|
    destruct E4 as (_ & _ & -> & _); done|].
  exists c'. split; [done|]. destruct (c_slot_frame _ _ W3) as [E6 E7]. unfold replaced.
  split_and!; try done; [congruence|by etransitivity].
Qed.

Lemma checked_i64_Some z n : checked_i64 z = Some n -> z = n /\ is_i64 n.
Proof.
  unfold checked_i64. destruct (in_i64 z) eqn:E; [|done]. intros [= <-].
  split; [done|]. by apply in_i64_spec.
Qed.

Lemma incr_result_i64 i v n : incr_result i v = Some n -> is_i64 n.
Proof.
  unfold incr_result. destruct (parse_i64 v) as [cur|]; [cbn [mbind option_bind]|done].
  intros H. apply checked_i64_Some in H. apply H.
Qed.

Definition is_set_op (o : StringOp) : bool :=
  match o with SetXx | Set_ | SetKeepTtl | SetGet _ => true | _ => false end.

(** The TTL step of the in-place SET family and GETEX. *)
Lemma apply_ttl_spec c i : cell_ok c -> input_ok i ->
  is_set_op (op i) = true \/ op i = GetEx ->
  let '(ok, c1) := apply_ttl_in_place c i in
  (ok = false -> c1 = c) /\
  (ok = true -> (c1 = c \/ exists ts, is_i64 ts /\ c1 = put_expiration c ts) /\
     c_expiration c1 = spec_ttl i (c_expiration c)).
Proof.
  intros Hok (_ & Hexp & _ & _) Ho.
  assert (Hput : forall ts, is_i64 ts -> c_has_slot c = true ->
    fst (c_set_expiration c ts) = true /\ c_expiration (snd (c_set_expiration c ts)) = ts).
  { intros ts _ Hs. unfold c_set_expiration, c_expiration, c_has_slot in *. by destruct (c_slot c). }
  assert (Hno : forall ts, c_has_slot c = false -> c_set_expiration c ts = (false, c)).
  { intros ts Hs. unfold c_set_expiration, c_has_slot in *. by destruct (c_slot c). }
  assert (Hgen : let '(ok, c1) := (if negb (in_expiration i =? 0) then c_set_expiration c (in_expiration i)
      else if c_has_slot c then c_set_expiration c 0 else (true, c)) in
    (ok = false -> c1 = c) /\
    (ok = true -> (c1 = c \/ exists ts, is_i64 ts /\ c1 = put_expiration c ts) /\
     c_expiration c1 = in_expiration i)).
  { destruct (Z.eqb_spec (in_expiration i) 0) as [E0|]; simpl; destruct (c_has_slot c) eqn:Es.
    - destruct (Hput 0 is_i64_0 eq_refl) as [H1 H2]. destruct (c_set_expiration c 0) as [ok c1] eqn:E.
      simpl in *. subst ok. split; [done|]. rewrite E0. split; [|done]. right. exists 0.
      split; [apply is_i64_0|]. unfold put_expiration. by rewrite E.
    - split; [done|]. rewrite E0, no_slot_expiration by done. split; [by left|done].
    - destruct (Hput _ Hexp eq_refl) as [H1 H2].
      destruct (c_set_expiration c (in_expiration i)) as [ok c1] eqn:E. simpl in *. subst ok.
      split; [done|]. split; [|done]. right. eexists. split; [exact Hexp|].
      unfold put_expiration. by rewrite E.
    - rewrite Hno by done. done. }
  unfold apply_ttl_in_place, spec_ttl in *.
  destruct (op i) as [| | | | | | | |[]| | | | | | | |]; simpl in *; try exact Hgen;
    try (split; [done|]; split; [by left|done]); by destruct Ho.
Qed.

Lemma put_or_same_write c c1 v : cell_ok c -> (c1 = c \/ exists ts, is_i64 ts /\ c1 = put_expiration c ts) ->
  (length v <= c_cap c)%nat ->
  exists c', write_val c1 v = Some c' /\ replaced c v (c_expiration c1) c'.
Proof.
  intros Hok [->|(ts & Hts & ->)] Hv.
  - destruct (write_val_spec c v Hok Hv) as (c' & -> & Hw). exists c'. split; [done|].
    by eapply written_replaced.
  - destruct (put_write c ts v Hok Hts Hv) as (c' & -> & Hr). exists c'. split; [done|].
    destruct (put_expiration_spec c ts Hok Hts) as (_ & _ & -> & _). done.
Qed.

Lemma replaced_same c : cell_ok c -> replaced c (c_value c) (c_expiration c) c.
Proof.
  intros Hok. unfold replaced. split_and!; try done. symmetry. apply length_c_value. by apply ok_vlen.
Qed.

Lemma replaced_put c ts : cell_ok c -> is_i64 ts ->
  replaced c (c_value c) (if c_has_slot c then ts else c_expiration c) (put_expiration c ts).
Proof.
  intros Hok Hts. destruct (put_expiration_spec c ts Hok Hts) as (E1 & E2 & E3 & E4 & E5).
  unfold replaced. split_and!; try done. rewrite E2. symmetry. apply length_c_value. by apply ok_vlen.
Qed.

(** What the in-place path answers, branch by branch. *)
Definition in_place_outcome (i : StringInput) (c : cell) (out : StringOutput)
    (r : InPlaceResult) (c' : cell) (out' : StringOutput) : Prop :=
  match r with
  | Updated => exists v, spec_value i (c_value c) = Some v /\
      replaced c v (spec_ttl i (c_expiration c)) c' /\ out' = spec_reply i (c_value c) out
  | Expired => expired c (now_ms i) = true /\ c' = c /\ out' = out
  | Cancel => c' = c /\ (op i = SetNx \/ op i = Persist /\ c_expiration c = 0 \/
                         op i = IncrBy /\ incr_result i (c_value c) = None)
  | DeleteNow => c' = c /\ op i = GetDel /\ out' = set_bytes out (c_value c)
  | NeedCopy => c' = c
  end.

Lemma set_in_place i c out : cell_ok c -> input_ok i -> is_set_op (op i) = true ->
  (length (operand i) <= c_cap c)%nat ->
  let '(ok, c1) := apply_ttl_in_place c i in
  if ok then exists c', write_val c1 (operand i) = Some c' /\
    in_place_outcome i c out Updated c' (if is_set_get (op i) then set_bytes out (c_value c) else out)
  else c1 = c.
Proof.
  intros Hok Hi Ho Hv. pose proof (apply_ttl_spec c i Hok Hi (or_introl Ho)) as H.
  destruct (apply_ttl_in_place c i) as [ok c1]. destruct H as [Hf Ht].
  destruct ok; [|by apply Hf]. destruct (Ht eq_refl) as [Hc1 Hexp].
  destruct (put_or_same_write c c1 (operand i) Hok Hc1 Hv) as (c' & -> & Hr).
  exists c'. split; [done|]. exists (operand i). rewrite Hexp in Hr.
  unfold spec_value, spec_reply. destruct (op i); simpl in *; done.
Qed.

Lemma getex_in_place i c out : cell_ok c -> input_ok i -> op i = GetEx ->
  let '(ok, c1) := apply_ttl_in_place c i in
  in_place_outcome i c out (if ok then Updated else NeedCopy) c1 (set_bytes out (c_value c)).
Proof.
  intros Hok Hi Ho. pose proof (apply_ttl_spec c i Hok Hi (or_intror Ho)) as H.
  destruct (apply_ttl_in_place c i) as [ok c1]. destruct H as [Hf Ht].
  destruct ok; [|by apply Hf]. destruct (Ht eq_refl) as [Hc1 Hexp].
  exists (c_value c). unfold spec_value, spec_reply. rewrite <- Hexp, Ho. split_and!; try done.
  destruct Hc1 as [->|(ts & Hts & ->)]; [by apply replaced_same|].
  destruct (put_expiration_spec c ts Hok Hts) as (_ & _ & E & _). rewrite E. by apply replaced_put.
Qed.

Lemma incr_in_place i c out : cell_ok c -> input_ok i -> op i = IncrBy ->
  expired c (now_ms i) = false ->
  exists r c' out', str_in_place_updater (c_key c) i c out = Some (r, c', out') /\
    in_place_outcome i c out r c' out'.
Proof.
  intros Hok Hi Ho Hx. unfold str_in_place_updater. rewrite Hx, Ho.
  fold (incr_result i (c_value c)).
  destruct (incr_result i (c_value c)) as [n|] eqn:En.
  2: { do 3 eexists. split; [done|]. split; [done|]. by do 2 right. }
  destruct (I64Buf_fmt_spec n (incr_result_i64 _ _ _ En)) as (s & Hs & _ & _).
  rewrite Hs. cbn [mbind option_bind]. destruct (Nat.ltb_spec (c_cap c) (length s)).
  { by do 3 eexists. }
  destruct (write_val_spec c s Hok ltac:(lia)) as (c' & -> & Hw). cbn [mbind option_bind].
  do 3 eexists. split; [done|]. exists s. unfold spec_value, spec_ttl, spec_reply. rewrite Ho, En.
  split_and!; [exact Hs|by apply (written_replaced c)|done].
Qed.

Lemma setrange_in_place i c offset : cell_ok c ->
  (Nat.max (offset + length (operand i)) (c_vlen c) <= c_cap c)%nat ->
  exists c1 c', (if (c_vlen c <? offset)%nat then buf_zero c (c_vlen c) offset else Some c) = Some c1 /\
    buf_write c1 offset (operand i) = Some c' /\
    written c (setrange offset (operand i) (c_value c))
      (c_set_value_len c' (Nat.max (offset + length (operand i)) (c_vlen c))).
Proof.
  intros Hok Hn. pose proof (length_c_value c (ok_vlen _ Hok)) as Hl.
  pose proof (setrange_spec c) as Hs.
  destruct (Nat.ltb_spec (c_vlen c) offset).
  - rewrite buf_zero_spec by lia. eexists.
    destruct (buf_write_spec c (c_vlen c) (replicate (offset - c_vlen c) 0)) as (_ & Hf & Hsl & _).
    { rewrite length_replicate. lia. }
    edestruct (Hs _ offset (operand i) (c_value c) Hok Hf Hsl) as (c' & Hc' & Hw).
    + destruct Hf as (_ & _ & -> & _). lia.
    + apply list_eq. intros j. destruct (decide (j < length (c_value c))%nat) as [Hj|].
      * rewrite lookup_take_lt, lookup_write_zero, decide_False by lia. unfold c_value.
        by rewrite lookup_take_lt by lia.
      * rewrite lookup_take_ge, lookup_ge_None_2 by lia. done.
    + intros j Hj. rewrite lookup_write_zero, decide_True by lia. done.
    + exists c'. rewrite Hl in Hw. done.
  - eexists. destruct (Hs c offset (operand i) (c_value c) Hok) as (c' & Hc' & Hw); try done.
    + lia.
    + unfold c_value at 2. by rewrite Hl.
    + intros j Hj. lia.
    + exists c'. rewrite Hl in Hw. done.
Qed.

Lemma in_place_updater_spec k i c out : cell_ok c -> input_ok i ->
  exists r c' out', str_in_place_updater k i c out = Some (r, c', out') /\
    in_place_outcome i c out r c' out'.
Proof.
  intros Hok Hi. destruct (expired c (now_ms i)) eqn:Hx.
  { unfold str_in_place_updater. rewrite Hx. by do 3 eexists. }
  destruct (is_set_op (op i)) eqn:Hset.
  { unfold str_in_place_updater. rewrite Hx.
    destruct (Nat.ltb_spec (c_cap c) (length (operand i))).
    { exists NeedCopy, c, out. split; [|done]. by destruct (op i). }
    pose proof (set_in_place i c out Hok Hi Hset ltac:(lia)) as Hs.
    destruct (apply_ttl_in_place c i) as [ok c1]. destruct ok.
    - destruct Hs as (c' & Hw & Ho). exists Updated, c',
        (if is_set_get (op i) then set_bytes out (c_value c) else out). split; [|done].
      destruct (op i); try done; simpl; by rewrite Hw.
    - subst c1. exists NeedCopy, c, (if is_set_get (op i) then set_bytes out (c_value c) else out).
      split; [|done]. by destruct (op i). }
  destruct (op i) eqn:Ho; try done; unfold str_in_place_updater; rewrite Hx, Ho.
  all: try (by do 3 eexists).
  - do 3 eexists. split; [done|]. split; [done|]. by left.
  - destruct (incr_in_place i c out Hok Hi Ho Hx) as (r & c' & out' & H & Hp).
    unfold str_in_place_updater in H. rewrite Hx, Ho in H. by exists r, c', out'.
  - destruct (Nat.ltb_spec (c_cap c) (c_vlen c + length (operand i))); [by do 3 eexists|].
    destruct (append_spec c (operand i) Hok ltac:(lia)) as (c' & -> & Hw). cbn [mbind option_bind].
    do 3 eexists. split; [done|]. exists (c_value c ++ operand i).
    unfold spec_value, spec_ttl, spec_reply. rewrite Ho, length_c_value by (by apply ok_vlen).
    split_and!; [done|by eapply written_replaced|done].
  - destruct (Nat.ltb_spec (c_cap c) (Nat.max (offset + length (operand i)) (c_vlen c))); [by do 3 eexists|].
    destruct (setrange_in_place i c offset Hok ltac:(lia)) as (c1 & c' & -> & Hw & Hr).
    cbn [mbind option_bind]. rewrite Hw. cbn [mbind option_bind].
    do 3 eexists. split; [done|]. exists (setrange offset (operand i) (c_value c)).
    unfold spec_value, spec_ttl, spec_reply. rewrite Ho, length_c_value by (by apply ok_vlen).
    split_and!; [done|by eapply written_replaced|done].
  - pose proof (getex_in_place i c out Hok Hi Ho) as H.
    destruct (apply_ttl_in_place c i) as [ok c1]. by do 3 eexists.
  - destruct (c_has_slot c) eqn:Es; [|by do 3 eexists].
    do 3 eexists. split; [done|]. exists (c_value c). unfold spec_value, spec_ttl, spec_reply. rewrite Ho.
    pose proof (replaced_put c (in_expiration i) Hok ltac:(apply Hi)) as H. rewrite Es in H. done.
  - fold (has_ttl c). rewrite has_ttl_expiration. destruct (Z.eqb_spec (c_expiration c) 0); simpl.
    { do 3 eexists. split; [done|]. split; [done|]. right. left. done. }
    do 3 eexists. split; [done|]. exists (c_value c). unfold spec_value, spec_ttl, spec_reply. rewrite Ho.
    pose proof (replaced_put c 0 Hok is_i64_0) as H.
    destruct (c_has_slot c) eqn:Es; [done|]. by rewrite no_slot_expiration in n.
Qed.

(** ** The copy path *)

Definition copy_value (i : StringInput) (old : cell) : option bytes :=
  let v := old_val old i in
  match op i with
  | IncrBy => I64Buf_fmt (wrap_i64 (incr_source old i + delta i))
  | Append => Some (v ++ operand i)
  | SetRange offset => Some (setrange offset (operand i) v)
  | GetEx | Expire | Persist => Some v
  | _ => Some (operand i)
  end.
Definition copy_ttl (i : StringInput) (old : cell) : Z :=
  match op i with
  | Set_ | Expire | GetEx => in_expiration i
  | Persist => 0
  | _ => if negb (in_expiration i =? 0) then in_expiration i
         else if expired old (now_ms i) then 0 else c_expiration old
  end.

Lemma expired_expiration old now : expired old now = true -> c_expiration old <> 0.
Proof. unfold expired. rewrite !andb_true_iff, negb_true_iff. lia. Qed.

(** No slot was asked for: the copy has no TTL to carry. *)
Lemma copy_no_slot k i old : has_expiration_of (str_copy_size k i old) = false -> copy_ttl i old = 0.
Proof.
  unfold str_copy_size, copy_ttl. simpl. rewrite has_ttl_expiration.
  destruct (Z.eqb_spec (in_expiration i) 0), (Z.eqb_spec (c_expiration old) 0); simpl;
    destruct (op i); try done; intros _; by destruct (expired _ _).
Qed.

Lemma zeroed_frame c n : (n <= c_cap c)%nat ->
  frame c (c_write_buf c 0 (replicate n 0)) /\ c_slot (c_write_buf c 0 (replicate n 0)) = c_slot c.
Proof.
  intros H. destruct (buf_write_spec c 0 (replicate n 0)) as (_ & ? & ? & _);
    [rewrite length_replicate; lia|done].
Qed.

(** Zero [n] bytes, write [v] at 0, then [w] at [off]: SETRANGE on a fresh record. *)
Lemma setrange_fresh c off w v : cell_ok c ->
  let n := Nat.max (off + length w) (length v) in
  (n <= c_cap c)%nat ->
  exists c1 c2 c3, buf_zero c 0 n = Some c1 /\ buf_write c1 0 v = Some c2 /\
    buf_write c2 off w = Some c3 /\ written c (setrange off w v) (c_set_value_len c3 n).
Proof.
  intros Hok n Hn. rewrite buf_zero_spec, Nat.sub_0_r by lia.
  destruct (zeroed_frame c n Hn) as [F1 S1]. set (c1 := c_write_buf c 0 (replicate n 0)) in *.
  assert (Hc1 : c_cap c1 = c_cap c) by apply F1.
  destruct (buf_write_spec c1 0 v) as (E2 & F2 & S2 & _); [lia|].
  set (c2 := c_write_buf c1 0 v) in *. assert (Hc2 : c_cap c2 = c_cap c) by (destruct F2 as (_ & _ & -> & _); done).
  destruct (setrange_spec c c2 off w v Hok) as (c3 & E3 & W3).
  - by etransitivity.
  - congruence.
  - lia.
  - unfold c2. simpl. unfold splice. simpl. by rewrite take_app_length.
  - intros j Hj. change (splice 0 v (c_buf c1) !! j = Some 0).
    rewrite lookup_splice_out by (unfold c_cap in *; lia). unfold c1. replace n with (n - 0)%nat by lia.
    rewrite lookup_write_zero, decide_True by lia. done.
  - exists c1, c2, c3. done.
Qed.

Lemma copy_write_spec k i old new out : cell_ok old -> input_ok i -> cell_ok new ->
  c_cap new = value_cap_of (str_copy_size k i old) ->
  (op i = IncrBy -> expired old (now_ms i) = false -> is_Some (incr_result i (c_value old))) ->
  exists v new', copy_value i old = Some v /\ length v = c_cap new /\ written new v new' /\
    str_copy_write i old new out = Some (new',
      match op i with
      | IncrBy => set_int out (wrap_i64 (incr_source old i + delta i))
      | Expire => out
      | _ => spec_reply i (old_val old i) out
      end).
Proof.
  intros Hold Hi Hok Hcap Hincr. unfold copy_value, str_copy_write, str_copy_size, spec_reply in *.
  assert (Hw : forall v, length v = c_cap new -> exists c', write_val new v = Some c' /\ written new v c')
    by (intros; apply write_val_spec; [done|lia]).
  destruct (op i) eqn:Ho; simpl value_cap_of in Hcap.
  all: try (destruct (Hw (operand i)) as (c' & -> & ?); [done|]; exists (operand i), c';
            by split_and!).
  all: try (destruct (Hw (old_val old i)) as (c' & -> & ?); [done|]; exists (old_val old i), c';
            by split_and!).
  - destruct (I64Buf_fmt_spec (wrap_i64 (incr_source old i + delta i)) (wrap_i64_range _))
      as (s & Hs & _ & Hl). rewrite Hs. cbn [mbind option_bind].
    destruct (Hw s) as (c' & -> & ?); [lia|]. exists s, c'. split_and!; [done|lia|done|done].
  - destruct (buf_write_spec new 0 (old_val old i)) as (-> & F & S & _); [lia|].
    cbn [mbind option_bind]. set (c1 := c_write_buf new 0 (old_val old i)) in *.
    assert (Hc1 : c_cap c1 = c_cap new) by apply F.
    assert (Hok1 : cell_ok (c_set_value_len c1 (length (old_val old i)))) by (eapply ok_resize; [done..|lia]).
    destruct (append_spec (c_set_value_len c1 (length (old_val old i))) (operand i) Hok1)
      as (c' & E & W); [simpl; unfold c_cap in *; simpl in *; lia|].
    change (c_vlen (c_set_value_len c1 (length (old_val old i)))) with (length (old_val old i)) in E, W.
    destruct (buf_write_spec c1 (length (old_val old i)) (operand i)) as (E1 & F1 & S1 & _); [lia|].
    rewrite E1. cbn [mbind option_bind]. eexists (old_val old i ++ operand i), _.
    split_and!; [done|by rewrite length_app| |done].
    assert (Ev : c_value (c_set_value_len c1 (length (old_val old i))) = old_val old i).
    { unfold c_value, c1. simpl. unfold splice. simpl. by rewrite take_app_length. }
    rewrite Ev in W. unfold buf_write in E. case_match; [|done]. injection E as <-.
    destruct W as (W1 & W2 & W3 & W4 & W5). unfold written.
    split_and!; [exact W1|by rewrite length_app|exact (eq_trans W3 S)| |exact W5].
    by etransitivity; [exact F|].
  - destruct (setrange_fresh new offset (operand i) (old_val old i) Hok ltac:(lia))
      as (c1 & c2 & c3 & -> & E2 & E3 & W). cbn [mbind option_bind]. rewrite E2.
    cbn [mbind option_bind]. rewrite E3. cbn [mbind option_bind].
    eexists (setrange offset (operand i) (old_val old i)), _.
    split_and!; [done|by rewrite length_setrange|exact W|done].
Qed.

Lemma copy_expiration_i64 i old : cell_ok old -> input_ok i -> is_i64 (copy_ttl i old).
Proof.
  intros (_ & _ & _ & _ & Hs) (_ & He & _). unfold copy_ttl.
  assert (is_i64 (c_expiration old)).
  { unfold c_expiration. destruct (c_slot old); [done|apply is_i64_0]. }
  pose proof is_i64_0. destruct (op i); try done;
    destruct (negb (in_expiration i =? 0)); try done; by destruct (expired _ _).
Qed.

(** A record allocated for a copy receives the new value, the TTL and the
    reply, and is exactly full. *)
Lemma copy_updater_spec k i old new out out1 : cell_ok old -> input_ok i ->
  str_need_copy_update k i old out = (Copy, out1) -> sized (str_copy_size k i old) k new ->
  exists v new' out', str_copy_updater k i old new out1 = Some (new', out') /\
    copy_value i old = Some v /\ replaced new v (copy_ttl i old) new' /\ length v = c_cap new /\
    (expired old (now_ms i) = false -> is_write (op i) = true ->
       spec_value i (c_value old) = Some v /\ out' = spec_reply i (c_value old) out) /\
    out' = match op i with
           | IncrBy => set_int out1 (wrap_i64 (incr_source old i + delta i))
           | Expire => out1
           | _ => spec_reply i (old_val old i) out1
           end.
Proof.
  intros Hold Hi Hneed (_ & Hcap & Hslot & Hok).
  assert (Hincr : op i = IncrBy -> expired old (now_ms i) = false -> is_Some (incr_result i (c_value old))).
  { intros Ho Hx. unfold str_need_copy_update in Hneed. rewrite Hx, Ho in Hneed.
    fold (incr_result i (c_value old)) in Hneed. destruct (incr_result _ _); [by eexists|done]. }
  destruct (copy_write_spec k i old new out1 Hold Hi Hok Hcap Hincr) as (v & new' & Hv & Hl & Hw & E).
  match type of E with _ = Some (_, ?o) => set (out' := o) in * end.
  unfold str_copy_updater. rewrite E. cbn [mbind option_bind].
  destruct Hw as (W1 & W2 & W3 & W4 & W5). destruct (c_slot_frame _ _ W3) as [We Ws].
  assert (Hrep : expired old (now_ms i) = false -> is_write (op i) = true ->
    spec_value i (c_value old) = Some v /\ out' = spec_reply i (c_value old) out).
  { intros Hx Hwr. unfold str_need_copy_update in Hneed. rewrite Hx in Hneed.
    unfold copy_value, spec_value, out', spec_reply, old_val, incr_source, old_val in *. rewrite Hx in *.
    destruct (op i) eqn:Ho; try (injection Hneed as <-); try done.
    fold (incr_result i (c_value old)) in Hneed. destruct (Hincr eq_refl eq_refl) as [n Hn].
    rewrite Hn in *. injection Hneed as <-. unfold incr_result in Hn.
    destruct (parse_i64 (c_value old)) as [cur|]; [|done]. cbn [mbind option_bind] in Hn.
    destruct (checked_i64_Some _ _ Hn) as [<- Hr]. cbn [default mbind option_bind] in *.
    rewrite wrap_i64_id in * by done. split; [done|]. done. }
  destruct (c_has_slot new') eqn:Hs'.
  - match goal with |- context [put_expiration new' ?ts] => set (exp := ts) end.
    assert (Eexp : exp = copy_ttl i old).
    { unfold exp, copy_ttl. rewrite has_ttl_expiration.
      destruct (op i); try done; destruct (negb (in_expiration i =? 0)); try done;
        destruct (Z.eqb_spec (c_expiration old) 0); simpl; destruct (expired old (now_ms i)); simpl; done. }
    clearbody exp. subst exp.
    destruct (put_expiration_spec new' (copy_ttl i old) W5 (copy_expiration_i64 _ _ Hold Hi))
      as (P1 & P2 & P3 & P4 & P5). rewrite Hs' in P3.
    exists v, (put_expiration new' (copy_ttl i old)), out'. unfold replaced.
    split_and!; try done; try congruence. by etransitivity.
  - exists v, new', out'. unfold replaced. split_and!; try done.
    rewrite no_slot_expiration by done. symmetry. apply (copy_no_slot k). congruence.
Qed.

(** C16. Updating a live record does what the command means, whichever path the
    store takes: when the in-place callback updates, and when it declines and
    the copy callback fills a record of the size it asked for, the key ends
    with the value the command specifies and the reply is the command's reply;
    the in-place path touches nothing of the record but its value and TTL, and
    neither path panics. *)
Theorem update_paths_refine_command k i c out : cell_ok c -> input_ok i ->
  expired c (now_ms i) = false -> is_write (op i) = true ->
  (exists r c' out', str_in_place_updater k i c out = Some (r, c', out') /\
     in_place_outcome i c out r c' out') /\
  (forall out1 new, str_need_copy_update k i c out = (Copy, out1) ->
     sized (str_copy_size k i c) k new ->
     exists v new', str_copy_updater k i c new out1 = Some (new', spec_reply i (c_value c) out) /\
       spec_value i (c_value c) = Some v /\ replaced new v (copy_ttl i c) new' /\
       length v = c_cap new).
Proof.
  intros Hok Hi Hx Hwr. split; [by apply in_place_updater_spec|].
  intros out1 new Hn Hs. destruct (copy_updater_spec k i c new out out1 Hok Hi Hn Hs)
    as (v & new' & out' & E & _ & Hr & Hl & Hsp & _). destruct (Hsp Hx Hwr) as [Hv ->]. by exists v, new'.
Qed.

(** The TTLs the two paths leave are the same unless the command is a SET XX or
    SET GET without an expiry on a key that has one, or combines KEEPTTL with an
    expiry. *)
Definition ttl_path_independent (i : StringInput) (c : cell) : Prop :=
  match op i with
  | SetXx | SetGet false => in_expiration i <> 0 \/ c_expiration c = 0
  | SetKeepTtl | SetGet true | IncrBy | Append | SetRange _ => in_expiration i = 0
  | _ => True
  end.

(** C30. Where a live record happens to be does not show, for the writing
    commands whose TTL rule is path independent (not SET XX or SET GET without
    an expiry on a key that has one, nor KEEPTTL with an expiry): when the
    in-place path updates and the copy path copies, the value, the expiration
    and the reply are the same.  PERSIST on a key without a TTL is canceled in
    place and copied elsewhere, so it is not such a case. *)
Theorem in_place_and_copy_agree k i c out c' out' out1 new :
  cell_ok c -> input_ok i -> expired c (now_ms i) = false -> is_write (op i) = true ->
  ttl_path_independent i c ->
  str_in_place_updater k i c out = Some (Updated, c', out') ->
  str_need_copy_update k i c out = (Copy, out1) -> sized (str_copy_size k i c) k new ->
  exists new', str_copy_updater k i c new out1 = Some (new', out') /\
    c_value new' = c_value c' /\ c_expiration new' = c_expiration c'.
Proof.
  intros Hok Hi Hx Hwr Ht Hin Hn Hs.
  destruct (in_place_updater_spec k i c out Hok Hi) as (r & c1 & o1 & E & Ho).
  rewrite Hin in E. injection E as <- <- <-. destruct Ho as (v & Hv & (V1 & _ & V2 & _) & ->).
  destruct (copy_updater_spec k i c new out out1 Hok Hi Hn Hs)
    as (v' & new' & out2 & E & _ & (R1 & _ & R2 & _) & _ & Hsp & _).
  destruct (Hsp Hx Hwr) as [Hv' ->]. exists new'. split; [done|]. split; [congruence|].
  rewrite R2, V2. unfold copy_ttl, spec_ttl, spec_value, ttl_path_independent in *. rewrite Hx.
  destruct (op i) as [| | | | | | | |[]| | | | | | | |]; try done;
    destruct (Z.eqb_spec (in_expiration i) 0) as [E0|]; simpl in *; try done; lia.
Qed.

(** ** GETRANGE *)

Lemma range_bounds_spec s e len : is_i64 s -> is_i64 e -> Z.of_nat len <= i64_max ->
  let n := Z.of_nat len in
  let lo := Z.max 0 (if s <? 0 then n + s else s) in
  let hi := if e <? 0 then n + e else e in
  let '(a, b) := range_bounds s e len in
  (a <= b <= len)%nat /\
  forall j, (j < len)%nat -> (a <= j < b)%nat <-> lo <= Z.of_nat j <= hi.
Proof.
  intros Hs He Hn n lo hi. unfold range_bounds. fold n.
  destruct (Z.ltb_spec s 0), (Z.ltb_spec e 0); unfold lo, hi, n;
    repeat match goal with |- context [Z.eqb ?a ?b] => destruct (Z.eqb_spec a b)
      | |- context [Z.ltb ?a ?b] => destruct (Z.ltb_spec a b)
      | |- context [Z.leb ?a ?b] => destruct (Z.leb_spec a b) end; (split; [lia|intros j Hj; lia]).
Qed.

(** The reader answers from the live value; an expired record is not found. *)
Lemma str_reader_spec k i c out : cell_ok c -> input_ok i ->
  exists b out', str_reader k i c out = Some (b, out') /\ b = negb (expired c (now_ms i)).
Proof.
  intros Hok Hi. unfold str_reader. destruct (expired c (now_ms i)); [by do 2 eexists|].
  destruct (op i) eqn:Ho; try (by do 2 eexists).
  destruct Hi as (_ & _ & _ & Hr). rewrite Ho in Hr. destruct Hr as [Hs He].
  pose proof (proj1 (proj2 (proj2 Hok))) as Hcap.
  pose proof (ok_vlen _ Hok) as Hv.
  pose proof (range_bounds_spec start_ end_ (c_vlen c) Hs He ltac:(unfold i64_max; lia)) as H.
  simpl in H. destruct (range_bounds _ _ _) as [a b]. destruct H as [H _].
  rewrite length_c_value by done.
  destruct (Nat.leb_spec a b), (Nat.leb_spec b (c_vlen c)); try lia. by do 2 eexists.
Qed.

(** GETRANGE returns the bytes whose index lies between the two bounds,
    inclusive, a negative bound counting from the end; it never reads out of
    range. *)
Theorem getrange_selects k i c out s e : cell_ok c -> op i = GetRange s e -> is_i64 s -> is_i64 e ->
  expired c (now_ms i) = false ->
  let n := Z.of_nat (c_vlen c) in
  let lo := Z.max 0 (if s <? 0 then n + s else s) in
  let hi := Z.min (n - 1) (if e <? 0 then n + e else e) in
  str_reader k i c out =
    Some (true, set_bytes out (slice (Z.to_nat lo) (Z.to_nat (hi + 1)) (c_value c))).
Proof.
  intros Hok Ho Hs He Hx n lo hi. pose proof (proj1 (proj2 (proj2 Hok))) as Hcap. unfold str_reader. rewrite Hx, Ho.
  pose proof (ok_vlen _ Hok) as Hv. pose proof (length_c_value c Hv) as Hl.
  pose proof (range_bounds_spec s e (c_vlen c) Hs He ltac:(unfold i64_max; lia)) as H. simpl in H.
  destruct (range_bounds _ _ _) as [a b]. destruct H as [Hab Hj]. rewrite Hl.
  destruct (Nat.leb_spec a b), (Nat.leb_spec b (c_vlen c)); try lia. simpl. do 3 f_equal.
  fold n in Hj. apply list_eq. intros j.
  destruct (decide (a + j < b)%nat) as [Hlt|Hge].
  - assert (Hm : lo <= Z.of_nat (a + j) <= hi).
    { assert (Z.max 0 (if s <? 0 then n + s else s) <= Z.of_nat (a + j) <= (if e <? 0 then n + e else e))
        by (apply Hj; lia). unfold lo, hi. lia. }
    assert (Ha : Z.to_nat lo = a).
    { assert (Hlo : (Z.to_nat lo <= a)%nat).
      { assert (lo <= Z.of_nat a); [|lia].
        assert (Z.max 0 (if s <? 0 then n + s else s) <= Z.of_nat a <= (if e <? 0 then n + e else e))
          by (apply Hj; lia). unfold lo. lia. }
      assert (Hin : (a <= Z.to_nat lo < b)%nat) by (apply Hj; unfold lo, hi, n in *; lia). lia. }
    rewrite Ha, !lookup_slice by lia. done.
  - rewrite (lookup_ge_None_2 (slice a b _)) by (rewrite length_slice; lia).
    symmetry. apply lookup_ge_None_2. unfold slice. rewrite length_take, length_drop, Hl.
    destruct (decide (lo <= hi)); [|lia].
    assert (Hlo : (a <= Z.to_nat lo < b)%nat) by (apply Hj; unfold lo, hi, n in *; lia).
    assert (Hhi : (a <= Z.to_nat hi < b)%nat) by (apply Hj; unfold lo, hi, n in *; lia).
    assert (Ha : (a <= a < b)%nat -> lo <= Z.of_nat a).
    { intros Ha. apply Hj in Ha; [|lia]. unfold lo. lia. }
    lia.
Qed.

Lemma getrange_selects_witness :
  str_reader [] (input_read (GetRange (-3) (-1)) 0)
    (Cell 0 [] 5 (bs "hello") None) output_default =
  Some (true, set_bytes output_default (bs "llo")).
Proof.
  rewrite (getrange_selects [] _ (Cell 0 [] 5 (bs "hello") None) output_default (-3) (-1));
    [reflexivity| |reflexivity|..|reflexivity];
    unfold cell_ok, is_i64, is_u64, two64, c_cap, i64_min, i64_max; simpl; lia.
Defined.

(** ** A missing key *)

Definition initial_value (i : StringInput) : bytes :=
  match op i with
  | IncrBy => default [] (I64Buf_fmt (delta i))
  | SetRange offset => setrange offset (operand i) []
  | _ => operand i
  end.

Lemma initial_updater_spec k i c out : input_ok i -> sized (str_initial_size k i) k c ->
  exists c' out', str_initial_updater k i c out = Some (c', out') /\
    length (initial_value i) = c_cap c /\
    replaced c (initial_value i) (if c_has_slot c then (if in_expiration i =? 0 then c_expiration c else
       in_expiration i) else 0) c'.
Proof.
  intros Hi (_ & Hcap & Hslot & Hok). simpl in Hslot.
  assert (Hw : exists c1 out1, str_initial_write i c out = Some (c1, out1) /\
    length (initial_value i) = c_cap c /\ written c (initial_value i) c1).
  { unfold str_initial_write, initial_value, str_initial_size in *.
    destruct (op i) eqn:Ho; simpl value_cap_of in Hcap.
    all: try (destruct (write_val_spec c (operand i) Hok ltac:(lia)) as (c1 & -> & ?);
              cbn [mbind option_bind]; by eexists _, _).
    - destruct (I64Buf_fmt_spec (delta i) (proj1 Hi)) as (s & -> & _ & Hl).
      cbn [mbind option_bind default].
      destruct (write_val_spec c s Hok ltac:(lia)) as (c1 & -> & ?). cbn [mbind option_bind].
      eexists _, _. split; [done|]. cbn [default from_option id]. split; [simpl; lia|done].
    - rewrite buf_zero_spec, Nat.sub_0_r by lia. cbn [mbind option_bind].
      destruct (zeroed_frame c offset ltac:(lia)) as [F1 S1].
      destruct (setrange_spec c _ offset (operand i) [] Hok F1 S1) as (c3 & E3 & W3); simpl length.
      + rewrite (proj1 (proj2 (proj2 F1))). lia.
      + done.
      + intros j Hj. pose proof (lookup_write_zero c 0 offset j ltac:(lia)) as E.
        rewrite Nat.sub_0_r in E. by rewrite E, decide_True by lia.
      + simpl length in W3. rewrite Nat.max_0_r in W3. rewrite E3. cbn [mbind option_bind].
        eexists _, _. split; [done|]. rewrite length_setrange. simpl. split; [lia|exact W3]. }
  destruct Hw as (c1 & out1 & E & Hl & Hw). unfold str_initial_updater. rewrite E.
  cbn [mbind option_bind]. eexists _, _. split; [done|]. split; [done|].
  destruct (Z.eqb_spec (in_expiration i) 0) as [E0|E0]; simpl.
  - apply written_replaced; [done|]. destruct (c_has_slot c) eqn:Es; [done|].
    by rewrite no_slot_expiration.
  - pose proof (written_put c _ c1 (in_expiration i) Hw ltac:(apply Hi)) as H.
    rewrite Hslot in *. simpl in *. done.
Qed.

(** ** The interface's laws *)

Lemma replaced_frame c v e c' : replaced c v e c' -> frame c c' /\ cell_ok c'.
Proof. by intros (_ & _ & _ & ? & ?). Qed.

Lemma frame_refl_ok c : cell_ok c -> frame c c /\ cell_ok c.
Proof. done. Qed.

#[export] Instance StringFunctions_lawful : LawfulFunctions StringFunctions input_ok.
Proof.
  split; try done.
  - intros k i c o Hi Hok. destruct (str_reader_spec k i c o Hok Hi) as (b & o' & H & _). by eexists.
  - intros k i c o Hi (_ & Hcap & Hslot & Hok). simpl in *. unfold str_initial_writer.
    destruct (write_val_spec c (operand i) Hok ltac:(lia)) as (c' & -> & Hw). cbn [mbind option_bind].
    eexists _, _. split; [done|]. destruct (negb (in_expiration i =? 0)); [|by destruct Hw as (_&_&_&?&?)].
    eapply replaced_frame, written_put; [done|]. apply Hi.
  - intros k i c o Hi Hok. simpl. unfold str_in_place_writer.
    destruct (Nat.ltb_spec (c_cap c) (length (operand i))); [by eexists _, _, _|].
    destruct (c_has_slot c).
    + destruct (put_write c (in_expiration i) (operand i) Hok ltac:(apply Hi) ltac:(lia)) as (c' & -> & Hr).
      cbn [mbind option_bind]. eexists _, _, _. split; [done|]. by eapply replaced_frame.
    + destruct (negb _); [by eexists _, _, _|].
      destruct (write_val_spec c (operand i) Hok ltac:(lia)) as (c' & -> & Hw). cbn [mbind option_bind].
      eexists _, _, _. split; [done|]. by destruct Hw as (_ & _ & _ & ? & ?).
  - intros k i c o Hi Hs. destruct (initial_updater_spec k i c o Hi Hs) as (c' & o' & E & _ & Hr).
    exists c', o'. split; [done|]. by eapply replaced_frame.
  - intros k i c o Hi Hok. destruct (in_place_updater_spec k i c o Hok Hi) as (r & c' & o' & E & Ho).
    exists r, c', o'. split; [done|]. destruct r; simpl in Ho.
    + destruct Ho as (v & _ & Hr & _). by eapply replaced_frame.
    + subst. by apply frame_refl_ok.
    + destruct Ho as (_ & -> & _). by apply frame_refl_ok.
    + destruct Ho as (-> & _). by apply frame_refl_ok.
    + destruct Ho as (-> & _). by apply frame_refl_ok.
  - intros k i old c o o1 Hi Hold Hn Hs.
    destruct (copy_updater_spec k i old c o o1 Hold Hi Hn Hs) as (v & c' & o' & E & _ & Hr & _).
    exists c', o'. split; [done|]. by eapply replaced_frame.
Qed.

(** C31. SET XX without an expiry keeps the key's old TTL or drops it depending
    on where the record lives: the in-place path clears it, the copy path
    carries it over. *)
Theorem set_xx_ttl_depends_on_path k i c out new :
  cell_ok c -> input_ok i -> op i = SetXx -> in_expiration i = 0 ->
  expired c (now_ms i) = false -> c_expiration c <> 0 -> (length (operand i) <= c_cap c)%nat ->
  sized (str_copy_size k i c) k new ->
  (exists c', str_in_place_updater k i c out = Some (Updated, c', out) /\ c_expiration c' = 0) /\
  (exists new', str_need_copy_update k i c out = (Copy, out) /\
     str_copy_updater k i c new out = Some (new', out) /\ c_expiration new' = c_expiration c).
Proof.
  intros Hok Hi Ho He Hx Hne Hfit Hs.
  assert (Hn : str_need_copy_update k i c out = (Copy, out))
    by (unfold str_need_copy_update; by rewrite Hx, Ho).
  assert (Hslot : c_has_slot c = true).
  { destruct (c_has_slot c) eqn:E; [done|]. by rewrite no_slot_expiration in Hne. }
  split.
  - destruct (put_write c 0 (operand i) Hok is_i64_0 Hfit) as (c' & Hw & Hr).
    exists c'. unfold str_in_place_updater. rewrite Hx, Ho. unfold apply_ttl_in_place. rewrite Ho, He, Hslot.
    destruct (Nat.ltb_spec (c_cap c) (length (operand i))); [lia|]. simpl.
    unfold put_expiration in Hw. unfold c_set_expiration, c_has_slot in *. destruct (c_slot c); [|done].
    simpl in *. rewrite Hw. split; [done|]. by destruct Hr as (_ & _ & ? & _).
  - destruct (copy_updater_spec k i c new out out Hok Hi Hn Hs)
      as (v & new' & out' & E & _ & (_ & _ & Re & _) & _ & Hsp & _).
    destruct Hsp as [_ ->]; [done|by rewrite Ho|]. exists new'. split; [done|].
    unfold spec_reply in E. rewrite Ho in E. split; [done|].
    rewrite Re. unfold copy_ttl. by rewrite Ho, He, Hx.
Qed.

(** C32. GETEX on an expired key whose record is in the read-only region does
    not answer "not found": the copy path publishes a live record with an empty
    value, so the key comes back to life. *)
Theorem getex_revives_expired_key k i old new out :
  cell_ok old -> input_ok i -> op i = GetEx -> expired old (now_ms i) = true ->
  (in_expiration i = 0 \/ now_ms i < in_expiration i) -> sized (str_copy_size k i old) k new ->
  exists new' out', str_need_copy_update k i old out = (Copy, out) /\
    str_copy_updater k i old new out = Some (new', out') /\
    c_value new' = [] /\ expired new' (now_ms i) = false.
Proof.
  intros Hok Hi Ho Hx He Hs.
  assert (Hn : str_need_copy_update k i old out = (Copy, out))
    by (unfold str_need_copy_update; by rewrite Hx, Ho).
  destruct (copy_updater_spec k i old new out out Hok Hi Hn Hs)
    as (v & new' & out' & E & Hv & (R1 & _ & Re & _) & _ & _ & _).
  exists new', out'. split; [done|]. split; [done|]. unfold copy_value, old_val in Hv.
  rewrite Ho, Hx in Hv. injection Hv as <-. split; [done|].
  unfold expired. rewrite Re. unfold copy_ttl. rewrite Ho.
  destruct (c_has_slot new'); simpl; [|done].
  destruct (Z.eqb_spec (in_expiration i) 0); simpl; [done|]. apply Z.leb_gt. lia.
Qed.

(** ** Witnesses *)

Definition sample_cell (v : bytes) (slot : option Z) : cell := Cell VALID_BIT (bs "k") (length v) v slot.
Lemma sample_ok v slot : Z.of_nat (length v) < 2 ^ 32 ->
  match slot with Some ts => is_i64 ts | None => True end -> cell_ok (sample_cell v slot).
Proof.
  intros. unfold cell_ok, sample_cell, c_cap, is_u64, two64, VALID_BIT. simpl. split_and!; try done.
Qed.
Ltac sample := apply sample_ok; [simpl; lia|unfold is_i64, i64_min, i64_max; lia || done].
Ltac small_input := unfold input_ok, is_i64, i64_min, i64_max; simpl; lia.

Lemma update_paths_refine_command_witness :
  let i := Input IncrBy [] 5 0 0 in let c := sample_cell (bs "9") None in
  exists v new', str_copy_updater (bs "k") i c (c_init 0 false (str_copy_size (bs "k") i c) (bs "k"))
      output_default = Some (new', spec_reply i (c_value c) output_default) /\
    spec_value i (c_value c) = Some v /\ v = bs "14".
Proof.
  intros i c.
  destruct (proj2 (update_paths_refine_command (bs "k") i c output_default ltac:(sample)
    ltac:(small_input) eq_refl eq_refl) output_default
    (c_init 0 false (str_copy_size (bs "k") i c) (bs "k"))) as (v & new' & H1 & H2 & _).
  - reflexivity.
  - apply c_init_sized; [reflexivity|by split].
  - exists v, new'. split; [exact H1|]. split; [exact H2|]. vm_compute in H2. by injection H2.
Defined.

Lemma in_place_and_copy_agree_witness :
  let i := Input Append (bs "xy") 0 0 0 in
  let c := c_set_value_len (sample_cell (bs "abcd") (Some 99)) 2 in
  exists new', str_copy_updater (bs "k") i c (c_init 0 false (str_copy_size (bs "k") i c) (bs "k"))
      output_default = Some (new', set_int output_default 4) /\
    c_value new' = bs "abxy" /\ c_expiration new' = 99.
Proof.
  intros i c.
  destruct (in_place_and_copy_agree (bs "k") i c output_default
    (c_set_value_len (c_write_buf c 2 (bs "xy")) 4) (set_int output_default 4) output_default
    (c_init 0 false (str_copy_size (bs "k") i c) (bs "k"))) as (new' & H1 & H2 & H3);
    try reflexivity.
  - apply c_set_value_len_ok; [sample|unfold c_cap; simpl; lia].
  - small_input.
  - apply c_init_sized; [reflexivity|by split].
  - exists new'. split; [exact H1|]. split; [exact H2|exact H3].
Defined.

Lemma set_xx_ttl_depends_on_path_witness :
  let i := Input SetXx (bs "v") 0 0 10 in let c := sample_cell (bs "old") (Some 99) in
  exists new', str_copy_updater (bs "k") i c (c_init 0 false (str_copy_size (bs "k") i c) (bs "k"))
      output_default = Some (new', output_default) /\ c_expiration new' = 99.
Proof.
  intros i c.
  destruct (set_xx_ttl_depends_on_path (bs "k") i c output_default
    (c_init 0 false (str_copy_size (bs "k") i c) (bs "k"))) as [_ (new' & _ & H1 & H2)];
    [sample|small_input|done|done|done|done|by apply Nat.leb_le|apply c_init_sized; [reflexivity|by split]|].
  exists new'. split; [exact H1|exact H2].
Defined.

Lemma getex_revives_expired_key_witness :
  let i := Input GetEx [] 0 200 100 in let c := sample_cell (bs "old") (Some 99) in
  exists new' out', str_copy_updater (bs "k") i c (c_init 0 false (str_copy_size (bs "k") i c) (bs "k"))
      output_default = Some (new', out') /\ c_value new' = [] /\ expired new' 100 = false.
Proof.
  intros i c.
  destruct (getex_revives_expired_key (bs "k") i c
    (c_init 0 false (str_copy_size (bs "k") i c) (bs "k")) output_default)
    as (new' & out' & _ & H1 & H2 & H3); try reflexivity.
  - sample.
  - small_input.
  - right. simpl. lia.
  - apply c_init_sized; [reflexivity|by split].
  - exists new', out'. done.
Defined.
