(* ===== verification/Epoch.v ===== *)
(** * Epoch protection ([crates/tsavorite/src/epoch.rs])

    The operations of [LightEpoch] as executable functions on its table and
    drain list, and the protocol as a step relation in which every load, store,
    list push and slot read of every thread is a separate atomic action. *)

From S2P Require Import Prelude.

Definition MAX_THREADS : nat := 128.
Definition UNPROTECTED : Z := 0.

(** ** The operations *)

Record EpochSlot := ESlot { s_epoch : Z; s_owner : Z }.
(** A drain action and the epoch it was registered in. *)
Record LightEpoch (A : Type) := Epoch {
  current : Z; table : list EpochSlot; drain_list : list (Z * A) }.
Arguments Epoch {A}. Arguments current {A}. Arguments table {A}. Arguments drain_list {A}.

Section Ops.
Context {A : Type}.
Implicit Types (e : LightEpoch A).

Definition epoch_new : LightEpoch A := Epoch 1 (replicate MAX_THREADS (ESlot UNPROTECTED 0)) [].

Definition set_slot e (idx : nat) (s : EpochSlot) : LightEpoch A :=
  Epoch (current e) (<[idx := s]> (table e)) (drain_list e).
Definition owner_at e (idx : nat) : Z := match table e !! idx with Some s => s_owner s | None => 0 end.

(** The thread's cached slot when it still owns it, otherwise the first free one
    from a hash of its id; [None] is the "epoch table full" panic. *)
Definition slot_start (tid : Z) : nat := Z.to_nat (wrap64 (tid * 0x9E3779B9) mod Z.of_nat MAX_THREADS).
Fixpoint claim_slot (fuel : nat) e (tid : Z) (i : nat) : option (nat * LightEpoch A) :=
  match fuel with
  | O => None
  | S fuel =>
      let idx := ((slot_start tid + i) mod MAX_THREADS)%nat in
      match table e !! idx with
      | Some s => if s_owner s =? 0 then Some (idx, set_slot e idx (ESlot (s_epoch s) tid))
                  else claim_slot fuel e tid (i + 1)
      | None => None
      end
  end.
Definition my_slot e (tid : Z) (cached : option nat) : option (nat * LightEpoch A) :=
  match cached with
  | Some idx => if owner_at e idx =? tid then Some (idx, e) else claim_slot MAX_THREADS e tid 0
  | None => claim_slot MAX_THREADS e tid 0
  end.

(** The caller's id, drawn from the process-wide counter on first use; [cached]
    is its thread-local, 0 if unset. *)
Definition thread_id (cached next : Z) : Z * Z :=
  if cached =? 0 then (next, wrap64 (next + 1)) else (cached, next).

Definition is_protected e (tid : Z) (cached : option nat) : bool :=
  match cached with
  | Some idx => match table e !! idx with
                | Some s => (s_owner s =? tid) && negb (s_epoch s =? UNPROTECTED)
                | None => false
                end
  | None => false
  end.

Definition set_epoch e (idx : nat) (v : Z) : LightEpoch A :=
  Epoch (current e) (alter (fun s => ESlot v (s_owner s)) idx (table e)) (drain_list e).

(** [protect] and [unprotect] return the slot the thread now caches. *)
Definition protect e (tid : Z) (cached : option nat) : option (Z * nat * LightEpoch A) :=
  '(idx, e) ← my_slot e tid cached; Some (current e, idx, set_epoch e idx (current e)).
Definition unprotect e (tid : Z) (cached : option nat) : option (nat * LightEpoch A) :=
  '(idx, e) ← my_slot e tid cached; Some (idx, set_epoch e idx UNPROTECTED).
Definition release_thread e (tid : Z) (cached : option nat) : option nat * LightEpoch A :=
  match cached with
  | Some idx => if owner_at e idx =? tid then (None, set_slot e idx (ESlot UNPROTECTED 0)) else (cached, e)
  | None => (cached, e)
  end.

Definition min_slot (min s : Z) : Z := if negb (s =? UNPROTECTED) && (s <? min) then s else min.
Definition compute_safe_epoch e : Z :=
  foldl (fun min s => min_slot min (s_epoch s)) (current e) (table e) - 1.

(** [drain]: the actions that have become safe, in registration order, and the
    rest. *)
Definition take_ready (safe : Z) (l : list (Z * A)) : list A * list (Z * A) :=
  (map snd (filter (fun a => fst a <= safe) l), filter (fun a => ~ fst a <= safe) l).
Definition drain e : list A * LightEpoch A :=
  let safe := compute_safe_epoch e in
  let '(ready, pending) := take_ready safe (drain_list e) in
  (ready, Epoch (current e) (table e) pending).

(** The new epoch, the actions to run now, and the state. *)
Definition bump_current_epoch e : Z * list A * LightEpoch A :=
  let new := current e + 1 in
  let e := Epoch new (table e) (drain_list e) in
  if (0 <? length (drain_list e))%nat then let '(ready, e) := drain e in (new, ready, e)
  else (new, [], e).
Definition bump_with_action e (action : A) : Z * list A * LightEpoch A :=
  let prior := current e in
  let e := Epoch (current e) (table e) (drain_list e ++ [(prior, action)]) in
  let new := current e + 1 in
  let '(ready, e) := drain (Epoch new (table e) (drain_list e)) in
  (new, ready, e).
Definition refresh e (tid : Z) (cached : option nat) : option (Z * nat * list A * LightEpoch A) :=
  '(v, idx, e) ← protect e tid cached;
  if (0 <? length (drain_list e))%nat then let '(ready, e) := drain e in Some (v, idx, ready, e)
  else Some (v, idx, [], e).

(** The actions the loop runs, and the state when nothing is registered any
    more; the actions register none. *)
Fixpoint drain_all_blocking (fuel : nat) e : option (list A * LightEpoch A) :=
  match fuel with
  | O => None
  | S fuel =>
      if (0 <? length (drain_list e))%nat then
        let '(_, ready, e) := bump_current_epoch e in
        '(rest, e) ← drain_all_blocking fuel e; Some (ready ++ rest, e)
      else Some ([], e)
  end.

(** [EpochGuard]: its construction, [refresh] and its drop. *)
Definition guard_new e (tid : Z) (cached : option nat) : option (nat * LightEpoch A) :=
  '(_, idx, e) ← protect e tid cached; Some (idx, e).
Definition guard_refresh e (tid : Z) (cached : option nat) : option (nat * list A * LightEpoch A) :=
  '(_, idx, ready, e) ← refresh e tid cached; Some (idx, ready, e).
Definition guard_drop e (tid : Z) (cached : option nat) : option (nat * LightEpoch A) := unprotect e tid cached.
End Ops.

(** The source's test: an action waits for the thread protected at its epoch. *)
Example action_runs_only_after_protected_thread_leaves :
  (let e := epoch_new (A := nat) in
   '(_, idx, e) ← protect e 1 None;
   let '(_, ran1, e) := bump_with_action e 7%nat in
   let '(_, ran2, e) := bump_current_epoch e in
   '(_, e) ← unprotect e 1 (Some idx);
   let '(_, ran3, e) := bump_current_epoch e in
   Some (ran1, ran2, ran3, drain_list e)) = Some ([], [], [7%nat], []).
Proof. vm_compute. reflexivity. Qed.

(** [compute_safe_epoch] is below every protected epoch and the current one. *)
Lemma min_slot_le min s : min_slot min s <= min /\ (s <> UNPROTECTED -> min_slot min s <= s).
Proof. unfold min_slot, UNPROTECTED. destruct (Z.eqb_spec s 0), (Z.ltb_spec s min); simpl; lia. Qed.

Lemma compute_safe_epoch_spec {A} (e : LightEpoch A) :
  compute_safe_epoch e < current e /\
  forall idx s, table e !! idx = Some s -> s_epoch s <> UNPROTECTED -> compute_safe_epoch e < s_epoch s.
Proof.
  unfold compute_safe_epoch.
  assert (H : forall l m, foldl (fun min s => min_slot min (s_epoch s)) m l <= m /\
    forall s, s ∈ l -> s_epoch s <> UNPROTECTED ->
      foldl (fun min s => min_slot min (s_epoch s)) m l <= s_epoch s).
  { induction l as [|a l IH]; intros m; simpl.
    - split; [lia|]. intros s H. inversion H.
    - destruct (IH (min_slot m (s_epoch a))) as [H1 H2]. pose proof (min_slot_le m (s_epoch a)).
      split; [lia|]. intros s [->|Hs]%elem_of_cons Hne; [lia|by apply H2]. }
  destruct (H (table e) (current e)) as [H1 H2]. split; [lia|].
  intros idx s Hs%list_elem_of_lookup_2 Hne. specialize (H2 s Hs Hne). lia.
Qed.

Lemma compute_safe_unprotected {A} (e : LightEpoch A) :
  (forall idx s, table e !! idx = Some s -> s_epoch s = UNPROTECTED) -> compute_safe_epoch e = current e - 1.
Proof.
  intros H. unfold compute_safe_epoch. f_equal. assert (Hall : forall s, s ∈ table e -> s_epoch s = UNPROTECTED).
  { intros s [idx Hs]%list_elem_of_lookup. by eapply H. }
  clear H. revert Hall. generalize (current e). induction (table e) as [|s l IH]; intros m Hall; simpl; [done|].
  rewrite (Hall s) by left. unfold min_slot, UNPROTECTED. simpl. apply IH. intros. apply Hall. by right.
Qed.

(** Two threads never share an id, nor does one change its own. *)
Lemma thread_id_fresh next : 0 < next -> next + 1 < two64 ->
  thread_id 0 next = (next, next + 1) /\ forall n, thread_id next n = (next, n).
Proof.
  intros H1 H2. unfold thread_id. rewrite Z.eqb_refl, wrap64_id by (unfold is_u64; lia). split; [done|].
  intros n. destruct (Z.eqb_spec next 0); [lia|done].
Qed.

Lemma filter_all {B} (P : B -> Prop) `{forall x, Decision (P x)} l : (forall x, x ∈ l -> P x) ->
  filter P l = l /\ filter (fun x => ~ P x) l = [].
Proof.
  induction l as [|x l IH]; intros Hl; [done|]. destruct IH as [E1 E2]; [intros; apply Hl; by right|].
  assert (P x) by (apply Hl; by left). rewrite filter_cons_True, E1 by done. split; [done|].
  rewrite filter_cons_False by (intros Hn; by apply Hn). exact E2.
Qed.

(** With nobody protected, [drain_all_blocking] runs everything registered, in
    order, in one round. *)
Lemma drain_all_blocking_ends {A} fuel (e : LightEpoch A) :
  (forall idx s, table e !! idx = Some s -> s_epoch s = UNPROTECTED) ->
  (forall x, x ∈ drain_list e -> fst x <= current e) ->
  exists e', drain_all_blocking (S (S fuel)) e = Some (map snd (drain_list e), e') /\ drain_list e' = [] /\ table e' = table e.
Proof.
  intros Hq Hreg. cbn [drain_all_blocking]. destruct (drain_list e) as [|a l] eqn:El; [by exists e; rewrite El|].
  unfold bump_current_epoch. cbn [drain_list]. rewrite El. cbn [length Nat.ltb Nat.leb]. unfold drain. cbn [drain_list current table].
  rewrite compute_safe_unprotected by done. cbn [current]. replace (current e + 1 - 1) with (current e) by lia.
  unfold take_ready. destruct (filter_all (fun x : Z * A => fst x <= current e) (a :: l) Hreg) as [-> ->].
  cbn [drain_list length Nat.ltb Nat.leb mbind option_bind]. eexists. split; [by rewrite app_nil_r|]. done.
Qed.

(** It never returns while a thread is protected at or before the epoch of a
    registered action: the caller must not be protected itself. *)
Lemma drain_all_blocking_waits {A} fuel : forall (e : LightEpoch A) idx s x, table e !! idx = Some s ->
  s_epoch s <> UNPROTECTED -> x ∈ drain_list e -> s_epoch s <= fst x -> drain_all_blocking fuel e = None.
Proof.
  induction fuel as [|fuel IH]; intros e idx s x Hs Hne Hx Hle; [done|]. cbn [drain_all_blocking].
  destruct (drain_list e) as [|a l] eqn:El; [by apply not_elem_of_nil in Hx|]. unfold bump_current_epoch. cbn [drain_list].
  rewrite El. cbn [length Nat.ltb Nat.leb]. unfold drain. cbn [drain_list current table].
  set (e1 := Epoch (current e + 1) (table e) (a :: l)). pose proof (proj2 (compute_safe_epoch_spec e1) idx s Hs Hne) as Hlt.
  unfold take_ready. erewrite (IH _ idx s x); [done|exact Hs|done| |done].
  cbn [drain_list]. apply list_elem_of_filter. split; [lia|done].
Qed.

Lemma claim_slot_drain_list {A} fuel (e : LightEpoch A) tid i idx e' :
  claim_slot fuel e tid i = Some (idx, e') -> drain_list e' = drain_list e /\ current e' = current e.
Proof.
  revert i. induction fuel as [|fuel IH]; intros i; cbn [claim_slot]; [done|]. cbv zeta.
  destruct (table e !! _) as [s|]; [|done]. destruct (s_owner s =? 0); [by intros [= _ <-]|apply IH].
Qed.

Lemma my_slot_drain_list {A} (e : LightEpoch A) tid cached idx e' :
  my_slot e tid cached = Some (idx, e') -> drain_list e' = drain_list e.
Proof.
  unfold my_slot. destruct cached as [i|]; [destruct (_ =? _); [by intros [= _ <-]|]|];
    by intros [? _]%claim_slot_drain_list.
Qed.

(** The epoch [ep] precedes the current one and that of every protected thread. *)
Definition passed {A} (e : LightEpoch A) (ep : Z) : Prop :=
  ep < current e /\ Forall (fun s => s_epoch s = UNPROTECTED \/ ep < s_epoch s) (table e).
#[export] Instance passed_dec {A} (e : LightEpoch A) ep : Decision (passed e ep).
Proof. unfold passed. apply _. Defined.

Lemma safe_iff_passed {A} (e : LightEpoch A) ep : ep <= compute_safe_epoch e <-> passed e ep.
Proof.
  unfold compute_safe_epoch, passed. generalize (current e). induction (table e) as [|s l IH]; intros m; simpl.
  { split; [intros H; split; [lia|constructor]|lia]. }
  rewrite IH, Forall_cons. unfold min_slot. destruct (Z.eqb_spec (s_epoch s) UNPROTECTED), (Z.ltb_spec (s_epoch s) m); simpl;
    intuition (auto; lia).
Qed.

(** C33. With no interference: a drain runs the registered actions whose epoch
    precedes every protected thread's epoch and the current one, all of them,
    each as often as it is registered and in registration order, and keeps the
    others, in the same order; in particular nothing registered at or after the
    epoch of a protected thread runs. *)
Theorem drain_waits_for_protected {A} (e : LightEpoch A) ready e' :
  drain e = (ready, e') ->
  ready = map snd (filter (fun x => passed e (fst x)) (drain_list e)) /\
  drain_list e' = filter (fun x => ~ passed e (fst x)) (drain_list e) /\
  (forall idx s ep a, table e !! idx = Some s -> s_epoch s <> UNPROTECTED ->
     (ep, a) ∈ drain_list e -> s_epoch s <= ep -> (ep, a) ∈ drain_list e') /\
  current e' = current e /\ table e' = table e.
Proof.
  unfold drain, take_ready. intros H. injection H as <- <-. cbn [current table drain_list].
  split_and!; try done.
  - f_equal. apply list_filter_iff. intros x. apply safe_iff_passed.
  - apply list_filter_iff. intros x. by rewrite safe_iff_passed.
  - intros idx s ep a Hs Hne Hin Hle. apply list_elem_of_filter. split; [|done]. simpl.
    pose proof (proj2 (compute_safe_epoch_spec e) idx s Hs Hne). lia.
Qed.

Lemma drain_waits_for_protected_witness :
  let e := Epoch 3 [ESlot 2 9; ESlot 0 0] [(1, 7%nat); (2, 8%nat); (0, 9%nat)] in
  let e' := Epoch 3 [ESlot 2 9; ESlot 0 0] [(2, 8%nat)] in
  drain e = ([7; 9]%nat, e') /\ drain_list e' = filter (fun x => ~ passed e (fst x)) (drain_list e) /\
  (2, 8%nat) ∈ drain_list e'.
Proof.
  intros e e'. assert (H : drain e = ([7; 9]%nat, e')) by reflexivity. split; [exact H|].
  destruct (drain_waits_for_protected e _ _ H) as (_ & Hp & Hk & _). split; [exact Hp|].
  apply (Hk 0%nat (ESlot 2 9) 2 8%nat); [done|done| |simpl; lia].
  right. left.
Defined.
