(* ===== verification/EpochProtocol.v ===== *)
(** * Why epoch protection is safe ([crates/tsavorite/src/epoch.rs])

    Threads that protect themselves, read a boundary of the log and follow
    pointers above it, against threads that advance the boundary and register
    the reclamation of what lies below it ([bump_with_action], as the log uses
    it).  Each step is one atomic access of the code. *)

From stdpp Require Import functions.
From S2P Require Import Prelude Epoch.

(** Where a thread is in [bump_with_action] and [drain]. *)
Inductive act_pc :=
  | NoAct
  | Published (b : Z)              (** boundary [b] published, [prior] not read *)
  | PriorRead (b e : Z)            (** [prior = e] *)
  | Pushed                         (** action in the list, epoch not yet bumped *)
  | Scan (i : nat) (cur min : Z)   (** [compute_safe_epoch], slots below [i] seen *)
  | Running (bs : list Z).         (** actions taken from the list *)

(** A thread's table slot, the epoch [protect] or [refresh] has loaded but not
    stored, and the lowest boundary it has read since it (re)entered. *)
Record thread := Thr { slot : Z; loaded : option Z; snap : option Z; act : act_pc }.
Record world := World {
  cur : Z; boundary : Z; closed : Z; pending : list (Z * Z); thr : nat -> thread }.

Definition with_thr (w : world) (t : nat) (x : thread) : world :=
  World (cur w) (boundary w) (closed w) (pending w) (<[t := x]> (thr w)).

(** Thread [t] performs one atomic access. *)
Inductive epoch_step (w : world) (t : nat) : world -> Prop :=
  (* protect, refresh *)
  | protect_load x : thr w t = x ->
      epoch_step w t (with_thr w t (Thr (slot x) (Some (cur w)) (snap x) (act x)))
  | protect_store x e : thr w t = x -> loaded x = Some e ->
      epoch_step w t (with_thr w t (Thr e None None (act x)))
  (* a protected thread reads the boundary *)
  | read_boundary x : thr w t = x -> slot x <> UNPROTECTED ->
      epoch_step w t (with_thr w t (Thr (slot x) (loaded x)
        (Some (match snap x with Some b => Z.min b (boundary w) | None => boundary w end)) (act x)))
  | unprotect_store x : thr w t = x ->
      epoch_step w t (with_thr w t (Thr UNPROTECTED (loaded x) None (act x)))
  (* the boundary shift, then bump_with_action *)
  | publish x b : thr w t = x -> act x = NoAct -> boundary w <= b ->
      epoch_step w t (World (cur w) b (closed w) (pending w)
        (<[t := Thr (slot x) (loaded x) (snap x) (Published b)]> (thr w)))
  | prior_load x b : thr w t = x -> act x = Published b ->
      epoch_step w t (with_thr w t (Thr (slot x) (loaded x) (snap x) (PriorRead b (cur w))))
  | push x b e : thr w t = x -> act x = PriorRead b e ->
      epoch_step w t (World (cur w) (boundary w) (closed w) (pending w ++ [(e, b)])
        (<[t := Thr (slot x) (loaded x) (snap x) Pushed]> (thr w)))
  | bump_after_push x : thr w t = x -> act x = Pushed ->
      epoch_step w t (World (cur w + 1) (boundary w) (closed w) (pending w)
        (<[t := Thr (slot x) (loaded x) (snap x) NoAct]> (thr w)))
  (* bump_current_epoch *)
  | bump : epoch_step w t (World (cur w + 1) (boundary w) (closed w) (pending w) (thr w))
  (* drain: compute_safe_epoch reads the epoch, then each slot *)
  | scan_start x : thr w t = x -> act x = NoAct ->
      epoch_step w t (with_thr w t (Thr (slot x) (loaded x) (snap x) (Scan 0 (cur w) (cur w))))
  | scan_slot x i c m : thr w t = x -> act x = Scan i c m -> (i < MAX_THREADS)%nat ->
      epoch_step w t (with_thr w t (Thr (slot x) (loaded x) (snap x)
        (Scan (S i) c (min_slot m (slot (thr w i))))))
  | try_lock_failed x c m : thr w t = x -> act x = Scan MAX_THREADS c m ->
      epoch_step w t (with_thr w t (Thr (slot x) (loaded x) (snap x) NoAct))
  | take x c m : thr w t = x -> act x = Scan MAX_THREADS c m ->
      epoch_step w t (World (cur w) (boundary w) (closed w) (snd (take_ready (m - 1) (pending w)))
        (<[t := Thr (slot x) (loaded x) (snap x) (Running (fst (take_ready (m - 1) (pending w))))]> (thr w)))
  | run_action x b bs : thr w t = x -> act x = Running (b :: bs) ->
      epoch_step w t (World (cur w) (boundary w) (Z.max (closed w) b) (pending w)
        (<[t := Thr (slot x) (loaded x) (snap x) (Running bs)]> (thr w)))
  | run_done x : thr w t = x -> act x = Running [] ->
      epoch_step w t (with_thr w t (Thr (slot x) (loaded x) (snap x) NoAct)).

Definition epoch_start (b0 : Z) : world :=
  World 1 b0 b0 [] (fun _ => Thr UNPROTECTED None None NoAct).
(** Any thread of the table moves. *)
Definition step (w w' : world) : Prop := exists t, (t < MAX_THREADS)%nat /\ epoch_step w t w'.

(** ** The invariant *)

(** No thread holds a boundary older than [b]. *)
Definition unreachable (w : world) (b : Z) : Prop :=
  b <= boundary w /\ forall t s, snap (thr w t) = Some s -> b <= s.
(** The action [(e, b)] is registered or about to be. *)
Definition registered (w : world) (e b : Z) : Prop :=
  (e, b) ∈ pending w \/ exists t, act (thr w t) = PriorRead b e.
(** Threads that still hold a boundary older than [b] entered by epoch [e]. *)
Definition waits (w : world) (e b : Z) : Prop :=
  e <= cur w /\ b <= boundary w /\
  forall t s, snap (thr w t) = Some s -> s < b -> slot (thr w t) <= e.

(** What a thread's position in [bump_with_action] or [drain] promises: the
    slots a scan has passed are at least its minimum for every thread that could
    still be hurt by an action it may take. *)
Definition act_ok (w : world) (a : act_pc) : Prop :=
  match a with
  | NoAct | Pushed => True
  | Published b => b <= boundary w
  | PriorRead b e => waits w e b
  | Scan i c m => m <= c <= cur w /\
      forall e b, registered w e b -> e < c -> forall t s, (t < i)%nat ->
        snap (thr w t) = Some s -> s < b -> m <= slot (thr w t)
  | Running bs => forall b, b ∈ bs -> unreachable w b
  end.

(** Each thread's own variables. *)
Definition thread_ok (w : world) (t : nat) : Prop :=
  0 <= slot (thr w t) <= cur w /\
  (forall e, loaded (thr w t) = Some e -> 0 < e <= cur w) /\
  (forall s, snap (thr w t) = Some s ->
     (t < MAX_THREADS)%nat /\ slot (thr w t) <> UNPROTECTED /\ s <= boundary w).

Record epoch_inv (w : world) : Prop := {
  inv_cur : 0 < cur w;
  inv_thread : forall t, thread_ok w t;
  inv_registered : forall e b, registered w e b -> waits w e b;
  inv_act : forall t, act_ok w (act (thr w t));
  inv_closed : unreachable w (closed w) }.

Lemma thr_eq (w : nat -> thread) t x : (<[t := x]> w) t = x.
Proof. by rewrite fn_lookup_insert. Qed.
Lemma thr_ne (w : nat -> thread) t t' x : t <> t' -> (<[t := x]> w) t' = w t'.
Proof. intros. by rewrite fn_lookup_insert_ne. Qed.

(** Case analysis on whether a thread is the one that moved. *)
Ltac thr_cases :=
  repeat match goal with
  | H : context [(<[?t := ?x]> ?f) ?t] |- _ => rewrite thr_eq in H
  | |- context [(<[?t := ?x]> ?f) ?t] => rewrite thr_eq
  | Hne : ?t <> ?t', H : context [(<[?t := ?x]> ?f) ?t'] |- _ => rewrite (thr_ne f t t' x Hne) in H
  | Hne : ?t <> ?t' |- context [(<[?t := ?x]> ?f) ?t'] => rewrite (thr_ne f t t' x Hne)
  | H : context [(<[?t := ?x]> ?f) ?t'] |- _ =>
      destruct (decide (t = t')) as [<-|];
      [rewrite thr_eq in H | rewrite thr_ne in H by done]
  | |- context [(<[?t := ?x]> ?f) ?t'] =>
      destruct (decide (t = t')) as [<-|];
      [rewrite thr_eq | rewrite thr_ne by done]
  end.

(** ** Preservation *)

(** No thread gains an old boundary: what is unreachable stays so. *)
Definition calmer (w w' : world) : Prop :=
  cur w <= cur w' /\ boundary w <= boundary w' /\
  forall t s, snap (thr w' t) = Some s ->
    boundary w <= s \/ (snap (thr w t) = Some s /\ slot (thr w' t) = slot (thr w t)).

Lemma calmer_unreachable w w' b : calmer w w' -> unreachable w b -> unreachable w' b.
Proof.
  intros (_ & Hb & Hs) [H1 H2]. split; [lia|]. intros t s Ht.
  destruct (Hs _ _ Ht) as [?|[H' _]]; [lia|by eapply H2].
Qed.

Lemma calmer_waits w w' e b : calmer w w' -> waits w e b -> waits w' e b.
Proof.
  intros (Hc & Hb & Hs) (H1 & H2 & H3). split_and!; [lia|lia|]. intros t s Ht Hlt.
  destruct (Hs _ _ Ht) as [?|[H' ->]]; [lia|by eapply H3].
Qed.

(** The step may register an action of the current epoch and change the acts of
    threads for which [act_ok] is shown afresh. *)
Lemma inv_step w w' : epoch_inv w -> calmer w w' -> (forall t, thread_ok w' t) ->
  (forall e b, registered w' e b -> registered w e b \/ (e = cur w /\ waits w' e b)) ->
  (forall t, act (thr w' t) = act (thr w t) \/ act_ok w' (act (thr w' t))) ->
  unreachable w' (closed w') -> epoch_inv w'.
Proof.
  intros Hi Hc Ht Hr Ha Hcl. pose proof (inv_cur _ Hi). split; [destruct Hc; lia|done| | |done].
  - intros e b Hreg. destruct (Hr _ _ Hreg) as [Hreg'|[_ ?]]; [|done].
    eapply calmer_waits; [done|]. by apply (inv_registered _ Hi).
  - intros t. destruct (Ha t) as [E|]; [|done]. rewrite E. pose proof (inv_act _ Hi t) as Hok.
    destruct (act (thr w t)) as [|b|b e| |i c m|bs]; simpl in *; try done.
    + destruct Hc as (_ & ? & _). lia.
    + by eapply calmer_waits.
    + destruct Hok as [Hm Hsc]. split; [destruct Hc; lia|]. intros e b Hreg Hlt t' s Hlt' Hs' Hsb.
      destruct (Hr _ _ Hreg) as [Hreg'|[-> _]]; [|lia].
      destruct (inv_registered _ Hi _ _ Hreg') as (_ & Hbb & _).
      destruct Hc as (_ & _ & Hsn). destruct (Hsn _ _ Hs') as [?|[H' ->]]; [lia|by eapply Hsc].
    + intros b Hb. eapply calmer_unreachable; [done|]. by apply Hok.
Qed.

(** Steps that move only thread [t]'s protection. *)
Lemma registered_same w t x : act x = act (thr w t) ->
  forall e b, registered (with_thr w t x) e b -> registered w e b.
Proof.
  intros Hx e b [?|[t' Ht']]; [by left|right]. simpl in Ht'. exists t'.
  by thr_cases; [rewrite <- Hx|].
Qed.

Lemma registered_quiet w t x e b : (forall b e, act x <> PriorRead b e) ->
  registered (with_thr w t x) e b -> registered w e b.
Proof.
  intros Hx [?|[t' Ht']]; [by left|right]. simpl in Ht'. exists t'.
  thr_cases; [by destruct (Hx b e)|done].
Qed.

Lemma calmer_same w w' : cur w <= cur w' -> boundary w <= boundary w' ->
  (forall t, snap (thr w' t) = snap (thr w t) /\ slot (thr w' t) = slot (thr w t)) -> calmer w w'.
Proof.
  intros ?? H. split_and!; [done..|]. intros t s Hs. destruct (H t) as [E1 E2]. right.
  by rewrite <- E1.
Qed.

Lemma thread_ok_same w w' t : cur w <= cur w' -> boundary w <= boundary w' ->
  snap (thr w' t) = snap (thr w t) -> slot (thr w' t) = slot (thr w t) ->
  loaded (thr w' t) = loaded (thr w t) -> thread_ok w t -> thread_ok w' t.
Proof.
  unfold thread_ok. intros ?? -> -> -> (H1 & H2 & H3). split_and!; [lia..| |].
  - intros e He. specialize (H2 e He). lia.
  - intros s Hs. destruct (H3 s Hs) as (? & ? & ?). split_and!; [done|done|lia].
Qed.

(** Only the position of [t] in [bump_with_action] or [drain] changes, and
    possibly the globals. *)
Lemma act_move w t x a c b cl p : epoch_inv w -> thr w t = x -> cur w <= c -> boundary w <= b ->
  let w' := World c b cl p (<[t := Thr (slot x) (loaded x) (snap x) a]> (thr w)) in
  (forall e b, registered w' e b -> registered w e b \/ (e = cur w /\ waits w' e b)) ->
  act_ok w' a -> unreachable w' cl -> epoch_inv w'.
Proof.
  intros Hi <- Hc Hb w' Hr Ha Hcl.
  assert (Hsame : forall t', snap (thr w' t') = snap (thr w t') /\ slot (thr w' t') = slot (thr w t') /\
    loaded (thr w' t') = loaded (thr w t')).
  { intros t'. unfold w'. simpl. by thr_cases. }
  apply (inv_step w w'); try done.
  - apply calmer_same; [done..|]. intros t'. by destruct (Hsame t') as (? & ? & _).
  - intros t'. destruct (Hsame t') as (? & ? & ?).
    apply (thread_ok_same w); [done..|]. by apply (inv_thread _ Hi).
  - intros t'. unfold w' in *. simpl in *. thr_cases; [by right|by left].
Qed.

Lemma unreachable_same w w' b : calmer w w' -> unreachable w b -> unreachable w' b.
Proof. apply calmer_unreachable. Qed.

Lemma act_move_calmer w t x a c b cl p : thr w t = x -> cur w <= c -> boundary w <= b ->
  calmer w (World c b cl p (<[t := Thr (slot x) (loaded x) (snap x) a]> (thr w))).
Proof. intros <- Hc Hb. apply calmer_same; [done..|]. intros t'. simpl. by thr_cases. Qed.

(** Only [t]'s protection changes: its slot, loaded epoch or snapshot. *)
Lemma protect_move w t x x' : epoch_inv w -> thr w t = x -> act x' = act x ->
  (forall s, snap x' = Some s -> boundary w <= s \/ (snap x = Some s /\ slot x' = slot x)) ->
  thread_ok (with_thr w t x') t -> epoch_inv (with_thr w t x').
Proof.
  intros Hi <- Ha Hs Hok.
  assert (Hc : calmer w (with_thr w t x')).
  { split_and!; [simpl; lia..|]. intros t' s Hs'. simpl in *. thr_cases; [by apply Hs|by right]. }
  apply (inv_step w); try done.
  - intros t'. destruct (decide (t = t')) as [<-|Hne]; [done|].
    apply (thread_ok_same w); simpl; rewrite ?thr_ne by done; try done. by apply (inv_thread _ Hi).
  - intros e b Hr. left. by apply (registered_same _ _ _ Ha).
  - intros t'. left. simpl. by thr_cases.
  - eapply calmer_unreachable; [done|apply (inv_closed _ Hi)].
Qed.

Lemma take_ready_ready {A} safe (l : list (Z * A)) a :
  a ∈ fst (take_ready safe l) <-> exists e, (e, a) ∈ l /\ e <= safe.
Proof.
  unfold take_ready. simpl. rewrite list_elem_of_fmap. split.
  - intros ([e a'] & -> & [? ?]%list_elem_of_filter). by exists e.
  - intros (e & ? & ?). exists (e, a). split; [done|]. by apply list_elem_of_filter.
Qed.

Lemma take_ready_pending {A} safe (l : list (Z * A)) x : x ∈ snd (take_ready safe l) -> x ∈ l.
Proof. unfold take_ready. simpl. by intros [_ ?]%list_elem_of_filter. Qed.

(** A complete scan: whatever it may take can no longer reach anyone. *)
Lemma scanned_unreachable w t c m e b : epoch_inv w -> act (thr w t) = Scan MAX_THREADS c m ->
  (e, b) ∈ pending w -> e <= m - 1 -> unreachable w b.
Proof.
  intros Hi Ha Hp Hle. assert (Hreg : registered w e b) by (by left).
  destruct (inv_registered _ Hi _ _ Hreg) as (_ & Hb & Hw). split; [done|]. intros t' s Hs.
  destruct (decide (b <= s)); [done|]. assert (Hlt : s < b) by lia.
  pose proof (inv_act _ Hi t) as Hok. rewrite Ha in Hok. destruct Hok as [Hm Hsc].
  destruct (inv_thread _ Hi t') as (_ & _ & Hth). destruct (Hth _ Hs) as (Ht' & _ & _).
  specialize (Hsc e b Hreg ltac:(lia) t' s Ht' Hs Hlt). specialize (Hw t' s Hs Hlt). lia.
Qed.

Lemma scan_slot_ok w t i c m : epoch_inv w -> act (thr w t) = Scan i c m ->
  act_ok w (Scan (S i) c (min_slot m (slot (thr w i)))).
Proof.
  intros Hi Ha. pose proof (inv_act _ Hi t) as Hok. rewrite Ha in Hok. destruct Hok as [Hm Hsc].
  destruct (min_slot_le m (slot (thr w i))) as [H1 H2]. split; [lia|].
  intros e b Hreg Hlt t' s Ht' Hs Hsb. destruct (decide (t' = i)) as [->|].
  - apply H2. destruct (inv_thread _ Hi i) as (_ & _ & Hth). by destruct (Hth _ Hs) as (_ & ? & _).
  - specialize (Hsc e b Hreg Hlt t' s ltac:(lia) Hs Hsb). lia.
Qed.

Lemma epoch_step_inv w t w' : (t < MAX_THREADS)%nat -> epoch_step w t w' -> epoch_inv w -> epoch_inv w'.
Proof.
  intros Ht Hstep Hi. pose proof (inv_thread _ Hi t) as (Hsl & Hld & Hsn).
  pose proof (inv_cur _ Hi) as Hcur. pose proof (inv_act _ Hi t) as Hact.
  destruct Hstep as [x Hx|x e Hx Hl|x Hx Hs|x Hx|x b Hx Ha Hb|x b Hx Ha|x b e Hx Ha|x Hx Ha| |x Hx Ha
    |x i c m Hx Ha Hlt|x c m Hx Ha|x c m Hx Ha|x b bs Hx Ha|x Hx Ha];
    rewrite ?Hx in *.
  - apply (protect_move w t x); try done; [intros s Hs; by right|].
    unfold thread_ok. simpl. rewrite thr_eq. simpl. split_and!; [lia..| |done].
    intros e [= <-]. lia.
  - apply (protect_move w t x); try done. specialize (Hld e Hl).
    unfold thread_ok. simpl. rewrite thr_eq. simpl. split_and!; [lia..|done|done].
  - apply (protect_move w t x); try done; simpl.
    + intros s [= <-]. destruct (snap x) as [b|] eqn:Es; [|left; lia].
      destruct (Hsn _ eq_refl) as (_ & _ & ?). right. split; [f_equal; lia|done].
    + unfold thread_ok. simpl. rewrite thr_eq. simpl. split_and!; [lia..|done|].
      intros s [= <-]. split_and!; [done|done|]. destruct (snap x); lia.
  - apply (protect_move w t x); try done. unfold thread_ok, UNPROTECTED. simpl. rewrite thr_eq. simpl.
    split_and!; [lia..|done|done].
  - apply act_move; try done; try lia; simpl; [|lia|].
    + intros e b' [Hp|[t' Ht']]; [left; by left|]. simpl in Ht'. thr_cases; [done|].
      left. right. by exists t'.
    + eapply calmer_unreachable; [by apply act_move_calmer|apply (inv_closed _ Hi)].
  - assert (Hw : waits (with_thr w t (Thr (slot x) (loaded x) (snap x) (PriorRead b (cur w)))) (cur w) b).
    { rewrite Ha in Hact. simpl in Hact. split_and!; simpl; [lia|done|]. intros t' s Hs' _.
      pose proof (proj1 (inv_thread _ Hi t')). thr_cases; simpl; lia. }
    apply act_move; try done; try lia.
    + intros e b' [Hp|[t' Ht']]; [left; by left|]. simpl in Ht'. thr_cases.
      * injection Ht' as <- <-. by right.
      * left. right. by exists t'.
    + eapply calmer_unreachable; [by apply act_move_calmer|apply (inv_closed _ Hi)].
  - rewrite Ha in Hact. simpl in Hact. apply act_move; try done; try lia.
    + intros e' b' [Hp|[t' Ht']].
      * simpl in Hp. apply elem_of_app in Hp as [Hp|Hp]; [left; by left|].
        apply list_elem_of_singleton in Hp. injection Hp as -> ->. left. right. exists t. by rewrite Hx.
      * simpl in Ht'. thr_cases; [done|]. left. right. by exists t'.
    + eapply calmer_unreachable; [by apply act_move_calmer|apply (inv_closed _ Hi)].
  - apply act_move; try done; try lia.
    + intros e' b' [Hp|[t' Ht']]; [left; by left|].
      simpl in Ht'. thr_cases; [done|]. left. right. by exists t'.
    + eapply calmer_unreachable; [apply act_move_calmer; [done|lia|lia]|apply (inv_closed _ Hi)].
  - assert (Hc : calmer w (World (cur w + 1) (boundary w) (closed w) (pending w) (thr w)))
      by (apply calmer_same; simpl; [lia|lia|done]).
    apply (inv_step w); try done.
    + intros t'. apply (thread_ok_same w); simpl; try done; [lia..|]. by apply (inv_thread _ Hi).
    + intros e b Hr. by left.
    + intros t'. by left.
    + eapply calmer_unreachable; [done|apply (inv_closed _ Hi)].
  - apply act_move; try done; try lia.
    + intros e b Hr. left. eapply registered_quiet; [|exact Hr]. done.
    + split; [simpl; lia|]. intros; lia.
    + eapply calmer_unreachable; [by apply act_move_calmer|apply (inv_closed _ Hi)].
  - assert (Hn : act_ok w (Scan (S i) c (min_slot m (slot (thr w i)))))
      by (apply (scan_slot_ok w t); [done|by rewrite Hx]).
    apply act_move; try done; try lia.
    + intros e b Hr. left. eapply registered_quiet; [|exact Hr]. done.
    + destruct Hn as [Hm Hsc]. split; [done|]. intros e b Hr Hlt' t' s Hi' Hs' Hsb.
      apply registered_quiet in Hr; [|done].
      assert (E : snap (thr w t') = Some s /\
        slot (thr (with_thr w t (Thr (slot x) (loaded x) (snap x)
          (Scan (S i) c (min_slot m (slot (thr w i)))))) t') = slot (thr w t')).
      { simpl in Hs' |- *. thr_cases; simpl in *; [by rewrite Hx|done]. }
      destruct E as [E1 E2]. unfold with_thr in E2. rewrite E2. by eapply Hsc.
    + eapply calmer_unreachable; [by apply act_move_calmer|apply (inv_closed _ Hi)].
  - apply act_move; try done; try lia.
    + intros e b Hr. left. eapply registered_quiet; [|exact Hr]. done.
    + eapply calmer_unreachable; [by apply act_move_calmer|apply (inv_closed _ Hi)].
  - apply act_move; try done; try lia.
    + intros e b [Hp|[t' Ht']]; [left; left; by eapply take_ready_pending|].
      simpl in Ht'. thr_cases; [done|]. left. right. by exists t'.
    + intros b (e & Hp & Hle)%take_ready_ready.
      eapply calmer_unreachable; [by apply act_move_calmer|].
      apply (scanned_unreachable w t c m e); try done. by rewrite Hx.
    + eapply calmer_unreachable; [by apply act_move_calmer|apply (inv_closed _ Hi)].
  - rewrite Ha in Hact. simpl in Hact.
    apply act_move; try done; try lia.
    + intros e b' [Hp|[t' Ht']]; [left; by left|]. simpl in Ht'. thr_cases; [done|].
      left. right. by exists t'.
    + intros b' Hb'. eapply calmer_unreachable; [by apply act_move_calmer|]. apply Hact. by right.
    + assert (H : unreachable w (Z.max (closed w) b)).
      { destruct (Hact b ltac:(by left)) as [B1 B2], (inv_closed _ Hi) as [C1 C2].
        split; [lia|]. intros t' s Hs. specialize (B2 _ _ Hs). specialize (C2 _ _ Hs). lia. }
      eapply calmer_unreachable; [by apply act_move_calmer|done].
  - apply act_move; try done; try lia.
    + intros e b Hr. left. eapply registered_quiet; [|exact Hr]. done.
    + eapply calmer_unreachable; [by apply act_move_calmer|apply (inv_closed _ Hi)].
Qed.

Lemma epoch_start_inv b0 : epoch_inv (epoch_start b0).
Proof.
  split; simpl; try done.
  - intros e b [H|[t H]]; [by apply elem_of_nil in H|done].
Qed.

Lemma epoch_reachable_inv b0 w : rtc step (epoch_start b0) w -> epoch_inv w.
Proof.
  intros Hr. pose proof (epoch_start_inv b0) as Hi. induction Hr as [|w1 w2 w3 (t & Ht & Hs) _ IH]; [done|].
  by eauto using epoch_step_inv.
Qed.

(** C11. Under every interleaving of the atomic accesses of all threads, what
    has been reclaimed never passes a boundary that a protected thread has
    read: a thread that protected itself, read the head (or read-only) address
    and still uses addresses above it never touches a page that has been
    closed (or a record another thread already treats as immutable), and
    reclamation never runs ahead of the published boundary. *)
Theorem protected_threads_never_see_reclaimed b0 w t s :
  rtc step (epoch_start b0) w -> snap (thr w t) = Some s ->
  closed w <= s /\ slot (thr w t) <> UNPROTECTED /\
  (forall t' b bs, act (thr w t') = Running (b :: bs) -> b <= s).
Proof.
  intros Hr Hs. pose proof (epoch_reachable_inv _ _ Hr) as Hi. split_and!.
  - by eapply (inv_closed _ Hi).
  - destruct (inv_thread _ Hi t) as (_ & _ & H). by destruct (H s Hs) as (_ & ? & _).
  - intros t' b bs Ha. pose proof (inv_act _ Hi t') as H. rewrite Ha in H. simpl in H.
    destruct (H b ltac:(by left)) as [_ H']. by eapply H'.
Qed.

(** A reader enters and reads boundary 64; a writer publishes 128 and registers
    its action in the same epoch. *)
Definition sample_world : world :=
  World 2 128 64 [(1, 128)]
    (<[1%nat := Thr UNPROTECTED None None NoAct]>
     (<[1%nat := Thr UNPROTECTED None None Pushed]>
      (<[1%nat := Thr UNPROTECTED None None (PriorRead 128 1)]>
       (<[1%nat := Thr UNPROTECTED None None (Published 128)]>
        (<[0%nat := Thr 1 None (Some 64) NoAct]>
         (<[0%nat := Thr 1 None None NoAct]>
          (<[0%nat := Thr UNPROTECTED (Some 1) None NoAct]> (thr (epoch_start 64))))))))).

Lemma protected_threads_never_see_reclaimed_witness :
  rtc step (epoch_start 64) sample_world /\ closed sample_world <= 64.
Proof.
  assert (H : rtc step (epoch_start 64) sample_world).
  { assert (H0 : (0 < MAX_THREADS)%nat) by (unfold MAX_THREADS; lia).
    assert (H1 : (1 < MAX_THREADS)%nat) by (unfold MAX_THREADS; lia).
    eapply rtc_l; [exists 0%nat; split; [done|eapply protect_load; reflexivity]|].
    eapply rtc_l; [exists 0%nat; split; [done|eapply (protect_store _ _ _ 1); reflexivity]|].
    eapply rtc_l; [exists 0%nat; split; [done|eapply read_boundary; [reflexivity|discriminate]]|].
    eapply rtc_l; [exists 1%nat; split; [done|eapply (publish _ _ _ 128); [reflexivity|reflexivity|simpl; lia]]|].
    eapply rtc_l; [exists 1%nat; split; [done|eapply (prior_load _ _ _ 128); reflexivity]|].
    eapply rtc_l; [exists 1%nat; split; [done|eapply (push _ _ _ 128 1); reflexivity]|].
    eapply rtc_l; [exists 1%nat; split; [done|eapply bump_after_push; reflexivity]|].
    apply rtc_refl. }
  split; [done|].
  apply (protected_threads_never_see_reclaimed 64 sample_world 0 64 H). reflexivity.
Defined.
