(* ===== verification/Device.v ===== *)
(** * The device ([crates/tsavorite/src/device.rs])

    [MemDevice], which behaves like the file of [FileDevice]: positioned writes
    that extend it with zeroes, reads that fail past its end.  The log sees it
    as the records written to it. *)

From S2P Require Import Prelude.

Abbreviation MemDevice := bytes (only parsing).
Definition device_new : MemDevice := [].

Definition device_resize (d : MemDevice) (n : nat) : MemDevice :=
  if (length d <? n)%nat then d ++ replicate (n - length d) 0 else d.
Definition write_at (d : MemDevice) (addr : nat) (data : bytes) : MemDevice :=
  splice addr data (device_resize d (addr + length data)).
(** [None] is [UnexpectedEof]. *)
Definition read_at (d : MemDevice) (addr n : nat) : option bytes :=
  if (length d <? addr + n)%nat then None else Some (slice addr (addr + n) d).

Lemma device_resize_spec d n : length (device_resize d n) = Nat.max (length d) n /\
  forall s e, (e <= length d)%nat -> slice s e (device_resize d n) = slice s e d.
Proof.
  unfold device_resize. destruct (Nat.ltb_spec (length d) n); [|split; [lia|done]].
  rewrite length_app, length_replicate. split; [lia|]. intros s e He. by apply slice_app_l.
Qed.
Lemma length_write_at d addr data : length (write_at d addr data) = Nat.max (length d) (addr + length data).
Proof.
  unfold write_at. destruct (device_resize_spec d (addr + length data)) as [Hl _]. rewrite length_splice; lia.
Qed.

(** What was written is read back; what was there before and lies elsewhere is
    still there; nothing past the end can be read. *)
Lemma read_after_write d addr data a n : 
  read_at (write_at d addr data) addr (length data) = Some data /\
  ((a + n <= addr \/ addr + length data <= a)%nat -> forall x, read_at d a n = Some x ->
    read_at (write_at d addr data) a n = Some x) /\
  (read_at (write_at d addr data) a n = None <-> (length d < a + n)%nat /\ (addr + length data < a + n)%nat).
Proof.
  destruct (device_resize_spec d (addr + length data)) as [Hl Hs]. unfold read_at. rewrite length_write_at. split_and!.
  - destruct (Nat.ltb_spec (Nat.max (length d) (addr + length data)) (addr + length data)); [lia|].
    f_equal. apply slice_splice_same. lia.
  - intros Hd x. destruct (Nat.ltb_spec (length d) (a + n)); [done|]. intros [= <-].
    destruct (Nat.ltb_spec (Nat.max (length d) (addr + length data)) (a + n)); [lia|]. f_equal.
    unfold write_at. rewrite slice_splice_out by lia. by apply Hs.
  - destruct (Nat.ltb_spec (Nat.max (length d) (addr + length data)) (a + n)); split; try done; lia.
Qed.

Example sparse_write : write_at device_new 2 [7; 8] = [0; 0; 7; 8] /\ read_at (write_at device_new 2 [7; 8]) 3 2 = None.
Proof. done. Qed.
