(* ===== verification/Log.v ===== *)
(** * The hybrid log ([crates/tsavorite/src/log.rs], [device.rs])

    A 48-bit address space whose tail lives in a circular buffer of pages and
    whose older pages live on a device.  A page is the map from offsets to the
    records laid out there (their byte images are [Record.cell_at]); the device
    is the map from addresses to the records written at them.  Boundary moves
    register a [log_action] with the epoch, which runs it when it drains. *)

From S2P Require Import Prelude Record Epoch.

Definition PAGE_HEADER_SIZE : Z := 64.
Definition FIRST_VALID_ADDRESS : Z := PAGE_HEADER_SIZE.

(** The closures handed to [bump_with_action]: [on_pages_marked_read_only],
    [on_pages_closed], and the one of a checkpoint that sets a flag. *)
Inductive log_action := MarkedReadOnly (new_ro : Z) | PagesClosed (new_head : Z) | PhaseObserved.

(** [pages] maps (slot, offset) to the record starting there; an absent entry
    is zeroed memory. *)
Record HybridLog := Log {
  page_bits : Z; buffer_size : Z; mutable_pages : Z;
  pages : gmap (Z * Z) cell;
  tail : word;
  begin_address : Z; closed_until_address : Z; safe_head_address : Z; head_address : Z;
  flushed_until_address : Z; safe_read_only_address : Z; read_only_address : Z;
  device : gmap Z cell;
  epoch : LightEpoch log_action }.

(** *** Field updates *)

Definition set_pages (l : HybridLog) x := Log (page_bits l) (buffer_size l) (mutable_pages l) x (tail l)
  (begin_address l) (closed_until_address l) (safe_head_address l) (head_address l)
  (flushed_until_address l) (safe_read_only_address l) (read_only_address l) (device l) (epoch l).
Definition set_tail (l : HybridLog) x := Log (page_bits l) (buffer_size l) (mutable_pages l) (pages l) x
  (begin_address l) (closed_until_address l) (safe_head_address l) (head_address l)
  (flushed_until_address l) (safe_read_only_address l) (read_only_address l) (device l) (epoch l).
Definition set_closed (l : HybridLog) x := Log (page_bits l) (buffer_size l) (mutable_pages l) (pages l)
  (tail l) (begin_address l) x (safe_head_address l) (head_address l)
  (flushed_until_address l) (safe_read_only_address l) (read_only_address l) (device l) (epoch l).
Definition set_safe_head (l : HybridLog) x := Log (page_bits l) (buffer_size l) (mutable_pages l) (pages l)
  (tail l) (begin_address l) (closed_until_address l) x (head_address l)
  (flushed_until_address l) (safe_read_only_address l) (read_only_address l) (device l) (epoch l).
Definition set_head (l : HybridLog) x := Log (page_bits l) (buffer_size l) (mutable_pages l) (pages l)
  (tail l) (begin_address l) (closed_until_address l) (safe_head_address l) x
  (flushed_until_address l) (safe_read_only_address l) (read_only_address l) (device l) (epoch l).
Definition set_flushed (l : HybridLog) d x := Log (page_bits l) (buffer_size l) (mutable_pages l) (pages l)
  (tail l) (begin_address l) (closed_until_address l) (safe_head_address l) (head_address l)
  x (safe_read_only_address l) (read_only_address l) d (epoch l).
Definition set_safe_read_only (l : HybridLog) x := Log (page_bits l) (buffer_size l) (mutable_pages l)
  (pages l) (tail l) (begin_address l) (closed_until_address l) (safe_head_address l) (head_address l)
  (flushed_until_address l) x (read_only_address l) (device l) (epoch l).
Definition set_read_only (l : HybridLog) x := Log (page_bits l) (buffer_size l) (mutable_pages l) (pages l)
  (tail l) (begin_address l) (closed_until_address l) (safe_head_address l) (head_address l)
  (flushed_until_address l) (safe_read_only_address l) x (device l) (epoch l).
Definition set_epoch_state (l : HybridLog) x := Log (page_bits l) (buffer_size l) (mutable_pages l)
  (pages l) (tail l) (begin_address l) (closed_until_address l) (safe_head_address l) (head_address l)
  (flushed_until_address l) (safe_read_only_address l) (read_only_address l) (device l) x.

(** *** Addresses *)

Definition pack (page offset : Z) : word := Z.lor (Z.shiftl page 32) offset.
Definition unpack (w : word) : Z * Z := (Z.shiftr w 32, Z.land w (Z.ones 32)).

Definition page_size (l : HybridLog) : Z := 2 ^ page_bits l.
Definition page_of (l : HybridLog) (addr : Z) : Z := Z.shiftr addr (page_bits l).
(** The index of a page in the circular buffer. *)
Definition slot_of (l : HybridLog) (page : Z) : Z := Z.land page (buffer_size l - 1).
Definition offset_of (l : HybridLog) (addr : Z) : Z := Z.land addr (page_size l - 1).

(** [HybridLog::new]; [mutable] is the floating-point product
    [ceil(buffer_size * mutable_fraction)], computed by the caller. *)
Definition log_new (page_bits memory_pages mutable : Z) : option HybridLog :=
  if negb ((9 <=? page_bits) && (page_bits <=? 30)) then None else
  let buffer_size := 2 ^ Z.log2_up (Z.max memory_pages 2) in
  let mutable_pages := Z.min (Z.max mutable 1) (buffer_size - 1) in
  Some (Log page_bits buffer_size mutable_pages ∅ (pack 0 FIRST_VALID_ADDRESS)
    FIRST_VALID_ADDRESS 0 FIRST_VALID_ADDRESS FIRST_VALID_ADDRESS FIRST_VALID_ADDRESS
    FIRST_VALID_ADDRESS FIRST_VALID_ADDRESS ∅ epoch_new).

(** [tail_address]: it spins while the offset is past the page; [None] is that
    loop not ending. *)
Definition tail_address (l : HybridLog) : option Z :=
  let '(page, off) := unpack (tail l) in
  if off <=? page_size l then Some (Z.lor (Z.shiftl page (page_bits l)) off) else None.

Definition mem_key (l : HybridLog) (addr : Z) : Z * Z := (slot_of l (page_of l addr), offset_of l addr).
(** The record in memory at an address, and writing it back. *)
Definition record_at (l : HybridLog) (addr : Z) : option cell := pages l !! mem_key l addr.
Definition put_record (l : HybridLog) (addr : Z) (c : cell) : HybridLog :=
  set_pages l (<[mem_key l addr := c]> (pages l)).
Definition zero_page (l : HybridLog) (page : Z) : HybridLog :=
  set_pages l (filter (fun p => fst (fst p) <> slot_of l page) (pages l)).

(** *** The device *)

(** [write_at(addr, bytes)] where [bytes] is the memory of a page from offset
    [start_] to [end_]: the records laid out there replace whatever the device
    held in that range. *)
Definition write_range (l : HybridLog) (page start_ end_ : Z) (dev : gmap Z cell) : gmap Z cell :=
  let base := Z.shiftl page (page_bits l) in
  map_fold (fun k c dev => if bool_decide (fst k = slot_of l page /\ start_ <= snd k < end_)
                           then <[base + snd k := c]> dev else dev)
    (filter (fun p => ~ (base + start_ <= fst p < base + end_)) dev) (pages l).

Definition read_record_from_disk (l : HybridLog) (addr : Z) : option cell := device l !! addr.

(** *** Allocation *)

Definition page_is_free (l : HybridLog) (page : Z) : bool :=
  if page <? buffer_size l then true
  else Z.shiftl (page - buffer_size l + 1) (page_bits l) <=? closed_until_address l.

(** [flush_until]: from [flushed_until_address], one page segment at a time. *)
Fixpoint flush_loop (fuel : nat) (l : HybridLog) (addr until : Z) (dev : gmap Z cell)
    : option (gmap Z cell) :=
  match fuel with
  | O => None
  | S fuel =>
      if addr <? until then
        let page := page_of l addr in
        let page_start := Z.shiftl page (page_bits l) in
        let start_ := addr - page_start in
        let end_ := Z.min until (page_start + page_size l) - page_start in
        flush_loop fuel l (page_start + end_) until (write_range l page start_ end_ dev)
      else Some dev
  end.
(** Every iteration advances to a page boundary or to [until]. *)
Definition flush_fuel (l : HybridLog) (from until : Z) : nat :=
  Z.to_nat (page_of l until - page_of l from + 2).
Definition flush_until (l : HybridLog) (until : Z) : option HybridLog :=
  let from := flushed_until_address l in
  if until <=? from then Some l else
  dev ← flush_loop (flush_fuel l from until) l from until (device l);
  Some (set_flushed l dev (Z.max from until)).

Definition on_pages_marked_read_only (l : HybridLog) (new_ro : Z) : option HybridLog :=
  flush_until (set_safe_read_only l (Z.max (safe_read_only_address l) new_ro)) new_ro.

(** Close whole pages below the new head. *)
Fixpoint close_loop (fuel : nat) (ps new_head closed : Z) : option Z :=
  match fuel with
  | O => None
  | S fuel =>
      let page_end := closed + ps in
      if new_head <? page_end then Some closed else close_loop fuel ps new_head page_end
  end.
Definition close_fuel (ps new_head closed : Z) : nat := S (Z.to_nat ((new_head - closed) / ps)).
Definition on_pages_closed (l : HybridLog) (new_head : Z) : option HybridLog :=
  let l := set_safe_head l (Z.max (safe_head_address l) new_head) in
  closed ← close_loop (close_fuel (page_size l) new_head (closed_until_address l))
             (page_size l) new_head (closed_until_address l);
  Some (set_closed l closed).

Definition run_action (l : HybridLog) (a : log_action) : option HybridLog :=
  match a with
  | MarkedReadOnly ro => on_pages_marked_read_only l ro
  | PagesClosed h => on_pages_closed l h
  | PhaseObserved => Some l
  end.
Definition run_actions (l : HybridLog) (as_ : list log_action) : option HybridLog :=
  foldl (fun o a => l ← o; run_action l a) (Some l) as_.

(** The epoch operations the log and the store call, running what drains. *)
Definition log_bump_with_action (l : HybridLog) (a : log_action) : option HybridLog :=
  let '(_, ready, e) := bump_with_action (epoch l) a in run_actions (set_epoch_state l e) ready.
Definition log_bump_current_epoch (l : HybridLog) : option HybridLog :=
  let '(_, ready, e) := bump_current_epoch (epoch l) in run_actions (set_epoch_state l e) ready.

(** [epoch.refresh()] by the thread [tid], whose cached slot is [cached]. *)
Definition log_refresh (l : HybridLog) (tid : Z) (cached : option nat) : option (nat * HybridLog) :=
  '(_, idx, ready, e) ← refresh (epoch l) tid cached;
  l ← run_actions (set_epoch_state l e) ready; Some (idx, l).

Definition shift_read_only_address (l : HybridLog) (new_ro : Z) : option (bool * HybridLog) :=
  if new_ro <=? read_only_address l then Some (false, l) else
  l ← log_bump_with_action (set_read_only l new_ro) (MarkedReadOnly new_ro); Some (true, l).
Definition shift_head_address (l : HybridLog) (desired : Z) : option (bool * HybridLog) :=
  let new_head := Z.min desired (flushed_until_address l) in
  if new_head <=? head_address l then Some (false, l) else
  l ← log_bump_with_action (set_head l new_head) (PagesClosed new_head); Some (true, l).

Definition issue_shift_addresses (l : HybridLog) (next : Z) : option HybridLog :=
  let ps := page_size l in
  let desired_head := Z.max (next + 2 - buffer_size l) 0 * ps in
  let desired_ro := Z.max (next + 1 - mutable_pages l) 0 * ps in
  let desired_ro := Z.max desired_ro desired_head in
  l ← (if read_only_address l <? desired_ro
       then snd <$> shift_read_only_address l desired_ro else Some l);
  if head_address l <? desired_head then snd <$> shift_head_address l desired_head else Some l.

Inductive AllocResult := AllocOk (addr : Z) | RetryNow | RetryLater.

(** [try_allocate]; [None] is the "record larger than a page" panic. *)
Definition try_allocate (l : HybridLog) (size : Z) : option (AllocResult * HybridLog) :=
  if page_size l <? size + PAGE_HEADER_SIZE then None else
  let old := tail l in
  let l := set_tail l (wrap64 (old + size)) in
  let '(page, off) := unpack old in
  if off + size <=? page_size l
  then Some (AllocOk (Z.lor (Z.shiftl page (page_bits l)) off), l) else
  if page_size l <? off then Some (RetryNow, l) else
  let next := page + 1 in
  if negb (page_is_free l next) then
    l ← issue_shift_addresses (set_tail l (pack page (page_size l))) next;
    Some (RetryLater, l)
  else
    let l := zero_page l next in
    l ← issue_shift_addresses (set_tail l (pack next (FIRST_VALID_ADDRESS + size))) next;
    Some (AllocOk (Z.lor (Z.shiftl next (page_bits l)) FIRST_VALID_ADDRESS), l).

(** [try_allocate_retry_now]: spin on [RetryNow]; the inner [None] is
    [RetryLater], the outer one a panic or exhausted fuel. *)
Fixpoint try_allocate_retry_now (fuel : nat) (l : HybridLog) (size : Z)
    : option (option Z * HybridLog) :=
  match fuel with
  | O => None
  | S fuel =>
      '(r, l) ← try_allocate l size;
      match r with
      | AllocOk a => Some (Some a, l)
      | RetryNow => try_allocate_retry_now fuel l size
      | RetryLater => Some (None, l)
      end
  end.

Definition shift_read_only_to_tail (l : HybridLog) : option (Z * HybridLog) :=
  t ← tail_address l; '(_, l) ← shift_read_only_address l t; Some (t, l).
(** [wait_flushed]: the loop bumps the epoch until the address is flushed. *)
Fixpoint wait_flushed (fuel : nat) (l : HybridLog) (until : Z) : option HybridLog :=
  match fuel with
  | O => None
  | S fuel =>
      if flushed_until_address l <? until
      then l ← log_bump_current_epoch l; wait_flushed fuel l until else Some l
  end.

(** *** Scanning *)

Definition MIN_DISK_READ : Z := Z.of_nat FIXED_HEADER_SIZE.
Definition zero_header (c : cell) : bool :=
  (c_info c =? 0) && (length (c_key c) =? 0)%nat && (c_cap c =? 0)%nat.

(** [for_each_record_in_buf] over a buffer given as a map from offsets. *)
Fixpoint records_in_buf (fuel : nat) (buf : Z -> option cell) (off limit : Z) : option (list (Z * cell)) :=
  match fuel with
  | O => None
  | S fuel =>
      if limit <? off + MIN_DISK_READ then Some [] else
      match buf off with
      | None => Some []
      | Some rec =>
          if zero_header rec then Some [] else
          let size := c_total_size rec in
          if limit <? off + size then Some [] else
          rest ← records_in_buf fuel buf (off + size) limit; Some ((off, rec) :: rest)
      end
  end.
Definition for_each_record_in_buf (buf : Z -> option cell) (from_off limit : Z)
    : option (list (Z * cell)) :=
  let off := Z.max from_off PAGE_HEADER_SIZE in
  records_in_buf (S (Z.to_nat (limit - off))) buf off limit.

Definition mem_buf (l : HybridLog) (page : Z) : Z -> option cell :=
  fun off => pages l !! (slot_of l page, off).
Definition disk_buf (l : HybridLog) (page : Z) : Z -> option cell :=
  fun off => device l !! (Z.shiftl page (page_bits l) + off).

Definition for_each_record_in_memory_page (l : HybridLog) (page : Z) : option (list (Z * cell)) :=
  t ← tail_address l;
  let page_start := Z.shiftl page (page_bits l) in
  let limit := if page_of l t =? page then t - page_start else page_size l in
  for_each_record_in_buf (mem_buf l page) PAGE_HEADER_SIZE limit.

(** One page of [scan]: the flushed prefix from the device, the rest from
    memory. *)
Definition scan_page (l : HybridLog) (addr to : Z) : option (list (Z * cell)) :=
  let page := page_of l addr in
  let page_start := Z.shiftl page (page_bits l) in
  let page_end := Z.min (page_start + page_size l) to in
  let disk_limit := if addr <? head_address l
                    then Z.min page_end (flushed_until_address l) - page_start else 0 in
  let start_off := Z.max (addr - page_start) PAGE_HEADER_SIZE in
  let limit := page_end - page_start in
  on_disk ← (if start_off <? disk_limit
             then for_each_record_in_buf (disk_buf l page) start_off disk_limit else Some []);
  let next_off := match last on_disk with
                  | Some (off, rec) => off + c_total_size rec
                  | None => start_off
                  end in
  in_mem ← (if next_off <? limit
            then for_each_record_in_buf (mem_buf l page) (Z.max next_off disk_limit) limit else Some []);
  Some (map (fun p => (page_start + fst p, snd p)) (on_disk ++ in_mem)).
Fixpoint scan_loop (fuel : nat) (l : HybridLog) (addr to : Z) : option (list (Z * cell)) :=
  match fuel with
  | O => None
  | S fuel =>
      if addr <? to then
        here ← scan_page l addr to;
        rest ← scan_loop fuel l (Z.shiftl (page_of l addr) (page_bits l) + page_size l) to;
        Some (here ++ rest)
      else Some []
  end.
Definition scan (l : HybridLog) (from to : Z) : option (list (Z * cell)) :=
  let addr := Z.max from FIRST_VALID_ADDRESS in
  scan_loop (S (S (Z.to_nat (page_of l to - page_of l addr)))) l addr to.

(** [recover_addresses]: everything in [begin, tail) is on disk. *)
Definition recover_addresses (l : HybridLog) (begin_ tail_ : Z) : HybridLog :=
  let page := page_of l tail_ in
  let l := zero_page l page in
  Log (page_bits l) (buffer_size l) (mutable_pages l) (pages l)
    (pack page (Z.land tail_ (page_size l - 1))) begin_ (Z.shiftl page (page_bits l))
    tail_ tail_ tail_ tail_ tail_ (device l) (epoch l).
