(* ===== verification/LogSpec.v ===== *)
(** * The hybrid log never loses a record

    The invariant of the log: the order of its watermarks, the occupancy of the
    page buffer, and what memory and device hold, stated against the abstract
    log [R], the map of every record ever laid out. *)

From S2P Require Import Prelude Record Epoch Log.

(** ** Addresses *)

Lemma pack_unpack p o : 0 <= p -> 0 <= o < 2 ^ 32 -> unpack (pack p o) = (p, o) /\ pack p o = p * 2 ^ 32 + o.
Proof.
  intros Hp Ho.
  assert (E : pack p o = o + 2 ^ 32 * p).
  { unfold pack. apply word_eq. intros n Hn.
    rewrite Z.lor_spec, Z.shiftl_spec, testbit_split by lia.
    destruct (Z.ltb_spec n 32).
    - rewrite Z.testbit_neg_r by lia. done.
    - rewrite (testbit_high o 32) by lia. by rewrite orb_false_r. }
  rewrite E. unfold unpack. rewrite Z.shiftr_div_pow2, Z.land_ones by lia. split; [|lia]. f_equal.
  - rewrite Z.mul_comm, Z.div_add, Z.div_small by lia. lia.
  - rewrite Z.mul_comm, Z.mod_add by lia. by apply Z.mod_small.
Qed.

Lemma lor_shiftl p o k : 0 <= k -> 0 <= o < 2 ^ k -> Z.lor (Z.shiftl p k) o = p * 2 ^ k + o.
Proof.
  intros Hk Ho. replace (p * 2 ^ k + o) with (o + 2 ^ k * p) by lia. apply word_eq. intros n Hn.
  rewrite Z.lor_spec, Z.shiftl_spec, testbit_split by lia. destruct (Z.ltb_spec n k).
  - rewrite Z.testbit_neg_r by lia. done.
  - rewrite (testbit_high o k) by lia. by rewrite orb_false_r.
Qed.

#[global] Arguments pack : simpl never.
#[global] Arguments unpack : simpl never.

Section Addr.
Context (l : HybridLog) (Hb : 0 <= page_bits l).

Lemma page_size_pos : 0 < page_size l.
Proof. unfold page_size. apply Z.pow_pos_nonneg; lia. Qed.

Lemma page_of_div a : page_of l a = a / page_size l.
Proof. unfold page_of, page_size. by rewrite Z.shiftr_div_pow2. Qed.

Lemma shiftl_page p : Z.shiftl p (page_bits l) = p * page_size l.
Proof. unfold page_size. by rewrite Z.shiftl_mul_pow2. Qed.

Lemma offset_of_mod a : offset_of l a = a mod page_size l.
Proof.
  unfold offset_of, page_size. replace (2 ^ page_bits l - 1) with (Z.ones (page_bits l)).
  - by rewrite Z.land_ones.
  - rewrite Z.ones_equiv. lia.
Qed.

Lemma page_of_spec a p : page_of l a = p <-> p * page_size l <= a < (p + 1) * page_size l.
Proof.
  rewrite page_of_div. pose proof page_size_pos. split.
  - intros <-. pose proof (Z.div_mod a (page_size l) ltac:(lia)).
    pose proof (Z.mod_pos_bound a (page_size l) ltac:(lia)). lia.
  - intros. symmetry. apply (Z.div_unique a (page_size l) p (a - p * page_size l)); lia.
Qed.

Lemma offset_of_sub a : offset_of l a = a - page_of l a * page_size l.
Proof. rewrite offset_of_mod, page_of_div. pose proof page_size_pos. rewrite Z.mod_eq; lia. Qed.
End Addr.

(** ** The device after a page segment is written *)

Lemma write_range_lookup l page s e dev a :
  write_range l page s e dev !! a =
  let base := Z.shiftl page (page_bits l) in
  if decide (base + s <= a < base + e) then pages l !! (slot_of l page, a - base) else dev !! a.
Proof.
  unfold write_range. set (base := Z.shiftl page (page_bits l)).
  set (dev0 := filter _ dev).
  apply (map_fold_weak_ind (fun acc m => acc !! a =
    let b := base in if decide (b + s <= a < b + e) then m !! (slot_of l page, a - b) else dev !! a)).
  - cbv zeta. case_decide as Hd.
    + rewrite lookup_empty. unfold dev0. apply map_lookup_filter_None. right. intros x _. simpl. tauto.
    + unfold dev0. destruct (dev !! a) as [d|] eqn:E.
      * apply map_lookup_filter_Some. done.
      * apply map_lookup_filter_None. by left.
  - cbv zeta. intros [sl off] c m acc Hm IH. simpl. case_bool_decide as Hk.
    + destruct Hk as [-> Hoff]. destruct (decide (base + off = a)) as [<-|Hne].
      * rewrite lookup_insert_eq, decide_True by lia.
        replace (base + off - base) with off by lia. by rewrite lookup_insert_eq.
      * rewrite lookup_insert_ne by done. rewrite IH. case_decide; [|done].
        rewrite lookup_insert_ne; [done|]. intros [=]. lia.
    + rewrite IH. case_decide; [|done]. rewrite lookup_insert_ne; [done|].
      intros [= -> ->]. apply Hk. split; [done|lia].
Qed.

(** ** The invariant *)

(** Seal bits are meaningless on disk images. *)
Definition unseal_img (c : cell) : cell := c_set_info c (Z.land (c_info c) (not64 SEALED_BIT)).

Definition tail_page (l : HybridLog) : Z := fst (unpack (tail l)).
Definition tail_off (l : HybridLog) : Z := snd (unpack (tail l)).
(** Where the next record would go if it fits on the page. *)
Definition tail_pos (l : HybridLog) : Z := tail_page l * page_size l + tail_off l.

Definition action_ok (l : HybridLog) (a : log_action) : Prop :=
  match a with
  | MarkedReadOnly ro => 0 <= ro <= read_only_address l
  | PagesClosed h => 0 <= h <= head_address l
  | PhaseObserved => True
  end.

Record config_ok (l : HybridLog) : Prop := {
  co_bits : 9 <= page_bits l <= 30;
  co_buf : exists k, 1 <= k /\ buffer_size l = 2 ^ k;
  co_mut : 1 <= mutable_pages l <= buffer_size l - 1 }.

(** [Begin <= ... <= ReadOnly <= Tail], with [ClosedUntil] on a page boundary. *)
Record marks_ok (l : HybridLog) : Prop := {
  mk_closed : exists c, 0 <= c /\ closed_until_address l = c * page_size l;
  mk_safe_head : closed_until_address l <= safe_head_address l;
  mk_head : safe_head_address l <= head_address l;
  mk_first : FIRST_VALID_ADDRESS <= head_address l;
  mk_flushed : head_address l <= flushed_until_address l;
  mk_safe_ro : flushed_until_address l <= safe_read_only_address l;
  mk_ro : safe_read_only_address l <= read_only_address l;
  mk_tail : read_only_address l <= tail_pos l }.

Record tail_ok (l : HybridLog) : Prop := {
  tl_pack : tail l = pack (tail_page l) (tail_off l);
  tl_page : 0 <= tail_page l < 2 ^ 31;
  tl_off : FIRST_VALID_ADDRESS <= tail_off l <= page_size l;
  (** the tail page's slot was free: its previous occupant is closed *)
  tl_window : tail_page l * page_size l < closed_until_address l + buffer_size l * page_size l }.

(** Where memory starts: 0 for a log that has run since it was created, and for
    a recovered log the address it was recovered to, since recovery brings back
    no page: what lies below is on the device only. *)
Class floor : Type := Floor : Z.

Section Invariant.
Context {fl : floor}.

(** [R] is what has been written at each address and not yet forgotten. *)
Record log_ok (l : HybridLog) (R : gmap Z cell) : Prop := {
  lo_config : config_ok l;
  lo_marks : marks_ok l;
  lo_tail : tail_ok l;
  lo_pending : forall e a, (e, a) ∈ drain_list (epoch l) -> action_ok l a;
  lo_dom : forall a c, R !! a = Some c -> FIRST_VALID_ADDRESS <= a < tail_pos l;
  lo_floor : Floor <= head_address l;
  lo_mem : forall a, Floor <= a -> closed_until_address l <= a < (tail_page l + 1) * page_size l ->
             record_at l a = R !! a;
  lo_dev : forall a, 0 <= a < flushed_until_address l ->
             unseal_img <$> device l !! a = unseal_img <$> R !! a }.

(** What an operation finds at an address: memory from [head] up, the device
    below it. *)
Definition contents (l : HybridLog) (a : Z) : option cell :=
  if head_address l <=? a then record_at l a else read_record_from_disk l a.

Lemma config_bits l : config_ok l -> 0 <= page_bits l.
Proof. intros H. pose proof (co_bits _ H). lia. Qed.

Lemma config_page_size l : config_ok l -> 2 ^ 9 <= page_size l <= 2 ^ 30.
Proof.
  intros H. pose proof (co_bits _ H). unfold page_size. split; apply Z.pow_le_mono_r; lia.
Qed.

Lemma config_buffer l : config_ok l -> 2 <= buffer_size l.
Proof.
  intros H. destruct (co_buf _ H) as (k & Hk & ->). change 2 with (2 ^ 1) at 1.
  apply Z.pow_le_mono_r; lia.
Qed.

(** Every record is where an operation looks for it. *)
Lemma contents_ok l R a : log_ok l R -> FIRST_VALID_ADDRESS <= a < tail_pos l ->
  unseal_img <$> contents l a = unseal_img <$> R !! a.
Proof.
  intros Hok Ha. pose proof (lo_marks _ _ Hok) as Hm. pose proof (lo_tail _ _ Hok) as Ht.
  unfold contents, read_record_from_disk. destruct (Z.leb_spec (head_address l) a).
  - rewrite (lo_mem _ _ Hok); [done|pose proof (lo_floor _ _ Hok); lia|].
    pose proof (mk_safe_head _ Hm). pose proof (mk_head _ Hm).
    pose proof (tl_off _ Ht). unfold tail_pos in Ha. lia.
  - apply (lo_dev _ _ Hok). pose proof (mk_flushed _ Hm). unfold FIRST_VALID_ADDRESS, PAGE_HEADER_SIZE in *. lia.
Qed.

(** ** Flushing *)

Lemma flush_loop_spec l R fuel addr until dev : log_ok l R ->
  head_address l <= addr <= until -> 0 <= addr -> until <= tail_pos l ->
  (if addr <? until then page_of l until - page_of l addr + 2 else 1) <= Z.of_nat fuel ->
  (forall a, 0 <= a < addr -> unseal_img <$> dev !! a = unseal_img <$> R !! a) ->
  exists dev', flush_loop fuel l addr until dev = Some dev' /\
    forall a, 0 <= a < until -> unseal_img <$> dev' !! a = unseal_img <$> R !! a.
Proof.
  intros Hok. pose proof (config_bits _ (lo_config _ _ Hok)) as Hb.
  pose proof (page_size_pos l Hb) as Hps.
  revert addr dev. induction fuel as [|fuel IH]; intros addr dev Ha H0 Hu Hf Hdev.
  { assert (page_of l addr <= page_of l until).
    { rewrite !page_of_div by done. apply Z.div_le_mono; lia. } destruct (addr <? until); lia. }
  simpl. destruct (Z.ltb_spec addr until) as [Hlt|Hge].
  2: { exists dev. split; [done|]. intros a Hau. apply Hdev. lia. }
  rewrite shiftl_page by done. set (p := page_of l addr).
  assert (Hp : p * page_size l <= addr < (p + 1) * page_size l) by (by apply page_of_spec).
  set (e := Z.min until (p * page_size l + page_size l)).
  replace (p * page_size l + (e - p * page_size l)) with e by lia.
  assert (He : addr < e <= until) by (unfold e; lia).
  apply IH; try lia.
  - assert (p <= page_of l until).
    { unfold p. rewrite !page_of_div by done. apply Z.div_le_mono; lia. }
    destruct (Z.ltb_spec e until) as [Hne|Hne]; [|fold p in Hf; lia].
    + assert (Ee : e = (p + 1) * page_size l) by (unfold e; lia).
      assert (page_of l e = p + 1) by (apply page_of_spec; [done|lia]).
      fold p in Hf. lia.
  - intros a Hae. rewrite write_range_lookup. cbv zeta. rewrite shiftl_page by done.
    case_decide as Hin.
    + assert (Epa : page_of l a = p) by (apply page_of_spec; [done|unfold e in *; lia]).
      assert (E : pages l !! (slot_of l p, a - p * page_size l) = record_at l a).
      { unfold record_at, mem_key. rewrite offset_of_sub, Epa by done. done. }
      pose proof (lo_marks _ _ Hok) as Hm. pose proof (mk_safe_head _ Hm). pose proof (mk_head _ Hm).
      rewrite E, (lo_mem _ _ Hok); [done|pose proof (lo_floor _ _ Hok); lia|].
      pose proof (tl_off _ (lo_tail _ _ Hok)).
      unfold tail_pos in Hu. lia.
    + apply Hdev. lia.
Qed.

Lemma set_flushed_ok l R dev u : log_ok l R -> flushed_until_address l <= u <= safe_read_only_address l ->
  (forall a, 0 <= a < u -> unseal_img <$> dev !! a = unseal_img <$> R !! a) ->
  log_ok (set_flushed l dev u) R.
Proof.
  intros [Hc Hm Ht Hp Hd Hfl Hmem Hdev] Hu Hnew. split; try done.
  - by destruct Hc.
  - destruct Hm. split; simpl; try done; lia.
  - by destruct Ht.
Qed.

Lemma flush_until_spec l R until : log_ok l R -> until <= safe_read_only_address l ->
  exists l', flush_until l until = Some l' /\ log_ok l' R /\
    flushed_until_address l' = Z.max (flushed_until_address l) until /\
    l' = set_flushed l (device l') (flushed_until_address l').
Proof.
  intros Hok Hu. pose proof (lo_marks _ _ Hok) as Hm. pose proof (config_bits _ (lo_config _ _ Hok)) as Hb.
  unfold flush_until. destruct (Z.leb_spec until (flushed_until_address l)).
  { exists l. split_and!; [done|done|lia|by destruct l]. }
  pose proof (mk_flushed _ Hm). pose proof (mk_head _ Hm). pose proof (mk_safe_head _ Hm).
  pose proof (mk_first _ Hm). pose proof (mk_safe_ro _ Hm). pose proof (mk_ro _ Hm). pose proof (mk_tail _ Hm).
  unfold FIRST_VALID_ADDRESS, PAGE_HEADER_SIZE in *.
  assert (page_of l (flushed_until_address l) <= page_of l until).
  { rewrite !page_of_div by done. apply Z.div_le_mono; [by apply page_size_pos|lia]. }
  destruct (flush_loop_spec l R (flush_fuel l (flushed_until_address l) until) (flushed_until_address l)
    until (device l) Hok) as (dev & -> & Hdev); try lia.
  { unfold flush_fuel. destruct (_ <? _); lia. }
  { apply (lo_dev _ _ Hok). }
  cbn [mbind option_bind]. rewrite Z.max_r by lia. eexists. split; [done|]. split; [|done].
  apply set_flushed_ok; [done|lia|done].
Qed.

(** ** Closing, and the actions the epoch runs *)

(** What moving watermarks never touches. *)
Record moved (l l' : HybridLog) : Prop := {
  mv_bits : page_bits l' = page_bits l; mv_buf : buffer_size l' = buffer_size l;
  mv_mut : mutable_pages l' = mutable_pages l;
  mv_pages : pages l' = pages l; mv_tail : tail l' = tail l; mv_begin : begin_address l' = begin_address l;
  mv_closed : closed_until_address l <= closed_until_address l';
  mv_head : head_address l <= head_address l';
  mv_flushed : flushed_until_address l <= flushed_until_address l';
  mv_safe_ro : safe_read_only_address l <= safe_read_only_address l';
  mv_ro : read_only_address l <= read_only_address l' }.

#[export] Instance moved_preorder : PreOrder moved.
Proof.
  split; [by split|]. intros a b c [] []. split; (congruence || lia).
Qed.

Lemma close_loop_spec fuel ps new_head closed : 0 < ps -> (new_head - closed) / ps < Z.of_nat fuel ->
  (0 < fuel)%nat ->
  exists c k, close_loop fuel ps new_head closed = Some c /\ 0 <= k /\ c = closed + k * ps /\
    new_head < c + ps /\ (c <= new_head \/ c = closed).
Proof.
  intros Hps. revert closed. induction fuel as [|fuel IH]; intros closed Hf H0; [lia|].
  simpl. destruct (Z.ltb_spec new_head (closed + ps)).
  { exists closed, 0. split_and!; [done|lia|lia|lia|by right]. }
  assert (Hd : (new_head - (closed + ps)) / ps = (new_head - closed) / ps - 1).
  { replace (new_head - (closed + ps)) with (new_head - closed + (-1) * ps) by lia.
    rewrite Z.div_add by lia. lia. }
  assert (0 <= (new_head - (closed + ps)) / ps) by (apply Z.div_pos; lia).
  destruct (IH (closed + ps)) as (c & k & -> & Hk & Ec & Hc1 & Hc2); [lia|lia|].
  exists c, (k + 1). split_and!; [done|lia|lia|lia|left; lia].
Qed.

Lemma on_pages_closed_spec l R h : log_ok l R -> 0 <= h <= head_address l ->
  exists l', on_pages_closed l h = Some l' /\ log_ok l' R /\ moved l l' /\ epoch l' = epoch l /\
    head_address l' = head_address l /\ read_only_address l' = read_only_address l /\
    flushed_until_address l' = flushed_until_address l /\ h < closed_until_address l' + page_size l /\
    closed_until_address l' <= Z.max (closed_until_address l) h.
Proof.
  intros Hok Hh. pose proof (lo_config _ _ Hok) as Hc. pose proof (lo_marks _ _ Hok) as Hm.
  pose proof (lo_tail _ _ Hok) as Ht.
  pose proof (page_size_pos l (config_bits _ Hc)) as Hps. unfold on_pages_closed. cbv zeta.
  change (page_size (set_safe_head l _)) with (page_size l).
  change (closed_until_address (set_safe_head l _)) with (closed_until_address l).
  destruct (mk_closed _ Hm) as (c0 & Hc0 & Ec0).
  destruct (close_loop_spec (close_fuel (page_size l) h (closed_until_address l)) (page_size l) h
    (closed_until_address l)) as (c & k & -> & Hk & Ec & Hlt & Hle); [done|unfold close_fuel; lia|unfold close_fuel; lia|].
  cbn [mbind option_bind]. eexists. split; [done|].
  assert (Hcc : closed_until_address l <= c) by nia.
  pose proof (mk_safe_head _ Hm). pose proof (mk_head _ Hm).
  assert (Hch : c <= Z.max (safe_head_address l) h) by lia.
  split; [|split; [split; simpl; done || lia|split_and!; simpl; done || lia]].
  destruct Hok as [_ _ _ Hp Hd Hfl Hmem Hdev]. split; simpl; try done.
  - by destruct Hc.
  - destruct Hm. split; simpl; try done; try lia.
    exists (c0 + k). unfold page_size in *. simpl. split; [lia|]. rewrite Ec, Ec0. lia.
  - destruct Ht. split; simpl; try done. unfold tail_page, page_size in *. simpl in *. lia.
  - intros a Hfa Ha. apply Hmem; [done|]. unfold tail_page, page_size in *. simpl in *. lia.
Qed.

Lemma set_safe_ro_ok l R ro : log_ok l R -> ro <= read_only_address l ->
  log_ok (set_safe_read_only l (Z.max (safe_read_only_address l) ro)) R.
Proof.
  intros [Hc Hm Ht Hp Hd Hfl Hmem Hdev] Hro. split; try done.
  - by destruct Hc.
  - destruct Hm. split; simpl; try done; lia.
  - by destruct Ht.
Qed.

Lemma on_pages_marked_read_only_spec l R ro : log_ok l R -> ro <= read_only_address l ->
  exists l', on_pages_marked_read_only l ro = Some l' /\ log_ok l' R /\ moved l l' /\ epoch l' = epoch l /\
    head_address l' = head_address l /\ read_only_address l' = read_only_address l /\
    closed_until_address l' = closed_until_address l /\
    flushed_until_address l' = Z.max (flushed_until_address l) ro.
Proof.
  intros Hok Hro. unfold on_pages_marked_read_only.
  pose proof (set_safe_ro_ok l R ro Hok Hro) as Hok'.
  destruct (flush_until_spec _ R ro Hok') as (l' & -> & Hl' & Hf & El'); [simpl; lia|].
  exists l'. split; [done|]. split; [done|]. simpl in Hf.
  rewrite El'. split; [split; simpl; done || lia|]. simpl. by split_and!.
Qed.

Lemma run_action_spec l R a : log_ok l R -> action_ok l a ->
  exists l', run_action l a = Some l' /\ log_ok l' R /\ moved l l' /\ epoch l' = epoch l /\
    head_address l' = head_address l /\ read_only_address l' = read_only_address l.
Proof.
  intros Hok Ha. destruct a as [ro|h|]; simpl in *.
  - destruct (on_pages_marked_read_only_spec l R ro Hok ltac:(lia)) as (l' & ? & ? & ? & ? & ? & ? & _).
    by exists l'.
  - destruct (on_pages_closed_spec l R h Hok Ha) as (l' & ? & ? & ? & ? & ? & ? & _). by exists l'.
  - by exists l.
Qed.

Lemma action_ok_mono l l' a : head_address l <= head_address l' ->
  read_only_address l <= read_only_address l' -> action_ok l a -> action_ok l' a.
Proof. destruct a; simpl; lia. Qed.

Lemma run_actions_spec l R as_ : log_ok l R -> (forall a, a ∈ as_ -> action_ok l a) ->
  exists l', run_actions l as_ = Some l' /\ log_ok l' R /\ moved l l' /\ epoch l' = epoch l /\
    head_address l' = head_address l /\ read_only_address l' = read_only_address l.
Proof.
  unfold run_actions. revert l. induction as_ as [|a as_ IH]; intros l Hok Ha; simpl.
  { by exists l. }
  destruct (run_action_spec l R a Hok (Ha a ltac:(by left))) as (l1 & -> & Hok1 & Hm1 & E1 & Eh & Er).
  destruct (IH l1 Hok1) as (l2 & -> & Hok2 & Hm2 & E2 & Eh2 & Er2).
  { intros a' Ha'. apply (action_ok_mono l); [lia|lia|]. apply Ha. by right. }
  exists l2. split_and!; [done|done|by etransitivity|congruence|congruence|congruence].
Qed.

(** ** Bumping the epoch *)

Lemma set_epoch_ok l R e : log_ok l R -> (forall ep a, (ep, a) ∈ drain_list e -> action_ok l a) ->
  log_ok (set_epoch_state l e) R.
Proof.
  intros [Hc Hm Ht Hp Hd Hfl Hmem Hdev] He. split; try done.
  - by destruct Hc.
  - by destruct Hm.
  - by destruct Ht.
Qed.

Lemma drain_actions {A} (e e' : LightEpoch A) ready : drain e = (ready, e') ->
  (forall a, a ∈ ready -> exists ep, (ep, a) ∈ drain_list e) /\
  (forall x, x ∈ drain_list e' -> x ∈ drain_list e).
Proof.
  intros H. unfold drain in H. injection H as <- <-. cbn [drain_list]. split.
  - intros a ([ep a'] & -> & [_ ?]%list_elem_of_filter)%list_elem_of_fmap. by exists ep.
  - by intros x [_ ?]%list_elem_of_filter.
Qed.

Lemma run_drained l R e ready e' : log_ok l R -> (forall ep a, (ep, a) ∈ drain_list e -> action_ok l a) ->
  drain e = (ready, e') ->
  exists l', run_actions (set_epoch_state l e') ready = Some l' /\ log_ok l' R /\ moved l l' /\
    epoch l' = e' /\ head_address l' = head_address l /\ read_only_address l' = read_only_address l.
Proof.
  intros Hok He Hd. destruct (drain_actions _ _ _ Hd) as [Hr Hp].
  destruct (run_actions_spec (set_epoch_state l e') R ready) as (l' & E & Hok' & Hm & Ee & Eh & Er).
  - apply set_epoch_ok; [done|]. intros ep a Ha. by apply (He ep), Hp.
  - intros a Ha. destruct (Hr a Ha) as [ep Hin]. by apply (action_ok_mono l), (He ep).
  - exists l'. split_and!; try done. etransitivity; [|exact Hm]. by split.
Qed.

Lemma log_bump_with_action_spec l R a : log_ok l R -> action_ok l a ->
  exists l', log_bump_with_action l a = Some l' /\ log_ok l' R /\ moved l l' /\
    head_address l' = head_address l /\ read_only_address l' = read_only_address l.
Proof.
  intros Hok Ha. unfold log_bump_with_action, bump_with_action.
  destruct (drain _) as [ready e'] eqn:Ed.
  match type of Ed with drain ?e = _ =>
    assert (He : forall ep a', (ep, a') ∈ drain_list e -> action_ok l a') end.
  { cbn [drain_list]. intros ep a' [Hin|Hin]%elem_of_app; [by eapply (lo_pending _ _ Hok)|].
    apply list_elem_of_singleton in Hin. by injection Hin as -> ->. }
  destruct (run_drained l R _ _ _ Hok He Ed) as (l' & E & ? & ? & _ & ? & ?).
  rewrite E. by exists l'.
Qed.

Lemma log_bump_current_epoch_spec l R : log_ok l R ->
  exists l', log_bump_current_epoch l = Some l' /\ log_ok l' R /\ moved l l' /\
    head_address l' = head_address l /\ read_only_address l' = read_only_address l.
Proof.
  intros Hok. unfold log_bump_current_epoch, bump_current_epoch. cbv zeta.
  set (e := Epoch (current (epoch l) + 1) (table (epoch l)) (drain_list (epoch l))).
  assert (He : forall ep a, (ep, a) ∈ drain_list e -> action_ok l a) by apply (lo_pending _ _ Hok).
  destruct (0 <? length (drain_list e))%nat.
  - destruct (drain e) as [ready e'] eqn:Ed.
    destruct (run_drained l R _ _ _ Hok He Ed) as (l' & E & ? & ? & _ & ? & ?).
    rewrite E. by exists l'.
  - eexists. split; [done|]. split; [by apply set_epoch_ok|]. by split.
Qed.

(** ** Boundary shifts *)

Lemma set_read_only_ok l R ro : log_ok l R -> read_only_address l <= ro -> ro <= tail_pos l ->
  log_ok (set_read_only l ro) R.
Proof.
  intros Hok H1 H2. destruct Hok as [Hc Hm Ht Hp Hd Hfl Hmem Hdev]. split; try done.
  - by destruct Hc.
  - destruct Hm. split; simpl; try done; try lia.
  - by destruct Ht.
  - intros e a Ha. apply (action_ok_mono l); simpl; [lia|lia|by eapply Hp].
Qed.

Lemma set_head_ok l R h : log_ok l R -> head_address l <= h -> h <= flushed_until_address l ->
  log_ok (set_head l h) R.
Proof.
  intros Hok H1 H2. pose proof (mk_first _ (lo_marks _ _ Hok)).
  destruct Hok as [Hc Hm Ht Hp Hd Hfl Hmem Hdev]. split; try done.
  - by destruct Hc.
  - destruct Hm. split; simpl; try done; try lia.
  - by destruct Ht.
  - intros e a Ha. apply (action_ok_mono l); simpl; [lia|lia|by eapply Hp].
  - simpl. lia.
Qed.

Lemma shift_read_only_address_spec l R ro : log_ok l R -> ro <= tail_pos l ->
  exists b l', shift_read_only_address l ro = Some (b, l') /\ log_ok l' R /\ moved l l' /\
    head_address l' = head_address l /\ read_only_address l' = Z.max (read_only_address l) ro.
Proof.
  intros Hok Hro. unfold shift_read_only_address.
  destruct (Z.leb_spec ro (read_only_address l)).
  { exists false, l. split_and!; [done|done|done|done|lia]. }
  assert (Hok1 : log_ok (set_read_only l ro) R) by (apply set_read_only_ok; [done|lia|done]).
  destruct (log_bump_with_action_spec _ R (MarkedReadOnly ro) Hok1) as (l' & -> & ? & Hm & Eh & Er).
  { simpl. pose proof (lo_marks _ _ Hok) as Hm. destruct Hm. unfold FIRST_VALID_ADDRESS, PAGE_HEADER_SIZE in *. lia. }
  cbn [mbind option_bind]. exists true, l'. split_and!; [done|done| |done|rewrite Er; simpl; lia].
  etransitivity; [|exact Hm]. split; simpl; done || lia.
Qed.

Lemma shift_head_address_spec l R desired : log_ok l R ->
  exists b l', shift_head_address l desired = Some (b, l') /\ log_ok l' R /\ moved l l' /\
    read_only_address l' = read_only_address l /\
    head_address l' = Z.max (head_address l) (Z.min desired (flushed_until_address l)).
Proof.
  intros Hok. unfold shift_head_address. cbv zeta.
  destruct (Z.leb_spec (Z.min desired (flushed_until_address l)) (head_address l)).
  { exists false, l. split_and!; [done|done|done|done|lia]. }
  set (h := Z.min desired (flushed_until_address l)) in *.
  assert (Hok1 : log_ok (set_head l h) R) by (apply set_head_ok; [done|lia|unfold h; lia]).
  destruct (log_bump_with_action_spec _ R (PagesClosed h) Hok1) as (l' & -> & ? & Hm & Eh & Er).
  { simpl. pose proof (mk_first _ (lo_marks _ _ Hok)). unfold FIRST_VALID_ADDRESS, PAGE_HEADER_SIZE in *. lia. }
  cbn [mbind option_bind]. exists true, l'. split_and!; [done|done| |done|rewrite Eh; simpl; lia].
  etransitivity; [|exact Hm]. split; simpl; done || lia.
Qed.

Lemma moved_pos l l' : moved l l' -> page_size l' = page_size l /\ tail_pos l' = tail_pos l /\
  tail_page l' = tail_page l /\ tail_off l' = tail_off l.
Proof.
  intros H. unfold tail_pos, tail_page, tail_off, page_size. by rewrite (mv_bits _ _ H), (mv_tail _ _ H).
Qed.

Lemma issue_shift_addresses_spec l R next : log_ok l R -> 0 <= next -> next * page_size l <= tail_pos l ->
  exists l', issue_shift_addresses l next = Some l' /\ log_ok l' R /\ moved l l' /\
    read_only_address l' <= Z.max (read_only_address l) (next * page_size l).
Proof.
  intros Hok H0 Hn. pose proof (lo_config _ _ Hok) as Hc.
  pose proof (page_size_pos l (config_bits _ Hc)) as Hps. pose proof (co_mut _ Hc).
  pose proof (config_buffer _ Hc).
  unfold issue_shift_addresses. cbv zeta.
  set (dh := Z.max (next + 2 - buffer_size l) 0 * page_size l).
  set (dr := Z.max (Z.max (next + 1 - mutable_pages l) 0 * page_size l) dh).
  assert (Hdr : dr <= next * page_size l) by (unfold dr, dh; nia).
  assert (Hone : exists l1, (if read_only_address l <? dr
      then snd <$> shift_read_only_address l dr else Some l) = Some l1 /\ log_ok l1 R /\ moved l l1 /\
      read_only_address l1 <= Z.max (read_only_address l) (next * page_size l)).
  { destruct (read_only_address l <? dr).
    - destruct (shift_read_only_address_spec l R dr Hok ltac:(lia)) as (b & l1 & -> & ? & ? & _ & E).
      exists l1. split_and!; [done|done|done|lia].
    - exists l. split_and!; [done|done|done|lia]. }
  destruct Hone as (l1 & -> & Hok1 & Hm1 & Hro1). cbn [mbind option_bind].
  destruct (head_address l1 <? dh).
  - destruct (shift_head_address_spec l1 R dh Hok1) as (b & l2 & -> & ? & ? & E & _).
    exists l2. split_and!; [done|done|by etransitivity|lia].
  - by exists l1.
Qed.

(** ** Allocation *)

Lemma tail_page_set l w : tail_page (set_tail l w) = fst (unpack w).
Proof. done. Qed.
Lemma tail_off_set l w : tail_off (set_tail l w) = snd (unpack w).
Proof. done. Qed.

Lemma set_tail_same_page l R o : log_ok l R -> tail_off l <= o <= page_size l ->
  log_ok (set_tail l (pack (tail_page l) o)) R /\
  tail_page (set_tail l (pack (tail_page l) o)) = tail_page l /\
  tail_pos (set_tail l (pack (tail_page l) o)) = tail_page l * page_size l + o.
Proof.
  intros Hok Ho. pose proof (lo_tail _ _ Hok) as Ht. pose proof (tl_page _ Ht). pose proof (tl_off _ Ht).
  pose proof (config_page_size _ (lo_config _ _ Hok)). unfold FIRST_VALID_ADDRESS, PAGE_HEADER_SIZE in *.
  destruct (pack_unpack (tail_page l) o) as [Hu _]; [lia|lia|].
  assert (Hp : tail_page (set_tail l (pack (tail_page l) o)) = tail_page l)
    by (by rewrite tail_page_set, Hu).
  assert (Hof : tail_off (set_tail l (pack (tail_page l) o)) = o)
    by (by rewrite tail_off_set, Hu).
  assert (Hpos : tail_pos (set_tail l (pack (tail_page l) o)) = tail_page l * page_size l + o)
    by (unfold tail_pos; by rewrite Hp, Hof).
  split_and!; [|done|done].
  destruct Hok as [Hc Hm _ Hpd Hd Hfl Hmem Hdev]. split; try done.
  - by destruct Hc.
  - destruct Hm as [?????? ? Hmt]. split; try done. rewrite Hpos. simpl. unfold tail_pos in Hmt. lia.
  - destruct Ht. split; rewrite ?Hp, ?Hof; try done. change (page_size (set_tail l _)) with (page_size l).
    unfold FIRST_VALID_ADDRESS, PAGE_HEADER_SIZE. lia.
  - intros a c Ha. rewrite Hpos. specialize (Hd a c Ha). unfold tail_pos in Hd. lia.
  - intros a. rewrite Hp. apply Hmem.
Qed.

Lemma slot_of_inj l p q : config_ok l -> slot_of l p = slot_of l q -> Z.abs (p - q) < buffer_size l -> p = q.
Proof.
  intros Hc E Hd. destruct (co_buf _ Hc) as (k & Hk & Hb). unfold slot_of in E. rewrite Hb in *.
  replace (2 ^ k - 1) with (Z.ones k) in E by (rewrite Z.ones_equiv; lia).
  rewrite !Z.land_ones in E by lia. assert (H2 : 0 < 2 ^ k) by (apply Z.pow_pos_nonneg; lia).
  pose proof (Z.div_mod p (2 ^ k) ltac:(lia)). pose proof (Z.div_mod q (2 ^ k) ltac:(lia)).
  assert (p / 2 ^ k = q / 2 ^ k) by nia. lia.
Qed.

Lemma page_is_free_spec l p : config_ok l -> page_is_free l p = true <->
  p < buffer_size l \/ (p - buffer_size l + 1) * page_size l <= closed_until_address l.
Proof.
  intros Hc. unfold page_is_free. rewrite shiftl_page by (by apply config_bits).
  destruct (Z.ltb_spec p (buffer_size l)); [split; [by left|done]|].
  rewrite Z.leb_le. split; [by right|]. intros [?|?]; [lia|done].
Qed.

Lemma zero_page_lookup l p key : pages (zero_page l p) !! key =
  if decide (fst key = slot_of l p) then None else pages l !! key.
Proof.
  unfold zero_page. simpl. case_decide as Hk.
  - apply map_lookup_filter_None. right. intros c _. simpl. tauto.
  - destruct (pages l !! key) as [c|] eqn:E.
    + by apply map_lookup_filter_Some.
    + apply map_lookup_filter_None. by left.
Qed.

(** Turning to a free page. *)
Lemma turn_page l R o : log_ok l R -> tail_page l + 1 < 2 ^ 31 ->
  page_is_free l (tail_page l + 1) = true -> FIRST_VALID_ADDRESS <= o <= page_size l ->
  let next := tail_page l + 1 in
  let l' := set_tail (zero_page l next) (pack next o) in
  log_ok l' R /\ tail_page l' = next /\ tail_pos l' = next * page_size l + o /\
  forall off, pages l' !! (slot_of l next, off) = None.
Proof.
  intros Hok Hroom Hfree Ho next l'.
  pose proof (lo_config _ _ Hok) as Hc. pose proof (lo_tail _ _ Hok) as Ht. pose proof (lo_marks _ _ Hok) as Hm.
  pose proof (config_bits _ Hc) as Hb. pose proof (page_size_pos l Hb) as Hps.
  pose proof (config_page_size _ Hc). pose proof (tl_page _ Ht). pose proof (tl_off _ Ht) as Hto.
  pose proof (config_buffer _ Hc). pose proof (mk_tail _ Hm) as Hmt.
  apply page_is_free_spec in Hfree; [|done]. fold next in Hfree.
  assert (Ho' : 0 <= o < 2 ^ 32) by (unfold FIRST_VALID_ADDRESS, PAGE_HEADER_SIZE in Ho; lia).
  destruct (pack_unpack next o) as [Hu _]; [unfold next; lia|done|].
  assert (Hp : tail_page l' = next) by (unfold l'; by rewrite tail_page_set, Hu).
  assert (Hof : tail_off l' = o) by (unfold l'; by rewrite tail_off_set, Hu).
  assert (Hpos : tail_pos l' = next * page_size l + o) by (unfold tail_pos; by rewrite Hp, Hof).
  assert (Hz : forall off, pages l' !! (slot_of l next, off) = None).
  { intros off. unfold l'. change (pages (set_tail ?x _)) with (pages x).
    rewrite zero_page_lookup. by rewrite decide_True. }
  split_and!; [|done|done|done].
  assert (Hcl : closed_until_address l <= tail_pos l).
  { pose proof (mk_safe_head _ Hm). pose proof (mk_head _ Hm). pose proof (mk_flushed _ Hm).
    pose proof (mk_safe_ro _ Hm). pose proof (mk_ro _ Hm). lia. }
  destruct (mk_closed _ Hm) as (c0 & Hc0 & Ec0).
  assert (Hwin : next * page_size l < closed_until_address l + buffer_size l * page_size l) by nia.
  pose proof (mk_first _ Hm).
  unfold tail_pos in Hmt, Hcl. destruct Hok as [_ _ _ Hpd Hd Hfl Hmem Hdev]. split; try done.
  - by destruct Hc.
  - destruct Hm. split; try done. rewrite Hpos. simpl. unfold tail_pos, next in *.
    unfold FIRST_VALID_ADDRESS, PAGE_HEADER_SIZE in *. lia.
  - split; rewrite ?Hp, ?Hof; simpl; [done|unfold next; lia|done|done].
  - intros a c Ha. rewrite Hpos. specialize (Hd a c Ha). unfold tail_pos, next in *.
    unfold FIRST_VALID_ADDRESS, PAGE_HEADER_SIZE in *. lia.
  - intros a Hfa Ha. rewrite Hp in Ha. unfold record_at, mem_key.
    change (slot_of l' (page_of l' a)) with (slot_of l (page_of l a)).
    change (offset_of l' a) with (offset_of l a). change (closed_until_address l') with (closed_until_address l) in Ha.
    change (page_size l') with (page_size l) in Ha. unfold l'. change (pages (set_tail ?x _)) with (pages x).
    rewrite zero_page_lookup. simpl fst.
    destruct (proj1 (page_of_spec l Hb a (page_of l a)) eq_refl) as [Ha1 Ha2].
    case_decide as Hs.
    + assert (page_of l a = next) as Epa by (apply (slot_of_inj l); [done|done|clear Hfl Hfa; nia]).
      symmetry. destruct (R !! a) as [c|] eqn:ER; [|done]. specialize (Hd a c ER).
      unfold tail_pos in Hd. rewrite Epa in Ha1. unfold next in Ha1. lia.
    + apply Hmem; [done|]. assert (page_of l a <> next) by (intros E; by rewrite E in Hs).
      assert (page_of l a < next + 1).
      { rewrite page_of_div by done. apply Z.div_lt_upper_bound; lia. }
      split; [lia|]. fold next. apply (Z.lt_le_trans _ _ _ Ha2), Z.mul_le_mono_nonneg_r; lia.
Qed.

Lemma wrap_pack p o s : 0 <= p < 2 ^ 31 -> 0 <= o < 2 ^ 31 -> 0 <= s < 2 ^ 31 ->
  wrap64 (pack p o + s) = pack p (o + s).
Proof.
  intros. destruct (pack_unpack p o) as [_ E1]; [lia..|].
  destruct (pack_unpack p (o + s)) as [_ E2]; [lia..|]. rewrite E1, E2.
  rewrite wrap64_id; [lia|]. unfold is_u64, two64. lia.
Qed.

(** The outcome of an allocation of [size] bytes. *)
Definition alloc_post (l : HybridLog) (R : gmap Z cell) (size : Z) (r : AllocResult) (l' : HybridLog) : Prop :=
  match r with
  | AllocOk a => tail_pos l <= a /\ tail_pos l' = a + size /\
      page_of l' (a + size - 1) = page_of l' a /\ read_only_address l' <= a /\
      record_at l' a = None /\ (forall b, a <= b -> R !! b = None) /\
      (a = tail_pos l /\ tail_off l < page_size l /\ tail_page l' = tail_page l \/
       a = (tail_page l + 1) * page_size l + FIRST_VALID_ADDRESS /\ tail_page l' = tail_page l + 1)
  | RetryLater => tail_pos l' = (tail_page l + 1) * page_size l /\
      page_is_free l (tail_page l + 1) = false
  | RetryNow => False
  end.

(** One allocation, against the invariant. *)
Lemma try_allocate_ok l R size : log_ok l R -> 0 < size ->
  size + PAGE_HEADER_SIZE <= page_size l -> tail_page l + 1 < 2 ^ 31 ->
  exists r l', try_allocate l size = Some (r, l') /\ log_ok l' R /\ alloc_post l R size r l' /\
    head_address l <= head_address l' /\ closed_until_address l <= closed_until_address l' /\
    begin_address l' = begin_address l /\
    (forall a, FIRST_VALID_ADDRESS <= a < tail_pos l ->
       unseal_img <$> contents l' a = unseal_img <$> contents l a).
Proof.
  intros Hok Hs Hfit Hroom.
  pose proof (lo_config _ _ Hok) as Hc. pose proof (lo_tail _ _ Hok) as Ht. pose proof (lo_marks _ _ Hok) as Hm.
  pose proof (config_bits _ Hc) as Hb. pose proof (page_size_pos l Hb) as Hps.
  pose proof (config_page_size _ Hc) as Hps'. pose proof (tl_page _ Ht) as Hpg. pose proof (tl_off _ Ht) as Hto.
  pose proof (mk_tail _ Hm) as Hmt.
  unfold FIRST_VALID_ADDRESS in *. unfold PAGE_HEADER_SIZE in *.
  set (p := tail_page l) in *. set (o := tail_off l) in *.
  destruct (pack_unpack p o) as [Hu _]; [lia|lia|].
  (* the frame follows from the invariants *)
  assert (Hframe : forall l' (r : AllocResult), log_ok l' R -> tail_pos l <= tail_pos l' ->
    forall a, 64 <= a < tail_pos l -> unseal_img <$> contents l' a = unseal_img <$> contents l a).
  { intros l' _ Hok' Hle a Ha. rewrite (contents_ok l' R), (contents_ok l R); try done;
      unfold FIRST_VALID_ADDRESS, PAGE_HEADER_SIZE; lia. }
  unfold try_allocate. unfold PAGE_HEADER_SIZE. destruct (Z.ltb_spec (page_size l) (size + 64)); [lia|].
  rewrite (tl_pack _ Ht). fold p o. rewrite wrap_pack by lia. cbv zeta. rewrite Hu.
  change (page_size (set_tail l _)) with (page_size l).
  change (page_is_free (set_tail l _)) with (page_is_free l).
  change (page_bits (set_tail l _)) with (page_bits l).
  destruct (Z.leb_spec (o + size) (page_size l)) as [Hin|Hover].
  - destruct (set_tail_same_page l R (o + size) Hok) as (Hok' & Htp & Htpos); [fold o; lia|].
    fold p in Hok', Htp, Htpos. set (l' := set_tail l (pack p (o + size))) in *.
    rewrite (lor_shiftl p o (page_bits l) Hb) by (fold (page_size l); lia). fold (page_size l).
    assert (Epos : tail_pos l = p * page_size l + o) by done.
    exists (AllocOk (p * page_size l + o)), l'. split; [done|]. split; [done|].
    assert (Epg : forall a, p * page_size l <= a < (p + 1) * page_size l -> page_of l' a = p).
    { intros a Ha. by apply (page_of_spec l Hb). }
    assert (HR : forall b, p * page_size l + o <= b -> R !! b = None).
    { intros b Hbb. destruct (R !! b) as [c|] eqn:E; [|done].
      pose proof (lo_dom _ _ Hok b c E). lia. }
    split; [|split_and!; try done; simpl; lia].
    cbn [alloc_post]. split_and!; [lia|lia|by rewrite !Epg by lia| | |intros b Hbb; by apply HR|left; split_and!; [done|fold o; lia|done]].
    + change (read_only_address l') with (read_only_address l). lia.
    + rewrite (lo_mem _ _ Hok'); [by apply HR|pose proof (lo_floor _ _ Hok); pose proof (mk_flushed _ Hm);
        pose proof (mk_safe_ro _ Hm); pose proof (mk_ro _ Hm); lia|]. rewrite Htp.
      change (closed_until_address l') with (closed_until_address l).
      change (page_size l') with (page_size l).
      pose proof (mk_safe_head _ Hm). pose proof (mk_head _ Hm). pose proof (mk_flushed _ Hm).
      pose proof (mk_safe_ro _ Hm). pose proof (mk_ro _ Hm). lia.
  - destruct (Z.ltb_spec (page_size l) o); [lia|].
    destruct (page_is_free l (p + 1)) eqn:Hfree; simpl negb; cbv iota.
    + change (zero_page (set_tail l ?w) ?n) with (set_tail (zero_page l n) w).
      change (set_tail (set_tail ?x _) ?w) with (set_tail x w).
      destruct (turn_page l R (64 + size) Hok Hroom Hfree) as (Hok1 & Htp & Htpos & Hz);
        [unfold FIRST_VALID_ADDRESS, PAGE_HEADER_SIZE; lia|]. fold p in Hok1, Htp, Htpos, Hz.
      unfold FIRST_VALID_ADDRESS, PAGE_HEADER_SIZE.
      set (l1 := set_tail (zero_page l (p + 1)) (pack (p + 1) (64 + size))) in *.
      change (page_size l) with (page_size l1) in Htpos.
      destruct (issue_shift_addresses_spec l1 R (p + 1) Hok1) as (l2 & -> & Hok2 & Hmv & Hro); [lia|lia|].
      cbn [mbind option_bind]. destruct (moved_pos _ _ Hmv) as (Eps & Epos & Epg & _).
      change (page_size l1) with (page_size l) in *.
      pose proof (mv_closed _ _ Hmv). pose proof (mv_head _ _ Hmv). pose proof (mv_begin _ _ Hmv).
      change (head_address l1) with (head_address l) in *.
      change (read_only_address l1) with (read_only_address l) in *.
      change (closed_until_address l1) with (closed_until_address l) in *.
      change (begin_address l1) with (begin_address l) in *.
      rewrite (mv_bits _ _ Hmv). change (page_bits l1) with (page_bits l).
      rewrite (lor_shiftl (p + 1) 64 (page_bits l) Hb) by (fold (page_size l); lia). fold (page_size l).
      assert (Ep : forall a, (p + 1) * page_size l <= a < (p + 2) * page_size l -> page_of l2 a = p + 1).
      { intros a Ha. unfold page_of. rewrite (mv_bits _ _ Hmv). apply (page_of_spec l Hb). lia. }
      assert (HR : forall b, tail_pos l <= b -> R !! b = None).
      { intros b Hbb. destruct (R !! b) as [c|] eqn:E; [|done].
        pose proof (lo_dom _ _ Hok b c E). lia. }
      assert (Epl : tail_pos l = p * page_size l + o) by done.
      exists (AllocOk ((p + 1) * page_size l + 64)), l2. split; [done|]. split; [done|].
      split; [|split_and!; try lia; apply (Hframe l2 RetryNow); [done|lia]].
      cbn [alloc_post]. split_and!; [lia|lia|by rewrite !Ep by lia|lia| |intros b Hbb; apply HR; lia
        |right; split; [done|by rewrite Epg]].
      unfold record_at, mem_key. rewrite (mv_pages _ _ Hmv), Ep by lia. unfold slot_of.
      rewrite (mv_buf _ _ Hmv). apply Hz.
    + change (set_tail (set_tail ?x _) ?w) with (set_tail x w).
      destruct (set_tail_same_page l R (page_size l) Hok) as (Hok1 & Htp & Htpos); [fold o; lia|].
      fold p in Hok1, Htp, Htpos. set (l1 := set_tail l (pack p (page_size l))) in *.
      destruct (issue_shift_addresses_spec l1 R (p + 1) Hok1) as (l2 & -> & Hok2 & Hmv & Hro);
        [lia|rewrite Htpos; change (page_size l1) with (page_size l); lia|].
      cbn [mbind option_bind]. destruct (moved_pos _ _ Hmv) as (Eps & Epos & Epg & _).
      pose proof (mv_closed _ _ Hmv). pose proof (mv_head _ _ Hmv). pose proof (mv_begin _ _ Hmv).
      change (head_address l1) with (head_address l) in *.
      change (closed_until_address l1) with (closed_until_address l) in *.
      change (begin_address l1) with (begin_address l) in *.
      assert (Epl : tail_pos l = p * page_size l + o) by done.
      exists RetryLater, l2. split; [done|]. split; [done|].
      split; [|split_and!; try lia; apply (Hframe l2 RetryNow); [done|lia]].
      cbn [alloc_post]. split; [lia|done].
Qed.

(** ** The empty log, and records written through it *)

Lemma log_new_ok bits mem mutable l : Floor <= FIRST_VALID_ADDRESS -> log_new bits mem mutable = Some l -> log_ok l ∅.
Proof.
  intros Hfl. unfold log_new. destruct (Z.leb_spec 9 bits), (Z.leb_spec bits 30); simpl; try done.
  intros [= <-]. set (k := Z.log2_up (Z.max mem 2)).
  assert (Hk : 1 <= k) by (pose proof (Z.log2_up_pos (Z.max mem 2) ltac:(lia)); unfold k; lia).
  assert (H2 : 2 <= 2 ^ k) by (change 2 with (2 ^ 1) at 1; apply Z.pow_le_mono_r; lia).
  assert (Hps : 2 ^ 9 <= 2 ^ bits) by (apply Z.pow_le_mono_r; lia).
  split; try done.
  - split; simpl; [lia|by exists k|lia].
  - split; unfold tail_pos, tail_page, tail_off, page_size, FIRST_VALID_ADDRESS, PAGE_HEADER_SIZE; simpl; try done.
    by exists 0.
  - match goal with |- tail_ok ?x => set (l := x) end.
    assert (Ep : tail_page l = 0) by reflexivity. assert (Eo : tail_off l = 64) by reflexivity.
    split; [reflexivity|rewrite Ep; lia| |rewrite Ep; unfold page_size; simpl; nia].
    rewrite Eo. unfold FIRST_VALID_ADDRESS, PAGE_HEADER_SIZE, page_size. simpl. lia.
  - intros e a Ha. by apply elem_of_nil in Ha.
Qed.

Lemma mem_key_inj l R a b : log_ok l R ->
  closed_until_address l <= a < (tail_page l + 1) * page_size l ->
  closed_until_address l <= b < (tail_page l + 1) * page_size l ->
  mem_key l a = mem_key l b -> a = b.
Proof.
  intros Hok Ha Hb E. pose proof (lo_config _ _ Hok) as Hc. pose proof (config_bits _ Hc) as Hbits.
  pose proof (page_size_pos l Hbits) as Hps. injection E as Es Eo.
  rewrite !offset_of_sub in Eo by done.
  destruct (mk_closed _ (lo_marks _ _ Hok)) as (c & Hc0 & Ec). pose proof (tl_window _ (lo_tail _ _ Hok)) as Hw.
  assert (Hpage : forall x, closed_until_address l <= x < (tail_page l + 1) * page_size l ->
    c <= page_of l x <= tail_page l).
  { intros x Hx. rewrite page_of_div by done. split.
    - apply Z.div_le_lower_bound; lia.
    - assert (x / page_size l < tail_page l + 1) by (apply Z.div_lt_upper_bound; lia). lia. }
  pose proof (Hpage a Ha). pose proof (Hpage b Hb).
  assert (page_of l a = page_of l b) as Ep; [|rewrite Ep in Eo; lia].
  apply (slot_of_inj l); [done|done|].
  assert (tail_page l < c + buffer_size l); [|lia]. rewrite Ec in Hw. nia.
Qed.

(** Writing a resident record; below [flushed] only its seal may change, since
    the device keeps its copy. *)
Lemma put_record_ok l R a c : log_ok l R ->
  closed_until_address l <= a -> FIRST_VALID_ADDRESS <= a < tail_pos l ->
  (a < flushed_until_address l -> unseal_img <$> R !! a = Some (unseal_img c)) ->
  log_ok (put_record l a c) (<[a := c]> R).
Proof.
  intros Hok Hcl Ha Hfl. assert (Hres : closed_until_address l <= a < (tail_page l + 1) * page_size l).
  { pose proof (tl_off _ (lo_tail _ _ Hok)). unfold tail_pos in Ha. lia. }
  pose proof (mem_key_inj l R) as Hinj. destruct Hok as [Hc Hm Ht Hp Hd Hfloor Hmem Hdev] eqn:Eok.
  split; try done.
  - by destruct Hc.
  - by destruct Hm.
  - by destruct Ht.
  - intros b c' [[<- _]|[_ Hb]]%lookup_insert_Some; [done|by eapply Hd].
  - intros b Hfb Hb. unfold record_at, put_record. simpl.
    change (mem_key (set_pages l _) b) with (mem_key l b).
    destruct (decide (a = b)) as [<-|Hne]; [by rewrite !lookup_insert_eq|].
    rewrite !lookup_insert_ne; [by apply Hmem|done|].
    intros E. apply Hne. by apply (Hinj a b).
  - intros b Hb. change (device (put_record l a c)) with (device l).
    change (flushed_until_address (put_record l a c)) with (flushed_until_address l) in Hb.
    destruct (decide (a = b)) as [<-|Hne].
    + rewrite lookup_insert_eq, Hdev by done. apply Hfl. lia.
    + rewrite lookup_insert_ne by done. by apply Hdev.
Qed.


Lemma log_refresh_spec l R tid cached idx l' : log_ok l R -> log_refresh l tid cached = Some (idx, l') ->
  log_ok l' R /\ moved l l'.
Proof.
  intros Hok. unfold log_refresh, refresh, protect.
  destruct (my_slot (epoch l) tid cached) as [[i e]|] eqn:Em; cbn [mbind option_bind]; [|done].
  assert (Hd : drain_list e = drain_list (epoch l)) by by eapply my_slot_drain_list.
  set (e1 := set_epoch e i (current e)).
  assert (He : forall ep a, (ep, a) ∈ drain_list e1 -> action_ok l a).
  { intros ep a. change (drain_list e1) with (drain_list e). rewrite Hd. apply (lo_pending _ _ Hok). }
  destruct (0 <? length (drain_list e1))%nat; cbn [mbind option_bind].
  - destruct (drain e1) as [ready e2] eqn:Ed. cbn [mbind option_bind].
    destruct (run_drained l R _ _ _ Hok He Ed) as (l2 & -> & Hok2 & Hm2 & _).
    cbn [mbind option_bind]. by intros [= _ <-].
  - intros [= _ <-]. split; [by apply set_epoch_ok|by split].
Qed.

(** ** Every reachable log

    The steps of the log: allocations (whether they succeed or are refused),
    the writes the epoch protocol allows (a new record or an in-place update at
    or above [safe_read_only_address], a seal on any resident record), boundary
    shifts, epoch bumps and refreshes, threads entering and leaving. *)

Inductive log_step : HybridLog * gmap Z cell -> HybridLog * gmap Z cell -> Prop :=
| ls_allocate l R size r l' : 0 < size -> size + PAGE_HEADER_SIZE <= page_size l ->
    tail_page l + 1 < 2 ^ 31 -> try_allocate l size = Some (r, l') -> log_step (l, R) (l', R)
| ls_write l R a c : safe_read_only_address l <= a < tail_pos l ->
    log_step (l, R) (put_record l a c, <[a := c]> R)
| ls_seal l R a c c' : head_address l <= a < tail_pos l -> record_at l a = Some c ->
    unseal_img c' = unseal_img c -> log_step (l, R) (put_record l a c', <[a := c']> R)
| ls_shift_read_only l R ro b l' : ro <= tail_pos l -> shift_read_only_address l ro = Some (b, l') ->
    log_step (l, R) (l', R)
| ls_shift_head l R h b l' : shift_head_address l h = Some (b, l') -> log_step (l, R) (l', R)
| ls_bump l R l' : log_bump_current_epoch l = Some l' -> log_step (l, R) (l', R)
| ls_refresh l R tid cached idx l' : log_refresh l tid cached = Some (idx, l') -> log_step (l, R) (l', R)
| ls_protect l R tid cached v idx e : protect (epoch l) tid cached = Some (v, idx, e) ->
    log_step (l, R) (set_epoch_state l e, R)
| ls_unprotect l R tid cached idx e : unprotect (epoch l) tid cached = Some (idx, e) ->
    log_step (l, R) (set_epoch_state l e, R).

Lemma log_step_ok l R l' R' : log_step (l, R) (l', R') -> log_ok l R -> log_ok l' R'.
Proof.
  intros Hs Hok. pose proof (lo_marks _ _ Hok) as Hm.
  assert (Hcl : closed_until_address l <= head_address l /\ FIRST_VALID_ADDRESS <= head_address l /\
    head_address l <= safe_read_only_address l /\ flushed_until_address l <= safe_read_only_address l).
  { pose proof (mk_safe_head _ Hm). pose proof (mk_head _ Hm). pose proof (mk_first _ Hm).
    pose proof (mk_flushed _ Hm). pose proof (mk_safe_ro _ Hm). lia. }
  inversion Hs; subst.
  - destruct (try_allocate_ok l R' size Hok) as (r' & l2 & E & Hok' & _); [done|done|done|].
    by simplify_eq.
  - apply put_record_ok; [done|lia|lia|lia].
  - apply put_record_ok; [done|lia|lia|]. intros _.
    rewrite <- (lo_mem _ _ Hok);
      [|pose proof (lo_floor _ _ Hok); lia|pose proof (tl_off _ (lo_tail _ _ Hok)); unfold tail_pos in *; lia].
    match goal with H : record_at l a = _ |- _ => rewrite H end. simpl. congruence.
  - destruct (shift_read_only_address_spec l R' ro Hok) as (b' & l2 & E & Hok' & _); [done|].
    by simplify_eq.
  - destruct (shift_head_address_spec l R' h Hok) as (b' & l2 & E & Hok' & _).
    by simplify_eq.
  - destruct (log_bump_current_epoch_spec l R' Hok) as (l2 & E & Hok' & _).
    by simplify_eq.
  - by eapply log_refresh_spec.
  - apply set_epoch_ok; [done|]. match goal with H : protect _ _ _ = _ |- _ => rename H into Hp end.
    unfold protect in Hp. destruct (my_slot _ _ _) as [[i e']|] eqn:Em; [|done].
    injection Hp as _ _ <-. intros ep a'. change (drain_list (set_epoch e' i _)) with (drain_list e').
    rewrite (my_slot_drain_list _ _ _ _ _ Em). apply (lo_pending _ _ Hok).
  - apply set_epoch_ok; [done|]. match goal with H : unprotect _ _ _ = _ |- _ => rename H into Hp end.
    unfold unprotect in Hp. destruct (my_slot _ _ _) as [[i e']|] eqn:Em; [|done].
    injection Hp as _ <-. intros ep a'. change (drain_list (set_epoch e' i _)) with (drain_list e').
    rewrite (my_slot_drain_list _ _ _ _ _ Em). apply (lo_pending _ _ Hok).
Qed.

Lemma reachable_log_ok s s' : rtc log_step s s' -> log_ok (fst s) (snd s) -> log_ok (fst s') (snd s').
Proof.
  induction 1 as [|[l R] [l1 R1] s3 Hstep _ IH]; [done|]. intros Hok. apply IH. by eapply log_step_ok.
Qed.

End Invariant.

(** A log that has run since it was created. *)
Definition from_creation : floor := 0.
#[local] Existing Instance from_creation.
Lemma fresh_floor : @Floor from_creation <= FIRST_VALID_ADDRESS.
Proof. done. Qed.

(** C12. In every log reachable from an empty one by allocations, writes,
    seals, boundary shifts, flushes, page closings and epoch changes: each
    address ever written still holds its record where an operation will look
    for it (memory at or above [head], the device below), whatever pages were
    flushed, closed and reused meanwhile; and an allocation never panics on a
    record that fits a page, returns room that is past everything written, on
    one page, over zeroed memory and in the mutable region, and refuses only
    while the next page's slot holds a page that is not yet closed. *)
Theorem reachable_log_keeps_records bits mem mutable l0 l R :
  log_new bits mem mutable = Some l0 -> rtc log_step (l0, ∅) (l, R) ->
  (forall a, FIRST_VALID_ADDRESS <= a < tail_pos l ->
     unseal_img <$> contents l a = unseal_img <$> R !! a) /\
  forall size, 0 < size -> size + PAGE_HEADER_SIZE <= page_size l -> tail_page l + 1 < 2 ^ 31 ->
    exists r l', try_allocate l size = Some (r, l') /\ alloc_post l R size r l'.
Proof.
  intros Hnew Hr. pose proof (reachable_log_ok _ _ Hr (log_new_ok _ _ _ _ fresh_floor Hnew)) as Hok. split.
  - intros a. by apply contents_ok.
  - intros size Hs Hfit Hroom. destruct (try_allocate_ok l R size Hok Hs Hfit Hroom) as (r & l' & ? & _ & ? & _).
    by exists r, l'.
Qed.

(** A 512-byte page filled by two records, then a third on the next page. *)
Definition sample_run : list Z := [448; 40; 408].
Definition alloc_all (l : HybridLog) (sizes : list Z) : option HybridLog :=
  foldl (fun o s => l ← o; snd <$> try_allocate l s) (Some l) sizes.
Definition sample_log : option HybridLog := l ← log_new 9 4 2; alloc_all l sample_run.

Lemma sample_log_reachable l : sample_log = Some l ->
  exists l0, log_new 9 4 2 = Some l0 /\ rtc log_step (l0, ∅) (l, ∅).
Proof.
  unfold sample_log, alloc_all, sample_run. intros E. vm_compute in E. injection E as <-.
  eexists. split; [reflexivity|].
  eapply rtc_l; [eapply (ls_allocate _ _ 448); [lia|vm_compute; discriminate|vm_compute; reflexivity|vm_compute; reflexivity]|].
  eapply rtc_l; [eapply (ls_allocate _ _ 40); [lia|vm_compute; discriminate|vm_compute; reflexivity|vm_compute; reflexivity]|].
  eapply rtc_l; [eapply (ls_allocate _ _ 408); [lia|vm_compute; discriminate|vm_compute; reflexivity|vm_compute; reflexivity]|].
  apply rtc_refl.
Qed.

Lemma reachable_log_keeps_records_witness :
  exists l r l', sample_log = Some l /\ try_allocate l 40 = Some (r, l') /\ alloc_post l ∅ 40 r l'.
Proof.
  destruct sample_log as [l|] eqn:E; [|vm_compute in E; discriminate].
  destruct (sample_log_reachable l E) as (l0 & Hnew & Hr).
  destruct (reachable_log_keeps_records 9 4 2 l0 l ∅ Hnew Hr) as [_ H].
  vm_compute in E. injection E as <-.
  destruct (H 40) as (r & l' & H1 & H2);
    [lia|vm_compute; discriminate|vm_compute; reflexivity|].
  eexists _, r, l'. split; [reflexivity|]. split; [exact H1|exact H2].
Defined.

(** ** [tail_address]

    The address is computed with [|], so a completely filled page with an odd
    number reads back as its own start. *)

Lemma tail_address_spec {fl : floor} l R : log_ok l R -> tail_off l < page_size l \/ Z.even (tail_page l) = true ->
  tail_address l = Some (tail_pos l).
Proof.
  intros Hok Hcase. pose proof (lo_config _ _ Hok) as Hc. pose proof (config_bits _ Hc) as Hb.
  pose proof (page_size_pos l Hb) as Hps. pose proof (lo_tail _ _ Hok) as Ht. pose proof (tl_off _ Ht) as Hto.
  unfold FIRST_VALID_ADDRESS, PAGE_HEADER_SIZE in Hto.
  unfold tail_address. destruct (unpack (tail l)) as [p o] eqn:E.
  assert (Ep : tail_page l = p) by (unfold tail_page; by rewrite E).
  assert (Eo : tail_off l = o) by (unfold tail_off; by rewrite E). rewrite Ep, Eo in *.
  destruct (Z.leb_spec o (page_size l)); [|lia]. f_equal. unfold tail_pos. rewrite Ep, Eo.
  destruct (decide (o < page_size l)) as [Hlt|Hge].
  - rewrite (lor_shiftl p o (page_bits l) Hb) by (fold (page_size l); lia). done.
  - assert (o = page_size l) as -> by lia. destruct Hcase as [|Hev]; [lia|].
    apply Z.even_spec in Hev as [q ->]. unfold page_size.
    replace (2 * q * 2 ^ page_bits l + 2 ^ page_bits l) with (q * 2 ^ (page_bits l + 1) + 2 ^ page_bits l)
      by (rewrite Z.pow_add_r by lia; lia).
    rewrite <- lor_shiftl; [|lia|]. 
    + f_equal. rewrite !Z.shiftl_mul_pow2 by lia. rewrite Z.pow_add_r by lia. lia.
    + rewrite Z.pow_add_r by lia. fold (page_size l). lia.
Qed.

Lemma tail_address_full_odd {fl : floor} l R : log_ok l R -> tail_off l = page_size l ->
  Z.odd (tail_page l) = true -> tail_address l = Some (tail_pos l - page_size l).
Proof.
  intros Hok Hfull Hodd. pose proof (lo_config _ _ Hok) as Hc. pose proof (config_bits _ Hc) as Hb.
  pose proof (page_size_pos l Hb) as Hps.
  unfold tail_address. destruct (unpack (tail l)) as [p o] eqn:E.
  assert (Ep : tail_page l = p) by (unfold tail_page; by rewrite E).
  assert (Eo : tail_off l = o) by (unfold tail_off; by rewrite E). rewrite Ep, Eo in *. subst o.
  rewrite Z.leb_refl. f_equal. unfold tail_pos. rewrite Ep, Eo.
  apply Z.odd_spec in Hodd as [q ->]. unfold page_size.
  replace (Z.shiftl (2 * q + 1) (page_bits l)) with (q * 2 ^ (page_bits l + 1) + 2 ^ page_bits l)
    by (rewrite Z.shiftl_mul_pow2, Z.pow_add_r by lia; lia).
  rewrite <- lor_shiftl; [|lia|rewrite Z.pow_add_r by lia; fold (page_size l); lia].
  rewrite <- Z.lor_assoc, Z.lor_diag, lor_shiftl;
    [|lia|rewrite Z.pow_add_r by lia; fold (page_size l); lia].
  rewrite Z.pow_add_r by lia. lia.
Qed.

(** The address reported, in every state. *)
Definition reported_tail (l : HybridLog) : Z :=
  if (tail_off l =? page_size l) && Z.odd (tail_page l) then tail_pos l - page_size l else tail_pos l.
Lemma tail_address_reports {fl : floor} l R : log_ok l R ->
  tail_address l = Some (reported_tail l) /\ reported_tail l <= tail_pos l.
Proof.
  intros Hok. pose proof (page_size_pos l (config_bits _ (lo_config _ _ Hok))) as Hps. unfold reported_tail.
  pose proof (tl_off _ (lo_tail _ _ Hok)) as Hto.
  destruct (Z.eqb_spec (tail_off l) (page_size l)), (Z.odd (tail_page l)) eqn:Eo; cbn [andb];
    (split; [|lia]); [by eapply tail_address_full_odd| |by eapply tail_address_spec; [|left; lia]..].
  eapply tail_address_spec; [done|]. right. by rewrite <- Z.negb_odd, Eo.
Qed.

(** C34. When the tail has filled an odd-numbered page exactly (the last record
    ended at the page boundary, or an allocation was refused and put the offset
    back), [tail_address] is one whole page too low: everything on the tail page
    lies at or above the address it reports, so a scan or a checkpoint up to it
    misses the page. *)
Theorem tail_address_full_odd_page {fl : floor} l R : log_ok l R -> tail_off l = page_size l ->
  Z.odd (tail_page l) = true -> tail_address l = Some (tail_pos l - page_size l).
Proof. apply tail_address_full_odd. Qed.

Lemma tail_address_full_odd_page_witness :
  exists l, sample_log = Some l /\ tail_pos l = 1024 /\ tail_address l = Some 512.
Proof.
  destruct sample_log as [l|] eqn:E; [|vm_compute in E; discriminate].
  destruct (sample_log_reachable l E) as (l0 & Hnew & Hr).
  pose proof (reachable_log_ok _ _ Hr (log_new_ok _ _ _ _ fresh_floor Hnew)) as Hok.
  assert (Hp : tail_pos l = 1024) by (vm_compute in E; injection E as <-; vm_compute; reflexivity).
  exists l. split; [done|]. split; [done|].
  rewrite (tail_address_full_odd_page l ∅ Hok).
  - rewrite Hp. vm_compute in E. injection E as <-. vm_compute. reflexivity.
  - vm_compute in E. injection E as <-. vm_compute. reflexivity.
  - vm_compute in E. injection E as <-. vm_compute. reflexivity.
Defined.

(** ** Recovery on a page boundary

    [recover_addresses] puts the tail back at offset 0 of the page when the
    recovered tail is a page boundary, which is where [tail_address] is when an
    even page is full. *)

(** C35. After recovering to a tail on a page boundary, the first record is
    allocated at offset 0 of the page, inside the page header, where a scan
    never looks: a record of at most [PAGE_HEADER_SIZE] bytes there is skipped
    by every scan. *)
Theorem recovery_on_page_boundary_hides_record l begin_ p size c :
  9 <= page_bits l <= 30 -> 0 < p < 2 ^ 31 -> 0 < size <= PAGE_HEADER_SIZE ->
  let t := p * page_size l in
  exists l', try_allocate (recover_addresses l begin_ t) size = Some (AllocOk t, l') /\
    record_at (put_record l' t c) t = Some c /\
    scan (put_record l' t c) t (t + size) = Some [].
Proof.
  intros Hbits Hp Hs t. unfold PAGE_HEADER_SIZE in Hs. assert (Hb : 0 <= page_bits l) by lia.
  pose proof (page_size_pos l Hb) as Hps.
  assert (H9 : 2 ^ 9 <= page_size l) by (unfold page_size; apply Z.pow_le_mono_r; lia).
  assert (Hpg : page_of l t = p) by (apply page_of_spec; [done|unfold t; lia]).
  assert (Hoff : Z.land t (page_size l - 1) = 0).
  { change (offset_of l t = 0). rewrite offset_of_sub, Hpg by done. unfold t. lia. }
  set (l1 := recover_addresses l begin_ t).
  assert (Htl : tail l1 = pack p 0) by (unfold l1, recover_addresses; cbn [tail]; rewrite Hpg; change (page_size (zero_page _ _)) with (page_size l); by rewrite Hoff).
  destruct (pack_unpack p 0) as [Hu _]; [lia|lia|].
  assert (Ea : try_allocate l1 size = Some (AllocOk t, set_tail l1 (pack p (0 + size)))).
  { unfold try_allocate. unfold PAGE_HEADER_SIZE. change (page_size l1) with (page_size l).
    destruct (Z.ltb_spec (page_size l) (size + 64)); [lia|]. rewrite Htl, wrap_pack, Hu by lia.
    cbv zeta. change (page_size (set_tail l1 _)) with (page_size l).
    change (page_bits (set_tail l1 _)) with (page_bits l).
    destruct (Z.leb_spec (0 + size) (page_size l)); [|lia].
    by rewrite lor_shiftl, Z.add_0_r by (fold (page_size l); lia). }
  eexists. split; [exact Ea|]. set (l2 := put_record _ t c).
  split; [unfold record_at, l2, put_record; simpl; by rewrite lookup_insert_eq|].
  assert (Hpg' : page_of l (t + size) = p) by (apply page_of_spec; [done|unfold t; lia]).
  unfold scan, FIRST_VALID_ADDRESS, PAGE_HEADER_SIZE. rewrite Z.max_l by (unfold t; lia).
  change (page_of l2) with (page_of l). change (page_bits l2) with (page_bits l).
  change (page_size l2) with (page_size l). rewrite Hpg, Hpg', Z.sub_diag.
  cbn [scan_loop Z.to_nat]. destruct (Z.ltb_spec t (t + size)); [|lia].
  assert (Esc : scan_page l2 t (t + size) = Some []).
  { unfold scan_page. change (page_of l2) with (page_of l). change (page_bits l2) with (page_bits l).
    change (page_size l2) with (page_size l). change (head_address l2) with t.
    rewrite Hpg, shiftl_page by done. fold t. cbv zeta. rewrite Z.ltb_irrefl.
    unfold PAGE_HEADER_SIZE. rewrite Z.min_r, Z.max_r by lia. cbn [Z.ltb Z.compare mbind option_bind last].
    destruct (Z.ltb_spec 64 (t + size - t)); [lia|done]. }
  rewrite Esc. cbn [mbind option_bind]. change (page_of l2) with (page_of l).
  change (page_bits l2) with (page_bits l). change (page_size l2) with (page_size l).
  rewrite Hpg, shiftl_page by done. fold t.
  destruct (Z.ltb_spec (t + page_size l) (t + size)); [lia|done].
Qed.

Lemma recovery_on_page_boundary_hides_record_witness :
  exists l l', log_new 9 4 2 = Some l /\
    try_allocate (recover_addresses l 64 512) 24 = Some (AllocOk 512, l') /\
    scan (put_record l' 512 (Cell 0 [1] 0 [] None)) 512 536 = Some [].
Proof.
  destruct (log_new 9 4 2) as [l|] eqn:E; [|vm_compute in E; discriminate].
  assert (Hb : page_bits l = 9) by (vm_compute in E; injection E as <-; reflexivity).
  assert (Hp : page_size l = 512) by (unfold page_size; by rewrite Hb).
  destruct (recovery_on_page_boundary_hides_record l 64 1 24 (Cell 0 [1] 0 [] None)) as (l' & H1 & _ & H3);
    [rewrite Hb; lia|lia|unfold PAGE_HEADER_SIZE; lia|].
  rewrite Hp in H1, H3. exists l, l'. split; [done|]. split; [exact H1|exact H3].
Defined.
