(* ===== verification/LogLive.v ===== *)
(** * Allocation makes progress

    A refused allocation is not refused forever: with no other thread inside
    the epoch, it succeeds within three attempts separated by epoch bumps.
    Along the way, what a protected thread can rely on: no page at or above the
    head it read is closed while it is inside. *)

From S2P Require Import Prelude Record Epoch Log LogSpec.

Section Live.
Context {fl : floor}.

(** ** Pending work *)

(** Every published boundary is either acted upon or has its action registered,
    in an epoch that is over. *)
Definition flush_pending (l : HybridLog) : Prop :=
  exists e, (e, MarkedReadOnly (read_only_address l)) ∈ drain_list (epoch l).
Definition close_pending (l : HybridLog) : Prop :=
  exists e, (e, PagesClosed (head_address l)) ∈ drain_list (epoch l).
Definition flushed_up (l : HybridLog) : Prop := read_only_address l <= flushed_until_address l.
Definition closed_up (l : HybridLog) : Prop := head_address l < closed_until_address l + page_size l.

Record lively (l : HybridLog) : Prop := {
  lv_flush : flushed_up l \/ flush_pending l;
  lv_close : closed_up l \/ close_pending l;
  lv_epoch : forall e a, (e, a) ∈ drain_list (epoch l) -> e < current (epoch l) }.

Definition settled (l : HybridLog) : Prop := flushed_up l /\ closed_up l.

(** A thread inside epoch [e0] that read head [h0] or less when it entered:
    whatever could be closed before it leaves lies below [h0]. *)
Record guard (l : HybridLog) (e0 h0 : Z) : Prop := {
  gd_slot : exists idx s, table (epoch l) !! idx = Some s /\ s_epoch s = e0 /\ e0 <> UNPROTECTED;
  gd_epoch : e0 <= current (epoch l);
  gd_floor : Floor <= h0;
  gd_closed : closed_until_address l <= h0;
  gd_pending : forall e h, (e, PagesClosed h) ∈ drain_list (epoch l) -> e < e0 -> h <= h0 }.

(** Where flushing has stopped or is asked to stop. *)
Record cuts (P : Z -> Prop) (l : HybridLog) : Prop := {
  cu_flushed : P (flushed_until_address l);
  cu_pending : forall e ro, (e, MarkedReadOnly ro) ∈ drain_list (epoch l) -> P ro }.

(** ** Running actions *)

Lemma run_action_effect l R a l' : log_ok l R -> action_ok l a -> run_action l a = Some l' ->
  log_ok l' R /\ moved l l' /\ epoch l' = epoch l /\
  head_address l' = head_address l /\ read_only_address l' = read_only_address l /\
  match a with
  | MarkedReadOnly ro => flushed_until_address l' = Z.max (flushed_until_address l) ro /\
      closed_until_address l' = closed_until_address l
  | PagesClosed h => flushed_until_address l' = flushed_until_address l /\
      h < closed_until_address l' + page_size l /\ closed_until_address l' <= Z.max (closed_until_address l) h
  | PhaseObserved => flushed_until_address l' = flushed_until_address l /\
      closed_until_address l' = closed_until_address l
  end.
Proof.
  intros Hok Ha E. destruct a as [ro|h|]; simpl in *.
  - destruct (on_pages_marked_read_only_spec l R ro Hok ltac:(lia))
      as (l1 & E1 & ? & ? & ? & ? & ? & ? & ?). by simplify_eq.
  - destruct (on_pages_closed_spec l R h Hok Ha) as (l1 & E1 & ? & ? & ? & ? & ? & ? & ? & ?). by simplify_eq.
  - by simplify_eq.
Qed.

Lemma run_actions_effect l R as_ l' : log_ok l R -> (forall a, a ∈ as_ -> action_ok l a) ->
  run_actions l as_ = Some l' ->
  (forall ro, MarkedReadOnly ro ∈ as_ -> ro <= flushed_until_address l') /\
  (forall h, PagesClosed h ∈ as_ -> h < closed_until_address l' + page_size l) /\
  (forall b, closed_until_address l <= b -> (forall h, PagesClosed h ∈ as_ -> h <= b) ->
     closed_until_address l' <= b) /\
  (forall P : Z -> Prop, P (flushed_until_address l) -> (forall ro, MarkedReadOnly ro ∈ as_ -> P ro) ->
     P (flushed_until_address l')).
Proof.
  revert l. induction as_ as [|a as_ IH]; intros l Hok Ha E.
  { injection E as <-. split_and!; [intros ? H%elem_of_nil; done|intros ? H%elem_of_nil; done|done|done]. }
  destruct (run_action_spec l R a Hok (Ha a ltac:(by left))) as (l1 & E1 & Hok1 & Hm1 & _ & Eh & Er).
  pose proof (run_action_effect l R a l1 Hok (Ha a ltac:(by left)) E1) as (_ & _ & _ & _ & _ & Heff).
  assert (Ha1 : forall a', a' ∈ as_ -> action_ok l1 a').
  { intros a' Ha'. apply (action_ok_mono l); [lia|lia|]. apply Ha. by right. }
  assert (E' : run_actions l1 as_ = Some l').
  { unfold run_actions in E |- *. cbn [foldl mbind option_bind] in E. by rewrite E1 in E. }
  destruct (IH l1 Hok1 Ha1 E') as (IH1 & IH2 & IH3 & IH4).
  destruct (run_actions_spec l1 R as_ Hok1 Ha1) as (l2 & E2 & _ & Hm2 & _). simplify_eq.
  pose proof (mv_flushed _ _ Hm2). pose proof (mv_closed _ _ Hm2).
  destruct (moved_pos _ _ Hm1) as (Eps & _). rewrite Eps in IH2. split_and!.
  - intros ro [<-|Hin]%elem_of_cons; [destruct Heff; lia|by apply IH1].
  - intros h [<-|Hin]%elem_of_cons; [destruct Heff; lia|by apply IH2].
  - intros b Hb Hhs. apply IH3.
    + destruct a as [ro|h|]; [destruct Heff; lia| |destruct Heff; lia]. destruct Heff as (_ & H1 & H2).
      pose proof (Hhs h ltac:(by left)). lia.
    + intros h Hin. apply Hhs. by right.
  - intros P HP Hro. apply IH4; [|intros ro Hin; apply Hro; by right].
    destruct a as [ro|h|]; destruct Heff as [-> _]; [|done..].
    destruct (Z.max_spec (flushed_until_address l) ro) as [[_ ->]|[_ ->]]; [apply Hro; by left|done].
Qed.

(** The actions of [e] that a drain takes, run; the others stay. *)
Lemma run_drained_live l R e ready e' l' : log_ok l R ->
  (forall ep a, (ep, a) ∈ drain_list e -> action_ok l a) ->
  flushed_up l \/ (exists ep, (ep, MarkedReadOnly (read_only_address l)) ∈ drain_list e) ->
  closed_up l \/ (exists ep, (ep, PagesClosed (head_address l)) ∈ drain_list e) ->
  (forall ep a, (ep, a) ∈ drain_list e -> ep < current e) ->
  drain e = (ready, e') -> run_actions (set_epoch_state l e') ready = Some l' ->
  lively l' /\ table (epoch l') = table e /\ current (epoch l') = current e /\
  ((forall idx s, table e !! idx = Some s -> s_epoch s = UNPROTECTED) -> drain_list (epoch l') = []) /\
  (forall e0 h0, (exists idx s, table e !! idx = Some s /\ s_epoch s = e0 /\ e0 <> UNPROTECTED) ->
     Floor <= h0 -> closed_until_address l <= h0 -> e0 <= current e ->
     (forall ep h, (ep, PagesClosed h) ∈ drain_list e -> ep < e0 -> h <= h0) -> guard l' e0 h0) /\
  (forall P : Z -> Prop, P (flushed_until_address l) ->
     (forall ep ro, (ep, MarkedReadOnly ro) ∈ drain_list e -> P ro) -> cuts P l').
Proof.
  intros Hok He Hfl Hcl Hep Hd Hrun.
  destruct (run_drained l R e ready e' Hok He Hd) as (l1 & E1 & Hok1 & Hm & Ee & Eh & Er).
  assert (l1 = l') as -> by congruence. clear E1.
  pose proof (mv_flushed _ _ Hm). pose proof (mv_closed _ _ Hm).
  destruct (moved_pos _ _ Hm) as (Eps & _).
  assert (Hready : forall a, a ∈ ready <-> exists ep, (ep, a) ∈ drain_list e /\ ep <= compute_safe_epoch e).
  { unfold drain in Hd. injection Hd as <- <-. intros a. rewrite list_elem_of_fmap. split.
    - intros ([ep a'] & -> & [Hle Hin]%list_elem_of_filter). by exists ep.
    - intros (ep & Hin & Hle). exists (ep, a). split; [done|]. by apply list_elem_of_filter. }
  assert (Hkept : forall x, x ∈ drain_list e' <-> x ∈ drain_list e /\ compute_safe_epoch e < fst x).
  { unfold drain in Hd. injection Hd as <- <-. cbn [drain_list]. intros x.
    rewrite list_elem_of_filter. split; intros [? ?]; split; try done; lia. }
  assert (Hcur : current e' = current e /\ table e' = table e)
    by (unfold drain in Hd; by injection Hd as <- <-). destruct Hcur as [Hcur Htab].
  destruct (run_actions_effect (set_epoch_state l e') R ready l') as (F1 & F2 & F3 & F4);
    [apply set_epoch_ok; [done|]; intros ep a [Hin _]%Hkept; by eapply He
    |intros a (ep & Hin & _)%Hready; by eapply (He ep)|done|].
  change (page_size (set_epoch_state l e')) with (page_size l) in F2.
  change (closed_until_address (set_epoch_state l e')) with (closed_until_address l) in F3.
  unfold flushed_up, closed_up in *. split; [split|].
  - unfold flushed_up, flush_pending. rewrite Er, Ee. destruct Hfl as [Hle|[ep Hin]]; [left; lia|].
    destruct (decide (ep <= compute_safe_epoch e)) as [Hle|Hgt].
    + left. apply F1, Hready. by exists ep.
    + right. exists ep. apply Hkept. simpl. split; [done|lia].
  - unfold closed_up, close_pending. rewrite Eh, Ee, Eps. destruct Hcl as [Hle|[ep Hin]]; [left; lia|].
    destruct (decide (ep <= compute_safe_epoch e)) as [Hle|Hgt].
    + left. apply F2, Hready. by exists ep.
    + right. exists ep. apply Hkept. simpl. split; [done|lia].
  - rewrite Ee, Hcur. intros ep a [Hin _]%Hkept. by eapply Hep.
  - rewrite Ee. split_and!; [done|done| | |].
    + intros Hun. destruct (drain_list e') as [|[ep a] rest] eqn:Edl; [done|].
      destruct (proj1 (Hkept (ep, a)) ltac:(by left)) as [Hin Hlt]. simpl in Hlt.
      pose proof (Hep ep a Hin). assert (compute_safe_epoch e = current e - 1); [|lia].
      apply compute_safe_unprotected, Hun.
    + intros e0 h0 (idx & s & Hs & Hse & Hne) Hf0 Hc0 He0 Hp0. split; rewrite ?Ee, ?Htab, ?Hcur.
      * by exists idx, s.
      * done.
      * done.
      * apply F3; [done|]. intros h (ep & Hin & Hle)%Hready. apply (Hp0 ep); [done|].
        pose proof (proj2 (compute_safe_epoch_spec e) idx s Hs ltac:(congruence)). lia.
      * intros ep h [Hin _]%Hkept Hlt. by eapply Hp0.
    + intros P HP Hro. split.
      * apply F4; [done|]. intros ro (ep & Hin & _)%Hready. by eapply Hro.
      * rewrite Ee. intros ep ro [Hin _]%Hkept. by eapply Hro.
Qed.

(** ** Bumps *)

(** What a log operation keeps for the threads inside the epoch. *)
Record lively_step (l l' : HybridLog) : Prop := {
  ls_lively : lively l';
  ls_table : table (epoch l') = table (epoch l);
  ls_current : current (epoch l) <= current (epoch l');
  ls_guard : forall e0 h0, guard l e0 h0 -> guard l' e0 h0;
  ls_bits : page_bits l' = page_bits l;
  ls_cuts : forall P : Z -> Prop, (forall n, 0 <= n -> P (n * page_size l)) -> cuts P l -> cuts P l' }.

Lemma lively_step_refl l : lively l -> lively_step l l.
Proof. by split. Qed.
Lemma lively_step_trans l1 l2 l3 : lively_step l1 l2 -> lively_step l2 l3 -> lively_step l1 l3.
Proof.
  intros [] [??????]. split; [done|congruence|lia|auto|congruence|]. intros P HP Hc.
  unfold page_size in *. apply ls_cuts1; [|by apply ls_cuts0]. by rewrite ls_bits0.
Qed.

Lemma bump_with_action_live l R a l' : log_ok l R -> action_ok l a ->
  flushed_up l \/ flush_pending l \/ a = MarkedReadOnly (read_only_address l) ->
  closed_up l \/ close_pending l \/ a = PagesClosed (head_address l) ->
  (forall e a', (e, a') ∈ drain_list (epoch l) -> e < current (epoch l)) ->
  log_bump_with_action l a = Some l' ->
  lively l' /\ table (epoch l') = table (epoch l) /\ current (epoch l') = current (epoch l) + 1 /\
  (forall e0 h0, guard l e0 h0 -> guard l' e0 h0) /\
  (forall P, cuts P l -> (forall ro, a = MarkedReadOnly ro -> P ro) -> cuts P l') /\
  ((forall idx s, table (epoch l) !! idx = Some s -> s_epoch s = UNPROTECTED) -> drain_list (epoch l') = []).
Proof.
  intros Hok Ha Hfl Hcl Hep. unfold log_bump_with_action, bump_with_action.
  destruct (drain _) as [ready e'] eqn:Ed.
  match type of Ed with drain ?x = _ => set (e := x) in * end. intros Hrun.
  assert (Hin : forall x, x ∈ drain_list e <-> x ∈ drain_list (epoch l) \/ x = (current (epoch l), a)).
  { intros x. unfold e. cbn [drain_list]. rewrite elem_of_app, list_elem_of_singleton. done. }
  destruct (run_drained_live l R e ready e' l' Hok) as (Hl & Ht & Hc & Hnil & Hg & Hcu); try done.
  - intros ep a' [Hi|[= -> ->]]%Hin; [by eapply (lo_pending _ _ Hok)|done].
  - destruct Hfl as [?|[[ep Hi]| ->]]; [by left|right; exists ep; apply Hin; by left|].
    right. exists (current (epoch l)). apply Hin. by right.
  - destruct Hcl as [?|[[ep Hi]| ->]]; [by left|right; exists ep; apply Hin; by left|].
    right. exists (current (epoch l)). apply Hin. by right.
  - unfold e. cbn [current]. intros ep a' [Hi|[= -> _]]%Hin; [pose proof (Hep _ _ Hi)|]; lia.
  - split; [done|]. split; [by rewrite Ht|]. split; [by rewrite Hc|].
    split; [|split; [|exact Hnil]].
    2: { intros P [HP1 HP2] Ha'. apply Hcu; [done|]. intros ep ro [Hi|[= _ <-]]%Hin; [by eapply HP2|by apply Ha']. }
    intros e0 h0 [Hs He0 Hf0 Hc0 Hp0]. apply Hg; [done|done|done|unfold e; cbn [current]; lia|].
    intros ep h [Hi|[= -> _]]%Hin Hlt; [by eapply Hp0|lia].
Qed.

(** With nobody inside, a bump runs everything that is pending. *)
Lemma bump_current_epoch_live l R l' : log_ok l R -> lively l -> log_bump_current_epoch l = Some l' ->
  lively_step l l' /\ current (epoch l') = current (epoch l) + 1 /\
  ((forall idx s, table (epoch l) !! idx = Some s -> s_epoch s = UNPROTECTED) ->
     drain_list (epoch l') = [] /\ settled l').
Proof.
  intros Hok [Hfl Hcl Hep]. unfold log_bump_current_epoch, bump_current_epoch. cbv zeta.
  set (e := Epoch (current (epoch l) + 1) (table (epoch l)) (drain_list (epoch l))).
  assert (Hep' : forall ep a, (ep, a) ∈ drain_list e -> ep < current e).
  { intros ep a Hi. pose proof (Hep ep a Hi). unfold e. cbn [current]. lia. }
  assert (Hsettle : lively l' -> drain_list (epoch l') = [] -> settled l').
  { intros [Hf Hc _] Hnil. split.
    - destruct Hf as [?|[? Hf]]; [done|]. rewrite Hnil in Hf. by apply elem_of_nil in Hf.
    - destruct Hc as [?|[? Hc]]; [done|]. rewrite Hnil in Hc. by apply elem_of_nil in Hc. }
  destruct (Nat.ltb_spec 0 (length (drain_list e))).
  - destruct (drain e) as [ready e'] eqn:Ed. intros Hrun.
    destruct (run_drained_live l R e ready e' l' Hok) as (Hl & Ht & Hc & Hn & Hg & Hcu); try done.
    { intros ep a. apply (lo_pending _ _ Hok). }
    destruct (run_drained l R e ready e' Hok) as (l1 & E1 & _ & Hm & _); [apply (lo_pending _ _ Hok)|done|].
    assert (l1 = l') as -> by congruence.
    split; [split; [done|by rewrite Ht|rewrite Hc; unfold e; simpl; lia| |apply (mv_bits _ _ Hm)|]|split; [by rewrite Hc|]].
    + intros e0 h0 [Hs He0 Hf0 Hc0 Hp0]. apply Hg; try done. unfold e. cbn [current]. lia.
    + intros P _ [HP1 HP2]. by apply Hcu.
    + intros Hun. pose proof (Hn Hun). by split; [|apply Hsettle].
  - intros [= <-].
    assert (Hnil : drain_list (epoch l) = []) by (apply length_zero_iff_nil; unfold e in *; cbn [drain_list] in *; lia).
    assert (Hl : lively (set_epoch_state l e)).
    { split; [exact Hfl|exact Hcl|exact Hep']. }
    split; [split; [exact Hl|done|simpl; lia| |done|]|split; [done|]].
    + intros e0 h0 [Hs He0 Hf0 Hc0 Hp0]. split; try done. unfold e. simpl. lia.
    + intros P _ [HP1 HP2]. by split.
    + intros _. split; [done|by apply Hsettle].
Qed.

(** A phase change observed by everyone. *)
Lemma bump_phase l R : log_ok l R -> lively l -> exists l', log_bump_with_action l PhaseObserved = Some l' /\
  log_ok l' R /\ lively_step l l' /\ moved l l' /\
  ((forall idx s, table (epoch l) !! idx = Some s -> s_epoch s = UNPROTECTED) -> drain_list (epoch l') = []).
Proof.
  intros Hok [Hfl Hcl Hep]. destruct (log_bump_with_action_spec l R PhaseObserved Hok I) as (l' & E & Hok' & Hm & _).
  destruct (bump_with_action_live l R PhaseObserved l' Hok I) as (H1 & H2 & H3 & H4 & H5 & H6); try done.
  - destruct Hfl; [by left|by right; left].
  - destruct Hcl; [by left|by right; left].
  - exists l'. split; [done|]. split; [done|]. split; [|done].
    split; [done|done|lia|done|apply (mv_bits _ _ Hm)|]. intros P _ HP. by apply H5.
Qed.

(** ** Boundary shifts *)

Lemma shift_read_only_effect l R ro b l' : log_ok l R -> lively l -> ro <= tail_pos l ->
  shift_read_only_address l ro = Some (b, l') ->
  lively l' /\ table (epoch l') = table (epoch l) /\ current (epoch l) <= current (epoch l') /\
  (forall e0 h0, guard l e0 h0 -> guard l' e0 h0) /\ page_bits l' = page_bits l /\
  forall P : Z -> Prop, P ro -> cuts P l -> cuts P l'.
Proof.
  intros Hok Hl Hro. unfold shift_read_only_address.
  destruct (Z.leb_spec ro (read_only_address l)); [intros [= _ <-]; by split_and!|].
  destruct (log_bump_with_action (set_read_only l ro) (MarkedReadOnly ro)) as [l1|] eqn:E; [|done].
  cbn [mbind option_bind]. intros [= _ <-].
  destruct Hl as [Hfl Hcl Hep]. pose proof (mk_ro _ (lo_marks _ _ Hok)) as Hmr.
  pose proof (lo_marks _ _ Hok) as Hm.
  assert (Hok1 : log_ok (set_read_only l ro) R) by (apply set_read_only_ok; [done|lia|done]).
  destruct (bump_with_action_live _ R (MarkedReadOnly ro) l1 Hok1) as (H1 & H2 & H3 & H4 & H5 & _); [..|exact E|].
  - simpl. destruct Hm. unfold FIRST_VALID_ADDRESS, PAGE_HEADER_SIZE in *. lia.
  - by right; right.
  - destruct Hcl; [by left|by right; left].
  - exact Hep.
  - destruct (log_bump_with_action_spec _ R (MarkedReadOnly ro) Hok1) as (l2 & E2 & _ & Hm2 & _).
    { simpl. destruct Hm. unfold FIRST_VALID_ADDRESS, PAGE_HEADER_SIZE in *. lia. }
    assert (l2 = l1) as -> by congruence. simpl in H3.
    split; [done|]. split; [done|]. split; [lia|]. split; [|split; [exact (mv_bits _ _ Hm2)|]].
    + intros e0 h0 [Hs He0 Hf0 Hc0 Hp0]. apply H4. by split.
    + intros P HP [HP1 HP2]. apply H5; [by split|]. by intros ? [= <-].
Qed.

(** The read-only boundary moved to a page boundary. *)
Lemma shift_read_only_live l R n b l' : log_ok l R -> lively l -> 0 <= n -> n * page_size l <= tail_pos l ->
  shift_read_only_address l (n * page_size l) = Some (b, l') -> lively_step l l'.
Proof.
  intros Hok Hl Hn Hro E. destruct (shift_read_only_effect _ R _ _ _ Hok Hl Hro E) as (H1 & H2 & H3 & H4 & H5 & H6).
  split; try done. intros P HP. by apply H6, HP.
Qed.

Lemma shift_head_live l R h b l' : log_ok l R -> lively l -> shift_head_address l h = Some (b, l') ->
  lively_step l l'.
Proof.
  intros Hok Hl. unfold shift_head_address. cbv zeta.
  destruct (Z.leb_spec (Z.min h (flushed_until_address l)) (head_address l));
    [intros [= _ <-]; by apply lively_step_refl|].
  set (nh := Z.min h (flushed_until_address l)) in *.
  destruct (log_bump_with_action (set_head l nh) (PagesClosed nh)) as [l1|] eqn:E; [|done].
  cbn [mbind option_bind]. intros [= _ <-].
  destruct Hl as [Hfl Hcl Hep]. pose proof (lo_marks _ _ Hok) as Hm.
  assert (Hok1 : log_ok (set_head l nh) R) by (apply set_head_ok; [done|lia|unfold nh; lia]).
  destruct (bump_with_action_live _ R (PagesClosed nh) l1 Hok1) as (H1 & H2 & H3 & H4 & H5 & _); [..|exact E|].
  - simpl. pose proof (mk_first _ Hm). unfold FIRST_VALID_ADDRESS, PAGE_HEADER_SIZE in *. lia.
  - destruct Hfl; [by left|by right; left].
  - by right; right.
  - exact Hep.
  - destruct (log_bump_with_action_spec _ R (PagesClosed nh) Hok1) as (l2 & E2 & _ & Hm2 & _).
    { simpl. pose proof (mk_first _ Hm). unfold FIRST_VALID_ADDRESS, PAGE_HEADER_SIZE in *. lia. }
    assert (l2 = l1) as -> by congruence.
    split; [done|done|simpl in H3; lia| |exact (mv_bits _ _ Hm2)|].
    + intros e0 h0 [Hs He0 Hf0 Hc0 Hp0]. apply H4. by split.
    + intros P _ [HP1 HP2]. apply H5; [by split|done].
Qed.

(** The head a turn to page [next] asks for. *)
Definition desired_head (l : HybridLog) (next : Z) : Z := Z.max (next + 2 - buffer_size l) 0 * page_size l.

Lemma issue_shift_live l R next l' : log_ok l R -> lively l -> 0 <= next ->
  next * page_size l <= tail_pos l -> issue_shift_addresses l next = Some l' ->
  lively_step l l' /\ desired_head l next <= read_only_address l' /\
  (desired_head l next <= flushed_until_address l -> desired_head l next <= head_address l').
Proof.
  intros Hok Hl H0 Hn. pose proof (lo_config _ _ Hok) as Hc.
  pose proof (page_size_pos l (config_bits _ Hc)) as Hps. pose proof (co_mut _ Hc).
  pose proof (config_buffer _ Hc).
  unfold issue_shift_addresses. cbv zeta. fold (desired_head l next). set (dh := desired_head l next).
  set (dr := Z.max (Z.max (next + 1 - mutable_pages l) 0 * page_size l) dh).
  assert (Hdr : dr <= next * page_size l) by (unfold dr, dh, desired_head; nia).
  set (step1 := if read_only_address l <? dr then _ else _).
  assert (Hone : forall l1, step1 = Some l1 -> log_ok l1 R /\ lively_step l l1 /\ dr <= read_only_address l1 /\
    head_address l1 = head_address l /\ moved l l1).
  { unfold step1. intros l1. destruct (Z.ltb_spec (read_only_address l) dr).
    - destruct (shift_read_only_address_spec l R dr Hok ltac:(lia)) as (b & l2 & E & ? & ? & ? & ?).
      rewrite E. intros [= <-]. split_and!; try done; [|lia].
      assert (Hdn : exists n, 0 <= n /\ dr = n * page_size l).
      { exists (Z.max (Z.max (next + 1 - mutable_pages l) 0) (Z.max (next + 2 - buffer_size l) 0)).
        unfold dr, dh, desired_head. rewrite Z.mul_max_distr_nonneg_r by lia. split; [lia|done]. }
      destruct Hdn as (n & Hn0 & En). rewrite En in *.
      apply (shift_read_only_live l R n b); [done|done|lia|lia|done].
    - intros [= <-]. split; [done|]. split; [by apply lively_step_refl|]. by split_and!. }
  destruct step1 as [l1|]; [|done]. cbn [mbind option_bind].
  destruct (Hone l1 eq_refl) as (Hok1 & Hs1 & Hr1 & Hh1 & Hm1). pose proof (mv_flushed _ _ Hm1).
  destruct (Z.ltb_spec (head_address l1) dh).
  - destruct (shift_head_address_spec l1 R dh Hok1) as (b & l2 & E & ? & Hm2 & Er & Eh).
    rewrite E. intros [= <-].
    pose proof (shift_head_live l1 R dh b l2 Hok1 (ls_lively _ _ Hs1) E) as Hs2.
    split; [by eapply lively_step_trans|]. split; [lia|]. intros. lia.
  - intros [= <-]. split; [done|]. split; [lia|done].
Qed.

Lemma lively_ext l l' : epoch l' = epoch l -> page_bits l' = page_bits l ->
  closed_until_address l' = closed_until_address l -> head_address l' = head_address l ->
  flushed_until_address l' = flushed_until_address l -> read_only_address l' = read_only_address l ->
  lively l -> lively_step l l'.
Proof.
  intros E1 E2 E3 E4 E5 E6 [Hfl Hcl Hep].
  split; [|by rewrite E1|rewrite E1; lia| |done|].
  - split; rewrite ?E1; unfold flushed_up, closed_up, flush_pending, close_pending, page_size in *;
      rewrite ?E1, ?E2, ?E3, ?E4, ?E5, ?E6; done.
  - intros e0 h0 [Hs He0 Hf0 Hc0 Hp0]. split; rewrite ?E1, ?E3; done.
  - intros P _ [HP1 HP2]. split; rewrite ?E1, ?E5; done.
Qed.

Lemma try_allocate_live l R size r l' : log_ok l R -> lively l -> 0 < size ->
  size + PAGE_HEADER_SIZE <= page_size l -> tail_page l + 1 < 2 ^ 31 ->
  try_allocate l size = Some (r, l') ->
  lively_step l l' /\
  (page_bits l' = page_bits l /\ buffer_size l' = buffer_size l /\ read_only_address l <= read_only_address l') /\
  tail_page l <= tail_page l' <= tail_page l + 1 /\
  (r = RetryLater -> tail_page l' = tail_page l /\ desired_head l (tail_page l + 1) <= read_only_address l' /\
     (desired_head l (tail_page l + 1) <= flushed_until_address l ->
        desired_head l (tail_page l + 1) <= head_address l')).
Proof.
  intros Hok Hl Hs Hfit Hroom.
  pose proof (lo_config _ _ Hok) as Hc. pose proof (lo_tail _ _ Hok) as Ht.
  pose proof (config_bits _ Hc) as Hb. pose proof (page_size_pos l Hb) as Hps.
  pose proof (config_page_size _ Hc) as Hps'. pose proof (tl_page _ Ht) as Hpg. pose proof (tl_off _ Ht) as Hto.
  unfold FIRST_VALID_ADDRESS in *. unfold PAGE_HEADER_SIZE in *.
  set (p := tail_page l) in *. set (o := tail_off l) in *.
  destruct (pack_unpack p o) as [Hu _]; [lia|lia|].
  unfold try_allocate. unfold PAGE_HEADER_SIZE. destruct (Z.ltb_spec (page_size l) (size + 64)); [lia|].
  rewrite (tl_pack _ Ht). fold p o. cbv zeta. rewrite Hu.
  change (page_size (set_tail l _)) with (page_size l).
  change (page_is_free (set_tail l _)) with (page_is_free l).
  destruct (Z.leb_spec (o + size) (page_size l)) as [Hin|Hover].
  { intros [= <- <-]. split; [by apply lively_ext|]. split; [by split_and!|]. split; [|done].
    rewrite wrap_pack by lia. destruct (pack_unpack p (o + size)) as [Hu' _]; [lia|lia|].
    rewrite tail_page_set, Hu'. simpl. lia. }
  destruct (Z.ltb_spec (page_size l) o); [lia|].
  destruct (page_is_free l (p + 1)) eqn:Hfree; simpl negb; cbv iota.
  - change (zero_page (set_tail l ?w) ?n) with (set_tail (zero_page l n) w).
    change (set_tail (set_tail ?x _) ?w) with (set_tail x w).
    destruct (turn_page l R (64 + size) Hok Hroom Hfree) as (Hok1 & Htp & Htpos & _);
      [unfold FIRST_VALID_ADDRESS, PAGE_HEADER_SIZE; lia|]. fold p in Hok1, Htp, Htpos.
    unfold FIRST_VALID_ADDRESS, PAGE_HEADER_SIZE.
    set (l1 := set_tail (zero_page l (p + 1)) (pack (p + 1) (64 + size))) in *.
    destruct (issue_shift_addresses l1 (p + 1)) as [l2|] eqn:E; [|done]. cbn [mbind option_bind].
    intros [= <- <-]. assert (Hs1 : lively_step l l1) by (by apply lively_ext).
    assert (Hn : (p + 1) * page_size l1 <= tail_pos l1)
      by (rewrite Htpos; change (page_size l1) with (page_size l); lia).
    destruct (issue_shift_live l1 R (p + 1) l2 Hok1 (ls_lively _ _ Hs1)) as (Hs2 & _ & _); [lia|done|done|].
    split; [by eapply lively_step_trans|].
    destruct (issue_shift_addresses_spec l1 R (p + 1) Hok1) as (l3 & E3 & _ & Hm & _); [lia|done|].
    assert (l3 = l2) as -> by congruence. destruct (moved_pos _ _ Hm) as (_ & _ & Ep & _).
    split; [split_and!; [apply Hm|apply Hm|apply (mv_ro _ _ Hm)]|]. split; [rewrite Ep, Htp; lia|done].
  - change (set_tail (set_tail ?x _) ?w) with (set_tail x w).
    destruct (set_tail_same_page l R (page_size l) Hok) as (Hok1 & Htp & Htpos); [fold o; lia|].
    fold p in Hok1, Htp, Htpos. set (l1 := set_tail l (pack p (page_size l))) in *.
    destruct (issue_shift_addresses l1 (p + 1)) as [l2|] eqn:E; [|done]. cbn [mbind option_bind].
    intros [= <- <-]. assert (Hs1 : lively_step l l1) by (by apply lively_ext).
    assert (Hn : (p + 1) * page_size l1 <= tail_pos l1)
      by (rewrite Htpos; change (page_size l1) with (page_size l); lia).
    destruct (issue_shift_live l1 R (p + 1) l2 Hok1 (ls_lively _ _ Hs1)) as (Hs2 & Hr & Hh); [lia|done|done|].
    split; [by eapply lively_step_trans|].
    destruct (issue_shift_addresses_spec l1 R (p + 1) Hok1) as (l3 & E3 & _ & Hm & _); [lia|done|].
    assert (l3 = l2) as -> by congruence. destruct (moved_pos _ _ Hm) as (_ & _ & Ep & _).
    split; [split_and!; [apply Hm|apply Hm|apply (mv_ro _ _ Hm)]|]. split; [rewrite Ep, Htp; lia|].
    intros _. split; [by rewrite Ep|].
    change (desired_head l1 (p + 1)) with (desired_head l (p + 1)) in *.
    change (flushed_until_address l1) with (flushed_until_address l) in Hh. done.
Qed.

(** ** Progress

    How far the log is from having room: after each refusal and the bump that
    follows it, one less. *)
Definition stage (l : HybridLog) (n : nat) : Prop :=
  match n with
  | O => settled l /\ desired_head l (tail_page l + 1) <= head_address l
  | S O => settled l /\ desired_head l (tail_page l + 1) <= flushed_until_address l
  | S (S O) => settled l
  | _ => True
  end.

Lemma stage_weaken l R n : log_ok l R -> stage l n -> stage l (S n).
Proof.
  intros Hok. pose proof (mk_flushed _ (lo_marks _ _ Hok)).
  destruct n as [|[|[|n]]]; simpl; [|tauto|tauto|tauto]. intros [? ?]. split; [done|lia].
Qed.

Lemma stage_0_free l R : log_ok l R -> stage l 0 -> page_is_free l (tail_page l + 1) = true.
Proof.
  intros Hok [[_ Hcl] Hh]. pose proof (lo_config _ _ Hok) as Hc. unfold closed_up in Hcl.
  pose proof (page_size_pos l (config_bits _ Hc)) as Hps.
  destruct (mk_closed _ (lo_marks _ _ Hok)) as (c & Hc0 & Ec).
  apply page_is_free_spec; [done|]. unfold desired_head in Hh.
  destruct (Z.ltb_spec (tail_page l + 1) (buffer_size l)); [by left|right]. nia.
Qed.

Lemma refused_then_bumped l R n l1 l2 size : log_ok l R -> lively l -> stage l n -> 0 < size ->
  size + PAGE_HEADER_SIZE <= page_size l -> tail_page l + 1 < 2 ^ 31 ->
  try_allocate l size = Some (RetryLater, l1) -> settled l2 -> moved l1 l2 -> n <> O /\ stage l2 (pred n).
Proof.
  intros Hok Hl Hst Hs Hfit Hroom E Hset Hm.
  destruct (try_allocate_ok l R size Hok Hs Hfit Hroom) as (r & l1' & E' & Hok1 & Hpost & _).
  assert (r = RetryLater /\ l1' = l1) as [-> ->] by (split; congruence).
  destruct (try_allocate_live l R size _ l1 Hok Hl Hs Hfit Hroom E) as (_ & (Epb & Eb & _) & _ & Hr).
  destruct (Hr eq_refl) as (Htp & Hro & Hh).
  assert (Hn : n <> O).
  { intros ->. pose proof (stage_0_free l R Hok Hst). destruct Hpost. congruence. }
  split; [done|]. destruct (moved_pos _ _ Hm) as (Eps & _ & Ep & _).
  assert (Ed : desired_head l2 (tail_page l2 + 1) = desired_head l (tail_page l + 1)).
  { unfold desired_head. rewrite (mv_buf _ _ Hm), Eps, Ep, Htp.
    unfold page_size. by rewrite Eb, Epb. }
  pose proof (mv_head _ _ Hm). pose proof (mv_ro _ _ Hm). destruct Hset as [Hf Hcl]. unfold flushed_up in Hf.
  destruct n as [|[|[|n]]]; [done| | |]; simpl in Hst |- *; rewrite ?Ed.
  - split; [done|]. pose proof (Hh (proj2 Hst)). lia.
  - split; [done|]. lia.
  - destruct n; [done|done].
Qed.

(** ** Refreshing *)

Lemma set_epoch_same {A} (e : LightEpoch A) idx s : table e !! idx = Some s -> s_epoch s = current e ->
  set_epoch e idx (current e) = e.
Proof.
  intros Hs Hc. unfold set_epoch. destruct e as [cur tab dr]. cbn [table current drain_list] in *. f_equal.
  apply list_eq. intros j. destruct (decide (idx = j)) as [<-|Hne].
  - rewrite list_lookup_alter_eq, Hs. simpl. rewrite <- Hc. by destruct s.
  - by rewrite list_lookup_alter_ne.
Qed.

(** A thread already in the current epoch refreshes: what has become safe is
    run, and nothing else changes. *)
Lemma refresh_step l R tid idx : log_ok l R -> lively l ->
  table (epoch l) !! idx = Some (ESlot (current (epoch l)) tid) ->
  exists l', log_refresh l tid (Some idx) = Some (idx, l') /\ log_ok l' R /\ lively_step l l' /\ moved l l' /\
    current (epoch l') = current (epoch l).
Proof.
  intros Hok [Hfl Hcl Hep] Hs. unfold log_refresh, refresh, protect, my_slot, owner_at. rewrite Hs.
  cbn [s_owner]. rewrite Z.eqb_refl. cbn [mbind option_bind].
  rewrite (set_epoch_same _ _ _ Hs eq_refl).
  destruct (0 <? length (drain_list (epoch l)))%nat.
  - destruct (drain (epoch l)) as [ready e'] eqn:Ed. cbn [mbind option_bind].
    destruct (run_drained l R _ ready e' Hok (lo_pending _ _ Hok) Ed) as (l' & E & Hok' & Hm & _).
    destruct (run_drained_live l R _ ready e' l' Hok (lo_pending _ _ Hok) Hfl Hcl Hep Ed E) as (Hl & Ht & Hc & _ & Hg & Hcu).
    rewrite E. cbn [mbind option_bind]. exists l'. split; [done|]. split; [done|]. split; [|done].
    split; [done|done|lia| |apply (mv_bits _ _ Hm)|].
    + intros e0 h0 [Hs0 He0 Hf0 Hc0 Hp0]. by apply Hg.
    + intros P _ [HP1 HP2]. by apply Hcu.
  - cbn [mbind option_bind run_actions foldl]. exists (set_epoch_state l (epoch l)). split; [done|].
    assert (set_epoch_state l (epoch l) = l) as -> by (by destruct l).
    split; [done|]. split; [by apply lively_step_refl|]. by split.
Qed.

(** ** Committing *)

Definition nobody_inside (l : HybridLog) : Prop :=
  forall idx s, table (epoch l) !! idx = Some s -> s_epoch s = UNPROTECTED.

(** C24. With no thread inside the epoch, [shift_read_only_to_tail] followed by
    [wait_flushed] terminates within one iteration, whatever was pending, and
    leaves every record below the address it reports on the device.  That
    address is the tail, unless the tail has filled an odd page exactly, when it
    is the start of that page ([tail_address_full_odd]) and the records of the page are left out. *)
Theorem wait_flushed_returns l R : log_ok l R -> lively l -> nobody_inside l ->
  exists l1 l2, let t := reported_tail l in
    (t = tail_pos l \/ t = tail_page l * page_size l /\ tail_off l = page_size l /\ Z.odd (tail_page l) = true) /\
    shift_read_only_to_tail l = Some (t, l1) /\ wait_flushed 2 l1 t = Some l2 /\
    log_ok l2 R /\ t <= flushed_until_address l2 /\
    forall a, 0 <= a < t -> unseal_img <$> read_record_from_disk l2 a = unseal_img <$> R !! a.
Proof.
  intros Hok Hl Hun. destruct (tail_address_reports l R Hok) as [Ht Hle].
  assert (Hcase : reported_tail l = tail_pos l \/
    reported_tail l = tail_page l * page_size l /\ tail_off l = page_size l /\ Z.odd (tail_page l) = true).
  { unfold reported_tail, tail_pos. destruct (Z.eqb_spec (tail_off l) (page_size l)) as [->|], (Z.odd (tail_page l)); simpl; auto.
    right. split; [lia|done]. }
  set (t := reported_tail l) in *.
  destruct (shift_read_only_address_spec l R t Hok Hle) as (b & l1 & E1 & Hok1 & Hm1 & _ & Er).
  destruct (shift_read_only_effect l R t b l1 Hok Hl Hle E1) as (Hl1 & Htab & _).
  destruct (log_bump_current_epoch_spec l1 R Hok1) as (l2 & E2 & Hok2 & Hm2 & _ & Er2).
  assert (Hdev : forall l', log_ok l' R -> t <= flushed_until_address l' -> forall a, 0 <= a < t ->
    unseal_img <$> read_record_from_disk l' a = unseal_img <$> R !! a).
  { intros l' Hok' Hf a Ha. apply (lo_dev _ _ Hok'). lia. }
  assert (Es : shift_read_only_to_tail l = Some (t, l1)).
  { unfold shift_read_only_to_tail. rewrite Ht. cbn [mbind option_bind]. by rewrite E1. }
  destruct (flushed_until_address l1 <? t) eqn:Elt.
  - destruct (bump_current_epoch_live l1 R l2 Hok1 Hl1 E2) as (_ & _ & Hset).
    destruct Hset as [_ [Hf _]]; [intros idx s; rewrite Htab; apply Hun|].
    unfold flushed_up in Hf. exists l1, l2. cbv zeta. split_and!; try done; [|lia|apply Hdev; [done|lia]].
    cbn [wait_flushed]. rewrite Elt, E2. cbn [mbind option_bind].
    destruct (Z.ltb_spec (flushed_until_address l2) t); [lia|done].
  - exists l1, l1. cbv zeta. split_and!; try done; [|lia|apply Hdev; [done|lia]]. cbn [wait_flushed]. by rewrite Elt.
Qed.

Lemma log_new_lively bits mem mutable l : log_new bits mem mutable = Some l -> lively l /\ nobody_inside l.
Proof.
  unfold log_new. destruct (Z.leb_spec 9 bits), (Z.leb_spec bits 30); simpl; try done.
  intros [= <-]. split; [split|].
  - left. unfold flushed_up. simpl. lia.
  - left. unfold closed_up, page_size. simpl. change (64 < 2 ^ bits).
    assert (2 ^ 9 <= 2 ^ bits) by (apply Z.pow_le_mono_r; lia). lia.
  - intros e a Ha. by apply elem_of_nil in Ha.
  - intros idx s Hs. change (replicate MAX_THREADS (ESlot UNPROTECTED 0) !! idx = Some s) in Hs.
    by apply lookup_replicate in Hs as [-> _].
Qed.

End Live.

(** A log with one record, still in the mutable region. *)
Definition one_record : cell := c_init 0 false (SizeInfo 3 5 false) [1; 2; 3].
Definition one_record_log : option HybridLog :=
  l ← log_new 9 4 2; '(r, l) ← try_allocate l 40;
  match r with AllocOk a => Some (put_record l a one_record) | _ => None end.
Lemma one_record_log_ok l : one_record_log = Some l ->
  log_ok (fl := from_creation) l (<[64 := one_record]> ∅) /\ lively l /\ nobody_inside l.
Proof.
  unfold one_record_log. destruct (log_new 9 4 2) as [l0|] eqn:E0; [|done]. cbn [mbind option_bind].
  destruct (log_new_lively _ _ _ _ E0) as [Hl0 Hn0]. pose proof (log_new_ok _ _ _ _ fresh_floor E0) as Hok0.
  destruct (try_allocate l0 40) as [[r l1]|] eqn:E1; [|done]. cbn [mbind option_bind]. intros E.
  assert (Hs : 40 + PAGE_HEADER_SIZE <= page_size l0 /\ tail_page l0 + 1 < 2 ^ 31)
    by (vm_compute in E0; injection E0 as <-; vm_compute; split; [discriminate|reflexivity]).
  destruct (try_allocate_live (fl := from_creation) l0 ∅ 40 r l1 Hok0 Hl0 ltac:(lia) (proj1 Hs) (proj2 Hs) E1) as [Hst _].
  assert (H64 : r = AllocOk 64 /\ safe_read_only_address l1 <= 64 < tail_pos l1).
  { vm_compute in E0. injection E0 as <-. vm_compute in E1. injection E1 as <- <-. vm_compute. split; [reflexivity|split; [discriminate|reflexivity]]. }
  destruct H64 as [-> H64]. injection E as <-. split; [|split].
  - eapply log_step_ok; [by apply ls_write|]. eapply log_step_ok; [|exact Hok0].
    eapply ls_allocate; [|exact (proj1 Hs)|exact (proj2 Hs)|exact E1]. lia.
  - apply (ls_lively (fl := from_creation) l1), (lively_ext (fl := from_creation) l1); [reflexivity..|]. apply (ls_lively _ _ Hst).
  - intros idx s. change (epoch (put_record l1 64 one_record)) with (epoch l1). rewrite (ls_table _ _ Hst). apply Hn0.
Qed.

Lemma wait_flushed_returns_witness :
  exists l l1 l2, one_record_log = Some l /\ flushed_until_address l = 64 /\ read_record_from_disk l 64 = None /\
    shift_read_only_to_tail l = Some (104, l1) /\ wait_flushed 2 l1 104 = Some l2 /\
    104 <= flushed_until_address l2 /\ unseal_img <$> read_record_from_disk l2 64 = Some (unseal_img one_record).
Proof.
  destruct one_record_log as [l|] eqn:E; [|vm_compute in E; discriminate].
  destruct (one_record_log_ok l E) as (Hok & Hl & Hn).
  destruct (wait_flushed_returns l _ Hok Hl Hn) as (l1 & l2 & _ & H1 & H2 & _ & H3 & H4).
  assert (Hv : reported_tail l = 104 /\ flushed_until_address l = 64 /\ read_record_from_disk l 64 = None)
    by (vm_compute in E; injection E as <-; vm_compute; repeat split).
  destruct Hv as (Et & Ef & Ed). rewrite Et in *. exists l, l1, l2.
  split; [reflexivity|]. split; [exact Ef|]. split; [exact Ed|]. split; [exact H1|]. split; [exact H2|]. split; [exact H3|].
  rewrite (H4 64) by lia. reflexivity.
Defined.
