(* ===== verification/LogTiling.v ===== *)
(** * How records tile the log, and what scans find

    Records follow one another without gaps from the header of their page, so a
    scan that goes from each record to the next meets all of them, wherever the
    boundary between device and memory runs. *)

From stdpp Require Import sorting.
From S2P Require Import Prelude Record Epoch Log LogSpec LogLive.

(** ** Sizes *)

Lemma total_size_min size : size_ok size -> 24 <= total_size_of size.
Proof.
  intros [H1 H2]. unfold total_size_of.
  assert (Hf : FIXED_HEADER_SIZE = 24%nat) by reflexivity. assert (He : EXPIRATION_SIZE = 8%nat) by reflexivity.
  match goal with |- 24 <= align8 ?n => pose proof (align8_spec n) as Ha; assert (24 <= n < 2 ^ 63) end.
  - rewrite Hf, He. destruct (has_expiration_of size); lia.
  - lia.
Qed.
Lemma total_size_pos size : size_ok size -> 0 < total_size_of size.
Proof. intros H%total_size_min. lia. Qed.
Lemma c_total_size_min c : cell_ok c -> 24 <= c_total_size c.
Proof. intros (_ & Hk & Hc & _). by apply total_size_min. Qed.

(** A size and a validity bit survive what the device may change: the seal. *)
Lemma unseal_total_size c c' : unseal_img c' = unseal_img c -> c_total_size c' = c_total_size c.
Proof. intros [= _ Ek _ Eb Es]. unfold c_total_size, c_cap, c_has_slot. by rewrite Ek, Eb, Es. Qed.
Lemma unseal_key c c' : unseal_img c' = unseal_img c -> c_key c' = c_key c.
Proof. by intros [= _ Ek _ _ _]. Qed.
Lemma unseal_bit c c' n : unseal_img c' = unseal_img c -> 0 <= n < 64 -> n <> 52 ->
  Z.testbit (c_info c') n = Z.testbit (c_info c) n.
Proof.
  intros [= Ei _ _ _ _] Hn Hn52. pose proof (f_equal (fun w => Z.testbit w n) Ei) as E. cbv beta in E.
  unfold SEALED_BIT in E. rewrite !Z.land_spec, !testbit_not64, Z.pow2_bits_eqb in E by lia.
  destruct (Z.eqb_spec 52 n), (Z.leb_spec 0 n), (Z.ltb_spec n 64); try lia. simpl in E. by rewrite !andb_true_r in E.
Qed.

Lemma unseal_tombstone c c' : unseal_img c' = unseal_img c -> is_tombstone (c_info c') = is_tombstone (c_info c).
Proof. intros E. rewrite !is_tombstone_bit. by apply unseal_bit. Qed.
Lemma unseal_valid c c' : unseal_img c' = unseal_img c -> is_valid (c_info c') = is_valid (c_info c).
Proof. intros E. rewrite !is_valid_bit. by apply unseal_bit. Qed.
Lemma unseal_previous c c' : unseal_img c' = unseal_img c ->
  previous_address (c_info c') = previous_address (c_info c).
Proof. intros E. apply previous_address_ext. intros n Hn. apply unseal_bit; [done|lia|lia]. Qed.

(** ** Tiling *)

(** [laid R b a]: following the records of [R] from [b] leads to [a]. *)
Inductive laid (R : gmap Z cell) (b : Z) : Z -> Prop :=
| laid_here : laid R b b
| laid_next a c : laid R b a -> R !! a = Some c -> laid R b (a + c_total_size c).

(** Sizes are kept from [R] to [R']. *)
Definition same_sizes (R R' : gmap Z cell) : Prop :=
  forall a c, R !! a = Some c -> exists c', R' !! a = Some c' /\ c_total_size c' = c_total_size c.

Lemma laid_mono R R' b a : same_sizes R R' -> laid R b a -> laid R' b a.
Proof.
  intros Hs. induction 1 as [|a c _ IH Ha]; [by constructor|].
  destruct (Hs _ _ Ha) as (c' & Hc' & <-). by apply (laid_next _ _ a c').
Qed.
Lemma laid_head R b a : laid R b a -> a = b \/ exists c, R !! b = Some c /\ laid R (b + c_total_size c) a.
Proof.
  induction 1 as [|a c _ [->|(d & Hd & IH)] Ha]; [by left|right..].
  - exists c. split; [done|constructor].
  - exists d. split; [done|by apply laid_next].
Qed.
Lemma laid_linear R b x y : laid R b x -> laid R b y -> laid R x y \/ laid R y x.
Proof.
  induction 1 as [|a c _ IH Ha]; [by left|]. intros Hy. destruct (IH Hy) as [H|H]; [|right; by apply laid_next].
  destruct (laid_head _ _ _ H) as [->|(d & Hd & Hy')]; [right; apply (laid_next _ _ a c); [constructor|done]|].
  left. by simplify_eq.
Qed.

Section Walk.
Context (R : gmap Z cell) (Hpos : forall a c, R !! a = Some c -> 24 <= c_total_size c).

Lemma laid_le b a : laid R b a -> b <= a.
Proof. induction 1 as [|a c _ IH Ha]; [lia|]. pose proof (Hpos _ _ Ha). lia. Qed.
(** Nothing is laid past a gap. *)
Lemma laid_stop b x y : laid R b x -> R !! x = None -> laid R b y -> y <= x.
Proof.
  intros Hx Hn Hy. destruct (laid_linear _ _ _ _ Hx Hy) as [H|H]; [|by apply laid_le].
  destruct (laid_head _ _ _ H) as [->|(d & Hd & _)]; [lia|congruence].
Qed.
(** Nothing is laid inside a record. *)
Lemma laid_between b x c y : laid R b x -> R !! x = Some c -> laid R b y -> x < y -> x + c_total_size c <= y.
Proof.
  intros Hx Hc Hy Hlt. destruct (laid_linear _ _ _ _ Hx Hy) as [H|H]; [|pose proof (laid_le _ _ H); lia].
  destruct (laid_head _ _ _ H) as [->|(d & Hd & H')]; [lia|]. simplify_eq. by apply laid_le.
Qed.
End Walk.

Section Tiling.
Context {fl : floor}.

Definition page_base (l : HybridLog) (a : Z) : Z := page_of l a * page_size l + FIRST_VALID_ADDRESS.

(** What holds of each record, and of the place where the next one goes if it
    fits. *)
Record in_place (l : HybridLog) (R : gmap Z cell) (a : Z) (c : cell) : Prop := {
  ip_laid : laid R (page_base l a) a;
  ip_page : a + c_total_size c <= (page_of l a + 1) * page_size l;
  ip_tail : a + c_total_size c <= tail_pos l;
  ip_ok : cell_ok c;
  ip_valid : is_valid (c_info c) = true }.
Record tiled (l : HybridLog) (R : gmap Z cell) : Prop := {
  ti_rec : forall a c, R !! a = Some c -> in_place l R a c;
  ti_front : tail_off l < page_size l -> laid R (tail_page l * page_size l + FIRST_VALID_ADDRESS) (tail_pos l) }.

(** Where a record may end and the next begin: a page boundary or an address
    records lead to. *)
Definition cut (l : HybridLog) (R : gmap Z cell) (x : Z) : Prop :=
  (exists n, 0 <= n /\ x = n * page_size l) \/ laid R (page_base l x) x.

Lemma tiled_sizes l R a c : tiled l R -> R !! a = Some c -> 24 <= c_total_size c.
Proof. intros Ht Ha. apply c_total_size_min, (ip_ok _ _ _ _ (ti_rec _ _ Ht _ _ Ha)). Qed.

Lemma cut_mono l l' R R' x : same_sizes R R' -> page_bits l' = page_bits l -> cut l R x -> cut l' R' x.
Proof.
  intros Hs Eb [(n & ? & ->)|H]; [left; exists n; unfold page_size; by rewrite Eb|right].
  unfold page_base, page_of, page_size in *. rewrite Eb. by eapply laid_mono.
Qed.

(** *** Tiling is kept *)

Lemma same_sizes_insert R a c c' : R !! a = Some c -> c_total_size c' = c_total_size c -> same_sizes R (<[a := c']> R).
Proof.
  intros Ha Hs b d Hb. destruct (decide (a = b)) as [<-|].
  - rewrite lookup_insert_eq. exists c'. by simplify_eq.
  - rewrite lookup_insert_ne by done. by exists d.
Qed.
Lemma same_sizes_fresh R a c : R !! a = None -> same_sizes R (<[a := c]> R).
Proof. intros Ha b d Hb. exists d. rewrite lookup_insert_ne; [done|]. intros <-. congruence. Qed.

Lemma page_base_bits l l' a : page_bits l' = page_bits l -> page_base l' a = page_base l a /\
  page_of l' a = page_of l a /\ page_size l' = page_size l.
Proof. intros E. unfold page_base, page_of, page_size. by rewrite E. Qed.

Lemma in_place_mono l l' R R' a c c' : page_bits l' = page_bits l -> tail_pos l <= tail_pos l' ->
  same_sizes R R' -> c_total_size c' = c_total_size c -> cell_ok c' -> is_valid (c_info c') = true ->
  in_place l R a c -> in_place l' R' a c'.
Proof.
  intros Eb Ht Hs Ec Hok Hv [H1 H2 H3 _ _]. destruct (page_base_bits l l' a Eb) as (E1 & E2 & E3).
  split; rewrite ?E1, ?E2, ?E3, ?Ec; try done; [by eapply laid_mono|lia].
Qed.

Lemma same_sizes_refl R : same_sizes R R.
Proof. intros a c. by exists c. Qed.

Lemma tiled_log l l' R : tiled l R -> page_bits l' = page_bits l -> tail_pos l <= tail_pos l' ->
  tail l' = tail l \/ tail_off l' = page_size l' -> tiled l' R.
Proof.
  intros [H1 H2] Eb Hp Ht. split.
  - intros a c Ha. destruct (H1 _ _ Ha). by eapply in_place_mono; [done|done|apply same_sizes_refl|..|by apply H1].
  - destruct (page_base_bits l l' 0 Eb) as (_ & _ & Es). destruct Ht as [E|E]; [|lia].
    unfold tail_pos, tail_page, tail_off in *. rewrite E, Es. exact H2.
Qed.

Lemma tiled_change l R a c c' : tiled l R -> R !! a = Some c -> c_total_size c' = c_total_size c ->
  cell_ok c' -> is_valid (c_info c') = true -> tiled l (<[a := c']> R).
Proof.
  intros [H1 H2] Ha Hs Hok Hv. pose proof (same_sizes_insert R a c c' Ha Hs) as Hss. split.
  - intros b d [[<- <-]|[_ Hb]]%lookup_insert_Some.
    + by eapply in_place_mono; [..|by apply H1].
    + destruct (H1 _ _ Hb). by eapply in_place_mono; [..|by apply H1].
  - intros H. by eapply laid_mono; [|apply H2].
Qed.

Lemma tiled_alloc l l' R n c : tiled l R -> tail_ok l' -> 9 <= page_bits l -> page_bits l' = page_bits l ->
  (forall b, n <= b -> R !! b = None) -> tail_pos l <= n -> tail_pos l' = n + c_total_size c ->
  n = tail_pos l /\ tail_off l < page_size l /\ tail_page l' = tail_page l \/
  n = (tail_page l + 1) * page_size l + FIRST_VALID_ADDRESS /\ tail_page l' = tail_page l + 1 ->
  FIRST_VALID_ADDRESS <= tail_off l -> cell_ok c -> is_valid (c_info c) = true -> tiled l' (<[n := c]> R).
Proof.
  intros [H1 H2] Ht Hb9 Eb Hf Hn Etp Hpl Hto Hok Hv. pose proof (c_total_size_min c Hok) as Hmin.
  pose proof (same_sizes_fresh R n c (Hf n ltac:(lia))) as Hss. pose proof (tl_off _ Ht) as Hto'.
  destruct (page_base_bits l l' n Eb) as (E1 & E2 & E3).
  pose proof (page_size_pos l ltac:(lia)) as Hps. unfold FIRST_VALID_ADDRESS, PAGE_HEADER_SIZE in *.
  assert (Hpg : page_of l n = tail_page l').
  { apply page_of_spec; [lia|]. unfold tail_pos in *. rewrite E3 in *. destruct Hpl as [(-> & ? & E)|[-> E]]; rewrite E in *; lia. }
  assert (Hln : laid (<[n := c]> R) (page_base l n) n).
  { unfold page_base. rewrite Hpg. destruct Hpl as [(E & Hlt & ->)|[E ->]].
    - eapply laid_mono; [exact Hss|]. rewrite E. by apply H2.
    - unfold FIRST_VALID_ADDRESS, PAGE_HEADER_SIZE. rewrite <- E. constructor. }
  split.
  - intros b d [[<- <-]|[_ Hb]]%lookup_insert_Some.
    + split; rewrite ?E1, ?E2, ?E3, ?Hpg; try done; [|lia]. unfold tail_pos in Etp. rewrite E3 in *. lia.
    + destruct (H1 _ _ Hb). by eapply in_place_mono; [done|lia|exact Hss|..|by apply H1].
  - intros _. rewrite Etp, E3, <- Hpg. apply laid_next; [exact Hln|apply lookup_insert_eq].
Qed.

Lemma tiled_empty l : tail_off l = FIRST_VALID_ADDRESS -> tiled l ∅.
Proof. intros E. split; [done|]. intros _. unfold tail_pos. rewrite E. constructor. Qed.

(** ** Scans *)

(** [xs] is the records of [R] from [from] to [to], in order, up to their
    seals. *)
Record listed (R : gmap Z cell) (from to : Z) (xs : list (Z * cell)) : Prop := {
  li_sorted : StronglySorted Z.lt xs.*1;
  li_sound : forall a c', (a, c') ∈ xs -> from <= a < to /\ exists c, R !! a = Some c /\ unseal_img c' = unseal_img c;
  li_complete : forall a c, R !! a = Some c -> from <= a < to -> a ∈ xs.*1 }.

Definition no_record (R : gmap Z cell) (from to : Z) : Prop := forall a c, R !! a = Some c -> from <= a < to -> False.

Lemma listed_nil R from to : no_record R from to -> listed R from to [].
Proof.
  intros H. split; [constructor|by intros a c' Hn%elem_of_nil|]. intros a c Ha Hr. by destruct (H a c Ha Hr).
Qed.

Lemma listed_from R from from' to xs : no_record R from from' -> from <= from' ->
  listed R from' to xs -> listed R from to xs.
Proof.
  intros Hn Hle [H1 H2 H3]. split; [done| |].
  - intros a c' Hin. destruct (H2 _ _ Hin) as [? ?]. split; [lia|done].
  - intros a c Ha Hr. apply (H3 a c Ha). destruct (Z.lt_ge_cases a from'); [|lia]. destruct (Hn a c Ha). lia.
Qed.
Lemma listed_to R from to to' xs : no_record R to to' -> to <= to' -> listed R from to xs -> listed R from to' xs.
Proof.
  intros Hn Hle [H1 H2 H3]. split; [done| |].
  - intros a c' Hin. destruct (H2 _ _ Hin) as [? ?]. split; [lia|done].
  - intros a c Ha Hr. apply (H3 a c Ha). destruct (Z.lt_ge_cases a to); [lia|]. destruct (Hn a c Ha). lia.
Qed.

Lemma listed_app R from mid to xs ys : from <= mid -> mid <= to -> listed R from mid xs -> listed R mid to ys ->
  listed R from to (xs ++ ys).
Proof.
  intros Hfm Hmt [A1 A2 A3] [B1 B2 B3]. split.
  - rewrite fmap_app. apply StronglySorted_app_2; [|done..].
    intros x y ([a c] & -> & Ha)%list_elem_of_fmap ([b d] & -> & Hb)%list_elem_of_fmap.
    destruct (A2 _ _ Ha), (B2 _ _ Hb). simpl. lia.
  - intros a c' [Ha|Ha]%elem_of_app; [destruct (A2 _ _ Ha)|destruct (B2 _ _ Ha)]; (split; [lia|done]).
  - intros a c Ha Hr. rewrite fmap_app. apply elem_of_app.
    destruct (Z.lt_ge_cases a mid); [left; apply (A3 a c)|right; apply (B3 a c)]; (done || lia).
Qed.

Lemma listed_one R a c c' : R !! a = Some c -> unseal_img c' = unseal_img c -> listed R a (a + 1) [(a, c')].
Proof.
  intros Ha E. split.
  - repeat constructor.
  - intros b d [= -> ->]%list_elem_of_singleton. split; [lia|by exists c].
  - intros b d _ Hb. assert (b = a) as -> by lia. by left.
Qed.

Lemma valid_not_zero c c' : unseal_img c' = unseal_img c -> is_valid (c_info c) = true -> zero_header c' = false.
Proof.
  intros E Hv. unfold zero_header. destruct (Z.eqb_spec (c_info c') 0) as [E0|]; [|done].
  rewrite is_valid_bit, <- (unseal_bit c c' 49 E), E0 in Hv by lia. done.
Qed.

(** Where the last record of a list ends. *)
Definition end_of (off : Z) (xs : list (Z * cell)) : Z :=
  match last xs with Some (o, rec) => o + c_total_size rec | None => off end.
Lemma end_of_cons off o rec xs : end_of off ((o, rec) :: xs) = end_of (o + c_total_size rec) xs.
Proof. unfold end_of. rewrite last_cons. by destruct (last xs) as [[??]|]. Qed.

(** The walk over a buffer that holds the records of [R] from [base + off] to
    [base + limit]: they are all found, and if records lead to the limit the
    walk ends there. *)
Lemma records_in_buf_spec l R base start0 buf fuel off limit : tiled l R ->
  laid R start0 (base + off) ->
  (forall o, off <= o < limit -> unseal_img <$> buf o = unseal_img <$> R !! (base + o)) ->
  (forall a c, R !! a = Some c -> base + off <= a < base + limit ->
     laid R start0 a /\ a + c_total_size c <= base + limit) ->
  limit - off < Z.of_nat fuel -> (0 < fuel)%nat ->
  exists xs, records_in_buf fuel buf off limit = Some xs /\
    listed R (base + off) (base + limit) (map (fun p => (base + fst p, snd p)) xs) /\
    (off <= limit -> laid R start0 (base + limit) -> end_of off xs = limit).
Proof.
  intros Ht. pose proof (tiled_sizes l R) as Hsz. revert off. induction fuel as [|fuel IH]; intros off Hl Hbuf Hin Hf Hf0; [lia|].
  assert (Hstop : (forall c, R !! (base + off) = Some c -> base + limit < base + off + c_total_size c) ->
    no_record R (base + off) (base + limit) /\
    (off <= limit -> laid R start0 (base + limit) -> end_of off [] = limit)).
  { intros Hno. split.
    - intros a c Ha Hr. destruct (Hin a c Ha Hr) as [Hla Hend]. destruct (R !! (base + off)) as [d|] eqn:Ed.
      + specialize (Hno d eq_refl). destruct (decide (a = base + off)) as [->|]; [simplify_eq; lia|].
        pose proof (laid_between R (fun a c => Hsz a c Ht) _ _ _ _ Hl Ed Hla ltac:(lia)). pose proof (Hsz _ _ Ht Ha). lia.
      + pose proof (laid_stop R (fun a c => Hsz a c Ht) _ _ _ Hl Ed Hla). assert (a = base + off) as -> by lia. congruence.
    - intros Hol Hll. unfold end_of. simpl. destruct (R !! (base + off)) as [d|] eqn:Ed.
      + specialize (Hno d eq_refl). destruct (decide (off = limit)); [done|].
        pose proof (laid_between R (fun a c => Hsz a c Ht) _ _ _ _ Hl Ed Hll ltac:(lia)). lia.
      + pose proof (laid_stop R (fun a c => Hsz a c Ht) _ _ _ Hl Ed Hll). lia. }
  cbn [records_in_buf]. unfold MIN_DISK_READ. change (Z.of_nat FIXED_HEADER_SIZE) with 24.
  destruct (Z.ltb_spec limit (off + 24)) as [Hlt|Hge].
  { exists []. destruct Hstop as [H1 H2]; [intros c Hc; pose proof (Hsz _ _ Ht Hc); lia|].
    split; [done|]. split; [by apply listed_nil|done]. }
  pose proof (Hbuf off ltac:(lia)) as Hb. destruct (R !! (base + off)) as [d|] eqn:Ed.
  2: { destruct (buf off); [done|]. exists []. destruct Hstop as [H1 H2]; [done|].
       split; [done|]. split; [by apply listed_nil|done]. }
  destruct (buf off) as [rec|]; [|done]. cbn [fmap option_fmap option_map] in Hb.
  assert (Eu : unseal_img rec = unseal_img d) by congruence.
  destruct (ti_rec _ _ Ht _ _ Ed) as [_ _ _ Hok Hv]. rewrite (valid_not_zero d rec Eu Hv).
  pose proof (unseal_total_size d rec Eu) as Es. rewrite Es.
  destruct (Hin _ _ Ed ltac:(lia)) as [_ Hend]. pose proof (Hsz _ _ Ht Ed) as Hmin.
  destruct (Z.ltb_spec limit (off + c_total_size d)); [lia|].
  destruct (IH (off + c_total_size d)) as (xs & -> & Hxs & He).
  - rewrite Z.add_assoc. by apply laid_next.
  - intros o Ho. apply Hbuf. lia.
  - intros a c Ha Hr. apply (Hin a c Ha). lia.
  - lia.
  - lia.
  - cbn [mbind option_bind]. eexists. split; [done|]. split.
    + cbn [map fst snd]. change ((base + off, rec) :: ?ys) with ([(base + off, rec)] ++ ys).
      apply (listed_app _ _ (base + off + 1)); [lia|lia|by eapply listed_one|].
      rewrite Z.add_assoc in Hxs. eapply listed_from; [| |exact Hxs]; [|lia].
      intros a c Ha Hr. destruct (Hin a c Ha ltac:(lia)) as [Hla _].
      pose proof (laid_between R (fun a c => Hsz a c Ht) _ _ _ _ Hl Ed Hla ltac:(lia)). lia.
    + intros _ Hll. rewrite end_of_cons, Es. apply He; [lia|done].
Qed.

(** A cut strictly inside a page is laid on it. *)
Lemma cut_inside l R p x : 0 <= page_bits l -> cut l R x -> p * page_size l < x < (p + 1) * page_size l ->
  laid R (p * page_size l + FIRST_VALID_ADDRESS) x.
Proof.
  intros Hb Hc Hx. pose proof (page_size_pos l Hb). destruct Hc as [(n & Hn & ->)|H0].
  - assert (p < n < p + 1) by nia. lia.
  - unfold page_base in H0. assert (page_of l x = p) as E by (apply page_of_spec; [done|lia]). by rewrite E in H0.
Qed.

(** No record crosses a cut. *)
Lemma cut_limit l R p x a c : 0 <= page_bits l -> tiled l R -> cut l R x -> p * page_size l < x <= (p + 1) * page_size l ->
  R !! a = Some c -> p * page_size l <= a < x ->
  laid R (p * page_size l + FIRST_VALID_ADDRESS) a /\ a + c_total_size c <= x.
Proof.
  intros Hb Ht Hc Hx Ha Hr. destruct (ti_rec _ _ Ht _ _ Ha) as [H1 H2 _ _ _].
  assert (E : page_of l a = p) by (apply page_of_spec; [done|lia]).
  unfold page_base in H1. rewrite E in H1, H2. split; [done|].
  destruct (decide (x = (p + 1) * page_size l)) as [->|]; [done|].
  pose proof (cut_inside l R p x Hb Hc ltac:(lia)) as Hl.
  apply (laid_between R (fun a c => tiled_sizes l R a c Ht) _ _ _ _ H1 Ha Hl). lia.
Qed.

Lemma header_empty l R p from : 0 <= page_bits l -> 64 < page_size l -> tiled l R -> p * page_size l <= from ->
  no_record R from (p * page_size l + 64).
Proof.
  intros Hb H64 Ht Hf a c Ha Hr. destruct (ti_rec _ _ Ht _ _ Ha) as [H1 _ _ _ _]. unfold page_base in H1.
  assert (E : page_of l a = p) by (apply page_of_spec; [done|lia]). rewrite E in H1.
  pose proof (laid_le R (fun a c => tiled_sizes l R a c Ht) _ _ H1). unfold FIRST_VALID_ADDRESS, PAGE_HEADER_SIZE in *. lia.
Qed.

(** A walk over one page, between two cuts. *)
Lemma page_walk l R p buf off limit : 0 <= page_bits l -> tiled l R -> 64 <= off ->
  laid R (p * page_size l + FIRST_VALID_ADDRESS) (p * page_size l + off) ->
  cut l R (p * page_size l + limit) -> 0 < limit <= page_size l ->
  (forall o, off <= o < limit -> unseal_img <$> buf o = unseal_img <$> R !! (p * page_size l + o)) ->
  exists xs, for_each_record_in_buf buf off limit = Some xs /\
    listed R (p * page_size l + off) (p * page_size l + limit) (map (fun q => (p * page_size l + fst q, snd q)) xs) /\
    (off <= limit -> limit < page_size l -> end_of off xs = limit).
Proof.
  intros Hb Ht Hoff Hl Hc Hlim Hbuf. unfold for_each_record_in_buf. unfold PAGE_HEADER_SIZE.
  rewrite Z.max_l by lia.
  destruct (records_in_buf_spec l R (p * page_size l) _ buf (S (Z.to_nat (limit - off))) off limit Ht Hl Hbuf)
    as (xs & E & Hxs & He); [|lia|lia|].
  - intros a c Ha Hr. apply (cut_limit l R p); (done || lia).
  - exists xs. split; [done|]. split; [done|]. intros Hol Hlt. apply He; [done|].
    apply (cut_inside l R p); [done|done|]. unfold FIRST_VALID_ADDRESS, PAGE_HEADER_SIZE in *. lia.
Qed.

(** A walk that starts at its limit or past it finds nothing. *)
Lemma walk_past buf off limit : 64 <= off -> limit <= off -> for_each_record_in_buf buf off limit = Some [].
Proof.
  intros H1 H2. unfold for_each_record_in_buf, PAGE_HEADER_SIZE. rewrite Z.max_l by lia. cbn [records_in_buf].
  unfold MIN_DISK_READ. change (Z.of_nat FIXED_HEADER_SIZE) with 24. destruct (Z.ltb_spec limit (off + 24)); [done|lia].
Qed.

(** The device up to [D], then memory: together, every record of the page. *)
Lemma two_walks l R p disk mem D limit : 0 <= page_bits l -> tiled l R ->
  64 <= limit <= page_size l -> cut l R (p * page_size l + limit) ->
  D <= 64 \/ cut l R (p * page_size l + D) -> D <= limit ->
  (forall o, 64 <= o < D -> unseal_img <$> disk o = unseal_img <$> R !! (p * page_size l + o)) ->
  (forall o, Z.max 64 D <= o < limit -> unseal_img <$> mem o = unseal_img <$> R !! (p * page_size l + o)) ->
  exists xs ys, (if 64 <? D then for_each_record_in_buf disk 64 D else Some []) = Some xs /\
    (if end_of 64 xs <? limit then for_each_record_in_buf mem (Z.max (end_of 64 xs) D) limit else Some []) = Some ys /\
    listed R (p * page_size l + 64) (p * page_size l + limit)
      (map (fun q => (p * page_size l + fst q, snd q)) (xs ++ ys)).
Proof.
  intros Hb Ht Hlim Hc HD HDl Hdisk Hmem. set (base := p * page_size l) in *.
  assert (Hstart : laid R (base + FIRST_VALID_ADDRESS) (base + 64)) by constructor.
  destruct (Z.ltb_spec 64 D) as [HD64|HD64].
  - destruct HD as [|HD]; [lia|]. rewrite Z.max_r in Hmem by lia.
    destruct (page_walk l R p disk 64 D Hb Ht ltac:(lia) Hstart HD ltac:(lia) Hdisk) as (xs & Ex & Hxs & He).
    fold base in Hxs. exists xs. destruct (decide (D < limit)) as [Hlt|Hge].
    + rewrite He, Z.max_id by lia. destruct (Z.ltb_spec D limit); [|lia].
      destruct (page_walk l R p mem D limit) as (ys & Ey & Hys & _); try done; try lia.
      { apply (cut_inside l R p); [done..|fold base; lia]. }
      exists ys. split; [done|]. split; [done|]. rewrite map_app. eapply listed_app; [..|exact Hxs|exact Hys]; lia.
    + assert (D = limit) as -> by lia. exists []. split; [done|]. split; [|by rewrite app_nil_r].
      destruct (_ <? _); [apply walk_past; lia|done].
  - exists []. cbn [end_of last app]. rewrite !Z.max_l in * by lia.
    destruct (Z.ltb_spec 64 limit).
    + destruct (page_walk l R p mem 64 limit) as (ys & Ey & Hys & _); try done; try lia. by exists ys.
    + exists []. split; [done|]. split; [done|]. apply listed_nil. intros a c _ Hr. lia.
Qed.

Lemma mem_page l R p o : log_ok l R -> 0 <= p -> 0 <= o < page_size l -> head_address l <= p * page_size l + o ->
  p * page_size l + o < tail_pos l -> mem_buf l p o = R !! (p * page_size l + o).
Proof.
  intros Hok Hp Ho Hh Hlt. pose proof (config_bits _ (lo_config _ _ Hok)) as Hb. pose proof (lo_marks _ _ Hok) as Hm.
  assert (Epo : page_of l (p * page_size l + o) = p) by (apply page_of_spec; [done|lia]).
  assert (E : mem_buf l p o = record_at l (p * page_size l + o)).
  { unfold mem_buf, record_at, mem_key. rewrite offset_of_sub, Epo by done. do 2 f_equal. lia. }
  rewrite E. apply (lo_mem _ _ Hok); [pose proof (lo_floor _ _ Hok); lia|].
  pose proof (mk_safe_head _ Hm). pose proof (mk_head _ Hm). pose proof (tl_off _ (lo_tail _ _ Hok)).
  unfold tail_pos in Hlt. lia.
Qed.
Lemma disk_page l R p o : log_ok l R -> 0 <= p * page_size l + o < flushed_until_address l ->
  unseal_img <$> disk_buf l p o = unseal_img <$> R !! (p * page_size l + o).
Proof.
  intros Hok Ho. unfold disk_buf. rewrite shiftl_page by apply config_bits, (lo_config _ _ Hok).
  by apply (lo_dev _ _ Hok).
Qed.

Lemma cut_end l R p to : 0 <= page_bits l -> 64 < page_size l -> 0 <= p -> tiled l R -> cut l R to ->
  p * page_size l < to ->
  let e := Z.min ((p + 1) * page_size l) to in cut l R e /\ p * page_size l + 64 <= e <= (p + 1) * page_size l.
Proof.
  intros Hb Hps Hp Ht Hc Hlt e. unfold e. destruct (Z.min_spec ((p + 1) * page_size l) to) as [[? ->]|[Hle ->]].
  - split; [left; exists (p + 1); lia|lia].
  - split; [done|]. destruct (decide (to = (p + 1) * page_size l)); [lia|].
    pose proof (cut_inside l R p to Hb Hc ltac:(lia)) as Hl.
    pose proof (laid_le R (fun a c => tiled_sizes l R a c Ht) _ _ Hl). unfold FIRST_VALID_ADDRESS, PAGE_HEADER_SIZE in *. lia.
Qed.

(** One page of a scan that starts at its beginning. *)
Lemma scan_page_spec l R p addr to : log_ok l R -> tiled l R -> cut l R (flushed_until_address l) -> cut l R to ->
  0 <= p -> p * page_size l <= addr <= p * page_size l + 64 -> addr < to -> to <= tail_pos l ->
  exists xs, scan_page l addr to = Some xs /\ listed R addr (Z.min ((p + 1) * page_size l) to) xs.
Proof.
  intros Hok Ht Hcf Hct Hp Ha Hat Hto. pose proof (lo_config _ _ Hok) as Hcfg. pose proof (config_bits _ Hcfg) as Hb.
  pose proof (config_page_size _ Hcfg) as Hps. pose proof (lo_marks _ _ Hok) as Hm.
  destruct (cut_end l R p to Hb ltac:(lia) Hp Ht Hct ltac:(lia)) as [Hce He].
  unfold scan_page. assert (page_of l addr = p) as -> by (apply page_of_spec; [done|lia]).
  rewrite shiftl_page by done. cbv zeta. unfold PAGE_HEADER_SIZE. rewrite (Z.max_r (addr - p * page_size l)) by lia.
  replace (p * page_size l + page_size l) with ((p + 1) * page_size l) by lia.
  set (e := Z.min ((p + 1) * page_size l) to) in *.
  set (D := if addr <? head_address l then Z.min e (flushed_until_address l) - p * page_size l else 0).
  set (limit := e - p * page_size l). assert (Hlimit : p * page_size l + limit = e) by (unfold limit; lia).
  assert (Hee : e <= tail_pos l) by (unfold e; lia). pose proof (mk_flushed _ Hm).
  assert (HD : D = 0 /\ head_address l <= addr \/ p * page_size l + D = Z.min e (flushed_until_address l) /\ addr < p * page_size l + D).
  { unfold D. destruct (Z.ltb_spec addr (head_address l)); [right|left]; lia. }
  destruct (two_walks l R p (disk_buf l p) (mem_buf l p) D limit) as (xs & ys & Ex & Ey & Hl); try done.
  - lia.
  - by rewrite Hlimit.
  - destruct HD as [[-> _]|[ED _]]; [left; lia|right]. rewrite ED.
    destruct (Z.min_spec e (flushed_until_address l)) as [[_ ->]|[_ ->]]; done.
  - lia.
  - intros o Ho. apply disk_page; [done|]. destruct HD as [[-> _]|[ED _]]; [lia|]. nia.
  - intros o Ho. f_equal. apply mem_page; try done; [lia| |lia]. destruct HD as [[_ Hh]|[ED _]]; lia.
  - change (match last xs with Some (o, rec) => o + c_total_size rec | None => 64 end) with (end_of 64 xs).
    rewrite Ex. cbn [mbind option_bind].
    change (match last xs with Some (o, rec) => o + c_total_size rec | None => 64 end) with (end_of 64 xs).
    rewrite Ey. cbn [mbind option_bind]. eexists. split; [done|]. rewrite Hlimit in Hl.
    eapply listed_from; [|  |exact Hl]; [apply (header_empty l R p); (done || lia)|lia].
Qed.

(** From page to page. *)
Lemma scan_loop_spec fuel l R p addr to : log_ok l R -> tiled l R -> cut l R (flushed_until_address l) -> cut l R to ->
  0 <= p -> p * page_size l <= addr <= p * page_size l + 64 -> to <= tail_pos l ->
  page_of l to - p + 1 < Z.of_nat fuel -> (0 < fuel)%nat -> addr <= to \/ addr = p * page_size l ->
  exists xs, scan_loop fuel l addr to = Some xs /\ listed R addr to xs.
Proof.
  intros Hok Ht Hcf Hct. pose proof (lo_config _ _ Hok) as Hcfg. pose proof (config_bits _ Hcfg) as Hb.
  pose proof (config_page_size _ Hcfg) as Hps. revert p addr.
  induction fuel as [|fuel IH]; intros p addr Hp Ha Hto Hf Hf0 Hcase; [lia|]. cbn [scan_loop].
  destruct (Z.ltb_spec addr to) as [Hlt|Hge].
  2: { exists []. split; [done|]. apply listed_nil. intros a c _ Hr. lia. }
  destruct (scan_page_spec l R p addr to Hok Ht Hcf Hct Hp Ha Hlt Hto) as (xs & -> & Hxs). cbn [mbind option_bind].
  assert (page_of l addr = p) as -> by (apply page_of_spec; [done|lia]). rewrite shiftl_page by done.
  replace (p * page_size l + page_size l) with ((p + 1) * page_size l) by lia.
  assert (Hpt : p <= page_of l to).
  { rewrite page_of_div by done. apply Z.div_le_lower_bound; lia. }
  destruct (IH (p + 1) ((p + 1) * page_size l)) as (ys & -> & Hys); [lia|lia|lia|lia|lia|by right|].
  cbn [mbind option_bind]. eexists. split; [done|].
  destruct (Z.min_spec ((p + 1) * page_size l) to) as [[? E]|[? E]]; rewrite E in Hxs.
  - eapply listed_app; [..|exact Hxs|exact Hys]; lia.
  - assert (ys = []) as ->; [|by rewrite app_nil_r].
    destruct Hys as [_ Hs _]. destruct ys as [|[a c] ys]; [done|]. destruct (Hs a c ltac:(by left)). lia.
Qed.

Lemma tail_cut l R : tail_ok l -> tiled l R -> cut l R (tail_pos l).
Proof.
  intros Ht Hti. pose proof (tl_off _ Ht). pose proof (tl_page _ Ht). unfold FIRST_VALID_ADDRESS, PAGE_HEADER_SIZE in *.
  destruct (decide (tail_off l = page_size l)) as [E|]; [left; exists (tail_page l + 1); unfold tail_pos; lia|right].
  unfold page_base. destruct (decide (page_bits l < 0)) as [Hneg|Hpos].
  - unfold page_size in *. rewrite Z.pow_neg_r in * by lia. lia.
  - assert (page_of l (tail_pos l) = tail_page l) as -> by (apply page_of_spec; [lia|unfold tail_pos; lia]).
    apply (ti_front _ _ Hti). lia.
Qed.

(** ** The layout of a log *)

Record layout (l : HybridLog) (R : gmap Z cell) : Prop := {
  ly_tiled : tiled l R;
  ly_cuts : cuts (cut l R) l;
  ly_begin : begin_address l = FIRST_VALID_ADDRESS }.

Lemma cuts_mono (P Q : Z -> Prop) l : (forall x, P x -> Q x) -> cuts P l -> cuts Q l.
Proof. intros HPQ [H1 H2]. split; [by apply HPQ|]. intros e ro Hin. by eapply HPQ, H2. Qed.

Lemma cut_multiple l R n : 0 <= n -> cut l R (n * page_size l).
Proof. intros. left. by exists n. Qed.

(** What the operations of the log leave of it when no record is written. *)
Lemma layout_step l l' R : lively_step l l' -> layout l R -> begin_address l' = begin_address l ->
  tail_pos l <= tail_pos l' -> tail l' = tail l \/ tail_off l' = page_size l' -> layout l' R.
Proof.
  intros Hs [H1 H2 H3] Eb Hp Ht. pose proof (ls_bits _ _ Hs) as Ebits. split; [by eapply tiled_log| |congruence].
  eapply cuts_mono; [|eapply (ls_cuts _ _ Hs); [|exact H2]; apply cut_multiple].
  intros x. by apply cut_mono; [apply same_sizes_refl|].
Qed.

(** A record changed where it is. *)
Lemma layout_change l R a c c' : layout l R -> R !! a = Some c -> c_total_size c' = c_total_size c ->
  cell_ok c' -> is_valid (c_info c') = true -> layout (put_record l a c') (<[a := c']> R).
Proof.
  intros [H1 H2 H3] Ha Hs Hok Hv. pose proof (tiled_change l R a c c' H1 Ha Hs Hok Hv) as Ht.
  split; [by apply (tiled_log l); [..|left]| |done].
  assert (Hm : forall x, cut l R x -> cut (put_record l a c') (<[a := c']> R) x).
  { intros x. apply cut_mono; [by eapply same_sizes_insert|done]. }
  destruct H2 as [HP HQ]. split; [by apply Hm|]. intros e ro Hin. by eapply Hm, HQ.
Qed.

(** A record written where it was allocated. *)
Lemma layout_alloc l l' R n c : lively_step l l' -> layout l R -> log_ok l R -> tail_ok l' ->
  begin_address l' = begin_address l ->
  (forall b, n <= b -> R !! b = None) -> tail_pos l <= n -> tail_pos l' = n + c_total_size c ->
  n = tail_pos l /\ tail_off l < page_size l /\ tail_page l' = tail_page l \/
  n = (tail_page l + 1) * page_size l + FIRST_VALID_ADDRESS /\ tail_page l' = tail_page l + 1 ->
  cell_ok c -> is_valid (c_info c) = true -> layout (put_record l' n c) (<[n := c]> R).
Proof.
  intros Hs [H1 H2 H3] Hok Ht Eb Hf Hn Etp Hpl Hc Hv. pose proof (ls_bits _ _ Hs) as Ebits.
  assert (Hti : tiled l' (<[n := c]> R)).
  { eapply (tiled_alloc l); try done; [apply (co_bits _ (lo_config _ _ Hok))|apply (tl_off _ (lo_tail _ _ Hok))]. }
  split; [by apply (tiled_log l'); [..|left]| |exact (eq_trans Eb H3)].
  assert (Hm : forall x, cut l R x -> cut (put_record l' n c) (<[n := c]> R) x).
  { intros x. apply cut_mono; [apply same_sizes_fresh, Hf; lia|done]. }
  destruct (ls_cuts _ _ Hs (cut l R) (fun k Hk => cut_multiple l R k Hk) H2) as [HP HQ].
  split; [by apply Hm|]. intros e ro Hin. by eapply Hm, HQ.
Qed.

Lemma layout_put_again l R n c c' : layout (put_record l n c) R -> layout (put_record (put_record l n c') n c) R.
Proof.
  intros [H1 H2 H3]. split; [by apply (tiled_log (put_record l n c)); [..|left]| |done].
  destruct H2 as [HP HQ]. split; [exact HP|exact HQ].
Qed.
Lemma log_new_layout bits mem mutable l : log_new bits mem mutable = Some l ->
  tail_off l = FIRST_VALID_ADDRESS /\ cuts (cut l ∅) l.
Proof.
  unfold log_new. destruct (Z.leb_spec 9 bits), (Z.leb_spec bits 30); simpl; try done. intros [= <-]. split; [done|].
  split; [|by intros e ro Hn%elem_of_nil]. right. cbn [flushed_until_address].
  match goal with |- laid _ (page_base ?l _) _ => assert (page_of l FIRST_VALID_ADDRESS = 0) as E end.
  { apply page_of_spec; simpl; [lia|]. unfold FIRST_VALID_ADDRESS, PAGE_HEADER_SIZE, page_size. simpl.
    assert (2 ^ 9 <= 2 ^ bits) by (apply Z.pow_le_mono_r; lia). lia. }
  unfold page_base. rewrite E. constructor.
Qed.
End Tiling.
