(* ===== verification/Store.v ===== *)
(** * The store ([crates/tsavorite/src/store.rs])

    Hash index, hybrid log and epoch behind Read, Upsert, RMW and Delete.  The
    state is passed explicitly; each [internal_*] function is one attempt of an
    operation, from the tag lookup to the release of the bucket latch, and the
    public operations retry attempts the way the code does.  [None] is a panic,
    an access to memory that holds no record, or exhausted fuel. *)

From S2P Require Import Prelude Record Hash Index Latch Epoch Log Session.

(** ** Phase and version *)

Inductive Phase := Rest | Prepare | InProgress | WaitFlush.
Global Instance Phase_eq_dec : EqDecision Phase.
Proof. solve_decision. Defined.
Record SystemState := SysState { phase : Phase; version : Z }.

Definition phase_code (p : Phase) : Z :=
  match p with Rest => 0 | Prepare => 1 | InProgress => 2 | WaitFlush => 3 end.
Definition sys_pack (s : SystemState) : word :=
  Z.lor (Z.shiftl (phase_code (phase s)) 56) (Z.land (version s) (Z.ones 56)).
Definition sys_unpack (w : word) : SystemState :=
  let code := Z.shiftr w 56 in
  SysState (if code =? 0 then Rest else if code =? 1 then Prepare
            else if code =? 2 then InProgress else WaitFlush)
    (Z.land w (Z.ones 56)).
Definition sys_in_new_version (s : SystemState) : bool :=
  match phase s with InProgress | WaitFlush => true | _ => false end.

(** ** The store *)

Record Store := MkStore {
  st_index : HashIndex; st_log : HybridLog;
  st_state : word; checkpoint_start_address : word }.

Definition set_index (st : Store) x := MkStore x (st_log st) (st_state st) (checkpoint_start_address st).
Definition set_log (st : Store) x := MkStore (st_index st) x (st_state st) (checkpoint_start_address st).
Definition set_system_state (st : Store) (s : SystemState) : Store :=
  MkStore (st_index st) (st_log st) (sys_pack s) (checkpoint_start_address st).
Definition set_checkpoint_start_address (st : Store) (a : word) : Store :=
  MkStore (st_index st) (st_log st) (st_state st) a.

Definition store_new (index_buckets page_bits memory_pages mutable : Z) : option Store :=
  l ← log_new page_bits memory_pages mutable;
  Some (MkStore (index_new index_buckets) l (sys_pack (SysState Rest 1)) (two64 - 1)).

Definition system_state (st : Store) : SystemState := sys_unpack (st_state st).
Definition try_set_system_state (st : Store) (expected new : SystemState) : bool * Store :=
  if st_state st =? sys_pack expected then (true, set_system_state st new) else (false, st).
Definition record_in_new_version (st : Store) (addr : Z) (info : word) : bool :=
  in_new_version info && (checkpoint_start_address st <=? addr).

(** A change to the record in memory at [addr]. *)
Definition modify (st : Store) (addr : Z) (f : word -> word) : option Store :=
  rec ← record_at (st_log st) addr;
  Some (set_log st (put_record (st_log st) addr (c_set_info rec (f (c_info rec))))).
Definition write_record (st : Store) (addr : Z) (rec : cell) : Store :=
  set_log st (put_record (st_log st) addr rec).

(** ** Sessions *)

Inductive LockType := Shared | Exclusive.
Global Instance LockType_eq_dec : EqDecision LockType.
Proof. solve_decision. Defined.

(** [se_tid] and [se_slot] are the thread-locals of the epoch. *)
Record Session := MkSession {
  txn_mode : bool; txn_locks : list (nat * LockType); se_state : SystemState;
  se_tid : Z; se_slot : option nat }.
Definition new_session (st : Store) (tid : Z) : Session := MkSession false [] (system_state st) tid None.
Definition sync_state (se : Session) (st : Store) (slot : nat) : Session :=
  MkSession (txn_mode se) (txn_locks se) (system_state st) (se_tid se) (Some slot).

Inductive Op :=
  | OpDone (s : Status) | OpRetryNow | OpRetryLater
  | OpRecordOnDisk (addr latest : Z) | OpCprShift.
Inductive Trace := TFound (addr : Z) | TStopped (addr : Z).
Definition is_stopped (t : Trace) : bool := match t with TStopped _ => true | _ => false end.

(** [latch]: run [body] under the bucket latch and release it, or report that
    it could not be taken.  A transaction already holds its latches. *)
Definition latch {A} (txn : bool) (bucket : nat) (exclusive : bool) (st : Store) (busy : A)
    (body : Store -> option (A * Store)) : option (A * Store) :=
  if txn then body st else
  '(ok, ix) ← (if exclusive then try_lock_exclusive (st_index st) bucket
               else try_lock_shared (st_index st) bucket);
  if ok : bool then
    '(r, st) ← body (set_index st ix);
    ix ← (if exclusive then unlock_exclusive (st_index st) bucket
          else unlock_shared (st_index st) bucket);
    Some (r, set_index st ix)
  else Some (busy, set_index st ix).

(** [trace_back]: previous addresses descend, so the address bounds the walk. *)
Fixpoint trace_back (fuel : nat) (l : HybridLog) (addr : Z) (key : bytes) (min : Z) : option Trace :=
  match fuel with
  | O => None
  | S fuel =>
      if (min <=? addr) && (FIRST_VALID_ADDRESS <=? addr) then
        rec ← record_at l addr;
        if bool_decide (c_key rec = key) then Some (TFound addr)
        else trace_back fuel l (previous_address (c_info rec)) key min
      else Some (TStopped addr)
  end.
Definition trace_fuel (addr : Z) : nat := S (Z.to_nat addr).

(** Spins of [try_allocate_retry_now]: an attempt runs alone, so no other thread
    is turning the page. *)
Definition SPINS : nat := 1.
(** [allocate_record]: the address is [None] when the log is full.  An address
    at or below the chain head is given up (its header, already zero, is
    zeroed) and the allocation repeated. *)
Fixpoint allocate_record (fuel : nat) (l : HybridLog) (state : SystemState) (size : RecordSizeInfo)
    (key : bytes) (prev : Z) : option (option Z * HybridLog) :=
  match fuel with
  | O => None
  | S fuel =>
      '(a, l) ← try_allocate_retry_now SPINS l (total_size_of size);
      match a with
      | None => Some (None, l)
      | Some addr =>
          if addr <=? prev then allocate_record fuel l state size key prev
          else Some (Some addr, put_record l addr (c_init prev (sys_in_new_version state) size key))
      end
  end.
Definition alloc_fuel (prev : Z) : nat := S (Z.to_nat prev).

Definition cas_into_chain (st : Store) (slot : SlotRef) (expected : word) (new_addr : Z)
    : option (bool * Store) :=
  '(ok, ix) ← slot_try_cas (st_index st) slot expected new_addr;
  st ← modify (set_index st ix) new_addr (if ok : bool then unseal_and_validate else seal_and_invalidate);
  Some (ok, st).

(** [find_on_disk]: the image of the record, or [None] when the chain ends or
    the device fails. *)
Fixpoint find_on_disk (fuel : nat) (l : HybridLog) (addr : Z) (key : bytes) : option (option cell) :=
  match fuel with
  | O => None
  | S fuel =>
      if (begin_address l <=? addr) && (FIRST_VALID_ADDRESS <=? addr) then
        match read_record_from_disk l addr with
        | None => Some None
        | Some rec =>
            let rec := c_set_info rec (Z.land (c_info rec) (not64 SEALED_BIT)) in
            if bool_decide (c_key rec = key) then Some (Some rec)
            else find_on_disk fuel l (previous_address (c_info rec)) key
        end
      else Some None
  end.

(** [protected]: enter the epoch, read the phase, run, leave. *)
Definition protected {A} (st : Store) (se : Session) (body : Store -> Session -> option (A * Store))
    : option (A * Store * Session) :=
  '(_, idx, e) ← protect (epoch (st_log st)) (se_tid se) (se_slot se);
  let st := set_log st (set_epoch_state (st_log st) e) in
  let se := sync_state se st idx in
  '(r, st) ← body st se;
  '(idx, e) ← unprotect (epoch (st_log st)) (se_tid se) (se_slot se);
  Some (r, set_log st (set_epoch_state (st_log st) e),
        MkSession (txn_mode se) (txn_locks se) (se_state se) (se_tid se) (Some idx)).

Definition cpr_gate (st : Store) (se : Session) (addr : Z) (info : word) : option Op :=
  if bool_decide (phase (se_state se) = Prepare) && record_in_new_version st addr info then Some OpCprShift
  else if is_closed info then Some OpRetryLater else None.
Definition cpr_blocks_in_place (st : Store) (se : Session) (addr : Z) (info : word) : bool :=
  sys_in_new_version (se_state se) && negb (record_in_new_version st addr info).

Definition MAX_RETRIES : Z := 1000000.
(** [handle_retry]: whether to go on, and the number of attempts. *)
Definition handle_retry (st : Store) (outcome : Op) (attempt : Z) : option (bool * Z * Store) :=
  let attempt := attempt + 1 in
  if MAX_RETRIES <? attempt then Some (false, attempt, st) else
  match outcome with
  | OpRetryNow | OpCprShift => Some (true, attempt, st)
  | OpRetryLater => l ← log_bump_current_epoch (st_log st); Some (true, attempt, set_log st l)
  | OpDone _ | OpRecordOnDisk _ _ => None
  end.

(** Attempts of [find_or_create_tag]: it restarts only under interference. *)
Definition TAG_ATTEMPTS : nat := 1.

(** The source of a copy: a record in memory, or the image read from disk. *)
Inductive OldRecord := InMemory (addr : Z) | Image (c : cell).
Definition load_old (st : Store) (old : OldRecord) : option cell :=
  match old with InMemory addr => record_at (st_log st) addr | Image c => Some c end.
Definition seal_old (st : Store) (old : OldRecord) : option Store :=
  match old with
  | InMemory addr => modify st addr (fun w => snd (try_seal w))
  | Image _ => Some st
  end.

(** ** One attempt of each operation *)

Section Attempts.
Context {Input Out : Type} `{F : SessionFunctions Input Out}.
Implicit Types (st : Store) (se : Session) (k : bytes) (i : Input) (out : Out).

(** Outcome, output and store. *)
Abbreviation attempt := (option ((Op * Out) * Store)) (only parsing).
Definition done_ (s : Status) out st : attempt := Some ((OpDone s, out), st).
Definition again (o : Op) out st : attempt := Some ((o, out), st).

Definition on_disk st (addr : Z) : bool :=
  (begin_address (st_log st) <=? addr) && (FIRST_VALID_ADDRESS <=? addr).

Definition internal_read st se k (hash : word) i out : attempt :=
  found ← find_tag (st_index st) hash;
  match found with
  | None => done_ NotFound out st
  | Some slot =>
      latch (txn_mode se) (sr_bucket slot) false st (OpRetryLater, out) (fun st =>
        entry ← slot_load (st_index st) slot;
        let latest := entry_address entry in
        let head := head_address (st_log st) in
        t ← trace_back (trace_fuel latest) (st_log st) latest k head;
        match t with
        | TFound addr =>
            rec ← record_at (st_log st) addr;
            let info := c_info rec in
            match cpr_gate st se addr info with
            | Some op => again op out st
            | None =>
                if is_tombstone info then done_ NotFound out st else
                '(found, out) ← reader k i rec out;
                done_ (if found : bool then Found else NotFound) out st
            end
        | TStopped addr =>
            if on_disk st addr then again (OpRecordOnDisk addr latest) out st
            else done_ NotFound out st
        end)
  end.

(** The new-record half of an upsert. *)
Definition upsert_new st se (slot : SlotRef) (entry : word) k i out (old_to_seal : option Z) : attempt :=
  let latest := entry_address entry in
  '(a, l) ← allocate_record (alloc_fuel latest) (st_log st) (se_state se) (upsert_size k i) k latest;
  let st := set_log st l in
  match a with
  | None => again OpRetryLater out st
  | Some new_addr =>
      rec ← record_at (st_log st) new_addr;
      '(rec, out) ← initial_writer k i rec out;
      '(ok, st) ← cas_into_chain (write_record st new_addr rec) slot entry new_addr;
      if negb ok then again OpRetryNow out st else
      st ← (match old_to_seal with
            | Some old => modify st old (fun w => snd (try_seal w))
            | None => Some st
            end);
      rec ← record_at (st_log st) new_addr;
      let '(rec, out) := post_initial_writer k i rec out in
      done_ Created out (write_record st new_addr rec)
  end.

Definition internal_upsert st se k (hash : word) i out : attempt :=
  '(slot, ix) ← find_or_create_tag TAG_ATTEMPTS (st_index st) hash;
  latch (txn_mode se) (sr_bucket slot) true (set_index st ix) (OpRetryLater, out) (fun st =>
    entry ← slot_load (st_index st) slot;
    let latest := entry_address entry in
    let ro := read_only_address (st_log st) in
    t ← trace_back (trace_fuel latest) (st_log st) latest k ro;
    match t with
    | TStopped _ => upsert_new st se slot entry k i out None
    | TFound addr =>
        rec ← record_at (st_log st) addr;
        let info := c_info rec in
        match cpr_gate st se addr info with
        | Some op => again op out st
        | None =>
            if is_tombstone info then upsert_new st se slot entry k i out None
            else if cpr_blocks_in_place st se addr info
            then upsert_new st se slot entry k i out (Some addr)
            else
              '(fits, rec, out) ← in_place_writer k i rec out;
              let st := write_record st addr rec in
              if fits : bool then
                st ← modify st addr set_modified; done_ InPlaceUpdated out st
              else upsert_new st se slot entry k i out (Some addr)
        end
    end).

Definition rmw_initial st se (slot : SlotRef) (entry : word) k i out : attempt :=
  let '(go, out) := need_initial_update k i out in
  if negb go then done_ NotFound out st else
  let latest := entry_address entry in
  '(a, l) ← allocate_record (alloc_fuel latest) (st_log st) (se_state se) (initial_size k i) k latest;
  let st := set_log st l in
  match a with
  | None => again OpRetryLater out st
  | Some new_addr =>
      rec ← record_at (st_log st) new_addr;
      '(rec, out) ← initial_updater k i rec out;
      '(ok, st) ← cas_into_chain (write_record st new_addr rec) slot entry new_addr;
      if negb ok then again OpRetryNow out st else
      rec ← record_at (st_log st) new_addr;
      let '(rec, out) := post_initial_updater k i rec out in
      done_ Created out (write_record st new_addr rec)
  end.

(** Append a tombstone at the tail and seal [old]. *)
Definition delete_rcu st se (slot : SlotRef) (entry : word) k out (old : option OldRecord) : attempt :=
  let latest := entry_address entry in
  '(a, l) ← allocate_record (alloc_fuel latest) (st_log st) (se_state se) (SizeInfo (length k) 0 false) k latest;
  let st := set_log st l in
  match a with
  | None => again OpRetryLater out st
  | Some new_addr =>
      st ← modify st new_addr set_tombstone;
      '(ok, st) ← cas_into_chain st slot entry new_addr;
      if negb ok then again OpRetryNow out st else
      st ← (match old with Some old => seal_old st old | None => Some st end);
      done_ Deleted (post_deleter k out) st
  end.

Definition rmw_copy st se (slot : SlotRef) (entry : word) k i out (old : OldRecord) (seal : bool) : attempt :=
  src ← load_old st old;
  let '(d, out) := need_copy_update k i src out in
  match d with
  | CancelCopy => done_ Canceled out st
  | DeleteCopy => delete_rcu st se slot entry k out (if seal then Some old else None)
  | Copy =>
      let latest := entry_address entry in
      '(a, l) ← allocate_record (alloc_fuel latest) (st_log st) (se_state se) (copy_size k i src) k latest;
      let st := set_log st l in
      match a with
      | None => again OpRetryLater out st
      | Some new_addr =>
          src ← load_old st old;
          rec ← record_at (st_log st) new_addr;
          '(rec, out) ← copy_updater k i src rec out;
          '(ok, st) ← cas_into_chain (write_record st new_addr rec) slot entry new_addr;
          if negb ok then again OpRetryNow out st else
          st ← (if seal then seal_old st old else Some st);
          rec ← record_at (st_log st) new_addr;
          let '(rec, out) := post_copy_updater k i rec out in
          done_ CopyUpdated out (write_record st new_addr rec)
      end
  end.

(** No newer record for the key appeared in memory since the disk was read. *)
Definition still_on_disk st k (latest seen_latest : Z) : option bool :=
  if seen_latest =? latest then Some true else
  t ← trace_back (trace_fuel latest) (st_log st) latest k (Z.max (seen_latest + 1) (head_address (st_log st)));
  Some (is_stopped t).

Definition internal_rmw st se k (hash : word) i out (disk_src : option (option cell * Z)) : attempt :=
  '(slot, ix) ← find_or_create_tag TAG_ATTEMPTS (st_index st) hash;
  latch (txn_mode se) (sr_bucket slot) true (set_index st ix) (OpRetryLater, out) (fun st =>
    entry ← slot_load (st_index st) slot;
    let latest := entry_address entry in
    let head := head_address (st_log st) in
    let ro := read_only_address (st_log st) in
    let safe_ro := safe_read_only_address (st_log st) in
    t ← trace_back (trace_fuel latest) (st_log st) latest k head;
    match t with
    | TFound addr =>
        rec ← record_at (st_log st) addr;
        let info := c_info rec in
        match cpr_gate st se addr info with
        | Some op => again op out st
        | None =>
            if is_tombstone info then rmw_initial st se slot entry k i out else
            if ro <=? addr then
              if cpr_blocks_in_place st se addr info
              then rmw_copy st se slot entry k i out (InMemory addr) true
              else
                '(r, rec, out) ← in_place_updater k i rec out;
                let st := write_record st addr rec in
                match r with
                | Updated => st ← modify st addr set_modified; done_ InPlaceUpdated out st
                | Cancel => done_ Found out st
                | Expired =>
                    st ← modify st addr set_tombstone; rmw_initial st se slot entry k i out
                | DeleteNow =>
                    st ← modify st addr set_tombstone; done_ Deleted (post_deleter k out) st
                | NeedCopy => rmw_copy st se slot entry k i out (InMemory addr) true
                end
            else if safe_ro <=? addr then again OpRetryLater out st
            else rmw_copy st se slot entry k i out (InMemory addr) false
        end
    | TStopped addr =>
        if on_disk st addr then
          match disk_src with
          | Some (src, seen_latest) =>
              same ← still_on_disk st k latest seen_latest;
              if same : bool then
                match src with
                | Some old => if negb (is_tombstone (c_info old))
                              then rmw_copy st se slot entry k i out (Image old) false
                              else rmw_initial st se slot entry k i out
                | None => rmw_initial st se slot entry k i out
                end
              else again OpRetryNow out st
          | None => again (OpRecordOnDisk addr latest) out st
          end
        else rmw_initial st se slot entry k i out
    end).

Definition internal_delete st se k (hash : word) out (disk_checked : option (bool * Z)) : attempt :=
  found ← find_tag (st_index st) hash;
  match found with
  | None => done_ NotFound out st
  | Some slot =>
      latch (txn_mode se) (sr_bucket slot) true st (OpRetryLater, out) (fun st =>
        entry ← slot_load (st_index st) slot;
        let latest := entry_address entry in
        let head := head_address (st_log st) in
        let ro := read_only_address (st_log st) in
        t ← trace_back (trace_fuel latest) (st_log st) latest k head;
        match t with
        | TFound addr =>
            rec ← record_at (st_log st) addr;
            let info := c_info rec in
            match cpr_gate st se addr info with
            | Some op => again op out st
            | None =>
                if is_tombstone info then done_ NotFound out st else
                if (ro <=? addr) && negb (cpr_blocks_in_place st se addr info) then
                  st ← modify st addr (fun w => set_modified (set_tombstone w));
                  done_ Deleted (post_deleter k out) st
                else delete_rcu st se slot entry k out (Some (InMemory addr))
            end
        | TStopped addr =>
            if on_disk st addr then
              match disk_checked with
              | Some (exists_, seen_latest) =>
                  same ← still_on_disk st k latest seen_latest;
                  if same : bool then
                    if exists_ : bool then delete_rcu st se slot entry k out None
                    else done_ NotFound out st
                  else again OpRetryNow out st
              | None => again (OpRecordOnDisk addr latest) out st
              end
            else done_ NotFound out st
        end)
  end.

(** ** The operations *)

Abbreviation outcome := (option (Status * Out * Store * Session)) (only parsing).

Fixpoint read_loop (fuel : nat) st se k (hash : word) i out (attempts : Z) : outcome :=
  match fuel with
  | O => None
  | S fuel =>
      '((r, out), st, se) ← protected st se (fun st se => internal_read st se k hash i out);
      match r with
      | OpDone s => Some (s, out, st, se)
      | OpRecordOnDisk addr _ =>
          image ← find_on_disk (trace_fuel addr) (st_log st) addr k;
          match image with
          | Some rec =>
              if is_tombstone (c_info rec) then Some (NotFound, out, st, se) else
              '(found, out) ← reader k i rec out;
              Some (if found : bool then Found else NotFound, out, st, se)
          | None => Some (NotFound, out, st, se)
          end
      | other =>
          '(go, attempts, st) ← handle_retry st other attempts;
          if go : bool then read_loop fuel st se k hash i out attempts else Some (Error, out, st, se)
      end
  end.
Definition read (fuel : nat) st se k i out : outcome := read_loop fuel st se k (hash64 k) i out 0.

Fixpoint upsert_loop (fuel : nat) st se k (hash : word) i out (attempts : Z) : outcome :=
  match fuel with
  | O => None
  | S fuel =>
      '((r, out), st, se) ← protected st se (fun st se => internal_upsert st se k hash i out);
      match r with
      | OpDone s => Some (s, out, st, se)
      | OpRecordOnDisk _ _ => None
      | other =>
          '(go, attempts, st) ← handle_retry st other attempts;
          if go : bool then upsert_loop fuel st se k hash i out attempts else Some (Error, out, st, se)
      end
  end.
Definition upsert (fuel : nat) st se k i out : outcome := upsert_loop fuel st se k (hash64 k) i out 0.

Fixpoint rmw_loop (fuel : nat) st se k (hash : word) i out (disk_src : option (option cell * Z))
    (attempts : Z) : outcome :=
  match fuel with
  | O => None
  | S fuel =>
      '((r, out), st, se) ← protected st se (fun st se => internal_rmw st se k hash i out disk_src);
      match r with
      | OpDone s => Some (s, out, st, se)
      | OpRecordOnDisk addr latest =>
          image ← find_on_disk (trace_fuel addr) (st_log st) addr k;
          rmw_loop fuel st se k hash i out (Some (image, latest)) attempts
      | other =>
          '(go, attempts, st) ← handle_retry st other attempts;
          if go : bool then rmw_loop fuel st se k hash i out disk_src attempts
          else Some (Error, out, st, se)
      end
  end.
Definition rmw (fuel : nat) st se k i out : outcome := rmw_loop fuel st se k (hash64 k) i out None 0.

Fixpoint delete_loop (fuel : nat) st se k (hash : word) out (disk_checked : option (bool * Z))
    (attempts : Z) : outcome :=
  match fuel with
  | O => None
  | S fuel =>
      '((r, out), st, se) ← protected st se (fun st se => internal_delete st se k hash out disk_checked);
      match r with
      | OpDone s => Some (s, out, st, se)
      | OpRecordOnDisk addr latest =>
          image ← find_on_disk (trace_fuel addr) (st_log st) addr k;
          let exists_ := match image with Some rec => negb (is_tombstone (c_info rec)) | None => false end in
          delete_loop fuel st se k hash out (Some (exists_, latest)) attempts
      | other =>
          '(go, attempts, st) ← handle_retry st other attempts;
          if go : bool then delete_loop fuel st se k hash out disk_checked attempts
          else Some (Error, out, st, se)
      end
  end.
Definition delete_key (fuel : nat) st se k out : outcome := delete_loop fuel st se k (hash64 k) out None 0.
End Attempts.
