(* ===== verification/StoreInv.v ===== *)
(** * What the store's log and index say about each key

    The newest record of a key along its hash chain, the invariant [store_ok]
    tying a store to the abstract map it implements, and how each elementary
    change to the store (an update of a newest record, a seal of an older one,
    the publication of a new one) changes that map. *)

From S2P Require Import Prelude Record Hash Index IndexSpec Latch Epoch Log LogSpec LogLive LogTiling Session Store.

#[local] Opaque hash64.

Section Store_invariant.
Context {fl : floor}.

(** ** Chains *)

(** [newest R b k a r]: walking down from [a] through the records of [R] at or
    above [b], the first record with key [k] is at [r]. *)
Inductive newest (R : gmap Z cell) (b : Z) (k : bytes) : Z -> option Z -> Prop :=
| newest_end a : a < b -> newest R b k a None
| newest_hit a c : b <= a -> R !! a = Some c -> c_key c = k -> newest R b k a (Some a)
| newest_next a c r : b <= a -> R !! a = Some c -> c_key c <> k ->
    newest R b k (previous_address (c_info c)) r -> newest R b k a r.

(** Every record is well formed and its previous address leads, downwards, to
    another record or out of the log. *)
Definition cells_ok (R : gmap Z cell) (b : Z) : Prop :=
  forall a c, R !! a = Some c -> cell_ok c /\ previous_address (c_info c) < a /\
    (previous_address (c_info c) < b \/ is_Some (R !! previous_address (c_info c))).
Definition start_ok (R : gmap Z cell) (b a : Z) : Prop := a < b \/ is_Some (R !! a).

Lemma newest_det R b k a r r' : newest R b k a r -> newest R b k a r' -> r = r'.
Proof.
  intros H. revert r'. induction H as [a Ha|a c Hb HR Hk|a c r Hb HR Hk _ IH]; intros r' H'; inversion H'; subst;
    try done; try lia; simplify_eq; try done. by apply IH.
Qed.

Lemma newest_found R b k a x : newest R b k a (Some x) -> b <= x <= a \/ ~ cells_ok R b.
Proof.
  intros H. remember (Some x) as r. induction H; simplify_eq; [left; lia|].
  destruct (IHnewest eq_refl) as [|]; [|by right].
  destruct (decide (previous_address (c_info c) < a)); [left; lia|].
  right. intros Hc. destruct (Hc _ _ H0). lia.
Qed.

Lemma newest_cell R b k a x : newest R b k a (Some x) -> b <= x /\ exists c, R !! x = Some c /\ c_key c = k.
Proof. intros H. remember (Some x) as r. induction H; simplify_eq; [split; [done|by eexists]|by apply IHnewest]. Qed.

Lemma newest_total R b k a : 0 <= b -> cells_ok R b -> start_ok R b a -> exists r, newest R b k a r.
Proof.
  intros Hb Hc. remember (Z.to_nat a) as n eqn:En. revert a En.
  induction (lt_wf n) as [n _ IH]. intros a -> Hs.
  destruct (decide (a < b)) as [|Hge]; [eexists; by apply newest_end|].
  destruct Hs as [|[c Hac]]; [lia|]. destruct (Hc _ _ Hac) as (_ & Hlt & Hp).
  destruct (decide (c_key c = k)); [eexists; eapply newest_hit; [lia|done..]|].
  destruct (decide (previous_address (c_info c) < b)).
  - eexists. eapply newest_next; [lia|done..|]. by apply newest_end.
  - destruct (IH (Z.to_nat (previous_address (c_info c)))) with (a := previous_address (c_info c))
      as [r Hr]; [lia|done|by destruct Hp; [left|right]|].
    exists r. eapply newest_next; [lia|done..].
Qed.

Definition same_links (R R' : gmap Z cell) : Prop :=
  forall a c, R !! a = Some c -> exists c', R' !! a = Some c' /\ c_key c' = c_key c /\
    previous_address (c_info c') = previous_address (c_info c).

Lemma newest_mono R R' b k a r : same_links R R' -> newest R b k a r -> newest R' b k a r.
Proof.
  intros Hs. induction 1 as [a Ha|a c Hb HR Hk|a c r Hb HR Hk _ IH].
  - by apply newest_end.
  - destruct (Hs _ _ HR) as (c' & ? & ? & ?). eapply newest_hit; [done..|congruence].
  - destruct (Hs _ _ HR) as (c' & ? & ? & E). eapply newest_next; [done|done|congruence|by rewrite E].
Qed.

Lemma same_links_insert R a c c' : R !! a = Some c -> c_key c' = c_key c ->
  previous_address (c_info c') = previous_address (c_info c) -> same_links R (<[a := c']> R).
Proof.
  intros Ha Hk Hp b d Hb. destruct (decide (a = b)) as [<-|].
  - rewrite lookup_insert_eq. exists c'. by simplify_eq.
  - rewrite lookup_insert_ne by done. by exists d.
Qed.

Lemma same_links_fresh R a c : R !! a = None -> same_links R (<[a := c]> R).
Proof.
  intros Ha b d Hb. exists d. rewrite lookup_insert_ne; [done|]. intros <-. congruence.
Qed.

Lemma cells_ok_insert R b a c : cells_ok R b -> cell_ok c -> previous_address (c_info c) < a ->
  start_ok R b (previous_address (c_info c)) -> cells_ok (<[a := c]> R) b.
Proof.
  intros Hc Hok Hp Hs x d Hx.
  assert (Hup : forall y, is_Some (R !! y) -> is_Some (<[a := c]> R !! y)).
  { intros y Hy. destruct (decide (a = y)) as [<-|]; [rewrite lookup_insert_eq; by eexists|].
    by rewrite lookup_insert_ne. }
  destruct (decide (a = x)) as [<-|Hne].
  - rewrite lookup_insert_eq in Hx. injection Hx as <-. split_and!; [done|done|]. destruct Hs; [by left|right; auto].
  - rewrite lookup_insert_ne in Hx by done. destruct (Hc _ _ Hx) as (? & ? & [?|?]); split_and!; auto.
Qed.

(** ** Walking a chain *)

Lemma trace_back_spec fuel l R k min a : log_ok l R -> cells_ok R (begin_address l) ->
  FIRST_VALID_ADDRESS <= begin_address l <= min -> closed_until_address l <= min -> Floor <= min ->
  start_ok R (begin_address l) a -> (Z.to_nat a < fuel)%nat ->
  exists t, trace_back fuel l a k min = Some t /\
  match t with
  | TFound x => newest R (begin_address l) k a (Some x) /\ min <= x < tail_pos l /\
      exists c, R !! x = Some c /\ c_key c = k /\ record_at l x = Some c
  | TStopped x => x < min /\ x <= a /\ start_ok R (begin_address l) x /\
      forall r, newest R (begin_address l) k x r -> newest R (begin_address l) k a r
  end.
Proof.
  intros Hok Hc Hb Hcl Hfl. unfold FIRST_VALID_ADDRESS, PAGE_HEADER_SIZE in Hb.
  revert a. induction fuel as [|fuel IH]; intros a Hs Hf; [lia|]. cbn [trace_back].
  unfold FIRST_VALID_ADDRESS, PAGE_HEADER_SIZE.
  destruct (Z.leb_spec min a) as [Hge|Hlt]; [|exists (TStopped a); by split_and!].
  destruct (Z.leb_spec 64 a); [|lia]. cbn [andb].
  destruct Hs as [|[c Hac]]; [lia|].
  pose proof (lo_dom _ _ Hok a c Hac) as Hdom. pose proof (tl_off _ (lo_tail _ _ Hok)) as Hto.
  rewrite (lo_mem _ _ Hok) by (unfold tail_pos in Hdom; lia). rewrite Hac. cbn [mbind option_bind].
  destruct (Hc _ _ Hac) as (_ & Hlt & Hp). case_bool_decide as Hk.
  - exists (TFound a). split; [done|]. split; [apply (newest_hit _ _ _ a c); [lia|done|done]|]. split; [lia|].
    exists c. split_and!; [done|done|]. rewrite (lo_mem _ _ Hok); [done|lia|]. unfold tail_pos in Hdom. lia.
  - destruct (IH (previous_address (c_info c)) Hp) as (t & -> & Ht); [lia|].
    exists t. split; [done|]. destruct t as [x|x].
    + destruct Ht as (Hn & Hx). split; [|exact Hx]. eapply newest_next; [lia|done..].
    + destruct Ht as (? & ? & ? & Hn). split_and!; [done|lia|done|]. intros r Hr.
      eapply newest_next; [lia|done|done|]. by apply Hn.
Qed.

Lemma find_on_disk_spec fuel l R k a : log_ok l R -> cells_ok R (begin_address l) ->
  FIRST_VALID_ADDRESS <= begin_address l ->
  start_ok R (begin_address l) a -> a < flushed_until_address l -> (Z.to_nat a < fuel)%nat ->
  exists res, find_on_disk fuel l a k = Some res /\
  match res with
  | Some img => exists x c, newest R (begin_address l) k a (Some x) /\ R !! x = Some c /\ img = unseal_img c
  | None => newest R (begin_address l) k a None
  end.
Proof.
  intros Hok Hc Hb. unfold FIRST_VALID_ADDRESS, PAGE_HEADER_SIZE in Hb.
  revert a. induction fuel as [|fuel IH]; intros a Hs Hfl Hf; [lia|]. cbn [find_on_disk].
  unfold FIRST_VALID_ADDRESS, PAGE_HEADER_SIZE.
  destruct (Z.leb_spec (begin_address l) a) as [Hge|Hlt].
  2: { exists None. split; [done|]. by apply newest_end. }
  destruct (Z.leb_spec 64 a); [|lia]. cbn [andb].
  destruct Hs as [|[c Hac]]; [lia|].
  pose proof (lo_dev _ _ Hok a ltac:(lia)) as Hdev. rewrite Hac in Hdev.
  unfold read_record_from_disk. destruct (device l !! a) as [d|]; [|done].
  cbn [fmap option_fmap option_map] in Hdev. assert (Ed : unseal_img d = unseal_img c) by congruence.
  change (c_set_info d (Z.land (c_info d) (not64 SEALED_BIT))) with (unseal_img d). rewrite Ed.
  change (c_key (unseal_img c)) with (c_key c).
  assert (Hprev : previous_address (c_info (unseal_img c)) = previous_address (c_info c)).
  { unfold unseal_img, c_set_info. cbn [c_info]. apply previous_address_ext. intros n Hn. info_bits. }
  destruct (Hc _ _ Hac) as (_ & Hlt & Hp). case_bool_decide as Hk.
  - eexists. split; [done|]. exists a, c. split; [apply (newest_hit _ _ _ a c); [lia|done|done]|done].
  - rewrite Hprev. destruct (IH (previous_address (c_info c)) Hp) as (res & -> & Hr); [lia|lia|].
    exists res. split; [done|]. destruct res as [img|].
    + destruct Hr as (x & c' & ? & ? & ?). exists x, c'. split_and!; [|done..]. eapply newest_next; [lia|done..].
    + eapply newest_next; [lia|done..].
Qed.

(** ** The invariant *)

(** What a key's newest record stands for: a tombstone is absence. *)
Definition value_of (R : gmap Z cell) (r : option Z) : option cell :=
  a ← r; c ← R !! a; if is_tombstone (c_info c) then None else Some c.
Definition start (ix : HashIndex) (k : bytes) : Z :=
  match entry_word ix (hash64 k) with Some w => entry_address w | None => INVALID_ADDRESS end.

(** Keys that share an index entry. *)
Definition same_pair (ix : HashIndex) (k k' : bytes) : Prop :=
  (bucket_index ix (hash64 k'), tag_of (hash64 k')) = (bucket_index ix (hash64 k), tag_of (hash64 k)).
#[export] Instance same_pair_dec ix k k' : Decision (same_pair ix k k').
Proof. unfold same_pair. apply _. Defined.

(** The newest record is published and not superseded. *)
Definition open_at (R : gmap Z cell) (r : option Z) : Prop :=
  forall a c, r = Some a -> R !! a = Some c -> is_closed (c_info c) = false.

Record store_ok (st : Store) (R : gmap Z cell) (M : gmap bytes cell) : Prop := {
  so_log : log_ok (st_log st) R;
  so_lively : lively (st_log st);
  so_begin : FIRST_VALID_ADDRESS <= begin_address (st_log st) <= head_address (st_log st);
  so_table : table_ok (st_index st);
  so_entries : entries_ok (st_index st);
  so_cells : cells_ok R (begin_address (st_log st));
  so_start : forall k, start_ok R (begin_address (st_log st)) (start (st_index st) k);
  so_map : forall k r, newest R (begin_address (st_log st)) k (start (st_index st) k) r ->
             value_of R r = M !! k /\ open_at R r;
  so_cpr : phase (system_state st) = Prepare -> forall a c, R !! a = Some c ->
             record_in_new_version st a (c_info c) = false;
  (** records follow one another, and flushing stops between two of them *)
  so_layout : layout (st_log st) R;
  (** an index entry leads to the highest record of its keys *)
  so_head : forall a c, R !! a = Some c -> a <= start (st_index st) (c_key c);
  so_entry : forall k, begin_address (st_log st) <= start (st_index st) k ->
             exists c, R !! start (st_index st) k = Some c /\ same_pair (st_index st) k (c_key c) }.

Lemma so_newest st R M k : store_ok st R M -> exists r,
  newest R (begin_address (st_log st)) k (start (st_index st) k) r /\ value_of R r = M !! k /\ open_at R r.
Proof.
  intros Hok. pose proof (so_begin _ _ _ Hok) as Hb. unfold FIRST_VALID_ADDRESS, PAGE_HEADER_SIZE in Hb.
  destruct (newest_total R (begin_address (st_log st)) k (start (st_index st) k)) as [r Hr];
    [lia|by eapply so_cells|by eapply so_start|].
  exists r. split; [done|]. by apply (so_map _ _ _ Hok).
Qed.

(** The abstract map with [k] bound to [v]. *)
Definition bind_key (k : bytes) (v : option cell) (M : gmap bytes cell) : gmap bytes cell :=
  partial_alter (fun _ => v) k M.
Lemma bind_key_eq k v M : bind_key k v M !! k = v.
Proof. unfold bind_key. by rewrite lookup_partial_alter_eq. Qed.
Lemma bind_key_ne k k' v M : k <> k' -> bind_key k v M !! k' = M !! k'.
Proof. intros. unfold bind_key. by rewrite lookup_partial_alter_ne. Qed.
Lemma bind_key_same k M : bind_key k (M !! k) M = M.
Proof.
  apply map_eq. intros k'. destruct (decide (k = k')) as [<-|];
    [by rewrite bind_key_eq|by rewrite bind_key_ne].
Qed.
Lemma bind_key_twice k v v' M : bind_key k v (bind_key k v' M) = bind_key k v M.
Proof.
  apply map_eq. intros k'. destruct (decide (k = k')) as [<-|];
    [by rewrite !bind_key_eq|by rewrite !bind_key_ne].
Qed.

(** ** Elementary changes *)

Lemma store_set_log st R M l' : store_ok st R M -> log_ok l' R -> lively l' ->
  begin_address l' = begin_address (st_log st) -> head_address (st_log st) <= head_address l' ->
  layout l' R -> store_ok (set_log st l') R M.
Proof.
  intros [? ? ? ? ? ? ? ? ? ? ? ?] ? ? Eb Eh Hla.
  split; cbn [st_log st_index set_log]; rewrite ?Eb; try assumption. lia.
Qed.

Lemma store_set_index st R M ix' : store_ok st R M -> table_ok ix' -> entries_ok ix' ->
  mask ix' = mask (st_index st) ->
  (forall h, 0 <= h -> entry_word ix' h = entry_word (st_index st) h) -> store_ok (set_index st ix') R M.
Proof.
  intros [? ? ? ? ? ? Hs Hm ? ? Hhd Hen] ? ? Emask Eh.
  assert (Es : forall k, start ix' k = start (st_index st) k).
  { intros k. unfold start. rewrite Eh; [done|apply hash64_nonneg]. }
  split; cbn [st_log st_index set_index]; try assumption.
  - intros k. rewrite Es. apply Hs.
  - intros k r. rewrite Es. apply Hm.
  - intros a c. rewrite Es. apply Hhd.
  - intros k. rewrite Es. unfold same_pair, bucket_index. rewrite Emask. apply Hen.
Qed.

(** A record changed where it is: same key, same link. *)
Lemma store_change st R M M' a c c' : store_ok st R M -> R !! a = Some c ->
  c_key c' = c_key c -> previous_address (c_info c') = previous_address (c_info c) ->
  in_new_version (c_info c') = in_new_version (c_info c) -> cell_ok c' ->
  c_total_size c' = c_total_size c -> is_valid (c_info c') = true ->
  log_ok (put_record (st_log st) a c') (<[a := c']> R) ->
  (forall k r, newest R (begin_address (st_log st)) k (start (st_index st) k) r ->
     value_of (<[a := c']> R) r = M' !! k /\ open_at (<[a := c']> R) r) ->
  store_ok (write_record st a c') (<[a := c']> R) M'.
Proof.
  intros Hok Ha Hk Hp Hv Hc' Hsz Hval Hlog HM. pose proof Hok as [Hlo Hli Hbe Hta Hen Hce Hst Hma Hcp Hla Hhd Hent].
  assert (Hcells : cells_ok (<[a := c']> R) (begin_address (st_log st))).
  { destruct (Hce _ _ Ha) as (_ & ? & ?). apply cells_ok_insert; [done|done|lia|by rewrite Hp]. }
  pose proof (same_links_insert R a c c' Ha Hk Hp) as Hsl.
  assert (Hup : forall y, start_ok R (begin_address (st_log st)) y ->
    start_ok (<[a := c']> R) (begin_address (st_log st)) y).
  { intros y [|[d Hy]]; [by left|right]. destruct (Hsl _ _ Hy) as (d' & ? & _). by exists d'. }
  split; cbn [st_log st_index write_record set_log]; try assumption.
  - by apply (lively_ext (st_log st)).
  - intros k. by apply Hup.
  - intros k r Hr. destruct (so_newest _ _ _ k Hok) as (r0 & Hr0 & _).
    apply HM. assert (r = r0) as ->; [|done].
    eapply newest_det; [exact Hr|]. by eapply newest_mono.
  - intros Hph b d. destruct (decide (a = b)) as [<-|].
    + rewrite lookup_insert_eq. intros [= <-]. pose proof (Hcp Hph _ _ Ha) as E.
      unfold record_in_new_version in *. by rewrite Hv.
    + rewrite lookup_insert_ne by done. by apply Hcp.
  - by apply layout_change with c.
  - intros b d [[<- <-]|[_ Hb]]%lookup_insert_Some; [rewrite Hk|]; by apply Hhd.
  - intros k Hb. destruct (Hent k Hb) as (d & Hd & Hpair). destruct (Hsl _ _ Hd) as (d' & ? & Ek & _).
    exists d'. by rewrite Ek.
Qed.

Lemma value_of_insert_ne R a c r : r <> Some a -> value_of (<[a := c]> R) r = value_of R r.
Proof.
  intros Hr. unfold value_of. destruct r as [x|]; [|done]. cbn [mbind option_bind].
  rewrite lookup_insert_ne by congruence. done.
Qed.
Lemma open_at_insert_ne R a c r : r <> Some a -> open_at R r -> open_at (<[a := c]> R) r.
Proof.
  intros Hr Ho x d Hx. rewrite lookup_insert_ne by congruence. by apply Ho.
Qed.
Lemma value_of_insert_eq R a c : value_of (<[a := c]> R) (Some a) = if is_tombstone (c_info c) then None else Some c.
Proof. unfold value_of. cbn [mbind option_bind]. by rewrite lookup_insert_eq. Qed.

(** The newest record of [k] updated in the mutable region. *)
Lemma store_update_newest st R M k a c c' : store_ok st R M ->
  newest R (begin_address (st_log st)) k (start (st_index st) k) (Some a) -> R !! a = Some c ->
  c_key c' = c_key c -> previous_address (c_info c') = previous_address (c_info c) ->
  in_new_version (c_info c') = in_new_version (c_info c) -> is_closed (c_info c') = false -> cell_ok c' ->
  c_total_size c' = c_total_size c -> safe_read_only_address (st_log st) <= a ->
  store_ok (write_record st a c') (<[a := c']> R)
    (bind_key k (if is_tombstone (c_info c') then None else Some c') M).
Proof.
  intros Hok Hn Ha Hk Hp Hv Hcl Hc' Hsz Hro.
  pose proof (so_log _ _ _ Hok) as Hlog. pose proof (lo_dom _ _ Hlog a c Ha) as Hdom.
  pose proof (lo_marks _ _ Hlog) as Hm.
  apply (store_change st R M _ a c c'); try done.
  - unfold is_closed in Hcl. by destruct (is_valid (c_info c')).
  - apply put_record_ok; [done| |done|].
    + pose proof (mk_safe_head _ Hm). pose proof (mk_head _ Hm). pose proof (mk_flushed _ Hm).
      pose proof (mk_safe_ro _ Hm). lia.
    + pose proof (mk_safe_ro _ Hm). lia.
  - intros k' r Hr. destruct (decide (k = k')) as [<-|Hne].
    + rewrite (newest_det _ _ _ _ _ _ Hr Hn), bind_key_eq. split; [apply value_of_insert_eq|].
      intros x d [= <-]. rewrite lookup_insert_eq. by intros [= <-].
    + rewrite bind_key_ne by done. destruct (so_map _ _ _ Hok k' r Hr) as [Ev Eo].
      assert (r <> Some a).
      { intros ->. apply newest_cell in Hr as (_ & d & Hd & Ek'). apply newest_cell in Hn as (_ & d' & Hd' & Ek).
        apply Hne. congruence. }
      split; [by rewrite value_of_insert_ne|by apply open_at_insert_ne].
Qed.

(** A superseded record sealed, wherever it resides. *)
Lemma store_seal_stale st R M k a c : store_ok st R M -> R !! a = Some c -> c_key c = k ->
  ~ newest R (begin_address (st_log st)) k (start (st_index st) k) (Some a) ->
  Floor <= a -> closed_until_address (st_log st) <= a ->
  let c' := c_set_info c (snd (try_seal (c_info c))) in
  modify st a (fun w => snd (try_seal w)) = Some (write_record st a c') /\
  previous_address (c_info c') = previous_address (c_info c) /\
  store_ok (write_record st a c') (<[a := c']> R) M.
Proof.
  intros Hok Ha Hk Hn Hfl Hcl c'. pose proof (so_log _ _ _ Hok) as Hlog.
  pose proof (lo_dom _ _ Hlog a c Ha) as Hdom. pose proof (tl_off _ (lo_tail _ _ Hlog)) as Hto.
  assert (Hrec : record_at (st_log st) a = Some c).
  { rewrite (lo_mem _ _ Hlog); [done..|]. unfold tail_pos in Hdom. lia. }
  unfold modify. rewrite Hrec. cbn [mbind option_bind].
  split; [done|].
  destruct (so_cells _ _ _ Hok _ _ Ha) as (Hcok & _).
  assert (Hview : c_info c' = c_info c \/ c_info c' = Z.lor (c_info c) SEALED_BIT).
  { unfold c'. simpl. rewrite try_seal_view. destruct (_ && _); [by right|by left]. }
  assert (Hbits : view (c_info c') = view (c_info c) \/
    view (c_info c') = view (Z.lor (c_info c) SEALED_BIT)) by (destruct Hview as [-> | ->]; auto).
  assert (Hp : previous_address (c_info c') = previous_address (c_info c)).
  { destruct Hbits as [E|E]; [|rewrite view_lor_sealed in E]; injection E as E _; exact E. }
  assert (Hv : in_new_version (c_info c') = in_new_version (c_info c)).
  { destruct Hbits as [E|E]; [|rewrite view_lor_sealed in E]; injection E; intros; done. }
  assert (Hval : is_valid (c_info c') = true).
  { rewrite <- (ip_valid _ _ _ _ (ti_rec _ _ (ly_tiled _ _ (so_layout _ _ _ Hok)) _ _ Ha)).
    destruct Hbits as [E|E]; [|rewrite view_lor_sealed in E]; injection E; intros; done. }
  assert (Hok' : cell_ok c').
  { destruct Hcok as (Hu & ? & ? & ? & ?). split_and!; try done.
    destruct Hview as [-> | ->]; [done|]. apply lor_u64; [done|]. unfold is_u64, two64, SEALED_BIT. lia. }
  split; [exact Hp|]. apply (store_change st R M M a c c'); try done.
  - apply put_record_ok; [done|done|done|]. intros _. rewrite Ha. simpl. f_equal.
    unfold unseal_img, c_set_info. f_equal. destruct Hview as [E|E]; rewrite E; [done|].
    apply word_eq. intros n Hn'. info_bits.
  - intros k' r Hr. destruct (so_map _ _ _ Hok k' r Hr) as [Ev Eo].
    assert (r <> Some a).
    { intros ->. pose proof Hr as (_ & d & Hd & Ek')%newest_cell. simplify_eq. by apply Hn. }
    split; [by rewrite value_of_insert_ne|by apply open_at_insert_ne].
Qed.

(** The key's chain starts where its slot points. *)
Lemma start_slot ix k slot w : find_tag ix (hash64 k) = Some (Some slot) -> slot_load ix slot = Some w ->
  start ix k = entry_address w.
Proof. intros Hf Hw. unfold start. by rewrite (entry_word_found _ _ _ Hf), Hw. Qed.

Lemma same_pair_entry ix k k' : same_pair ix k k' -> entry_word ix (hash64 k') = entry_word ix (hash64 k).
Proof. intros [= E1 E2]. unfold entry_word, find_tag. by rewrite E1, E2. Qed.

(** A record linked in front of its key's chain and published by the CAS. *)
Lemma store_publish st R M k slot w ix' l' n c : store_ok st R M ->
  find_tag (st_index st) (hash64 k) = Some (Some slot) -> slot_load (st_index st) slot = Some w ->
  slot_try_cas (st_index st) slot w n = Some (true, ix') -> 0 < n < 2 ^ 48 ->
  c_key c = k -> previous_address (c_info c) = entry_address w -> is_closed (c_info c) = false -> cell_ok c ->
  (forall b, n <= b -> R !! b = None) -> begin_address (st_log st) <= n -> entry_address w < n ->
  log_ok l' (<[n := c]> R) -> lively l' -> begin_address l' = begin_address (st_log st) ->
  head_address (st_log st) <= head_address l' ->
  (phase (system_state st) = Prepare -> in_new_version (c_info c) = false) -> layout l' (<[n := c]> R) ->
  store_ok (set_log (set_index st ix') l') (<[n := c]> R)
    (bind_key k (if is_tombstone (c_info c) then None else Some c) M).
Proof.
  intros Hok Hf Hw Hcas Hn48 Hk Hp Hcl Hc Hfresh Hbn Hlt Hlog Hliv Hb Hh Hcpr Hlay.
  pose proof (so_table _ _ _ Hok) as Ht. pose proof (so_entries _ _ _ Hok) as He.
  destruct (slot_try_cas_spec (st_index st) (hash64 k) slot w n Ht He (hash64_u64 k) Hf Hw Hn48)
    as (ix1 & E1 & Ht' & He' & Hmask & _ & _ & Hw' & Hfind & Hoth & _).
  assert (ix1 = ix') as -> by congruence. clear E1.
  set (b := begin_address (st_log st)) in *.
  assert (HRn : R !! n = None) by (apply Hfresh; lia).
  pose proof (same_links_fresh R n c HRn) as Hsl.
  assert (Hpair : forall k', same_pair (st_index st) k k' -> start (st_index st) k' = entry_address w /\ start ix' k' = n).
  { intros k' Hs. split.
    - unfold start. rewrite (same_pair_entry _ _ _ Hs). rewrite <- (start_slot _ _ _ _ Hf Hw). done.
    - unfold start. rewrite (same_pair_entry ix' k k').
      + rewrite (entry_word_found ix' (hash64 k) slot), Hw'; [by apply entry_address_make; lia|].
        rewrite Hfind; [done|apply hash64_nonneg].
      + unfold same_pair, bucket_index in *. by rewrite Hmask. }
  assert (Hsame : forall k', ~ same_pair (st_index st) k k' -> start ix' k' = start (st_index st) k').
  { intros k' Hs. unfold start. f_equal. unfold entry_word. rewrite Hfind by apply hash64_nonneg.
    destruct (find_tag (st_index st) (hash64 k')) as [[s'|]|] eqn:E; try done.
    rewrite (Hoth (hash64 k') s'); [done|apply hash64_nonneg|done|exact Hs]. }
  assert (Hup : forall y, start_ok R b y -> start_ok (<[n := c]> R) b y).
  { intros y [|[d Hy]]; [by left|right]. destruct (Hsl _ _ Hy) as (d' & ? & _). by exists d'. }
  pose proof (so_start _ _ _ Hok k) as Hsk. rewrite (proj1 (Hpair k eq_refl)) in Hsk. fold b in Hsk.
  assert (Hmap : forall k' a r, newest R b k' a r -> r <> Some n).
  { intros k' a r Hr ->. apply newest_cell in Hr as (_ & d & Hd & _). congruence. }
  split; cbn [st_log st_index set_log set_index]; rewrite ?Hb; fold b; try assumption.
  - pose proof (so_begin _ _ _ Hok). fold b in H. lia.
  - apply cells_ok_insert; [apply (so_cells _ _ _ Hok)|done|by rewrite Hp|by rewrite Hp].
  - intros k'. destruct (decide (same_pair (st_index st) k k')) as [Hs|Hs].
    + rewrite (proj2 (Hpair k' Hs)). right. rewrite lookup_insert_eq. by eexists.
    + rewrite Hsame by done. apply Hup, (so_start _ _ _ Hok).
  - intros k' r Hr. destruct (so_newest _ _ _ k' Hok) as (r0 & Hr0 & Hv0 & Ho0). fold b in Hr0.
    pose proof (Hmap _ _ _ Hr0) as Hne0.
    destruct (decide (k = k')) as [<-|Hne].
    + rewrite (proj2 (Hpair k eq_refl)) in Hr. rewrite bind_key_eq.
      assert (r = Some n) as ->.
      { eapply newest_det; [exact Hr|]. eapply newest_hit; [done|apply lookup_insert_eq|done]. }
      split; [apply value_of_insert_eq|]. intros x d [= <-]. rewrite lookup_insert_eq. by intros [= <-].
    + rewrite bind_key_ne by done. assert (r = r0) as ->.
      { eapply newest_det; [exact Hr|]. destruct (decide (same_pair (st_index st) k k')) as [Hs|Hs].
        - rewrite (proj2 (Hpair k' Hs)). eapply newest_next; [done|apply lookup_insert_eq|by rewrite Hk|].
          rewrite Hp, <- (proj1 (Hpair k' Hs)). by eapply newest_mono.
        - rewrite Hsame by done. by eapply newest_mono. }
      split; [by rewrite value_of_insert_ne|by apply open_at_insert_ne].
  - intros Hph a d. destruct (decide (n = a)) as [<-|].
    + rewrite lookup_insert_eq. intros [= <-]. unfold record_in_new_version. by rewrite (Hcpr Hph).
    + rewrite lookup_insert_ne by done. by apply (so_cpr _ _ _ Hok Hph).
  - intros a d [[<- <-]|[Hne Ha]]%lookup_insert_Some; [by rewrite (proj2 (Hpair (c_key c) ltac:(by rewrite Hk)))|].
    destruct (decide (same_pair (st_index st) k (c_key d))) as [Hs|Hs].
    + rewrite (proj2 (Hpair _ Hs)). destruct (Z.lt_ge_cases n a); [|done]. rewrite Hfresh in Ha; [done|lia].
    + rewrite Hsame by done. by apply (so_head _ _ _ Hok).
  - intros k' Hk'. destruct (decide (same_pair (st_index st) k k')) as [Hs|Hs].
    + rewrite (proj2 (Hpair k' Hs)), lookup_insert_eq. exists c. split; [done|]. rewrite Hk.
      unfold same_pair, bucket_index in *. by rewrite Hmask.
    + rewrite Hsame in Hk' |- * by done. destruct (so_entry _ _ _ Hok k' Hk') as (d & Hd & Hp').
      exists d. rewrite lookup_insert_ne by (intros E; rewrite E in HRn; congruence). split; [done|].
      unfold same_pair, bucket_index in *. by rewrite Hmask.
Qed.

(** Whether a key has an entry, or there is room for one. *)
Definition indexed (ix : HashIndex) (k : bytes) : Prop := is_Some (entry_word ix (hash64 k)).
Definition indexable (ix : HashIndex) (k : bytes) : Prop :=
  indexed ix k \/ overflow_next ix <= Z.of_nat (length (overflow ix)).

Lemma indexed_found ix k : indexed ix k -> exists s, find_tag ix (hash64 k) = Some (Some s).
Proof. intros [w Hw]. unfold entry_word in Hw. destruct (find_tag ix (hash64 k)) as [[s|]|]; [by exists s|done..]. Qed.
Lemma found_indexed ix k s : table_ok ix -> find_tag ix (hash64 k) = Some (Some s) -> indexed ix k.
Proof.
  intros Hok Hf. unfold indexed. rewrite (entry_word_found _ _ _ Hf).
  destruct (find_tag_loads ix (hash64 k) s Hok (hash64_nonneg k) Hf) as (w & -> & _). by eexists.
Qed.

Lemma indexed_or_not ix k : indexed ix k \/ ~ indexed ix k.
Proof. unfold indexed. destruct (entry_word ix (hash64 k)) as [w|]; [left; by eexists|right; by intros [??]]. Qed.

(** What an operation on [k] takes from the overflow arena: nothing if the key
    has an entry, at most one bucket to create it. *)
Record arena (k : bytes) (ix ix' : HashIndex) : Prop := {
  ar_length : length (overflow ix') = length (overflow ix);
  ar_indexed : indexed ix k -> indexed ix' k;
  ar_next : overflow_next ix' = overflow_next ix \/
    ~ indexed ix k /\ indexed ix' k /\ overflow_next ix' <= overflow_next ix + 1 }.

#[export] Instance arena_preorder k : PreOrder (arena k).
Proof.
  split; [by split; [..|left]|]. intros x y z [L1 I1 N1] [L2 I2 N2]. split; [congruence|auto|].
  destruct N1 as [E1|(H1 & H1' & E1)], N2 as [E2|(H2 & H2' & E2)]; [left; congruence|right..|tauto].
  - split_and!; [auto|done|lia].
  - split_and!; [done|auto|lia].
Qed.

Lemma arena_le k ix ix' : arena k ix ix' -> overflow_next ix' <= overflow_next ix + 1.
Proof. intros [_ _ [E|(_ & _ & E)]]; lia. Qed.

Definition same_arena (ix ix' : HashIndex) : Prop :=
  length (overflow ix') = length (overflow ix) /\ overflow_next ix' = overflow_next ix.
Lemma same_arena_arena k ix ix' : same_arena ix ix' -> (indexed ix k -> indexed ix' k) -> arena k ix ix'.
Proof. intros [H1 H2] H3. split; [done|done|by left]. Qed.
Lemma store_word_arena ix b i w : same_arena ix (store_word ix b i w).
Proof. destruct (store_word_meta ix b i w) as (_ & ? & _ & ?). done. Qed.

(** What an operation on [k] may take from the store: one page, one bucket. *)
Definition spent (k : bytes) (st st' : Store) : Prop :=
  tail_page (st_log st') <= tail_page (st_log st) + 1 /\ arena k (st_index st) (st_index st').

Lemma spent_refl k st : spent k st st.
Proof. split; [lia|reflexivity]. Qed.
Lemma spent_same k st st' : st_index st' = st_index st -> tail_page (st_log st') = tail_page (st_log st) -> spent k st st'.
Proof. intros Ei Et. split; [lia|by rewrite Ei]. Qed.
(** A step that allocates no record comes before, or after. *)
Lemma spent_before k st st1 st' : tail_page (st_log st1) = tail_page (st_log st) ->
  arena k (st_index st) (st_index st1) -> spent k st1 st' -> spent k st st'.
Proof. intros Et Ha [H1 H2]. split; [lia|by etransitivity]. Qed.
Lemma spent_after k st st1 st' : tail_page (st_log st') = tail_page (st_log st1) ->
  arena k (st_index st1) (st_index st') -> spent k st st1 -> spent k st st'.
Proof. intros Et Ha [H1 H2]. split; [lia|by etransitivity]. Qed.

(** [find_or_create_tag] adds at most an entry whose chain is empty. *)
Lemma store_find_or_create st R M k fuel : store_ok st R M -> indexable (st_index st) k ->
  exists slot ix', find_or_create_tag (S fuel) (st_index st) (hash64 k) = Some (slot, ix') /\
    store_ok (set_index st ix') R M /\ find_tag ix' (hash64 k) = Some (Some slot) /\
    mask ix' = mask (st_index st) /\
    (start ix' k = start (st_index st) k \/
     start ix' k < begin_address (st_log st) /\ start (st_index st) k < begin_address (st_log st)) /\
    (forall k', indexed (st_index st) k' -> indexed ix' k') /\
    (forall b, latch_bits ix' b = latch_bits (st_index st) b) /\
    arena k (st_index st) ix'.
Proof.
  intros Hok Hroom. pose proof Hok as [Hlo Hli Hbe Hta Hen Hce Hst Hma Hcp Hla Hhd Hent].
  destruct (indexed_or_not (st_index st) k) as [[slot Hf]%indexed_found|Hno].
  { exists slot, (st_index st). rewrite (find_or_create_tag_hit _ _ _ _ Hf). split; [done|].
    split; [by apply store_set_index|]. split_and!; auto. reflexivity. }
  destruct Hroom as [|Hroom]; [done|].
  destruct (find_or_create_tag_entry_word (st_index st) (hash64 k) fuel Hta Hen (hash64_u64 k) Hroom)
    as (slot & ix' & Hrun & Hta' & Hen' & Hmask & _ & Hf & Hw & Hoth & Hl).
  destruct (find_or_create_tag_room (st_index st) (hash64 k) fuel slot ix' Hta Hen (hash64_u64 k) Hroom Hrun) as [Hnext Hlen].
  exists slot, ix'. split; [done|].
  unfold FIRST_VALID_ADDRESS, PAGE_HEADER_SIZE in *. set (b := begin_address (st_log st)) in *.
  assert (Hpair : forall k', same_pair (st_index st) k k' -> entry_word ix' (hash64 k') = entry_word ix' (hash64 k)).
  { intros k' Hs. apply same_pair_entry. unfold same_pair, bucket_index in *. by rewrite Hmask. }
  assert (Hs : forall k', start ix' k' = start (st_index st) k' \/
    (start ix' k' < b /\ start (st_index st) k' = INVALID_ADDRESS)).
  { intros k'. destruct (decide (same_pair (st_index st) k k')) as [Hs|Hs].
    - unfold start. rewrite (same_pair_entry _ _ _ Hs), (Hpair _ Hs), Hw.
      destruct (entry_word (st_index st) (hash64 k)) as [w|]; [by left|right]. cbn [default].
      rewrite entry_address_make by (unfold TEMP_INVALID_ADDRESS; lia).
      unfold TEMP_INVALID_ADDRESS. split; [lia|done].
    - left. unfold start. by rewrite (Hoth (hash64 k') (hash64_nonneg k') Hs). }
  assert (Hi : INVALID_ADDRESS < b) by (unfold INVALID_ADDRESS; lia).
  split; [|split_and!; try done].
  2: { destruct (Hs k) as [E|[E1 E2]]; [by left|right]. rewrite E2. by split. }
  2: { intros k' Hk'. unfold indexed in *. destruct (decide (same_pair (st_index st) k k')) as [Hq|Hq].
       - rewrite (Hpair _ Hq), Hw. by eexists.
       - by rewrite (Hoth (hash64 k') (hash64_nonneg k') Hq). }
  2: { assert (Hik : indexed ix' k) by (unfold indexed; rewrite Hw; by eexists). split; [done|done|right; done]. }
  split; cbn [st_log st_index set_index]; fold b; try assumption.
  - intros k'. destruct (Hs k') as [-> |[? _]]; [apply Hst|by left].
  - intros k' r Hr. destruct (Hs k') as [E|[E1 E2]]; [rewrite E in Hr; by apply Hma|].
    apply Hma. assert (r = None) as -> by (eapply newest_det; [exact Hr|by apply newest_end]).
    apply newest_end. by rewrite E2.
  - intros a c Ha. pose proof (Hhd a c Ha) as Hac. destruct (Hs (c_key c)) as [-> |[_ E2]]; [done|].
    rewrite E2 in Hac. pose proof (lo_dom _ _ Hlo _ _ Ha). unfold INVALID_ADDRESS, FIRST_VALID_ADDRESS, PAGE_HEADER_SIZE in *. lia.
  - intros k' Hk'. destruct (Hs k') as [E|[E1 _]]; [rewrite E in Hk' |- *|lia].
    unfold same_pair, bucket_index. rewrite Hmask. by apply Hent.
Qed.

(** ** Allocating a record *)

(** The log has room for one more page, within the 48-bit address space. *)
Definition room (l : HybridLog) : Prop :=
  tail_page l + 1 < 2 ^ 31 /\ (tail_page l + 2) * page_size l <= 2 ^ 48.
(** A record of this size can be laid out. *)
Definition fits (l : HybridLog) (size : RecordSizeInfo) : Prop :=
  size_ok size /\ total_size_of size + PAGE_HEADER_SIZE <= page_size l.
(** The attempt was refused by the log, and gets closer to success. *)
Definition refused (l l1 : HybridLog) : Prop :=
  tail_page l1 = tail_page l /\
  forall n l2, stage l n -> settled l2 -> moved l1 l2 -> n <> O /\ stage l2 (pred n).

(** What no attempt changes, and what it may move. *)
Record step_ok (st st' : Store) : Prop := {
  sk_state : st_state st' = st_state st;
  sk_ckpt : checkpoint_start_address st' = checkpoint_start_address st;
  sk_latch : forall b, latch_bits (st_index st') b = latch_bits (st_index st) b;
  sk_indexed : forall k, indexed (st_index st) k -> indexed (st_index st') k;
  sk_begin : begin_address (st_log st') = begin_address (st_log st);
  sk_head : head_address (st_log st) <= head_address (st_log st');
  sk_bits : page_bits (st_log st') = page_bits (st_log st);
  sk_log : lively_step (st_log st) (st_log st') }.

Lemma step_ok_refl st : lively (st_log st) -> step_ok st st.
Proof. intros. split; try reflexivity; [done|by apply lively_step_refl]. Qed.
Lemma step_ok_trans s1 s2 s3 : step_ok s1 s2 -> step_ok s2 s3 -> step_ok s1 s3.
Proof.
  intros [] []. split; [congruence|congruence| |auto|congruence|lia|congruence|by eapply lively_step_trans].
  intros b. congruence.
Qed.

Lemma put_record_lively l a c : lively l -> lively_step l (put_record l a c).
Proof. by apply lively_ext. Qed.

Lemma step_ok_write st a c : lively (st_log st) -> step_ok st (write_record st a c).
Proof. intros. split; try reflexivity; [done|by apply put_record_lively]. Qed.

(** What a successful allocation hands out. *)
Record allocated (l : HybridLog) (R : gmap Z cell) (l' : HybridLog) (n prev sz : Z) (c : cell) : Prop := {
  al_log : log_ok l' (<[n := c]> R);
  al_rec : record_at l' n = Some c;
  al_prev : prev < n;
  al_begin : begin_address l <= n;
  al_range : 0 < n < 2 ^ 48;
  al_fresh : forall b, n <= b -> R !! b = None;
  al_safe : safe_read_only_address l' <= n;
  al_dom : n < tail_pos l';
  al_tail : tail_pos l <= n /\ tail_pos l' = n + sz;
  al_place : n = tail_pos l /\ tail_off l < page_size l /\ tail_page l' = tail_page l \/
    n = (tail_page l + 1) * page_size l + FIRST_VALID_ADDRESS /\ tail_page l' = tail_page l + 1 }.

Lemma dom_start l R b y : log_ok l R -> b <= tail_pos l -> start_ok R b y -> y < tail_pos l.
Proof. intros Hok Hb [|[c Hc]]; [lia|]. pose proof (lo_dom _ _ Hok _ _ Hc). lia. Qed.

Lemma log_begin_tail l R : log_ok l R -> begin_address l <= head_address l -> begin_address l <= tail_pos l.
Proof.
  intros Hok Hb. pose proof (lo_marks _ _ Hok) as Hm. pose proof (mk_flushed _ Hm). pose proof (mk_safe_ro _ Hm).
  pose proof (mk_ro _ Hm). pose proof (mk_tail _ Hm). lia.
Qed.

Lemma allocate_record_spec l R state size k prev : log_ok l R -> lively l ->
  FIRST_VALID_ADDRESS <= begin_address l <= head_address l -> start_ok R (begin_address l) prev ->
  room l -> fits l size ->
  exists a l', allocate_record (alloc_fuel prev) l state size k prev = Some (a, l') /\
    lively_step l l' /\ begin_address l' = begin_address l /\ head_address l <= head_address l' /\
    page_bits l' = page_bits l /\
    match a with
    | None => log_ok l' R /\ refused l l' /\ tail_pos l <= tail_pos l' /\ tail_off l' = page_size l'
    | Some n => allocated l R l' n prev (total_size_of size) (c_init prev (sys_in_new_version state) size k)
    end.
Proof.
  intros Hok Hl Hb Hp [Hr1 Hr2] [Hso Hfit]. pose proof (total_size_pos size Hso) as Hpos.
  unfold alloc_fuel. cbn [allocate_record]. unfold SPINS. cbn [try_allocate_retry_now].
  destruct (try_allocate_ok l R (total_size_of size) Hok Hpos Hfit Hr1)
    as (r & l1 & E & Hok1 & Hpost & Hh1 & _ & Hb1 & _).
  destruct (try_allocate_live l R (total_size_of size) r l1 Hok Hl Hpos Hfit Hr1 E)
    as (Hs1 & (Epb & _ & _) & Htp & Hrl).
  rewrite E. cbn [mbind option_bind]. destruct r as [n| |]; cbn [alloc_post] in Hpost; [|done|].
  2: { exists None, l1. split; [done|]. split_and!; try done.
       - split; [by apply Hrl|]. intros n l2 Hst Hset Hm.
         by apply (refused_then_bumped l R n l1 l2 (total_size_of size)).
       - pose proof (tl_off _ (lo_tail _ _ Hok)). rewrite (proj1 Hpost). unfold tail_pos. lia.
       - destruct (Hrl eq_refl) as [Ep _]. destruct Hpost as [Hpost _]. unfold tail_pos, page_size in *.
         rewrite Ep, Epb in *. lia. }
  destruct Hpost as (Hn & Htn & _ & Hron & _ & Hfresh & Hplace).
  pose proof (log_begin_tail l R Hok ltac:(lia)) as Hbt.
  pose proof (dom_start l R _ prev Hok Hbt Hp) as Hpt.
  cbn [mbind option_bind]. destruct (Z.leb_spec n prev); [lia|].
  set (c := c_init prev (sys_in_new_version state) size k).
  exists (Some n), (put_record l1 n c). split; [done|].
  split; [eapply lively_step_trans; [exact Hs1|by apply put_record_lively, Hs1]|].
  split; [done|]. split; [done|]. split; [done|].
  pose proof (lo_marks _ _ Hok1) as Hm1. unfold FIRST_VALID_ADDRESS, PAGE_HEADER_SIZE in *.
  assert (Hdom : 64 <= n < tail_pos l1) by lia.
  split; try assumption; try lia.
  - apply put_record_ok; [done| |unfold FIRST_VALID_ADDRESS, PAGE_HEADER_SIZE; lia|].
    + pose proof (mk_safe_head _ Hm1). pose proof (mk_head _ Hm1). pose proof (mk_flushed _ Hm1).
      pose proof (mk_safe_ro _ Hm1). pose proof (mk_ro _ Hm1). lia.
    + pose proof (mk_safe_ro _ Hm1). pose proof (mk_ro _ Hm1). lia.
  - unfold record_at, put_record. simpl. apply lookup_insert_eq.
  - split; [lia|]. pose proof (tl_off _ (lo_tail _ _ Hok1)) as Hto.
    assert (Eps : page_size l1 = page_size l) by (unfold page_size; by rewrite Epb).
    unfold tail_pos in Hdom. rewrite Eps in *.
    pose proof (page_size_pos l (config_bits _ (lo_config _ _ Hok))). nia.
  - change (safe_read_only_address (put_record l1 n c)) with (safe_read_only_address l1).
    pose proof (mk_ro _ Hm1). lia.
  - change (tail_pos (put_record l1 n c)) with (tail_pos l1). lia.
  - change (tail_pos (put_record l1 n c)) with (tail_pos l1). lia.
Qed.

(** ** Latching *)

(** Nobody holds a bucket latch. *)
Definition latch_free (ix : HashIndex) : Prop :=
  forall bi, is_Some (latch_word ix bi) -> latch_bits ix (Main bi) = Some 0.

Lemma latch_free_word ix bi w : table_ok ix -> latch_free ix -> latch_word ix bi = Some w ->
  w = latch_make w 0 false /\ latch_fields_ok w 0 /\ latch_fields_ok w 1.
Proof.
  intros Hok Hf Hw. pose proof (ok_word _ Hok _ _ Hw) as Hu.
  pose proof (Hf bi ltac:(by eexists)) as Hb. unfold latch_bits in Hb. unfold latch_word in Hw.
  rewrite Hw in Hb. cbn [mbind option_bind] in Hb. injection Hb as Hb.
  assert (Hlt : w < 2 ^ 48).
  { unfold is_u64 in Hu. apply bits_lt_pow2; [lia|lia|]. intros n Hn.
    pose proof (f_equal (fun x => Z.testbit x n) Hb) as E. cbv beta in E.
    unfold ADDRESS_MASK in E. rewrite Z.land_spec, testbit_not64, testbit_ones, Z.bits_0 in E by lia.
    destruct (Z.ltb_spec n 64); [|by apply testbit_u64].
    destruct (Z.leb_spec 0 n), (Z.ltb_spec n 48); try lia. simpl in E. by rewrite andb_true_r in E. }
  unfold is_u64 in Hu. unfold latch_make, latch_fields_ok. split_and!; try lia. simpl. lia.
Qed.

Lemma latch_make_u64 p c x : latch_fields_ok p c -> is_u64 (latch_make p c x).
Proof. intros [? ?]. unfold is_u64, two64, latch_make. destruct x; simpl; lia. Qed.

Lemma store_set_latch st R M bi w w' : store_ok st R M -> latch_word (st_index st) bi = Some w ->
  Z.land w' ADDRESS_MASK = Z.land w ADDRESS_MASK -> is_u64 w' ->
  store_ok (set_index st (set_latch_word (st_index st) bi w')) R M.
Proof.
  intros Hok Hw Hp Hu. pose proof (so_table _ _ _ Hok) as Ht. pose proof (so_entries _ _ _ Hok) as He.
  apply store_set_index; [done|by eapply set_latch_table|by eapply set_latch_entries|done|].
  intros h Hh. by eapply set_latch_entry_word.
Qed.

Lemma same_latch_bits w p c x : is_u64 w -> latch_fields_ok p c ->
  Z.land w (not64 ADDRESS_MASK) = Z.land (latch_make p c x) (not64 ADDRESS_MASK) ->
  w = latch_make (Z.land w ADDRESS_MASK) c x /\ latch_fields_ok (Z.land w ADDRESS_MASK) c.
Proof.
  intros Hu Hf E. assert (Hf' : latch_fields_ok (Z.land w ADDRESS_MASK) c).
  { split; [apply land_ones_bound; lia|apply Hf]. }
  split; [|done]. apply word_eq. intros n Hn. rewrite testbit_latch by done.
  pose proof (f_equal (fun v => Z.testbit v n) E) as En. cbv beta in En. unfold ADDRESS_MASK in *.
  rewrite !Z.land_spec, !testbit_not64, !testbit_ones, testbit_latch in En by done. rewrite Z.land_spec, testbit_ones by lia.
  destruct (Z.leb_spec 0 n); [|lia].
  destruct (Z.ltb_spec n 48); simpl in *; [by rewrite andb_true_r|].
  destruct (Z.ltb_spec n 64); simpl in En; [by rewrite !andb_true_r in En|].
  rewrite testbit_u64 by done. destruct (Z.ltb_spec n 63); [lia|]. destruct (Z.eqb_spec n 63); [lia|done].
Qed.

Lemma latch_bits_set ix bi w w' b : latch_word ix bi = Some w ->
  latch_bits (set_latch_word ix bi w') b = if decide (b = Main bi) then Some (Z.land w' (not64 ADDRESS_MASK))
                                           else latch_bits ix b.
Proof.
  intros Hw. unfold latch_bits, set_latch_word, latch_word in *. case_decide as E; [subst b|].
  - by rewrite (load_store_eq _ _ _ _ _ Hw).
  - rewrite load_store_ne; [done|]. intros [Hb _]. by apply E.
Qed.

(** The bracket a free latch puts around [body]: it is entered with the same
    map and the same entries, and whatever it preserves is preserved. *)
Lemma latch_run {A} txn bi excl st R M (busy : A) body : store_ok st R M ->
  (txn = false -> latch_free (st_index st)) -> is_Some (latch_word (st_index st) bi) ->
  exists st1, store_ok st1 R M /\ st_log st1 = st_log st /\ st_state st1 = st_state st /\
    checkpoint_start_address st1 = checkpoint_start_address st /\
    (forall h, 0 <= h -> find_tag (st_index st1) h = find_tag (st_index st) h /\
       entry_word (st_index st1) h = entry_word (st_index st) h) /\
    same_arena (st_index st) (st_index st1) /\
    forall r st2, body st1 = Some (r, st2) ->
      (forall b, latch_bits (st_index st2) b = latch_bits (st_index st1) b) -> table_ok (st_index st2) ->
      exists st', latch txn bi excl st busy body = Some (r, st') /\ st_log st' = st_log st2 /\
        st_state st' = st_state st2 /\ checkpoint_start_address st' = checkpoint_start_address st2 /\
        (forall b, latch_bits (st_index st') b = latch_bits (st_index st) b) /\
        (forall h, 0 <= h -> entries_ok (st_index st2) -> entry_word (st_index st') h = entry_word (st_index st2) h) /\
        same_arena (st_index st2) (st_index st') /\
        (forall R' M', store_ok st2 R' M' -> store_ok st' R' M').
Proof.
  intros Hok Hfree [w Hw]. unfold latch. destruct txn.
  { exists st. split_and!; try done. intros r st2 -> Hl _. exists st2. by split_and!. }
  destruct (latch_free_word _ _ _ (so_table _ _ _ Hok) (Hfree eq_refl) Hw) as (Ew & Hf0 & Hf1).
  set (w1 := latch_make w (if excl then 0 else 1) excl).
  assert (Hlock : (if excl then try_lock_exclusive (st_index st) bi else try_lock_shared (st_index st) bi) =
    Some (true, set_latch_word (st_index st) bi w1)).
  { unfold try_lock_exclusive, try_lock_shared, w1. rewrite Hw. cbn [mbind option_bind].
    rewrite lock_shared_spin_spec, acquire_exclusive_spin_spec by (unfold MAX_LOCK_SPINS; lia).
    assert (Hx : has_exclusive w = false) by (rewrite Ew; by apply latch_has_exclusive).
    assert (Hs : shared_full w = false) by (rewrite Ew, latch_full by done; done).
    rewrite Hx, Hs. destruct excl; cbn [orb].
    - assert (El : Z.lor w EXCLUSIVE_BIT = latch_make w 0 true) by (rewrite Ew at 1; by apply latch_set_exclusive).
      rewrite El, drain_readers_spin_spec, latch_no_readers
        by (done || unfold MAX_READER_DRAIN_SPINS; lia). done.
    - by do 3 f_equal. }
  assert (Hfx : latch_fields_ok w (if excl then 0 else 1)) by (by destruct excl).
  assert (Hp1 : Z.land w1 ADDRESS_MASK = Z.land w ADDRESS_MASK).
  { unfold w1. rewrite latch_ptr by done. rewrite previous_address_small; [done|apply Hf0]. }
  set (st1 := set_index st (set_latch_word (st_index st) bi w1)).
  assert (Hok1 : store_ok st1 R M) by (eapply store_set_latch; [done..|by apply latch_make_u64]).
  assert (Hw1 : latch_word (st_index st1) bi = Some w1) by (by eapply latch_word_set).
  exists st1. rewrite Hlock. cbn [mbind option_bind]. fold st1. split_and!; try done.
  { intros h Hh. pose proof (so_table _ _ _ Hok) as Ht. pose proof (so_entries _ _ _ Hok) as He.
    pose proof (latch_make_u64 w (if excl then 0 else 1) excl Hfx) as Hu1.
    split; [by eapply set_latch_find|by eapply set_latch_entry_word]. }
  intros r st2 -> Hl Ht2. cbn [mbind option_bind].
  assert (Hb1 : latch_bits (st_index st1) (Main bi) = Some (Z.land w1 (not64 ADDRESS_MASK)))
    by (unfold latch_bits; unfold latch_word in Hw1; by rewrite Hw1).
  pose proof (Hl (Main bi)) as Hl2. rewrite Hb1 in Hl2.
  destruct (latch_word (st_index st2) bi) as [w2|] eqn:Hw2; [|unfold latch_bits in Hl2; unfold latch_word in Hw2; by rewrite Hw2 in Hl2].
  assert (Hb2 : Z.land w2 (not64 ADDRESS_MASK) = Z.land w1 (not64 ADDRESS_MASK)).
  { unfold latch_bits in Hl2. unfold latch_word in Hw2. rewrite Hw2 in Hl2. cbn [mbind option_bind] in Hl2. congruence. }
  destruct (same_latch_bits w2 _ _ _ (ok_word _ Ht2 _ _ Hw2) Hfx Hb2) as [Ew2 Hf2].
  set (p2 := Z.land w2 ADDRESS_MASK) in *.
  exists (set_index st2 (set_latch_word (st_index st2) bi (latch_make p2 0 false))).
  assert (Hun : (if excl then unlock_exclusive (st_index st2) bi else unlock_shared (st_index st2) bi) =
    Some (set_latch_word (st_index st2) bi (latch_make p2 0 false))).
  { unfold unlock_exclusive, unlock_shared. rewrite Hw2. cbn [mbind option_bind]. rewrite Ew2. destruct excl.
    - by rewrite latch_clear_exclusive.
    - by rewrite latch_sub_reader by (done || lia). }
  rewrite Hun. cbn [mbind option_bind].
  assert (Hf20 : latch_fields_ok p2 0) by (destruct Hf2; by split).
  assert (Hp2 : Z.land (latch_make p2 0 false) ADDRESS_MASK = Z.land w2 ADDRESS_MASK) by (by rewrite latch_ptr).
  split_and!; try done.
  - intros b. cbn [st_index set_index]. rewrite (latch_bits_set _ _ _ _ _ Hw2). case_decide as E; [subst b|].
    + rewrite (Hfree eq_refl bi) by by eexists. f_equal.
      replace (latch_make p2 0 false) with p2 by (unfold latch_make; simpl; lia). unfold ADDRESS_MASK.
      apply word_eq. intros n Hn. rewrite Z.bits_0, Z.land_spec, testbit_not64, testbit_ones by lia.
      destruct (Z.ltb_spec n 48), (Z.leb_spec 0 n), (Z.ltb_spec n 64); try lia; simpl; rewrite ?andb_false_r; try done;
        rewrite (testbit_high p2 48) by (destruct Hf20; lia); done.
    + rewrite Hl. unfold st1. cbn [st_index set_index]. by rewrite (latch_bits_set _ _ _ _ _ Hw), decide_False.
  - intros h Hh He2. cbn [st_index set_index]. by eapply set_latch_entry_word; [..|exact Hw2|exact Hp2|by apply latch_make_u64|].
  - intros R' M' Hok2. eapply store_set_latch; [done|exact Hw2|exact Hp2|by apply latch_make_u64].
Qed.

End Store_invariant.
