(* ===== verification/StoreSpec.v ===== *)
(** * One attempt of each store operation, against the abstract map

    The effect of an operation on its key is a relation between the key's
    binding and output before and after, written with the application's
    callbacks.  Each [internal_*] attempt is shown to perform such an effect on
    its key and on no other, keeping the invariant, or to be refused by the log
    in a way the retry loop resolves. *)

From S2P Require Import Prelude Record Hash Index IndexSpec Latch Epoch Log LogSpec LogLive LogTiling Session Store StoreInv.

#[local] Opaque hash64.

Definition published (c : cell) : cell := c_set_info c (unseal_and_validate (c_info c)).
Definition modified (c : cell) : cell := c_set_info c (set_modified (c_info c)).

Section Effects.
Context {Input Out : Type} `{F : SessionFunctions Input Out}.
Variables (nv : bool) (k : bytes) (i : Input).

(** Effects: binding and output before, outcome ([None]: refused, to be
    retried), binding and output after.  [nv] is the version bit. *)
Inductive write_effect : Out -> option Status -> option cell -> Out -> Prop :=
| we_created prev c c' out out1 out' :
    initial_writer k i (c_init prev nv (upsert_size k i) k) out = Some (c, out1) ->
    post_initial_writer k i (published c) out1 = (c', out') ->
    write_effect out (Some Created) (Some c') out'.

Inductive upsert_effect : option cell -> Out -> option Status -> option cell -> Out -> Prop :=
| ue_in_place c c' out out' : in_place_writer k i c out = Some (true, c', out') ->
    upsert_effect (Some c) out (Some InPlaceUpdated) (Some (modified c')) out'
| ue_no_room c c' out out1 s v' out' : in_place_writer k i c out = Some (false, c', out1) ->
    write_effect out1 s v' out' -> upsert_effect (Some c) out s v' out'
| ue_no_room_refused c c' out out' : in_place_writer k i c out = Some (false, c', out') ->
    upsert_effect (Some c) out None (Some c') out'
| ue_blind v out s v' out' : write_effect out s v' out' -> upsert_effect v out s v' out'
| ue_refused v out : upsert_effect v out None v out.

Inductive initial_effect : Out -> option Status -> option cell -> Out -> Prop :=
| ie_skip out out' : need_initial_update k i out = (false, out') ->
    initial_effect out (Some NotFound) None out'
| ie_refused out out' : need_initial_update k i out = (true, out') -> initial_effect out None None out'
| ie_created prev c c' out out1 out2 out' : need_initial_update k i out = (true, out1) ->
    initial_updater k i (c_init prev nv (initial_size k i) k) out1 = Some (c, out2) ->
    post_initial_updater k i (published c) out2 = (c', out') ->
    initial_effect out (Some Created) (Some c') out'.

Inductive copy_effect : cell -> Out -> option Status -> option cell -> Out -> Prop :=
| ce_cancel c out out' : need_copy_update k i c out = (CancelCopy, out') ->
    copy_effect c out (Some Canceled) (Some c) out'
| ce_delete c out out1 : need_copy_update k i c out = (DeleteCopy, out1) ->
    copy_effect c out (Some Deleted) None (post_deleter k out1)
| ce_refused c d out out' : need_copy_update k i c out = (d, out') -> d <> CancelCopy ->
    copy_effect c out None (Some c) out'
| ce_copied prev c c1 c' out out1 out2 out' : need_copy_update k i c out = (Copy, out1) ->
    copy_updater k i c (c_init prev nv (copy_size k i c) k) out1 = Some (c1, out2) ->
    post_copy_updater k i (published c1) out2 = (c', out') ->
    copy_effect c out (Some CopyUpdated) (Some c') out'.

Inductive rmw_effect : option cell -> Out -> option Status -> option cell -> Out -> Prop :=
| re_updated c c' out out' : in_place_updater k i c out = Some (Updated, c', out') ->
    rmw_effect (Some c) out (Some InPlaceUpdated) (Some (modified c')) out'
| re_cancelled c c' out out' : in_place_updater k i c out = Some (Cancel, c', out') ->
    rmw_effect (Some c) out (Some Found) (Some c') out'
| re_deleted c c' out out' : in_place_updater k i c out = Some (DeleteNow, c', out') ->
    rmw_effect (Some c) out (Some Deleted) None (post_deleter k out')
| re_expired c c' out out1 s v' out' : in_place_updater k i c out = Some (Expired, c', out1) ->
    initial_effect out1 s v' out' -> rmw_effect (Some c) out s v' out'
| re_need_copy c c' out out1 s v' out' : in_place_updater k i c out = Some (NeedCopy, c', out1) ->
    copy_effect c' out1 s v' out' -> rmw_effect (Some c) out s v' out'
| re_copy c out s v' out' : copy_effect c out s v' out' -> rmw_effect (Some c) out s v' out'
| re_absent out s v' out' : initial_effect out s v' out' -> rmw_effect None out s v' out'
| re_refused v out : rmw_effect v out None v out.

Inductive delete_effect : option cell -> Out -> option Status -> option cell -> Out -> Prop :=
| de_absent out : delete_effect None out (Some NotFound) None out
| de_deleted c out : delete_effect (Some c) out (Some Deleted) None (post_deleter k out)
| de_refused v out : delete_effect v out None v out.

Inductive read_effect : option cell -> Out -> option Status -> option cell -> Out -> Prop :=
| rd_absent out : read_effect None out (Some NotFound) None out
| rd_found c b out out' : reader k i c out = Some (b, out') ->
    read_effect (Some c) out (Some (if b : bool then Found else NotFound)) (Some c) out'
| rd_refused v out : read_effect v out None v out.
End Effects.

(** ** Header words *)

Lemma view_fields w w' : view w = view w' ->
  previous_address w = previous_address w' /\ in_new_version w = in_new_version w' /\
  is_tombstone w = is_tombstone w' /\ is_closed w = is_closed w'.
Proof.
  intros E. injection E as E1 E2 E3 E4 _ E6. unfold is_closed. split_and!; congruence.
Qed.

Lemma info_u64_lor w b : is_u64 w -> 0 <= b < 2 ^ 64 -> is_u64 (Z.lor w b).
Proof. intros. apply lor_u64; [done|]. unfold is_u64, two64. lia. Qed.

Lemma set_modified_fields w : let w' := set_modified w in
  previous_address w' = previous_address w /\ in_new_version w' = in_new_version w /\
  is_tombstone w' = is_tombstone w /\ is_closed w' = is_closed w.
Proof.
  pose proof (view_set_modified w) as E. cbv zeta in *. unfold view in E. simpl in E.
  injection E as E1 E2 E3 E4 _ E6. unfold is_closed. split_and!; congruence.
Qed.

Lemma set_tombstone_fields w : let w' := set_tombstone w in
  previous_address w' = previous_address w /\ in_new_version w' = in_new_version w /\
  is_tombstone w' = true /\ is_closed w' = is_closed w.
Proof.
  pose proof (view_set_tombstone w) as E. cbv zeta in *. unfold view in E. simpl in E.
  injection E as E1 E2 E3 E4 _ E6. unfold is_closed. split_and!; congruence.
Qed.

Lemma publish_fields w : let w' := unseal_and_validate w in
  previous_address w' = previous_address w /\ in_new_version w' = in_new_version w /\
  is_tombstone w' = is_tombstone w /\ is_closed w' = false.
Proof.
  pose proof (view_unseal_and_validate w) as E. cbv zeta in *. unfold view in E. simpl in E.
  injection E as E1 E2 E3 E4 _ E6. unfold is_closed. rewrite E3, E6. by split_and!.
Qed.

Lemma c_init_fields prev nv size k : 0 <= prev < 2 ^ 48 ->
  let w := c_info (c_init prev nv size k) in
  previous_address w = prev /\ in_new_version w = nv /\ is_tombstone w = false.
Proof.
  intros Hp. cbn [c_init c_info]. pose proof (view_lor_sealed (info_new prev nv)) as E.
  rewrite view_info_new in E by done. unfold view in E. simpl in E. injection E as E1 E2 _ E4 _ _.
  by split_and!.
Qed.

Lemma cell_ok_info c w : cell_ok c -> is_u64 w -> cell_ok (c_set_info c w).
Proof. intros (_ & ? & ? & ? & ?) ?. by split_and!. Qed.
Lemma published_ok c : cell_ok c -> cell_ok (published c).
Proof.
  intros Hc. apply cell_ok_info; [done|]. apply land_u64_l, info_u64_lor; [apply Hc|unfold VALID_BIT; lia].
Qed.
Lemma modified_ok c : cell_ok c -> cell_ok (modified c).
Proof. intros Hc. apply cell_ok_info; [done|]. apply info_u64_lor; [apply Hc|unfold MODIFIED_BIT; lia]. Qed.
Lemma tombstoned_ok c : cell_ok c -> cell_ok (c_set_info c (set_tombstone (c_info c))).
Proof. intros Hc. apply cell_ok_info; [done|]. apply info_u64_lor; [apply Hc|unfold TOMBSTONE_BIT; lia]. Qed.

Section Attempts.
Context {fl : floor}.

(** ** Sizes *)

Lemma frame_total_size c c' : frame c c' -> c_total_size c' = c_total_size c.
Proof. intros (_ & Ek & Ec & Es). unfold c_total_size. by rewrite Ek, Ec, Es. Qed.
Lemma fresh_size prev nv size k c : key_len_of size = length k -> frame (c_init prev nv size k) c -> size_ok size ->
  c_total_size c = total_size_of size.
Proof.
  intros Hk Hf Hs. rewrite (frame_total_size _ _ Hf). destruct (c_init_sized prev nv size k Hk Hs) as (_ & Ec & Es & _).
  unfold c_total_size. cbn [c_init c_key] in *. rewrite Ec, Es, <- Hk. by destruct size.
Qed.

(** ** Pieces of an attempt *)

(** The phase the session has synchronised with. *)
Definition synced (st : Store) (se : Session) : Prop := se_state se = system_state st.

Lemma entry_address_range w : 0 <= entry_address w < 2 ^ 48.
Proof. apply land_ones_bound. lia. Qed.

Lemma write_after_write l R n cx c : log_ok l (<[n := cx]> R) -> closed_until_address l <= n ->
  FIRST_VALID_ADDRESS <= n < tail_pos l -> flushed_until_address l <= n ->
  log_ok (put_record l n c) (<[n := c]> R).
Proof.
  intros Hok H1 H2 H3. rewrite <- (insert_insert_eq R n c cx).
  apply put_record_ok; [done|done|done|lia].
Qed.

Lemma record_at_put l n c : record_at (put_record l n c) n = Some c.
Proof. unfold record_at, put_record. simpl. apply lookup_insert_eq. Qed.

(** A filled record linked and published: the key is bound to it. *)
Lemma append_record_spec st R M k slot w size n l' c : store_ok st R M ->
  find_tag (st_index st) (hash64 k) = Some (Some slot) -> slot_load (st_index st) slot = Some w ->
  let nv := sys_in_new_version (system_state st) in
  allocated (st_log st) R l' n (entry_address w) (total_size_of size) (c_init (entry_address w) nv size k) ->
  lively_step (st_log st) l' -> begin_address l' = begin_address (st_log st) ->
  head_address (st_log st) <= head_address l' -> page_bits l' = page_bits (st_log st) ->
  c_key c = k -> cell_ok c -> previous_address (c_info c) = entry_address w ->
  in_new_version (c_info c) = nv -> c_total_size c = total_size_of size ->
  exists st', cas_into_chain (write_record (set_log st l') n c) slot w n = Some (true, st') /\
    step_ok st st' /\ record_at (st_log st') n = Some (published c) /\
    (forall a c0, R !! a = Some c0 -> Floor <= a -> closed_until_address l' <= a ->
       record_at (st_log st') a = Some c0) /\
    store_ok st' (<[n := published c]> R)
      (bind_key k (if is_tombstone (c_info c) then None else Some (published c)) M) /\
    newest (<[n := published c]> R) (begin_address (st_log st')) k (start (st_index st') k) (Some n) /\
    safe_read_only_address (st_log st') <= n /\ closed_until_address (st_log st') = closed_until_address l' /\
    spent k st st'.
Proof.
  intros Hok Hf Hw nv [Hlog Hrec Hprev Hbeg Hrange Hfresh Hsafe Hdom [Hn Htail] Hplace] Hlive Eb Hh Epb Hk Hc Hp Hnv Hsz.
  pose proof (so_table _ _ _ Hok) as Ht. pose proof (so_entries _ _ _ Hok) as He.
  destruct (slot_try_cas_spec (st_index st) (hash64 k) slot w n Ht He (hash64_u64 k) Hf Hw Hrange)
    as (ix' & Ecas & Ht' & He' & _ & Hnext & Hlen & Hw' & Hfind & _ & Hlatch).
  pose proof (lo_marks _ _ Hlog) as Hm. pose proof (so_begin _ _ _ Hok) as Hbh.
  destruct (publish_fields (c_info c)) as (Q1 & Q2 & Q3 & Q4).
  assert (Hcl : closed_until_address l' <= n /\ flushed_until_address l' <= n).
  { pose proof (mk_safe_head _ Hm). pose proof (mk_head _ Hm). pose proof (mk_flushed _ Hm).
    pose proof (mk_safe_ro _ Hm). lia. }
  assert (Hdom' : FIRST_VALID_ADDRESS <= n < tail_pos l') by lia.
  pose proof (write_after_write l' R n _ c Hlog (proj1 Hcl) Hdom' (proj2 Hcl)) as Hlog1.
  assert (Hlog2 : log_ok (put_record (put_record l' n c) n (published c)) (<[n := published c]> R)).
  { apply (write_after_write _ R n c); [done|apply Hcl|exact Hdom'|apply Hcl]. }
  set (lf := put_record (put_record l' n c) n (published c)) in *.
  assert (Hlay : layout lf (<[n := published c]> R)).
  { apply layout_put_again. eapply layout_alloc; [exact Hlive|apply (so_layout _ _ _ Hok)|apply (so_log _ _ _ Hok)|
      apply (lo_tail _ _ Hlog)|exact Eb|exact Hfresh|exact Hn| |exact Hplace|by apply published_ok|].
    - by rewrite Htail, <- Hsz.
    - unfold is_closed in Q4. cbn [published c_info c_set_info]. by destruct (is_valid (unseal_and_validate (c_info c))). }
  set (st' := set_log (set_index st ix') lf).
  assert (Hok' : store_ok st' (<[n := published c]> R)
      (bind_key k (if is_tombstone (c_info (published c)) then None else Some (published c)) M)).
  { eapply (store_publish st R M k slot w ix' lf n (published c)); try done.
    - unfold published. cbn [c_info c_set_info]. congruence.
    - by apply published_ok.
    - apply put_record_lively, (ls_lively _ _ (put_record_lively l' n c (ls_lively _ _ Hlive))).
    - intros Hph. unfold published. cbn [c_info c_set_info]. rewrite Q2, Hnv. unfold nv, sys_in_new_version.
      by rewrite Hph. }
  exists st'. split.
  { unfold cas_into_chain. cbn [st_index st_log write_record set_log]. rewrite Ecas. cbn [mbind option_bind].
    unfold modify. cbn [st_index st_log write_record set_log set_index].
    rewrite record_at_put. reflexivity. }
  split; [|split; [apply record_at_put|]].
  - split; [done|done|intros b; cbn [st_index st' set_log set_index]; unfold latch_bits; by rewrite Hlatch| |exact Eb|exact Hh|exact Epb|].
    { intros k' [s Hs]%indexed_found. apply (found_indexed ix' k' s Ht'). rewrite Hfind; [exact Hs|apply hash64_nonneg]. }
    unfold st', lf. cbn [st_log set_log].
    eapply lively_step_trans; [exact Hlive|]. eapply lively_step_trans; [apply put_record_lively, Hlive|].
    apply put_record_lively, (ls_lively _ _ (put_record_lively l' n c (ls_lively _ _ Hlive))).
  - split.
    { intros a c0 Ha Hfa Hac. assert (a < n) by (destruct (Z.lt_ge_cases a n); [done|]; by rewrite Hfresh in Ha).
      assert (E : record_at lf a = (<[n := published c]> R) !! a).
      { apply (lo_mem _ _ Hlog2); [exact Hfa|]. split; [exact Hac|]. pose proof (tl_off _ (lo_tail _ _ Hlog)) as Hto.
        change (a < (tail_page l' + 1) * page_size l'). unfold tail_pos in Hdom. lia. }
      rewrite lookup_insert_ne in E by lia. change (record_at lf a = Some c0). by rewrite E. }
    change (is_tombstone (c_info (published c))) with (is_tombstone (unseal_and_validate (c_info c))) in Hok'.
    rewrite Q3 in Hok'. split; [exact Hok'|]. split; [|split; [done|split; [done|]]].
    2: { split; [change (tail_page l' <= tail_page (st_log st) + 1); destruct Hplace as [(_ & _ & ->)|[_ ->]]; lia|].
      apply same_arena_arena; [done|]. intros [s Hs]%indexed_found. apply (found_indexed ix' k s Ht').
      rewrite Hfind; [exact Hs|apply hash64_nonneg]. }
    assert (Es : start ix' k = n).
    { rewrite (start_slot ix' k slot _ ltac:(rewrite Hfind; [exact Hf|apply hash64_nonneg]) Hw').
      apply entry_address_make. lia. }
    unfold st'. cbn [st_log st_index set_log set_index]. rewrite Es. unfold lf.
    change (begin_address (put_record (put_record l' n c) n (published c))) with (begin_address l'). rewrite Eb.
    eapply newest_hit; [done|apply lookup_insert_eq|done].
Qed.

(** ** Updating the newest record *)

Section Newest.
Context (st : Store) (R : gmap Z cell) (M : gmap bytes cell) (k : bytes) (a : Z) (c : cell).
Context (Hok : store_ok st R M) (Ha : R !! a = Some c)
  (Hn : newest R (begin_address (st_log st)) k (start (st_index st) k) (Some a))
  (Hro : safe_read_only_address (st_log st) <= a).

Lemma newest_key : c_key c = k.
Proof. destruct (newest_cell _ _ _ _ _ Hn) as (_ & d & Hd & Hk). congruence. Qed.
Lemma newest_open : is_closed (c_info c) = false.
Proof. by apply (proj2 (so_map _ _ _ Hok k _ Hn) a). Qed.
Lemma newest_bound : M !! k = if is_tombstone (c_info c) then None else Some c.
Proof.
  destruct (so_map _ _ _ Hok k _ Hn) as [<- _]. unfold value_of. cbn [mbind option_bind]. by rewrite Ha.
Qed.
Lemma newest_resident l : log_ok l R -> Floor <= a -> closed_until_address l <= a -> record_at l a = Some c.
Proof.
  intros Hl Hfl Hcl. rewrite (lo_mem _ _ Hl); [done..|]. pose proof (lo_dom _ _ Hl a c Ha) as Hd.
  pose proof (tl_off _ (lo_tail _ _ Hl)). unfold tail_pos in Hd. lia.
Qed.
Lemma newest_record : record_at (st_log st) a = Some c.
Proof.
  pose proof (lo_marks _ _ (so_log _ _ _ Hok)) as Hm. pose proof (lo_floor _ _ (so_log _ _ _ Hok)).
  pose proof (mk_safe_head _ Hm). pose proof (mk_head _ Hm). pose proof (mk_flushed _ Hm).
  pose proof (mk_safe_ro _ Hm). apply newest_resident; [by eapply so_log|lia|lia].
Qed.

(** What holds after the record is replaced by [c']. *)
Definition rewritten (c' : cell) (v : option cell) : Prop :=
  store_ok (write_record st a c') (<[a := c']> R) (bind_key k v M) /\
  step_ok st (write_record st a c') /\ (<[a := c']> R) !! a = Some c' /\
  newest (<[a := c']> R) (begin_address (st_log st)) k (start (st_index st) k) (Some a).

Lemma rewrite_newest c' : c_key c' = c_key c ->
  previous_address (c_info c') = previous_address (c_info c) ->
  in_new_version (c_info c') = in_new_version (c_info c) ->
  is_closed (c_info c') = is_closed (c_info c) -> cell_ok c' -> c_total_size c' = c_total_size c ->
  rewritten c' (if is_tombstone (c_info c') then None else Some c').
Proof.
  intros Hk Hp Hv Hcl Hc' Hsz. split; [|split; [|split]].
  - apply (store_update_newest st R M k a c c'); try assumption. rewrite Hcl. apply newest_open.
  - apply step_ok_write, (so_lively _ _ _ Hok).
  - apply lookup_insert_eq.
  - eapply newest_mono; [|exact Hn]. by apply (same_links_insert _ _ c).
Qed.

Lemma rewrite_frame c' : frame c c' -> cell_ok c' -> is_tombstone (c_info c) = false ->
  rewritten c' (Some c').
Proof.
  intros Hfr Hc' Ht. pose proof Hfr as (Ei & Ek & _). pose proof (rewrite_newest c' Ek) as H. rewrite Ei, Ht in H.
  apply H; (done || by apply frame_total_size).
Qed.

Lemma modify_eq f : modify st a f = Some (write_record st a (c_set_info c (f (c_info c)))).
Proof. unfold modify. by rewrite newest_record. Qed.

Lemma rewrite_modified : cell_ok c -> is_tombstone (c_info c) = false -> rewritten (modified c) (Some (modified c)).
Proof.
  intros Hc Ht. destruct (set_modified_fields (c_info c)) as (E1 & E2 & E3 & E4).
  pose proof (rewrite_newest (modified c) eq_refl E1 E2 E4 (modified_ok c Hc) eq_refl) as H.
  change (is_tombstone (c_info (modified c))) with (is_tombstone (set_modified (c_info c))) in H.
  by rewrite E3, Ht in H.
Qed.

Lemma rewrite_tombstone f : (forall w, f w = set_tombstone w \/ f w = set_modified (set_tombstone w)) ->
  cell_ok c -> rewritten (c_set_info c (f (c_info c))) None.
Proof.
  intros Hf Hc. destruct (set_tombstone_fields (c_info c)) as (E1 & E2 & E3 & E4).
  destruct (set_modified_fields (set_tombstone (c_info c))) as (F1 & F2 & F3 & F4).
  assert (Hall : previous_address (f (c_info c)) = previous_address (c_info c) /\
    in_new_version (f (c_info c)) = in_new_version (c_info c) /\
    is_tombstone (f (c_info c)) = true /\ is_closed (f (c_info c)) = is_closed (c_info c) /\
    is_u64 (f (c_info c))).
  { pose proof (tombstoned_ok c Hc) as (Hu & _). cbn [c_info c_set_info] in Hu.
    destruct (Hf (c_info c)) as [-> | ->].
    - by split_and!.
    - split_and!; try congruence. apply info_u64_lor; [done|unfold MODIFIED_BIT; lia]. }
  destruct Hall as (G1 & G2 & G3 & G4 & G5).
  pose proof (rewrite_newest (c_set_info c (f (c_info c))) eq_refl G1 G2 G4 (cell_ok_info _ _ Hc G5) eq_refl) as H.
  cbn [c_info c_set_info] in H. by rewrite G3 in H.
Qed.
End Newest.

(** ** Outcomes *)

(** How an attempt on [k] ends: an effect [E] on [k] alone, or a refusal by the
    log that leaves the chain where it was. *)
Definition outcome {Out : Type} (st : Store) (R : gmap Z cell) (M : gmap bytes cell) (k : bytes)
    (E : option Status -> option cell -> Out -> Prop) (x : (Op * Out) * Store) : Prop :=
  let '((r, out), st') := x in
  exists R' v, step_ok st st' /\ store_ok st' R' (bind_key k v M) /\ spent k st st' /\
  match r with
  | OpDone s => E (Some s) v out
  | OpRetryLater => E None v out /\ refused (st_log st) (st_log st') /\
      (forall c1, v = Some c1 -> exists c0, M !! k = Some c0 /\ frame c0 c1) /\
      (begin_address (st_log st) <= start (st_index st) k -> start (st_index st') k = start (st_index st) k) /\
      (R' = R \/ exists x, newest R (begin_address (st_log st)) k (start (st_index st) k) (Some x) /\
                   head_address (st_log st) <= x)
  | _ => False
  end.

Lemma outcome_mono {Out : Type} st R M k (E E' : option Status -> option cell -> Out -> Prop) x :
  (forall s v o, E s v o -> E' s v o) -> outcome st R M k E x -> outcome st R M k E' x.
Proof.
  intros HE. destruct x as [[r o] st']. intros (R' & v & H1 & H2 & Hsp & H3). exists R', v.
  split; [done|]. split; [done|]. split; [done|]. destruct r; try done; [by apply HE|].
  destruct H3 as (? & ?). split; [by apply HE|done].
Qed.

(** An attempt that first rewrote the newest record in memory. *)
Lemma outcome_after_rewrite {Out : Type} st R M k a c' v1 (E : option Status -> option cell -> Out -> Prop) x :
  step_ok st (write_record st a c') ->
  newest R (begin_address (st_log st)) k (start (st_index st) k) (Some a) ->
  head_address (st_log st) <= a ->
  (forall c1, v1 = Some c1 -> exists c0, M !! k = Some c0 /\ frame c0 c1) ->
  outcome (write_record st a c') (<[a := c']> R) (bind_key k v1 M) k E x -> outcome st R M k E x.
Proof.
  intros Hs Hn Hh Hv. destruct x as [[r o] st']. intros (R' & v & H1 & H2 & Hsp & H3). exists R', v.
  rewrite bind_key_twice in H2. split; [by eapply step_ok_trans|]. split; [done|]. split; [exact Hsp|].
  destruct r; try done. destruct H3 as (HE & Hr & Hf & Hst & _). split; [done|]. split; [exact Hr|].
  split; [|split; [exact Hst|right; by exists a]].
  intros c1 ->. destruct (Hf c1 eq_refl) as (c0 & E0 & F0). rewrite bind_key_eq in E0.
  destruct (Hv c0 E0) as (c & ? & ?). exists c. split; [done|]. by etransitivity.
Qed.

(** ** Appending a record *)

Section Append.
Context {Input Out : Type} {F : SessionFunctions Input Out} {input_ok : Input -> Prop}
  {HF : LawfulFunctions F input_ok}.
Context (st : Store) (se : Session) (R : gmap Z cell) (M : gmap bytes cell) (k : bytes) (i : Input)
  (slot : SlotRef) (w : word) (e0 h0 : Z).
Context (Hok : store_ok st R M) (Hsync : synced st se) (Hin : input_ok i) (Hroom : room (st_log st))
  (Hf : find_tag (st_index st) (hash64 k) = Some (Some slot)) (Hw : slot_load (st_index st) slot = Some w)
  (Hg : guard (st_log st) e0 h0).

Let nv := sys_in_new_version (system_state st).
Let prev := entry_address w.

Lemma prev_start : start (st_index st) k = prev.
Proof. by apply (start_slot _ _ slot). Qed.

Lemma alloc_step size : fits (st_log st) size ->
  exists a l', allocate_record (alloc_fuel prev) (st_log st) (se_state se) size k prev = Some (a, l') /\
    step_ok st (set_log st l') /\ begin_address l' = begin_address (st_log st) /\
    head_address (st_log st) <= head_address l' /\ page_bits l' = page_bits (st_log st) /\
    closed_until_address l' <= h0 /\ lively_step (st_log st) l' /\
    match a with
    | None => store_ok (set_log st l') R M /\ refused (st_log st) l'
    | Some n => allocated (st_log st) R l' n prev (total_size_of size) (c_init prev nv size k)
    end.
Proof.
  intros Hfit. pose proof (so_begin _ _ _ Hok) as Hb.
  pose proof (so_start _ _ _ Hok k) as Hs. rewrite prev_start in Hs.
  destruct (allocate_record_spec (st_log st) R (se_state se) size k prev (so_log _ _ _ Hok)
    (so_lively _ _ _ Hok) Hb Hs Hroom Hfit) as (a & l' & E & Hl & Eb & Eh & Epb & Hpost).
  exists a, l'. rewrite Hsync in Hpost. split; [done|].
  split; [by split|]. split; [done|]. split; [done|]. split; [done|].
  split; [apply (gd_closed _ _ _ (ls_guard _ _ Hl _ _ Hg))|]. split; [done|].
  destruct a as [n|]; [done|]. destruct Hpost as (Hlog & Hr & Htp & Hfull). split; [|done].
  apply store_set_log; [done..|apply Hl|done|done|].
  eapply layout_step; [exact Hl|apply (so_layout _ _ _ Hok)|done|done|by right].
Qed.

(** The log refused the record. *)
Lemma refused_outcome {A : Type} l' (E : option Status -> option cell -> A -> Prop) out :
  step_ok st (set_log st l') -> store_ok (set_log st l') R M -> refused (st_log st) l' -> E None (M !! k) out ->
  outcome st R M k E ((OpRetryLater, out), set_log st l').
Proof.
  intros Hs Hok' Hr HE. exists R, (M !! k). rewrite bind_key_same. split; [done|]. split; [done|].
  split; [split; [cbn [st_log set_log]; rewrite (proj1 Hr); lia|reflexivity]|].
  split; [done|]. split; [exact Hr|]. split; [|by split; [|left]]. intros c1 Hc. by exists c1.
Qed.

Lemma fresh_fields size :
  let c := c_init prev nv size k in
  previous_address (c_info c) = prev /\ in_new_version (c_info c) = nv /\ is_tombstone (c_info c) = false.
Proof. apply c_init_fields, entry_address_range. Qed.

(** The last callback on the published record. *)
Lemma post_outcome st' R' n p p' s (E : option Status -> option cell -> Out -> Prop) out' :
  step_ok st st' -> store_ok st' R' (bind_key k (Some p) M) -> R' !! n = Some p ->
  newest R' (begin_address (st_log st')) k (start (st_index st') k) (Some n) ->
  safe_read_only_address (st_log st') <= n -> is_tombstone (c_info p) = false ->
  frame p p' -> cell_ok p' -> spent k st st' -> E (Some s) (Some p') out' ->
  outcome st R M k E ((OpDone s, out'), write_record st' n p').
Proof.
  intros Hs Hok' Hn Hnew Hro Ht Hfr Hp' Hsp HE.
  destruct (rewrite_frame st' R' _ k n p Hok' Hn Hnew Hro p' Hfr Hp' Ht) as (H1 & H2 & _).
  rewrite bind_key_twice in H1. exists (<[n := p']> R'), (Some p').
  split; [by eapply step_ok_trans|]. split; [done|]. by split.
Qed.

Lemma rmw_initial_spec out : M !! k = None -> fits (st_log st) (initial_size k i) ->
  exists x, rmw_initial st se slot w k i out = Some x /\ outcome st R M k (initial_effect nv k i out) x.
Proof.
  intros Habs Hfit. unfold rmw_initial. destruct (need_initial_update k i out) as [go out1] eqn:En.
  destruct go; cbn [negb]; cbv iota.
  2: { eexists. split; [reflexivity|]. exists R, None. rewrite <- Habs, bind_key_same.
       split; [apply step_ok_refl, (so_lively _ _ _ Hok)|]. split; [done|]. split; [apply spent_refl|].
       rewrite Habs. by apply ie_skip. }
  cbv zeta. fold prev.
  destruct (alloc_step (initial_size k i) Hfit) as (a & l' & E & Hs & Eb & Eh & Epb & _ & Hl & Hpost).
  rewrite E. cbn [mbind option_bind]. destruct a as [n|].
  2: { eexists. split; [reflexivity|]. destruct Hpost as [Hok' Hr].
       apply refused_outcome; [done..|]. rewrite Habs. by apply ie_refused. }
  cbn [st_log set_log]. rewrite (al_rec _ _ _ _ _ _ _ Hpost). cbn [mbind option_bind].
  set (c0 := c_init prev nv (initial_size k i) k) in *.
  destruct (updater_total k i c0 out1 Hin (c_init_sized _ _ _ _ (initial_key k i) (proj1 Hfit)))
    as (c & out2 & Eu & Hfr0 & Hc). pose proof Hfr0 as (Fi & Fk & _).
  pose proof (fresh_size prev nv _ k c (initial_key k i) Hfr0 (proj1 Hfit)) as Hsz.
  rewrite Eu. cbn [mbind option_bind]. destruct (fresh_fields (initial_size k i)) as (P1 & P2 & P3). fold c0 in P1, P2, P3.
  rewrite <- Fi in P1, P2, P3.
  destruct (append_record_spec st R M k slot w _ n l' c Hok Hf Hw Hpost Hl Eb Eh Epb Fk Hc P1 P2 Hsz)
    as (st' & Ecas & Hs' & Hrec & _ & Hok' & Hnew & Hro & _ & Hsp).
  rewrite Ecas. cbn [mbind option_bind negb]. rewrite Hrec. cbn [mbind option_bind]. rewrite P3 in Hok'.
  destruct (post_initial_updater k i (published c) out2) as [p' out'] eqn:Ep.
  destruct (post_frames k i (published c) out2 (published_ok c Hc)) as (_ & [Hfr Hp'] & _). rewrite Ep in Hfr, Hp'.
  eexists. split; [reflexivity|]. eapply post_outcome; [exact Hs'|exact Hok'|apply lookup_insert_eq|done|done| |done|done|done|].
  - change (is_tombstone (c_info (published c))) with (is_tombstone (unseal_and_validate (c_info c))).
    by destruct (publish_fields (c_info c)) as (_ & _ & -> & _).
  - by eapply ie_created.
Qed.

(** A record of the key in memory, below which nothing is closed while the
    session is inside the epoch. *)
Definition resident (a : Z) (c : cell) : Prop := R !! a = Some c /\ c_key c = k /\ h0 <= a.

(** The superseded record sealed after the new one is published at [n]. *)
Lemma seal_step st' n p v a c : resident a c -> store_ok st' (<[n := p]> R) (bind_key k v M) ->
  n <> a -> newest (<[n := p]> R) (begin_address (st_log st')) k (start (st_index st') k) (Some n) ->
  safe_read_only_address (st_log st') <= n -> closed_until_address (st_log st') <= h0 ->
  exists cs, modify st' a (fun w => snd (try_seal w)) = Some (write_record st' a cs) /\
    step_ok st' (write_record st' a cs) /\
    store_ok (write_record st' a cs) (<[a := cs]> (<[n := p]> R)) (bind_key k v M) /\
    newest (<[a := cs]> (<[n := p]> R)) (begin_address (st_log st')) k (start (st_index st') k) (Some n) /\
    (<[a := cs]> (<[n := p]> R)) !! n = Some p /\ record_at (st_log (write_record st' a cs)) n = Some p.
Proof.
  intros (Ha & Hk & Hh) Hok' Hne Hnew Hro Hcl.
  assert (Ha' : (<[n := p]> R) !! a = Some c) by (by rewrite lookup_insert_ne).
  pose proof (gd_floor _ _ _ Hg).
  destruct (store_seal_stale st' _ _ k a c Hok' Ha' Hk) as (Em & Ep & Hcs); [|lia|lia|].
  { intros Hn'. pose proof (newest_det _ _ _ _ _ _ Hnew Hn') as E. congruence. }
  eexists. split; [exact Em|]. split; [apply step_ok_write, (so_lively _ _ _ Hok')|]. split; [exact Hcs|].
  set (cs := c_set_info c _) in *.
  assert (Hn : (<[a := cs]> (<[n := p]> R)) !! n = Some p) by (rewrite lookup_insert_ne by done; apply lookup_insert_eq).
  assert (Hnew' : newest (<[a := cs]> (<[n := p]> R)) (begin_address (st_log st')) k (start (st_index st') k) (Some n)).
  { eapply newest_mono; [|exact Hnew]. by apply (same_links_insert _ _ c). }
  split; [done|]. split; [done|].
  by eapply (newest_record (write_record st' a cs)); [exact Hcs|exact Hn|exact Hro].
Qed.

Lemma published_not_tombstone c : is_tombstone (c_info c) = false -> is_tombstone (c_info (published c)) = false.
Proof.
  intros H. change (is_tombstone (unseal_and_validate (c_info c)) = false).
  by destruct (publish_fields (c_info c)) as (_ & _ & -> & _).
Qed.

Lemma upsert_new_spec out old : fits (st_log st) (upsert_size k i) ->
  (forall a, old = Some a -> exists c, resident a c) ->
  exists x, upsert_new st se slot w k i out old = Some x /\
    outcome st R M k (fun s v o => write_effect nv k i out s v o \/ (s = None /\ v = M !! k /\ o = out)) x.
Proof.
  intros Hfit Hold. unfold upsert_new. cbv zeta. fold prev.
  destruct (alloc_step (upsert_size k i) Hfit) as (a & l' & E & Hs & Eb & Eh & Epb & Hcl & Hl & Hpost).
  rewrite E. cbn [mbind option_bind]. destruct a as [n|].
  2: { eexists. split; [reflexivity|]. destruct Hpost as [Hok' Hr]. apply refused_outcome; [done..|]. by right. }
  cbn [st_log set_log]. rewrite (al_rec _ _ _ _ _ _ _ Hpost). cbn [mbind option_bind].
  set (c0 := c_init prev nv (upsert_size k i) k) in *.
  destruct (writer_total k i c0 out Hin (c_init_sized _ _ _ _ (upsert_key k i) (proj1 Hfit)))
    as (c & out1 & Eu & Hfr0 & Hc). pose proof Hfr0 as (Fi & Fk & _).
  pose proof (fresh_size prev nv _ k c (upsert_key k i) Hfr0 (proj1 Hfit)) as Hsz.
  rewrite Eu. cbn [mbind option_bind]. destruct (fresh_fields (upsert_size k i)) as (P1 & P2 & P3). fold c0 in P1, P2, P3.
  rewrite <- Fi in P1, P2, P3.
  destruct (append_record_spec st R M k slot w _ n l' c Hok Hf Hw Hpost Hl Eb Eh Epb Fk Hc P1 P2 Hsz)
    as (st' & Ecas & Hs' & Hrec & _ & Hok' & Hnew & Hro & Hcl' & Hsp).
  rewrite Ecas. cbn [mbind option_bind negb]. rewrite P3 in Hok'.
  destruct (post_initial_writer k i (published c) out1) as [p' out'] eqn:Ep.
  destruct (post_frames k i (published c) out1 (published_ok c Hc)) as ([Hfr Hp'] & _). rewrite Ep in Hfr, Hp'.
  pose proof (published_not_tombstone c P3) as Ht.
  assert (HE : write_effect nv k i out (Some Created) (Some p') out') by by eapply we_created.
  destruct old as [a|].
  - destruct (Hold a eq_refl) as [c1 Hres].
    assert (Hne : n <> a) by (intros ->; destruct Hres as (Ha & _); by rewrite (al_fresh _ _ _ _ _ _ _ Hpost) in Ha).
    destruct (seal_step st' n (published c) _ a c1 Hres Hok' Hne Hnew Hro ltac:(lia))
      as (cs & Em & Hs2 & Hok2 & Hnew2 & Hn2 & Hrec2).
    rewrite Em. cbn [mbind option_bind]. rewrite Hrec2. cbn [mbind option_bind]. rewrite Ep.
    eexists. split; [reflexivity|].
    eapply post_outcome; [by eapply step_ok_trans|exact Hok2|exact Hn2|exact Hnew2|exact Hro|done|done|done|exact Hsp|by left].
  - cbn [mbind option_bind]. rewrite Hrec. cbn [mbind option_bind]. rewrite Ep. eexists. split; [reflexivity|].
    eapply post_outcome; [exact Hs'|exact Hok'|apply lookup_insert_eq|done|done|done|done|done|exact Hsp|by left].
Qed.

(** Where a copy or a tombstone comes from. *)
Definition old_ok (old : OldRecord) (c : cell) : Prop :=
  match old with InMemory a => resident a c | Image c' => c' = c end.

Lemma load_old_before old c : old_ok old c -> closed_until_address (st_log st) <= h0 -> load_old st old = Some c.
Proof.
  destruct old as [a|]; simpl; [|by intros ->]. intros (Ha & _ & Hh) Hcl.
  pose proof (gd_floor _ _ _ Hg). eapply newest_resident; [exact Ha|apply (so_log _ _ _ Hok)|lia|lia].
Qed.

Lemma load_old_after old c l' n c' : old_ok old c -> log_ok l' (<[n := c']> R) ->
  (forall b, n <= b -> R !! b = None) -> closed_until_address l' <= h0 -> load_old (set_log st l') old = Some c.
Proof.
  destruct old as [a|]; simpl; [|by intros ->]. intros (Ha & _ & Hh) Hlog Hfresh Hcl.
  pose proof (gd_floor _ _ _ Hg). eapply newest_resident; [|exact Hlog|lia|lia]. rewrite lookup_insert_ne; [done|]. intros ->. by rewrite Hfresh in Ha.
Qed.

(** Sealing the source, if it is in memory and to be sealed. *)
Lemma seal_old_step st' n p v old c : old_ok old c -> store_ok st' (<[n := p]> R) (bind_key k v M) ->
  (forall b, n <= b -> R !! b = None) -> step_ok st st' ->
  newest (<[n := p]> R) (begin_address (st_log st')) k (start (st_index st') k) (Some n) ->
  safe_read_only_address (st_log st') <= n -> closed_until_address (st_log st') <= h0 ->
  record_at (st_log st') n = Some p -> spent k st st' ->
  exists st2 R2, seal_old st' old = Some st2 /\ step_ok st st2 /\ store_ok st2 R2 (bind_key k v M) /\
    newest R2 (begin_address (st_log st2)) k (start (st_index st2) k) (Some n) /\ R2 !! n = Some p /\
    record_at (st_log st2) n = Some p /\ safe_read_only_address (st_log st2) <= n /\ spent k st st2.
Proof.
  intros Hold Hok' Hfresh Hs Hnew Hro Hcl Hrec Hsp. destruct old as [a|c']; simpl in *.
  - assert (Hne : n <> a) by (intros ->; destruct Hold as (Ha & _); by rewrite Hfresh in Ha).
    destruct (seal_step st' n p v a c Hold Hok' Hne Hnew Hro Hcl) as (cs & Em & Hs2 & Hok2 & Hnew2 & Hn2 & Hrec2).
    eexists _, _. split; [exact Em|]. split; [by eapply step_ok_trans|]. by split_and!.
  - exists st', (<[n := p]> R). split_and!; try done. apply lookup_insert_eq.
Qed.

Lemma delete_rcu_spec out old c : fits (st_log st) (SizeInfo (length k) 0 false) ->
  (forall o, old = Some o -> old_ok o c) ->
  exists x, delete_rcu st se slot w k out old = Some x /\
    outcome st R M k (fun s v o => (s = Some Deleted /\ v = None /\ o = post_deleter k out) \/
                                   (s = None /\ v = M !! k /\ o = out)) x.
Proof.
  intros Hfit Hold. unfold delete_rcu. cbv zeta. fold prev. set (size := SizeInfo (length k) 0 false) in *.
  destruct (alloc_step size Hfit) as (a & l' & E & Hs & Eb & Eh & Epb & Hcl & Hl & Hpost).
  rewrite E. cbn [mbind option_bind]. destruct a as [n|].
  2: { eexists. split; [reflexivity|]. destruct Hpost as [Hok' Hr]. apply refused_outcome; [done..|]. by right. }
  unfold modify at 1. cbn [st_log set_log]. rewrite (al_rec _ _ _ _ _ _ _ Hpost). cbn [mbind option_bind].
  set (c0 := c_init prev nv size k) in *. set (ct := c_set_info c0 (set_tombstone (c_info c0))).
  destruct (c_init_sized prev nv size k eq_refl (proj1 Hfit)) as (_ & _ & _ & Hc0). fold c0 in Hc0.
  destruct (fresh_fields size) as (P1 & P2 & P3). fold c0 in P1, P2, P3.
  destruct (set_tombstone_fields (c_info c0)) as (Q1 & Q2 & Q3 & _).
  destruct (append_record_spec st R M k slot w _ n l' ct Hok Hf Hw Hpost Hl Eb Eh Epb eq_refl (tombstoned_ok _ Hc0))
    as (st' & Ecas & Hs' & Hrec & _ & Hok' & Hnew & Hro & Hcl' & Hsp);
    [exact (eq_trans Q1 P1)|exact (eq_trans Q2 P2)|exact (fresh_size prev nv size k c0 eq_refl (reflexivity c0) (proj1 Hfit))|].
  change (put_record l' n ct) with (put_record (st_log (set_log st l')) n ct).
  change (set_log (set_log st l') (put_record (st_log (set_log st l')) n ct)) with (write_record (set_log st l') n ct).
  rewrite Ecas. cbn [mbind option_bind negb].
  change (is_tombstone (c_info ct)) with (is_tombstone (set_tombstone (c_info c0))) in Hok'. rewrite Q3 in Hok'.
  destruct old as [o|].
  - destruct (seal_old_step st' n (published ct) None o c (Hold o eq_refl) Hok' (al_fresh _ _ _ _ _ _ _ Hpost) Hs'
      Hnew Hro ltac:(lia) Hrec Hsp) as (st2 & R2 & Es & Hs2 & Hok2 & _ & _ & _ & _ & Hsp2).
    rewrite Es. cbn [mbind option_bind]. eexists. split; [reflexivity|]. exists R2, None.
    split; [done|]. split; [done|]. split; [done|]. by left.
  - cbn [mbind option_bind]. eexists. split; [reflexivity|]. eexists _, None. split; [done|].
    split; [exact Hok'|]. split; [exact Hsp|]. by left.
Qed.

Lemma rmw_copy_spec out old c seal : M !! k = Some c -> cell_ok c -> old_ok old c ->
  fits (st_log st) (copy_size k i c) -> fits (st_log st) (SizeInfo (length k) 0 false) ->
  exists x, rmw_copy st se slot w k i out old seal = Some x /\ outcome st R M k (copy_effect nv k i c out) x.
Proof.
  intros Hbound Hc0k Hold Hfit Hfitd. unfold rmw_copy.
  rewrite (load_old_before _ _ Hold (gd_closed _ _ _ Hg)). cbn [mbind option_bind].
  destruct (need_copy_update k i c out) as [d out1] eqn:En. destruct d.
  - cbv zeta. fold prev.
    destruct (alloc_step (copy_size k i c) Hfit) as (a & l' & E & Hs & Eb & Eh & Epb & Hcl & Hl & Hpost).
    rewrite E. cbn [mbind option_bind]. destruct a as [n|].
    2: { eexists. split; [reflexivity|]. destruct Hpost as [Hok' Hr]. apply refused_outcome; [done..|].
         rewrite Hbound. by eapply ce_refused. }
    rewrite (load_old_after old c l' n _ Hold (al_log _ _ _ _ _ _ _ Hpost) (al_fresh _ _ _ _ _ _ _ Hpost) Hcl).
    cbn [mbind option_bind st_log set_log]. rewrite (al_rec _ _ _ _ _ _ _ Hpost). cbn [mbind option_bind].
    set (cn := c_init prev nv (copy_size k i c) k) in *.
    destruct (copy_updater_total k i c cn out out1 Hin Hc0k En
      (c_init_sized _ _ _ _ (copy_key k i c) (proj1 Hfit))) as (c1 & out2 & Eu & Hfr0 & Hc1).
    pose proof Hfr0 as (Fi & Fk & _). pose proof (fresh_size prev nv _ k c1 (copy_key k i c) Hfr0 (proj1 Hfit)) as Hsz.
    rewrite Eu. cbn [mbind option_bind].
    destruct (fresh_fields (copy_size k i c)) as (P1 & P2 & P3). fold cn in P1, P2, P3. rewrite <- Fi in P1, P2, P3.
    destruct (append_record_spec st R M k slot w _ n l' c1 Hok Hf Hw Hpost Hl Eb Eh Epb Fk Hc1 P1 P2 Hsz)
      as (st' & Ecas & Hs' & Hrec & _ & Hok' & Hnew & Hro & Hcl' & Hsp).
    rewrite Ecas. cbn [mbind option_bind negb]. rewrite P3 in Hok'.
    destruct (post_copy_updater k i (published c1) out2) as [p' out'] eqn:Ep.
    destruct (post_frames k i (published c1) out2 (published_ok c1 Hc1)) as (_ & _ & [Hfr Hp']). rewrite Ep in Hfr, Hp'.
    pose proof (published_not_tombstone c1 P3) as Ht.
    assert (HE : copy_effect nv k i c out (Some CopyUpdated) (Some p') out') by by eapply ce_copied.
    destruct seal.
    + destruct (seal_old_step st' n (published c1) _ old c Hold Hok' (al_fresh _ _ _ _ _ _ _ Hpost) Hs'
        Hnew Hro ltac:(lia) Hrec Hsp) as (st2 & R2 & Es & Hs2 & Hok2 & Hnew2 & Hn2 & Hrec2 & Hro2 & Hsp2).
      rewrite Es. cbn [mbind option_bind]. rewrite Hrec2. cbn [mbind option_bind]. rewrite Ep.
      eexists. split; [reflexivity|]. by eapply post_outcome.
    + cbn [mbind option_bind]. rewrite Hrec. cbn [mbind option_bind]. rewrite Ep. eexists. split; [reflexivity|].
      eapply post_outcome; [exact Hs'|exact Hok'|apply lookup_insert_eq|done|done|done|done|done|exact Hsp|done].
  - eexists. split; [reflexivity|]. exists R, (Some c). rewrite <- Hbound, bind_key_same.
    split; [apply step_ok_refl, (so_lively _ _ _ Hok)|]. split; [done|]. split; [apply spent_refl|].
    rewrite Hbound. by apply ce_cancel.
  - destruct (delete_rcu_spec out1 (if seal then Some old else None) c Hfitd) as (x & Ex & Hx).
    { intros o Ho. destruct seal; [by injection Ho as <-|done]. }
    exists x. split; [exact Ex|]. eapply outcome_mono; [|exact Hx].
    intros s v o [(-> & -> & ->)|(-> & -> & ->)]; [by apply ce_delete|].
    rewrite Hbound. by eapply ce_refused.
Qed.
End Append.

End Attempts.
