(* ===== verification/StoreAttempt.v ===== *)
(** * One attempt of each store operation, against the abstract map (2)

    Each [internal_*] attempt performs one of the effects of [StoreSpec] on its
    key and on no other, keeping the invariant; or is refused by the log in a
    way the retry loop resolves; or reports where the key's chain continues on
    the device. *)

From S2P Require Import Prelude Record Hash Index IndexSpec Latch Epoch Log LogSpec LogLive LogTiling Session.
From S2P Require Import Store StoreInv StoreSpec.

#[local] Opaque hash64.

Section Attempt_kinds.
Context {fl : floor}.

(** ** Under the latch *)

(** The key's slot holds [w], and the session is inside the epoch. *)
Section Latched.
Context {Input Out : Type} {F : SessionFunctions Input Out} {input_ok : Input -> Prop}
  {HF : LawfulFunctions F input_ok}.
Context (st : Store) (se : Session) (R : gmap Z cell) (M : gmap bytes cell) (k : bytes) (i : Input)
  (slot : SlotRef) (w : word) (e0 : Z).
Context (Hok : store_ok st R M) (Hsync : synced st se) (Hin : input_ok i) (Hroom : room (st_log st))
  (Hf : find_tag (st_index st) (hash64 k) = Some (Some slot)) (Hw : slot_load (st_index st) slot = Some w)
  (Hg : guard (st_log st) e0 (head_address (st_log st))).

Let nv := sys_in_new_version (system_state st).

(** The newest record of the key, resident at [a]. *)
Definition newest_at (a : Z) (c : cell) : Prop :=
  R !! a = Some c /\ newest R (begin_address (st_log st)) k (start (st_index st) k) (Some a) /\
  head_address (st_log st) <= a /\ is_tombstone (c_info c) = false.

Lemma marks_ordered : head_address (st_log st) <= safe_read_only_address (st_log st) <= read_only_address (st_log st).
Proof.
  pose proof (lo_marks _ _ (so_log _ _ _ Hok)) as Hm. pose proof (mk_flushed _ Hm).
  pose proof (mk_safe_ro _ Hm). pose proof (mk_ro _ Hm). lia.
Qed.

Lemma newest_at_bound a c : newest_at a c -> M !! k = Some c /\ cell_ok c /\ c_key c = k.
Proof.
  intros (Ha & Hn & _ & Ht). pose proof (newest_bound st R M k a c Hok Ha Hn) as Hb. rewrite Ht in Hb.
  split; [done|]. split; [by destruct (so_cells _ _ _ Hok _ _ Ha)|by eapply newest_key].
Qed.

Lemma newest_at_resident a c : newest_at a c -> resident R k (head_address (st_log st)) a c.
Proof. intros H. destruct (newest_at_bound a c H) as (_ & _ & Hk). destruct H as (? & _ & ? & _). done. Qed.

Lemma upsert_new_effect out old : fits (st_log st) (upsert_size k i) ->
  (forall a, old = Some a -> exists c, resident R k (head_address (st_log st)) a c) ->
  exists x, upsert_new st se slot w k i out old = Some x /\
    outcome st R M k (upsert_effect nv k i (M !! k) out) x.
Proof.
  intros Hfit Hold.
  destruct (upsert_new_spec st se R M k i slot w e0 _ Hok Hsync Hin Hroom Hf Hw Hg out old Hfit Hold) as (x & Ex & Hx).
  exists x. split; [exact Ex|]. eapply outcome_mono; [|exact Hx].
  intros s v o [H'|(-> & -> & ->)]; [by apply ue_blind|apply ue_refused].
Qed.

(** What a rewrite of the newest record in the mutable region leads to. *)
Lemma rewrite_in_place a c c' : newest_at a c -> safe_read_only_address (st_log st) <= a -> frame c c' -> cell_ok c' ->
  let st1 := write_record st a c' in let R1 := <[a := c']> R in let M1 := bind_key k (Some c') M in
  store_ok st1 R1 M1 /\ step_ok st st1 /\ R1 !! a = Some c' /\ M1 !! k = Some c' /\ guard (st_log st1) e0 (head_address (st_log st1)) /\
  newest R1 (begin_address (st_log st)) k (start (st_index st) k) (Some a) /\
  resident R1 k (head_address (st_log st1)) a c' /\ is_tombstone (c_info c') = false.
Proof.
  intros Hat Hro Hfr Hc'. destruct (newest_at_bound a c Hat) as (_ & _ & Hk).
  destruct Hat as (Ha & Hn & Hh & Ht).
  destruct (rewrite_frame st R M k a c Hok Ha Hn Hro c' Hfr Hc' Ht) as (H1 & H2 & H3 & H4).
  destruct Hfr as (Ei & Ek & _). split_and!; try done.
  - apply bind_key_eq.
  - by apply (ls_guard _ _ (sk_log _ _ H2)).
  - split; [done|]. split; [congruence|done].
  - by rewrite Ei.
Qed.

Lemma done_after_rewrites a c' v1 c'' v2 (E : option Status -> option cell -> Out -> Prop) s out :
  step_ok st (write_record st a c') ->
  rewritten (write_record st a c') (<[a := c']> R) (bind_key k v1 M) k a c'' v2 -> E (Some s) v2 out ->
  outcome st R M k E ((OpDone s, out), write_record (write_record st a c') a c'').
Proof.
  intros H2 (H3 & H4 & _) HE. rewrite bind_key_twice in H3. eexists _, v2.
  split; [by eapply step_ok_trans|]. split; [done|]. split; [by apply spent_same|done].
Qed.

Lemma upsert_in_place a c out : newest_at a c -> safe_read_only_address (st_log st) <= a ->
  fits (st_log st) (upsert_size k i) ->
  exists x, ('(fits, rec, out) ← in_place_writer k i c out;
             let st := write_record st a rec in
             if fits : bool then st ← modify st a set_modified; done_ InPlaceUpdated out st
             else upsert_new st se slot w k i out (Some a)) = Some x /\
    outcome st R M k (upsert_effect nv k i (M !! k) out) x.
Proof.
  intros Hat Hro Hfit. destruct (newest_at_bound a c Hat) as (Hb & Hc & Hk).
  destruct (in_place_writer_total k i c out Hin Hc) as (b & c' & out' & E & Hfr & Hc'). rewrite E.
  cbn [mbind option_bind]. cbv zeta.
  destruct (rewrite_in_place a c c' Hat Hro Hfr Hc') as (H1 & H2 & H3 & Hb1 & Hg1 & H4 & Hres & Ht').
  rewrite Hb. destruct b.
  - rewrite (modify_eq _ _ _ a c' H1 H3 Hro). cbn [mbind option_bind]. eexists. split; [reflexivity|].
    eapply done_after_rewrites; [done|by eapply rewrite_modified|by apply ue_in_place].
  - destruct (upsert_new_spec (write_record st a c') se _ _ k i slot w e0 _ H1 Hsync Hin Hroom Hf Hw Hg1
      out' (Some a) Hfit) as (x & Ex & Hx).
    { intros ? [= <-]. by eexists. }
    exists x. split; [exact Ex|]. eapply outcome_after_rewrite; [exact H2|apply Hat|apply Hat| |eapply outcome_mono; [|exact Hx]].
    + intros c1 [= <-]. by exists c.
    + intros s v o [H'|(-> & -> & ->)]; [by eapply ue_no_room|]. rewrite Hb1. by eapply ue_no_room_refused.
Qed.
(** The records a read-modify-write of [k] may append can all be laid out: also
    a copy of what the in-place callback leaves when it asks for one. *)
Record rmw_fits (l : HybridLog) (v : option cell) : Prop := {
  rf_initial : fits l (initial_size k i);
  rf_tombstone : fits l (SizeInfo (length k) 0 false);
  rf_copy : exists P : cell -> Prop, (forall c, v = Some c -> P c) /\
    (forall c c' o o', P c -> in_place_updater k i c o = Some (NeedCopy, c', o') -> P c') /\
    forall c, P c -> cell_ok c -> fits l (copy_size k i c) }.

Lemma rmw_initial_effect out : M !! k = None -> rmw_fits (st_log st) (M !! k) ->
  exists x, rmw_initial st se slot w k i out = Some x /\ outcome st R M k (rmw_effect nv k i (M !! k) out) x.
Proof.
  intros Hb [Hfit _ _].
  destruct (rmw_initial_spec st se R M k i slot w e0 _ Hok Hsync Hin Hroom Hf Hw Hg out Hb Hfit) as (x & Ex & Hx).
  exists x. split; [exact Ex|]. eapply outcome_mono; [|exact Hx]. intros s v o H. rewrite Hb. by apply re_absent.
Qed.

Lemma rmw_copy_effect old c seal out : M !! k = Some c -> cell_ok c ->
  old_ok R k (head_address (st_log st)) old c -> rmw_fits (st_log st) (M !! k) ->
  exists x, rmw_copy st se slot w k i out old seal = Some x /\
    outcome st R M k (rmw_effect nv k i (M !! k) out) x.
Proof.
  intros Hb Hc Hold [_ Hft (P & HP & _ & Hfc)].
  destruct (rmw_copy_spec st se R M k i slot w e0 _ Hok Hsync Hin Hroom Hf Hw Hg out old c seal Hb Hc Hold
    ltac:(by apply Hfc; [apply HP|]) Hft) as (x & Ex & Hx).
  exists x. split; [exact Ex|]. eapply outcome_mono; [|exact Hx]. intros s v o H. rewrite Hb. by apply re_copy.
Qed.

Lemma rmw_in_place a c out : newest_at a c -> safe_read_only_address (st_log st) <= a ->
  rmw_fits (st_log st) (M !! k) ->
  exists x, ('(r, rec, out) ← in_place_updater k i c out;
             let st := write_record st a rec in
             match r with
             | Updated => st ← modify st a set_modified; done_ InPlaceUpdated out st
             | Cancel => done_ Found out st
             | Expired => st ← modify st a set_tombstone; rmw_initial st se slot w k i out
             | DeleteNow => st ← modify st a set_tombstone; done_ Deleted (post_deleter k out) st
             | NeedCopy => rmw_copy st se slot w k i out (InMemory a) true
             end) = Some x /\
    outcome st R M k (rmw_effect nv k i (M !! k) out) x.
Proof.
  intros Hat Hro Hfits. destruct (newest_at_bound a c Hat) as (Hb & Hc & Hk).
  destruct (in_place_updater_total k i c out Hin Hc) as (b & c' & out' & E & Hfr & Hc'). rewrite E.
  cbn [mbind option_bind]. cbv zeta.
  destruct (rewrite_in_place a c c' Hat Hro Hfr Hc') as (H1 & H2 & H3 & Hb1 & Hg1 & H4 & Hres & Ht').
  rewrite Hb in *. set (st1 := write_record st a c') in *.
  assert (Hmod : forall f, modify st1 a f = Some (write_record st1 a (c_set_info c' (f (c_info c'))))).
  { intros f. by apply (modify_eq _ _ _ a c' H1 H3 Hro). }
  assert (Hdel : rewritten st1 (<[a := c']> R) (bind_key k (Some c') M) k a (c_set_info c' (set_tombstone (c_info c'))) None).
  { eapply rewrite_tombstone; try done. intros w0. by left. }
  destruct b; rewrite ?Hmod; cbn [mbind option_bind].
  - eexists. split; [reflexivity|].
    eapply done_after_rewrites; [done|by eapply rewrite_modified|by apply re_updated].
  - destruct (rmw_copy_spec st1 se _ _ k i slot w e0 _ H1 Hsync Hin Hroom Hf Hw Hg1 out' (InMemory a) c' true
      Hb1 Hc' Hres) as (x & Ex & Hx); [|apply Hfits|].
    { destruct (rf_copy _ _ Hfits) as (P & HP & Hstep & Hfc). apply Hfc; [|done]. by eapply Hstep; [apply HP|]. }
    exists x. split; [exact Ex|]. eapply outcome_after_rewrite; [exact H2|apply Hat|apply Hat| |eapply outcome_mono; [|exact Hx]].
    + intros c1 [= <-]. by exists c.
    + intros s v o He. by eapply re_need_copy.
  - destruct Hdel as (D1 & D2 & D3 & D4). rewrite bind_key_twice in D1.
    assert (Hg2 : guard (st_log (write_record st1 a (c_set_info c' (set_tombstone (c_info c'))))) e0
                    (head_address (st_log st))) by (by apply (ls_guard _ _ (sk_log _ _ D2))).
    destruct (rmw_initial_spec _ se _ _ k i slot w e0 _ D1 Hsync Hin Hroom Hf Hw Hg2 out' (bind_key_eq _ _ _)
      (rf_initial _ _ Hfits)) as (x & Ex & Hx).
    exists x. split; [exact Ex|].
    eapply (outcome_after_rewrite _ _ _ _ _ _ (Some c')); [exact H2|apply Hat|apply Hat|by intros c1 [= <-]; exists c|].
    eapply (outcome_after_rewrite _ _ _ _ _ _ None); [exact D2|exact H4|apply Hat|done|].
    rewrite bind_key_twice. eapply outcome_mono; [|exact Hx]. intros s v o He. by eapply re_expired.
  - eexists. split; [reflexivity|]. eexists _, (Some c'). split; [done|]. split; [exact H1|].
    split; [by apply spent_same|by apply re_cancelled].
  - eexists. split; [reflexivity|]. eapply done_after_rewrites; [done|exact Hdel|by eapply re_deleted].
Qed.

(** A record in the fuzzy region: the boundary is about to move. *)
Lemma fuzzy_refused a : safe_read_only_address (st_log st) <= a < read_only_address (st_log st) ->
  refused (st_log st) (st_log st).
Proof.
  intros Ha. split; [done|]. intros n l2 Hst Hset Hm. pose proof (mk_safe_ro _ (lo_marks _ _ (so_log _ _ _ Hok))) as Hsr.
  assert (Hns : ~ settled (st_log st)) by (intros [Hfl _]; unfold flushed_up in Hfl; lia).
  destruct n as [|[|[|n]]]; simpl in Hst; try tauto. split; [done|]. by destruct n.
Qed.

Lemma fuzzy_outcome a (E : option Status -> option cell -> Out -> Prop) out :
  safe_read_only_address (st_log st) <= a < read_only_address (st_log st) -> E None (M !! k) out ->
  outcome st R M k E ((OpRetryLater, out), st).
Proof.
  intros Ha HE. exists R, (M !! k). rewrite bind_key_same.
  split; [apply step_ok_refl, (so_lively _ _ _ Hok)|]. split; [done|]. split; [by apply spent_same|]. split; [done|].
  split; [by eapply fuzzy_refused|]. split; [|by split; [|left]]. intros c1 Hc. by exists c1.
Qed.

Lemma delete_rcu_effect old c out : M !! k = Some c ->
  (forall o, old = Some o -> old_ok R k (head_address (st_log st)) o c) ->
  fits (st_log st) (SizeInfo (length k) 0 false) ->
  exists x, delete_rcu st se slot w k out old = Some x /\ outcome st R M k (delete_effect k (M !! k) out) x.
Proof.
  intros Hb Hold Hfit.
  destruct (delete_rcu_spec st se R M k slot w e0 _ Hok Hsync Hroom Hf Hw Hg out old c Hfit Hold) as (x & Ex & Hx).
  exists x. split; [exact Ex|]. eapply outcome_mono; [|exact Hx].
  intros s v o [(-> & -> & ->)|(-> & -> & ->)]; [rewrite Hb; apply de_deleted|apply de_refused].
Qed.

Lemma delete_in_place a c out : newest_at a c -> safe_read_only_address (st_log st) <= a ->
  exists x, (st ← modify st a (fun w => set_modified (set_tombstone w));
             done_ Deleted (post_deleter k out) st) = Some x /\
    outcome st R M k (delete_effect k (M !! k) out) x.
Proof.
  intros Hat Hro. destruct (newest_at_bound a c Hat) as (Hb & Hc & Hk). destruct Hat as (Ha & Hn & Hh & Ht).
  rewrite (modify_eq _ _ _ a c Hok Ha Hro). cbn [mbind option_bind]. eexists. split; [reflexivity|].
  destruct (rewrite_tombstone st R M k a c Hok Ha Hn Hro (fun w => set_modified (set_tombstone w))
    ltac:(by right) Hc) as (D1 & D2 & _).
  eexists _, None. split; [exact D2|]. split; [exact D1|]. split; [by apply spent_same|]. rewrite Hb. apply de_deleted.
Qed.
End Latched.

(** ** Attempts *)

(** The chain of [k] continues on the device at [addr]. *)
Definition continues_at (st : Store) (R : gmap Z cell) (k : bytes) (addr latest : Z) : Prop :=
  latest = start (st_index st) k /\ begin_address (st_log st) <= latest /\
  start_ok R (begin_address (st_log st)) addr /\ addr < head_address (st_log st) /\
  forall r, newest R (begin_address (st_log st)) k addr r ->
    newest R (begin_address (st_log st)) k (start (st_index st) k) r.

Definition attempt_ok {Out : Type} (st : Store) (R : gmap Z cell) (M : gmap bytes cell) (k : bytes)
    (E : option Status -> option cell -> Out -> Prop) (x : (Op * Out) * Store) : Prop :=
  let '((r, out), st') := x in
  match r with
  | OpRecordOnDisk addr latest =>
      step_ok st st' /\ store_ok st' R M /\ spent k st st' /\ E None (M !! k) out /\
      continues_at st' R k addr latest /\ st_log st' = st_log st
  | _ => outcome st R M k E x
  end.

Lemma outcome_attempt {Out : Type} st R M k (E : option Status -> option cell -> Out -> Prop) x :
  outcome st R M k E x -> attempt_ok st R M k E x.
Proof. destruct x as [[[] ?] ?]; try done. by intros (? & ? & ? & ? & ? & ?). Qed.

Lemma latch_attempt {Out : Type} txn bi excl st R M k (E : option Status -> option cell -> Out -> Prop) busy body :
  store_ok st R M -> (txn = false -> latch_free (st_index st)) -> is_Some (latch_word (st_index st) bi) ->
  (forall st1, store_ok st1 R M -> st_log st1 = st_log st -> st_state st1 = st_state st ->
     checkpoint_start_address st1 = checkpoint_start_address st ->
     (forall h, 0 <= h -> find_tag (st_index st1) h = find_tag (st_index st) h /\
        entry_word (st_index st1) h = entry_word (st_index st) h) ->
     exists x, body st1 = Some x /\ attempt_ok st1 R M k E x) ->
  exists x, latch txn bi excl st busy body = Some x /\ attempt_ok st R M k E x.
Proof.
  intros Hok Hfree Hw Hbody.
  destruct (latch_run txn bi excl st R M busy body Hok Hfree Hw)
    as (st1 & Hok1 & El & Es & Ec & Hfind & Har1 & Hrun).
  destruct (Hbody st1 Hok1 El Es Ec Hfind) as ([[r out] st2] & Eb & Hat).
  assert (Hok2 : exists R2 M2, step_ok st1 st2 /\ store_ok st2 R2 M2 /\ spent k st1 st2).
  { destruct r; cbn [attempt_ok outcome] in Hat.
    4: { destruct Hat as (? & ? & ? & _). by eexists _, _. }
    all: destruct Hat as (R2 & v & ? & ? & ? & _); by eexists _, _. }
  destruct Hok2 as (R2 & M2 & Hs2 & Hok2 & Hsp2).
  destruct (Hrun _ _ Eb (sk_latch _ _ Hs2) (so_table _ _ _ Hok2)) as (st' & Ew & El' & Es' & Ec' & Hb' & Hent & Har' & Hst').
  exists ((r, out), st'). split; [exact Ew|].
  assert (Hs' : step_ok st st').
  { destruct Hs2 as [S1 S2 S3 S3' S4 S5 S6 S7]. rewrite El in *. split; try congruence.
    intros k' Hk'. unfold indexed in *. rewrite Hent by (apply hash64_nonneg || by eapply so_entries).
    apply S3'. by rewrite (proj2 (Hfind (hash64 k') (hash64_nonneg k'))). }
  assert (Hsp : spent k st st').
  { apply (spent_after _ _ st2); [by rewrite El'| |].
    - apply same_arena_arena; [done|]. unfold indexed.
      by rewrite Hent by (apply hash64_nonneg || by eapply so_entries).
    - apply (spent_before _ _ st1); [by rewrite El| |done]. apply same_arena_arena; [done|]. unfold indexed.
      by rewrite (proj2 (Hfind (hash64 k) (hash64_nonneg k))). }
  assert (Hstart : forall k, start (st_index st') k = start (st_index st2) k).
  { intros k'. unfold start. rewrite Hent; [done|apply hash64_nonneg|by eapply so_entries]. }
  assert (Hstart1 : forall k, start (st_index st1) k = start (st_index st) k).
  { intros k'. unfold start. by rewrite (proj2 (Hfind (hash64 k') (hash64_nonneg k'))). }
  destruct r as [s| | |addr latest|]; cbn [attempt_ok outcome] in Hat |- *.
  - destruct Hat as (R' & v & _ & Ho & _ & HE). exists R', v. split; [done|]. split; [by apply Hst'|done].
  - by destruct Hat as (? & ? & ? & ? & ? & []).
  - destruct Hat as (R' & v & _ & Ho & _ & HE & Hr & Hv & Hst & Hm). exists R', v. split; [done|].
    split; [by apply Hst'|]. split; [done|]. rewrite El', Hstart. rewrite El, Hstart1 in *. by split_and!.
  - destruct Hat as (_ & Ho & _ & HE & Hc & Hl). split; [done|]. split; [by apply Hst'|]. split; [done|]. split; [done|].
    unfold continues_at in *. rewrite El', Hstart. split; [done|congruence].
  - by destruct Hat as (? & ? & ? & ? & ? & []).
Qed.

Lemma slot_word ix k slot : table_ok ix -> find_tag ix (hash64 k) = Some (Some slot) ->
  exists w, slot_load ix slot = Some w /\ is_Some (latch_word ix (sr_bucket slot)) /\ start ix k = entry_address w.
Proof.
  intros Hok Hf. destruct (find_tag_loads ix (hash64 k) slot Hok (hash64_nonneg k) Hf) as (w & Hw & _ & Hb & _).
  exists w. split; [done|]. split; [|by eapply start_slot].
  destruct (main_bucket ix (hash64 k) Hok (hash64_nonneg k)) as [ws Hws]. rewrite Hb.
  unfold latch_word, load_word. rewrite Hws. cbn [mbind option_bind].
  apply lookup_lt_is_Some. rewrite (ok_len _ Hok _ _ Hws). unfold OVERFLOW_ENTRY. lia.
Qed.

Lemma gate_open st se R M k a c : store_ok st R M -> synced st se -> R !! a = Some c ->
  newest R (begin_address (st_log st)) k (start (st_index st) k) (Some a) ->
  cpr_gate st se a (c_info c) = None.
Proof.
  intros Hok Hs Ha Hn. unfold cpr_gate. rewrite (newest_open st R M k a c Hok Ha Hn).
  unfold synced in Hs. rewrite Hs. case_bool_decide as Hp; [|done].
  by rewrite (so_cpr _ _ _ Hok Hp _ _ Ha).
Qed.

(** Walking the key's chain from its slot. *)
Lemma trace_slot st R M k w min : store_ok st R M -> start (st_index st) k = entry_address w ->
  head_address (st_log st) <= min ->
  exists t, trace_back (trace_fuel (entry_address w)) (st_log st) (entry_address w) k min = Some t /\
  match t with
  | TFound a => min <= a /\ exists c, R !! a = Some c /\ record_at (st_log st) a = Some c /\
      newest R (begin_address (st_log st)) k (start (st_index st) k) (Some a)
  | TStopped a => a < min /\ a <= entry_address w /\ start_ok R (begin_address (st_log st)) a /\
      forall r, newest R (begin_address (st_log st)) k a r ->
        newest R (begin_address (st_log st)) k (start (st_index st) k) r
  end.
Proof.
  intros Hok Hst Hmin. pose proof (so_begin _ _ _ Hok) as Hb. pose proof (so_log _ _ _ Hok) as Hlog.
  pose proof (lo_marks _ _ Hlog) as Hm. pose proof (mk_safe_head _ Hm). pose proof (mk_head _ Hm).
  pose proof (so_start _ _ _ Hok k) as Hs. rewrite Hst in Hs |- *.
  destruct (trace_back_spec (trace_fuel (entry_address w)) (st_log st) R k min (entry_address w) Hlog
    (so_cells _ _ _ Hok)) as (t & E & Ht); [lia|lia|pose proof (lo_floor _ _ Hlog); lia|done|unfold trace_fuel; lia|].
  exists t. split; [done|]. destruct t as [a|a]; [|done].
  destruct Ht as (Hn & Hr & c & Hc & _ & Hrec). split; [lia|]. by exists c.
Qed.

(** An attempt that first created the key's entry. *)
Lemma attempt_after_create {Out : Type} st ix R M k (E : option Status -> option cell -> Out -> Prop) (body : option _) :
  (forall b, latch_bits ix b = latch_bits (st_index st) b) ->
  (forall k', indexed (st_index st) k' -> indexed ix k') -> indexed ix k ->
  start ix k = start (st_index st) k \/
    start ix k < begin_address (st_log st) /\ start (st_index st) k < begin_address (st_log st) ->
  arena k (st_index st) ix ->
  (exists x, body = Some x /\ attempt_ok (set_index st ix) R M k E x) ->
  exists x, body = Some x /\ attempt_ok st R M k E x /\ indexed (st_index (snd x)) k.
Proof.
  intros Hl Hi Hk Hst Har (x & -> & Hx). exists x. split; [done|]. destruct x as [[r out] st'].
  assert (Hk' : step_ok (set_index st ix) st' -> indexed (st_index st') k) by (intros S; by apply (sk_indexed _ _ S)).
  assert (Hstep : step_ok (set_index st ix) st' -> step_ok st st').
  { intros [S1 S2 S3 S3' S4 S5 S6 S7]. split; try done; [|by auto]. intros b. by rewrite S3, <- Hl. }
  split.
  2: { apply Hk'. destruct r; cbn [attempt_ok outcome] in Hx; by (destruct Hx as (? & ? & ? & _) || destruct Hx). }
  assert (Hspt : spent k (set_index st ix) st' -> spent k st st') by (by apply spent_before).
  destruct r as [s| | |addr latest|]; cbn [attempt_ok outcome] in *.
  - destruct Hx as (R' & v & Hs & ? & ? & ?). exists R', v. split; [by apply Hstep|]. split; [done|]. split; [auto|done].
  - destruct Hx as (R' & v & _ & _ & _ & []).
  - destruct Hx as (R' & v & Hs & Ho & Hsp & HE & Hr & Hv & Hq & Hm). exists R', v. split; [by apply Hstep|].
    split; [done|]. split; [by auto|]. split; [done|]. split; [done|]. split; [done|]. cbn [st_log st_index set_index] in *. split.
    + intros Hb. destruct Hst as [E1|[? ?]]; [|lia]. rewrite <- E1. apply Hq. by rewrite E1.
    + destruct Hm as [|(x & Hn & Hx)]; [by left|]. destruct Hst as [<-|[Hlt _]]; [right; by exists x|].
      pose proof (newest_det _ _ _ _ _ _ Hn (newest_end _ _ _ _ Hlt)). done.
  - destruct Hx as (Hs & ? & ? & ?). split; [by apply Hstep|]. split; [done|]. split; [auto|done].
  - destruct Hx as (R' & v & _ & _ & _ & []).
Qed.

Section Attempt.
Context {Input Out : Type} {F : SessionFunctions Input Out} {input_ok : Input -> Prop}
  {HF : LawfulFunctions F input_ok}.
Context (st : Store) (se : Session) (R : gmap Z cell) (M : gmap bytes cell) (k : bytes) (e0 : Z).
Context (Hok : store_ok st R M) (Hsync : synced st se) (Hroom : room (st_log st))
  (Hg : guard (st_log st) e0 (head_address (st_log st)))
  (Hfree : txn_mode se = false -> latch_free (st_index st)).

Let nv := sys_in_new_version (system_state st).

Lemma done_same st1 (E : option Status -> option cell -> Out -> Prop) s out : store_ok st1 R M ->
  E (Some s) (M !! k) out -> attempt_ok st1 R M k E ((OpDone s, out), st1).
Proof.
  intros Hok1 HE. exists R, (M !! k). rewrite bind_key_same.
  split; [apply step_ok_refl, (so_lively _ _ _ Hok1)|]. split; [done|]. split; [by apply spent_same|done].
Qed.

Lemma on_disk_spec st1 a : store_ok st1 R M ->
  on_disk st1 a = true /\ begin_address (st_log st1) <= a \/
  on_disk st1 a = false /\ a < begin_address (st_log st1).
Proof.
  intros Hok1. pose proof (so_begin _ _ _ Hok1). unfold on_disk, FIRST_VALID_ADDRESS, PAGE_HEADER_SIZE in *.
  destruct (Z.leb_spec (begin_address (st_log st1)) a); [left|by right].
  destruct (Z.leb_spec 64 a); [done|lia].
Qed.

Lemma stopped_absent st1 a : store_ok st1 R M -> a < begin_address (st_log st1) ->
  (forall r, newest R (begin_address (st_log st1)) k a r ->
     newest R (begin_address (st_log st1)) k (start (st_index st1) k) r) -> M !! k = None.
Proof.
  intros Hok1 Ha Hn. pose proof (Hn None (newest_end _ _ _ _ Ha)) as Hnew.
  by destruct (so_map _ _ _ Hok1 _ _ Hnew) as [<- _].
Qed.

Lemma stopped_on_disk st1 a w (E : option Status -> option cell -> Out -> Prop) out : store_ok st1 R M ->
  start (st_index st1) k = entry_address w -> begin_address (st_log st1) <= a -> a <= entry_address w ->
  start_ok R (begin_address (st_log st1)) a -> a < head_address (st_log st1) ->
  (forall r, newest R (begin_address (st_log st1)) k a r ->
     newest R (begin_address (st_log st1)) k (start (st_index st1) k) r) ->
  E None (M !! k) out -> attempt_ok st1 R M k E ((OpRecordOnDisk a (entry_address w), out), st1).
Proof.
  intros Hok1 Hst Hb Hw Hs Hh Hn HE. split; [apply step_ok_refl, (so_lively _ _ _ Hok1)|]. split; [done|].
  split; [by apply spent_same|]. split; [done|]. split; [|done]. split; [done|]. split; [lia|]. by split_and!.
Qed.

Lemma synced_eq st1 : st_state st1 = st_state st -> synced st1 se.
Proof. unfold synced, system_state in *. congruence. Qed.

(** Creating the entry first changes nothing an attempt depends on. *)
Lemma latch_free_created ix : (forall b, latch_bits ix b = latch_bits (st_index st) b) ->
  txn_mode se = false -> latch_free ix.
Proof.
  intros Hl Htx bi [w Hw]. rewrite Hl. apply (Hfree Htx). specialize (Hl (Main bi)). unfold latch_bits in Hl.
  unfold latch_word in *. rewrite Hw in Hl. cbn [mbind option_bind] in Hl.
  destruct (load_word (st_index st) (Main bi) OVERFLOW_ENTRY); [by eexists|done].
Qed.

Lemma cell_of st1 a c : store_ok st1 R M -> R !! a = Some c -> cell_ok c.
Proof. intros Hok1 Ha. by destruct (so_cells _ _ _ Hok1 _ _ Ha). Qed.

(** An attempt under the bucket latch, from the load of the slot. *)
Lemma latched_attempt st0 slot excl (E : option Status -> option cell -> Out -> Prop) busy
    (body : Store -> word -> option ((Op * Out) * Store)) :
  store_ok st0 R M -> st_log st0 = st_log st -> st_state st0 = st_state st ->
  (txn_mode se = false -> latch_free (st_index st0)) -> find_tag (st_index st0) (hash64 k) = Some (Some slot) ->
  (forall st1 w, store_ok st1 R M -> synced st1 se -> st_log st1 = st_log st -> system_state st1 = system_state st ->
     room (st_log st1) -> guard (st_log st1) e0 (head_address (st_log st1)) ->
     find_tag (st_index st1) (hash64 k) = Some (Some slot) -> slot_load (st_index st1) slot = Some w ->
     start (st_index st1) k = entry_address w -> start (st_index st1) k = start (st_index st0) k ->
     exists x, body st1 w = Some x /\ attempt_ok st1 R M k E x) ->
  exists x, latch (txn_mode se) (sr_bucket slot) excl st0 busy
      (fun st => entry ← slot_load (st_index st) slot; body st entry) = Some x /\ attempt_ok st0 R M k E x.
Proof.
  intros Hok0 El0 Es0 Hfree0 Hf Hbody.
  destruct (slot_word (st_index st0) k slot (so_table _ _ _ Hok0) Hf) as (w & Hw & Hlw & Hst).
  apply latch_attempt; [done|done|done|]. intros st1 Hok1 El Es Ec Hfind.
  destruct (Hfind (hash64 k) (hash64_nonneg k)) as [Hf1 He1]. rewrite Hf in Hf1.
  destruct (slot_word _ _ _ (so_table _ _ _ Hok1) Hf1) as (w1 & Hw1 & _ & Hst1).
  rewrite Hw1. cbn [mbind option_bind]. rewrite El0 in El. rewrite Es0 in Es.
  apply Hbody; rewrite ?El; try done; [by apply synced_eq|unfold system_state; by rewrite Es|].
  unfold start. by rewrite He1.
Qed.

Lemma unindexed_absent : find_tag (st_index st) (hash64 k) = Some None -> M !! k = None.
Proof.
  intros Ef. apply (stopped_absent st INVALID_ADDRESS Hok).
  - pose proof (so_begin _ _ _ Hok). unfold INVALID_ADDRESS, FIRST_VALID_ADDRESS, PAGE_HEADER_SIZE in *. lia.
  - intros r. unfold start, entry_word. by rewrite Ef.
Qed.

Lemma internal_read_spec i out : input_ok i ->
  exists x, internal_read st se k (hash64 k) i out = Some x /\
    attempt_ok st R M k (read_effect k i (M !! k) out) x.
Proof.
  intros Hin. unfold internal_read. pose proof (so_table _ _ _ Hok) as Ht.
  destruct (find_tag_spec (st_index st) (hash64 k) Ht (hash64_nonneg k)) as ([slot|] & Ef & _); rewrite Ef;
    cbn [mbind option_bind].
  2: { eexists. split; [reflexivity|]. apply done_same; [done|].
       rewrite (unindexed_absent Ef). apply rd_absent. }
  apply (latched_attempt st slot); [done..|]. intros st1 w1 Hok1 Hsync1 El Es _ _ Hf1 Hw1 Hst1 _. cbv zeta.
  destruct (trace_slot st1 R M k w1 _ Hok1 Hst1 (Z.le_refl _)) as (t & Et & Hpost). rewrite Et.
  cbn [mbind option_bind]. destruct t as [a|a].
  - destruct Hpost as (_ & c & Ha & Hrec & Hn). rewrite Hrec. cbn [mbind option_bind].
    rewrite (gate_open st1 se R M k a c) by done.
    pose proof (newest_bound st1 R M k a c Hok1 Ha Hn) as Hb.
    destruct (is_tombstone (c_info c)).
    + eexists. split; [reflexivity|]. apply done_same; [done|]. rewrite Hb. apply rd_absent.
    + destruct (reader_total k i c out Hin (cell_of _ _ _ Hok1 Ha)) as [[b out'] Er]. rewrite Er.
      cbn [mbind option_bind]. eexists. split; [reflexivity|]. apply done_same; [done|]. rewrite Hb.
      by apply rd_found.
  - destruct Hpost as (Hlt & Hle & Hs & Hn). destruct (on_disk_spec st1 a Hok1) as [[-> Hb]|[-> Hb]].
    + eexists. split; [reflexivity|]. apply stopped_on_disk; try done. apply rd_refused.
    + eexists. split; [reflexivity|]. apply done_same; [done|].
      rewrite (stopped_absent st1 a Hok1 Hb Hn). apply rd_absent.
Qed.

Lemma internal_upsert_spec i out : input_ok i -> fits (st_log st) (upsert_size k i) ->
  indexable (st_index st) k ->
  exists x, internal_upsert st se k (hash64 k) i out = Some x /\
    attempt_ok st R M k (upsert_effect nv k i (M !! k) out) x /\ indexed (st_index (snd x)) k.
Proof.
  intros Hin Hfit Harena. unfold internal_upsert, TAG_ATTEMPTS.
  destruct (store_find_or_create st R M k 0 Hok Harena) as (slot & ix & E & Hok0 & Hf & Hmask & Hst0 & Hi & Hl & Har).
  rewrite E. cbn [mbind option_bind].
  apply (attempt_after_create st ix); [done|done|by eapply found_indexed; [apply Hok0|]|done|done|].
  apply (latched_attempt (set_index st ix) slot); [done|done|done|by apply latch_free_created|done|].
  intros st1 w1 Hok1 Hsync1 El Es Hroom1 Hg1 Hf1 Hw1 Hst1 _. cbv zeta.
  destruct (marks_ordered st1 R M Hok1) as [Hm1 Hm2].
  assert (Env : sys_in_new_version (system_state st1) = nv) by by rewrite Es.
  destruct (trace_slot st1 R M k w1 (read_only_address (st_log st1)) Hok1 Hst1) as (t & Et & Hpost); [lia|].
  rewrite Et. cbn [mbind option_bind].
  assert (Hfit1 : fits (st_log st1) (upsert_size k i)) by by rewrite El.
  assert (Hnew : forall old, (forall a, old = Some a -> exists c, resident R k (head_address (st_log st1)) a c) ->
    exists x, upsert_new st1 se slot w1 k i out old = Some x /\ attempt_ok st1 R M k (upsert_effect nv k i (M !! k) out) x).
  { intros old Hold. rewrite <- Env.
    destruct (upsert_new_effect st1 se R M k i slot w1 e0 Hok1 Hsync1 Hin Hroom1 Hf1 Hw1 Hg1 out old Hfit1 Hold)
      as (x & Ex & Hx). exists x. split; [exact Ex|by apply outcome_attempt]. }
  destruct t as [a|a]; [|by apply Hnew].
  destruct Hpost as (Hge & c & Ha & Hrec & Hn). rewrite Hrec. cbn [mbind option_bind].
  rewrite (gate_open st1 se R M k a c) by done.
  destruct (is_tombstone (c_info c)) eqn:Ht; [by apply Hnew|].
  assert (Hat : newest_at st1 R k a c) by (split_and!; [done..|lia|done]).
  destruct (cpr_blocks_in_place st1 se a (c_info c)).
  { apply Hnew. intros ? [= <-]. exists c. by eapply newest_at_resident. }
  destruct (upsert_in_place st1 se R M k i slot w1 e0 Hok1 Hsync1 Hin Hroom1 Hf1 Hw1 Hg1 a c out Hat
    ltac:(lia) Hfit1) as (x & Ex & Hx).
  exists x. split; [exact Ex|]. rewrite <- Env. by apply outcome_attempt.
Qed.

(** What a disk search started at the chain's head [seen] has found. *)
Definition disk_ok (res : option cell) (seen : Z) : Prop :=
  seen = start (st_index st) k /\ begin_address (st_log st) <= seen /\
  exists r, newest R (begin_address (st_log st)) k (start (st_index st) k) r /\
    (forall x, r = Some x -> x < head_address (st_log st)) /\
    res = (x ← r; c ← R !! x; Some (unseal_img c)).

Lemma unseal_open c : is_u64 (c_info c) -> is_closed (c_info c) = false -> unseal_img c = c.
Proof.
  intros Hu Hc. destruct c as [w kk v e cap]. cbn [c_info] in *. unfold unseal_img, c_set_info. cbn [c_info]. f_equal.
  unfold is_closed in Hc. apply orb_false_iff in Hc as [_ Hs]. rewrite is_sealed_bit in Hs.
  change (not64 SEALED_BIT) with (not64 (2 ^ 52)). apply word_eq. intros n Hn.
  rewrite Z.land_spec, testbit_not64, Z.pow2_bits_eqb by lia.
  destruct (Z.eqb_spec 52 n) as [<-|]; simpl; [rewrite andb_false_r; by symmetry|].
  destruct (Z.ltb_spec n 64); simpl; [by rewrite andb_true_r|]. by rewrite testbit_u64.
Qed.

Lemma disk_source res seen : disk_ok res seen ->
  match res with
  | Some c => M !! k = (if is_tombstone (c_info c) then None else Some c) /\ cell_ok c
  | None => M !! k = None
  end.
Proof.
  intros (_ & _ & r & Hn & _ & ->). destruct (so_map _ _ _ Hok k r Hn) as [<- Ho].
  destruct r as [x|]; [|done]. apply newest_cell in Hn as (_ & c & Hc & _).
  unfold value_of. cbn [mbind option_bind]. rewrite Hc. cbn [mbind option_bind].
  destruct (so_cells _ _ _ Hok x c Hc) as (Hco & _). rewrite unseal_open; [done|apply Hco|by eapply Ho].
Qed.
Lemma internal_rmw_spec i out disk : input_ok i -> rmw_fits k i (st_log st) (M !! k) ->
  indexable (st_index st) k ->
  (forall res seen, disk = Some (res, seen) -> disk_ok res seen) ->
  exists x, internal_rmw st se k (hash64 k) i out disk = Some x /\
    attempt_ok st R M k (rmw_effect nv k i (M !! k) out) x /\ indexed (st_index (snd x)) k.
Proof.
  intros Hin Hfits Harena Hdisk. unfold internal_rmw, TAG_ATTEMPTS.
  destruct (store_find_or_create st R M k 0 Hok Harena) as (slot & ix & E & Hok0 & Hf & Hmask & Hst0 & Hi & Hl & Har).
  rewrite E. cbn [mbind option_bind].
  apply (attempt_after_create st ix); [done|done|by eapply found_indexed; [apply Hok0|]|done|done|].
  apply (latched_attempt (set_index st ix) slot); [done|done|done|by apply latch_free_created|done|].
  intros st1 w1 Hok1 Hsync1 El Es Hroom1 Hg1 Hf1 Hw1 Hst1 Hsame. cbv zeta. rewrite <- El in Hfits.
  assert (Env : sys_in_new_version (system_state st1) = nv) by by rewrite Es. rewrite <- Env.
  assert (Hinit : M !! k = None -> exists x, rmw_initial st1 se slot w1 k i out = Some x /\
    attempt_ok st1 R M k (rmw_effect (sys_in_new_version (system_state st1)) k i (M !! k) out) x).
  { intros Hb. destruct (rmw_initial_effect st1 se R M k i slot w1 e0 Hok1 Hsync1 Hin Hroom1 Hf1 Hw1 Hg1 out Hb Hfits)
      as (x & Ex & Hx). exists x. split; [exact Ex|by apply outcome_attempt]. }
  assert (Hcopy : forall old c seal, M !! k = Some c -> cell_ok c -> old_ok R k (head_address (st_log st1)) old c ->
    exists x, rmw_copy st1 se slot w1 k i out old seal = Some x /\
      attempt_ok st1 R M k (rmw_effect (sys_in_new_version (system_state st1)) k i (M !! k) out) x).
  { intros old c seal Hb Hc Hold.
    destruct (rmw_copy_effect st1 se R M k i slot w1 e0 Hok1 Hsync1 Hin Hroom1 Hf1 Hw1 Hg1 old c seal out Hb Hc Hold Hfits)
      as (x & Ex & Hx). exists x. split; [exact Ex|by apply outcome_attempt]. }
  destruct (trace_slot st1 R M k w1 _ Hok1 Hst1 (Z.le_refl _)) as (t & Et & Hpost). rewrite Et.
  cbn [mbind option_bind]. destruct t as [a|a].
  - destruct Hpost as (Hge & c & Ha & Hrec & Hn). rewrite Hrec. cbn [mbind option_bind].
    rewrite (gate_open st1 se R M k a c) by done.
    pose proof (newest_bound st1 R M k a c Hok1 Ha Hn) as Hb.
    destruct (is_tombstone (c_info c)) eqn:Ht; [by apply Hinit|].
    assert (Hat : newest_at st1 R k a c) by by split_and!.
    pose proof (newest_at_resident st1 R M k Hok1 a c Hat) as Hres.
    pose proof (cell_of st1 a c Hok1 Ha) as Hc. destruct (marks_ordered st1 R M Hok1) as [Hm1 Hm2].
    destruct (Z.leb_spec (read_only_address (st_log st1)) a) as [Hro|Hro].
    + destruct (cpr_blocks_in_place st1 se a (c_info c)); [by apply (Hcopy _ c)|].
      destruct (rmw_in_place st1 se R M k i slot w1 e0 Hok1 Hsync1 Hin Hroom1 Hf1 Hw1 Hg1 a c out Hat
        ltac:(lia) Hfits) as (x & Ex & Hx).
      exists x. split; [exact Ex|by apply outcome_attempt].
    + destruct (Z.leb_spec (safe_read_only_address (st_log st1)) a); [|by apply (Hcopy _ c)].
      eexists. split; [reflexivity|]. apply outcome_attempt. apply (fuzzy_outcome st1 R M k Hok1 a); [lia|apply re_refused].
  - destruct Hpost as (Hlt & Hle & Hs & Hn). destruct (on_disk_spec st1 a Hok1) as [[-> Hb]|[-> Hb]].
    2: { apply Hinit. by apply (stopped_absent st1 a Hok1 Hb Hn). }
    destruct disk as [[src seen]|].
    2: { eexists. split; [reflexivity|]. apply stopped_on_disk; try done. apply re_refused. }
    pose proof (Hdisk src seen eq_refl) as Hd. pose proof (disk_source src seen Hd) as Hsrc.
    assert (seen = entry_address w1) as ->.
    { destruct Hd as (-> & Hbs & _). rewrite <- Hst1, Hsame. cbn [st_index set_index].
      destruct Hst0 as [<-|[_ ?]]; [done|lia]. }
    unfold still_on_disk. rewrite Z.eqb_refl. cbn [mbind option_bind].
    destruct src as [c|]; [|by apply Hinit]. destruct Hsrc as [Hb1 Hc].
    destruct (is_tombstone (c_info c)); cbn [negb]; [by apply Hinit|by apply (Hcopy _ c)].
Qed.

Lemma internal_delete_spec out disk : fits (st_log st) (SizeInfo (length k) 0 false) ->
  (forall b seen, disk = Some (b, seen) -> exists res, disk_ok res seen /\
     b = match res with Some c => negb (is_tombstone (c_info c)) | None => false end) ->
  exists x, internal_delete st se k (hash64 k) out disk = Some x /\
    attempt_ok st R M k (delete_effect k (M !! k) out) x.
Proof.
  intros Hfit Hdisk. unfold internal_delete. pose proof (so_table _ _ _ Hok) as Ht.
  destruct (find_tag_spec (st_index st) (hash64 k) Ht (hash64_nonneg k)) as ([slot|] & Ef & _); rewrite Ef;
    cbn [mbind option_bind].
  2: { eexists. split; [reflexivity|]. apply done_same; [done|]. rewrite (unindexed_absent Ef). apply de_absent. }
  apply (latched_attempt st slot); [done..|]. intros st1 w1 Hok1 Hsync1 El Es Hroom1 Hg1 Hf1 Hw1 Hst1 Hsame.
  cbv zeta. rewrite <- El in Hfit.
  assert (Habs : M !! k = None -> attempt_ok st1 R M k (delete_effect k (M !! k) out) ((OpDone NotFound, out), st1)).
  { intros Hb. apply done_same; [done|]. rewrite Hb. apply de_absent. }
  assert (Hrcu : forall old c, M !! k = Some c ->
    (forall o, old = Some o -> old_ok R k (head_address (st_log st1)) o c) ->
    exists x, delete_rcu st1 se slot w1 k out old = Some x /\ attempt_ok st1 R M k (delete_effect k (M !! k) out) x).
  { intros old c Hb Hold.
    destruct (delete_rcu_effect st1 se R M k slot w1 e0 Hok1 Hsync1 Hroom1 Hf1 Hw1 Hg1 old c out Hb Hold Hfit)
      as (x & Ex & Hx). exists x. split; [exact Ex|by apply outcome_attempt]. }
  destruct (trace_slot st1 R M k w1 _ Hok1 Hst1 (Z.le_refl _)) as (t & Et & Hpost). rewrite Et.
  cbn [mbind option_bind]. destruct t as [a|a].
  - destruct Hpost as (Hge & c & Ha & Hrec & Hn). rewrite Hrec. cbn [mbind option_bind].
    rewrite (gate_open st1 se R M k a c) by done.
    pose proof (newest_bound st1 R M k a c Hok1 Ha Hn) as Hb.
    destruct (is_tombstone (c_info c)) eqn:Htc; [eexists; split; [reflexivity|by apply Habs]|].
    assert (Hat : newest_at st1 R k a c) by by split_and!.
    pose proof (newest_at_resident st1 R M k Hok1 a c Hat) as Hres.
    destruct (marks_ordered st1 R M Hok1) as [Hm1 Hm2].
    destruct (_ && _) eqn:Eb.
    + apply andb_true_iff in Eb as [Hro%Z.leb_le _].
      destruct (delete_in_place st1 R M k Hok1 a c out Hat ltac:(lia)) as (x & Ex & Hx).
      exists x. split; [exact Ex|by apply outcome_attempt].
    + apply (Hrcu _ c Hb). by intros o [= <-].
  - destruct Hpost as (Hlt & Hle & Hs & Hn). destruct (on_disk_spec st1 a Hok1) as [[-> Hb]|[-> Hb]].
    2: { eexists. split; [reflexivity|]. apply Habs. by apply (stopped_absent st1 a Hok1 Hb Hn). }
    destruct disk as [[b seen]|].
    2: { eexists. split; [reflexivity|]. apply stopped_on_disk; try done. apply de_refused. }
    destruct (Hdisk b seen eq_refl) as (res & Hd & ->). pose proof (disk_source res seen Hd) as Hsrc.
    assert (seen = entry_address w1) as -> by (destruct Hd as (-> & _); congruence).
    unfold still_on_disk. rewrite Z.eqb_refl. cbn [mbind option_bind].
    destruct res as [c|]; [|eexists; split; [reflexivity|by apply Habs]]. destruct Hsrc as [Hb1 Hc].
    destruct (is_tombstone (c_info c)); cbn [negb]; [eexists; split; [reflexivity|by apply Habs]|by apply (Hrcu _ c)].
Qed.
End Attempt.

End Attempt_kinds.
