(* ===== verification/StoreRefine.v ===== *)
(** * The store implements a map

    [read], [upsert], [rmw] and [delete_key], with their retry loops, against
    the abstract map: with no other thread inside the epoch each returns within
    a few attempts, performs its effect on its key and leaves every other key
    alone. *)

From S2P Require Import Prelude Record Hash Index IndexSpec Latch Epoch Log LogSpec LogLive LogTiling Session.
From S2P Require Import Store StoreInv StoreSpec StoreAttempt.

#[local] Opaque hash64.

(** Slots of the epoch table that belong to other threads, each with its owner,
    0 for a free one. *)
Class reserved : Type := Reserved : list (nat * Z).
Definition nothing_reserved : reserved := [].
Definition owned {A} (e : LightEpoch A) (x : nat * Z) : Prop := exists s, table e !! fst x = Some s /\ s_owner s = snd x.

Lemma slot_start_bound tid : (slot_start tid < MAX_THREADS)%nat.
Proof.
  unfold slot_start. apply Nat2Z.inj_lt. rewrite Z2Nat.id by (apply Z.mod_pos_bound; unfold MAX_THREADS; lia).
  apply Z.mod_pos_bound. unfold MAX_THREADS. lia.
Qed.

Section Refinement.
Context {fl : floor} {rs : reserved}.

(** ** Entering and leaving the epoch *)

(** The thread has, or can claim, an epoch slot, the reserved ones stay as they are,
    nobody is inside the epoch, and no bucket latch is held unless the session is
    in a transaction. *)
Record ready (st : Store) (se : Session) : Prop := {
  rd_quiet : nobody_inside (st_log st);
  rd_current : 0 < current (epoch (st_log st));
  rd_tid : se_tid se <> 0;
  rd_slot : is_Some (my_slot (epoch (st_log st)) (se_tid se) (se_slot se));
  rd_free : txn_mode se = false -> latch_free (st_index st);
  rd_reserved : forall idx e' x, my_slot (epoch (st_log st)) (se_tid se) (se_slot se) = Some (idx, e') -> x ∈ Reserved ->
    idx <> fst x /\ owned (epoch (st_log st)) x;
  rd_table : length (table (epoch (st_log st))) = MAX_THREADS }.

Lemma claim_slot_spec {A} fuel (e : LightEpoch A) tid i idx e' :
  claim_slot fuel e tid i = Some (idx, e') ->
  exists s, table e !! idx = Some s /\ e' = set_slot e idx (ESlot (s_epoch s) tid).
Proof.
  revert i. induction fuel as [|fuel IH]; intros i; cbn [claim_slot]; [done|]. cbv zeta.
  set (j := ((slot_start tid + i) mod MAX_THREADS)%nat). clearbody j.
  destruct (table e !! j) as [s|] eqn:Es; [|done]. destruct (s_owner s =? 0); [|apply IH].
  intros [= <- <-]. by exists s.
Qed.

Lemma my_slot_spec {A} (e : LightEpoch A) tid cached idx e' : tid <> 0 ->
  my_slot e tid cached = Some (idx, e') ->
  (exists s, table e' !! idx = Some s /\ s_owner s = tid) /\
  (forall j, s_epoch <$> table e' !! j = s_epoch <$> table e !! j) /\
  (forall j, idx <> j -> table e' !! j = table e !! j) /\
  current e' = current e /\ drain_list e' = drain_list e.
Proof.
  intros Htid H.
  assert (Hc : claim_slot MAX_THREADS e tid 0 = Some (idx, e') ->
    (exists s, table e' !! idx = Some s /\ s_owner s = tid) /\
    (forall j, s_epoch <$> table e' !! j = s_epoch <$> table e !! j) /\
    (forall j, idx <> j -> table e' !! j = table e !! j) /\
    current e' = current e /\ drain_list e' = drain_list e).
  { intros (s & Hs & ->)%claim_slot_spec. cbn [set_slot table current drain_list]. split; [|split].
    - eexists. rewrite list_lookup_insert_eq; [done|]. by eapply lookup_lt_Some.
    - intros j. destruct (decide (idx = j)) as [<-|]; [|by rewrite list_lookup_insert_ne].
      rewrite list_lookup_insert_eq by (by eapply lookup_lt_Some). by rewrite Hs.
    - split; [|done]. intros j Hj. by rewrite list_lookup_insert_ne. }
  unfold my_slot in H. destruct cached as [i|]; [|by apply Hc].
  unfold owner_at in H. destruct (table e !! i) as [s|] eqn:Es.
  - destruct (Z.eqb_spec (s_owner s) tid) as [Eo|]; [|by apply Hc].
    injection H as <- <-. split; [by exists s|done].
  - destruct (Z.eqb_spec 0 tid); [done|by apply Hc].
Qed.

(** Which slot it is depends on the table only. *)
Lemma my_slot_table {A} (e1 e2 : LightEpoch A) tid cached idx e' : table e2 = table e1 ->
  my_slot e1 tid cached = Some (idx, e') -> exists e'', my_slot e2 tid cached = Some (idx, e'').
Proof.
  intros Et. assert (Hcl : forall fuel i idx e', claim_slot fuel e1 tid i = Some (idx, e') -> exists e'', claim_slot fuel e2 tid i = Some (idx, e'')).
  { clear idx e'. induction fuel as [|fuel IH]; intros i idx e'; cbn [claim_slot]; [done|]. cbv zeta. rewrite Et.
    destruct (table e1 !! _) as [s|]; [|done]. destruct (s_owner s =? 0); [intros [= <- _]; by eexists|apply IH]. }
  unfold my_slot, owner_at. rewrite Et. destruct cached as [j|]; [|apply Hcl].
  destruct (_ =? tid); [intros [= <- _]; by eexists|apply Hcl].
Qed.

Lemma my_slot_length {A} (e : LightEpoch A) tid cached idx e' : my_slot e tid cached = Some (idx, e') ->
  length (table e') = length (table e).
Proof.
  assert (Hc : claim_slot MAX_THREADS e tid 0 = Some (idx, e') -> length (table e') = length (table e)).
  { intros (s & _ & ->)%claim_slot_spec. cbn [set_slot table]. apply length_insert. }
  unfold my_slot. destruct cached as [i|]; [destruct (_ =? tid); [by intros [= _ <-]|]|]; exact Hc.
Qed.
Lemma set_epoch_length {A} (e : LightEpoch A) idx v : length (table (set_epoch e idx v)) = length (table e).
Proof. apply length_alter. Qed.

(** The probe visits every slot, so it finds a free one. *)
Lemma claim_slot_none {A} fuel (e : LightEpoch A) tid : length (table e) = MAX_THREADS -> forall i, claim_slot fuel e tid i = None ->
  forall k, (i <= k < i + fuel)%nat -> ~ owned e (((slot_start tid + k) mod MAX_THREADS)%nat, 0).
Proof.
  intros Hlen. induction fuel as [|fuel IH]; intros i; [lia|]. cbn [claim_slot]. cbv zeta.
  destruct (table e !! ((slot_start tid + i) mod MAX_THREADS)%nat) as [s|] eqn:Es.
  - destruct (Z.eqb_spec (s_owner s) 0) as [|Hne]; [done|]. intros E k Hk. destruct (decide (k = i)) as [->|Hki].
    + intros (s' & Hs' & Ho). cbn [fst snd] in *. congruence.
    + apply (IH _ E). lia.
  - exfalso. apply lookup_ge_None in Es. rewrite Hlen in Es. pose proof (Nat.mod_upper_bound (slot_start tid + i) MAX_THREADS ltac:(done)). lia.
Qed.
Lemma claim_slot_free {A} (e : LightEpoch A) tid j : length (table e) = MAX_THREADS -> owned e (j, 0) ->
  is_Some (claim_slot MAX_THREADS e tid 0).
Proof.
  intros Hlen Hj. destruct (claim_slot MAX_THREADS e tid 0) eqn:E; [by eexists|exfalso].
  assert (Hlt : (j < MAX_THREADS)%nat) by (destruct Hj as (s & Hs & _); apply lookup_lt_Some in Hs; cbn in Hs; lia).
  assert (Hst : (slot_start tid < MAX_THREADS)%nat) by apply slot_start_bound.
  apply (claim_slot_none _ _ _ Hlen 0 E ((j + MAX_THREADS - slot_start tid) mod MAX_THREADS)).
  { pose proof (Nat.mod_upper_bound (j + MAX_THREADS - slot_start tid) MAX_THREADS ltac:(done)). lia. }
  rewrite Nat.Div0.add_mod_idemp_r. replace (slot_start tid + (j + MAX_THREADS - slot_start tid))%nat with (j + 1 * MAX_THREADS)%nat by lia.
  by rewrite Nat.Div0.mod_add, Nat.mod_small.
Qed.

Lemma my_slot_owned {A} (e : LightEpoch A) tid idx s :
  table e !! idx = Some s -> s_owner s = tid -> my_slot e tid (Some idx) = Some (idx, e).
Proof. intros Hs Ho. unfold my_slot, owner_at. by rewrite Hs, Ho, Z.eqb_refl. Qed.

Lemma set_epoch_lookup {A} (e : LightEpoch A) idx v j :
  table (set_epoch e idx v) !! j =
    if decide (idx = j) then (fun s => ESlot v (s_owner s)) <$> table e !! j else table e !! j.
Proof.
  cbn [set_epoch table]. case_decide as E; [subst; apply list_lookup_alter_eq|by apply list_lookup_alter_ne].
Qed.

Lemma store_set_epoch st R M e : store_ok st R M -> drain_list e = drain_list (epoch (st_log st)) ->
  current e = current (epoch (st_log st)) -> store_ok (set_log st (set_epoch_state (st_log st) e)) R M.
Proof.
  intros Hok Ed Ec. apply store_set_log; [done| | |done|simpl; lia|].
  - apply set_epoch_ok; [apply (so_log _ _ _ Hok)|]. rewrite Ed. apply (lo_pending _ _ (so_log _ _ _ Hok)).
  - destruct (so_lively _ _ _ Hok) as [Hf Hc He].
    split; unfold flush_pending, close_pending; cbn [epoch set_epoch_state]; rewrite ?Ed, ?Ec; done.
  - destruct (so_layout _ _ _ Hok) as [Ht [HP HQ] Hb]. split; [by apply (tiled_log (st_log st)); [..|left]| |done].
    split; [exact HP|]. intros ep ro. cbn [epoch set_epoch_state]. rewrite Ed. apply HQ.
Qed.

(** What the session sees once inside. *)
Record entered (st : Store) (se : Session) (R : gmap Z cell) (M : gmap bytes cell) (st1 : Store) (se1 : Session)
    (e0 : Z) : Prop := {
  en_ok : store_ok st1 R M;
  en_sync : synced st1 se1;
  en_txn : txn_mode se1 = txn_mode se;
  en_guard : guard (st_log st1) e0 (head_address (st_log st1));
  en_log : st_log st1 = set_epoch_state (st_log st) (epoch (st_log st1));
  en_rest : st_index st1 = st_index st /\ st_state st1 = st_state st /\
            checkpoint_start_address st1 = checkpoint_start_address st }.

(** Entering: the thread's slot shows the current epoch, and nothing at or
    above the head is closed until it leaves. *)
Lemma enter_store st se R M : store_ok st R M -> ready st se ->
  exists idx e2, protect (epoch (st_log st)) (se_tid se) (se_slot se) = Some (current e2, idx, e2) /\
    let st1 := set_log st (set_epoch_state (st_log st) e2) in
    store_ok st1 R M /\ table e2 !! idx = Some (ESlot (current e2) (se_tid se)) /\ 0 < current e2 /\
    guard (st_log st1) (current e2) (head_address (st_log st1)) /\
    (forall j s, j <> idx -> table e2 !! j = Some s -> s_epoch s = UNPROTECTED) /\
    (forall x, x ∈ Reserved -> idx <> fst x /\ owned e2 x) /\ length (table e2) = MAX_THREADS.
Proof.
  intros Hok [Hq Hc Ht [[idx e1] Hs] Hfree Hres Hlen].
  destruct (my_slot_spec _ _ _ _ _ Ht Hs) as ((s & Hi & Ho) & Hep & Hoth & Hcur & Hdr).
  set (e2 := set_epoch e1 idx (current e1)).
  assert (Hi2 : table e2 !! idx = Some (ESlot (current e2) (se_tid se))).
  { unfold e2. rewrite set_epoch_lookup, decide_True, Hi by done. simpl. by rewrite Ho. }
  exists idx, e2. unfold protect. rewrite Hs. split; [done|]. cbv zeta.
  split; [by apply store_set_epoch|]. split; [done|]. split; [unfold e2; simpl; lia|]. split.
  - pose proof (lo_marks _ _ (so_log _ _ _ Hok)) as Hm.
    split; cbn [st_log set_log epoch set_epoch_state].
    + exists idx, (ESlot (current e2) (se_tid se)). split; [exact Hi2|]. split; [done|]. unfold UNPROTECTED, e2. simpl. lia.
    + lia.
    + apply (lo_floor _ _ (so_log _ _ _ Hok)).
    + pose proof (mk_safe_head _ Hm). pose proof (mk_head _ Hm). simpl. lia.
    + intros e h Hin _. unfold e2 in Hin. cbn [set_epoch drain_list] in Hin. rewrite Hdr in Hin.
      by apply (lo_pending _ _ (so_log _ _ _ Hok)) in Hin as [_ ?].
  - split; [|split; [|unfold e2; by rewrite set_epoch_length, (my_slot_length _ _ _ _ _ Hs)];
      intros j Hj; destruct (Hres _ _ j Hs Hj) as (Hne & sj & Hsj & Hfr); split; [done|]; exists sj;
      split; [|done]; unfold e2; by rewrite set_epoch_lookup, decide_False, Hoth].
    intros j sj Hne. unfold e2. rewrite set_epoch_lookup, decide_False by done. intros Hj.
    pose proof (Hep j) as Hj'. rewrite Hj in Hj'. cbn [fmap option_fmap option_map] in Hj'.
    destruct (table (epoch (st_log st)) !! j) as [s0|] eqn:E0; [|done]. injection Hj' as Hj'.
    rewrite Hj'. by eapply Hq.
Qed.

(** Leaving, after steps that kept the other threads' slots and the latches. *)
Lemma leave_store st0 st1 st2 se R2 M2 idx : ready st0 se -> step_ok st1 st2 -> store_ok st2 R2 M2 ->
  st_index st1 = st_index st0 ->
  table (epoch (st_log st1)) !! idx = Some (ESlot (current (epoch (st_log st1))) (se_tid se)) ->
  0 < current (epoch (st_log st1)) ->
  (forall j s, j <> idx -> table (epoch (st_log st1)) !! j = Some s -> s_epoch s = UNPROTECTED) ->
  (forall x, x ∈ Reserved -> idx <> fst x /\ owned (epoch (st_log st1)) x) -> length (table (epoch (st_log st1))) = MAX_THREADS ->
  exists e3, unprotect (epoch (st_log st2)) (se_tid se) (Some idx) = Some (idx, e3) /\
    let st' := set_log st2 (set_epoch_state (st_log st2) e3) in
    store_ok st' R2 M2 /\
    forall se', se_tid se' = se_tid se -> se_slot se' = Some idx -> txn_mode se' = txn_mode se -> ready st' se'.
Proof.
  intros [_ _ Ht _ Hfree _ _] Hs2 Hok2 Eix Hi Hc Hoth Hres Hlen. pose proof (ls_table _ _ (sk_log _ _ Hs2)) as Etab.
  pose proof (ls_current _ _ (sk_log _ _ Hs2)) as Hcc. rewrite <- Etab in Hi, Hoth, Hlen.
  assert (Hres2 : forall x, x ∈ Reserved -> idx <> fst x /\ owned (epoch (st_log st2)) x) by (unfold owned in *; by rewrite Etab).
  set (e3 := set_epoch (epoch (st_log st2)) idx UNPROTECTED).
  exists e3. unfold unprotect. rewrite (my_slot_owned _ _ _ _ Hi) by done. split; [done|]. cbv zeta.
  split; [by apply store_set_epoch|]. intros se' Etid Eslot Etxn.
  split; cbn [st_log set_log epoch set_epoch_state st_index].
  - intros j sj. cbn [st_log set_log epoch set_epoch_state]. unfold e3. rewrite set_epoch_lookup. case_decide as E.
    + subst j. rewrite Hi. by intros [= <-].
    + apply Hoth. congruence.
  - unfold e3. simpl. lia.
  - congruence.
  - rewrite Eslot. exists (idx, e3). eapply my_slot_owned; [unfold e3; by rewrite set_epoch_lookup, decide_True, Hi|simpl; congruence].
  - intros Htx bi [w Hw]. rewrite (sk_latch _ _ Hs2), Eix. apply Hfree; [congruence|].
    pose proof (sk_latch _ _ Hs2 (Main bi)) as El. unfold latch_bits in El. unfold latch_word in *.
    rewrite Hw in El. cbn [mbind option_bind] in El. rewrite Eix in El.
    destruct (load_word (st_index st0) (Main bi) OVERFLOW_ENTRY); [by eexists|done].
  - intros i e' j. rewrite Eslot, Etid. erewrite my_slot_owned; [|unfold e3; by rewrite set_epoch_lookup, decide_True, Hi|done].
    intros [= <- _] (Hne & s & Hs & Ho)%Hres2. split; [done|]. exists s. split; [|done]. unfold e3. by rewrite set_epoch_lookup, decide_False.
  - unfold e3. by rewrite set_epoch_length.
Qed.

Lemma protected_spec st se R M : store_ok st R M -> ready st se ->
  exists st1 se1 e0, entered st se R M st1 se1 e0 /\
  forall A body (r : A) st2 R2 M2, body st1 se1 = Some (r, st2) -> step_ok st1 st2 -> store_ok st2 R2 M2 ->
    exists st' se', protected st se body = Some (r, st', se') /\ store_ok st' R2 M2 /\
      ready st' se' /\ txn_mode se' = txn_mode se /\ st_log st' = set_epoch_state (st_log st2) (epoch (st_log st')) /\
      st_index st' = st_index st2 /\ st_state st' = st_state st2 /\
      checkpoint_start_address st' = checkpoint_start_address st2.
Proof.
  intros Hok Hr. destruct (enter_store st se R M Hok Hr) as (idx & e2 & Ep & Hok1 & Hi & Hc & Hg & Hoth & Hres & Hlen).
  set (st1 := set_log st (set_epoch_state (st_log st) e2)) in *. set (se1 := sync_state se st1 idx).
  exists st1, se1, (current e2). split; [by split|].
  intros A body r st2 R2 M2 Eb Hs2 Hok2.
  destruct (leave_store st st1 st2 se R2 M2 idx Hr Hs2 Hok2 eq_refl Hi Hc Hoth Hres Hlen) as (e3 & Eu & Hok' & Hr').
  unfold protected. rewrite Ep. cbn [mbind option_bind]. fold st1 se1. rewrite Eb. cbn [mbind option_bind].
  change (se_tid se1) with (se_tid se). change (se_slot se1) with (Some idx). rewrite Eu. cbn [mbind option_bind].
  eexists _, _. split; [reflexivity|]. split; [exact Hok'|]. split; [by apply Hr'|]. by split_and!.
Qed.

(** ** One round of a retry loop *)

(** What every operation keeps. *)
Record kept (st st' : Store) : Prop := {
  kp_state : st_state st' = st_state st;
  kp_ckpt : checkpoint_start_address st' = checkpoint_start_address st;
  kp_latch : forall b, latch_bits (st_index st') b = latch_bits (st_index st) b;
  kp_indexed : forall k, indexed (st_index st) k -> indexed (st_index st') k;
  kp_begin : begin_address (st_log st') = begin_address (st_log st);
  kp_head : head_address (st_log st) <= head_address (st_log st');
  kp_bits : page_bits (st_log st') = page_bits (st_log st) }.

#[export] Instance kept_preorder : PreOrder kept.
Proof.
  split; [by split; intros|]. intros s1 s2 s3 [] []. split; try congruence; [auto|lia].
Qed.

Lemma kept_fits st st' size : kept st st' -> fits (st_log st) size -> fits (st_log st') size.
Proof. intros Hk [H1 H2]. split; [done|]. unfold page_size in *. by rewrite (kp_bits _ _ Hk). Qed.
Lemma kept_system st st' : kept st st' -> system_state st' = system_state st.
Proof. intros Hk. unfold system_state. by rewrite (kp_state _ _ Hk). Qed.

Lemma stage_epoch l e n : stage (set_epoch_state l e) n <-> stage l n.
Proof. by destruct n as [|[|[|n]]]. Qed.
Lemma moved_epoch l e l' : moved (set_epoch_state l e) l' <-> moved l l'.
Proof. split; intros []; by split. Qed.

(** The wait of [handle_retry] after a refusal: the epoch is bumped, and with
    nobody inside everything pending is done. *)
Lemma handle_retry_later st se R M attempt : store_ok st R M -> ready st se ->
  0 <= attempt < MAX_RETRIES ->
  exists st', handle_retry st OpRetryLater attempt = Some (true, attempt + 1, st') /\
    store_ok st' R M /\ ready st' se /\ kept st st' /\ settled (st_log st') /\ moved (st_log st) (st_log st') /\
    st_index st' = st_index st.
Proof.
  intros Hok [Hq Hc Ht [[idx e1] Hs] Hfree Hres Hlen] Ha. unfold handle_retry.
  destruct (Z.ltb_spec MAX_RETRIES (attempt + 1)); [lia|].
  pose proof (so_log _ _ _ Hok) as Hlog.
  destruct (log_bump_current_epoch_spec _ R Hlog) as (l' & E & Hlog' & Hm & Eh & _).
  destruct (bump_current_epoch_live _ R l' Hlog (so_lively _ _ _ Hok) E) as (Hls & Ec & Hset).
  pose proof (ls_lively _ _ Hls) as Hl'. pose proof (ls_table _ _ Hls) as Et.
  destruct (Hset Hq) as [_ Hsettled]. rewrite E. cbn [mbind option_bind].
  exists (set_log st l'). split; [done|].
  destruct (moved_pos _ _ Hm) as (_ & Etp & _).
  split.
  { apply store_set_log; [done..|apply (mv_begin _ _ Hm)|lia|].
    eapply layout_step; [exact Hls|apply (so_layout _ _ _ Hok)|apply (mv_begin _ _ Hm)|lia|left; apply (mv_tail _ _ Hm)]. }
  assert (Hmy : is_Some (my_slot (epoch l') (se_tid se) (se_slot se))).
  { destruct (my_slot_table _ (epoch l') _ _ _ _ Et Hs) as [e'' E'']. by eexists. }
  split; [split; try done|split; [|by split_and!]].
  - intros j s. cbn [st_log set_log]. rewrite Et. apply Hq.
  - cbn [st_log set_log]. lia.
  - cbn [st_log set_log]. intros i e' j Hm' Hj. destruct (my_slot_table _ _ _ _ _ _ (eq_sym Et) Hm') as [e'' E''].
    destruct (Hres _ _ j E'' Hj) as (Hne & sj & Hsj & Ho). split; [done|]. exists sj. by rewrite Et.
  - cbn [st_log set_log]. by rewrite Et.
  - split; [reflexivity|reflexivity|reflexivity|intros k Hk; exact Hk|exact (mv_begin _ _ Hm)| |exact (mv_bits _ _ Hm)].
    cbn [st_log set_log]. lia.
Qed.

Lemma step_kept st se R M st1 se1 e0 st2 st' : entered st se R M st1 se1 e0 -> step_ok st1 st2 ->
  st_log st' = set_epoch_state (st_log st2) (epoch (st_log st')) -> st_index st' = st_index st2 ->
  st_state st' = st_state st2 -> checkpoint_start_address st' = checkpoint_start_address st2 -> kept st st'.
Proof.
  intros [_ _ _ _ El (Ei & Es & Ec)] Hs E1 E2 E3 E4.
  assert (Eb : begin_address (st_log st1) = begin_address (st_log st) /\ head_address (st_log st1) = head_address (st_log st) /\
    page_bits (st_log st1) = page_bits (st_log st)) by (by rewrite El). destruct Eb as (Eb1 & Eb2 & Eb3).
  split.
  - rewrite E3, (sk_state _ _ Hs). exact Es.
  - rewrite E4, (sk_ckpt _ _ Hs). exact Ec.
  - intros b. rewrite E2, (sk_latch _ _ Hs), Ei. done.
  - intros k Hk. rewrite E2. apply (sk_indexed _ _ Hs). by rewrite Ei.
  - rewrite E1. cbn [begin_address set_epoch_state]. rewrite (sk_begin _ _ Hs). exact Eb1.
  - rewrite E1. cbn [head_address set_epoch_state]. rewrite <- Eb2. apply (sk_head _ _ Hs).
  - rewrite E1. cbn [page_bits set_epoch_state]. rewrite (sk_bits _ _ Hs). exact Eb3.
Qed.

(** What an attempt run by [protected] leads to. *)
Definition round {Out : Type} (st : Store) (se : Session) (R : gmap Z cell) (M : gmap bytes cell) (k : bytes)
    (E : option Status -> option cell -> Out -> Prop) (r : Op) (out : Out) (st' : Store) (se' : Session) : Prop :=
  ready st' se' /\ kept st st' /\ txn_mode se' = txn_mode se /\ spent k st st' /\
  match r with
  | OpRecordOnDisk addr latest => store_ok st' R M /\ E None (M !! k) out /\ continues_at st' R k addr latest /\
      st_log st' = set_epoch_state (st_log st) (epoch (st_log st'))
  | OpDone s => exists R' v, store_ok st' R' (bind_key k v M) /\ E (Some s) v out
  | OpRetryLater => exists R' v, store_ok st' R' (bind_key k v M) /\
      E None v out /\ refused (st_log st) (st_log st') /\
      (forall c1, v = Some c1 -> exists c0, M !! k = Some c0 /\ frame c0 c1) /\
      (begin_address (st_log st) <= start (st_index st) k -> start (st_index st') k = start (st_index st) k) /\
      (R' = R \/ exists x, newest R (begin_address (st_log st)) k (start (st_index st) k) (Some x) /\
                   head_address (st_log st) <= x)
  | _ => False
  end.

Lemma protected_round {Out : Type} st se R M k (E : option Status -> option cell -> Out -> Prop)
    (body : Store -> Session -> option ((Op * Out) * Store)) (Q : Op -> Store -> Prop) :
  store_ok st R M -> ready st se ->
  (forall r st2 st', st_index st' = st_index st2 -> Q r st2 -> Q r st') ->
  (forall st1 se1 e0, entered st se R M st1 se1 e0 ->
     (txn_mode se1 = false -> latch_free (st_index st1)) ->
     exists x, body st1 se1 = Some x /\ attempt_ok st1 R M k E x /\ Q (fst (fst x)) (snd x)) ->
  exists r out st' se', protected st se body = Some ((r, out), st', se') /\
    round st se R M k E r out st' se' /\ Q r st'.
Proof.
  intros Hok Hr HQ Hbody. destruct (protected_spec st se R M Hok Hr) as (st1 & se1 & e0 & Hen & Hrun).
  destruct (Hbody st1 se1 e0 Hen) as ([[r out] st2] & Eb & Hat & Hq).
  { destruct Hen as [_ _ Etx _ _ (Ei & _ & _)]. rewrite Etx, Ei. apply Hr. }
  assert (H2 : exists R2 M2, step_ok st1 st2 /\ store_ok st2 R2 M2 /\ spent k st1 st2).
  { destruct r; cbn [attempt_ok outcome] in Hat.
    4: { destruct Hat as (? & ? & ? & _). by eexists _, _. }
    all: destruct Hat as (R2 & v & ? & ? & ? & _); by eexists _, _. }
  destruct H2 as (R2 & M2 & Hs2 & Hok2 & Hsp2).
  destruct (Hrun _ body (r, out) st2 R2 M2 Eb Hs2 Hok2) as (st' & se' & E1 & Hok' & Hr' & Etx & El & Ei & Es & Ec).
  exists r, out, st', se'. split; [exact E1|]. split; [|by apply (HQ _ st2)].
  split; [done|]. split; [by eapply step_kept|]. split; [done|].
  pose proof Hen as [_ _ _ _ El1 (Ei1 & _ & _)]. split.
  { apply (spent_after _ _ st2); [by rewrite El|by rewrite Ei|]. apply (spent_before _ _ st1); [by rewrite El1|by rewrite Ei1|done]. }
  assert (Hst : forall R' M', store_ok st2 R' M' -> store_ok st' R' M').
  { intros R' M' Ho. destruct (Hrun _ body (r, out) st2 R' M' Eb Hs2 Ho) as (st3 & se3 & E3 & Ho3 & _). congruence. }
  destruct r as [s| | |addr latest|]; cbn [attempt_ok outcome] in Hat.
  - destruct Hat as (R' & v & _ & Ho & _ & HE). exists R', v. split; [by apply Hst|done].
  - by destruct Hat as (? & ? & ? & ? & ? & []).
  - destruct Hat as (R' & v & _ & Ho & _ & HE & [Hrt Hrf] & Hv & Hq1 & Hm). exists R', v. split; [by apply Hst|].
    split; [done|]. rewrite El1, Ei1 in *. rewrite El, Ei. split; [|by split_and!].
    split; [exact Hrt|]. intros n l2 Hst2 Hset Hmv. apply Hrf; [by apply stage_epoch|done|].
    by apply moved_epoch in Hmv.
  - destruct Hat as (_ & Ho & _ & HE & Hc & Hl). split; [by apply Hst|]. split; [done|]. split.
    + unfold continues_at in *. rewrite El, Ei. exact Hc.
    + rewrite El. cbn [epoch set_epoch_state]. by rewrite Hl, El1.
  - by destruct Hat as (? & ? & ? & ? & ? & []).
Qed.

(** A round that allocated nothing. *)
Definition free_round (k : bytes) (st st' : Store) : Prop :=
  tail_page (st_log st') = tail_page (st_log st) /\ arena k (st_index st) (st_index st').

(** A refused round, the wait, and what the next round starts from. *)
Lemma round_retry {Out : Type} st se R M k (E : option Status -> option cell -> Out -> Prop) out st' se' n attempt :
  room (st_log st) -> stage (st_log st) n -> 0 <= attempt -> attempt + Z.of_nat n < MAX_RETRIES ->
  round st se R M k E OpRetryLater out st' se' ->
  exists m v R' st2, n = S m /\ handle_retry st' OpRetryLater attempt = Some (true, attempt + 1, st2) /\
    store_ok st2 R' (bind_key k v M) /\ ready st2 se' /\ kept st st2 /\ txn_mode se' = txn_mode se /\
    stage (st_log st2) m /\ room (st_log st2) /\ E None v out /\ st_index st2 = st_index st' /\
    free_round k st st2 /\
    (forall res seen, disk_ok st R k res seen -> disk_ok st2 R' k res seen).
Proof.
  intros Hroom Hst Ha Hn (Hr & Hk & Htx & [_ Har] & R' & v & Hok' & HE & [Etp Hrf] & _ & Hq & Hm).
  destruct (handle_retry_later st' se' R' _ attempt Hok' Hr ltac:(lia))
    as (st2 & E1 & Hok2 & Hr2 & Hk2 & Hset & Hmv & Ei).
  destruct (Hrf n _ Hst Hset Hmv) as [Hn0 Hst2]. destruct n as [|m]; [done|]. simpl in Hst2.
  assert (Hk12 : kept st st2) by by etransitivity.
  exists m, v, R', st2. split_and!; try done.
  - destruct (moved_pos _ _ Hmv) as (_ & _ & Ep & _). unfold room, page_size in *.
    rewrite (kp_bits _ _ Hk12), Ep, Etp. exact Hroom.
  - destruct (moved_pos _ _ Hmv) as (_ & _ & Ep & _). split; [congruence|]. by rewrite Ei.
  - intros res seen (-> & Hb & r & Hnew & Hlow & Hres).
    assert (R' = R) as ->.
    { destruct Hm as [|(x & Hx & Hge)]; [done|]. assert (r = Some x) as -> by by eapply newest_det.
      pose proof (Hlow x eq_refl). lia. }
    pose proof (kp_head _ _ Hk12). unfold disk_ok. rewrite Ei, (kp_begin _ _ Hk12), (Hq Hb).
    split; [done|]. split; [done|]. exists r. split; [done|]. split; [|done].
    intros x Hx. specialize (Hlow x Hx). lia.
Qed.

(** What the device says about the key, once the chain has led below the head. *)
Lemma continues_disk st R M k addr latest : store_ok st R M -> continues_at st R k addr latest ->
  exists res, find_on_disk (trace_fuel addr) (st_log st) addr k = Some res /\ disk_ok st R k res latest.
Proof.
  intros Hok (-> & Hb & Hs & Hlt & Hn). pose proof (so_log _ _ _ Hok) as Hlog.
  pose proof (mk_flushed _ (lo_marks _ _ Hlog)).
  destruct (find_on_disk_spec (trace_fuel addr) (st_log st) R k addr Hlog (so_cells _ _ _ Hok)
    (proj1 (so_begin _ _ _ Hok)) Hs) as (res & E & Hres); [lia|unfold trace_fuel; lia|].
  exists res. split; [done|]. split; [done|]. split; [done|]. destruct res as [img|].
  - destruct Hres as (x & c & Hx & Hc & ->). exists (Some x). split; [by apply Hn|]. split.
    + intros ? [= <-]. destruct (newest_found _ _ _ _ _ Hx) as [|[]]; [lia|apply (so_cells _ _ _ Hok)].
    + cbn [mbind option_bind]. by rewrite Hc.
  - exists None. split; [by apply Hn|]. by split.
Qed.

(** ** The operations *)

Definition on_device (r : Op) : bool := match r with OpRecordOnDisk _ _ => true | _ => false end.

(** Refusals, then an effect that completes the operation. *)
Inductive tries {Out : Type} (E : option cell -> Out -> option Status -> option cell -> Out -> Prop) :
    option cell -> Out -> Status -> option cell -> Out -> Prop :=
| tries_done v out s v' out' : E v out (Some s) v' out' -> tries E v out s v' out'
| tries_again v out v1 out1 s v' out' : E v out None v1 out1 -> tries E v1 out1 s v' out' ->
    tries E v out s v' out'.

(** The operation returned: it did [T] to [k], and nothing to any other key. *)
Definition performed (st : Store) (se : Session) (M : gmap bytes cell) (k : bytes) (T : option cell -> Prop)
    (st' : Store) (se' : Session) : Prop :=
  exists R' v, store_ok st' R' (bind_key k v M) /\ T v /\ ready st' se' /\ kept st st' /\
    txn_mode se' = txn_mode se /\ spent k st st'.

Lemma performed_after st se M k v T T' st1 se1 st' se' : kept st st1 -> txn_mode se1 = txn_mode se ->
  free_round k st st1 ->
  (forall v', T v' -> T' v') ->
  performed st1 se1 (bind_key k v M) k T st' se' -> performed st se M k T' st' se'.
Proof.
  intros Hk Htx [Et Ha] HT (R' & v' & Hok & HTv & Hr & Hk' & Htx' & Hsp). rewrite bind_key_twice in Hok.
  exists R', v'. split; [done|]. split; [by apply HT|]. split; [done|]. split; [by etransitivity|].
  split; [congruence|by eapply spent_before].
Qed.

Section Operations.
Context {Input Out : Type} {F : SessionFunctions Input Out} {input_ok : Input -> Prop}
  {HF : LawfulFunctions F input_ok}.
Variables (k : bytes) (i : Input).
Hypothesis Hin : input_ok i.

(** An upsert never reads the device. *)
Lemma upsert_new_memory st se slot w out old x : upsert_new st se slot w k i out old = Some x ->
  on_device (fst (fst x)) = false.
Proof.
  unfold upsert_new, done_, again, mbind, option_bind. intros H. split_match H; by injection H as <-.
Qed.

Lemma cpr_gate_memory st se a w op : cpr_gate st se a w = Some op -> on_device op = false.
Proof. unfold cpr_gate. destruct (_ && _); [by intros [= <-]|]. destruct (is_closed w); [by intros [= <-]|done]. Qed.

Lemma internal_upsert_memory st se out x : internal_upsert st se k (hash64 k) i out = Some x ->
  on_device (fst (fst x)) = false.
Proof.
  unfold internal_upsert. destruct (find_or_create_tag _ _ _) as [[slot ix]|]; [|done]. cbn [mbind option_bind].
  set (body := fun st : Store => _).
  assert (Hbody : forall st x, body st = Some x -> on_device (fst (fst x)) = false).
  { clear x. intros st0 x. unfold body, done_, again, mbind, option_bind. intros H.
    split_match H; try (by injection H as <-); try by eapply upsert_new_memory.
    injection H as <-. by eapply cpr_gate_memory. }
  unfold latch, mbind, option_bind. intros H. split_match H; try (by injection H as <-); try by eapply Hbody.
  injection H as <-. cbn [fst]. eapply (Hbody _ (_, _)); eassumption.
Qed.

Lemma upsert_loop_spec n : forall fuel st se R M out attempt,
  (n < fuel)%nat -> store_ok st R M -> ready st se -> room (st_log st) -> stage (st_log st) n ->
  0 <= attempt -> attempt + Z.of_nat n < MAX_RETRIES ->
  fits (st_log st) (upsert_size k i) -> indexable (st_index st) k ->
  exists s out' st' se', upsert_loop fuel st se k (hash64 k) i out attempt = Some (s, out', st', se') /\
    performed st se M k
      (fun v => tries (upsert_effect (sys_in_new_version (system_state st)) k i) (M !! k) out s v out') st' se'.
Proof.
  induction n as [n IH] using lt_wf_ind. intros fuel st se R M out attempt Hf Hok Hr Hroom Hst Ha Hn Hfit Hix.
  destruct fuel as [|fuel]; [lia|]. cbn [upsert_loop].
  destruct (protected_round st se R M k (upsert_effect (sys_in_new_version (system_state st)) k i (M !! k) out)
    (fun st se => internal_upsert st se k (hash64 k) i out) (fun r st' => indexed (st_index st') k /\ on_device r = false) Hok Hr)
    as (r & out1 & st1 & se1 & -> & Hround & Hix1 & Hmem).
  { intros r st2 st' ->. done. }
  { intros st1 se1 e0 [Hok1 Hs1 Htx Hg El (Ei & Es & Ec)] Hfree.
    destruct (internal_upsert_spec st1 se1 R M k e0 Hok1 Hs1 ltac:(by rewrite El) Hg Hfree i out Hin
      ltac:(by rewrite El) ltac:(by rewrite Ei)) as (x & Ex & Hx & Hi).
    exists x. split; [exact Ex|]. split; [|by split; [|eapply internal_upsert_memory]].
    unfold system_state in *. by rewrite Es in Hx. }
  cbn [mbind option_bind].
  destruct r as [s| | |addr latest|]; try by destruct Hround as (_ & _ & _ & _ & []).
  - destruct Hround as (Hr1 & Hk1 & Htx1 & Hsp1 & R' & v & Hok1 & HE). exists s, out1, st1, se1. split; [done|].
    exists R', v. split; [done|]. split; [by apply tries_done|]. done.
  - destruct (round_retry st se R M k _ out1 st1 se1 n attempt Hroom Hst Ha Hn Hround)
      as (m & v & R' & st2 & -> & -> & Hok2 & Hr2 & Hk2 & Htx2 & Hst2 & Hroom2 & HE & Ei2 & Hfr2 & _).
    cbn [mbind option_bind].
    destruct (IH m ltac:(lia) fuel st2 se1 R' (bind_key k v M) out1 (attempt + 1))
      as (s & out' & st' & se' & -> & Hp); try done; try lia.
    { by eapply kept_fits. }
    { left. by rewrite Ei2. }
    exists s, out', st', se'. split; [done|]. eapply performed_after; [exact Hk2|exact Htx2|exact Hfr2| |exact Hp].
    intros v' HT. rewrite bind_key_eq, (kept_system _ _ Hk2) in HT. by eapply tries_again.
Qed.

Lemma rmw_initial_memory st se slot w out x : rmw_initial st se slot w k i out = Some x ->
  on_device (fst (fst x)) = false.
Proof.
  unfold rmw_initial, done_, again, mbind, option_bind. intros H. split_match H; by injection H as <-.
Qed.

Lemma delete_rcu_memory st se slot w out old x : delete_rcu st se slot w k out old = Some x ->
  on_device (fst (fst x)) = false.
Proof.
  unfold delete_rcu, done_, again, mbind, option_bind. intros H. split_match H; by injection H as <-.
Qed.

Lemma rmw_copy_memory st se slot w out old seal x : rmw_copy st se slot w k i out old seal = Some x ->
  on_device (fst (fst x)) = false.
Proof.
  unfold rmw_copy, done_, again, mbind, option_bind. intros H.
  split_match H; try (by injection H as <-); by eapply delete_rcu_memory.
Qed.

(** The latch reports what the body reports. *)
Lemma latch_memory {A} (P : A -> Prop) txn bi excl st busy body (x : A * Store) :
  P busy -> (forall st0 y, body st0 = Some y -> P (fst y)) ->
  latch txn bi excl st busy body = Some x -> P (fst x).
Proof.
  intros Hbusy Hbody. unfold latch, mbind, option_bind. intros H.
  split_match H; try (by injection H as <-); try by eapply Hbody.
  injection H as <-. cbn [fst]. eapply (Hbody _ (_, _)); eassumption.
Qed.

(** Once the device has been searched, it is not searched again. *)
Lemma internal_rmw_memory st se out disk x : internal_rmw st se k (hash64 k) i out disk = Some x ->
  on_device (fst (fst x)) = true -> disk = None.
Proof.
  destruct disk as [[res seen]|]; [|done]. intros H Hx. exfalso. revert H.
  unfold internal_rmw. destruct (find_or_create_tag _ _ _) as [[slot ix]|]; [|done]. cbn [mbind option_bind].
  intros H. enough (on_device (fst (fst x)) = false) by congruence. revert H.
  apply (latch_memory (fun y : Op * Out => on_device (fst y) = false)); [done|].
  clear. intros st0 x. unfold done_, again, mbind, option_bind. intros H.
  split_match H; try (by injection H as <-);
    try (by eapply rmw_initial_memory); try (by eapply rmw_copy_memory).
  injection H as <-. by eapply cpr_gate_memory.
Qed.

Lemma rmw_fits_bits l l' v : page_bits l' = page_bits l -> rmw_fits k i l v -> rmw_fits k i l' v.
Proof.
  intros Hb [H1 H2 (P & H3 & H4 & H5)].
  assert (Hfit : forall size, fits l size -> fits l' size) by (unfold fits, page_size; intros size; by rewrite Hb).
  split; [by apply Hfit..|]. exists P. split_and!; auto.
Qed.
(** A refused attempt leaves a binding whose copy can still be laid out. *)
Lemma rmw_fits_refused nv l v out v' out' : rmw_effect nv k i v out None v' out' -> rmw_fits k i l v -> rmw_fits k i l v'.
Proof.
  intros He [H1 H2 (P & H3 & H4 & H5)]. split; [done|done|]. exists P. split; [|done].
  inversion He as [| | |c c' o o1 s v1 o' E Hi|c c' o o1 s v1 o' E Hc|c o s v1 o' Hc|o s v1 o' Hi|]; subst; try done.
  - by inversion Hi.
  - inversion Hc; subst. intros x [= <-]. by eapply H4; [apply H3|].
  - by inversion Hc; subst.
  - by inversion Hi.
Qed.

Lemma read_loop_spec n : forall fuel st se R M out attempt,
  (n < fuel)%nat -> store_ok st R M -> ready st se -> room (st_log st) -> stage (st_log st) n ->
  0 <= attempt -> attempt + Z.of_nat n < MAX_RETRIES ->
  exists s out' st' se', read_loop fuel st se k (hash64 k) i out attempt = Some (s, out', st', se') /\
    performed st se M k (fun v => tries (read_effect k i) (M !! k) out s v out') st' se'.
Proof.
  induction n as [n IH] using lt_wf_ind. intros fuel st se R M out attempt Hf Hok Hr Hroom Hst Ha Hn.
  destruct fuel as [|fuel]; [lia|]. cbn [read_loop].
  destruct (protected_round st se R M k (read_effect k i (M !! k) out)
    (fun st se => internal_read st se k (hash64 k) i out) (fun _ _ => True) Hok Hr)
    as (r & out1 & st1 & se1 & -> & Hround & _); [done| |].
  { intros st1 se1 e0 [Hok1 Hs1 Htx Hg El (Ei & Es & Ec)] Hfree.
    destruct (internal_read_spec st1 se1 R M k e0 Hok1 Hs1 ltac:(by rewrite El) Hg Hfree i out Hin) as (x & Ex & Hx). by exists x. }
  cbn [mbind option_bind].
  destruct r as [s| | |addr latest|]; try by destruct Hround as (_ & _ & _ & _ & []).
  - destruct Hround as (Hr1 & Hk1 & Htx1 & Hsp1 & R' & v & Hok1 & HE). exists s, out1, st1, se1. split; [done|].
    exists R', v. split; [done|]. split; [by apply tries_done|]. done.
  - destruct (round_retry st se R M k _ out1 st1 se1 n attempt Hroom Hst Ha Hn Hround)
      as (m & v & R' & st2 & -> & -> & Hok2 & Hr2 & Hk2 & Htx2 & Hst2 & Hroom2 & HE & Ei2 & Hfr2 & _).
    cbn [mbind option_bind].
    destruct (IH m ltac:(lia) fuel st2 se1 R' (bind_key k v M) out1 (attempt + 1))
      as (s & out' & st' & se' & -> & Hp); try done; try lia.
    exists s, out', st', se'. split; [done|]. eapply performed_after; [exact Hk2|exact Htx2|exact Hfr2| |exact Hp].
    intros v' HT. rewrite bind_key_eq in HT. by eapply tries_again.
  - destruct Hround as (Hr1 & Hk1 & Htx1 & Hsp1 & Hok1 & HE & Hc & Hl1).
    destruct (continues_disk st1 R M k addr latest Hok1 Hc) as (res & -> & Hd). cbn [mbind option_bind].
    pose proof (disk_source st1 R M k Hok1 res latest Hd) as Hsrc.
    assert (Hdone : forall s out', read_effect k i (M !! k) out1 (Some s) (M !! k) out' ->
      performed st se M k (fun v => tries (read_effect k i) (M !! k) out s v out') st1 se1).
    { intros s out' He. exists R, (M !! k). rewrite bind_key_same. split; [done|].
      split; [eapply tries_again; [exact HE|by apply tries_done]|done]. }
    destruct res as [c|].
    2: { do 4 eexists. split; [reflexivity|]. apply Hdone. rewrite Hsrc. apply rd_absent. }
    destruct Hsrc as [Hb Hco]. destruct (is_tombstone (c_info c)).
    { do 4 eexists. split; [reflexivity|]. apply Hdone. rewrite Hb. apply rd_absent. }
    destruct (reader_total k i c out1 Hin Hco) as [[b out'] Er]. rewrite Er. cbn [mbind option_bind].
    do 4 eexists. split; [reflexivity|]. apply Hdone. rewrite Hb. by apply rd_found.
Qed.

(** What the retry loop knows about the device. *)
Definition disk_budget {A : Type} (disk : option A) : nat := match disk with Some _ => 0 | None => 1 end%nat.

Lemma rmw_loop_spec n : forall disk fuel st se R M out attempt,
  (n + disk_budget disk < fuel)%nat -> store_ok st R M -> ready st se -> room (st_log st) -> stage (st_log st) n ->
  0 <= attempt -> attempt + Z.of_nat n < MAX_RETRIES ->
  rmw_fits k i (st_log st) (M !! k) -> indexable (st_index st) k ->
  (forall res seen, disk = Some (res, seen) -> disk_ok st R k res seen) ->
  exists s out' st' se', rmw_loop fuel st se k (hash64 k) i out disk attempt = Some (s, out', st', se') /\
    performed st se M k
      (fun v => tries (rmw_effect (sys_in_new_version (system_state st)) k i) (M !! k) out s v out') st' se'.
Proof.
  induction n as [n IHn] using lt_wf_ind. intros disk. remember (disk_budget disk) as d eqn:Ed.
  revert disk Ed. induction d as [d IHd] using lt_wf_ind.
  intros disk -> fuel st se R M out attempt Hf Hok Hr Hroom Hst Ha Hn Hfit Hix Hdisk.
  destruct fuel as [|fuel]; [lia|]. cbn [rmw_loop].
  destruct (protected_round st se R M k (rmw_effect (sys_in_new_version (system_state st)) k i (M !! k) out)
    (fun st se => internal_rmw st se k (hash64 k) i out disk)
    (fun r st' => indexed (st_index st') k /\ (on_device r = true -> disk = None)) Hok Hr)
    as (r & out1 & st1 & se1 & -> & Hround & Hix1 & Hmem).
  { intros r st2 st' ->. done. }
  { intros st1 se1 e0 [Hok1 Hs1 Htx Hg El (Ei & Es & Ec)] Hfree.
    assert (Hfit1 : rmw_fits k i (st_log st1) (M !! k)).
    { apply (rmw_fits_bits (st_log st)); [by rewrite El|done]. }
    destruct (internal_rmw_spec st1 se1 R M k e0 Hok1 Hs1 ltac:(by rewrite El) Hg Hfree i out disk Hin
      Hfit1 ltac:(by rewrite Ei)) as (x & Ex & Hx & Hi).
    { intros res seen E. unfold disk_ok. rewrite El, Ei. by apply Hdisk. }
    exists x. split; [exact Ex|]. split; [|split; [done|by eapply internal_rmw_memory]].
    unfold system_state in *. by rewrite Es in Hx. }
  cbn [mbind option_bind].
  destruct r as [s| | |addr latest|]; try by destruct Hround as (_ & _ & _ & _ & []).
  - destruct Hround as (Hr1 & Hk1 & Htx1 & Hsp1 & R' & v & Hok1 & HE). exists s, out1, st1, se1. split; [done|].
    exists R', v. split; [done|]. split; [by apply tries_done|]. done.
  - destruct (round_retry st se R M k _ out1 st1 se1 n attempt Hroom Hst Ha Hn Hround)
      as (m & v & R' & st2 & -> & -> & Hok2 & Hr2 & Hk2 & Htx2 & Hst2 & Hroom2 & HE & Ei2 & Hfr2 & Hd2).
    cbn [mbind option_bind].
    destruct (IHn m ltac:(lia) disk fuel st2 se1 R' (bind_key k v M) out1 (attempt + 1))
      as (s & out' & st' & se' & -> & Hp); try done; try lia.
    { rewrite bind_key_eq. eapply rmw_fits_bits; [apply (kp_bits _ _ Hk2)|]. by eapply rmw_fits_refused. }
    { left. by rewrite Ei2. }
    { intros res seen E. by apply Hd2, Hdisk. }
    exists s, out', st', se'. split; [done|]. eapply performed_after; [exact Hk2|exact Htx2|exact Hfr2| |exact Hp].
    intros v' HT. rewrite bind_key_eq, (kept_system _ _ Hk2) in HT. by eapply tries_again.
  - destruct Hround as (Hr1 & Hk1 & Htx1 & Hsp1 & Hok1 & HE & Hc & Hl1).
    destruct (continues_disk st1 R M k addr latest Hok1 Hc) as (res & -> & Hd). cbn [mbind option_bind].
    destruct (IHd 0%nat ltac:(rewrite (Hmem eq_refl); simpl; lia) (Some (res, latest)) eq_refl fuel st1 se1 R M out1 attempt)
      as (s & out' & st' & se' & -> & Hp); try done.
    { rewrite (Hmem eq_refl) in Hf. simpl in *. lia. }
    { by rewrite Hl1. }
    { rewrite Hl1. by apply stage_epoch. }
    { eapply rmw_fits_bits; [apply (kp_bits _ _ Hk1)|done]. }
    { by left. }
    { by intros ? ? [= <- <-]. }
    exists s, out', st', se'. split; [done|]. rewrite <- (bind_key_same k M) in Hp.
    eapply performed_after; [exact Hk1|exact Htx1|split; [by rewrite Hl1|apply Hsp1]| |exact Hp].
    intros v' HT. rewrite bind_key_same, (kept_system _ _ Hk1) in HT. by eapply tries_again.
Qed.

Lemma internal_delete_memory st se out disk x :
  internal_delete (F := F) st se k (hash64 k) out disk = Some x -> on_device (fst (fst x)) = true -> disk = None.
Proof.
  destruct disk as [[res seen]|]; [|done]. intros H Hx. exfalso. revert H.
  unfold internal_delete. destruct (find_tag _ _) as [[slot|]|]; [| |done]; cbn [mbind option_bind].
  2: { intros [= <-]. discriminate Hx. }
  intros H. enough (on_device (fst (fst x)) = false) by congruence. revert H.
  apply (latch_memory (fun y : Op * Out => on_device (fst y) = false)); [done|].
  clear. intros st0 x. unfold done_, again, mbind, option_bind. intros H.
  split_match H; try (by injection H as <-); try (by eapply delete_rcu_memory).
  injection H as <-. by eapply cpr_gate_memory.
Qed.

(** What a search of the device says about existence. *)
Definition exists_on_disk (st : Store) (R : gmap Z cell) (disk : option (bool * Z)) : Prop :=
  forall b seen, disk = Some (b, seen) -> exists res, disk_ok st R k res seen /\
    b = match res with Some c => negb (is_tombstone (c_info c)) | None => false end.

Lemma delete_loop_spec n : forall disk fuel st se R M out attempt,
  (n + disk_budget disk < fuel)%nat -> store_ok st R M -> ready st se -> room (st_log st) -> stage (st_log st) n ->
  0 <= attempt -> attempt + Z.of_nat n < MAX_RETRIES ->
  fits (st_log st) (SizeInfo (length k) 0 false) -> exists_on_disk st R disk ->
  exists s out' st' se', delete_loop fuel st se k (hash64 k) out disk attempt = Some (s, out', st', se') /\
    performed st se M k (fun v => tries (delete_effect k) (M !! k) out s v out') st' se'.
Proof.
  induction n as [n IHn] using lt_wf_ind. intros disk. remember (disk_budget disk) as d eqn:Ed.
  revert disk Ed. induction d as [d IHd] using lt_wf_ind.
  intros disk -> fuel st se R M out attempt Hf Hok Hr Hroom Hst Ha Hn Hfit Hdisk.
  destruct fuel as [|fuel]; [lia|]. cbn [delete_loop].
  destruct (protected_round st se R M k (delete_effect k (M !! k) out)
    (fun st se => internal_delete st se k (hash64 k) out disk)
    (fun r _ => on_device r = true -> disk = None) Hok Hr)
    as (r & out1 & st1 & se1 & -> & Hround & Hmem); [done| |].
  { intros st1 se1 e0 [Hok1 Hs1 Htx Hg El (Ei & Es & Ec)] Hfree.
    destruct (internal_delete_spec st1 se1 R M k e0 Hok1 Hs1 ltac:(by rewrite El) Hg Hfree out disk
      ltac:(by rewrite El)) as (x & Ex & Hx).
    { intros b seen E. unfold disk_ok. rewrite El, Ei. by apply Hdisk. }
    exists x. split; [exact Ex|]. split; [done|by eapply internal_delete_memory]. }
  cbn [mbind option_bind].
  destruct r as [s| | |addr latest|]; try by destruct Hround as (_ & _ & _ & _ & []).
  - destruct Hround as (Hr1 & Hk1 & Htx1 & Hsp1 & R' & v & Hok1 & HE). exists s, out1, st1, se1. split; [done|].
    exists R', v. split; [done|]. split; [by apply tries_done|]. done.
  - destruct (round_retry st se R M k _ out1 st1 se1 n attempt Hroom Hst Ha Hn Hround)
      as (m & v & R' & st2 & -> & -> & Hok2 & Hr2 & Hk2 & Htx2 & Hst2 & Hroom2 & HE & Ei2 & Hfr2 & Hd2).
    cbn [mbind option_bind].
    destruct (IHn m ltac:(lia) disk fuel st2 se1 R' (bind_key k v M) out1 (attempt + 1))
      as (s & out' & st' & se' & -> & Hp); try done; try lia.
    { by eapply kept_fits. }
    { intros b seen E. destruct (Hdisk b seen E) as (res & Hd & ->). exists res. split; [by apply Hd2|done]. }
    exists s, out', st', se'. split; [done|]. eapply performed_after; [exact Hk2|exact Htx2|exact Hfr2| |exact Hp].
    intros v' HT. rewrite bind_key_eq in HT. by eapply tries_again.
  - destruct Hround as (Hr1 & Hk1 & Htx1 & Hsp1 & Hok1 & HE & Hc & Hl1).
    destruct (continues_disk st1 R M k addr latest Hok1 Hc) as (res & -> & Hd). cbn [mbind option_bind]. cbv zeta.
    destruct (IHd 0%nat ltac:(rewrite (Hmem eq_refl); simpl; lia)
      (Some (match res with Some c => negb (is_tombstone (c_info c)) | None => false end, latest)) eq_refl
      fuel st1 se1 R M out1 attempt) as (s & out' & st' & se' & -> & Hp); try done.
    { rewrite (Hmem eq_refl) in Hf. simpl in *. lia. }
    { by rewrite Hl1. }
    { rewrite Hl1. by apply stage_epoch. }
    { by eapply kept_fits. }
    { intros ? ? [= <- <-]. by exists res. }
    exists s, out', st', se'. split; [done|]. rewrite <- (bind_key_same k M) in Hp.
    eapply performed_after; [exact Hk1|exact Htx1|split; [by rewrite Hl1|apply Hsp1]| |exact Hp].
    intros v' HT. rewrite bind_key_same in HT. by eapply tries_again.
Qed.
End Operations.

End Refinement.
