(* ===== verification/StoreOps.v ===== *)
(** * The four operations of the store

    What [Session::read], [upsert], [rmw] and [delete] promise the application,
    for any lawful callbacks, and the store a new store starts as. *)

From S2P Require Import Prelude Record Resp Session Functions FunctionsSpec Hash Index IndexSpec Latch Epoch Log.
From S2P Require Import LogSpec LogLive LogTiling Store StoreInv StoreSpec StoreAttempt StoreRefine.

#[local] Opaque hash64.

(** Attempts that are always enough: two refusals separated by epoch bumps, a
    third to move the head, one that succeeds, and a search of the device. *)
Definition ATTEMPTS : nat := 6.

Lemma log_new_positions bits mem mutable l : log_new bits mem mutable = Some l ->
  begin_address l = 64 /\ head_address l = 64 /\ current (epoch l) = 1 /\
  table (epoch l) = replicate MAX_THREADS (ESlot UNPROTECTED 0).
Proof. unfold log_new. destruct (_ && _); [|done]. by intros [= <-]. Qed.

#[local] Existing Instance from_creation.
#[local] Existing Instance nothing_reserved.

(** A new store implements the empty map. *)
Lemma store_new_reserved (rs : reserved) buckets bits mem mutable st tid : store_new buckets bits mem mutable = Some st ->
  buckets <= 2 ^ 40 -> tid <> 0 -> (forall x, x ∈ Reserved -> (fst x < MAX_THREADS)%nat /\ fst x <> slot_start tid /\ snd x = 0) ->
  store_ok st ∅ ∅ /\ ready st (new_session st tid) /\ forall k, indexable (st_index st) k.
Proof.
  unfold store_new. intros E Hb Htid Hrs. destruct (log_new bits mem mutable) as [l|] eqn:El; [|done].
  cbn [mbind option_bind] in E. injection E as <-.
  destruct (index_new_ok buckets Hb) as (Ht & He & Hroom). destruct (log_new_lively _ _ _ _ El) as [Hl Hq].
  destruct (log_new_positions _ _ _ _ El) as (Eb & Eh & Ec & Etab).
  assert (Hent : forall h, 0 <= h -> entry_word (index_new buckets) h = None).
  { intros h Hh. unfold entry_word. destruct (find_tag (index_new buckets) h) as [[s|]|] eqn:Ef; try done.
    destruct (find_tag_loads _ h s Ht Hh Ef) as (w & Hw & _ & _ & Hne & _).
    apply index_new_word in Hw as ->. discriminate Hne. }
  assert (Hst : forall k, start (index_new buckets) k = INVALID_ADDRESS).
  { intros k. unfold start. by rewrite Hent by apply hash64_nonneg. }
  assert (Hlow : INVALID_ADDRESS < begin_address l) by (rewrite Eb; unfold INVALID_ADDRESS; lia).
  split; [|split].
  - split; cbn [st_log st_index]; try done.
    + by apply (log_new_ok _ _ _ _ fresh_floor El).
    + rewrite Eb, Eh. unfold FIRST_VALID_ADDRESS, PAGE_HEADER_SIZE. lia.
    + intros k. left. by rewrite Hst.
    + intros k r Hr. rewrite Hst in Hr.
      rewrite (newest_det _ _ _ _ _ _ Hr (newest_end _ _ _ _ Hlow)). by split.
    + destruct (log_new_layout _ _ _ _ El) as (Eto & Hcu). split; [by apply tiled_empty|exact Hcu|exact Eb].
    + intros k. rewrite Hst. lia.
  - split; cbn [st_log st_index new_session se_tid se_slot txn_mode]; try done.
    + rewrite Ec. lia.
    + unfold my_slot, MAX_THREADS. cbn [claim_slot]. cbv zeta. rewrite Etab.
      rewrite lookup_replicate_2; [by eexists|]. unfold MAX_THREADS. apply Nat.mod_upper_bound. lia.
    + intros _ bi [w Hw]. unfold latch_word in Hw. unfold latch_bits. cbn [st_index] in *. rewrite Hw.
      by rewrite (index_new_word _ _ _ _ Hw).
    + intros idx e' x Hs Hx. apply Hrs in Hx as (Hlt & Hne & Hz). split.
      * unfold my_slot, MAX_THREADS in Hs. cbn [claim_slot] in Hs. cbv zeta in Hs. rewrite Etab in Hs.
        rewrite lookup_replicate_2 in Hs by (unfold MAX_THREADS; apply Nat.mod_upper_bound; lia). cbn [s_owner Z.eqb] in Hs.
        assert (idx = (slot_start tid + 0) mod MAX_THREADS)%nat as -> by congruence.
        rewrite Nat.add_0_r, Nat.mod_small by apply slot_start_bound. done.
      * exists (ESlot UNPROTECTED 0). by rewrite Etab, lookup_replicate_2, Hz.
    + by rewrite Etab, length_replicate.
  - intros k. by right.
Qed.
Lemma store_new_ok buckets bits mem mutable st tid : store_new buckets bits mem mutable = Some st ->
  buckets <= 2 ^ 40 -> tid <> 0 ->
  store_ok st ∅ ∅ /\ ready st (new_session st tid) /\ forall k, indexable (st_index st) k.
Proof. intros E Hb Ht. apply (store_new_reserved nothing_reserved _ _ _ _ _ _ E Hb Ht). by intros j ?%not_elem_of_nil. Qed.

Section Promises.
Context {fl : floor} {rs : reserved}.
Context {Input Out : Type} {F : SessionFunctions Input Out} {input_ok : Input -> Prop}
  {HF : LawfulFunctions F input_ok}.
Implicit Types (st : Store) (se : Session) (R : gmap Z cell) (M : gmap bytes cell).

(** What the caller of an operation provides. *)
Definition callable st se R M (i : Input) (fuel : nat) : Prop :=
  store_ok st R M /\ ready st se /\ room (st_log st) /\ input_ok i /\ (ATTEMPTS <= fuel)%nat.

Lemma tries_read k i v out s v' out' : tries (read_effect k i) v out s v' out' ->
  v' = v /\ match v with
            | None => s = NotFound /\ out' = out
            | Some c => exists b, reader k i c out = Some (b, out') /\ s = if b : bool then Found else NotFound
            end.
Proof.
  induction 1 as [v out s v' out' H|v out v1 out1 s v' out' H _ [-> IH]].
  - inversion H; subst; split; try done. by eexists.
  - by inversion H; subst.
Qed.

Lemma tries_delete k v out s v' out' : tries (delete_effect k) v out s v' out' ->
  v' = None /\ match v with
               | None => s = NotFound /\ out' = out
               | Some _ => s = Deleted /\ out' = post_deleter k out
               end.
Proof.
  induction 1 as [v out s v' out' H|v out v1 out1 s v' out' H _ [-> IH]].
  - by inversion H; subst.
  - by inversion H; subst.
Qed.

(** Each operation performs its effect, refused attempts included. *)
Lemma read_performs st se R M k i out fuel : callable st se R M i fuel ->
  exists s out' st' se', read fuel st se k i out = Some (s, out', st', se') /\
    performed st se M k (fun v => tries (read_effect k i) (M !! k) out s v out') st' se'.
Proof.
  intros (Hok & Hr & Hroom & Hin & Hf). unfold ATTEMPTS in Hf.
  apply (read_loop_spec k i Hin 3 fuel st se R M out 0); try done; unfold MAX_RETRIES; lia.
Qed.
Lemma upsert_performs st se R M k i out fuel : callable st se R M i fuel ->
  fits (st_log st) (upsert_size k i) -> indexable (st_index st) k ->
  exists s out' st' se', upsert fuel st se k i out = Some (s, out', st', se') /\
    performed st se M k
      (fun v => tries (upsert_effect (sys_in_new_version (system_state st)) k i) (M !! k) out s v out') st' se'.
Proof.
  intros (Hok & Hr & Hroom & Hin & Hf). unfold ATTEMPTS in Hf. intros Hfit Hix.
  apply (upsert_loop_spec k i Hin 3 fuel st se R M out 0); try done; unfold MAX_RETRIES; lia.
Qed.
Lemma rmw_performs st se R M k i out fuel : callable st se R M i fuel ->
  rmw_fits k i (st_log st) (M !! k) -> indexable (st_index st) k ->
  exists s out' st' se', rmw fuel st se k i out = Some (s, out', st', se') /\
    performed st se M k
      (fun v => tries (rmw_effect (sys_in_new_version (system_state st)) k i) (M !! k) out s v out') st' se'.
Proof.
  intros (Hok & Hr & Hroom & Hin & Hf). unfold ATTEMPTS in Hf. intros Hfit Hix.
  apply (rmw_loop_spec k i Hin 3 None fuel st se R M out 0); try done; simpl; unfold MAX_RETRIES; lia.
Qed.
Lemma delete_performs st se R M k (i : Input) out fuel : callable st se R M i fuel ->
  fits (st_log st) (SizeInfo (length k) 0 false) ->
  exists s out' st' se', delete_key fuel st se k out = Some (s, out', st', se') /\
    performed st se M k (fun v => tries (delete_effect k) (M !! k) out s v out') st' se'.
Proof.
  intros (Hok & Hr & Hroom & Hin & Hf). unfold ATTEMPTS in Hf. intros Hfit.
  apply (delete_loop_spec k 3 None fuel st se R M out 0); try done; simpl; unfold MAX_RETRIES; lia.
Qed.

(** C6. With no other thread inside the epoch, a read returns, within a fixed
    number of attempts, what the callback makes of the key's binding in the
    abstract map, wherever the record resides (memory or device), or [NotFound]
    with the output untouched when the key is unbound; and it changes nothing
    in the map. *)
Theorem read_refines st se R M k i out fuel : callable st se R M i fuel ->
  exists s out' st' se', read fuel st se k i out = Some (s, out', st', se') /\
    (exists R', store_ok st' R' M) /\ ready st' se' /\ kept st st' /\
    match M !! k with
    | None => s = NotFound /\ out' = out
    | Some c => exists b, reader k i c out = Some (b, out') /\ s = if b : bool then Found else NotFound
    end.
Proof.
  intros Hc. destruct (read_performs st se R M k i out fuel Hc)
    as (s & out' & st' & se' & E & R' & v & Hok' & HT & Hr' & Hk & _).
  apply tries_read in HT as [-> HT]. rewrite bind_key_same in Hok'.
  exists s, out', st', se'. split; [exact E|]. split; [by exists R'|done].
Qed.

(** C5. A blind write returns within a fixed number of attempts, binds its key
    and no other, to the record the callbacks wrote in place or in a new
    version. *)
Theorem upsert_refines st se R M k i out fuel : callable st se R M i fuel ->
  fits (st_log st) (upsert_size k i) -> indexable (st_index st) k ->
  exists s out' st' se', upsert fuel st se k i out = Some (s, out', st', se') /\
    performed st se M k
      (fun v => tries (upsert_effect (sys_in_new_version (system_state st)) k i) (M !! k) out s v out') st' se'.
Proof. apply upsert_performs. Qed.

(** C4. A read-modify-write returns within a fixed number of attempts, and has
    applied exactly one completed update to the key's latest binding, wherever
    that record resides: in place, by copy, or from the device, after any
    number of refused attempts; no other key changes. *)
Theorem rmw_refines st se R M k i out fuel : callable st se R M i fuel ->
  rmw_fits k i (st_log st) (M !! k) -> indexable (st_index st) k ->
  exists s out' st' se', rmw fuel st se k i out = Some (s, out', st', se') /\
    performed st se M k
      (fun v => tries (rmw_effect (sys_in_new_version (system_state st)) k i) (M !! k) out s v out') st' se'.
Proof. apply rmw_performs. Qed.

(** C7. A delete returns within a fixed number of attempts, leaves its key
    unbound and every other key as it was, and reports [Deleted] exactly when
    the key was bound, on the device included. *)
Theorem delete_refines st se R M k (i : Input) out fuel : callable st se R M i fuel ->
  fits (st_log st) (SizeInfo (length k) 0 false) ->
  exists s out' st' se', delete_key fuel st se k out = Some (s, out', st', se') /\
    (exists R', store_ok st' R' (delete k M)) /\ ready st' se' /\ kept st st' /\
    match M !! k with
    | None => s = NotFound /\ out' = out
    | Some _ => s = Deleted /\ out' = post_deleter k out
    end.
Proof.
  intros Hc Hfit. destruct (delete_performs st se R M k i out fuel Hc Hfit)
    as (s & out' & st' & se' & E & R' & v & Hok' & HT & Hr' & Hk & _).
  apply tries_delete in HT as [-> HT].
  exists s, out', st', se'. split; [exact E|]. split; [by exists R'|done].
Qed.
End Promises.

(** ** Witnesses: a small store of strings *)

Lemma log_new_room bits mem mutable l : log_new bits mem mutable = Some l -> room l.
Proof.
  unfold log_new. destruct (Z.leb_spec 9 bits), (Z.leb_spec bits 30); simpl; try done.
  intros [= <-]. unfold room, tail_page, page_size. cbn [tail page_bits].
  destruct (pack_unpack 0 FIRST_VALID_ADDRESS) as [-> _];
    [lia|unfold FIRST_VALID_ADDRESS, PAGE_HEADER_SIZE; lia|]. simpl.
  assert (2 ^ bits <= 2 ^ 30) by (apply Z.pow_le_mono_r; lia). lia.
Qed.

Lemma log_new_fits bits mem mutable l size : log_new bits mem mutable = Some l -> size_ok size ->
  total_size_of size + 64 <= 2 ^ bits -> fits l size.
Proof. unfold log_new. destruct (_ && _); [|done]. intros [= <-] H1 H2. by split. Qed.

Definition demo_key : bytes := [107].
Definition demo_input (o : StringOp) : StringInput := input_simple o [118; 97; 108] 0.

Lemma demo_callable st i : store_new 64 9 4 2 = Some st -> input_ok i ->
  callable (input_ok := input_ok) st (new_session st 7) ∅ ∅ i 6.
Proof.
  intros E Hi. destruct (store_new_ok _ _ _ _ _ 7 E) as (H1 & H2 & _); [lia|lia|].
  split; [done|]. split; [done|]. split; [|done].
  unfold store_new in E. destruct (log_new 9 4 2) as [l|] eqn:El; [|done]. injection E as <-. by eapply log_new_room.
Qed.

Lemma demo_fits st size : store_new 64 9 4 2 = Some st -> size_ok size -> total_size_of size <= 448 ->
  fits (st_log st) size.
Proof.
  unfold store_new. destruct (log_new 9 4 2) as [l|] eqn:El; [|done]. intros [= <-] H1 H2.
  eapply log_new_fits; [exact El|done|simpl; lia].
Qed.

(** The store after one write, and that it has room for more. *)
Definition demo_run : option (Status * StringOutput * Store * Session) :=
  st ← store_new 64 9 4 2; upsert 6 st (new_session st 7) demo_key (demo_input Set_) output_default.
Definition room_left (l : HybridLog) : bool :=
  (tail_page l + 1 <? 2 ^ 31) && ((tail_page l + 2) * page_size l <=? 2 ^ 48).
Lemma room_left_room l : room_left l = true -> room l.
Proof. unfold room_left, room. rewrite andb_true_iff, Z.ltb_lt, Z.leb_le. done. Qed.
(** The sizes of that store. *)
Definition demo_shape (st : Store) : Prop :=
  tail_off (st_log st) < page_size (st_log st) /\ tail_pos (st_log st) <= 512 /\ page_bits (st_log st) = 9 /\
  mask (st_index st) = 63 /\ st_state st = sys_pack (SysState Rest 1).
Lemma demo_run_room : exists s o st se, demo_run = Some (s, o, st, se) /\ room (st_log st) /\ demo_shape st.
Proof.
  destruct demo_run as [[[[s o] st] se]|] eqn:E; [|vm_compute in E; discriminate].
  exists s, o, st, se. split; [done|].
  vm_compute in E; injection E as <- <- <- <-.
  split; [by apply room_left_room; vm_compute|]. unfold demo_shape. split_and!; vm_compute; done.
Qed.

Lemma tries_upsert_bound {Input Out : Type} {F : SessionFunctions Input Out} nv k i v out s v' out' :
  tries (upsert_effect nv k i) v out s v' out' -> is_Some v'.
Proof.
  assert (Hw : forall o s v' o', write_effect nv k i o (Some s) v' o' -> is_Some v') by (intros; inversion H; by eexists).
  induction 1 as [v out s v' out' H|]; [|done]. inversion H; subst; [by eexists|by eapply Hw..].
Qed.

(** A store that binds the key. *)
Lemma demo_written : exists st se R M c,
  store_ok st R M /\ ready st se /\ room (st_log st) /\ M !! demo_key = Some c /\
  fits (st_log st) (SizeInfo (length demo_key) 0 false) /\ demo_shape st.
Proof.
  destruct demo_run_room as (s & o & st1 & se1 & E1 & Hroom & Htail). unfold demo_run in E1.
  destruct (store_new 64 9 4 2) as [st|] eqn:E; [|done]. cbn [mbind option_bind] in E1.
  destruct (store_new_ok _ _ _ _ _ 7 E) as (H1 & H2 & H3); [lia|lia|].
  destruct (demo_callable st (demo_input Set_) E) as (_ & _ & Hr0 & Hin & _); [small_input|].
  assert (Hfit : fits (st_log st) (upsert_size demo_key (demo_input Set_))) by (apply demo_fits; [done|split; vm_compute; done|vm_compute; done]).
  destruct (upsert_loop_spec demo_key (demo_input Set_) Hin 3 6 st (new_session st 7) ∅ ∅ output_default 0)
    as (s' & o' & st' & se' & E' & R' & v & Hok & HT & Hr & Hk & _); try done; try (unfold MAX_RETRIES; lia).
  unfold upsert in E1. rewrite E' in E1. injection E1 as -> -> -> ->.
  destruct (tries_upsert_bound _ _ _ _ _ _ _ _ HT) as [c ->].
  exists st1, se1, R', (bind_key demo_key (Some c) ∅), c. rewrite bind_key_eq. split_and!; try done.
  eapply kept_fits; [exact Hk|]. apply demo_fits; [done|split; vm_compute; done|vm_compute; done].
Qed.

Lemma read_refines_witness : exists st se s out' st' se',
  read 6 st se demo_key (demo_input Get) output_default = Some (s, out', st', se') /\ s <> Error.
Proof.
  destruct demo_written as (st & se & R & M & c & H1 & H2 & H3 & H4 & _).
  destruct (read_refines (F := StringFunctions) (input_ok := input_ok) st se R M demo_key (demo_input Get) output_default 6)
    as (s & out' & st' & se' & E & _ & _ & _ & Hs).
  { split; [done|]. split; [done|]. split; [done|]. split; [small_input|done]. }
  exists st, se, s, out', st', se'. split; [done|]. rewrite H4 in Hs. destruct Hs as (b & _ & ->). by destruct b.
Defined.

Lemma upsert_refines_witness : exists st s out' st' se', store_new 64 9 4 2 = Some st /\
  upsert 6 st (new_session st 7) demo_key (demo_input Set_) output_default = Some (s, out', st', se').
Proof.
  destruct (store_new 64 9 4 2) as [st|] eqn:E; [|vm_compute in E; discriminate].
  destruct (upsert_refines (F := StringFunctions) (input_ok := input_ok) st (new_session st 7) ∅ ∅ demo_key
    (demo_input Set_) output_default 6) as (s & out' & st' & se' & Er & _).
  - apply demo_callable; [done|small_input].
  - apply demo_fits; [done|split; vm_compute; done|vm_compute; done].
  - apply (store_new_ok _ _ _ _ _ 7 E); lia.
  - by exists st, s, out', st', se'.
Defined.

Lemma rmw_refines_witness : exists st s out' st' se', store_new 64 9 4 2 = Some st /\
  rmw 6 st (new_session st 7) demo_key (demo_input Append) output_default = Some (s, out', st', se').
Proof.
  destruct (store_new 64 9 4 2) as [st|] eqn:E; [|vm_compute in E; discriminate].
  destruct (rmw_refines (F := StringFunctions) (input_ok := input_ok) st (new_session st 7) ∅ ∅ demo_key
    (demo_input Append) output_default 6) as (s & out' & st' & se' & Er & _).
  - apply demo_callable; [done|small_input].
  - split; [apply demo_fits; [done|split; vm_compute; done|vm_compute; done]..|].
    exists (fun _ => False). by split_and!.
  - apply (store_new_ok _ _ _ _ _ 7 E); lia.
  - by exists st, s, out', st', se'.
Defined.

Lemma delete_refines_witness : exists st se out' st' se',
  delete_key 6 st se demo_key output_default = Some (Deleted, out', st', se').
Proof.
  destruct demo_written as (st & se & R & M & c & H1 & H2 & H3 & H4 & H5 & _).
  destruct (delete_refines (F := StringFunctions) (input_ok := input_ok) st se R M demo_key
    (demo_input GetDel) output_default 6) as (s & out' & st' & se' & Er & _ & _ & _ & Hs).
  - split; [done|]. split; [done|]. split; [done|]. split; [small_input|done].
  - done.
  - rewrite H4 in Hs. destruct Hs as [-> _]. by exists st, se, out', st', se'.
Defined.
