(* ===== verification/Txn.v ===== *)
(** * Transactions of the store ([crates/tsavorite/src/store.rs], last part)

    Two-phase locking on bucket latches: what [txn_lock] takes and in which
    order, [txn_unlock], the end of a session; and why taking latches in bucket
    order never deadlocks. *)

From stdpp Require Import sorting relations.
From S2P Require Import Prelude Hash Index IndexSpec Latch Epoch Log Session Store StoreInv StoreOps.

#[local] Opaque hash64.

(** ** What a transaction locks *)

Abbreviation lock := (nat * LockType)%type (only parsing).

(** The sort key: the bucket, exclusive before shared. *)
Definition lock_le (x y : lock) : bool :=
  (fst x <? fst y)%nat ||
  ((fst x =? fst y)%nat && (bool_decide (snd x = Exclusive) || bool_decide (snd y = Shared))).
Fixpoint insert_lock (x : lock) (l : list lock) : list lock :=
  match l with [] => [x] | y :: l => if lock_le x y then x :: y :: l else y :: insert_lock x l end.
Definition sort_locks (l : list lock) : list lock := foldr insert_lock [] l.
(** [dedup_by_key]: of neighbours with the same bucket the first stays. *)
Fixpoint dedup_after (b : nat) (l : list lock) : list lock :=
  match l with [] => [] | x :: l => if (fst x =? b)%nat then dedup_after b l else x :: dedup_after (fst x) l end.
Definition dedup_locks (l : list lock) : list lock :=
  match l with [] => [] | x :: l => x :: dedup_after (fst x) l end.
Definition wanted_locks (ix : HashIndex) (keys : list (bytes * LockType)) : list lock :=
  dedup_locks (sort_locks (map (fun p => (bucket_index ix (hash64 (fst p)), snd p)) keys)).

(** Each latch in turn; a latch another thread holds is waited for, here [None]. *)
Fixpoint acquire_all (ix : HashIndex) (l : list lock) : option HashIndex :=
  match l with
  | [] => Some ix
  | (b, ty) :: l =>
      '(ok, ix) ← (match ty with Exclusive => try_lock_exclusive ix b | Shared => try_lock_shared ix b end);
      if ok : bool then acquire_all ix l else None
  end.
Definition txn_lock (st : Store) (se : Session) (keys : list (bytes * LockType)) : option (Store * Session) :=
  if txn_mode se then None else
  let wanted := wanted_locks (st_index st) keys in
  ix ← acquire_all (st_index st) wanted;
  Some (set_index st ix, MkSession true (txn_locks se ++ wanted) (se_state se) (se_tid se) (se_slot se)).

Fixpoint release_all (ix : HashIndex) (l : list lock) : option HashIndex :=
  match l with
  | [] => Some ix
  | (b, ty) :: l =>
      ix ← (match ty with Exclusive => unlock_exclusive ix b | Shared => unlock_shared ix b end);
      release_all ix l
  end.
Definition txn_unlock (st : Store) (se : Session) : option (Store * Session) :=
  ix ← release_all (st_index st) (txn_locks se);
  Some (set_index st ix, MkSession false [] (se_state se) (se_tid se) (se_slot se)).
Definition in_transaction (se : Session) : bool := txn_mode se.

(** The end of a session: its latches, then its slot of the epoch table. *)
Definition drop_session (st : Store) (se : Session) : option Store :=
  '(st, se) ← (if txn_mode se then txn_unlock st se else Some (st, se));
  Some (set_log st (set_epoch_state (st_log st)
    (snd (release_thread (epoch (st_log st)) (se_tid se) (se_slot se))))).

(** ** The order *)

(** Strictly ascending buckets, all above [b]. *)
Fixpoint ascending_from (b : option nat) (l : list lock) : Prop :=
  match l with
  | [] => True
  | x :: l => match b with Some b => (b < fst x)%nat | None => True end /\ ascending_from (Some (fst x)) l
  end.

Definition le_lock (x y : lock) : Prop := lock_le x y = true.
Lemma lock_le_total x y : le_lock x y \/ le_lock y x.
Proof.
  unfold le_lock, lock_le. rewrite !orb_true_iff, !andb_true_iff, !Nat.ltb_lt, !Nat.eqb_eq, !orb_true_iff, !bool_decide_eq_true.
  destruct (lt_eq_lt_dec (fst x) (fst y)) as [[?|?]|?]; [left; by left| |right; by left].
  destruct (snd x), (snd y); [left|right|left|left]; right; (split; [lia|tauto]).
Qed.
Lemma lock_le_trans x y z : le_lock x y -> le_lock y z -> le_lock x z.
Proof.
  unfold le_lock, lock_le. rewrite !orb_true_iff, !andb_true_iff, !Nat.ltb_lt, !Nat.eqb_eq, !orb_true_iff, !bool_decide_eq_true.
  intros [H1|[H1 H1']] [H2|[H2 H2']]; try (left; lia). right. split; [lia|]. destruct (snd x), (snd y), (snd z); intuition congruence.
Qed.
Lemma lock_le_bucket x y : le_lock x y -> (fst x <= fst y)%nat.
Proof. unfold le_lock, lock_le. rewrite orb_true_iff, andb_true_iff, Nat.ltb_lt, Nat.eqb_eq. lia. Qed.

Lemma insert_lock_perm x l : insert_lock x l ≡ₚ x :: l.
Proof. induction l as [|y l IH]; simpl; [done|]. destruct (lock_le x y); [done|]. rewrite IH. apply Permutation_swap. Qed.
Lemma sort_locks_perm l : sort_locks l ≡ₚ l.
Proof. induction l as [|x l IH]; simpl; [done|]. by rewrite insert_lock_perm, IH. Qed.
Lemma insert_lock_sorted x l : StronglySorted le_lock l -> StronglySorted le_lock (insert_lock x l).
Proof.
  induction 1 as [|y l Hl IH Hy]; simpl; [by repeat constructor|].
  destruct (lock_le x y) eqn:E.
  - constructor; [by constructor|]. constructor; [done|]. eapply Forall_impl; [exact Hy|]. intros z. by apply lock_le_trans.
  - constructor; [done|]. rewrite insert_lock_perm. constructor; [|done].
    destruct (lock_le_total x y) as [H|H]; [|done]. unfold le_lock in H. congruence.
Qed.
Lemma sort_locks_sorted l : StronglySorted le_lock (sort_locks l).
Proof. induction l; simpl; [constructor|by apply insert_lock_sorted]. Qed.

(** Of a sorted list, [dedup] keeps one lock per bucket, the strongest. *)
Lemma dedup_after_spec l : forall b, StronglySorted le_lock l -> Forall (fun y => (b <= fst y)%nat) l ->
  ascending_from (Some b) (dedup_after b l) /\
  forall x, x ∈ l -> fst x <> b -> exists y, y ∈ dedup_after b l /\ fst y = fst x /\ le_lock y x.
Proof.
  induction l as [|y l IH]; intros b Hs Hb; simpl; [split; [done|by intros x ?%elem_of_nil]|].
  apply StronglySorted_inv in Hs as [Hs Hy]. apply Forall_cons in Hb as [Hyb Hb].
  destruct (Nat.eqb_spec (fst y) b) as [E|E].
  - destruct (IH b Hs Hb) as [H1 H2]. split; [done|]. intros x [->|Hx]%elem_of_cons Hne; [done|]. by apply H2.
  - assert (Hy' : Forall (fun z => (fst y <= fst z)%nat) l).
    { eapply Forall_impl; [exact Hy|]. intros z. apply lock_le_bucket. }
    destruct (IH (fst y) Hs Hy') as [H1 H2]. split; [split; [lia|done]|]. intros x [->|Hx]%elem_of_cons Hne.
    + exists y. split; [by left|]. split; [done|]. destruct (lock_le_total y y); done.
    + destruct (decide (fst x = fst y)) as [Ex|Ex].
      * exists y. split; [by left|]. split; [done|]. rewrite Forall_forall in Hy. by apply Hy.
      * destruct (H2 x Hx Ex) as (z & Hz & ? & ?). exists z. split; [by right|done].
Qed.

Lemma wanted_locks_spec ix keys : ascending_from None (wanted_locks ix keys) /\
  forall k t, (k, t) ∈ keys -> exists ty, (bucket_index ix (hash64 k), ty) ∈ wanted_locks ix keys /\
    (t = Exclusive -> ty = Exclusive).
Proof.
  unfold wanted_locks. set (l := map _ keys). pose proof (sort_locks_sorted l) as Hs. pose proof (sort_locks_perm l) as Hp.
  assert (Hspec : ascending_from None (dedup_locks (sort_locks l)) /\
    forall x, x ∈ sort_locks l -> exists y, y ∈ dedup_locks (sort_locks l) /\ fst y = fst x /\ le_lock y x).
  { destruct (sort_locks l) as [|y l']; [split; [done|by intros x ?%elem_of_nil]|]. simpl.
    apply StronglySorted_inv in Hs as [Hs Hy].
    destruct (dedup_after_spec l' (fst y) Hs) as [H1 H2]; [eapply Forall_impl; [exact Hy|]; intros z; apply lock_le_bucket|].
    split; [done|]. intros x [->|Hx]%elem_of_cons.
    - exists y. split; [by left|]. split; [done|]. destruct (lock_le_total y y); done.
    - destruct (decide (fst x = fst y)) as [Ex|Ex].
      + exists y. split; [by left|]. split; [done|]. rewrite Forall_forall in Hy. by apply Hy.
      + destruct (H2 x Hx Ex) as (z & Hz & ? & ?). exists z. split; [by right|done]. }
  destruct Hspec as [H1 H2]. split; [done|]. intros k t Hk.
  destruct (H2 (bucket_index ix (hash64 k), t)) as ((b & ty) & Hy & Eb & Hle).
  { rewrite Hp. unfold l. apply list_elem_of_In, in_map_iff. exists (k, t). split; [done|by apply list_elem_of_In]. }
  cbn in Eb. subst b. exists ty. split; [done|]. intros ->. unfold le_lock, lock_le in Hle. cbn [fst snd] in Hle.
  rewrite Nat.ltb_irrefl, Nat.eqb_refl in Hle. by destruct ty.
Qed.

(** ** No deadlock

    Any number of threads run transactions: a thread starts one, takes its
    latches one by one, each when no other thread holds it incompatibly, and
    once it has them all releases them one by one. *)
Record txn_thread := TxnThread { todo : list lock; held : list lock }.

Definition incompatible (x y : lock) : Prop := fst x = fst y /\ (snd x = Exclusive \/ snd y = Exclusive).
Definition available (ts : list txn_thread) (t : nat) (x : lock) : Prop :=
  forall t' th, ts !! t' = Some th -> t' <> t -> forall y, y ∈ held th -> ~ incompatible x y.

Inductive txn_step (ix : HashIndex) (ts : list txn_thread) : list txn_thread -> Prop :=
  | txn_start t keys : ts !! t = Some (TxnThread [] []) ->
      txn_step ix ts (<[t := TxnThread (wanted_locks ix keys) []]> ts)
  | txn_acquire t x l h : ts !! t = Some (TxnThread (x :: l) h) -> available ts t x ->
      txn_step ix ts (<[t := TxnThread l (h ++ [x])]> ts)
  | txn_release t x h : ts !! t = Some (TxnThread [] (x :: h)) ->
      txn_step ix ts (<[t := TxnThread [] h]> ts).

(** Neither starting a transaction: one of those under way advances. *)
Definition advances (ts : list txn_thread) : Prop :=
  (exists t x l h, ts !! t = Some (TxnThread (x :: l) h) /\ available ts t x) \/
  (exists t x h, ts !! t = Some (TxnThread [] (x :: h))).

Definition thread_sorted (th : txn_thread) : Prop := exists b, ascending_from b (held th ++ todo th).

Lemma ascending_weaken b l : ascending_from (Some b) l -> ascending_from None l.
Proof. destruct l; simpl; tauto. Qed.
Lemma ascending_tail b x l : ascending_from b (x :: l) -> ascending_from (Some (fst x)) l.
Proof. by intros [_ H]. Qed.
Lemma ascending_above l : forall b x, ascending_from (Some b) l -> x ∈ l -> (b < fst x)%nat.
Proof.
  induction l as [|y l IH]; intros b x; [by intros _ ?%elem_of_nil|]. intros [Hb Hl] [->|Hx]%elem_of_cons; [done|].
  pose proof (IH _ _ Hl Hx). lia.
Qed.
Lemma ascending_app l : forall b x l', ascending_from b (l ++ x :: l') -> forall y, y ∈ l -> (fst y < fst x)%nat.
Proof.
  induction l as [|z l IH]; intros b x l' H y; [by intros ?%elem_of_nil|]. destruct H as [_ H].
  intros [->|Hy]%elem_of_cons; [|by eapply IH]. eapply ascending_above; [exact H|]. apply elem_of_app. right. by left.
Qed.

Lemma txn_step_sorted ix ts ts' : Forall thread_sorted ts -> txn_step ix ts ts' -> Forall thread_sorted ts'.
Proof.
  intros H Hs. destruct Hs as [t keys Ht|t x l h Ht _|t x h Ht]; apply Forall_insert; try done.
  - exists None. apply wanted_locks_spec.
  - destruct (Forall_lookup_1 _ _ _ _ H Ht) as [b Hb]. exists b. simpl in *. by rewrite <- app_assoc.
  - destruct (Forall_lookup_1 _ _ _ _ H Ht) as [b Hb]. exists (Some (fst x)). simpl in *. by destruct Hb.
Qed.

(** Some thread waits for a latch, or none does. *)
Definition waiter (ts : list txn_thread) (t : nat) (x : lock) : Prop := exists l h, ts !! t = Some (TxnThread (x :: l) h).
Lemma last_waiter ts : (forall t x, ~ waiter ts t x) \/
  exists t x, waiter ts t x /\ forall t' x', waiter ts t' x' -> (fst x' <= fst x)%nat.
Proof.
  induction ts as [|[[|x l] h] ts IH]; [left; by intros t x (l & h & Ht)| |].
  - destruct IH as [Hn|(t & x & Hx & Hmax)]; [left|right].
    + intros [|t] x (l & h' & Ht); [done|]. apply (Hn t x). by exists l, h'.
    + exists (S t), x. split; [done|]. intros [|t'] x' (l' & h' & Ht); [done|]. apply (Hmax t' x'). by exists l', h'.
  - right. destruct IH as [Hn|(t & y & Hy & Hmax)].
    + exists 0%nat, x. split; [by exists l, h|]. intros [|t'] x' (l' & h' & Ht); [by injection Ht as -> -> ->|].
      destruct (Hn t' x'). by exists l', h'.
    + destruct (le_lt_dec (fst y) (fst x)).
      * exists 0%nat, x. split; [by exists l, h|]. intros [|t'] x' (l' & h' & Ht); [by injection Ht as -> -> ->|].
        assert (fst x' <= fst y)%nat; [|lia]. apply (Hmax t' x'). by exists l', h'.
      * exists (S t), y. split; [done|]. intros [|t'] x' (l' & h' & Ht); [injection Ht as -> -> ->; lia|].
        apply (Hmax t' x'). by exists l', h'.
Qed.

(** C20. Transactions never deadlock: whatever keys they lock, as long as some
    transaction is under way one of them can take its next latch or release one.
    (Each takes one latch per bucket, in ascending order, exclusive if any of
    its keys asks for it.) *)
Theorem ordered_locking_never_deadlocks ix n ts : rtc (txn_step ix) (replicate n (TxnThread [] [])) ts ->
  (exists t th, ts !! t = Some th /\ th <> TxnThread [] []) -> advances ts.
Proof.
  intros Hr (t & th & Ht & Hne).
  assert (Hs : Forall thread_sorted ts).
  { remember (replicate n _) as ts0 eqn:E0. assert (H0 : Forall thread_sorted ts0).
    { subst ts0. apply Forall_replicate. by exists None. }
    clear E0 Ht. induction Hr as [|ts0 ts1 ts2 H1 _ IH]; [done|]. apply IH. by eapply txn_step_sorted. }
  destruct (last_waiter ts) as [Hn|(t0 & x & (l & h & Hx) & Hmax)].
  - right. destruct th as [[|y l] [|z h]]; [done| |destruct (Hn t y); by eexists _, _..]. by exists t, z, h.
  - destruct (decide (Exists (fun th => todo th = [] /\ held th <> []) ts)) as [He|He].
    { apply Exists_exists in He as ([td [|z hd]] & [t' Ht']%list_elem_of_lookup & Htd & Hhd); [done|].
      cbn in Htd. subst td. right. by exists t', z, hd. }
    left. exists t0, x, l, h. split; [done|]. intros t' [td hd] Ht' Hne' y Hy [Hb _]. cbn [held] in Hy.
    destruct td as [|x' td].
    + apply He, Exists_exists. exists (TxnThread [] hd). split; [by eapply list_elem_of_lookup_2|].
      split; [done|]. cbn. intros ->. by apply elem_of_nil in Hy.
    + pose proof (Hmax t' x' (ex_intro _ td (ex_intro _ hd Ht'))) as Hle.
      destruct (Forall_lookup_1 _ _ _ _ Hs Ht') as [b Hsort]. cbn [held todo] in Hsort.
      pose proof (ascending_app _ _ _ _ Hsort y Hy). lia.
Qed.

(** ** What the latches show while a transaction runs *)

(** [x] taken from a free latch. *)
Definition mark (ix : HashIndex) (x : lock) : HashIndex :=
  match latch_word ix (fst x) with
  | Some w => set_latch_word ix (fst x)
                (match snd x with Exclusive => latch_make w 0 true | Shared => latch_make w 1 false end)
  | None => ix
  end.
Definition free_at (ix : HashIndex) (b : nat) : Prop :=
  exists w, latch_word ix b = Some w /\ w = latch_make w 0 false /\ latch_fields_ok w 0.
Definition lock_one (ix : HashIndex) (x : lock) : option (bool * HashIndex) :=
  match snd x with Exclusive => try_lock_exclusive ix (fst x) | Shared => try_lock_shared ix (fst x) end.
Definition unlock_one (ix : HashIndex) (x : lock) : option HashIndex :=
  match snd x with Exclusive => unlock_exclusive ix (fst x) | Shared => unlock_shared ix (fst x) end.

Lemma mark_spec ix x : free_at ix (fst x) ->
  lock_one ix x = Some (true, mark ix x) /\ unlock_one (mark ix x) x = Some ix /\
  exists p c, latch_word (mark ix x) (fst x) = Some (latch_make p c (bool_decide (snd x = Exclusive))) /\
    latch_fields_ok p c /\ (snd x = Shared -> c = 1).
Proof.
  intros (w & Hw & E & Hf). destruct x as [b []]; unfold lock_one, unlock_one, mark; cbn [fst snd] in *; rewrite Hw.
  - pose proof (try_lock_shared_spec ix b w 0 false ltac:(congruence) Hf) as (ix' & H1 & H2 & H3).
    assert (Ei : ix' = set_latch_word ix b (latch_make w 1 false)).
    { unfold try_lock_shared in H1. rewrite Hw in H1. cbn [mbind option_bind] in H1.
      destruct (lock_shared_spin _ _) as [ok w'] eqn:El. injection H1 as -> <-. f_equal.
      rewrite (latch_word_set _ _ _ _ Hw) in H2. by injection H2 as ->. }
    subst ix'. split_and!; [done..|]. exists w, 1. split_and!; [done| |done]. destruct Hf. split; lia.
  - pose proof (try_lock_exclusive_spec ix b w 0 false ltac:(congruence) Hf) as (ix' & H1 & H2 & H3).
    assert (Ei : ix' = set_latch_word ix b (latch_make w 0 true)).
    { unfold try_lock_exclusive in H1. rewrite Hw in H1. cbn [mbind option_bind] in H1.
      destruct (acquire_exclusive_spin _ _) as [[] w'] eqn:El; [destruct (drain_readers_spin _ _)|]; try done.
      injection H1 as <-. f_equal. rewrite (latch_word_set _ _ _ _ Hw) in H2. by injection H2 as ->. }
    subst ix'. split_and!; [done..|]. exists w, 0. split_and!; done.
Qed.

Lemma latch_word_set_ne ix b b' w : b <> b' -> latch_word (set_latch_word ix b w) b' = latch_word ix b'.
Proof.
  intros H. unfold latch_word, set_latch_word, load_word, store_word, get_bucket. simpl.
  by rewrite list_lookup_alter_ne.
Qed.
Lemma set_latch_word_comm ix b b' w w' : b <> b' ->
  set_latch_word (set_latch_word ix b w) b' w' = set_latch_word (set_latch_word ix b' w') b w.
Proof. intros H. unfold set_latch_word, store_word. simpl. f_equal. by apply list_alter_alter_ne. Qed.
Lemma latch_word_mark_ne ix x b : fst x <> b -> latch_word (mark ix x) b = latch_word ix b.
Proof. intros H. unfold mark. destruct (latch_word ix (fst x)); [by apply latch_word_set_ne|done]. Qed.
Lemma mark_comm ix x y : fst x <> fst y -> mark (mark ix x) y = mark (mark ix y) x.
Proof.
  intros H. unfold mark at 1 3. rewrite !latch_word_mark_ne by done. unfold mark.
  destruct (latch_word ix (fst x)) eqn:Ex, (latch_word ix (fst y)) eqn:Ey; rewrite ?Ex, ?Ey; try done.
  by apply set_latch_word_comm.
Qed.

(** [l] names each bucket once. *)
Definition distinct (l : list lock) : Prop := NoDup (map fst l).
Lemma ascending_distinct l : forall b, ascending_from b l -> distinct l.
Proof.
  induction l as [|x l IH]; intros b; [intros _; apply NoDup_nil_2|]. intros [_ H]. apply NoDup_cons. split; [|by eapply IH].
  intros Hx. apply list_elem_of_fmap in Hx as (y & E & Hy). pose proof (ascending_above _ _ _ H Hy). lia.
Qed.

Lemma marks_ne l : forall ix b, b ∉ map fst l -> latch_word (foldl mark ix l) b = latch_word ix b.
Proof.
  induction l as [|x l IH]; intros ix b Hb; [done|]. simpl in Hb. apply not_elem_of_cons in Hb as [? ?].
  simpl. rewrite IH by done. apply latch_word_mark_ne. congruence.
Qed.
Lemma marks_mark l : forall ix x, fst x ∉ map fst l -> foldl mark (mark ix x) l = mark (foldl mark ix l) x.
Proof.
  induction l as [|y l IH]; intros ix x Hx; [done|]. simpl in Hx. apply not_elem_of_cons in Hx as [? ?].
  simpl. by rewrite mark_comm, IH.
Qed.
Lemma free_at_eq ix ix' b : latch_word ix' b = latch_word ix b -> free_at ix b -> free_at ix' b.
Proof. unfold free_at. by intros ->. Qed.

Lemma acquire_then_release l : forall ix, distinct l -> Forall (free_at ix) (map fst l) ->
  acquire_all ix l = Some (foldl mark ix l) /\ release_all (foldl mark ix l) l = Some ix /\
  forall x, x ∈ l -> exists p c, latch_word (foldl mark ix l) (fst x) = Some (latch_make p c (bool_decide (snd x = Exclusive))) /\
    latch_fields_ok p c /\ (snd x = Shared -> c = 1).
Proof.
  induction l as [|x l IH]; intros ix Hd Hf; [by split_and!; [..|intros x ?%elem_of_nil]|].
  apply NoDup_cons in Hd as [Hx Hd]. apply Forall_cons in Hf as [Hfx Hf].
  destruct (mark_spec ix x Hfx) as (H1 & _ & _). simpl foldl.
  assert (Hf1 : Forall (free_at (mark ix x)) (map fst l)).
  { rewrite Forall_forall in *. intros b Hb. eapply free_at_eq; [|by apply Hf]. apply latch_word_mark_ne. by intros <-. }
  assert (Hfx' : free_at (foldl mark ix l) (fst x)) by (eapply free_at_eq; [by apply marks_ne|done]).
  destruct (mark_spec _ x Hfx') as (_ & H2 & H3).
  destruct (IH (mark ix x) Hd Hf1) as (E1 & _ & E3). destruct (IH ix Hd Hf) as (_ & E2 & _). split_and!.
  - destruct x as [b []]; unfold lock_one in H1; cbn [fst snd acquire_all] in *; rewrite H1; exact E1.
  - rewrite marks_mark by done. destruct x as [b []]; unfold unlock_one in H2; cbn [fst snd release_all] in *; by rewrite H2.
  - intros y [->|Hy]%elem_of_cons; [by rewrite marks_mark|by apply E3].
Qed.

Lemma wanted_bucket ix keys x : x ∈ wanted_locks ix keys -> exists k, fst x = bucket_index ix (hash64 k).
Proof.
  intros Hx. assert (Hd : forall l, forall y b, (y ∈ dedup_after b l -> y ∈ l)).
  { induction l as [|z l IH]; intros y b; [done|]. simpl. destruct (_ =? _)%nat; [right; by eapply IH|].
    intros [->|Hy]%elem_of_cons; [by left|right; by eapply IH]. }
  assert (Hin : x ∈ sort_locks (map (fun p => (bucket_index ix (hash64 (fst p)), snd p)) keys)).
  { unfold wanted_locks in Hx. destruct (sort_locks _) as [|z l]; [done|]. simpl in Hx.
    apply elem_of_cons in Hx as [->|Hx]; [by left|right; by eapply Hd]. }
  rewrite sort_locks_perm in Hin. apply list_elem_of_fmap in Hin as ([k t] & -> & _). by exists k.
Qed.
Lemma mark_mask ix x : mask (mark ix x) = mask ix.
Proof. unfold mark. by destruct (latch_word ix (fst x)). Qed.
Lemma marks_mask l : forall ix, mask (foldl mark ix l) = mask ix.
Proof. induction l as [|x l IH]; intros ix; [done|]. simpl. by rewrite IH, mark_mask. Qed.

(** C21. From free latches [txn_lock] does not wait; while the transaction runs
    no other session can latch the bucket of one of its keys in a conflicting
    mode; [txn_unlock], like the end of the session, leaves every latch as it
    was found. *)
Theorem txn_lock_excludes_until_unlock st se keys :
  table_ok (st_index st) -> latch_free (st_index st) -> txn_mode se = false -> txn_locks se = [] ->
  exists st' se', txn_lock st se keys = Some (st', se') /\ in_transaction se' = true /\
    (forall k t, (k, t) ∈ keys -> let b := bucket_index (st_index st') (hash64 k) in
      try_lock_exclusive (st_index st') b = Some (false, st_index st') /\
      (t = Exclusive -> try_lock_shared (st_index st') b = Some (false, st_index st'))) /\
    txn_unlock st' se' = Some (st, se) /\
    exists st'', drop_session st' se' = Some st'' /\ st_index st'' = st_index st.
Proof.
  intros Hok Hfree Hm Hl. destruct (wanted_locks_spec (st_index st) keys) as [Hasc Hkeys].
  assert (Hfr : Forall (free_at (st_index st)) (map fst (wanted_locks (st_index st) keys))).
  { apply Forall_forall. intros b Hb. destruct (latch_word (st_index st) b) as [w|] eqn:Ew.
    - destruct (latch_free_word _ _ _ Hok Hfree Ew) as (? & ? & _). by exists w.
    - exfalso. apply list_elem_of_fmap in Hb as (x & -> & Hx). apply wanted_bucket in Hx as (k & Ek). rewrite Ek in Ew.
      destruct (main_bucket _ (hash64 k) Hok (hash64_nonneg k)) as [ws Hws]. unfold latch_word, load_word in Ew.
      rewrite Hws in Ew. cbn [mbind option_bind] in Ew. apply lookup_ge_None in Ew.
      rewrite (ok_len _ Hok _ _ Hws) in Ew. unfold OVERFLOW_ENTRY in Ew. lia. }
  destruct (acquire_then_release _ _ (ascending_distinct _ _ Hasc) Hfr) as (E1 & E2 & E3).
  set (ix' := foldl mark (st_index st) _) in *.
  assert (Hun : forall se', txn_locks se' = wanted_locks (st_index st) keys ->
    release_all (st_index (set_index st ix')) (txn_locks se') = Some (st_index st)) by (by intros se' ->).
  do 2 eexists. unfold txn_lock. rewrite Hm, E1. cbn [mbind option_bind]. split; [done|]. split; [done|].
  assert (Eu : txn_unlock (set_index st ix') (MkSession true (txn_locks se ++ wanted_locks (st_index st) keys) (se_state se) (se_tid se) (se_slot se))
    = Some (st, se)).
  { unfold txn_unlock. rewrite Hun by (by rewrite Hl). cbn [mbind option_bind]. destruct st, se. cbn in *. by subst. }
  split; [|split; [exact Eu|]].
  - intros k t Hk. set (b := bucket_index (st_index (set_index st ix')) (hash64 k)). assert (Eb : b = bucket_index (st_index st) (hash64 k)).
    { unfold b, bucket_index, ix'. cbn [st_index set_index]. by rewrite marks_mask. }
    destruct (Hkeys k t Hk) as (ty & Hin & Hty). rewrite <- Eb in Hin.
    destruct (E3 _ Hin) as (p & c & Hw & Hf & Hc). cbn [fst snd] in *. split.
    + pose proof (try_lock_exclusive_spec _ _ _ _ _ Hw Hf) as He. destruct ty; cbn in He; [|exact He].
      rewrite (Hc eq_refl) in He. exact He.
    + intros ->. pose proof (try_lock_shared_spec _ _ _ _ _ Hw Hf) as He. by rewrite (Hty eq_refl) in He.
  - unfold drop_session. cbn [txn_mode]. rewrite Eu. cbn [mbind option_bind]. by eexists.
Qed.

Lemma ordered_locking_never_deadlocks_witness :
  advances [TxnThread (wanted_locks (index_new 64) [(bs "b", Exclusive); (bs "a", Shared)]) []; TxnThread [] []].
Proof.
  apply (ordered_locking_never_deadlocks (index_new 64) 2).
  - apply rtc_once. refine (txn_start _ _ 0%nat [(bs "b", Exclusive); (bs "a", Shared)] _). reflexivity.
  - exists 0%nat. eexists. split; [reflexivity|]. intros E. apply (f_equal (fun th => length (todo th))) in E.
    vm_compute in E. discriminate.
Defined.

Lemma txn_lock_excludes_until_unlock_witness : exists st st' se',
  let se := new_session st 7 in store_new 64 9 4 2 = Some st /\
  txn_lock st se [(bs "b", Exclusive); (bs "a", Store.Shared)] = Some (st', se') /\ txn_unlock st' se' = Some (st, se).
Proof.
  destruct (store_new 64 9 4 2) as [st|] eqn:E; [|vm_compute in E; discriminate].
  destruct (store_new_ok _ _ _ _ _ 7 E) as (H1 & H2 & _); [lia|lia|].
  destruct (txn_lock_excludes_until_unlock st (new_session st 7) [(bs "b", Exclusive); (bs "a", Store.Shared)])
    as (st' & se' & H3 & _ & _ & H4 & _); [apply H1|apply H2; reflexivity|done|done|].
  by exists st, st', se'.
Defined.
