(* ===== verification/TxnStore.v ===== *)
(** * A transaction's latches around the operations of the store

    What the latches a transaction holds look like in the index, that taking and
    releasing them leaves the map alone, and that the operations in between
    leave the latches alone, so that the transaction can release them all. *)

From S2P Require Import Prelude Record Hash Index IndexSpec Latch Epoch Log Session LogSpec LogLive Store StoreInv StoreSpec StoreAttempt StoreRefine StoreOps Txn.

#[local] Opaque hash64.

Abbreviation lock := (nat * LockType)%type (only parsing).

(** The bits above the address of a bucket's last word. *)
Definition mode_bits (readers : Z) (writer : bool) : word := Z.land (latch_make 0 readers writer) (not64 ADDRESS_MASK).
Definition lock_bits (x : lock) : word :=
  match snd x with Exclusive => mode_bits 0 true | Shared => mode_bits 1 false end.

Lemma mode_bits_eq p c x : latch_fields_ok p c -> Z.land (latch_make p c x) (not64 ADDRESS_MASK) = mode_bits c x.
Proof.
  intros H. assert (H0 : latch_fields_ok 0 c) by (destruct H; by split). unfold mode_bits, ADDRESS_MASK.
  apply word_eq. intros n Hn. rewrite !Z.land_spec, !testbit_latch, testbit_not64, testbit_ones by (done || lia).
  destruct (Z.ltb_spec n 48), (Z.leb_spec 0 n), (Z.ltb_spec n 64); try lia; simpl; by rewrite ?andb_false_r.
Qed.
Lemma mode_bits_free : mode_bits 0 false = 0.
Proof. by vm_compute. Qed.

(** [l]: the buckets latched, and how; all others are free. *)
Record held (ix : HashIndex) (l : list lock) : Prop := {
  hd_distinct : distinct l;
  hd_locked : forall x, x ∈ l -> latch_bits ix (Main (fst x)) = Some (lock_bits x);
  hd_free : forall bi, bi ∉ map fst l -> is_Some (latch_word ix bi) -> latch_bits ix (Main bi) = Some 0 }.

Lemma held_free ix : held ix [] <-> latch_free ix.
Proof.
  split; [intros [_ _ H] bi; apply H; apply not_elem_of_nil|]. intros H. split; [apply NoDup_nil_2|by intros x ?%elem_of_nil|].
  intros bi _. apply H.
Qed.
Lemma held_perm ix l l' : Permutation l l' -> held ix l -> held ix l'.
Proof.
  intros Hp [H1 H2 H3]. split; [unfold distinct in *; by rewrite <- Hp|intros x; rewrite <- Hp; apply H2|].
  intros bi Hb. apply H3. by rewrite Hp.
Qed.
Lemma latch_word_bits ix bi : is_Some (latch_word ix bi) <-> is_Some (latch_bits ix (Main bi)).
Proof.
  unfold latch_word, latch_bits. destruct (load_word _ _ _) as [w|]; cbn [mbind option_bind]; split; try (by intros []); by eexists.
Qed.
Lemma held_bits ix ix' l : (forall b, latch_bits ix' b = latch_bits ix b) -> held ix l -> held ix' l.
Proof.
  intros Hb [H1 H2 H3]. split; [done|intros x Hx; rewrite Hb; by apply H2|].
  intros bi Hn Hs. rewrite Hb. apply H3; [done|]. apply latch_word_bits. rewrite <- Hb. by apply latch_word_bits.
Qed.

Section Relatch.
Context {fl : floor} {rs : reserved}.
Implicit Types (st : Store) (R : gmap Z cell) (M : gmap bytes cell).

(** What a change of latch bits keeps. *)
Record relatched st ix' : Prop := {
  rl_ok : forall R M, store_ok st R M -> store_ok (set_index st ix') R M;
  rl_arena : same_arena (st_index st) ix';
  rl_indexed : forall k, indexed (st_index st) k -> indexed ix' k;
  rl_words : forall bi, is_Some (latch_word ix' bi) <-> is_Some (latch_word (st_index st) bi) }.

Lemma relatched_refl st : relatched st (st_index st).
Proof. split; try done. by destruct st. Qed.
Lemma relatched_trans st ix1 ix2 : relatched st ix1 -> relatched (set_index st ix1) ix2 -> relatched st ix2.
Proof.
  intros [H1 [A1 A2] C1 D1] [H2 [B1 B2] C2 D2]. split; [|split; cbn in *; congruence|auto|].
  - intros R M Hok. by apply (H2 R M), H1.
  - intros bi. by rewrite (D2 bi).
Qed.

Lemma relatch st R M bi p c x c' x' : store_ok st R M -> latch_word (st_index st) bi = Some (latch_make p c x) ->
  latch_fields_ok p c -> latch_fields_ok p c' -> relatched st (set_latch_word (st_index st) bi (latch_make p c' x')).
Proof.
  intros Hok Hw Hf Hf'. pose proof (latch_make_u64 p c' x' Hf') as Hu.
  assert (Hp : Z.land (latch_make p c' x') ADDRESS_MASK = Z.land (latch_make p c x) ADDRESS_MASK) by by rewrite !latch_ptr.
  pose proof (so_table _ _ _ Hok) as Ht. pose proof (so_entries _ _ _ Hok) as He. split.
  - intros R' M' Hok'. by eapply store_set_latch.
  - apply store_word_arena.
  - intros k. unfold indexed, set_latch_word. erewrite set_latch_entry_word; [done|exact Ht|exact He|exact Hw|exact Hp|exact Hu|apply hash64_nonneg].
  - intros b. destruct (decide (bi = b)) as [<-|Hne].
    + rewrite (latch_word_set _ _ _ _ Hw), Hw. split; by eexists.
    + by rewrite latch_word_set_ne.
Qed.

Lemma held_word st R M bi c x : store_ok st R M -> latch_bits (st_index st) (Main bi) = Some (mode_bits c x) -> 0 <= c < 2 ^ 15 ->
  exists p, latch_word (st_index st) bi = Some (latch_make p c x) /\ latch_fields_ok p c.
Proof.
  intros Hok Hb Hc. unfold latch_bits in Hb. fold (latch_word (st_index st) bi) in Hb.
  destruct (latch_word (st_index st) bi) as [w|] eqn:Hw; [|done]. cbn [mbind option_bind] in Hb. injection Hb as Hb.
  destruct (same_latch_bits w 0 c x (ok_word _ (so_table _ _ _ Hok) _ _ Hw) ltac:(by split; [lia|]) Hb) as [Ew Hf].
  exists (Z.land w ADDRESS_MASK). split; [congruence|done].
Qed.

Lemma held_set ix l bi w c x w' : latch_word ix bi = Some w -> held ix l -> bi ∉ map fst l ->
  Z.land w' (not64 ADDRESS_MASK) = mode_bits c x ->
  forall y, fst y = bi -> lock_bits y = mode_bits c x -> held (set_latch_word ix bi w') (y :: l).
Proof.
  intros Hw [H1 H2 H3] Hb Hm y Hy Hl. split.
  - apply NoDup_cons. by rewrite Hy.
  - intros z Hz. rewrite (latch_bits_set _ _ _ _ _ Hw). case_decide as E.
    + injection E as E. apply elem_of_cons in Hz as [->|Hz]; [by rewrite Hm, Hl|].
      destruct Hb. rewrite <- E. by apply list_elem_of_fmap_2.
    + apply elem_of_cons in Hz as [->|Hz]; [by rewrite Hy in E|by apply H2].
  - intros b Hn Hs. cbn [map] in Hn. apply not_elem_of_cons in Hn as [Hne Hn].
    rewrite (latch_bits_set _ _ _ _ _ Hw), decide_False by congruence. apply H3; [done|].
    rewrite latch_word_set_ne in Hs; [done|congruence].
Qed.
Lemma held_unset ix l bi w w' y : latch_word ix bi = Some w -> held ix (y :: l) -> fst y = bi ->
  Z.land w' (not64 ADDRESS_MASK) = 0 -> held (set_latch_word ix bi w') l.
Proof.
  intros Hw [H1 H2 H3] Hy Hm. apply NoDup_cons in H1 as [Hn H1]. rewrite Hy in Hn. split; [done| |].
  - intros z Hz. rewrite (latch_bits_set _ _ _ _ _ Hw), decide_False; [apply H2; by right|].
    intros [= E]. destruct Hn. rewrite <- E. by apply list_elem_of_fmap_2.
  - intros b Hb Hs. rewrite (latch_bits_set _ _ _ _ _ Hw). case_decide as E; [by rewrite Hm|].
    apply H3; [|rewrite latch_word_set_ne in Hs; [done|congruence]]. cbn [map]. apply not_elem_of_cons. split; [congruence|done].
Qed.

Lemma lock_one_held st R M l x : store_ok st R M -> held (st_index st) l -> fst x ∉ map fst l ->
  is_Some (latch_word (st_index st) (fst x)) ->
  exists ix', lock_one (st_index st) x = Some (true, ix') /\ relatched st ix' /\ held ix' (x :: l).
Proof.
  intros Hok Hh Hx Hs. pose proof (hd_free _ _ Hh _ Hx Hs) as Hb. rewrite <- mode_bits_free in Hb.
  destruct (held_word st R M (fst x) 0 false Hok Hb ltac:(lia)) as (p & Hw & Hf).
  assert (Hf1 : latch_fields_ok p 1) by (destruct Hf; by split; [|lia]).
  assert (Hfree : free_at (st_index st) (fst x)).
  { exists (latch_make p 0 false). split; [done|]. unfold latch_make. cbn [Z.b2z].
    replace (p + 2 ^ 48 * (0 + 2 ^ 15 * 0)) with p by lia. split; [lia|done]. }
  exists (mark (st_index st) x). split; [by apply mark_spec|]. unfold mark. rewrite Hw.
  assert (Ep : forall c w, latch_make (latch_make p 0 false) c w = latch_make p c w) by (intros; unfold latch_make; cbn [Z.b2z]; lia).
  destruct x as [b []]; cbn [fst snd] in *; rewrite Ep; (split; [by eapply relatch|]);
    (eapply held_set; [exact Hw|exact Hh|exact Hx|by apply mode_bits_eq|done|done]).
Qed.
Lemma unlock_one_held st R M l x : store_ok st R M -> held (st_index st) (x :: l) ->
  exists ix', unlock_one (st_index st) x = Some ix' /\ relatched st ix' /\ held ix' l.
Proof.
  intros Hok Hh. pose proof (hd_locked _ _ Hh x ltac:(by left)) as Hb. unfold unlock_one, lock_bits in *.
  assert (Hz : forall p, latch_fields_ok p 0 -> Z.land (latch_make p 0 false) (not64 ADDRESS_MASK) = 0)
    by (intros p Hp; by rewrite mode_bits_eq, mode_bits_free).
  destruct x as [b []]; cbn [fst snd] in *.
  - destruct (held_word st R M b 1 false Hok Hb ltac:(lia)) as (p & Hw & Hf). assert (Hf0 : latch_fields_ok p 0) by (destruct Hf; by split; [|lia]).
    exists (set_latch_word (st_index st) b (latch_make p 0 false)). unfold unlock_shared. rewrite Hw. cbn [mbind option_bind].
    rewrite latch_sub_reader by (done || lia). split; [done|]. split; [by eapply relatch|]. by eapply held_unset; [exact Hw|exact Hh|done|apply Hz].
  - destruct (held_word st R M b 0 true Hok Hb ltac:(lia)) as (p & Hw & Hf).
    exists (set_latch_word (st_index st) b (latch_make p 0 false)). unfold unlock_exclusive. rewrite Hw. cbn [mbind option_bind].
    rewrite latch_clear_exclusive by done. split; [done|]. split; [by eapply relatch|]. by eapply held_unset; [exact Hw|exact Hh|done|apply Hz].
Qed.

Lemma acquire_all_held l : forall st R M l0, store_ok st R M -> held (st_index st) l0 -> distinct (l ++ l0) ->
  Forall (fun x => is_Some (latch_word (st_index st) (fst x))) l ->
  exists ix', acquire_all (st_index st) l = Some ix' /\ relatched st ix' /\ held ix' (l ++ l0).
Proof.
  induction l as [|x l IH]; intros st R M l0 Hok Hh Hd Hs.
  { exists (st_index st). split; [done|]. split; [apply relatched_refl|done]. }
  apply Forall_cons in Hs as [Hx Hs]. unfold distinct in Hd. cbn [app map] in Hd. apply NoDup_cons in Hd as [Hn Hd]. rewrite map_app in Hn.
  destruct (lock_one_held st R M l0 x Hok Hh) as (ix1 & E1 & H1 & Hh1); [by apply not_elem_of_app in Hn as []|done|].
  destruct (IH (set_index st ix1) R M (x :: l0)) as (ix2 & E2 & H2 & Hh2).
  - by apply H1.
  - done.
  - unfold distinct in *. rewrite map_app in *. cbn [map]. rewrite <- Permutation_middle. by apply NoDup_cons.
  - eapply Forall_impl; [exact Hs|]. intros y. apply (rl_words _ _ H1).
  - exists ix2. split; [|split; [by eapply relatched_trans|]].
    + destruct x as [b []]; unfold lock_one in E1; cbn [fst snd acquire_all] in *; by rewrite E1.
    + eapply held_perm; [|exact Hh2]. cbn [app]. by rewrite Permutation_middle.
Qed.
Lemma release_all_held l : forall st R M, store_ok st R M -> held (st_index st) l ->
  exists ix', release_all (st_index st) l = Some ix' /\ relatched st ix' /\ held ix' [].
Proof.
  induction l as [|x l IH]; intros st R M Hok Hh.
  { exists (st_index st). split; [done|]. split; [apply relatched_refl|done]. }
  destruct (unlock_one_held st R M l x Hok Hh) as (ix1 & E1 & H1 & Hh1).
  destruct (IH (set_index st ix1) R M) as (ix2 & E2 & H2 & Hh2); [by apply H1|done|].
  exists ix2. split; [|split; [by eapply relatched_trans|done]].
  destruct x as [b []]; unfold unlock_one in E1; cbn [fst snd release_all] in *; by rewrite E1.
Qed.

Lemma wanted_latched ix keys : table_ok ix -> Forall (fun x => is_Some (latch_word ix (fst x))) (wanted_locks ix keys).
Proof.
  intros Hok. apply Forall_forall. intros x Hx. apply wanted_bucket in Hx as (k & ->).
  destruct (main_bucket _ (hash64 k) Hok (hash64_nonneg k)) as [ws Hws]. unfold latch_word, load_word. rewrite Hws.
  cbn [mbind option_bind]. apply lookup_lt_is_Some. rewrite (ok_len _ Hok _ _ Hws). unfold OVERFLOW_ENTRY. lia.
Qed.

(** ** A transaction of a session *)

Definition idle st (se : Session) : Prop := txn_mode se = false /\ txn_locks se = [].
Definition in_txn st (se : Session) : Prop := txn_mode se = true /\ held (st_index st) (txn_locks se).

(** The same session, of the same thread, before and after an operation. *)
Definition same_session (se se' : Session) : Prop := txn_locks se' = txn_locks se /\ se_tid se' = se_tid se.
#[export] Instance same_session_preorder : PreOrder same_session.
Proof. split; [by split|]. intros x y z [] []. split; congruence. Qed.
(** The invariant of a transaction is one of the latches and the session only. *)
Lemma in_txn_kept st se st' se' : kept st st' -> txn_mode se' = txn_mode se -> same_session se se' ->
  in_txn st se -> in_txn st' se'.
Proof. intros Hk Hm [Hl _] [H1 H2]. split; [congruence|]. rewrite Hl. eapply held_bits; [apply Hk|done]. Qed.

Lemma ready_relatched st se ix' se' : ready st se -> (txn_mode se' = false -> latch_free ix') ->
  se_tid se' = se_tid se -> se_slot se' = se_slot se -> ready (set_index st ix') se'.
Proof. intros [H1 H2 H3 H4 H5 H6 H7] Hf Ht Hs. split; cbn [set_index st_log st_index]; rewrite ?Ht, ?Hs; done. Qed.

Lemma txn_lock_store st se R M keys : store_ok st R M -> ready st se -> idle st se ->
  exists ix' se', txn_lock st se keys = Some (set_index st ix', se') /\ relatched st ix' /\
    ready (set_index st ix') se' /\ in_txn (set_index st ix') se' /\ se_tid se' = se_tid se.
Proof.
  intros Hok Hr [Hm Hl]. pose proof (so_table _ _ _ Hok) as Ht. destruct (wanted_locks_spec (st_index st) keys) as [Hasc _].
  destruct (acquire_all_held (wanted_locks (st_index st) keys) st R M [] Hok) as (ix' & E & Hrl & Hh).
  { apply held_free. by apply (rd_free _ _ Hr). }
  { rewrite app_nil_r. by eapply ascending_distinct. }
  { by apply wanted_latched. }
  rewrite app_nil_r in Hh. unfold txn_lock. rewrite Hm, E, Hl. cbn [mbind option_bind app]. eexists ix', _. split; [reflexivity|].
  split; [done|]. split; [by eapply ready_relatched|]. by split.
Qed.
Lemma txn_unlock_store st se R M : store_ok st R M -> ready st se -> in_txn st se ->
  exists ix' se', txn_unlock st se = Some (set_index st ix', se') /\ relatched st ix' /\
    ready (set_index st ix') se' /\ idle (set_index st ix') se' /\ se_tid se' = se_tid se.
Proof.
  intros Hok Hr [Hm Hh]. destruct (release_all_held _ st R M Hok Hh) as (ix' & E & Hrl & Hh').
  unfold txn_unlock. rewrite E. cbn [mbind option_bind]. eexists ix', _. split; [reflexivity|]. split; [done|].
  split; [|by split]. eapply ready_relatched; [done| |done|done]. intros _. by apply held_free.
Qed.
End Relatch.

(** ** Operations leave the transaction's list of latches, and the thread, alone *)

Section Locks.
Context {Input Out : Type} {F : SessionFunctions Input Out} (k : bytes) (h : word) (i : Input).
Implicit Types (st : Store) (se : Session) (out : Out).

Lemma protected_locks {A} st se (body : Store -> Session -> option (A * Store)) x st' se' :
  protected st se body = Some (x, st', se') -> same_session se se'.
Proof.
  unfold protected. destruct (protect _ _ _) as [[[v idx] e]|]; [|done]. cbn [mbind option_bind].
  destruct (body _ _) as [[r st1]|]; [|done]. cbn [mbind option_bind].
  destruct (unprotect _ _ _) as [[idx' e']|]; [|done]. cbn [mbind option_bind]. by intros [= _ _ <-].
Qed.

(** One round of a retry loop: where it ends, and where it goes on. *)
Ltac rounds IH := lazymatch goal with |- context [protected ?a ?b ?c] =>
    let Ep := fresh in destruct (protected a b c) as [[[[? ?] ?] ?]|] eqn:Ep; [|done];
    apply protected_locks in Ep; cbn [mbind option_bind]; unfold mbind, option_bind;
    let E := fresh in intros E; split_match E; try (etransitivity; [exact Ep|by eapply IH]); by injection E as _ _ _ <- end.
Lemma read_locks fuel : forall st se out n s out' st' se',
  read_loop fuel st se k h i out n = Some (s, out', st', se') -> same_session se se'.
Proof. induction fuel as [|fuel IH]; intros st se out n s out' st' se'; [done|]. cbn [read_loop]. rounds IH. Qed.
Lemma upsert_locks fuel : forall st se out n s out' st' se',
  upsert_loop fuel st se k h i out n = Some (s, out', st', se') -> same_session se se'.
Proof. induction fuel as [|fuel IH]; intros st se out n s out' st' se'; [done|]. cbn [upsert_loop]. rounds IH. Qed.
Lemma rmw_locks fuel : forall st se out disk n s out' st' se',
  rmw_loop fuel st se k h i out disk n = Some (s, out', st', se') -> same_session se se'.
Proof. induction fuel as [|fuel IH]; intros st se out disk n s out' st' se'; [done|]. cbn [rmw_loop]. rounds IH. Qed.
Lemma delete_locks fuel : forall st se out disk n s out' st' se',
  delete_loop fuel st se k h out disk n = Some (s, out', st', se') -> same_session se se'.
Proof. induction fuel as [|fuel IH]; intros st se out disk n s out' st' se'; [done|]. cbn [delete_loop]. rounds IH. Qed.
End Locks.
