(* ===== verification/Scan.v ===== *)
(** * Scans of live records ([crates/tsavorite/src/store.rs])

    [scan_live], which KEYS, SCAN and DBSIZE use: the log from begin to tail,
    page by page, keeping the records that are the newest of their key. *)

From S2P Require Import Prelude Record Hash Index Epoch Log Session Store.

#[local] Opaque hash64.

(** The walk of [is_latest] from the index entry down to [addr]. *)
Fixpoint is_latest_loop (fuel : nat) (l : HybridLog) (cur addr : Z) (key : bytes) : option bool :=
  match fuel with
  | O => None
  | S fuel =>
      if (addr <? cur) && (begin_address l <=? cur) then
        if head_address l <=? cur then
          rec ← record_at l cur;
          if bool_decide (c_key rec = key) && is_valid (c_info rec) then Some false
          else is_latest_loop fuel l (previous_address (c_info rec)) addr key
        else
          match read_record_from_disk l cur with
          | None => Some false
          | Some rec => if bool_decide (c_key rec = key) then Some false
                        else is_latest_loop fuel l (previous_address (c_info rec)) addr key
          end
      else Some (cur =? addr)
  end.
Definition is_latest (st : Store) (addr : Z) (key : bytes) : option bool :=
  found ← find_tag (st_index st) (hash64 key);
  match found with
  | None => Some false
  | Some slot =>
      entry ← slot_load (st_index st) slot;
      let cur := entry_address entry in
      is_latest_loop (trace_fuel cur) (st_log st) cur addr key
  end.

(** The callback of [scan_live] on the records of one page. *)
Fixpoint live_of (st : Store) (recs : list (Z * cell)) : option (list (Z * cell)) :=
  match recs with
  | [] => Some []
  | (addr, rec) :: recs =>
      let info := c_info rec in
      keep ← (if negb (is_valid info) || is_tombstone info then Some false else is_latest st addr (c_key rec));
      rest ← live_of st recs;
      Some (if keep : bool then (addr, rec) :: rest else rest)
  end.

(** Page by page; the first record of a page refreshes the epoch, which may run
    what has become safe. *)
Fixpoint scan_live_loop (fuel : nat) (st : Store) (tid : Z) (slot : option nat) (addr to : Z)
    : option (list (Z * cell) * option nat * Store) :=
  match fuel with
  | O => None
  | S fuel =>
      if addr <? to then
        let l := st_log st in
        recs ← scan_page l addr to;
        '(slot, st) ← (match recs with
                       | [] => Some (slot, st)
                       | _ => '(idx, l) ← log_refresh l tid slot; Some (Some idx, set_log st l)
                       end);
        here ← live_of st recs;
        '(rest, slot, st) ← scan_live_loop fuel st tid slot
          (Z.shiftl (page_of l addr) (page_bits l) + page_size l) to;
        Some (here ++ rest, slot, st)
      else Some ([], slot, st)
  end.
Definition scan_live (st : Store) (se : Session) : option (list (Z * cell) * Store * Session) :=
  '(_, idx, e) ← protect (epoch (st_log st)) (se_tid se) (se_slot se);
  let st := set_log st (set_epoch_state (st_log st) e) in
  let begin_ := begin_address (st_log st) in
  to ← tail_address (st_log st);
  let addr := Z.max begin_ FIRST_VALID_ADDRESS in
  '(recs, slot, st) ← scan_live_loop (S (S (Z.to_nat (page_of (st_log st) to - page_of (st_log st) addr)))) st
    (se_tid se) (Some idx) addr to;
  '(idx, e) ← unprotect (epoch (st_log st)) (se_tid se) slot;
  Some (recs, set_log st (set_epoch_state (st_log st) e),
        MkSession (txn_mode se) (txn_locks se) (se_state se) (se_tid se) (Some idx)).
Definition count_live (st : Store) (se : Session) : option (Z * Store * Session) :=
  '(recs, st, se) ← scan_live st se; Some (Z.of_nat (length recs), st, se).
