(* ===== verification/ScanSpec.v ===== *)
(** * A scan of live records visits exactly the map

    [scan_live] returns every binding of the abstract map once, whatever is on
    the device, in memory, superseded or deleted. *)

From stdpp Require Import sorting.
From S2P Require Import Prelude Record Resp Session Functions FunctionsSpec Hash Index IndexSpec Latch Epoch Log.
From S2P Require Import LogSpec LogLive LogTiling Store StoreInv StoreSpec StoreAttempt StoreRefine StoreOps Scan.

#[local] Opaque hash64.

Section Scans.
Context {fl : floor} {rs : reserved}.

(** ** Which records are live *)

Lemma newest_above R b k a x : cells_ok R b -> newest R b k a (Some x) -> b <= x <= a.
Proof. intros Hc Hn. by destruct (newest_found _ _ _ _ _ Hn). Qed.

(** What the walk finds at an address, in memory or on the device. *)
Lemma walk_record l R cur c : log_ok l R -> R !! cur = Some c ->
  exists d, (if head_address l <=? cur then record_at l cur else read_record_from_disk l cur) = Some d /\
    unseal_img d = unseal_img c.
Proof.
  intros Hok Hc. pose proof (contents_ok l R cur Hok (lo_dom _ _ Hok _ _ Hc)) as E. unfold contents in E.
  rewrite Hc in E. destruct (if _ : bool then _ else _) as [d|]; [|done]. exists d. split; [done|].
  cbn [fmap option_fmap option_map] in E. congruence.
Qed.

Lemma is_latest_loop_spec fuel l R k cur addr : log_ok l R -> tiled l R -> cells_ok R (begin_address l) ->
  start_ok R (begin_address l) cur -> begin_address l <= addr ->
  (exists c, R !! addr = Some c /\ c_key c = k) -> 0 <= begin_address l -> (Z.to_nat cur < fuel)%nat ->
  exists b, is_latest_loop fuel l cur addr k = Some b /\
    (b = true <-> newest R (begin_address l) k cur (Some addr)).
Proof.
  intros Hok Ht Hc Hs Hba (c0 & Ha & Hk) Hb0. revert cur Hs. induction fuel as [|fuel IH]; intros cur Hs Hf; [lia|].
  cbn [is_latest_loop]. destruct (Z.ltb_spec addr cur) as [Hlt|Hge]; cbn [andb].
  2: { exists (cur =? addr). split; [done|]. rewrite Z.eqb_eq. split.
       - intros ->. by apply (newest_hit _ _ _ _ c0).
       - intros Hn. pose proof (newest_above _ _ _ _ _ Hc Hn). lia. }
  destruct (Z.leb_spec (begin_address l) cur); [|lia].
  destruct Hs as [|[c Hcur]]; [lia|]. destruct (Hc _ _ Hcur) as (_ & Hpl & Hp).
  destruct (walk_record l R cur c Hok Hcur) as (d & Ed & Eu).
  assert (Hnext : c_key c <> k -> exists b, is_latest_loop fuel l (previous_address (c_info d)) addr k = Some b /\
    (b = true <-> newest R (begin_address l) k cur (Some addr))).
  { intros Hne. rewrite (unseal_previous _ _ Eu).
    destruct (IH (previous_address (c_info c)) Hp) as (b & E & Hbn); [lia|]. exists b. split; [done|]. rewrite Hbn. split.
    - intros Hn. by eapply newest_next.
    - intros Hn. inversion Hn; subst; simplify_eq; done. }
  assert (Hhit : c_key c = k -> (false = true <-> newest R (begin_address l) k cur (Some addr))).
  { intros Hkc. split; [done|]. intros Hn. inversion Hn; subst; simplify_eq; lia. }
  pose proof (ip_valid _ _ _ _ (ti_rec _ _ Ht _ _ Hcur)) as Hv.
  destruct (head_address l <=? cur); rewrite Ed; cbn [mbind option_bind].
  - rewrite (unseal_key _ _ Eu), (unseal_valid _ _ Eu), Hv. case_bool_decide; [exists false; by split; [|apply Hhit]|by apply Hnext].
  - rewrite (unseal_key _ _ Eu). case_bool_decide; [exists false; by split; [|apply Hhit]|by apply Hnext].
Qed.

(** A record the scan keeps. *)
Definition live (ix : HashIndex) (b : Z) (R : gmap Z cell) (x : Z * cell) : Prop :=
  is_tombstone (c_info (snd x)) = false /\
  newest R b (c_key (snd x)) (start ix (c_key (snd x))) (Some (fst x)).

Lemma is_latest_spec st R M a c : store_ok st R M -> R !! a = Some c ->
  exists b, is_latest st a (c_key c) = Some b /\
    (b = true <-> newest R (begin_address (st_log st)) (c_key c) (start (st_index st) (c_key c)) (Some a)).
Proof.
  intros Hok Ha. unfold is_latest. pose proof (so_table _ _ _ Hok) as Ht.
  pose proof (so_begin _ _ _ Hok) as Hb. unfold FIRST_VALID_ADDRESS, PAGE_HEADER_SIZE in Hb.
  pose proof (so_start _ _ _ Hok (c_key c)) as Hs. pose proof (lo_dom _ _ (so_log _ _ _ Hok) _ _ Ha) as Hd.
  pose proof (ly_begin _ _ (so_layout _ _ _ Hok)) as Eb.
  destruct (find_tag_spec (st_index st) (hash64 (c_key c)) Ht (hash64_nonneg _)) as (r & Hf & _).
  rewrite Hf. cbn [mbind option_bind]. destruct r as [slot|].
  - destruct (find_tag_loads _ _ _ Ht (hash64_nonneg _) Hf) as (w & Hw & _). rewrite Hw. cbn [mbind option_bind].
    rewrite (start_slot _ _ _ _ Hf Hw) in *. apply is_latest_loop_spec; try done.
    + apply (so_log _ _ _ Hok).
    + apply (ly_tiled _ _ (so_layout _ _ _ Hok)).
    + apply (so_cells _ _ _ Hok).
    + lia.
    + by exists c.
    + lia.
    + unfold trace_fuel. lia.
  - exists false. split; [done|]. split; [done|]. intros Hn. unfold start, entry_word in Hn. rewrite Hf in Hn.
    apply (newest_above _ _ _ _ _ (so_cells _ _ _ Hok)) in Hn. unfold INVALID_ADDRESS in Hn. lia.
Qed.

(** What the records of one page contribute. *)
Lemma live_of_spec st R M recs : store_ok st R M ->
  (forall a c', (a, c') ∈ recs -> exists c, R !! a = Some c /\ unseal_img c' = unseal_img c) ->
  exists ys, live_of st recs = Some ys /\ sublist ys recs /\
    forall x, x ∈ recs -> (x ∈ ys <-> live (st_index st) (begin_address (st_log st)) R x).
Proof.
  intros Hok. induction recs as [|[a c'] recs IH]; intros Hrecs.
  { exists []. split; [done|]. split; [constructor|]. by intros x Hx%elem_of_nil. }
  destruct IH as (ys & E & Hsub & Hys); [intros b d Hin; apply (Hrecs b d); by right|].
  destruct (Hrecs a c' ltac:(by left)) as (c & Ha & Eu). cbn [live_of].
  rewrite (unseal_valid _ _ Eu), (ip_valid _ _ _ _ (ti_rec _ _ (ly_tiled _ _ (so_layout _ _ _ Hok)) _ _ Ha)). cbn [negb orb].
  assert (Hkeep : exists b, (if is_tombstone (c_info c') then Some false else is_latest st a (c_key c')) = Some b /\
    (b = true <-> live (st_index st) (begin_address (st_log st)) R (a, c'))).
  { unfold live. cbn [fst snd]. rewrite (unseal_key _ _ Eu).
    destruct (is_tombstone (c_info c')); [exists false; split; [done|]; by split; [|intros [? _]]|].
    destruct (is_latest_spec st R M a c Hok Ha) as (b & -> & Hb). exists b. split; [done|]. rewrite Hb. tauto. }
  destruct Hkeep as (b & -> & Hb). cbn [mbind option_bind]. rewrite E. cbn [mbind option_bind].
  eexists. split; [done|]. destruct b.
  - split; [by constructor|]. intros x [->|Hx]%elem_of_cons; [split; [intros _; by apply Hb|by left]|].
    rewrite <- (Hys x Hx), elem_of_cons. split; [|by right]. intros [->|?]; [|done]. apply Hys; [done|by apply Hb].
  - split; [by constructor|]. intros x [->|Hx]%elem_of_cons; [|by apply Hys].
    split; [|by intros Hl%Hb]. intros Hin. apply (Hys (a, c')); [|done]. by eapply elem_of_sublist.
Qed.

(** ** Page by page *)

Definition slot_current (st : Store) (idx : nat) (tid : Z) : Prop :=
  table (epoch (st_log st)) !! idx = Some (ESlot (current (epoch (st_log st))) tid).

(** A refresh inside the scan runs what has become safe and changes no record. *)
Lemma refresh_store st R M tid idx : store_ok st R M -> slot_current st idx tid ->
  exists l', log_refresh (st_log st) tid (Some idx) = Some (idx, l') /\
    store_ok (set_log st l') R M /\ step_ok st (set_log st l') /\ moved (st_log st) l' /\
    slot_current (set_log st l') idx tid.
Proof.
  intros Hok Hs. destruct (refresh_step _ R tid idx (so_log _ _ _ Hok) (so_lively _ _ _ Hok) Hs)
    as (l' & E & Hlog & Hst & Hm & Hc).
  exists l'. split; [done|]. split; [|split; [|split; [done|]]].
  - apply store_set_log; [done|done|apply Hst|apply (mv_begin _ _ Hm)|apply (mv_head _ _ Hm)|].
    destruct (moved_pos _ _ Hm) as (_ & Etp & _).
    eapply layout_step; [exact Hst|apply (so_layout _ _ _ Hok)|apply (mv_begin _ _ Hm)|lia|left; apply (mv_tail _ _ Hm)].
  - split; try reflexivity; [done|apply (mv_begin _ _ Hm)|apply (mv_head _ _ Hm)|apply (mv_bits _ _ Hm)|done].
  - unfold slot_current. cbn [st_log set_log]. rewrite (ls_table _ _ Hst), Hc. exact Hs.
Qed.

Lemma scan_live_loop_spec fuel st R M tid idx p addr to : store_ok st R M -> slot_current st idx tid ->
  let l := st_log st in
  cut l R to -> to <= tail_pos l -> 0 <= p -> p * page_size l <= addr <= p * page_size l + 64 ->
  page_of l to - p + 1 < Z.of_nat fuel -> (0 < fuel)%nat -> addr <= to \/ addr = p * page_size l ->
  exists recs ys st', scan_live_loop fuel st tid (Some idx) addr to = Some (ys, Some idx, st') /\
    listed R addr to recs /\ sublist ys recs /\
    (forall x, x ∈ recs -> (x ∈ ys <-> live (st_index st) (begin_address l) R x)) /\
    store_ok st' R M /\ step_ok st st'.
Proof.
  revert st p addr. induction fuel as [|fuel IH]; intros st p addr Hok Hslot l Hct Hto Hp Ha Hf Hf0 Hcase; [lia|].
  pose proof (so_log _ _ _ Hok) as Hlog. pose proof (so_layout _ _ _ Hok) as [Hti Hcu _]. fold l in Hlog, Hti, Hcu.
  pose proof (config_bits _ (lo_config _ _ Hlog)) as Hb. pose proof (config_page_size _ (lo_config _ _ Hlog)) as Hps.
  cbn [scan_live_loop]. fold l. destruct (Z.ltb_spec addr to) as [Hlt|Hge].
  2: { exists [], [], st. split; [done|]. split; [apply listed_nil; intros a c _ Hr; lia|]. split; [done|].
       split; [by intros x Hx%elem_of_nil|]. split; [done|]. apply step_ok_refl, (so_lively _ _ _ Hok). }
  destruct (scan_page_spec l R p addr to Hlog Hti (cu_flushed _ _ Hcu) Hct Hp Ha Hlt Hto) as (recs & -> & Hrecs).
  cbn [mbind option_bind].
  assert (Href : exists st1, (match recs with
      | [] => Some (Some idx, st)
      | _ => '(i, l) ← log_refresh l tid (Some idx); Some (Some i, set_log st l) end) = Some (Some idx, st1) /\
    store_ok st1 R M /\ step_ok st st1 /\ moved l (st_log st1) /\ slot_current st1 idx tid /\ st_index st1 = st_index st).
  { destruct (refresh_store st R M tid idx Hok Hslot) as (l' & E & H1 & H2 & H3 & H4). fold l in E.
    destruct recs; [exists st|rewrite E; exists (set_log st l')]; split_and!; try done.
    apply step_ok_refl, (so_lively _ _ _ Hok). }
  destruct Href as (st1 & -> & Hok1 & Hst1 & Hm1 & Hslot1 & Eix). cbn [mbind option_bind].
  destruct (live_of_spec st1 R M recs Hok1) as (here & -> & Hsub & Hhere).
  { intros a c' Hin. by apply (li_sound _ _ _ _ Hrecs). }
  cbn [mbind option_bind]. assert (page_of l addr = p) as -> by (apply page_of_spec; [done|lia]).
  rewrite shiftl_page by done. replace (p * page_size l + page_size l) with ((p + 1) * page_size l) by lia.
  destruct (moved_pos _ _ Hm1) as (Eps & Etp & _).
  destruct (page_base_bits l (st_log st1) to (mv_bits _ _ Hm1)) as (_ & Epg & _).
  assert (Hpt : p <= page_of l to) by (rewrite page_of_div by done; apply Z.div_le_lower_bound; lia).
  destruct (IH st1 (p + 1) ((p + 1) * page_size l) Hok1 Hslot1) as (recs2 & rest & st2 & -> & Hrecs2 & Hsub2 & Hrest & Hok2 & Hst2).
  { eapply cut_mono; [apply same_sizes_refl|apply (mv_bits _ _ Hm1)|done]. }
  { lia. } { lia. } { rewrite Eps. lia. } { rewrite Epg. lia. } { lia. } { right. by rewrite Eps. }
  cbn [mbind option_bind]. rewrite Eix, (mv_begin _ _ Hm1) in Hhere, Hrest.
  exists (recs ++ recs2), (here ++ rest), st2. split; [done|]. split; [|split; [|split; [|split; [done|by eapply step_ok_trans]]]].
  - destruct (Z.min_spec ((p + 1) * page_size l) to) as [[? E]|[? E]]; rewrite E in Hrecs.
    + eapply listed_app; [..|exact Hrecs|exact Hrecs2]; lia.
    + assert (recs2 = []) as ->; [|by rewrite app_nil_r].
      destruct Hrecs2 as [_ Hs _]. destruct recs2 as [|[a c] recs2]; [done|]. destruct (Hs a c ltac:(by left)). lia.
  - by apply sublist_app.
  - intros x [Hx|Hx]%elem_of_app; rewrite elem_of_app.
    + split; [intros [Hi|Hi]|left; by apply Hhere]; [by apply Hhere|by apply Hrest; [by eapply elem_of_sublist|]].
    + split; [intros [Hi|Hi]|right; by apply Hrest]; [by apply Hhere; [by eapply elem_of_sublist|]|by apply Hrest].
Qed.

(** ** The map, exactly *)

Definition binding_of (x : Z * cell) : bytes * cell := (c_key (snd x), snd x).
(** The bindings a scan reports, as a map. *)
Definition scanned (xs : list (Z * cell)) : gmap bytes cell := list_to_map (binding_of <$> xs).

Lemma live_record st R M a c : store_ok st R M -> R !! a = Some c ->
  live (st_index st) (begin_address (st_log st)) R (a, c) -> M !! c_key c = Some c.
Proof.
  intros Hok Ha [Ht Hn]. cbn [fst snd] in *. destruct (so_map _ _ _ Hok _ _ Hn) as [<- _].
  unfold value_of. cbn [mbind option_bind]. rewrite Ha. cbn [mbind option_bind]. by rewrite Ht.
Qed.
Lemma bound_record st R M k c : store_ok st R M -> M !! k = Some c ->
  exists a, R !! a = Some c /\ c_key c = k /\ live (st_index st) (begin_address (st_log st)) R (a, c).
Proof.
  intros Hok Hk. destruct (so_newest _ _ _ k Hok) as (r & Hn & Hv & _). rewrite Hk in Hv.
  unfold value_of in Hv. destruct r as [a|]; [|done]. cbn [mbind option_bind] in Hv.
  destruct (newest_cell _ _ _ _ _ Hn) as (_ & d & Hd & Ek). rewrite Hd in Hv. cbn [mbind option_bind] in Hv.
  destruct (is_tombstone (c_info d)) eqn:Et; [done|]. injection Hv as ->. subst k. exists a. by split_and!.
Qed.

Lemma live_unseal ix b R a c c' : unseal_img c' = unseal_img c -> live ix b R (a, c') <-> live ix b R (a, c).
Proof. intros E. unfold live. cbn [fst snd]. by rewrite (unseal_tombstone _ _ E), (unseal_key _ _ E). Qed.

Lemma sorted_NoDup (l : list Z) : StronglySorted Z.lt l -> NoDup l.
Proof.
  induction 1 as [|x l _ IH Hx]; constructor; [|done]. intros Hin. rewrite Forall_forall in Hx.
  specialize (Hx x Hin). lia.
Qed.
Lemma NoDup_keys_unique {A} (l : list (Z * A)) a x y : NoDup l.*1 -> (a, x) ∈ l -> (a, y) ∈ l -> x = y.
Proof.
  induction l as [|[b z] l IH]; intros Hd Hx Hy; [by apply elem_of_nil in Hx|].
  rewrite fmap_cons in Hd. apply NoDup_cons in Hd as [Hb Hd].
  assert (Hno : forall w, (b, w) ∉ l) by (intros w Hw; apply Hb, list_elem_of_fmap; by exists (b, w)).
  apply elem_of_cons in Hx as [[= -> ->]|Hx], Hy as [Hy|Hy]; [by injection Hy|by destruct (Hno y)| |by apply IH].
  injection Hy as -> ->. by destruct (Hno x).
Qed.
Lemma sorted_sublist {A} (l l' : list (Z * A)) : sublist l l' -> StronglySorted Z.lt l'.*1 -> StronglySorted Z.lt l.*1.
Proof.
  induction 1 as [|x l l' Hsub IH|x l l' Hsub IH]; intros Hs; [done| |].
  - rewrite !fmap_cons in *. apply StronglySorted_cons in Hs as [Hf Hs]. apply StronglySorted_cons.
    split; [|by apply IH]. apply Forall_forall. intros y Hy. rewrite Forall_forall in Hf. apply Hf.
    apply list_elem_of_fmap in Hy as (z & -> & Hz). apply list_elem_of_fmap_2. by eapply elem_of_sublist.
  - apply IH. rewrite fmap_cons in Hs. by apply StronglySorted_cons in Hs as [_ ?].
Qed.

Lemma live_of_map st R M from to recs ys : store_ok st R M -> listed R from to recs -> sublist ys recs ->
  (forall a c, R !! a = Some c -> from <= a < to) ->
  (forall x, x ∈ recs -> (x ∈ ys <-> live (st_index st) (begin_address (st_log st)) R x)) ->
  StronglySorted Z.lt ys.*1 /\ NoDup (binding_of <$> ys).*1 /\ unseal_img <$> scanned ys = unseal_img <$> M.
Proof.
  intros Hok [Hso Hsd Hcm] Hsub Hall Hys.
  assert (Hin : forall a c', (a, c') ∈ ys -> exists c, R !! a = Some c /\ unseal_img c' = unseal_img c /\
    live (st_index st) (begin_address (st_log st)) R (a, c')).
  { intros a c' Hy. assert (Hr : (a, c') ∈ recs) by by eapply elem_of_sublist.
    destruct (Hsd _ _ Hr) as (_ & c & Hc & Eu). exists c. split_and!; [done|done|]. by apply Hys. }
  assert (Hsorted : StronglySorted Z.lt ys.*1) by by eapply sorted_sublist.
  pose proof (sorted_NoDup _ Hsorted) as Hnd.
  assert (Hdup : NoDup (binding_of <$> ys).*1).
  { rewrite <- list_fmap_compose. apply NoDup_fmap_2_strong.
    - intros [a c'] [b d'] Ha Hb E. cbn in E. destruct (Hin _ _ Ha) as (c & HRa & Ea & _ & Hna).
      destruct (Hin _ _ Hb) as (d & HRb & Eb & _ & Hnb). cbn [fst snd] in *. rewrite E in Hna.
      pose proof (newest_det _ _ _ _ _ _ Hna Hnb) as [= ->]. f_equal. by eapply NoDup_keys_unique.
    - by eapply NoDup_fmap_1. }
  split; [done|]. split; [done|]. apply map_eq. intros k. rewrite !lookup_fmap. unfold scanned.
  destruct (M !! k) as [c|] eqn:Ek.
  - destruct (bound_record st R M k c Hok Ek) as (a & Ha & <- & Hl).
    pose proof (Hcm a c Ha (Hall _ _ Ha)) as Hr. apply list_elem_of_fmap in Hr as ([a' c'] & E & Hr). simpl in E. subst a'.
    destruct (Hsd _ _ Hr) as (_ & c2 & Hc2 & Eu).
    assert (c2 = c) as -> by congruence.
    assert (Hy : (a, c') ∈ ys) by (apply Hys; [done|by eapply live_unseal; [exact Eu|]]).
    rewrite (elem_of_list_to_map_1 _ (c_key c) c'); [simpl; by rewrite Eu|done|].
    apply list_elem_of_fmap. exists (a, c'). split; [unfold binding_of; simpl; by rewrite (unseal_key _ _ Eu)|done].
  - destruct (list_to_map (binding_of <$> ys) !! k) as [c'|] eqn:El; [|done]. exfalso.
    apply elem_of_list_to_map_2, list_elem_of_fmap in El as ([a c2] & [= -> ->] & Hy).
    destruct (Hin _ _ Hy) as (c & Ha & Eu & Hl). cbn [snd] in *.
    apply (live_unseal _ _ _ _ _ _ Eu) in Hl. apply (live_record st R M a c Hok Ha) in Hl.
    rewrite <- (unseal_key _ _ Eu) in Hl. congruence.
Qed.

(** ** The whole scan *)

Lemma scan_live_spec st se R M : store_ok st R M -> ready st se ->
  tail_address (st_log st) = Some (tail_pos (st_log st)) ->
  exists xs st' se', scan_live st se = Some (xs, st', se') /\ store_ok st' R M /\ ready st' se' /\ kept st st' /\
    StronglySorted Z.lt xs.*1 /\ NoDup (binding_of <$> xs).*1 /\ unseal_img <$> scanned xs = unseal_img <$> M.
Proof.
  intros Hok Hr Etail. destruct (enter_store st se R M Hok Hr) as (idx & e2 & Ep & Hok1 & Hi & Hc & _ & Hoth & Hres & Hlen).
  set (st1 := set_log st (set_epoch_state (st_log st) e2)) in *.
  unfold scan_live. rewrite Ep. cbn [mbind option_bind]. fold st1.
  assert (Et1 : tail_address (st_log st1) = Some (tail_pos (st_log st1))) by exact Etail.
  rewrite Et1. cbn [mbind option_bind]. pose proof (so_layout _ _ _ Hok1) as [Hti _ Eb].
  pose proof (so_log _ _ _ Hok1) as Hlog. pose proof (config_page_size _ (lo_config _ _ Hlog)) as Hps.
  pose proof (config_bits _ (lo_config _ _ Hlog)) as Hbits.
  pose proof (tl_off _ (lo_tail _ _ Hlog)) as Hto. pose proof (tl_page _ (lo_tail _ _ Hlog)) as Htp.
  rewrite Eb, Z.max_id. unfold FIRST_VALID_ADDRESS, PAGE_HEADER_SIZE in *.
  set (to := tail_pos (st_log st1)) in *.
  assert (Ep0 : page_of (st_log st1) 64 = 0) by (apply page_of_spec; lia). rewrite Ep0.
  assert (Hge : 64 <= to) by (unfold to, tail_pos; nia).
  destruct (scan_live_loop_spec (S (S (Z.to_nat (page_of (st_log st1) to - 0)))) st1 R M (se_tid se) idx 0 64 to Hok1)
    as (recs & ys & st2 & -> & Hrecs & Hsub & Hys & Hok2 & Hst2).
  { exact Hi. } { apply tail_cut; [apply (lo_tail _ _ Hlog)|done]. } { unfold to. lia. } { lia. } { lia. }
  { rewrite page_of_div by done. assert (0 <= to / page_size (st_log st1)) by (apply Z.div_pos; lia). lia. }
  { lia. } { by left. }
  cbn [mbind option_bind].
  destruct (leave_store st st1 st2 se R M idx Hr Hst2 Hok2 eq_refl Hi Hc Hoth Hres Hlen) as (e3 & -> & Hok3 & Hr3).
  cbn [mbind option_bind]. eexists _, _, _. split; [reflexivity|]. split; [done|]. split; [by apply Hr3|].
  split; [|apply (live_of_map st1 R M 64 to recs); try done].
  - destruct Hst2 as [S1 S2 S3 S4 S5 S6 S7 _]. by split.
  - intros a c Ha. pose proof (lo_dom _ _ Hlog _ _ Ha). unfold FIRST_VALID_ADDRESS, PAGE_HEADER_SIZE in *. unfold to. lia.
Qed.

(** C10. With no other thread inside the epoch, and unless the tail has filled an
    odd page exactly (then LogSpec.tail_address_full_odd: the address reported is
    the start of that page, and the scan misses it), [scan_live] returns and visits each binding of the
    abstract map exactly once and nothing else, in the order of the log,
    whatever is in memory, on the device, superseded or deleted; the map is
    unchanged, and [count_live] is its size. *)
Theorem scan_live_visits_the_map st se R M : store_ok st R M -> ready st se ->
  tail_address (st_log st) = Some (tail_pos (st_log st)) ->
  exists xs st' se', scan_live st se = Some (xs, st', se') /\
    count_live st se = Some (Z.of_nat (size M), st', se') /\
    StronglySorted Z.lt xs.*1 /\ NoDup (binding_of <$> xs).*1 /\ unseal_img <$> scanned xs = unseal_img <$> M /\
    store_ok st' R M /\ ready st' se' /\ kept st st'.
Proof.
  intros Hok Hr Ht. destruct (scan_live_spec st se R M Hok Hr Ht) as (xs & st' & se' & E & Hok' & Hr' & Hk & Hs & Hnd & Hm).
  exists xs, st', se'. split_and!; try done. unfold count_live. rewrite E. cbn [mbind option_bind]. do 3 f_equal.
  assert (size (scanned xs) = length xs) as <-.
  { unfold scanned. rewrite map_size_list_to_map by done. by rewrite length_fmap. }
  by rewrite <- (map_size_fmap unseal_img), Hm, map_size_fmap.
Qed.
End Scans.

Lemma scan_live_visits_the_map_witness : exists st se M xs st' se',
  is_Some (M !! demo_key) /\ scan_live st se = Some (xs, st', se') /\ unseal_img <$> scanned xs = unseal_img <$> M.
Proof.
  destruct demo_written as (st & se & R & M & c & H1 & H2 & H3 & H4 & _ & H6 & _).
  destruct (scan_live_visits_the_map st se R M H1 H2) as (xs & st' & se' & E & _ & _ & _ & Hm & _).
  - eapply tail_address_spec; [apply (so_log _ _ _ H1)|by left].
  - exists st, se, M, xs, st', se'. split; [by exists c|done].
Defined.
