(* ===== verification/Checkpoint.v ===== *)
(** * Checkpoints and recovery of the store ([crates/tsavorite/src/checkpoint.rs])

    The fold-over checkpoint: its metadata, the phases and their transitions,
    and the rebuild of the index from the device.  The metadata file is its
    bytes; writing it and the device succeeds. *)

From S2P Require Import Prelude Record Resp Hash Index Latch Epoch Log Session Functions Store.

#[local] Opaque hash64.

(** ** Metadata *)

Definition META_MAGIC : word := 0x545341564f524954.

Record CheckpointInfo := CkInfo {
  ck_version : word; ck_begin : word; ck_start : word; ck_final : word; user_data : word }.

Definition write_to (c : CheckpointInfo) : bytes :=
  concat (map (le_bytes 8) [META_MAGIC; ck_version c; ck_begin c; ck_start c; ck_final c; user_data c]).
Definition read_from (file : bytes) : bytes + CheckpointInfo :=
  if (length file <? 48)%nat then inl (bs "failed to fill whole buffer") else
  let v i := le_value (slice (i * 8) (i * 8 + 8) file) in
  if negb (v 0%nat =? META_MAGIC) then inl (bs "bad checkpoint magic") else
  inr (CkInfo (v 1%nat) (v 2%nat) (v 3%nat) (v 4%nat) (v 5%nat)).

(** ** Phases *)

(** The flag of the transition under way: set once its action has run. *)
Definition is_phase_observed (a : Z * log_action) : bool :=
  match snd a with PhaseObserved => true | _ => false end.
Definition observed (l : HybridLog) : bool := negb (existsb is_phase_observed (drain_list (epoch l))).

Fixpoint wait_observed (fuel : nat) (l : HybridLog) : option HybridLog :=
  match fuel with
  | O => None
  | S fuel => if observed l then Some l else l ← log_bump_current_epoch l; wait_observed fuel l
  end.
(** [None]: the assertion fails, or threads stay in the old phase for longer
    than [fuel] bumps. *)
Definition transition_and_wait (fuel : nat) (st : Store) (new : SystemState) : option Store :=
  let cur := system_state st in
  let '(ok, st) := try_set_system_state st cur new in
  if negb ok then None else
  l ← log_bump_with_action (st_log st) PhaseObserved;
  l ← wait_observed fuel l;
  Some (set_log st l).

(** The metadata file written last is part of the result. *)
Definition take_checkpoint (fuel : nat) (st : Store) (data : word) : option (bytes + CheckpointInfo * bytes * Store) :=
  let s0 := system_state st in
  if negb (bool_decide (phase s0 = Rest)) then Some (inl (bs "checkpoint already in progress")) else
  let v := version s0 in
  start ← tail_address (st_log st);
  let st := set_checkpoint_start_address st start in
  st ← transition_and_wait fuel st (SysState Prepare v);
  st ← transition_and_wait fuel st (SysState InProgress (v + 1));
  final ← tail_address (st_log st);
  st ← transition_and_wait fuel st (SysState WaitFlush (v + 1));
  '(_, l) ← shift_read_only_address (st_log st) final;
  l ← wait_flushed fuel l final;
  l ← flush_until l final;
  let info := CkInfo v (begin_address l) start final data in
  st ← transition_and_wait fuel (set_log st l) (SysState Rest (v + 1));
  Some (inr (info, write_to info, st)).

(** ** Recovery *)

Definition set_device (l : HybridLog) d : HybridLog := set_flushed l d (flushed_until_address l).
Definition update_device (st : Store) (addr : Z) (rec : cell) : Store :=
  set_log st (set_device (st_log st) (<[addr := rec]> (device (st_log st)))).

(** One record of the page at [page_start]. *)
Definition recover_record (info : CheckpointInfo) (page_start : Z) (st : Store) (x : Z * cell) : option Store :=
  let '(off, rec) := x in
  let w := c_info rec in
  let addr := page_start + off in
  if negb (is_valid w) then Some st
  else if in_new_version w && (ck_start info <=? addr)
  then Some (update_device st addr (c_set_info rec (set_invalid w)))
  else
    let st := if is_sealed w then update_device st addr (c_set_info rec (Z.land w (not64 SEALED_BIT))) else st in
    '(slot, ix) ← find_or_create_tag TAG_ATTEMPTS (st_index st) (hash64 (c_key rec));
    cur ← slot_load ix slot;
    if entry_address cur <? addr then
      '(ok, ix) ← slot_try_cas ix slot cur addr;
      if ok : bool then Some (set_index st ix) else None
    else Some (set_index st ix).
Fixpoint recover_records (info : CheckpointInfo) (page_start : Z) (st : Store) (xs : list (Z * cell)) : option Store :=
  match xs with
  | [] => Some st
  | x :: xs => st ← recover_record info page_start st x; recover_records info page_start st xs
  end.
Fixpoint recover_pages (fuel : nat) (info : CheckpointInfo) (st : Store) (page_start : Z) : option Store :=
  match fuel with
  | O => None
  | S fuel =>
      if page_start <? ck_final info then
        let l := st_log st in
        let limit := Z.min (ck_final info) (page_start + page_size l) - page_start in
        let from_off := Z.max (ck_begin info - page_start) 0 in
        xs ← for_each_record_in_buf (disk_buf l (page_start / page_size l)) from_off limit;
        st ← recover_records info page_start st xs;
        recover_pages fuel info st (page_start + page_size l)
      else Some st
  end.
Definition recover (st : Store) (info : CheckpointInfo) : option Store :=
  let st := set_index st (clear (st_index st)) in
  let st := set_log st (recover_addresses (st_log st) (ck_begin info) (ck_final info)) in
  let st := set_system_state st (SysState Rest (ck_version info + 1)) in
  let st := set_checkpoint_start_address st (two64 - 1) in
  let ps := page_size (st_log st) in
  recover_pages (S (S (Z.to_nat (ck_final info / ps)))) info st (ck_begin info / ps * ps).

(** ** Metadata round trip *)

Definition info_ok (c : CheckpointInfo) : Prop :=
  is_u64 (ck_version c) /\ is_u64 (ck_begin c) /\ is_u64 (ck_start c) /\ is_u64 (ck_final c) /\ is_u64 (user_data c).

(** The words of a file of eight-byte words. *)
Lemma word_at (ws : list word) i w : ws !! i = Some w -> is_u64 w ->
  le_value (slice (i * 8) (i * 8 + 8) (concat (map (le_bytes 8) ws))) = w.
Proof.
  revert i. induction ws as [|x ws IH]; intros [|i] Hw Hu; try done; cbn [map concat].
  - injection Hw as ->. unfold slice. rewrite drop_0. rewrite take_app_length' by by rewrite length_le_bytes.
    by apply le_value_small.
  - unfold slice in *. rewrite drop_app_ge by (rewrite length_le_bytes; lia). rewrite length_le_bytes.
    specialize (IH i Hw Hu). by replace (S i * 8 - 8)%nat with (i * 8)%nat by lia;
      replace (S i * 8 + 8 - S i * 8)%nat with (i * 8 + 8 - i * 8)%nat by lia.
Qed.
Lemma length_words ws : length (concat (map (le_bytes 8) ws)) = (8 * length ws)%nat.
Proof. induction ws as [|w ws IH]; [done|]. cbn [map concat]. rewrite length_app, length_le_bytes, IH. simpl. lia. Qed.

Lemma length_write_to c : length (write_to c) = 48%nat.
Proof. apply length_words. Qed.
Lemma checkpoint_info_reads c rest : info_ok c -> read_from (write_to c ++ rest) = inr c.
Proof.
  intros (H1 & H2 & H3 & H4 & H5). pose proof (length_write_to c) as Hlen.
  unfold read_from. rewrite length_app, Hlen. destruct (Nat.ltb_spec (48 + length rest) 48); [lia|].
  assert (Hs : forall i, (i < 6)%nat -> slice (i * 8) (i * 8 + 8) (write_to c ++ rest) = slice (i * 8) (i * 8 + 8) (write_to c)).
  { intros i Hi. apply slice_app_l. lia. }
  rewrite !Hs by lia. unfold write_to. rewrite (word_at _ 0 META_MAGIC), (word_at _ 1 (ck_version c)), (word_at _ 2 (ck_begin c)),
    (word_at _ 3 (ck_start c)), (word_at _ 4 (ck_final c)), (word_at _ 5 (user_data c)) by (done || by vm_compute).
  rewrite Z.eqb_refl. by destruct c.
Qed.

(** What a checkpoint writes is what recovery reads, and only whole files
    that start with the magic number are accepted. *)
Theorem checkpoint_info_roundtrip c rest : info_ok c ->
  read_from (write_to c ++ rest) = inr c /\
  (forall n, (n < 48)%nat -> exists e, read_from (take n (write_to c)) = inl e) /\
  forall file c', read_from file = inr c' -> le_value (take 8 file) = META_MAGIC.
Proof.
  intros Hc. split; [by apply checkpoint_info_reads|split].
  - intros n Hn. unfold read_from. rewrite length_take, length_write_to. destruct (Nat.ltb_spec (n `min` 48) 48); [by eexists|lia].
  - intros file c'. unfold read_from. destruct (_ <? _)%nat; [done|]. destruct (Z.eqb_spec (le_value (slice (0 * 8) (0 * 8 + 8) file)) META_MAGIC) as [E|]; [|done].
    intros _. exact E.
Qed.

(** ** Runs *)

Definition demo_write (v : string) : StringInput := input_simple Set_ (bs v) 0.
Definition demo_store : option Store := store_new 1 9 4 2.
(** Restart: a new store over the device, recovered. *)
Definition restart (st : Store) (info : CheckpointInfo) : option Store :=
  st' ← demo_store; recover (set_log st' (set_device (st_log st') (device (st_log st)))) info.
Definition read_value (st : Store) (k : bytes) : option (Status * bytes) :=
  '(s, o, _, _) ← read 6 st (new_session st 9) k (input_read Get 0) output_default; Some (s, o_bytes o).

Example checkpoint_then_recover :
  (st ← demo_store;
   '(_, _, st, se) ← upsert 6 st (new_session st 7) (bs "a") (demo_write "1") output_default;
   '(_, _, st, se) ← upsert 6 st se (bs "b") (demo_write "2") output_default;
   '(_, _, st, se) ← upsert 6 st se (bs "a") (demo_write "a longer value") output_default;
   r ← take_checkpoint 3 st 42;
   match r with
   | inr (info, file, st) =>
       st ← restart st info; a ← read_value st (bs "a"); b ← read_value st (bs "b");
       Some (read_from file, info, a, b)
   | inl _ => None
   end) = let info := CkInfo 1 64 168 168 42 in Some (inr info, info, (Found, bs "a longer value"), (Found, bs "2")).
Proof. vm_compute. reflexivity. Qed.

(** Two keys of one index entry: their hashes share bucket and tag. *)
Definition key1 : bytes := bs "k212".
Definition key2 : bytes := bs "k238".

(** A checkpoint between whose phases two sessions write: one has entered
    before the version shift and writes [key2] if [late]; the other writes
    [key1] in the new version before that. *)
Definition fuzzy_run (late : bool) : option (Status * bytes) :=
  st ← demo_store;
  '(_, _, st, se1) ← upsert 6 st (new_session st 7) key1 (demo_write "old") output_default;
  start ← tail_address (st_log st);
  let st := set_checkpoint_start_address st start in
  st ← transition_and_wait 3 st (SysState Prepare 1);
  (* the second session enters in PREPARE *)
  '(_, slot, e) ← protect (epoch (st_log st)) 8 None;
  let se2 := sync_state (new_session st 8) st slot in
  let st := set_log st (set_epoch_state (st_log st) e) in
  (* the version shifts; the coordinator waits for the second session *)
  let '(_, st) := try_set_system_state st (SysState Prepare 1) (SysState InProgress 2) in
  l ← log_bump_with_action (st_log st) PhaseObserved;
  let st := set_log st l in
  '(_, _, st, se1) ← upsert 6 st se1 key1 (demo_write "new") output_default;
  '(_, st) ← (if late then internal_upsert st se2 key2 (hash64 key2) (demo_write "x") output_default
              else Some ((OpRetryNow, output_default), st));
  '(_, e) ← unprotect (epoch (st_log st)) 8 (Some slot);
  l ← wait_observed 3 (set_epoch_state (st_log st) e);
  (* the rest of the checkpoint *)
  let st := set_log st l in
  final ← tail_address (st_log st);
  st ← transition_and_wait 3 st (SysState WaitFlush 2);
  '(_, l) ← shift_read_only_address (st_log st) final;
  l ← wait_flushed 3 l final;
  st ← restart (set_log st l) (CkInfo 1 (begin_address l) start final 0);
  read_value st key1.

(** Recovery marks the records of the new version in the fuzzy region
    invalid but leaves them in the chains: the same two sessions, the same
    checkpoint, and the undone write of [key1] comes back once a record of
    another key of the same index entry, written by a session still in the old
    version, lies above it; without that record recovery gives the old value. *)
Theorem recovery_resurrects_undone_write :
  fuzzy_run false = Some (Found, bs "old") /\ fuzzy_run true = Some (Found, bs "new").
Proof. split; vm_compute; reflexivity. Qed.

(** A store of [buckets] buckets that binds both keys, checkpointed, then
    recovered by the two buckets of [demo_store]. *)
Definition resized_run (buckets : Z) : option ((Status * bytes) * (Status * bytes)) :=
  st ← store_new buckets 9 4 2;
  '(_, _, st, se) ← upsert 6 st (new_session st 7) key1 (demo_write "1") output_default;
  '(_, _, st, se) ← upsert 6 st se key2 (demo_write "2") output_default;
  r ← take_checkpoint 3 st 42;
  match r with
  | inr (info, file, st) => st ← restart st info; a ← read_value st key1; b ← read_value st key2; Some (a, b)
  | inl _ => None
  end.
(** The metadata does not record the size of the index, and recovery keeps one
    entry for each bucket and tag: recovering into a smaller index loses the
    keys whose records are not in the chain of the entry they now share. *)
Lemma recovery_into_smaller_index_loses_keys :
  resized_run 1 = Some ((Found, bs "1"), (Found, bs "2")) /\
  resized_run 64 = Some ((NotFound, []), (Found, bs "2")).
Proof. split; vm_compute; reflexivity. Qed.

Lemma checkpoint_info_roundtrip_witness : read_from (write_to (CkInfo 1 64 168 168 42) ++ []) = inr (CkInfo 1 64 168 168 42).
Proof. apply (checkpoint_info_roundtrip (CkInfo 1 64 168 168 42) []). repeat split; vm_compute; congruence. Defined.
