(* ===== verification/CheckpointSpec.v ===== *)
(** * Checkpoint and recovery keep the map

    A checkpoint taken while nobody is inside the epoch returns and leaves
    every record on the device; recovering a new store from that device gives a
    store that implements the same map. *)

From stdpp Require Import sorting.
From S2P Require Import Prelude Record Resp Session Functions FunctionsSpec Hash Index IndexSpec Latch Epoch Log.
From S2P Require Import LogSpec LogLive LogTiling Store StoreInv StoreSpec StoreAttempt StoreRefine StoreOps Checkpoint.

#[local] Opaque hash64.

(** ** The state word *)

Lemma sys_word c v : 0 <= c < 4 ->
  let w := Z.lor (Z.shiftl c 56) (Z.land v (Z.ones 56)) in
  Z.shiftr w 56 = c /\ Z.land w (Z.ones 56) = Z.land v (Z.ones 56).
Proof.
  intros Hc w. rewrite (Z.land_ones v) in * by lia.
  assert (Hv : 0 <= v mod 2 ^ 56 < 2 ^ 56) by (apply Z.mod_pos_bound; lia).
  assert (Ew : w = c * 2 ^ 56 + v mod 2 ^ 56) by (unfold w; rewrite Z.land_ones by lia; by apply lor_shiftl).
  rewrite Ew. split.
  - rewrite Z.shiftr_div_pow2, Z.div_add_l, Z.div_small by lia. lia.
  - rewrite Z.land_ones, Z.add_comm, Z.mod_add, Z.mod_mod by lia. done.
Qed.

Lemma sys_unpack_pack s : sys_unpack (sys_pack s) = SysState (phase s) (Z.land (version s) (Z.ones 56)).
Proof.
  unfold sys_unpack, sys_pack. destruct (sys_word (phase_code (phase s)) (version s)) as [E1 E2];
    [destruct (phase s); simpl; lia|]. rewrite E1, E2. by destruct (phase s).
Qed.
Lemma sys_pack_unpack s : sys_pack (sys_unpack (sys_pack s)) = sys_pack s.
Proof.
  rewrite sys_unpack_pack. unfold sys_pack. cbn [phase version]. by rewrite <- Z.land_assoc, Z.land_diag.
Qed.

(** The state word holds a phase and a version. *)
Definition packed (st : Store) : Prop := exists s, st_state st = sys_pack s.

Section Checkpoints.
Context {fl : floor} {rs : reserved}.
Implicit Types (st : Store) (R : gmap Z cell) (M : gmap bytes cell).

(** ** Phases *)

Lemma store_set_system st R M s : store_ok st R M ->
  (phase s = Prepare -> forall a c, R !! a = Some c -> a < checkpoint_start_address st) ->
  store_ok (set_system_state st s) R M.
Proof.
  intros [? ? ? ? ? ? ? ? ? ? ? ?] Hs. split; try assumption. intros Hph a c Ha.
  unfold system_state in Hph. cbn [st_state set_system_state] in Hph. rewrite sys_unpack_pack in Hph.
  unfold record_in_new_version. cbn [checkpoint_start_address set_system_state].
  specialize (Hs Hph a c Ha). destruct (Z.leb_spec (checkpoint_start_address st) a); [lia|]. apply andb_false_r.
Qed.

Lemma store_set_start st R M a : store_ok st R M -> phase (system_state st) = Rest ->
  store_ok (set_checkpoint_start_address st a) R M.
Proof. intros [? ? ? ? ? ? ? ? ? ? ? ?] Hp. split; try assumption. intros Hph. change (phase (system_state st) = Prepare) in Hph. congruence. Qed.

(** With nobody inside the epoch a transition is observed at once. *)
Lemma transition_quiet fuel st R M new : store_ok st R M -> nobody_inside (st_log st) -> packed st ->
  (phase new = Prepare -> forall a c, R !! a = Some c -> a < checkpoint_start_address st) ->
  exists l', transition_and_wait (S fuel) st new = Some (set_log (set_system_state st new) l') /\
    store_ok (set_log (set_system_state st new) l') R M /\ nobody_inside l' /\ moved (st_log st) l'.
Proof.
  intros Hok Hq [s Hs] Hnew. pose proof (store_set_system st R M new Hok Hnew) as Hok1.
  destruct (bump_phase (st_log st) R (so_log _ _ _ Hok) (so_lively _ _ _ Hok)) as (l' & E & Hlog & Hst & Hm & Hnil).
  exists l'. unfold transition_and_wait, try_set_system_state, system_state. rewrite Hs, sys_pack_unpack, Z.eqb_refl.
  cbn [negb]. cbv iota. cbn [st_log set_system_state]. rewrite E. cbn [mbind option_bind].
  cbn [wait_observed]. unfold observed. rewrite (Hnil Hq). cbn [existsb negb mbind option_bind].
  split; [done|]. destruct (moved_pos _ _ Hm) as (_ & Etp & _). split; [|split; [|done]].
  - apply store_set_log; [done|done|apply Hst|apply (mv_begin _ _ Hm)|apply (mv_head _ _ Hm)|].
    eapply layout_step; [exact Hst|apply (so_layout _ _ _ Hok)|apply (mv_begin _ _ Hm)|lia|left; apply (mv_tail _ _ Hm)].
  - intros idx sl. rewrite (ls_table _ _ Hst). apply Hq.
Qed.

(** ** Flushing everything *)

Lemma layout_moved l l' R : layout l R -> moved l l' -> cuts (cut l R) l' -> layout l' R.
Proof.
  intros [H1 H2 H3] Hm Hc. destruct (moved_pos _ _ Hm) as (_ & Etp & _). split.
  - apply (tiled_log l); [done|apply (mv_bits _ _ Hm)|lia|left; apply (mv_tail _ _ Hm)].
  - eapply cuts_mono; [|exact Hc]. intros x. apply cut_mono; [apply same_sizes_refl|apply (mv_bits _ _ Hm)].
  - by rewrite (mv_begin _ _ Hm).
Qed.

Lemma commit_spec fuel l R : log_ok l R -> lively l -> layout l R -> nobody_inside l ->
  exists b l1 l2, shift_read_only_address l (tail_pos l) = Some (b, l1) /\
    wait_flushed (S (S fuel)) l1 (tail_pos l) = Some l2 /\ log_ok l2 R /\ lively l2 /\ layout l2 R /\
    nobody_inside l2 /\ moved l l2 /\ tail_pos l <= flushed_until_address l2.
Proof.
  intros Hok Hl Hlay Hq.
  destruct (shift_read_only_address_spec l R (tail_pos l) Hok ltac:(lia)) as (b & l1 & E1 & Hok1 & Hm1 & _ & Er).
  destruct (shift_read_only_effect l R (tail_pos l) b l1 Hok Hl ltac:(lia) E1) as (Hl1 & Htab & _ & _ & _ & Hcut).
  assert (Hlay1 : layout l1 R).
  { apply (layout_moved l); [done..|]. apply Hcut; [|apply (ly_cuts _ _ Hlay)].
    apply tail_cut; [apply (lo_tail _ _ Hok)|apply (ly_tiled _ _ Hlay)]. }
  assert (Hq1 : nobody_inside l1) by (intros idx s; rewrite Htab; apply Hq).
  destruct (log_bump_current_epoch_spec l1 R Hok1) as (l2 & E2 & Hok2 & Hm2 & _ & Er2).
  destruct (flushed_until_address l1 <? tail_pos l) eqn:Elt.
  - destruct (bump_current_epoch_live l1 R l2 Hok1 Hl1 E2) as (Hs2 & _ & Hset).
    destruct (Hset Hq1) as [_ [Hf _]]. unfold flushed_up in Hf. destruct (moved_pos _ _ Hm2) as (_ & Etp & _).
    exists b, l1, l2. split; [done|]. split.
    { cbn [wait_flushed]. rewrite Elt, E2. cbn [mbind option_bind].
      destruct (Z.ltb_spec (flushed_until_address l2) (tail_pos l)); [lia|done]. }
    split; [done|]. split; [apply Hs2|]. split.
    { eapply layout_step; [exact Hs2|done|apply (mv_begin _ _ Hm2)|lia|left; apply (mv_tail _ _ Hm2)]. }
    split; [intros idx s; rewrite (ls_table _ _ Hs2); apply Hq1|]. split; [by etransitivity|lia].
  - exists b, l1, l1. split; [done|]. split; [cbn [wait_flushed]; by rewrite Elt|]. split_and!; try done. lia.
Qed.

(** ** The checkpoint *)

Lemma set_log_twice st l l' : set_log (set_log st l) l' = set_log st l'.
Proof. done. Qed.

(** A checkpoint with nobody inside the epoch. *)
Lemma take_checkpoint_spec fuel st R M data : store_ok st R M -> nobody_inside (st_log st) -> packed st ->
  phase (system_state st) = Rest -> tail_address (st_log st) = Some (tail_pos (st_log st)) ->
  let v := version (system_state st) in let t := tail_pos (st_log st) in
  let info := CkInfo v (begin_address (st_log st)) t t data in
  exists l', let st' := MkStore (st_index st) l' (sys_pack (SysState Rest (v + 1))) t in
    take_checkpoint (S (S fuel)) st data = Some (inr (info, write_to info, st')) /\
    store_ok st' R M /\ nobody_inside l' /\ moved (st_log st) l' /\ t <= flushed_until_address l'.
Proof.
  intros Hok Hq Hpk Hrest Ht v t info. unfold take_checkpoint. fold v. rewrite bool_decide_eq_true_2 by done.
  cbn [negb]. rewrite Ht. cbn [mbind option_bind]. fold t.
  assert (Hbelow : forall a c, R !! a = Some c -> a < t) by (intros a c Ha; apply (lo_dom _ _ (so_log _ _ _ Hok) _ _ Ha)).
  pose proof (store_set_start st R M t Hok Hrest) as Hok0. set (st0 := set_checkpoint_start_address st t) in *.
  destruct (transition_quiet (S fuel) st0 R M (SysState Prepare v) Hok0 Hq Hpk ltac:(done))
    as (l1 & -> & Hok1 & Hq1 & Hm1). cbn [mbind option_bind].
  set (st1 := set_log (set_system_state st0 (SysState Prepare v)) l1) in *.
  destruct (transition_quiet (S fuel) st1 R M (SysState InProgress (v + 1)) Hok1 Hq1 ltac:(by eexists) ltac:(done))
    as (l2 & -> & Hok2 & Hq2 & Hm2). cbn [mbind option_bind].
  set (st2 := set_log (set_system_state st1 (SysState InProgress (v + 1))) l2) in *.
  assert (Hm02 : moved (st_log st) l2) by (etransitivity; [exact Hm1|exact Hm2]).
  assert (Et2 : tail_address l2 = Some t).
  { unfold tail_address, page_size in *. rewrite (mv_tail _ _ Hm02), (mv_bits _ _ Hm02). exact Ht. }
  change (st_log st2) with l2. rewrite Et2. cbn [mbind option_bind].
  destruct (transition_quiet (S fuel) st2 R M (SysState WaitFlush (v + 1)) Hok2 Hq2 ltac:(by eexists) ltac:(done))
    as (l3 & -> & Hok3 & Hq3 & Hm3). cbn [mbind option_bind].
  set (st3 := set_log (set_system_state st2 (SysState WaitFlush (v + 1))) l3) in *.
  change (st_log st3) with l3. assert (Hm03 : moved (st_log st) l3) by (etransitivity; [exact Hm02|exact Hm3]).
  destruct (moved_pos _ _ Hm03) as (_ & Etp3 & _).
  destruct (commit_spec fuel l3 R (so_log _ _ _ Hok3) (so_lively _ _ _ Hok3) (so_layout _ _ _ Hok3) Hq3)
    as (b & l4 & l5 & E4 & E5 & Hlog5 & Hl5 & Hlay5 & Hq5 & Hm5 & Hf5).
  rewrite Etp3 in E4, E5, Hf5. fold t in E4, E5, Hf5. rewrite E4. cbn [mbind option_bind]. rewrite E5. cbn [mbind option_bind].
  unfold flush_until. destruct (Z.leb_spec t (flushed_until_address l5)); [|lia]. cbn [mbind option_bind].
  assert (Hm05 : moved (st_log st) l5) by (etransitivity; [exact Hm03|exact Hm5]).
  assert (Hok5 : store_ok (set_log st3 l5) R M).
  { apply store_set_log; [exact Hok3|done|done|apply (mv_begin _ _ Hm5)|apply (mv_head _ _ Hm5)|done]. }
  destruct (transition_quiet (S fuel) (set_log st3 l5) R M (SysState Rest (v + 1)) Hok5 Hq5 ltac:(by eexists) ltac:(done))
    as (l6 & -> & Hok6 & Hq6 & Hm6). cbn [mbind option_bind].
  exists l6. split; [|split; [exact Hok6|split; [done|split]]].
  - by rewrite (mv_begin _ _ Hm05).
  - etransitivity; [exact Hm05|exact Hm6].
  - pose proof (mv_flushed _ _ Hm6). cbn [st_log set_log] in *. lia.
Qed.

(** ** Rebuilding the index *)

(** The index entry of a key, for a table of this mask. *)
Definition pair_of (m : word) (k : bytes) : nat * Z := (Z.to_nat (Z.land (hash64 k) m), tag_of (hash64 k)).
(** The entries the records of [R] need. *)
Definition index_pairs (m : word) (R : gmap Z cell) : gset (nat * Z) :=
  list_to_set ((fun x => pair_of m (c_key (snd x))) <$> map_to_list R).

Lemma pair_in m R a c : R !! a = Some c -> pair_of m (c_key c) ∈ index_pairs m R.
Proof.
  intros Ha. apply elem_of_list_to_set, list_elem_of_fmap. exists (a, c). split; [done|]. by apply elem_of_map_to_list.
Qed.
Lemma same_pair_of ix k k' : same_pair ix k k' <-> pair_of (mask ix) k' = pair_of (mask ix) k.
Proof. done. Qed.
Lemma start_pair ix k k' : same_pair ix k k' -> start ix k' = start ix k.
Proof. intros H. unfold start. by rewrite (same_pair_entry _ _ _ H). Qed.

Section Recovery.
Variables (R : gmap Z cell) (l : HybridLog) (ix0 : HashIndex) (lr : HybridLog) (info : CheckpointInfo).
Let t := tail_pos l.
Context (Hti : tiled l R) (Hok : log_ok l R) (Hfull : tail_off l < page_size l)
  (Hroom : Z.of_nat (size (index_pairs (mask ix0) R)) < Z.of_nat (length (overflow ix0)))
  (Hbits : page_bits lr = page_bits l)
  (Hinfo : ck_begin info = FIRST_VALID_ADDRESS /\ ck_start info = t /\ ck_final info = t).

(** The records below [x] are back in the index: each entry leads to the
    highest of them. *)
Record recovering (st : Store) (P : gset (nat * Z)) (x : Z) : Prop := {
  rc_table : table_ok (st_index st);
  rc_entries : entries_ok (st_index st);
  rc_mask : mask (st_index st) = mask ix0;
  rc_latch : forall b, latch_bits (st_index st) b = latch_bits ix0 b;
  rc_arena : length (overflow (st_index st)) = length (overflow ix0);
  rc_next : overflow_next (st_index st) <= 1 + Z.of_nat (size P);
  rc_pairs : P ⊆ index_pairs (mask ix0) R;
  rc_indexed : forall k, pair_of (mask ix0) k ∈ P -> indexed (st_index st) k;
  rc_head : forall a c, R !! a = Some c -> a < x -> a <= start (st_index st) (c_key c);
  rc_entry : forall k, FIRST_VALID_ADDRESS <= start (st_index st) k -> start (st_index st) k < x /\
    exists c, R !! start (st_index st) k = Some c /\ same_pair (st_index st) k (c_key c);
  rc_dev : forall a, 0 <= a < t -> unseal_img <$> device (st_log st) !! a = unseal_img <$> R !! a;
  rc_log : st_log st = set_device lr (device (st_log st)) }.

Lemma unseal_twice c : unseal_img (unseal_img c) = unseal_img c.
Proof. unfold unseal_img, c_set_info. cbn [c_info c_key c_vlen c_buf c_slot]. f_equal. by rewrite <- Z.land_assoc, Z.land_diag. Qed.

Lemma recovering_past st P x y : recovering st P x -> no_record R x y -> x <= y -> recovering st P y.
Proof.
  intros [? ? ? ? ? ? ? ? Hh He ? ?] Hn Hle. split; try assumption.
  - intros a c Ha Hlt. destruct (Z.lt_ge_cases a x); [by apply Hh|]. destruct (Hn a c Ha). lia.
  - intros k Hk. destruct (He k Hk) as [? ?]. split; [lia|done].
Qed.

(** The entry of a key, found or made. *)
Lemma recover_entry st P x k : recovering st P x -> pair_of (mask ix0) k ∈ index_pairs (mask ix0) R ->
  exists slot ix1 w P1, find_or_create_tag TAG_ATTEMPTS (st_index st) (hash64 k) = Some (slot, ix1) /\
    slot_load ix1 slot = Some w /\ find_tag ix1 (hash64 k) = Some (Some slot) /\ (entry_address w < x \/ entry_address w < FIRST_VALID_ADDRESS) /\
    recovering (set_index st ix1) P1 x /\ pair_of (mask ix0) k ∈ P1 /\
    start ix1 k = entry_address w.
Proof.
  intros Hr Hp. pose proof Hr as [Ht He Em El Ea En Hps Hix Hh Hen Hd Hlog].
  assert (Htag : exists fuel, TAG_ATTEMPTS = S fuel) by (unfold TAG_ATTEMPTS; by eexists). destruct Htag as [fuel Ef]. rewrite Ef.
  assert (Hfound : forall ix1 slot w, find_tag ix1 (hash64 k) = Some (Some slot) -> slot_load ix1 slot = Some w ->
    (forall P1, recovering (set_index st ix1) P1 x -> entry_address w < x \/ entry_address w < FIRST_VALID_ADDRESS)).
  { intros ix1 slot w Hf Hw P1 H1. pose proof (rc_entry _ _ _ H1 k) as H2. cbn [st_index set_index] in H2.
    rewrite (start_slot _ _ _ _ Hf Hw) in H2. destruct (Z.lt_ge_cases (entry_address w) FIRST_VALID_ADDRESS); [by right|left].
    by apply H2. }
  destruct (indexed_or_not (st_index st) k) as [Hi|Hno].
  { pose proof Hi as [slot Hf]%indexed_found. rewrite (find_or_create_tag_hit _ _ _ _ Hf).
    destruct (find_tag_loads _ _ _ Ht (hash64_nonneg k) Hf) as (w & Hw & _).
    assert (H1 : recovering (set_index st (st_index st)) (P ∪ {[pair_of (mask ix0) k]}) x).
    { split; try assumption; cbn [st_index set_index].
      - assert (size P <= size (P ∪ {[pair_of (mask ix0) k]}))%nat by by apply subseteq_size, union_subseteq_l. lia.
      - by apply union_subseteq; split; [|apply singleton_subseteq_l].
      - intros k' [Hk'|Hk'%elem_of_singleton]%elem_of_union; [by apply Hix|].
        unfold indexed in *. rewrite (same_pair_entry (st_index st) k k'); [done|]. apply same_pair_of. by rewrite Em. }
    exists slot, (st_index st), w, (P ∪ {[pair_of (mask ix0) k]}). split_and!; try done; [by eapply Hfound|by apply elem_of_union_r, elem_of_singleton|].
    by apply start_slot with slot. }
  assert (HnP : pair_of (mask ix0) k ∉ P) by (intros Hin; by apply Hno, Hix).
  assert (Hsz : Z.of_nat (size P) + 1 <= Z.of_nat (size (index_pairs (mask ix0) R))).
  { assert (size (P ∪ {[pair_of (mask ix0) k]}) <= size (index_pairs (mask ix0) R))%nat.
    { apply subseteq_size, union_subseteq. split; [done|by apply singleton_subseteq_l]. }
    rewrite size_union in H by by apply disjoint_singleton_r. rewrite size_singleton in H. lia. }
  assert (Hrm : overflow_next (st_index st) <= Z.of_nat (length (overflow (st_index st)))) by lia.
  destruct (find_or_create_tag_entry_word (st_index st) (hash64 k) fuel Ht He (hash64_u64 k) Hrm)
    as (slot & ix1 & Hrun & Ht1 & He1 & Hm1 & _ & Hf1 & Hw1 & Hoth1 & Hl1).
  destruct (find_or_create_tag_room _ _ _ _ _ Ht He (hash64_u64 k) Hrm Hrun) as [Hn1 Ha1].
  destruct (find_tag_loads _ _ _ Ht1 (hash64_nonneg k) Hf1) as (w & Hw & _).
  assert (Enone : entry_word (st_index st) (hash64 k) = None).
  { destruct (entry_word (st_index st) (hash64 k)) eqn:E; [|done]. destruct Hno. unfold indexed. rewrite E. by eexists. }
  assert (Hst : forall k', start ix1 k' = start (st_index st) k' \/
    (start ix1 k' < FIRST_VALID_ADDRESS /\ start (st_index st) k' = INVALID_ADDRESS)).
  { intros k'. destruct (decide (same_pair (st_index st) k k')) as [Hs|Hs].
    - right. unfold start. assert (Hs1 : same_pair ix1 k k') by (unfold same_pair, bucket_index in *; by rewrite Hm1).
      rewrite (same_pair_entry _ _ _ Hs), (same_pair_entry _ _ _ Hs1), Hw1, Enone. cbn [default].
      rewrite entry_address_make by (unfold TEMP_INVALID_ADDRESS; lia). done.
    - left. unfold start. by rewrite (Hoth1 (hash64 k') (hash64_nonneg k') Hs). }
  assert (H1 : recovering (set_index st ix1) (P ∪ {[pair_of (mask ix0) k]}) x).
  { split; try assumption; cbn [st_index set_index st_log].
    - by rewrite Hm1.
    - intros b. by rewrite Hl1.
    - by rewrite Ha1.
    - rewrite size_union by by apply disjoint_singleton_r. rewrite size_singleton. lia.
    - by apply union_subseteq; split; [|apply singleton_subseteq_l].
    - intros k' [Hk'|Hk'%elem_of_singleton]%elem_of_union.
      + unfold indexed in *. rewrite Hoth1; [by apply Hix|apply hash64_nonneg|]. intros E. apply HnP.
        assert (E2 : pair_of (mask ix0) k' = pair_of (mask ix0) k) by (unfold pair_of; unfold bucket_index in E; by rewrite Em in E).
        by rewrite <- E2.
      + unfold indexed. rewrite (same_pair_entry ix1 k k'); [rewrite Hw1; by eexists|]. apply same_pair_of. by rewrite Hm1, Em.
    - intros a c Ha Hax. pose proof (Hh a c Ha Hax) as Hle. destruct (Hst (c_key c)) as [-> |[_ E]]; [done|].
      rewrite E in Hle. pose proof (lo_dom _ _ Hok _ _ Ha). unfold INVALID_ADDRESS, FIRST_VALID_ADDRESS, PAGE_HEADER_SIZE in *. lia.
    - intros k' Hk'. destruct (Hst k') as [E|[E _]]; [rewrite E in Hk' |- *|lia].
      destruct (Hen k' Hk') as (? & c & ? & Hs). split; [done|]. exists c. split; [done|].
      unfold same_pair, bucket_index in *. by rewrite Hm1. }
  exists slot, ix1, w, (P ∪ {[pair_of (mask ix0) k]}). split_and!; try done; [by eapply Hfound|by apply elem_of_union_r, elem_of_singleton|].
  by apply start_slot with slot.
Qed.

(** One record: its entry moves up to it, and its seal is taken off the
    device. *)
Lemma recover_record_spec st P x ps off rec a c : recovering st P x -> R !! a = Some c -> unseal_img rec = unseal_img c ->
  a = ps + off -> x <= a -> no_record R x a -> a < 2 ^ 48 ->
  exists st' P', recover_record info ps st (off, rec) = Some st' /\ recovering st' P' (a + 1).
Proof.
  intros Hr Ha Eu Eao Hxa Hno H48. destruct Hinfo as (_ & Estart & _). pose proof (lo_dom _ _ Hok _ _ Ha) as Hdom.
  unfold recover_record. rewrite (is_valid_bit (c_info rec)), (unseal_bit c rec 49 Eu), <- is_valid_bit by lia.
  rewrite (ip_valid _ _ _ _ (ti_rec _ _ Hti _ _ Ha)). cbn [negb]. cbv iota zeta.
  rewrite Estart, <- Eao. destruct (Z.leb_spec t a); [unfold t in *; lia|]. rewrite andb_false_r.
  set (st1 := if is_sealed (c_info rec) then _ else st).
  assert (H1 : recovering st1 P x).
  { unfold st1. destruct (is_sealed (c_info rec)); [|done].
    destruct Hr as [? ? ? ? ? ? ? ? ? ? Hd Hl]. split; try assumption.
    - intros b Hb. cbn [update_device st_log set_log set_device device set_flushed].
      destruct (decide (a = b)) as [<-|]; [|rewrite lookup_insert_ne by done; by apply Hd].
      rewrite lookup_insert_eq, Ha. cbn [fmap option_fmap option_map]. f_equal.
      change (c_set_info rec (Z.land (c_info rec) (not64 SEALED_BIT))) with (unseal_img rec). by rewrite unseal_twice.
    - cbn [update_device st_log set_log]. by rewrite Hl. }
  rewrite (unseal_key _ _ Eu).
  destruct (recover_entry st1 P x (c_key c) H1 (pair_in _ _ _ _ Ha))
    as (slot & ix1 & w & P1 & -> & Hw & Hf & Hlow & H2 & Hin & Es). cbn [mbind option_bind]. rewrite Hw. cbn [mbind option_bind].
  assert (Hlt : entry_address w < a) by lia. destruct (Z.ltb_spec (entry_address w) a); [|lia].
  pose proof H2 as [Ht2 He2 Em2 El2 Ea2 En2 Hps2 Hix2 Hh2 Hen2 Hd2 Hl2]. cbn [st_index st_log set_index] in *.
  unfold FIRST_VALID_ADDRESS, PAGE_HEADER_SIZE in *.
  destruct (slot_try_cas_spec ix1 (hash64 (c_key c)) slot w a Ht2 He2 (hash64_u64 _) Hf Hw ltac:(lia))
    as (ix2 & -> & Ht3 & He3 & Em3 & En3 & Ea3 & Hw3 & Hf3 & Hoth3 & Hlat3). cbn [mbind option_bind]. cbv iota.
  assert (Hst : forall k, start ix2 k = if decide (same_pair ix1 (c_key c) k) then a else start ix1 k).
  { intros k. case_decide as Hs.
    - assert (Hs2 : same_pair ix2 (c_key c) k) by (unfold same_pair, bucket_index in *; by rewrite Em3).
      rewrite (start_pair _ _ _ Hs2), (start_slot ix2 (c_key c) slot _ ltac:(rewrite Hf3; [exact Hf|apply hash64_nonneg]) Hw3).
      apply entry_address_make. lia.
    - unfold start. f_equal. unfold entry_word. rewrite Hf3 by apply hash64_nonneg.
      destruct (find_tag ix1 (hash64 k)) as [[s'|]|] eqn:E; try done.
      by rewrite (Hoth3 (hash64 k) s' (hash64_nonneg k) E Hs). }
  exists (set_index (set_index st1 ix1) ix2), P1. split; [done|].
  split; try assumption; cbn [st_index st_log set_index]; unfold FIRST_VALID_ADDRESS, PAGE_HEADER_SIZE.
  - by rewrite Em3.
  - intros b. unfold latch_bits. rewrite Hlat3. apply El2.
  - by rewrite Ea3.
  - by rewrite En3.
  - intros k Hk. destruct (indexed_found _ _ (Hix2 k Hk)) as [s' Hs']. apply (found_indexed ix2 k s' Ht3).
    rewrite Hf3; [done|apply hash64_nonneg].
  - intros b d Hb Hba. rewrite Hst. case_decide as Hs; [lia|]. destruct (decide (b = a)) as [->|].
    + assert (d = c) as -> by congruence. destruct Hs. done.
    + apply (Hh2 b d Hb). destruct (Z.lt_ge_cases b x); [done|]. destruct (Hno b d Hb). lia.
  - intros k. rewrite Hst. case_decide as Hs.
    + intros _. split; [lia|]. exists c. split; [done|]. unfold same_pair, bucket_index in *. by rewrite Em3.
    + intros Hk. destruct (Hen2 k Hk) as (? & d & ? & Hp). split; [lia|]. exists d. split; [done|].
      unfold same_pair, bucket_index in *. by rewrite Em3.
Qed.

Lemma listed_inv from to a c' xs : listed R from to ((a, c') :: xs) ->
  from <= a < to /\ (exists c, R !! a = Some c /\ unseal_img c' = unseal_img c) /\ no_record R from a /\
  listed R (a + 1) to xs.
Proof.
  intros [H1 H2 H3]. rewrite fmap_cons in H1. apply StronglySorted_cons in H1 as [Hf Hs]. rewrite Forall_forall in Hf.
  destruct (H2 a c' ltac:(by left)) as [Hr Hc]. split; [done|]. split; [done|]. cbn [fst] in *.
  assert (Hin : forall b d, R !! b = Some d -> from <= b < to -> b = a \/ a < b /\ b ∈ xs.*1).
  { intros b d Hb Hb'. pose proof (H3 b d Hb Hb') as Hi. rewrite fmap_cons in Hi.
    apply elem_of_cons in Hi as [->|Hi]; [by left|right]. split; [by apply Hf|done]. }
  split; [|split; [done| |]].
  - intros b d Hb Hb'. destruct (Hin b d Hb) as [|[]]; lia.
  - intros b d Hb. destruct (H2 b d ltac:(by right)) as [? ?]. split; [|done].
    pose proof (Hf b ltac:(apply list_elem_of_fmap; by exists (b, d))). lia.
  - intros b d Hb Hb'. destruct (Hin b d Hb) as [|[]]; [lia|lia|done].
Qed.

Lemma recover_records_spec ps xs : forall st P from to, recovering st P from -> from <= to -> to <= 2 ^ 48 ->
  listed R from to (map (fun q => (ps + fst q, snd q)) xs) ->
  exists st' P', recover_records info ps st xs = Some st' /\ recovering st' P' to.
Proof.
  induction xs as [|[off rec] xs IH]; intros st P from to Hr Hft H48 Hl.
  - exists st, P. split; [done|]. apply (recovering_past st P from); [done| |done].
    intros a c Ha Hb. destruct Hl as [_ _ H3]. by pose proof (H3 a c Ha Hb) as Hn%elem_of_nil.
  - cbn [map fst snd] in Hl. destruct (listed_inv _ _ _ _ _ Hl) as (Hrg & (c & Hc & Eu) & Hno & Hrest).
    destruct (recover_record_spec st P from ps off rec (ps + off) c Hr Hc Eu eq_refl ltac:(lia) Hno ltac:(lia))
      as (st1 & P1 & E1 & Hr1).
    destruct (IH st1 P1 (ps + off + 1) to Hr1 ltac:(lia) H48 Hrest) as (st2 & P2 & E2 & Hr2).
    exists st2, P2. split; [|done]. cbn [recover_records]. rewrite E1. exact E2.
Qed.

Lemma recover_pages_spec fuel : forall st P p, recovering st P (p * page_size l) -> 0 <= p ->
  p * page_size l <= t -> t <= 2 ^ 48 -> tail_page l - p + 1 < Z.of_nat fuel ->
  exists st' P', recover_pages fuel info st (p * page_size l) = Some st' /\ recovering st' P' t.
Proof.
  pose proof (config_bits _ (lo_config _ _ Hok)) as Hb. pose proof (config_page_size _ (lo_config _ _ Hok)) as Hps.
  pose proof (tl_off _ (lo_tail _ _ Hok)) as Hto. pose proof (tl_page _ (lo_tail _ _ Hok)) as Htp.
  destruct Hinfo as (Ebeg & _ & Efin). assert (Et : t = tail_page l * page_size l + tail_off l) by done.
  induction fuel as [|fuel IH]; intros st P p Hr Hp Hpt H48 Hf; [nia|]. cbn [recover_pages].
  rewrite Efin. unfold FIRST_VALID_ADDRESS, PAGE_HEADER_SIZE in *.
  destruct (Z.ltb_spec (p * page_size l) t) as [Hlt|Hge].
  2: { exists st, P. split; [done|]. by assert (p * page_size l = t) as <- by lia. }
  assert (Epl : page_size (st_log st) = page_size l) by (rewrite (rc_log _ _ _ Hr); unfold page_size; by rewrite <- Hbits).
  rewrite Epl, Ebeg. replace (p * page_size l + page_size l) with ((p + 1) * page_size l) by lia. rewrite Z.div_mul by lia.
  assert (Hcut : cut l R t) by (apply tail_cut; [apply (lo_tail _ _ Hok)|done]).
  destruct (cut_end l R p t Hb ltac:(lia) Hp Hti Hcut Hlt) as [Hce Hem]. rewrite (Z.min_comm t).
  set (e := Z.min ((p + 1) * page_size l) t) in *. set (limit := e - p * page_size l).
  assert (Hel : p * page_size l + limit = e) by (unfold limit; lia).
  destruct (page_walk l R p (disk_buf (st_log st) p) 64 limit) as (xs & Ex & Hxs & _);
    [done|done|lia|constructor|by rewrite Hel|lia| |].
  { intros o Ho. unfold disk_buf. rewrite shiftl_page by (rewrite (rc_log _ _ _ Hr); simpl; lia). rewrite Epl.
    apply (rc_dev _ _ _ Hr). unfold e in Hel. lia. }
  rewrite Hel in Hxs.
  assert (Ewalk : for_each_record_in_buf (disk_buf (st_log st) p) (Z.max (64 - p * page_size l) 0) limit = Some xs).
  { unfold for_each_record_in_buf, PAGE_HEADER_SIZE in *. rewrite (Z.max_r _ 64) by nia. exact Ex. }
  rewrite Ewalk. cbn [mbind option_bind].
  assert (Hr64 : recovering st P (p * page_size l + 64)).
  { apply (recovering_past st P (p * page_size l)); [done|apply (header_empty l R p); (done || lia)|lia]. }
  destruct (recover_records_spec (p * page_size l) xs st P _ e Hr64 ltac:(lia) ltac:(unfold e; lia) Hxs)
    as (st1 & P1 & E1 & Hr1). rewrite E1. cbn [mbind option_bind].
  destruct (Z.min_spec ((p + 1) * page_size l) t) as [[? E]|[? E]]; fold e in E; rewrite E in Hr1.
  - apply (IH st1 P1); try done; lia.
  - assert (p = tail_page l) as -> by nia. destruct fuel as [|fuel]; [lia|]. cbn [recover_pages]. rewrite Efin.
    destruct (Z.ltb_spec ((tail_page l + 1) * page_size l) t); [lia|]. by exists st1, P1.
Qed.
End Recovery.

(** ** The recovered log *)

Definition recovered_records (R : gmap Z cell) : gmap Z cell := unseal_img <$> R.

Lemma recovered_lookup R a c' : recovered_records R !! a = Some c' -> exists c, R !! a = Some c /\ c' = unseal_img c.
Proof. unfold recovered_records. rewrite lookup_fmap. intros (c & -> & ?)%fmap_Some. by exists c. Qed.
Lemma recovered_some R a c : R !! a = Some c -> recovered_records R !! a = Some (unseal_img c).
Proof. intros E. unfold recovered_records. by rewrite lookup_fmap, E. Qed.

Lemma unseal_cell_ok c : cell_ok c -> cell_ok (unseal_img c).
Proof.
  intros (H1 & ? & ? & ? & ?). split_and!; try done. unfold unseal_img. cbn [c_info c_set_info]. by apply land_u64_l.
Qed.
Lemma recovered_sizes R : same_sizes R (recovered_records R).
Proof. intros a c Ha. exists (unseal_img c). split; [by apply recovered_some|done]. Qed.

Lemma tiled_recovered l l' R : tiled l R -> page_bits l' = page_bits l -> tail l' = tail l ->
  tiled l' (recovered_records R).
Proof.
  intros [H1 H2] Eb Et. destruct (page_base_bits l l' 0 Eb) as (_ & _ & Es).
  assert (Ep : tail_pos l' = tail_pos l) by (unfold tail_pos, tail_page, tail_off; by rewrite Et, Es). split.
  - intros a c' (c & Ha & ->)%recovered_lookup. destruct (H1 _ _ Ha) as [G1 G2 G3 G4 G5].
    eapply in_place_mono; [done|lia|apply recovered_sizes| |by apply unseal_cell_ok| |by apply H1]; [done|].
    rewrite (unseal_valid (unseal_img c) c) in G5; [done|]. unfold unseal_img at 2. symmetry. apply unseal_twice.
  - intros Hto. unfold tail_page, tail_off in *. rewrite Et, Es, Ep in *. eapply laid_mono; [apply recovered_sizes|by apply H2].
Qed.

Lemma recover_addresses_spec l R lr dev : log_ok l R -> tail_off l < page_size l ->
  config_ok lr -> page_bits lr = page_bits l -> pages lr = ∅ -> drain_list (epoch lr) = [] ->
  (forall a, 0 <= a < tail_pos l -> unseal_img <$> dev !! a = unseal_img <$> R !! a) ->
  let l' := set_device (recover_addresses lr FIRST_VALID_ADDRESS (tail_pos l)) dev in
  tail l' = tail l /\ @log_ok (tail_pos l) l' (recovered_records R) /\ lively l'.
Proof.
  intros Hok Hfull Hc Hbits Hpages Hdr Hdev l'.
  pose proof (config_bits _ (lo_config _ _ Hok)) as Hb. pose proof (config_page_size _ (lo_config _ _ Hok)) as Hps.
  pose proof (lo_tail _ _ Hok) as Ht. pose proof (tl_off _ Ht) as Hto. pose proof (tl_page _ Ht) as Htp.
  unfold FIRST_VALID_ADDRESS, PAGE_HEADER_SIZE in *.
  assert (Eps : page_size lr = page_size l) by (unfold page_size; by rewrite Hbits).
  assert (Epg : page_of lr (tail_pos l) = tail_page l) by (apply page_of_spec; [lia|rewrite Eps; unfold tail_pos; lia]).
  assert (Eoff : Z.land (tail_pos l) (page_size lr - 1) = tail_off l).
  { change (offset_of lr (tail_pos l) = tail_off l). rewrite offset_of_sub, Epg, Eps by lia. unfold tail_pos. lia. }
  assert (Etail : tail l' = tail l).
  { unfold l', recover_addresses, set_device. cbn [tail set_flushed].
    change (page_size (zero_page lr _)) with (page_size lr). rewrite Eoff, Epg. symmetry. apply (tl_pack _ Ht). }
  assert (Eps' : page_size l' = page_size l) by exact Eps.
  assert (Epos : tail_pos l' = tail_pos l /\ tail_page l' = tail_page l /\ tail_off l' = tail_off l)
    by (unfold tail_pos, tail_page, tail_off; by rewrite Etail, Eps'). destruct Epos as (Epos & Epage & Eof).
  assert (Ecl : closed_until_address l' = tail_page l * page_size l).
  { change (closed_until_address l') with (Z.shiftl (page_of lr (tail_pos l)) (page_bits lr)).
    rewrite Epg, Z.shiftl_mul_pow2 by lia. by rewrite Hbits. }
  pose proof (config_buffer _ Hc).
  split; [done|]. split; [|split].
  - split.
    + by destruct Hc.
    + change (marks_ok l'). split; rewrite ?Ecl, ?Epos, ?Eps'; try (change (safe_head_address l') with (tail_pos l));
        try (change (head_address l') with (tail_pos l)); try (change (flushed_until_address l') with (tail_pos l));
        try (change (safe_read_only_address l') with (tail_pos l)); try (change (read_only_address l') with (tail_pos l));
        try lia; [exists (tail_page l); lia|unfold tail_pos; lia|unfold tail_pos, FIRST_VALID_ADDRESS, PAGE_HEADER_SIZE; nia].
    + split; rewrite ?Epage, ?Eof, ?Ecl, ?Eps', ?Etail; [apply (tl_pack _ Ht)|done| |].
      * unfold FIRST_VALID_ADDRESS, PAGE_HEADER_SIZE. lia.
      * change (buffer_size l') with (buffer_size lr). nia.
    + intros e a. change (drain_list (epoch l')) with (drain_list (epoch lr)). rewrite Hdr. by intros Hn%elem_of_nil.
    + intros a c' (c & Ha & ->)%recovered_lookup. rewrite Epos. by apply (lo_dom _ _ Hok _ _ Ha).
    + done.
    + intros a Hfl Ha. unfold Floor in Hfl. unfold record_at.
      assert (E : pages l' = ∅).
      { change (pages l') with (pages (zero_page lr (page_of lr (tail_pos l)))). unfold zero_page. simpl.
        rewrite Hpages. apply map_filter_empty. }
      rewrite E, lookup_empty. symmetry. unfold recovered_records. rewrite lookup_fmap.
      destruct (R !! a) as [c|] eqn:Ea; [|done]. pose proof (lo_dom _ _ Hok _ _ Ea). lia.
    + intros a Ha. change (flushed_until_address l') with (tail_pos l) in Ha. change (device l') with dev.
      rewrite Hdev by done. unfold recovered_records. rewrite lookup_fmap. destruct (R !! a); [|done].
      cbn [fmap option_fmap option_map]. by rewrite unseal_twice.
  - left. unfold flushed_up. simpl. lia.
  - left. unfold closed_up. rewrite Ecl, Eps'. change (head_address l') with (tail_pos l). unfold tail_pos. lia.
  - intros e a. change (drain_list (epoch l')) with (drain_list (epoch lr)). rewrite Hdr. by intros Hn%elem_of_nil.
Qed.

(** ** The recovered store *)

Lemma recovered_links R : same_links R (recovered_records R) /\ same_links (recovered_records R) R.
Proof.
  assert (Hp : forall c, previous_address (c_info (unseal_img c)) = previous_address (c_info c)).
  { intros c. apply unseal_previous, unseal_twice. }
  split; intros a c.
  - intros Ha. exists (unseal_img c). split; [by apply recovered_some|]. by split; [|apply Hp].
  - intros (d & Hd & ->)%recovered_lookup. exists d. split; [done|]. by split; [|rewrite Hp].
Qed.

Lemma recovered_start R st0 ix0 l lr st P k M : store_ok st0 R M -> st_log st0 = l -> mask (st_index st0) = mask ix0 ->
  recovering R l ix0 lr st P (tail_pos l) ->
  start (st_index st) k = start (st_index st0) k \/
  start (st_index st) k < FIRST_VALID_ADDRESS /\ start (st_index st0) k < FIRST_VALID_ADDRESS.
Proof.
  intros Hok <- Em Hr. set (s' := start (st_index st) k). set (s := start (st_index st0) k).
  assert (Eb : begin_address (st_log st0) = FIRST_VALID_ADDRESS) by apply (ly_begin _ _ (so_layout _ _ _ Hok)).
  assert (Hpair : forall k', same_pair (st_index st) k k' <-> same_pair (st_index st0) k k').
  { intros k'. rewrite !same_pair_of, (rc_mask _ _ _ _ _ _ _ Hr), Em. done. }
  assert (H1 : FIRST_VALID_ADDRESS <= s -> s <= s').
  { intros Hs. unfold s in *. rewrite <- Eb in Hs. destruct (so_entry _ _ _ Hok k Hs) as (c & Hc & Hp).
    pose proof (rc_head _ _ _ _ _ _ _ Hr _ _ Hc (proj2 (lo_dom _ _ (so_log _ _ _ Hok) _ _ Hc))) as Hle.
    apply Hpair in Hp. by rewrite (start_pair _ _ _ Hp) in Hle. }
  assert (H2 : FIRST_VALID_ADDRESS <= s' -> s' <= s).
  { intros Hs. destruct (rc_entry _ _ _ _ _ _ _ Hr k Hs) as (_ & c & Hc & Hp).
    pose proof (so_head _ _ _ Hok _ _ Hc) as Hle. apply Hpair in Hp. by rewrite (start_pair _ _ _ Hp) in Hle. }
  lia.
Qed.

Lemma recovered_value R M k r : cells_ok R FIRST_VALID_ADDRESS -> value_of R r = M !! k -> open_at R r ->
  value_of (recovered_records R) r = M !! k /\ open_at (recovered_records R) r.
Proof.
  intros Hc Hv Ho. destruct r as [a|]; [|by split]. unfold value_of in *. cbn [mbind option_bind] in *.
  unfold open_at in *. unfold recovered_records. rewrite lookup_fmap.
  destruct (R !! a) as [c|] eqn:Ea; cbn [fmap option_fmap option_map mbind option_bind] in *.
  - assert (E : unseal_img c = c) by (apply unseal_open; [apply (proj1 (Hc _ _ Ea))|by apply (Ho a c)]).
    rewrite E. split; [done|]. intros x d [= <-]. rewrite lookup_fmap, Ea. cbn [fmap option_fmap option_map].
    rewrite E. intros [= <-]. by apply (Ho a c).
  - split; [done|]. intros x d [= <-]. by rewrite lookup_fmap, Ea.
Qed.

Lemma recovered_ok R M st0 ix0 lr st P v : store_ok st0 R M -> tail_off (st_log st0) < page_size (st_log st0) ->
  mask (st_index st0) = mask ix0 -> page_bits lr = page_bits (st_log st0) -> config_ok lr ->
  pages lr = ∅ -> drain_list (epoch lr) = [] ->
  recovering R (st_log st0) ix0 (recover_addresses lr FIRST_VALID_ADDRESS (tail_pos (st_log st0))) st P (tail_pos (st_log st0)) ->
  st_state st = sys_pack (SysState Rest v) ->
  @store_ok (tail_pos (st_log st0)) st (recovered_records R) M.
Proof.
  intros Hok Hfull Em Hbits Hlr Hpages Hdr Hr Hst. pose proof (so_layout _ _ _ Hok) as [Hti _ Eb].
  destruct (recover_addresses_spec (st_log st0) R lr (device (st_log st)) (so_log _ _ _ Hok) Hfull Hlr Hbits Hpages Hdr
    (rc_dev _ _ _ _ _ _ _ Hr)) as (Etail & Hlog & Hlively). rewrite <- (rc_log _ _ _ _ _ _ _ Hr) in Etail, Hlog, Hlively.
  set (lg := st_log st) in *. assert (El : lg = set_device (recover_addresses lr FIRST_VALID_ADDRESS (tail_pos (st_log st0))) (device lg))
    by apply (rc_log _ _ _ _ _ _ _ Hr).
  assert (Ebg : begin_address lg = FIRST_VALID_ADDRESS) by (by rewrite El).
  assert (Ebits : page_bits lg = page_bits (st_log st0)) by (rewrite El; exact Hbits).
  assert (Ehead : head_address lg = tail_pos (st_log st0)) by (by rewrite El).
  pose proof (tl_off _ (lo_tail _ _ (so_log _ _ _ Hok))) as Hto. pose proof (tl_page _ (lo_tail _ _ (so_log _ _ _ Hok))) as Htp.
  pose proof (config_page_size _ (lo_config _ _ (so_log _ _ _ Hok))) as Hps.
  pose proof (fun k => recovered_start R st0 ix0 _ _ st P k M Hok eq_refl Em Hr) as Hstart.
  destruct (recovered_links R) as [L1 L2]. pose proof (so_cells _ _ _ Hok) as Hcells. rewrite Eb in Hcells.
  assert (Hti' : tiled lg (recovered_records R)) by by apply (tiled_recovered (st_log st0)).
  assert (Hpos : 64 <= tail_pos (st_log st0)) by (unfold tail_pos, FIRST_VALID_ADDRESS, PAGE_HEADER_SIZE in *; nia).
  split; fold lg; rewrite ?Ebg; try assumption.
  - rewrite Ehead. unfold FIRST_VALID_ADDRESS, PAGE_HEADER_SIZE in *. lia.
  - apply (rc_table _ _ _ _ _ _ _ Hr).
  - apply (rc_entries _ _ _ _ _ _ _ Hr).
  - intros a c' (c & Ha & ->)%recovered_lookup. destruct (Hcells _ _ Ha) as (H1 & H2 & H3).
    destruct (L1 _ _ Ha) as (d & Hd & _ & Ep). rewrite (recovered_some _ _ _ Ha) in Hd. injection Hd as Hd.
    assert (Ep' : previous_address (c_info (unseal_img c)) = previous_address (c_info c)) by apply unseal_previous, unseal_twice.
    rewrite Ep'. split; [by apply unseal_cell_ok|]. split; [done|].
    destruct H3 as [|[e He]]; [by left|right]. rewrite (recovered_some _ _ _ He). by eexists.
  - intros k. destruct (Z.lt_ge_cases (start (st_index st) k) FIRST_VALID_ADDRESS); [by left|right].
    destruct (rc_entry _ _ _ _ _ _ _ Hr k) as (_ & c & Hc & _); [lia|]. rewrite (recovered_some _ _ _ Hc). by eexists.
  - intros k r Hn. apply (newest_mono _ _ _ _ _ _ L2) in Hn.
    assert (Hn0 : newest R FIRST_VALID_ADDRESS k (start (st_index st0) k) r).
    { destruct (Hstart k) as [<-|[E1 E2]]; [done|].
      rewrite (newest_det _ _ _ _ _ _ Hn (newest_end _ _ _ _ E1)). by apply newest_end. }
    rewrite <- Eb in Hn0. destruct (so_map _ _ _ Hok k r Hn0). by apply recovered_value.
  - unfold system_state. rewrite Hst, sys_unpack_pack. done.
  - split; [done| |done]. split.
    + assert (E : flushed_until_address lg = tail_pos lg).
      { assert (flushed_until_address lg = tail_pos (st_log st0)) as -> by (by rewrite El).
        unfold tail_pos, tail_page, tail_off, page_size. by rewrite Etail, Ebits. }
      rewrite E. apply tail_cut; [apply (lo_tail _ _ Hlog)|done].
    + intros e ro Hin. exfalso. revert Hin. rewrite El. change (drain_list _) with (drain_list (epoch lr)).
      rewrite Hdr. by intros Hn%elem_of_nil.
  - intros a c' (c & Ha & ->)%recovered_lookup. apply (rc_head _ _ _ _ _ _ _ Hr _ _ Ha).
    apply (lo_dom _ _ (so_log _ _ _ Hok) _ _ Ha).
  - intros k Hk. destruct (rc_entry _ _ _ _ _ _ _ Hr k Hk) as (_ & c & Hc & Hp).
    exists (unseal_img c). by rewrite (recovered_some _ _ _ Hc).
Qed.

(** ** Checkpoint, then recovery *)

Lemma new_store_parts buckets bits mem mutable st0 : store_new buckets bits mem mutable = Some st0 ->
  exists l0, log_new bits mem mutable = Some l0 /\ st0 = MkStore (index_new buckets) l0 (sys_pack (SysState Rest 1)) (two64 - 1) /\
    pages l0 = ∅ /\ epoch l0 = epoch_new /\ page_bits l0 = bits.
Proof.
  unfold store_new. destruct (log_new bits mem mutable) as [l0|] eqn:E; [|done]. cbn [mbind option_bind]. intros [= <-].
  exists l0. split; [done|]. split; [done|]. unfold log_new in E. destruct (_ && _); [|done]. by injection E as <-.
Qed.

Lemma start_new buckets k : buckets <= 2 ^ 40 -> start (index_new buckets) k = INVALID_ADDRESS.
Proof.
  intros Hb. destruct (index_new_ok buckets Hb) as (Ht & _). unfold start, entry_word.
  destruct (find_tag (index_new buckets) (hash64 k)) as [[s|]|] eqn:Ef; try done.
  destruct (find_tag_loads _ _ s Ht (hash64_nonneg k) Ef) as (w & Hw & _ & _ & Hne & _).
  apply index_new_word in Hw as ->. discriminate Hne.
Qed.

Lemma recover_record_state info ps st x st' : recover_record info ps st x = Some st' -> st_state st' = st_state st.
Proof.
  unfold recover_record. destruct x as [off rec]. cbv zeta. intros H.
  repeat (case_match; cbn [mbind option_bind] in H; simplify_eq; try done).
  all: unfold mbind, option_bind in H; repeat (case_match; simplify_eq; try done).
Qed.
Lemma recover_records_state info ps xs : forall st st', recover_records info ps st xs = Some st' -> st_state st' = st_state st.
Proof.
  induction xs as [|x xs IH]; intros st st'; cbn [recover_records]; [by intros [= <-]|].
  destruct (recover_record info ps st x) as [st1|] eqn:E; [|done]. cbn [mbind option_bind]. intros H.
  rewrite (IH _ _ H). by eapply recover_record_state.
Qed.
Lemma recover_pages_state fuel info : forall st p st', recover_pages fuel info st p = Some st' -> st_state st' = st_state st.
Proof.
  induction fuel as [|fuel IH]; intros st p st'; cbn [recover_pages]; [done|].
  destruct (p <? ck_final info); [|by intros [= <-]]. cbv zeta.
  destruct (for_each_record_in_buf _ _ _) as [xs|]; [|done]. cbn [mbind option_bind].
  destruct (recover_records info p st xs) as [st1|] eqn:E; [|done]. cbn [mbind option_bind]. intros H.
  rewrite (IH _ _ _ H). by eapply recover_records_state.
Qed.

(** Recovery of a new store over a device that holds every record below the
    recovered tail. *)
Lemma recover_spec st R M buckets mem mutable st0 dev info tid : store_ok st R M ->
  tail_off (st_log st) < page_size (st_log st) -> room (st_log st) ->
  store_new buckets (page_bits (st_log st)) mem mutable = Some st0 -> buckets <= 2 ^ 40 ->
  mask (st_index st0) = mask (st_index st) ->
  Z.of_nat (size (index_pairs (mask (st_index st)) R)) < Z.of_nat (length (overflow (st_index st0))) -> tid <> 0 ->
  ck_begin info = FIRST_VALID_ADDRESS -> ck_start info = tail_pos (st_log st) -> ck_final info = tail_pos (st_log st) ->
  (forall a, 0 <= a < tail_pos (st_log st) -> unseal_img <$> dev !! a = unseal_img <$> R !! a) ->
  exists st2, recover (set_log st0 (set_device (st_log st0) dev)) info = Some st2 /\
    @store_ok (tail_pos (st_log st)) st2 (recovered_records R) M /\ ready (rs := nothing_reserved) st2 (new_session st2 tid) /\
    room (st_log st2) /\ forall k, indexable (st_index st2) k.
Proof.
  intros Hok Hfull [Hrm1 Hrm2] Hnew Hbk Hmask Hroom Htid Ebeg Estart Efin Hdev.
  destruct (store_new_ok _ _ _ _ _ tid Hnew Hbk Htid) as (Hok0 & Hr0 & _).
  destruct (new_store_parts _ _ _ _ _ Hnew) as (l0 & Enew & E0 & Hpages & Hep & Hbits).
  pose proof (lo_config _ _ (@so_log _ _ _ _ Hok0)) as Hc0. destruct (index_new_ok buckets Hbk) as (Ht0 & He0 & _).
  rewrite E0 in Hmask, Hroom, Hc0, Hr0 |- *. cbn [st_index st_log] in *. clear Hok0.
  set (l := st_log st) in *. set (t := tail_pos l) in *. set (lr := set_device l0 dev).
  pose proof (so_log _ _ _ Hok) as Hlog. fold l in Hlog. pose proof (config_page_size _ (lo_config _ _ Hlog)) as Hps.
  pose proof (tl_off _ (lo_tail _ _ Hlog)) as Hto. pose proof (tl_page _ (lo_tail _ _ Hlog)) as Htp.
  unfold FIRST_VALID_ADDRESS, PAGE_HEADER_SIZE in *.
  assert (Et : t = tail_page l * page_size l + tail_off l) by done.
  unfold recover. cbn [st_index set_index set_log st_log]. rewrite clear_new, Ebeg, Efin.
  match goal with |- context [recover_pages _ _ ?s _] => set (s1 := s) end.
  assert (Elog : st_log s1 = recover_addresses lr FIRST_VALID_ADDRESS t) by done.
  assert (Eps : page_size (st_log s1) = page_size l) by (rewrite Elog; unfold page_size; simpl; by rewrite Hbits).
  rewrite Eps, (Z.div_small 64) by lia. change (0 * page_size l) with (0 * page_size l).
  assert (Hrec0 : recovering R l (index_new buckets) (recover_addresses lr FIRST_VALID_ADDRESS t) s1 ∅ (0 * page_size l)).
  { assert (Es : st_index s1 = index_new buckets) by done. split; rewrite ?Es; try done.
    - intros a c Ha Hlt. pose proof (lo_dom _ _ Hlog _ _ Ha). unfold FIRST_VALID_ADDRESS, PAGE_HEADER_SIZE in *. lia.
    - intros k. rewrite start_new by done. unfold INVALID_ADDRESS, FIRST_VALID_ADDRESS, PAGE_HEADER_SIZE. lia. }
  rewrite <- Hmask in Hroom.
  destruct (recover_pages_spec R l (index_new buckets) (recover_addresses lr FIRST_VALID_ADDRESS t) info
    (ly_tiled _ _ (so_layout _ _ _ Hok)) Hlog Hfull Hroom Hbits
    ltac:(by split_and!) (S (S (Z.to_nat (t / page_size l)))) s1 ∅ 0 Hrec0) as (st2 & P & E & Hr2).
  { lia. } { fold t. nia. } { fold t. nia. }
  { assert (t / page_size l = tail_page l) as -> by (symmetry; apply (Z.div_unique t (page_size l) _ (tail_off l)); lia). lia. }
  exists st2. split; [exact E|].
  assert (Hstate : st_state st2 = sys_pack (SysState Rest (ck_version info + 1))).
  { by rewrite (recover_pages_state _ _ _ _ _ E). }
  assert (Hok2 : @store_ok t st2 (recovered_records R) M).
  { eapply (recovered_ok R M st (index_new buckets) lr); try done; [by destruct Hc0|].
    change (epoch lr) with (epoch l0). by rewrite Hep. }
  pose proof (rc_log _ _ _ _ _ _ _ Hr2) as El2.
  assert (Eep : epoch (st_log st2) = epoch l0) by (by rewrite El2).
  split; [done|]. split; [|split].
  - destruct Hr0 as [Hq Hc Ht Hs Hf _ Hlen]. cbn [st_log st_index] in *. split; try done.
    + intros idx sl. rewrite Eep. apply Hq.
    + by rewrite Eep.
    + by rewrite Eep.
    + intros _ bi [w Hw]. rewrite (rc_latch _ _ _ _ _ _ _ Hr2). apply Hf; [done|].
      pose proof (rc_latch _ _ _ _ _ _ _ Hr2 (Main bi)) as El. unfold latch_bits in El. unfold latch_word in *.
      rewrite Hw in El. cbn [mbind option_bind] in El.
      destruct (load_word (index_new buckets) (Main bi) OVERFLOW_ENTRY); [by eexists|done].
    + by intros ? ? ? _ ?%not_elem_of_nil.
    + by rewrite Eep.
  - destruct (recover_addresses_spec l R lr (device (st_log st2)) Hlog Hfull ltac:(by destruct Hc0) Hbits Hpages ltac:(change (epoch lr) with (epoch l0); by rewrite Hep)
      (rc_dev _ _ _ _ _ _ _ Hr2)) as (Etail & _).
    assert (Etail2 : tail (st_log st2) = tail l) by (rewrite El2; exact Etail).
    unfold room, tail_page, page_size. rewrite Etail2, El2. cbn [page_bits recover_addresses set_device set_flushed zero_page set_pages lr].
    rewrite Hbits. done.
  - intros k. right. rewrite (rc_arena _ _ _ _ _ _ _ Hr2). pose proof (rc_next _ _ _ _ _ _ _ Hr2).
    assert (size P <= size (index_pairs (mask (index_new buckets)) R))%nat by (apply subseteq_size, (rc_pairs _ _ _ _ _ _ _ Hr2)).
    lia.
Qed.

Lemma checkpoint_info_ok st R data : log_ok (st_log st) R -> begin_address (st_log st) = FIRST_VALID_ADDRESS ->
  room (st_log st) -> is_u64 data ->
  let t := tail_pos (st_log st) in
  info_ok (CkInfo (version (system_state st)) (begin_address (st_log st)) t t data).
Proof.
  intros Hok Eb [H1 H2] Hd t. pose proof (tl_off _ (lo_tail _ _ Hok)). pose proof (tl_page _ (lo_tail _ _ Hok)).
  pose proof (config_page_size _ (lo_config _ _ Hok)). unfold FIRST_VALID_ADDRESS, PAGE_HEADER_SIZE in *.
  assert (Hv : 0 <= version (system_state st) < 2 ^ 56) by (apply land_ones_bound; lia).
  assert (Ht : 0 <= t < 2 ^ 48) by (unfold t, tail_pos; nia).
  unfold info_ok, is_u64, two64 in *. cbn [ck_version ck_begin ck_start ck_final user_data]. rewrite Eb. lia.
Qed.

(** C9. With nobody inside the epoch, a checkpoint returns, keeps the store and
    its map, and writes a file that reads back as the checkpoint's metadata; and
    recovering a new store with as many index buckets from that metadata and
    the device, whatever has been written to the device past the checkpointed
    tail since, returns a store that implements the same map, with a session
    ready to run and room for more: every theorem on the operations applies to
    it.  The index must have an overflow bucket for each pair of bucket and tag
    that the records need.  The tail page must not be exactly full: there
    [tail_address] reports the start of an odd page (LogSpec.tail_address_full_odd),
    and a log recovered to a page boundary puts its next record into the page
    header, where scans do not see it. *)
Theorem checkpoint_then_recovery_keeps_map fuel st R M data : store_ok st R M -> nobody_inside (st_log st) ->
  packed st -> phase (system_state st) = Rest -> tail_off (st_log st) < page_size (st_log st) -> room (st_log st) ->
  is_u64 data ->
  exists info file st1, take_checkpoint (S (S fuel)) st data = Some (inr (info, file, st1)) /\
    store_ok st1 R M /\ read_from file = inr info /\ user_data info = data /\
    forall buckets mem mutable st0 dev tid, store_new buckets (page_bits (st_log st)) mem mutable = Some st0 ->
      buckets <= 2 ^ 40 -> mask (st_index st0) = mask (st_index st) ->
      Z.of_nat (size (index_pairs (mask (st_index st)) R)) < Z.of_nat (length (overflow (st_index st0))) -> tid <> 0 ->
      (forall a, 0 <= a < ck_final info -> dev !! a = device (st_log st1) !! a) ->
      exists st2 R2, recover (set_log st0 (set_device (st_log st0) dev)) info = Some st2 /\
        @store_ok (ck_final info) st2 R2 M /\ ready (rs := nothing_reserved) st2 (new_session st2 tid) /\ room (st_log st2) /\
        forall k, indexable (st_index st2) k.
Proof.
  intros Hok Hq Hpk Hrest Hfull Hroom Hd. pose proof (so_log _ _ _ Hok) as Hlog.
  pose proof (tail_address_spec _ R Hlog (or_introl Hfull)) as Ht.
  destruct (take_checkpoint_spec fuel st R M data Hok Hq Hpk Hrest Ht) as (l' & E & Hok1 & _ & Hm & Hfl).
  pose proof (ly_begin _ _ (so_layout _ _ _ Hok)) as Eb.
  pose proof (checkpoint_info_ok st R data Hlog Eb Hroom Hd) as Hio. cbv zeta in Hio.
  eexists _, _, _. split; [exact E|]. split; [exact Hok1|]. split.
  { rewrite <- (app_nil_r (write_to _)). by apply checkpoint_info_reads. }
  split; [done|]. intros buckets mem mutable st0 dev tid Hnew Hbk Hmask Hpairs Htid Hdev. cbn [ck_final st_log] in *.
  destruct (recover_spec st R M buckets mem mutable st0 dev (CkInfo (version (system_state st)) (begin_address (st_log st))
    (tail_pos (st_log st)) (tail_pos (st_log st)) data) tid) as (st2 & E2 & Hok2 & Hr2 & Hrm2 & Hix2); try done.
  - intros a Ha. rewrite Hdev by done. apply (lo_dev _ _ (so_log _ _ _ Hok1)). cbn [st_log]. lia.
  - by exists st2, (recovered_records R).
Qed.
End Checkpoints.

(** ** Witness: the store of one key *)

#[local] Existing Instance from_creation.
#[local] Existing Instance nothing_reserved.

Lemma size_of_list `{Countable A} (xs : list A) : (size (list_to_set xs : gset A) <= length xs)%nat.
Proof.
  induction xs as [|x xs IH]; simpl; [done|].
  rewrite size_union_alt, size_singleton.
  assert (size (list_to_set xs ∖ {[x]} : gset A) <= size (list_to_set xs : gset A))%nat by (by apply subseteq_size, subseteq_difference_l). lia.
Qed.
(** Records lie at distinct addresses, so the tail bounds the entries needed. *)
Lemma index_pairs_size m (R : gmap Z cell) n : (forall a c, R !! a = Some c -> 0 <= a < Z.of_nat n) ->
  (size (index_pairs m R) <= n)%nat.
Proof.
  intros Hb. assert (Hs : index_pairs m R ⊆ list_to_set ((fun i : nat => from_option (fun c => pair_of m (c_key c)) (0%nat, 0) (R !! Z.of_nat i)) <$> seq 0 n)).
  { intros p Hp. unfold index_pairs in Hp. apply elem_of_list_to_set, list_elem_of_fmap in Hp as ([a c] & -> & Ha).
    apply elem_of_map_to_list in Ha. pose proof (Hb _ _ Ha). apply elem_of_list_to_set, list_elem_of_fmap.
    exists (Z.to_nat a). rewrite Z2Nat.id, Ha by lia. split; [done|]. apply elem_of_seq. lia. }
  apply subseteq_size in Hs. etransitivity; [exact Hs|]. etransitivity; [apply size_of_list|].
  by rewrite length_fmap, length_seq.
Qed.

Lemma checkpoint_then_recovery_keeps_map_witness : exists st M info file st1 st0 st2 R2,
  is_Some (M !! demo_key) /\ take_checkpoint 2 st 42 = Some (inr (info, file, st1)) /\
  store_new 64 9 4 2 = Some st0 /\
  recover (set_log st0 (set_device (st_log st0) (device (st_log st1)))) info = Some st2 /\
  @store_ok (ck_final info) st2 R2 M.
Proof.
  destruct demo_written as (st & se & R & M & c & H1 & H2 & H3 & H4 & _ & H6 & H7 & H8 & H9 & H10).
  destruct (store_new 64 9 4 2) as [st0|] eqn:E0; [|vm_compute in E0; discriminate].
  destruct (checkpoint_then_recovery_keeps_map 0 st R M 42 H1 (rd_quiet _ _ H2)) as
    (info & file & st1 & E & _ & _ & _ & Hrec); [by eexists|by unfold system_state; rewrite H10|done..|unfold is_u64, two64; lia|].
  rewrite H8 in Hrec. destruct (Hrec 64 4 2 st0 (device (st_log st1)) 7 E0) as (st2 & R2 & E2 & Hok2 & _); try done.
  - rewrite H9. by injection E0 as <-.
  - assert (length (overflow (st_index st0)) = 1024%nat) as -> by by injection E0 as <-.
    enough (size (index_pairs (mask (st_index st)) R) <= 512)%nat by lia.
    apply index_pairs_size. intros a x Ha. pose proof (lo_dom _ _ (so_log _ _ _ H1) _ _ Ha).
    unfold FIRST_VALID_ADDRESS, PAGE_HEADER_SIZE in *. lia.
  - by exists st, M, info, file, st1, st0, st2, R2; split; [exists c|].
Defined.
