(* ===== verification/Aof.v ===== *)
(** * The append-only file ([crates/garnet/src/aof.rs])

    The deterministic operation log: framing, buffering, commit and replay.
    The file is its bytes; writes to it succeed.  A wait that only another
    thread could end is [None].  Then: what is enqueued is what is replayed, a
    crash loses only an uncommitted suffix, and two ways entries get lost. *)

From S2P Require Import Prelude.

Definition AOF_VERSION : Z := 1.

Inductive AofOp := AofCommand | TxnStart | TxnCommit.
Global Instance AofOp_eq_dec : EqDecision AofOp.
Proof. solve_decision. Defined.
Definition aof_op_code (op : AofOp) : Z := match op with AofCommand => 1 | TxnStart => 2 | TxnCommit => 3 end.
Definition aof_op_from_u8 (v : Z) : option AofOp :=
  if v =? 1 then Some AofCommand else if v =? 2 then Some TxnStart else if v =? 3 then Some TxnCommit else None.

Inductive CommitMode := Never | Interval (ms : Z) | Always.

Record AofEntry := Entry { e_op : AofOp; timestamp_ms : Z; payload : bytes }.

Definition HEADER_LEN : nat := 16.

(** [tail] is the atomic mirror of the end of the log. *)
Record Aof := MkAof {
  file : bytes; buf : bytes; written : Z; committed : Z; aof_tail : Z; mode : CommitMode }.

(** Reopening a file takes its length as both written and committed. *)
Definition aof_open (content : bytes) (mode : CommitMode) : Aof :=
  let len := Z.of_nat (length content) in MkAof content [] len len len mode.

(** A positioned write: bytes between the end of the file and [pos] are zero. *)
Definition file_write (pos : nat) (data content : bytes) : bytes :=
  splice pos data (content ++ replicate (pos - length content) 0).

Definition flush_buffer (a : Aof) : Aof :=
  match buf a with
  | [] => a
  | _ => MkAof (file_write (Z.to_nat (written a)) (buf a) (file a)) []
           (written a + Z.of_nat (length (buf a))) (committed a) (aof_tail a) (mode a)
  end.
Definition aof_commit (a : Aof) : Aof :=
  let a := flush_buffer a in
  if committed a <? written a
  then MkAof (file a) (buf a) (written a) (written a) (aof_tail a) (mode a) else a.

(** [hdr]: the payload length is stored modulo 2^32. *)
Definition aof_header (op : AofOp) (ts : Z) (payload : bytes) : bytes :=
  le_bytes 4 (Z.of_nat (length payload)) ++ [AOF_VERSION; aof_op_code op; 0; 0] ++ le_bytes 8 (u64_of_i64 ts).
Definition BUFFER_LIMIT : Z := 65536.
Definition enqueue (a : Aof) (op : AofOp) (ts : Z) (payload : bytes) : Z * Aof :=
  let buf' := (buf a ++ aof_header op ts payload) ++ payload in
  let end_ := written a + Z.of_nat (length buf') in
  let a := MkAof (file a) buf' (written a) (committed a) end_ (mode a) in
  let a := if BUFFER_LIMIT <=? Z.of_nat (length buf') then flush_buffer a else a in
  (end_, match mode a with Always => aof_commit a | _ => a end).

(** [None]: parked on the condition variable until another thread commits. *)
Definition wait_committed (a : Aof) (addr : Z) : option Aof :=
  if addr <=? committed a then Some a else
  let a := aof_commit a in
  if committed a <? addr then None else Some a.

Definition aof_truncate (a : Aof) : Aof := MkAof [] [] 0 0 0 (mode a).

(** [replay]: the entries of the durable prefix. *)
Fixpoint replay_loop (fuel : nat) (content : bytes) (pos durable : Z) : list AofEntry :=
  match fuel with
  | O => []
  | S fuel =>
      if durable <? pos + Z.of_nat HEADER_LEN then [] else
      let p := Z.to_nat pos in
      if (length content <? p + HEADER_LEN)%nat then [] else
      let hdr := slice p (p + HEADER_LEN) content in
      let plen := le_value (take 4 hdr) in
      let version := default 0 (hdr !! 4%nat) in
      match aof_op_from_u8 (default 0 (hdr !! 5%nat)) with
      | None => []
      | Some op =>
          let ts := i64_of_u64 (le_value (slice 8 16 hdr)) in
          if negb (version =? AOF_VERSION) || (durable <? pos + Z.of_nat HEADER_LEN + plen) then [] else
          let q := (p + HEADER_LEN)%nat in
          if (length content <? q + Z.to_nat plen)%nat then [] else
          Entry op ts (slice q (q + Z.to_nat plen) content)
            :: replay_loop fuel content (pos + Z.of_nat HEADER_LEN + plen) durable
      end
  end.
Definition aof_replay (a : Aof) : list AofEntry * Aof :=
  let a := aof_commit a in
  (replay_loop (S (length (file a))) (file a) 0 (committed a), a).

(** The tests of the source: a basic round trip, and a torn tail. *)
Example append_and_replay :
  let a := aof_open [] Always in
  let '(_, a) := enqueue a AofCommand 100 (bs "SET a 1") in
  let '(_, a) := enqueue a AofCommand 200 (bs "INCR a") in
  fst (aof_replay (aof_open (file a) Never)) =
    [Entry AofCommand 100 (bs "SET a 1"); Entry AofCommand 200 (bs "INCR a")].
Proof. vm_compute. reflexivity. Qed.

Example torn_tail_is_ignored :
  let '(_, a) := enqueue (aof_open [] Always) AofCommand 1 (bs "hello") in
  let garbage := le_bytes 4 9999 ++ [AOF_VERSION; 1; 0; 0] ++ replicate 8 0 ++ bs "short" in
  fst (aof_replay (aof_open (file a ++ garbage) Never)) = [Entry AofCommand 1 (bs "hello")].
Proof. vm_compute. reflexivity. Qed.

(** ** Framing *)

Definition entry_ok (e : AofEntry) : Prop :=
  Z.of_nat (length (payload e)) < 2 ^ 32 /\ is_i64 (timestamp_ms e).
Definition encode (e : AofEntry) : bytes := aof_header (e_op e) (timestamp_ms e) (payload e) ++ payload e.
Definition encode_all (es : list AofEntry) : bytes := concat (map encode es).

Lemma length_aof_header op ts p : length (aof_header op ts p) = HEADER_LEN.
Proof. unfold aof_header. by rewrite !length_app, !length_le_bytes. Qed.

Lemma length_encode e : length (encode e) = (HEADER_LEN + length (payload e))%nat.
Proof. unfold encode. by rewrite length_app, length_aof_header. Qed.

Lemma encode_all_app es es' : encode_all (es ++ es') = encode_all es ++ encode_all es'.
Proof. unfold encode_all. by rewrite map_app, concat_app. Qed.

Lemma aof_op_roundtrip op : aof_op_from_u8 (aof_op_code op) = Some op.
Proof. by destruct op. Qed.

(** Reading the header and payload of an entry that is there in full. *)
Lemma aof_header_fields op ts p : Z.of_nat (length p) < 2 ^ 32 -> is_i64 ts ->
  let hdr := aof_header op ts p in
  le_value (take 4 hdr) = Z.of_nat (length p) /\ default 0 (hdr !! 4%nat) = AOF_VERSION /\
  default 0 (hdr !! 5%nat) = aof_op_code op /\ i64_of_u64 (le_value (slice 8 16 hdr)) = ts.
Proof.
  intros Hp Hts hdr. unfold hdr, aof_header. set (l4 := le_bytes 4 _). set (l8 := le_bytes 8 _).
  assert (H4 : length l4 = 4%nat) by apply length_le_bytes.
  assert (H8 : length l8 = 8%nat) by apply length_le_bytes.
  split; [|split; [|split]].
  - rewrite take_app_length' by done. unfold l4. apply le_value_small. lia.
  - rewrite lookup_app_r by lia. by rewrite H4.
  - rewrite lookup_app_r by lia. by rewrite H4.
  - unfold slice. rewrite drop_app_ge by lia. rewrite H4. change (drop (8 - 4) _) with l8. rewrite (take_ge l8) by (rewrite H8; lia).
    unfold l8. rewrite le_value_small, i64_of_u64_of_i64; [done|done|].
    pose proof (wrap64_range ts) as Hw. unfold is_u64, two64, u64_of_i64 in *. lia.
Qed.

Lemma slice_app_at {A} (pre l post : list A) p : p = length pre -> slice p (p + length l) (pre ++ l ++ post) = l.
Proof. intros ->. apply slice_app_middle. Qed.

Lemma replay_loop_entry fuel pre e post durable : entry_ok e ->
  Z.of_nat (length pre + length (encode e)) <= durable ->
  replay_loop (S fuel) (pre ++ encode e ++ post) (Z.of_nat (length pre)) durable =
    e :: replay_loop fuel (pre ++ encode e ++ post) (Z.of_nat (length (pre ++ encode e))) durable.
Proof.
  intros [Hp Hts] Hd. rewrite length_encode in Hd. set (n := length (payload e)) in *.
  destruct (aof_header_fields (e_op e) (timestamp_ms e) (payload e) Hp Hts) as (F1 & F2 & F3 & F4).
  set (hdr := aof_header _ _ _) in *. pose proof (length_aof_header (e_op e) (timestamp_ms e) (payload e)) as Hh.
  fold hdr in Hh. set (content := pre ++ encode e ++ post).
  assert (Hlen : length content = (length pre + (16 + n) + length post)%nat).
  { unfold content. rewrite !length_app, length_encode. unfold HEADER_LEN. fold n. lia. }
  assert (Hhdr : slice (length pre) (length pre + HEADER_LEN) content = hdr).
  { unfold content, encode. fold hdr. rewrite <- Hh, <- app_assoc. by apply slice_app_at. }
  assert (Hpay : slice (length pre + HEADER_LEN) (length pre + HEADER_LEN + n) content = payload e).
  { unfold content, encode. fold hdr.
    replace (pre ++ (hdr ++ payload e) ++ post) with ((pre ++ hdr) ++ payload e ++ post) by (by rewrite !app_assoc).
    apply slice_app_at. rewrite length_app, Hh. done. }
  unfold HEADER_LEN in *. cbn [replay_loop]. unfold HEADER_LEN.
  destruct (Z.ltb_spec durable (Z.of_nat (length pre) + Z.of_nat 16)); [lia|].
  rewrite Nat2Z.id. destruct (Nat.ltb_spec (length content) (length pre + 16)); [lia|].
  rewrite Hhdr, F1, F2, F3, F4, aof_op_roundtrip, Z.eqb_refl. cbn [negb orb]. fold n.
  destruct (Z.ltb_spec durable (Z.of_nat (length pre) + Z.of_nat 16 + Z.of_nat n)); [lia|].
  rewrite Nat2Z.id. destruct (Nat.ltb_spec (length content) (length pre + 16 + n)); [lia|].
  rewrite Hpay. f_equal; [by destruct e|]. f_equal. rewrite length_app, length_encode. unfold HEADER_LEN. fold n. lia.
Qed.

(** An entry that the durable prefix does not hold in full stops the replay. *)
Lemma replay_loop_torn fuel pre e post m durable : entry_ok e ->
  durable < Z.of_nat (length pre + length (encode e)) ->
  (durable < Z.of_nat (length pre + HEADER_LEN) \/ (HEADER_LEN <= m)%nat) ->
  replay_loop fuel (pre ++ take m (encode e) ++ post) (Z.of_nat (length pre)) durable = [].
Proof.
  intros [Hp Hts] Hd Hm. destruct fuel as [|fuel]; [done|]. cbn [replay_loop].
  rewrite length_encode in Hd.
  destruct (Z.ltb_spec durable (Z.of_nat (length pre) + Z.of_nat HEADER_LEN)); [done|].
  destruct Hm as [|Hm]; [lia|]. rewrite Nat2Z.id.
  destruct (length _ <? length pre + HEADER_LEN)%nat; [done|].
  destruct (aof_header_fields (e_op e) (timestamp_ms e) (payload e) Hp Hts) as (F1 & F2 & F3 & F4).
  pose proof (length_aof_header (e_op e) (timestamp_ms e) (payload e)) as Hh.
  assert (Hs : slice (length pre) (length pre + HEADER_LEN) (pre ++ take m (encode e) ++ post) =
    aof_header (e_op e) (timestamp_ms e) (payload e)).
  { unfold encode. rewrite take_app_ge by lia. rewrite Hh, <- Hh at 1. rewrite <- !app_assoc. by apply slice_app_at. }
  rewrite Hs, F1, F2, F3, aof_op_roundtrip, Z.eqb_refl. cbn [negb orb].
  destruct (Z.ltb_spec durable (Z.of_nat (length pre) + Z.of_nat HEADER_LEN + Z.of_nat (length (payload e)))); [done|lia].
Qed.

(** The replay of any prefix of a log: the entries it holds in full. *)
Lemma replay_prefix es : forall fuel pre n, Forall entry_ok es -> (n <= length (encode_all es))%nat ->
  (n < fuel)%nat ->
  exists k, replay_loop fuel (pre ++ take n (encode_all es)) (Z.of_nat (length pre)) (Z.of_nat (length pre + n)) = take k es /\
    (k <= length es)%nat /\ (length (encode_all (take k es)) <= n)%nat /\
    forall j, (j <= length es)%nat -> (length (encode_all (take j es)) <= n)%nat -> (j <= k)%nat.
Proof.
  induction es as [|e es IH]; intros fuel pre n Hes Hn Hf.
  { exists 0%nat. assert (n = 0)%nat as -> by (cbn in Hn; lia). destruct fuel; [lia|]. cbn [replay_loop].
    destruct (Z.ltb_spec (Z.of_nat (length pre + 0)) (Z.of_nat (length pre) + Z.of_nat HEADER_LEN));
      [by split_and!|unfold HEADER_LEN in *; lia]. }
  apply Forall_cons in Hes as [He Hes]. destruct fuel as [|fuel]; [lia|].
  change (encode_all (e :: es)) with (encode e ++ encode_all es) in *. rewrite length_app in Hn.
  destruct (Nat.le_gt_cases (length (encode e)) n) as [Hge|Hlt].
  - destruct (IH fuel (pre ++ encode e) (n - length (encode e))%nat Hes) as (k & E & Hk & Hl & Hmax);
      [lia|rewrite length_encode in *; unfold HEADER_LEN in *; lia|].
    rewrite take_app_ge by lia. rewrite replay_loop_entry by (done || lia).
    exists (S k). split; [|split; [simpl; lia|split]].
    + cbn [take]. f_equal. rewrite <- E. rewrite <- app_assoc. f_equal.
      rewrite length_app. lia.
    + cbn [take]. change (encode_all (e :: ?x)) with (encode e ++ encode_all x). rewrite length_app. lia.
    + intros [|j] Hj Hlj; [lia|]. cbn [take] in Hlj. change (encode_all (e :: ?x)) with (encode e ++ encode_all x) in Hlj.
      rewrite length_app in Hlj. pose proof (Hmax j ltac:(simpl in Hj; lia) ltac:(lia)). lia.
  - exists 0%nat. rewrite take_app_le by lia. split; [|split; [lia|split; [cbn; lia|]]].
    + rewrite <- (app_nil_r (take n (encode e))). apply replay_loop_torn; [done|lia|].
      rewrite !Nat2Z.inj_add. destruct (Nat.le_gt_cases HEADER_LEN n); [by right|left; lia].
    + intros [|j] Hj Hlj; [lia|]. cbn [take] in Hlj. change (encode_all (e :: ?x)) with (encode e ++ encode_all x) in Hlj.
      rewrite length_app in Hlj. lia.
Qed.

(** ** The log as a list of entries *)

(** [a] holds the entries [es], buffered or in the file. *)
Record aof_holds (a : Aof) (es : list AofEntry) : Prop := {
  ah_bytes : file a ++ buf a = encode_all es;
  ah_written : written a = Z.of_nat (length (file a));
  ah_committed : 0 <= committed a <= written a;
  ah_tail : aof_tail a = written a + Z.of_nat (length (buf a));
  ah_entries : Forall entry_ok es }.

Lemma file_write_end content data : file_write (length content) data content = content ++ data.
Proof.
  unfold file_write, splice. rewrite Nat.sub_diag, app_nil_r, take_ge by lia.
  rewrite drop_ge by lia. by rewrite app_nil_r.
Qed.

Lemma flush_buffer_holds a es : aof_holds a es ->
  aof_holds (flush_buffer a) es /\ buf (flush_buffer a) = [] /\ committed (flush_buffer a) = committed a /\
  mode (flush_buffer a) = mode a /\ aof_tail (flush_buffer a) = aof_tail a.
Proof.
  intros H. unfold flush_buffer. destruct (buf a) as [|x b] eqn:Eb; [by split_and!|].
  destruct H as [Hb Hw Hc Ht He].
  rewrite <- Eb in *. split; [|done]. split; cbn; try done; try lia.
  - rewrite Hw, Nat2Z.id, file_write_end, app_nil_r. exact Hb.
  - rewrite Hw, Nat2Z.id, file_write_end, length_app. lia.
Qed.

Lemma aof_commit_holds a es : aof_holds a es ->
  aof_holds (aof_commit a) es /\ buf (aof_commit a) = [] /\ file (aof_commit a) = encode_all es /\
  committed (aof_commit a) = Z.of_nat (length (encode_all es)) /\ mode (aof_commit a) = mode a.
Proof.
  intros H. destruct (flush_buffer_holds a es H) as ([Hb Hw Hc Ht He] & Hn & _ & Hm & _).
  unfold aof_commit. cbv zeta. rewrite Hn, app_nil_r in Hb.
  destruct (Z.ltb_spec (committed (flush_buffer a)) (written (flush_buffer a))).
  - split; [|by cbn; rewrite Hw, Hb]. split; cbn; try done; [by rewrite Hn, app_nil_r|lia].
  - split; [split; try done; by rewrite Hn, app_nil_r|]. split_and!; try done. rewrite <- Hb. lia.
Qed.

Lemma enqueue_holds a es op ts p end_ a' : aof_holds a es -> entry_ok (Entry op ts p) ->
  enqueue a op ts p = (end_, a') ->
  aof_holds a' (es ++ [Entry op ts p]) /\ end_ = Z.of_nat (length (encode_all (es ++ [Entry op ts p]))) /\
  mode a' = mode a /\ (mode a = Always -> committed a' = end_).
Proof.
  intros [Hb Hw Hc Ht He] Hok. unfold enqueue. cbv zeta. intros [= <- <-].
  set (a1 := MkAof _ _ _ _ _ _).
  assert (Hbytes : file a ++ (buf a ++ aof_header op ts p) ++ p = encode_all (es ++ [Entry op ts p])).
  { rewrite encode_all_app. unfold encode_all at 2. cbn [map concat]. rewrite app_nil_r. unfold encode.
    cbn [e_op timestamp_ms payload]. rewrite <- Hb, !app_assoc. done. }
  assert (H1 : aof_holds a1 (es ++ [Entry op ts p])).
  { split; cbn; try done. by apply Forall_app_2; [|apply Forall_singleton]. }
  assert (Hend : written a + Z.of_nat (length ((buf a ++ aof_header op ts p) ++ p)) =
    Z.of_nat (length (encode_all (es ++ [Entry op ts p])))).
  { rewrite <- Hbytes, (length_app (file a)), Hw. lia. }
  set (a2 := if _ <=? _ then flush_buffer a1 else a1).
  assert (H2 : aof_holds a2 (es ++ [Entry op ts p]) /\ mode a2 = mode a).
  { unfold a2. destruct (_ <=? _); [|done]. destruct (flush_buffer_holds a1 _ H1) as (? & _ & _ & ? & _). done. }
  destruct H2 as [H2 Hm2]. destruct (aof_commit_holds a2 _ H2) as (H3 & _ & _ & Hc3 & Hm3).
  rewrite Hm2. destruct (mode a) eqn:Em.
  - by split_and!.
  - by split_and!.
  - split_and!; try done; [congruence|]. intros _. by rewrite Hc3.
Qed.

(** The entries enqueued from [a], in order, and the end of each. *)
Fixpoint enqueue_all (a : Aof) (es : list AofEntry) : list Z * Aof :=
  match es with
  | [] => ([], a)
  | e :: es => let '(end_, a) := enqueue a (e_op e) (timestamp_ms e) (payload e) in
               let '(ends, a) := enqueue_all a es in (end_ :: ends, a)
  end.

Lemma enqueue_all_holds es : forall a es0 ends a', aof_holds a es0 -> Forall entry_ok es ->
  enqueue_all a es = (ends, a') ->
  aof_holds a' (es0 ++ es) /\ mode a' = mode a /\ length ends = length es /\
  forall j end_, ends !! j = Some end_ -> end_ = Z.of_nat (length (encode_all (es0 ++ take (S j) es))).
Proof.
  induction es as [|e es IH]; intros a es0 ends a' Ha Hes; cbn [enqueue_all].
  { intros [= <- <-]. rewrite app_nil_r. split_and!; try done. }
  apply Forall_cons in Hes as [He Hes]. destruct (enqueue a _ _ _) as [end1 a1] eqn:E1.
  destruct (enqueue_all a1 es) as [ends1 a2] eqn:E2. intros [= <- <-].
  assert (He' : entry_ok (Entry (e_op e) (timestamp_ms e) (payload e))) by exact He.
  destruct (enqueue_holds a es0 _ _ _ end1 a1 Ha He' E1) as (H1 & Hend & Hm & _).
  destruct (IH _ _ _ _ H1 Hes E2) as (H2 & Hm2 & Hlen & Hj). destruct e as [op ts p]. cbn [e_op timestamp_ms payload] in *.
  rewrite <- app_assoc in H2. split; [exact H2|]. split; [congruence|]. split; [simpl; lia|].
  intros [|j] end_; cbn [lookup list_lookup take].
  - by intros [= <-].
  - intros Hl. rewrite (Hj j end_ Hl), <- app_assoc. done.
Qed.

Lemma aof_open_holds content mode es : content = encode_all es -> Forall entry_ok es ->
  aof_holds (aof_open content mode) es.
Proof. intros -> He. split; cbn; try done; [by rewrite app_nil_r|lia|lia]. Qed.

Lemma wait_holds a end_ a' es : aof_holds a es -> wait_committed a end_ = Some a' -> aof_holds a' es.
Proof.
  intros Ha. unfold wait_committed. destruct (end_ <=? committed a); [by intros [= <-]|].
  destruct (committed (aof_commit a) <? end_); [done|]. intros [= <-]. by apply aof_commit_holds.
Qed.
(** The entries [es] reach the log, if there is one. *)
Definition log_grows (a a' : option Aof) (es : list AofEntry) : Prop :=
  match a, a' with
  | None, None => True
  | Some a, Some a' => forall es0, aof_holds a es0 -> Forall entry_ok es -> aof_holds a' (es0 ++ es)
  | _, _ => False
  end.
Lemma log_grows_refl a : log_grows a a [].
Proof. destruct a; [|done]. intros es0 H _. by rewrite app_nil_r. Qed.
Lemma log_grows_trans a1 a2 a3 es es' : log_grows a1 a2 es -> log_grows a2 a3 es' -> log_grows a1 a3 (es ++ es').
Proof.
  destruct a1, a2, a3; try done. intros H1 H2 es0 H0 [He He']%Forall_app. rewrite app_assoc. eauto.
Qed.

(** The same, with what else a log keeps: its mode, and with [Always] nothing
    stays in the buffer. *)
Record logs (a a' : option Aof) (es : list AofEntry) : Prop := {
  lg_grows : log_grows a a' es;
  lg_mode : mode <$> a' = mode <$> a;
  lg_buffer : forall x x', a = Some x -> a' = Some x' -> mode x = Always -> buf x = [] -> buf x' = [] }.
Lemma logs_refl a : logs a a [].
Proof. split; [apply log_grows_refl|done|by intros x x' -> [= <-]]. Qed.

Lemma logs_trans a1 a2 a3 es es' : logs a1 a2 es -> logs a2 a3 es' -> logs a1 a3 (es ++ es').
Proof.
  intros [Hg Hm Hb] [Hg' Hm' Hb']. split; [by eapply log_grows_trans|congruence|]. intros x x' Ex Ex' Ha Hx. subst a1 a3.
  destruct a2 as [y|]; [|done]. cbn in Hm. injection Hm as Hm. apply (Hb' y x'); [done|done|congruence|]. by apply (Hb x y).
Qed.

Lemma logs_absent a es es' : logs a None es -> logs a None es'.
Proof. intros [Hg Hm _]. destruct a; [done|]. by split. Qed.

Lemma flush_buffer_end a : buf (flush_buffer a) = [] /\ written (flush_buffer a) = written a + Z.of_nat (length (buf a)) /\
  committed (flush_buffer a) = committed a /\ mode (flush_buffer a) = mode a.
Proof. unfold flush_buffer. destruct (buf a) eqn:E; cbn; [rewrite E; split_and!; [done|lia|done..]|done]. Qed.
Lemma aof_commit_end a : committed a <= written a -> committed (aof_commit a) = written a + Z.of_nat (length (buf a)) /\
  written (aof_commit a) = written a + Z.of_nat (length (buf a)) /\ mode (aof_commit a) = mode a /\ buf (aof_commit a) = [].
Proof.
  intros Hc. destruct (flush_buffer_end a) as (E1 & E2 & E3 & E4). unfold aof_commit.
  destruct (Z.ltb_spec (committed (flush_buffer a)) (written (flush_buffer a))); cbn [committed written mode buf]; split_and!; try done; lia.
Qed.
Lemma aof_commit_mode a : mode (aof_commit a) = mode a /\ buf (aof_commit a) = [].
Proof. unfold aof_commit. destruct (flush_buffer_end a) as (E1 & _ & _ & E4). by destruct (_ <? _). Qed.
Lemma enqueue_mode a op ts p end_ a' : enqueue a op ts p = (end_, a') -> mode a' = mode a /\ (mode a = Always -> buf a' = []).
Proof.
  unfold enqueue. cbv zeta. set (x := MkAof _ _ _ _ _ _). set (y := if _ <=? _ then flush_buffer x else x).
  assert (Em : mode y = mode a). { unfold y. destruct (_ <=? _); [|done]. by destruct (flush_buffer_end x) as (_ & _ & _ & ->). }
  clearbody y. intros [= _ <-]. destruct (aof_commit_mode y) as [E1 E2]. rewrite Em. by destruct (mode a) eqn:Ea; split; try congruence.
Qed.
Lemma logs_append a0 a es op ts p end_ a1 a2 : logs a0 (Some a) es -> enqueue a op ts p = (end_, a1) ->
  a2 = a1 \/ wait_committed a1 end_ = Some a2 -> logs a0 (Some a2) (es ++ [Entry op ts p]).
Proof.
  intros [Hg Hm Hb] E H2. destruct (enqueue_mode _ _ _ _ _ _ E) as [Em1 Eb1].
  assert (Hmode : mode a2 = mode a1 /\ (buf a1 = [] -> buf a2 = [])).
  { destruct H2 as [->|H2]; [done|]. unfold wait_committed in H2. destruct (_ <=? _); [by injection H2 as <-|].
    destruct (_ <? _); [done|]. injection H2 as <-. by destruct (aof_commit_mode a1). }
  destruct Hmode as [Em2 Eb2]. destruct a0 as [x|]; [|done]. cbn in Hm. injection Hm as Hm. split.
  - intros es0 H0 [He [He' _]%Forall_cons]%Forall_app. specialize (Hg es0 H0 He).
    destruct (enqueue_holds a _ _ _ _ _ _ Hg He' E) as (H1 & _). rewrite app_assoc.
    destruct H2 as [->|H2]; [done|by eapply wait_holds].
  - cbn. congruence.
  - intros ? ? [= <-] [= <-] Ha _. apply Eb2, Eb1. congruence.
Qed.

(** A reopened file is replayed as it is. *)
Lemma reopened_replay es n md : Forall entry_ok es -> (n <= length (encode_all es))%nat ->
  exists k, aof_replay (aof_open (take n (encode_all es)) md) = (take k es, aof_open (take n (encode_all es)) md) /\
    forall j, (j <= length es)%nat -> (length (encode_all (take j es)) <= n)%nat -> (j <= k)%nat.
Proof.
  intros Hes Hn. set (c := take n (encode_all es)). assert (Hlc : length c = n) by (unfold c; rewrite length_take; lia).
  assert (Eo : aof_commit (aof_open c md) = aof_open c md).
  { unfold aof_commit, aof_open, flush_buffer. cbn [buf committed written]. by rewrite Z.ltb_irrefl. }
  destruct (replay_prefix es (S n) [] n Hes Hn) as (k & Er & _ & _ & Hmax); [lia|].
  simpl app in Er. simpl length in Er. change (Z.of_nat 0) with 0 in Er. rewrite Nat.add_0_l in Er. fold c in Er.
  exists k. split; [|exact Hmax]. unfold aof_replay. rewrite Eo. cbn [aof_open file committed]. by rewrite Hlc, Er.
Qed.

(** C37. Whatever the commit mode, what is enqueued is what a replay hands out,
    in order; and after a crash that leaves the file with any prefix of what
    was handed to the OS that includes the committed part, a replay of the
    reopened file hands out a prefix of the entries, missing none whose end had
    been committed and none the file still holds in full. *)
Theorem aof_replay_recovers_prefix es md ends a n md' : Forall entry_ok es ->
  enqueue_all (aof_open [] md) es = (ends, a) ->
  fst (aof_replay a) = es /\
  (committed a <= Z.of_nat n <= written a ->
   exists k, fst (aof_replay (aof_open (take n (file a)) md')) = take k es /\
     forall j end_, ends !! j = Some end_ -> end_ <= Z.of_nat n -> (S j <= k)%nat).
Proof.
  intros Hes E. destruct (enqueue_all_holds es _ [] ends a (aof_open_holds [] md [] eq_refl (Forall_nil_2 _)) Hes E)
    as (Ha & _ & Hlen & Hends). simpl app in *.
  split.
  - destruct (aof_commit_holds a es Ha) as (_ & _ & Ef & Ec & _). unfold aof_replay. cbn [fst]. rewrite Ef, Ec.
    destruct (replay_prefix es (S (length (encode_all es))) [] (length (encode_all es)) Hes) as (k & Er & Hk & _ & Hmax);
      [done|lia|].
    rewrite take_ge in Er by lia. simpl app in Er. change (Z.of_nat (length [])) with 0 in Er.
    simpl length in Er. rewrite Nat.add_0_l in Er. rewrite Er. apply take_ge.
    apply Hmax; [done|]. by rewrite take_ge.
  - intros Hn. destruct Ha as [Hb Hw Hc _ _].
    assert (Hfile : take n (file a) = take n (encode_all es)) by (rewrite <- Hb, take_app_le by lia; done).
    assert (Hn' : (n <= length (encode_all es))%nat) by (rewrite <- Hb, length_app; lia).
    rewrite Hfile. destruct (reopened_replay es n md' Hes Hn') as (k & -> & Hmax).
    exists k. split; [done|]. intros j end_ Hj Hle. rewrite (Hends j end_ Hj) in Hle.
    assert (Hjl : (j < length ends)%nat) by by eapply lookup_lt_Some.
    apply Hmax; lia.
Qed.

Definition sample_entries : list AofEntry :=
  [Entry AofCommand 100 (bs "SET a 1"); Entry TxnStart 150 []; Entry AofCommand (-1) (bs "INCR a")].

Lemma aof_replay_recovers_prefix_witness : exists ends a,
  enqueue_all (aof_open [] Always) sample_entries = (ends, a) /\ fst (aof_replay a) = sample_entries /\
  exists k, fst (aof_replay (aof_open (take 61 (file a)) Never)) = take k sample_entries /\ (3 <= k)%nat.
Proof.
  destruct (enqueue_all (aof_open [] Always) sample_entries) as [ends a] eqn:E.
  assert (Hes : Forall entry_ok sample_entries) by (repeat constructor; vm_compute; done).
  destruct (aof_replay_recovers_prefix sample_entries Always ends a 61 Never Hes E) as [H1 H2].
  exists ends, a. split; [done|]. split; [exact H1|].
  vm_compute in E. injection E as <- <-.
  destruct (H2 ltac:(vm_compute; split; intros [=])) as (k & Hk & H3). clear H2. rename Hk into H2.
  exists k. split; [exact H2|]. by apply (H3 2%nat 61); [|vm_compute].
Defined.

(** ** Two ways to lose entries *)

Lemma encode_pos e : (HEADER_LEN <= length (encode e))%nat.
Proof. rewrite length_encode. lia. Qed.

(** Appending to a reopened file and waiting for the commit. *)
Lemma enqueue_reopened c0 md op ts p end_ a : enqueue (aof_open c0 md) op ts p = (end_, a) ->
  exists a', wait_committed a end_ = Some a' /\ aof_commit a' = a' /\
    file a' = c0 ++ aof_header op ts p ++ p /\ committed a' = end_ /\ end_ = Z.of_nat (length (file a')).
Proof.
  set (d := aof_header op ts p ++ p). set (n0 := Z.of_nat (length c0)). set (n1 := n0 + Z.of_nat (length d)).
  assert (Hpos : n0 < n1) by (unfold n1, d; rewrite length_app, length_aof_header; unfold HEADER_LEN; lia).
  assert (Hn1 : n1 = Z.of_nat (length (c0 ++ d))) by (rewrite length_app; lia).
  assert (Hflush : flush_buffer (MkAof c0 d n0 n0 n1 md) = MkAof (c0 ++ d) [] n1 n0 n1 md).
  { unfold flush_buffer. cbn [buf file written committed aof_tail mode].
    destruct d as [|x d'] eqn:Ed; [unfold n1 in Hpos; simpl in Hpos; lia|]. rewrite <- Ed. unfold n0.
    rewrite Nat2Z.id, file_write_end. unfold n1, n0. by rewrite Ed. }
  assert (Hnop : forall x, flush_buffer (MkAof (c0 ++ d) [] n1 x n1 md) = MkAof (c0 ++ d) [] n1 x n1 md) by done.
  set (a1 := MkAof (c0 ++ d) [] n1 n1 n1 md).
  assert (H1 : aof_commit (MkAof c0 d n0 n0 n1 md) = a1 /\ aof_commit (MkAof (c0 ++ d) [] n1 n0 n1 md) = a1 /\ aof_commit a1 = a1).
  { unfold aof_commit, a1. rewrite Hflush, !Hnop. cbn [committed written file buf aof_tail mode].
    destruct (Z.ltb_spec n0 n1); [|lia]. by rewrite Z.ltb_irrefl. }
  destruct H1 as (H1 & H2 & H3).
  unfold enqueue, aof_open. cbn [buf file written committed mode]. cbv zeta.
  rewrite app_nil_l. fold d n0 n1.
  intros H. assert (Hend : end_ = n1) by congruence.
  exists a1. rewrite Hend. split; [|split; [exact H3|split; [done|split; [done|exact Hn1]]]]. injection H as _ <-.
  assert (Hw0 : wait_committed (MkAof c0 d n0 n0 n1 md) n1 = Some a1 /\
    wait_committed (MkAof (c0 ++ d) [] n1 n0 n1 md) n1 = Some a1 /\ wait_committed a1 n1 = Some a1).
  { unfold wait_committed. rewrite H1, H2. unfold a1. cbn [committed].
    destruct (Z.leb_spec n1 n0); [lia|]. by rewrite Z.leb_refl, Z.ltb_irrefl. }
  destruct Hw0 as (Hw1 & Hw2 & Hw3). destruct (BUFFER_LIMIT <=? _); destruct md; rewrite ?Hflush, ?H1, ?H2; done.
Qed.

(** Behind a torn entry that claims more bytes than there are, nothing is read. *)
Lemma replay_hidden e m e' : entry_ok e -> (HEADER_LEN <= m)%nat -> (m + length (encode e') < length (encode e))%nat ->
  forall es fuel pre, Forall entry_ok es -> (length es < fuel)%nat ->
  replay_loop fuel (pre ++ encode_all es ++ take m (encode e) ++ encode e') (Z.of_nat (length pre))
    (Z.of_nat (length (pre ++ encode_all es ++ take m (encode e) ++ encode e'))) = es.
Proof.
  intros He Hm Hlen. induction es as [|x es IH]; intros fuel pre Hes Hf.
  - simpl app. apply replay_loop_torn; [done| |by right]. rewrite !length_app, length_take. lia.
  - apply Forall_cons in Hes as [Hx Hes]. destruct fuel as [|fuel]; [simpl in Hf; lia|].
    change (encode_all (x :: es)) with (encode x ++ encode_all es). rewrite <- (app_assoc (encode x)).
    rewrite replay_loop_entry by (done || rewrite !length_app; lia). f_equal.
    rewrite !(app_assoc pre (encode x)). apply IH; [done|simpl in Hf; lia].
Qed.

Lemma length_encode_all es : (length es <= length (encode_all es))%nat.
Proof.
  induction es as [|x es IH]; [done|]. change (encode_all (x :: es)) with (encode x ++ encode_all es).
  rewrite length_app, length_encode. unfold HEADER_LEN. simpl. lia.
Qed.

(** C39. A torn entry is not cut off when the file is reopened: what is appended
    after it, committed or not, is behind an entry that claims more bytes than
    there are, and is not replayed until the log has grown past that claim (the
    module comment promises only that a torn tail is ignored). *)
Theorem torn_tail_hides_later_entries es e m e' md : Forall entry_ok es -> entry_ok e ->
  (HEADER_LEN <= m)%nat -> (m + length (encode e') < length (encode e))%nat ->
  let a := aof_open (encode_all es ++ take m (encode e)) md in
  let '(end_, a) := enqueue a (e_op e') (timestamp_ms e') (payload e') in
  exists a', wait_committed a end_ = Some a' /\ end_ <= committed a' /\ fst (aof_replay a') = es.
Proof.
  intros Hes He Hm Hlen a0. destruct (enqueue a0 _ _ _) as [end_ a] eqn:E.
  destruct (enqueue_reopened _ _ _ _ _ _ _ E) as (a' & Hw & Hid & Hf & Hc & Hl). fold (encode e') in Hf.
  exists a'. split; [done|]. split; [lia|]. unfold aof_replay. rewrite Hid. cbn [fst]. rewrite Hc, Hl, Hf, <- app_assoc.
  apply (replay_hidden e m e' He Hm Hlen es _ []); [done|].
  pose proof (length_encode_all es). rewrite !length_app. lia.
Qed.

Lemma torn_tail_hides_later_entries_witness :
  let torn := Entry AofCommand 5 (replicate 100 65) in let later := Entry AofCommand 7 (bs "SET a 2") in
  let a := aof_open (encode_all sample_entries ++ take 20 (encode torn)) Always in
  let '(end_, a) := enqueue a (e_op later) (timestamp_ms later) (payload later) in
  exists a', wait_committed a end_ = Some a' /\ end_ <= committed a' /\ fst (aof_replay a') = sample_entries.
Proof.
  apply (torn_tail_hides_later_entries sample_entries (Entry AofCommand 5 (replicate 100 65)) 20
    (Entry AofCommand 7 (bs "SET a 2")) Always); [repeat constructor; vm_compute; done|by vm_compute| |].
  - vm_compute. lia.
  - vm_compute. lia.
Defined.

(** C38. Waiting for an entry's commit ends at once, after a commit of one's
    own; but a truncation in between parks the waiter until the log has grown
    past an address that belongs to the log before the truncation. *)
Theorem commit_wait_ends_unless_truncated a es op ts p end_ a' : aof_holds a es -> entry_ok (Entry op ts p) ->
  enqueue a op ts p = (end_, a') ->
  (exists a'', wait_committed a' end_ = Some a'' /\ end_ <= committed a'' /\ fst (aof_replay a'') = es ++ [Entry op ts p]) /\
  wait_committed (aof_truncate a') end_ = None.
Proof.
  intros Ha Hok E. destruct (enqueue_holds a es op ts p end_ a' Ha Hok E) as (Ha' & Hend & _ & _).
  assert (Hrep : forall x, aof_holds x (es ++ [Entry op ts p]) -> fst (aof_replay x) = es ++ [Entry op ts p]).
  { intros x Hx. destruct (aof_commit_holds x _ Hx) as (_ & _ & Ef & Ec & _). unfold aof_replay. cbn [fst]. rewrite Ef, Ec.
    destruct (replay_prefix _ (S (length (encode_all (es ++ [Entry op ts p])))) [] (length (encode_all (es ++ [Entry op ts p])))
      (ah_entries _ _ Hx)) as (k & Er & Hk & _ & Hmax); [done|lia|].
    rewrite take_ge in Er by lia. simpl app in Er. simpl length in Er. change (Z.of_nat 0) with 0 in Er.
    rewrite Nat.add_0_l in Er. rewrite Er. apply take_ge. apply Hmax; [done|]. by rewrite take_ge. }
  destruct (aof_commit_holds a' _ Ha') as (Hc & _ & _ & Hcm & _). split.
  - unfold wait_committed. destruct (Z.leb_spec end_ (committed a')) as [Hle|Hgt].
    + exists a'. split; [done|]. split; [lia|by apply Hrep].
    + rewrite Hcm, <- Hend, Z.ltb_irrefl. exists (aof_commit a'). split; [done|]. split; [lia|by apply Hrep].
  - assert (0 < end_).
    { rewrite Hend, encode_all_app, length_app. unfold encode_all at 2. cbn [map concat].
      rewrite app_nil_r, length_encode. unfold HEADER_LEN. lia. }
    unfold wait_committed. cbn [aof_truncate committed]. destruct (Z.leb_spec end_ 0); [lia|].
    unfold aof_commit, flush_buffer, aof_truncate. cbn [buf written committed file]. rewrite Z.ltb_irrefl.
    cbn [committed]. destruct (Z.ltb_spec 0 end_); [done|lia].
Qed.

Lemma commit_wait_ends_unless_truncated_witness :
  let '(end_, a) := enqueue (aof_open [] (Interval 1000)) AofCommand 1 (bs "PING") in
  (exists a', wait_committed a end_ = Some a' /\ end_ <= committed a' /\
     fst (aof_replay a') = [Entry AofCommand 1 (bs "PING")]) /\ wait_committed (aof_truncate a) end_ = None.
Proof.
  destruct (enqueue (aof_open [] (Interval 1000)) AofCommand 1 (bs "PING")) as [end_ a] eqn:E.
  apply (commit_wait_ends_unless_truncated (aof_open [] (Interval 1000)) [] AofCommand 1 (bs "PING")); [|by vm_compute|done].
  by apply aof_open_holds.
Defined.
