(* ===== verification/Glob.v ===== *)
(** * Glob patterns ([crates/garnet/src/commands.rs])

    [glob_match], the matcher of KEYS and SCAN, with one level of backtracking,
    and the relation it decides. *)

From S2P Require Import Prelude.

Definition STAR : Z := 42.
Definition QUESTION : Z := 63.
Definition LBRACKET : Z := 91.
Definition BACKSLASH : Z := 92.
Definition RBRACKET : Z := 93.

(** [in_set]: single bytes and ranges. *)
Fixpoint in_set (fuel : nat) (set : bytes) (c : Z) (i : nat) : bool :=
  match fuel with
  | O => false
  | S fuel =>
      if (i <? length set)%nat then
        if (i + 2 <? length set)%nat && (default 0 (set !! (i + 1)%nat) =? 45) then
          if (default 0 (set !! i) <=? c) && (c <=? default 0 (set !! (i + 2)%nat)) then true
          else in_set fuel set c (i + 3)
        else if default 0 (set !! i) =? c then true
        else in_set fuel set c (i + 1)
      else false
  end.

(** The index of the bracket that closes a set, or the end of the pattern. *)
Fixpoint set_end (fuel : nat) (p : bytes) (j : nat) : nat :=
  match fuel with
  | O => j
  | S fuel => if (j <? length p)%nat && negb (default 0 (p !! j) =? RBRACKET) then set_end fuel p (j + 1) else j
  end.

(** One pattern element against one byte: where the pattern continues, if it
    matches.  Not for a star. *)
Definition match_one (p : bytes) (pi : nat) (c : Z) : option nat :=
  let x := default 0 (p !! pi) in
  if x =? QUESTION then Some (pi + 1)%nat
  else if x =? LBRACKET then
    let j := (pi + 1)%nat in
    let negate := (j <? length p)%nat && ((default 0 (p !! j) =? 94) || (default 0 (p !! j) =? 33)) in
    let set_start := if negate then (j + 1)%nat else j in
    let j := set_end (length p) p set_start in
    let set := slice set_start (Nat.min j (length p)) p in
    if xorb (in_set (S (length set)) set c 0) negate then Some (j + 1)%nat else None
  else if (x =? BACKSLASH) && (pi + 1 <? length p)%nat then
    if default 0 (p !! (pi + 1)%nat) =? c then Some (pi + 2)%nat else None
  else if x =? c then Some (pi + 1)%nat else None.

(** The trailing stars. *)
Fixpoint skip_stars (fuel : nat) (p : bytes) (pi : nat) : nat :=
  match fuel with
  | O => pi
  | S fuel => if (pi <? length p)%nat && (default 0 (p !! pi) =? STAR) then skip_stars fuel p (pi + 1) else pi
  end.

(** The loop of [helper]; [None] is exhausted fuel. *)
Fixpoint glob_loop (fuel : nat) (p s : bytes) (pi si : nat) (star : option (nat * nat)) : option bool :=
  match fuel with
  | O => None
  | S fuel =>
      if (si <? length s)%nat then
        let backtrack :=
          match star with
          | Some (sp, ss) => glob_loop fuel p s (sp + 1) (ss + 1) (Some (sp, (ss + 1)%nat))
          | None => Some false
          end in
        if (pi <? length p)%nat then
          if default 0 (p !! pi) =? STAR then glob_loop fuel p s (pi + 1) si (Some (pi, si))
          else match match_one p pi (default 0 (s !! si)) with
               | Some pi => glob_loop fuel p s pi (si + 1) star
               | None => backtrack
               end
        else backtrack
      else Some (skip_stars (length p) p pi =? length p)%nat
  end.
Definition glob_fuel (p s : bytes) : nat := (S (S (length p)) * S (S (length s)) * S (S (S (length p))))%nat.
Definition glob_match (p s : bytes) : bool := default false (glob_loop (glob_fuel p s) p s 0 0 None).

Example glob_samples :
  map (fun '(p, s) => glob_match (bs p) (bs s))
    [("*"%string, "anything"%string); ("user:*", "user:42"); ("h?llo", "hello"); ("h[ae]llo", "hillo");
     ("h[^e]llo", "hallo"); ("a*b*c", "axxbyyc"); ("a*b*c", "axxbyy"); ("[a-c]x", "bx"); ("\*", "*"); ("[a", "a")]%string
  = [true; true; true; false; true; true; false; true; true; false].
Proof. vm_compute. reflexivity. Qed.

(** ** What a pattern means *)

(** [glob p pi s]: the pattern from position [pi] on matches all of [s]. *)
Inductive glob (p : bytes) : nat -> bytes -> Prop :=
| glob_end : glob p (length p) []
| glob_star_none pi s : p !! pi = Some STAR -> glob p (pi + 1) s -> glob p pi s
| glob_star_more pi c s : p !! pi = Some STAR -> glob p pi s -> glob p pi (c :: s)
| glob_one pi pi' c s x : p !! pi = Some x -> x <> STAR -> match_one p pi c = Some pi' -> glob p pi' s -> glob p pi (c :: s).

(** ** The matcher decides the relation *)

Lemma set_end_bounds fuel p j : (j <= set_end fuel p j <= Nat.max j (length p))%nat.
Proof.
  revert j. induction fuel as [|fuel IH]; intros j; cbn [set_end]; [lia|].
  destruct (Nat.ltb_spec j (length p)); cbn [andb]; [|lia].
  destruct (negb _); [|lia]. specialize (IH (j + 1)%nat). lia.
Qed.

(** Where the pattern continues does not depend on the byte. *)
Definition next_pos (p : bytes) (pi : nat) : nat :=
  let x := default 0 (p !! pi) in
  if x =? QUESTION then (pi + 1)%nat
  else if x =? LBRACKET then
    let j := (pi + 1)%nat in
    let negate := (j <? length p)%nat && ((default 0 (p !! j) =? 94) || (default 0 (p !! j) =? 33)) in
    (set_end (length p) p (if negate then j + 1 else j) + 1)%nat
  else if (x =? BACKSLASH) && (pi + 1 <? length p)%nat then (pi + 2)%nat else (pi + 1)%nat.

Lemma match_one_next p pi c pi' : match_one p pi c = Some pi' -> pi' = next_pos p pi.
Proof.
  unfold match_one, next_pos. destruct (_ =? QUESTION); [by intros [= <-]|].
  destruct (_ =? LBRACKET); [cbv zeta; destruct (xorb _ _); [by intros [= <-]|done]|].
  destruct (_ && _); destruct (_ =? c); by intros [= <-].
Qed.

Lemma next_pos_bounds p pi : (pi < length p)%nat -> (pi < next_pos p pi <= length p + 1)%nat.
Proof.
  intros Hpi. unfold next_pos. destruct (_ =? QUESTION); [lia|]. destruct (_ =? LBRACKET).
  - cbv zeta. destruct (Nat.ltb_spec (pi + 1) (length p)); cbn [andb].
    + destruct (_ || _); match goal with |- context [set_end ?f p ?j] => pose proof (set_end_bounds f p j) end; lia.
    + pose proof (set_end_bounds (length p) p (pi + 1)). lia.
  - destruct (Nat.ltb_spec (pi + 1) (length p)); rewrite ?andb_false_r, ?andb_true_r; [destruct (_ =? BACKSLASH)|]; lia.
Qed.

Section Matcher.
Variables p s : bytes.

(** [run pi si pi' si']: elements without a star, one byte each. *)
Inductive run (pi0 si0 : nat) : nat -> nat -> Prop :=
| run_refl : run pi0 si0 pi0 si0
| run_step pi si x c pi' : run pi0 si0 pi si -> p !! pi = Some x -> x <> STAR -> s !! si = Some c ->
    match_one p pi c = Some pi' -> run pi0 si0 pi' (S si).

Lemma run_bounds pi0 si0 pi si : run pi0 si0 pi si -> (pi0 <= length p + 1)%nat ->
  (pi0 <= pi <= length p + 1)%nat /\ (si0 <= si)%nat /\ (si0 <= length s -> si <= length s)%nat.
Proof.
  induction 1 as [|pi si x c pi' _ IH Hx _ Hc Hm]; [lia|]. intros H0. destruct (IH H0) as (? & ? & ?).
  apply match_one_next in Hm as ->. apply lookup_lt_Some in Hx, Hc. pose proof (next_pos_bounds p pi Hx). lia.
Qed.

Lemma drop_lookup si c : s !! si = Some c -> drop si s = c :: drop (S si) s.
Proof. apply drop_S. Qed.

(** A match from the start of a run is a match from its end. *)
Lemma run_glob pi0 si0 pi si : run pi0 si0 pi si -> glob p pi0 (drop si0 s) <-> glob p pi (drop si s).
Proof.
  induction 1 as [|pi si x c pi' Hr IH Hx Hs Hc Hm]; [done|]. rewrite IH, (drop_lookup _ _ Hc). split.
  - intros H. inversion H; subst; simplify_eq. done.
  - intros H. by eapply glob_one.
Qed.

(** A run can only be replayed elsewhere in the string position by position. *)
Lemma run_shift pi0 si0 pi si t : run pi0 si0 pi si -> glob p pi0 t ->
  exists t1 t2, t = t1 ++ t2 /\ length t1 = (si - si0)%nat /\ glob p pi t2.
Proof.
  intros Hr Hg. induction Hr as [|pi si x c pi' Hr IH Hx Hs Hc Hm].
  - exists [], t. split; [done|]. split; [simpl; lia|done].
  - destruct IH as (t1 & t2 & -> & Hl & H2).
    assert (Hsi : (si0 <= si)%nat) by (clear -Hr; induction Hr; lia).
    inversion H2 as [El|? ? E|? ? ? E|? pi1 c1 t3 x1 E1 E2 E3 E4]; subst; simplify_eq.
    + apply lookup_lt_Some in Hx. lia.
    + exists (t1 ++ [c1]), t3. rewrite <- app_assoc. split; [done|]. split; [rewrite length_app; simpl; lia|].
      apply match_one_next in Hm as ->. by apply match_one_next in E3 as ->.
Qed.

Lemma glob_star_inv sp t : p !! sp = Some STAR -> glob p sp t -> exists t1 t2, t = t1 ++ t2 /\ glob p (sp + 1) t2.
Proof.
  intros Hsp H. remember sp as q eqn:Eq. revert Hsp Eq.
  induction H as [|pi t E H _|pi c t E H IH|pi pi' c t x E Hx Hm H _]; intros Hsp Eq; subst; simplify_eq.
  - apply lookup_lt_Some in Hsp. lia.
  - by exists [], t.
  - destruct (IH Hsp eq_refl) as (t1 & t2 & -> & H2). by exists (c :: t1), t2.
Qed.

Lemma glob_star_app sp t1 t2 : p !! sp = Some STAR -> glob p sp t2 -> glob p sp (t1 ++ t2).
Proof. intros Hsp H. induction t1 as [|c t1 IH]; [done|]. by apply glob_star_more. Qed.

(** Reaching a second star, the first need not be revisited. *)
Lemma star_forget sp ss pi si : p !! sp = Some STAR -> run (sp + 1) ss pi si -> p !! pi = Some STAR ->
  glob p sp (drop ss s) <-> glob p pi (drop si s).
Proof.
  intros Hsp Hr Hpi. split.
  - intros (t1 & t2 & E & H)%glob_star_inv; [|done]. destruct (run_shift _ _ _ _ _ Hr H) as (t3 & t4 & -> & Hl & H4).
    assert (Hd : drop si s = drop (si - ss) (drop ss s)).
    { rewrite drop_drop. f_equal. pose proof (run_bounds _ _ _ _ Hr). apply lookup_lt_Some in Hsp. lia. }
    rewrite Hd, E, app_assoc. rewrite drop_app_le by (rewrite length_app; lia).
    by apply glob_star_app.
  - intros H. apply glob_star_none; [done|]. by apply (run_glob _ _ _ _ Hr).
Qed.

(** At the end of the string only the current attempt is left. *)
Lemma star_end sp ss pi si : p !! sp = Some STAR -> run (sp + 1) ss pi si -> si = length s ->
  glob p sp (drop ss s) <-> glob p pi [].
Proof.
  intros Hsp Hr ->. pose proof (run_bounds _ _ _ _ Hr) as Hb. pose proof (lookup_lt_Some _ _ _ Hsp).
  destruct Hb as (Hb1 & Hb2 & _); [lia|].
  assert (Hnil : drop (length s) s = []) by (apply drop_ge; lia). split.
  - intros (t1 & t2 & E & H2)%glob_star_inv; [|done]. destruct (run_shift _ _ _ _ _ Hr H2) as (t3 & t4 & -> & Hl & H4).
    apply (f_equal length) in E. rewrite length_drop, !length_app in E. by destruct t4; [|simpl in E; lia].
  - intros H4. apply glob_star_none; [done|]. apply (run_glob _ _ _ _ Hr). by rewrite Hnil.
Qed.

Lemma skip_stars_glob fuel pi : (length p <= pi + fuel)%nat ->
  (skip_stars fuel p pi =? length p)%nat = true <-> glob p pi [].
Proof.
  revert pi. induction fuel as [|fuel IH]; intros pi Hf; cbn [skip_stars].
  - rewrite Nat.eqb_eq. split; [intros ->; constructor|]. inversion 1; subst; [done|].
    match goal with H : p !! _ = Some _ |- _ => apply lookup_lt_Some in H end. lia.
  - destruct (Nat.ltb_spec pi (length p)) as [Hlt|Hge]; cbn [andb].
    + destruct (lookup_lt_is_Some_2 _ _ Hlt) as [x Hx]. rewrite Hx. cbn [default from_option id].
      destruct (Z.eqb_spec x STAR) as [->|Hne].
      * rewrite IH by lia. split; [intros; by apply glob_star_none|].
        inversion 1; subst; [lia|done].
      * rewrite Nat.eqb_eq. split; [lia|]. inversion 1; subst; [done|]. congruence.
    + rewrite Nat.eqb_eq. split; [intros ->; constructor|]. inversion 1; subst; [done|].
      match goal with H : p !! _ = Some _ |- _ => apply lookup_lt_Some in H end. lia.
Qed.

(** The loop's state: what it still has to decide, and its measure. *)
Definition star_ok (star : option (nat * nat)) (pi si : nat) : Prop :=
  match star with
  | Some (sp, ss) => p !! sp = Some STAR /\ (ss <= length s)%nat /\ run (sp + 1) ss pi si
  | None => run 0 0 pi si
  end.
Definition goal_of (star : option (nat * nat)) : Prop :=
  match star with Some (sp, ss) => glob p sp (drop ss s) | None => glob p 0 s end.
Definition measure (star : option (nat * nat)) (pi : nat) : nat :=
  let '(a, b) := match star with Some (sp, ss) => (length p - sp, length s + 1 - ss)%nat
                                | None => (length p + 1, length s + 1)%nat end in
  (a * ((length s + 2) * (length p + 3)) + b * (length p + 3) + (length p + 2 - pi))%nat.

(** A failed element: the attempt is over. *)
Lemma attempt_fails star pi si : star_ok star pi si -> (si < length s)%nat -> ~ glob p pi (drop si s) ->
  match star with
  | Some (sp, ss) => goal_of star <-> goal_of (Some (sp, (ss + 1)%nat))
  | None => ~ goal_of star
  end.
Proof.
  intros Hs Hsi Hno. destruct star as [[sp ss]|]; simpl in *.
  - destruct Hs as (Hsp & Hss & Hr). pose proof (run_bounds _ _ _ _ Hr) as Hb. pose proof (lookup_lt_Some _ _ _ Hsp).
    destruct Hb as (_ & Hb & _); [lia|]. destruct (lookup_lt_is_Some_2 s ss) as [c Hc]; [lia|].
    rewrite (drop_lookup _ _ Hc). replace (ss + 1)%nat with (S ss) by lia. split.
    + inversion 1; subst; simplify_eq; [|done]. exfalso. apply Hno, (run_glob _ _ _ _ Hr).
      by rewrite (drop_lookup _ _ Hc).
    + intros HH. by apply glob_star_more.
  - intros H. apply Hno. by apply (run_glob _ _ _ _ Hs).
Qed.

Lemma glob_loop_spec fuel : forall pi si star, star_ok star pi si -> (pi <= length p + 1)%nat -> (si <= length s)%nat ->
  (measure star pi < fuel)%nat ->
  exists b, glob_loop fuel p s pi si star = Some b /\ (b = true <-> goal_of star).
Proof.
  induction fuel as [|fuel IH]; intros pi si star Hs Hpi Hsi Hm; [lia|]. cbn [glob_loop].
  destruct (Nat.ltb_spec si (length s)) as [Hlt|Hge].
  2: { eexists. split; [reflexivity|]. rewrite skip_stars_glob by lia.
       destruct star as [[sp ss]|]; simpl in *.
       - symmetry. apply (star_end sp ss pi si); [apply Hs..|lia].
       - pose proof (run_glob _ _ _ _ Hs) as Hg. rewrite drop_0 in Hg. rewrite Hg, (drop_ge s) by lia. done. }
  assert (Hback : ~ glob p pi (drop si s) ->
    exists b, match star with
              | Some (sp, ss) => glob_loop fuel p s (sp + 1) (ss + 1) (Some (sp, (ss + 1)%nat))
              | None => Some false
              end = Some b /\ (b = true <-> goal_of star)).
  { intros Hno. pose proof (attempt_fails star pi si Hs Hlt Hno) as Hf. destruct star as [[sp ss]|].
    - destruct Hs as (Hsp & Hss & Hr). pose proof (lookup_lt_Some _ _ _ Hsp). pose proof (run_bounds _ _ _ _ Hr) as Hb.
      destruct Hb as (_ & Hb & _); [lia|].
      destruct (IH (sp + 1)%nat (ss + 1)%nat (Some (sp, (ss + 1)%nat))) as (b & E & Hb'); [|lia|lia| |].
      + split; [done|]. split; [lia|constructor].
      + unfold measure in *. nia.
      + exists b. split; [exact E|]. by rewrite Hb'.
    - exists false. split; [done|]. split; [done|]. intros H. by apply Hf in H. }
  destruct (Nat.ltb_spec pi (length p)) as [Hpl|Hpl].
  2: { apply Hback. destruct (lookup_lt_is_Some_2 s si Hlt) as [c Hc]. rewrite (drop_lookup _ _ Hc).
       inversion 1; subst; match goal with H : p !! _ = Some _ |- _ => apply lookup_lt_Some in H end; lia. }
  destruct (lookup_lt_is_Some_2 _ _ Hpl) as [x Hx]. destruct (lookup_lt_is_Some_2 _ _ Hlt) as [c Hc].
  rewrite Hx, Hc. cbn [default from_option id]. destruct (Z.eqb_spec x STAR) as [->|Hne].
  - destruct (IH (pi + 1)%nat si (Some (pi, si))) as (b & E & Hb); [|lia|lia| |].
    + split; [done|]. split; [lia|constructor].
    + unfold measure in *. destruct star as [[sp ss]|]; simpl in Hs.
      * destruct Hs as (Hsp & _ & Hr). pose proof (lookup_lt_Some _ _ _ Hsp). pose proof (run_bounds _ _ _ _ Hr). nia.
      * nia.
    + exists b. split; [exact E|]. rewrite Hb. destruct star as [[sp ss]|]; simpl in *.
      * symmetry. by apply star_forget; [apply Hs..|].
      * pose proof (run_glob _ _ _ _ Hs) as Hg. by rewrite drop_0 in Hg.
  - destruct (match_one p pi c) as [pi'|] eqn:Em.
    + pose proof (match_one_next _ _ _ _ Em) as En. pose proof (next_pos_bounds p pi Hpl).
      destruct (IH pi' (si + 1)%nat star) as (b & E & Hb); [|lia|lia| |by exists b].
      * replace (si + 1)%nat with (S si) by lia. destruct star as [[sp ss]|]; simpl in *.
        -- split; [apply Hs|]. split; [apply Hs|]. by eapply run_step; [apply Hs|..].
        -- by eapply run_step.
      * unfold measure in *. destruct star as [[sp ss]|]; lia.
    + apply Hback. rewrite (drop_lookup _ _ Hc). inversion 1; subst; simplify_eq.
Qed.
End Matcher.

(** C40. The matcher terminates and decides the pattern relation: backtracking
    to the last star only loses no match. *)
Theorem glob_match_decides p s : glob_match p s = true <-> glob p 0 s.
Proof.
  unfold glob_match. destruct (glob_loop_spec p s (glob_fuel p s) 0 0 None) as (b & -> & Hb); [constructor|lia|lia| |done].
  unfold measure, glob_fuel. nia.
Qed.
