(* ===== verification/Shared.v ===== *)
(** * State shared by the connections ([crates/garnet/src/shared.rs])

    The watch table and the fields a command reaches through [Shared]; what a
    command needs of the database as a class, so that dispatch is written and
    proved against the class and the store is one instance of it. *)

From S2P Require Import Prelude Hash Session Functions Store Aof.

(** ** The watch table *)

Record WatchTable := MkWatch { slots : list Z; wmask : word }.
Definition watch_new (n : Z) : WatchTable :=
  let n := if n <=? 1 then 1 else 2 ^ Z.log2_up n in MkWatch (replicate (Z.to_nat n) 0) (n - 1).
Definition slot_of_key (w : WatchTable) (key : bytes) : nat := Z.to_nat (Z.land (hash64 key) (wmask w)).
Definition version_at (w : WatchTable) (slot : nat) : option Z := slots w !! slot.
Definition watch_bump (w : WatchTable) (key : bytes) : option WatchTable :=
  let s := slot_of_key w key in
  v ← slots w !! s; Some (MkWatch (<[s := wrap64 (v + 1)]> (slots w)) (wmask w)).
Definition slot_version (w : WatchTable) (key : bytes) : option (nat * Z) :=
  let s := slot_of_key w key in v ← slots w !! s; Some (s, v).

(** The table after the writes [keys]. *)
Fixpoint bump_all (w : WatchTable) (keys : list bytes) : option WatchTable :=
  match keys with [] => Some w | k :: keys => w ← watch_bump w k; bump_all w keys end.
Lemma bump_all_app w ks ks' : bump_all w (ks ++ ks') = (w ← bump_all w ks; bump_all w ks').
Proof.
  revert w. induction ks as [|k ks IH]; intros w; [done|]. simpl.
  destruct (watch_bump w k) as [w'|]; [|done]. cbn [mbind option_bind]. apply IH.
Qed.


(** ** The database a command runs against

    [D] is the store, [P] what a connection keeps of its own; [None] is a panic
    or an operation that does not return. *)
Class Database (D P : Type) := {
  db_session : D -> P;
  db_read : D -> P -> bytes -> StringInput -> StringOutput -> option (Status * StringOutput * D * P);
  db_upsert : D -> P -> bytes -> StringInput -> StringOutput -> option (Status * StringOutput * D * P);
  db_rmw : D -> P -> bytes -> StringInput -> StringOutput -> option (Status * StringOutput * D * P);
  db_delete : D -> P -> bytes -> option (Status * D * P);
  (** the keys [scan_live] visits, in order *)
  db_live : D -> P -> option (list bytes * D * P);
  db_clear : D -> D;
  db_lock : D -> P -> list (bytes * LockType) -> option (D * P);
  db_unlock : D -> P -> option (D * P);
  (** [take_checkpoint] with the log address covered: an error message, or done *)
  db_checkpoint : D -> word -> option (bytes + D) }.

Record Shared (D : Type) := MkShared {
  sh_store : D; sh_aof : option Aof; aof_commit_wait : bool; watch : WatchTable;
  persist : bool; last_save_ms : word }.
Arguments MkShared {D}. Arguments sh_store {D}. Arguments sh_aof {D}. Arguments aof_commit_wait {D}.
Arguments watch {D}. Arguments persist {D}. Arguments last_save_ms {D}.

Section SharedOps.
Context {D P : Type} `{Database D P}.
Implicit Types sh : Shared D.

Definition set_store sh d : Shared D := MkShared d (sh_aof sh) (aof_commit_wait sh) (watch sh) (persist sh) (last_save_ms sh).
Definition set_aof sh a : Shared D := MkShared (sh_store sh) a (aof_commit_wait sh) (watch sh) (persist sh) (last_save_ms sh).
Definition set_watch sh w : Shared D := MkShared (sh_store sh) (sh_aof sh) (aof_commit_wait sh) w (persist sh) (last_save_ms sh).
Definition set_last_save sh t : Shared D := MkShared (sh_store sh) (sh_aof sh) (aof_commit_wait sh) (watch sh) (persist sh) t.

Definition WATCH_SLOTS : Z := 2 ^ 14.
Definition shared_new (d : D) (persist aof wait : bool) (mode : CommitMode) (log : bytes) : Shared D :=
  MkShared d (if aof then Some (aof_open log mode) else None) wait (watch_new WATCH_SLOTS) persist 0.

(** [checkpoint]: [now] is the clock when the checkpoint is done. *)
Definition shared_checkpoint sh (now : Z) : option (bytes + Shared D) :=
  if negb (persist sh) then Some (inl (bs "server started without persistence")) else
  let aof_addr := match sh_aof sh with Some a => aof_tail a | None => 0 end in
  r ← db_checkpoint (sh_store sh) aof_addr;
  match r with
  | inl e => Some (inl e)
  | inr d => let sh := set_store sh d in
             let sh := set_aof sh (aof_truncate <$> sh_aof sh) in
             Some (inr (set_last_save sh (wrap64 now)))
  end.
End SharedOps.

(** A database that is a map, for concrete runs. *)
Definition map_db : Database (gmap bytes bytes) unit := {|
  db_session := fun _ => tt;
  db_read := fun d p k i o =>
    Some (match d !! k with Some v => (Found, set_bytes o v) | None => (NotFound, o) end, d, p);
  db_upsert := fun d p k i o => Some (Created, o, <[k := operand i]> d, p);
  db_rmw := fun d p k i o =>
    match op i with
    | GetDel => Some (if decide (is_Some (d !! k)) then Deleted else NotFound, o, delete k d, p)
    | Persist => Some (Found, o, d, p)
    | _ => Some (Created, o, <[k := operand i]> d, p)
    end;
  db_delete := fun d p k => Some (if decide (is_Some (d !! k)) then Deleted else NotFound, delete k d, p);
  db_live := fun d p => Some (map fst (map_to_list d), d, p);
  db_clear := fun _ => ∅;
  db_lock := fun d p _ => Some (d, p);
  db_unlock := fun d p => Some (d, p);
  db_checkpoint := fun d _ => Some (inr d) |}.
