(* ===== verification/Commands.v ===== *)
(** * Command dispatch ([crates/garnet/src/commands.rs])

    A connection's session: parsing a command's options, running it against the
    database, writing the reply, the bookkeeping every write owes, and
    MULTI/EXEC.  A handler is a state transformer over the session, the reply
    buffer and the shared state; [None] is a panic or a call that never
    returns.  [i64] arithmetic wraps, as in a release build. *)

From S2P Require Import Prelude Resp Session Functions Store Aof Shared Glob.

Definition cmd_is (cmd : bytes) (s : string) : bool := bool_decide (cmd = bs s).

(** ** Names and options *)

Definition ascii_upper (c : Z) : Z := if (97 <=? c) && (c <=? 122) then c - 32 else c.
Definition eq_ignore_ascii_case (a b : bytes) : bool := bool_decide (map ascii_upper a = map ascii_upper b).

Definition MAX_CMD_NAME : nat := 24.
Definition command_name (arg : bytes) : bytes := map ascii_upper (take MAX_CMD_NAME arg).

Definition is_expiry_keyword (opt : bytes) : bool :=
  eq_ignore_ascii_case opt (bs "EX") || eq_ignore_ascii_case opt (bs "PX")
  || eq_ignore_ascii_case opt (bs "EXAT") || eq_ignore_ascii_case opt (bs "PXAT").
Definition expire_at_ms (keyword : bytes) (t now_ms : Z) : Z :=
  if eq_ignore_ascii_case keyword (bs "EX") then wrap_i64 (now_ms + wrap_i64 (t * 1000))
  else if eq_ignore_ascii_case keyword (bs "PX") then wrap_i64 (now_ms + t)
  else if eq_ignore_ascii_case keyword (bs "EXAT") then wrap_i64 (t * 1000)
  else t.

Definition ERR_SYNTAX : bytes := bs "ERR syntax error".
Definition ERR_NOT_INT : bytes := bs "ERR value is not an integer or out of range".

Record SetOpts := MkOpts { so_expiration : Z; so_nx : bool; so_xx : bool; so_get : bool; so_keep_ttl : bool }.
Fixpoint parse_set_opts_loop (args : list bytes) (now_ms : Z) (o : SetOpts) : bytes + SetOpts :=
  match args with
  | [] => if so_nx o && so_xx o then inl ERR_SYNTAX else inr o
  | opt :: args =>
      if eq_ignore_ascii_case opt (bs "NX")
      then parse_set_opts_loop args now_ms (MkOpts (so_expiration o) true (so_xx o) (so_get o) (so_keep_ttl o))
      else if eq_ignore_ascii_case opt (bs "XX")
      then parse_set_opts_loop args now_ms (MkOpts (so_expiration o) (so_nx o) true (so_get o) (so_keep_ttl o))
      else if eq_ignore_ascii_case opt (bs "GET")
      then parse_set_opts_loop args now_ms (MkOpts (so_expiration o) (so_nx o) (so_xx o) true (so_keep_ttl o))
      else if eq_ignore_ascii_case opt (bs "KEEPTTL")
      then parse_set_opts_loop args now_ms (MkOpts (so_expiration o) (so_nx o) (so_xx o) (so_get o) true)
      else if is_expiry_keyword opt then
        match args with
        | [] => inl ERR_SYNTAX
        | arg :: args =>
            match parse_i64 arg with
            | None => inl ERR_NOT_INT
            | Some t => parse_set_opts_loop args now_ms
                          (MkOpts (expire_at_ms opt t now_ms) (so_nx o) (so_xx o) (so_get o) (so_keep_ttl o))
            end
        end
      else inl ERR_SYNTAX
  end.
Definition parse_set_opts (args : list bytes) (now_ms : Z) : bytes + SetOpts :=
  parse_set_opts_loop args now_ms (MkOpts 0 false false false false).

(** The option loop of GETEX: the expiration. *)
Fixpoint getex_opts (args : list bytes) (now_ms expiration : Z) : bytes + Z :=
  match args with
  | [] => inr expiration
  | opt :: args =>
      if eq_ignore_ascii_case opt (bs "PERSIST") then getex_opts args now_ms expiration
      else match args with
           | arg :: args =>
               if is_expiry_keyword opt then
                 match parse_i64 arg with
                 | None => inl ERR_NOT_INT
                 | Some t => getex_opts args now_ms (expire_at_ms opt t now_ms)
                 end
               else inl ERR_SYNTAX
           | [] => inl ERR_SYNTAX
           end
  end.

(** The MATCH option of SCAN: the last one wins. *)
Fixpoint scan_pattern (args : list bytes) (pattern : bytes) : bytes :=
  match args with
  | name :: value :: args => scan_pattern args (if eq_ignore_ascii_case name (bs "MATCH") then value else pattern)
  | _ => pattern
  end.

(** [String::from_utf8_lossy]: each maximal invalid sequence becomes U+FFFD.
    [utf8_seq] is the number of bytes it consumes and whether they are valid. *)
Definition utf8_second_ok (b c : Z) : bool :=
  if b =? 0xE0 then (0xA0 <=? c) && (c <=? 0xBF) else if b =? 0xED then (0x80 <=? c) && (c <=? 0x9F)
  else if b =? 0xF0 then (0x90 <=? c) && (c <=? 0xBF) else if b =? 0xF4 then (0x80 <=? c) && (c <=? 0x8F)
  else cont c.
Definition utf8_seq (s : bytes) : bool * nat :=
  match s with
  | [] => (true, 0%nat)
  | b :: s =>
      let c1 := default 0 (s !! 0%nat) in let c2 := default 0 (s !! 1%nat) in let c3 := default 0 (s !! 2%nat) in
      if b <? 128 then (true, 1%nat)
      else if (0xC2 <=? b) && (b <=? 0xDF) then if cont c1 then (true, 2%nat) else (false, 1%nat)
      else if (0xE0 <=? b) && (b <=? 0xEF) then
        if negb (utf8_second_ok b c1) then (false, 1%nat) else if cont c2 then (true, 3%nat) else (false, 2%nat)
      else if (0xF0 <=? b) && (b <=? 0xF4) then
        if negb (utf8_second_ok b c1) then (false, 1%nat) else if negb (cont c2) then (false, 2%nat)
        else if cont c3 then (true, 4%nat) else (false, 3%nat)
      else (false, 1%nat)
  end.
Fixpoint from_utf8_lossy_loop (fuel : nat) (s : bytes) : bytes :=
  match fuel with
  | O => []
  | S fuel =>
      match s with
      | [] => []
      | _ => let '(valid, n) := utf8_seq s in
             (if valid : bool then take n s else [0xEF; 0xBF; 0xBD]) ++ from_utf8_lossy_loop fuel (drop n s)
      end
  end.
Definition from_utf8_lossy (s : bytes) : bytes := from_utf8_lossy_loop (length s) s.

(** ** Keys and lock types *)

Definition parse_ranges (raw : bytes) : option (list (nat * nat)) :=
  match parse_command raw 0 with
  | inr (Some (args, _)) => Some (map (fun a => (start a, end_ a)) args)
  | _ => None
  end.

(** [.iter().step_by(step)]. *)
Fixpoint step_by {A} (fuel : nat) (step : nat) (l : list A) : list A :=
  match fuel with
  | O => []
  | S fuel => match l with [] => [] | x :: _ => x :: step_by fuel step (drop step l) end
  end.
Definition keys_from (raw : bytes) (ranges : list (nat * nat)) (from step : nat) (lock : LockType)
    : list (bytes * LockType) :=
  map (fun r => (slice (fst r) (snd r) raw, lock))
    (step_by (length ranges) step (drop (Nat.min from (length ranges)) ranges)).
Definition one_of (cmd : bytes) (names : list string) : bool := existsb (cmd_is cmd) names.
Definition command_keys (raw : bytes) (ranges : list (nat * nat)) : list (bytes * LockType) :=
  match ranges with
  | [] => []
  | (s, e) :: _ =>
      let name := command_name (slice s e raw) in
      if one_of name ["GET"; "STRLEN"; "GETRANGE"; "SUBSTR"; "TTL"; "PTTL"; "EXISTS"; "TYPE"; "MGET"]%string
      then keys_from raw ranges 1 1 Store.Shared
      else if one_of name ["DEL"; "UNLINK"]%string then keys_from raw ranges 1 1 Exclusive
      else if one_of name ["MSET"]%string then keys_from raw ranges 1 2 Exclusive
      else if (2 <=? length ranges)%nat then keys_from raw ranges 1 (length ranges) Exclusive
      else []
  end.

Definition validate_queueable (cmd : bytes) : option bytes :=
  if one_of cmd ["SUBSCRIBE"; "UNSUBSCRIBE"; "PSUBSCRIBE"]%string
  then Some (bs "ERR command not allowed in transaction") else None.

(** ** The session *)

Inductive Action := Continue | Close.

Record TxnState := MkTxn {
  in_multi : bool; dirty : bool; queued : list bytes; watches : list (nat * Z) }.
Definition txn_default : TxnState := MkTxn false false [] [].

(** [RespSession], and the reply buffer [out]. *)
Record RespSession (D P : Type) := MkResp {
  shared : Shared D; store : P; txn : TxnState; r_now : Z; replay : bool; out_scratch : StringOutput;
  out : bytes }.
Arguments MkResp {D P}. Arguments shared {D P}. Arguments store {D P}. Arguments txn {D P}.
Arguments r_now {D P}. Arguments replay {D P}. Arguments out_scratch {D P}. Arguments out {D P}.

(** The handlers' monad: session state and panics. *)
Definition M (D P A : Type) : Type := RespSession D P -> option (A * RespSession D P).
#[export] Instance M_ret {D P} : MRet (M D P) := fun A x s => Some (x, s).
#[export] Instance M_bind {D P} : MBind (M D P) := fun A B f m s => '(x, s) ← m s; f x s.

Section Dispatch.
Context {D P : Type} `{Database D P}.
Abbreviation M := (M D P).
Abbreviation Resp := (RespSession D P).
Implicit Types (r : Resp) (key raw : bytes) (args : list bytes).

Definition resp_session_new (sh : Shared D) : Resp :=
  MkResp sh (db_session (sh_store sh)) txn_default 0 false output_default [].

Definition with_shared r sh : Resp := MkResp sh (store r) (txn r) (r_now r) (replay r) (out_scratch r) (out r).
Definition with_store r d p : Resp :=
  MkResp (set_store (shared r) d) p (txn r) (r_now r) (replay r) (out_scratch r) (out r).
Definition with_txn r t : Resp := MkResp (shared r) (store r) t (r_now r) (replay r) (out_scratch r) (out r).
Definition with_now r now : Resp := MkResp (shared r) (store r) (txn r) now (replay r) (out_scratch r) (out r).
Definition with_replay r b : Resp := MkResp (shared r) (store r) (txn r) (r_now r) b (out_scratch r) (out r).
Definition with_scratch r o : Resp := MkResp (shared r) (store r) (txn r) (r_now r) (replay r) o (out r).
Definition with_out r o : Resp := MkResp (shared r) (store r) (txn r) (r_now r) (replay r) (out_scratch r) o.

Definition gets {A} (f : Resp -> A) : M A := fun r => Some (f r, r).
Definition modify_ (f : Resp -> Resp) : M unit := fun r => Some (tt, f r).
Definition lift {A} (x : option A) : M A := fun r => a ← x; Some (a, r).
Definition when (b : bool) (m : M unit) : M unit := if b then m else mret tt.
Fixpoint for_each {A} (f : A -> M unit) (l : list A) : M unit :=
  match l with [] => mret tt | x :: l => f x ;; for_each f l end.

(** Reply writers on the connection's buffer. *)
Definition reply (f : bytes -> bytes) : M unit := modify_ (fun r => with_out r (f (out r))).
Definition emit (b : bytes) : M unit := reply (fun o => o ++ b).
Definition emit_bulk (b : bytes) : M unit := reply (fun o => write_bulk o b).
Definition emit_int (v : Z) : M unit := reply (fun o => write_integer o v).
Definition emit_error (e : bytes) : M unit := reply (fun o => write_error o e).
Definition emit_simple (b : bytes) : M unit := reply (fun o => write_simple o b).
Definition emit_array (n : nat) : M unit := reply (fun o => write_array_header o n).

(** Store calls leave their output in [out_scratch]. *)
Definition call (f : D -> P -> StringOutput -> option (Status * StringOutput * D * P)) : M Status := fun r =>
  '(s, o, d, p) ← f (sh_store (shared r)) (store r) (out_scratch r);
  Some (s, with_store (with_scratch r o) d p).
Definition store_read key i : M Status := call (fun d p o => db_read d p key i o).
Definition store_upsert key i : M Status := call (fun d p o => db_upsert d p key i o).
Definition store_rmw key i : M Status := call (fun d p o => db_rmw d p key i o).
Definition store_delete key : M Status := call (fun d p o => '(s, d, p) ← db_delete d p key; Some (s, o, d, p)).
(** [output.bytes.clear()] *)
Definition clear_scratch : M unit := modify_ (fun r =>
  with_scratch r (let o := out_scratch r in Output [] (has_bytes o) (int o) (has_int o))).

(** *** Bookkeeping *)

Definition aof_append (op : AofOp) raw (wait : bool) : M unit := fun r =>
  match sh_aof (shared r) with
  | None => Some (tt, r)
  | Some a =>
      let '(end_, a) := enqueue a op (r_now r) raw in
      a ← (if wait && aof_commit_wait (shared r) then wait_committed a end_ else Some a);
      Some (tt, with_shared r (set_aof (shared r) (Some a)))
  end.
Definition log_write raw : M unit :=
  rep ← gets replay; if rep : bool then mret tt else aof_append AofCommand raw true.
Definition bump_watch key : M unit := fun r =>
  w ← watch_bump (watch (shared r)) key; Some (tt, with_shared r (set_watch (shared r) w)).
Definition after_write key raw : M unit := bump_watch key ;; log_write raw.

(** *** String commands *)

Definition cmd_get key : M unit :=
  now ← gets r_now;
  status ← store_read key (input_read Get now);
  o ← gets out_scratch;
  match status with Found => emit_bulk (o_bytes o) | _ => emit NULL_BULK end.

Definition cmd_read_int key (op : StringOp) : M unit :=
  now ← gets r_now;
  status ← store_read key (input_read op now);
  o ← gets out_scratch;
  match status with Found => emit_int (int o) | _ => emit_int 0 end.

Definition cmd_getrange key s e : M unit :=
  match parse_i64 s, parse_i64 e with
  | Some s, Some e =>
      now ← gets r_now;
      status ← store_read key (input_read (GetRange s e) now);
      o ← gets out_scratch;
      match status with Found => emit_bulk (o_bytes o) | _ => emit_bulk [] end
  | _, _ => emit_error ERR_NOT_INT
  end.

(** The operation SET's options select. *)
Definition set_op (o : SetOpts) : StringOp :=
  if so_get o then SetGet (so_keep_ttl o) else if so_nx o then SetNx else if so_xx o then SetXx
  else if so_keep_ttl o then SetKeepTtl else Set_.
Definition cmd_set raw args : M unit :=
  match args with
  | _ :: key :: value :: opts =>
      now ← gets r_now;
      match parse_set_opts opts now with
      | inl error => emit_error error
      | inr options =>
          let op := set_op options in
          let input := Input op value 0 (so_expiration options) now in
          status ← (if bool_decide (op = Set_) then store_upsert key input else store_rmw key input);
          o ← gets out_scratch;
          (if so_get options then if has_bytes o then emit_bulk (o_bytes o) else emit NULL_BULK
           else if bool_decide (op = Set_) || is_updated status then emit OK else emit NULL_BULK) ;;
          when (is_updated status) (after_write key raw)
      end
  | _ => emit_error (bs "ERR wrong number of arguments for 'set' command")
  end.

Definition cmd_setnx raw key value : M unit :=
  now ← gets r_now;
  status ← store_rmw key (input_simple SetNx value now);
  let set := bool_decide (status = Created) in
  emit_int (Z.b2z set) ;;
  when set (after_write key raw).

Definition cmd_setex raw key time value (ms : bool) : M unit :=
  match (t ← parse_i64 time; if 0 <? t then Some t else None) with
  | None => emit_error (bs "ERR invalid expire time in 'setex' command")
  | Some t =>
      now ← gets r_now;
      let expiration := wrap_i64 (now + (if ms then t else wrap_i64 (t * 1000))) in
      store_upsert key (Input Set_ value 0 expiration now) ;;
      emit OK ;;
      after_write key raw
  end.

Definition cmd_getset raw key value : M unit :=
  now ← gets r_now;
  store_rmw key (input_simple (SetGet false) value now) ;;
  o ← gets out_scratch;
  (if has_bytes o then emit_bulk (o_bytes o) else emit NULL_BULK) ;;
  after_write key raw.

Definition cmd_getdel raw key : M unit :=
  now ← gets r_now;
  clear_scratch ;;
  status ← store_rmw key (input_read GetDel now);
  o ← gets out_scratch;
  if bool_decide (status = Deleted) then emit_bulk (o_bytes o) ;; after_write key raw
  else emit NULL_BULK.

Definition cmd_getex raw args : M unit :=
  match args with
  | [_; key] => cmd_get key
  | _ :: key :: opts =>
      now ← gets r_now;
      match getex_opts opts now 0 with
      | inl error => emit_error error
      | inr expiration =>
          clear_scratch ;;
          status ← store_rmw key (Input GetEx [] 0 expiration now);
          o ← gets out_scratch;
          if is_updated status then emit_bulk (o_bytes o) ;; after_write key raw
          else emit NULL_BULK
      end
  | _ => lift None
  end.

Definition cmd_incr raw key (delta : Z) : M unit :=
  now ← gets r_now;
  status ← store_rmw key (Input IncrBy [] delta 0 now);
  o ← gets out_scratch;
  if is_updated status then emit_int (int o) ;; after_write key raw
  else emit_error ERR_NOT_INT.

Definition cmd_rmw_int raw key (op : StringOp) (operand : bytes) (delta : Z) : M unit :=
  now ← gets r_now;
  status ← store_rmw key (Input op operand delta 0 now);
  o ← gets out_scratch;
  if is_updated status then emit_int (int o) ;; after_write key raw else emit_int 0.

Definition cmd_setrange raw key offset value : M unit :=
  match (off ← parse_i64 offset; if 0 <=? off then Some off else None) with
  | None => emit_error (bs "ERR offset is out of range")
  | Some off => cmd_rmw_int raw key (SetRange (Z.to_nat off)) value 0
  end.

Fixpoint mset_pairs (args : list bytes) : M unit :=
  match args with
  | key :: value :: args =>
      now ← gets r_now;
      store_upsert key (input_simple Set_ value now) ;;
      bump_watch key ;;
      mset_pairs args
  | _ => mret tt
  end.
Definition cmd_mset raw args : M unit := mset_pairs (tail args) ;; emit OK ;; log_write raw.

Definition cmd_mget args : M unit := emit_array (length args - 1) ;; for_each cmd_get (tail args).

(** *** Generic commands *)

(** The keys for which [f] holds, counted. *)
Fixpoint count_keys (f : bytes -> M bool) (keys : list bytes) (n : Z) : M Z :=
  match keys with
  | [] => mret n
  | key :: keys => b ← f key; count_keys f keys (if b : bool then n + 1 else n)
  end.
Definition del_one key : M bool :=
  status ← store_delete key;
  if bool_decide (status = Deleted) then bump_watch key ;; mret true else mret false.
Definition cmd_del raw args : M unit :=
  n ← count_keys del_one (tail args) 0;
  emit_int n ;;
  when (0 <? n) (log_write raw).

Definition exists_one key : M bool :=
  now ← gets r_now;
  status ← store_read key (input_read Functions.Exists now);
  mret (bool_decide (status = Found)).
Definition cmd_exists args : M unit := n ← count_keys exists_one (tail args) 0; emit_int n.

Definition cmd_expire raw key secs (unit_ : Z) (at_ : bool) : M unit :=
  match parse_i64 secs with
  | None => emit_error ERR_NOT_INT
  | Some t =>
      now ← gets r_now;
      let expiration := if at_ then wrap_i64 (t * unit_) else wrap_i64 (now + wrap_i64 (t * unit_)) in
      status ← store_rmw key (Input Expire [] 0 expiration now);
      let set := is_updated status in
      emit_int (Z.b2z set) ;;
      when set (after_write key raw)
  end.

Definition cmd_ttl key (ms : bool) : M unit :=
  now ← gets r_now;
  status ← store_read key (input_read (Ttl ms) now);
  o ← gets out_scratch;
  match status with Found => emit_int (int o) | _ => emit_int (-2) end.

Definition cmd_persist raw key : M unit :=
  now ← gets r_now;
  status ← store_rmw key (Input Persist [] 0 0 now);
  o ← gets out_scratch;
  let removed := is_updated status && has_int o && (int o =? 1) in
  emit_int (Z.b2z removed) ;;
  when removed (after_write key raw).

Definition cmd_type key : M unit :=
  now ← gets r_now;
  status ← store_read key (input_read Functions.Exists now);
  if bool_decide (status = Found) then emit_simple (bs "string") else emit_simple (bs "none").

(** The keys [scan_live] visits. *)
Definition live_keys : M (list bytes) := fun r =>
  '(keys, d, p) ← db_live (sh_store (shared r)) (store r); Some (keys, with_store r d p).
Definition flush_db : M unit := modify_ (fun r => with_shared r (set_store (shared r) (db_clear (sh_store (shared r))))).

Definition cmd_keys pattern : M unit :=
  live ← live_keys;
  let keys := List.filter (glob_match pattern) live in
  emit_array (length keys) ;;
  for_each emit_bulk keys.

Definition cmd_scan args : M unit :=
  let pattern := scan_pattern (drop 2 args) (bs "*") in
  emit_array 2 ;; emit_bulk (bs "0") ;; cmd_keys pattern.

(** *** Transactions *)

Definition get_txn : M TxnState := gets txn.
Definition put_txn (t : TxnState) : M unit := modify_ (fun r => with_txn r t).

Definition cmd_multi : M unit :=
  t ← get_txn;
  if in_multi t then emit_error (bs "ERR MULTI calls can not be nested")
  else put_txn (MkTxn true false [] (watches t)) ;; emit OK.

Definition discard : M unit := put_txn txn_default.

Definition watch_one key : M unit := fun r =>
  sv ← slot_version (watch (shared r)) key;
  let t := txn r in
  Some (tt, with_txn r (MkTxn (in_multi t) (dirty t) (queued t) (watches t ++ [sv]))).
Definition cmd_watch args : M unit :=
  t ← get_txn;
  if in_multi t then emit_error (bs "ERR WATCH inside MULTI is not allowed")
  else for_each watch_one (tail args) ;; emit OK.

(** Some watched slot has another version than when it was watched. *)
Fixpoint watch_conflict (w : WatchTable) (ws : list (nat * Z)) : option bool :=
  match ws with
  | [] => Some false
  | (slot, ver) :: ws => v ← version_at w slot; if negb (v =? ver) then Some true else watch_conflict w ws
  end.

Definition queued_keys (q : list bytes) : list (bytes * LockType) :=
  concat (map (fun raw => match parse_ranges raw with Some ranges => command_keys raw ranges | None => [] end) q).

(** Run one queued command through [exec]. *)
Definition exec_queued (exec : bytes -> bytes -> list bytes -> M Action) raw : M unit :=
  match parse_ranges raw with
  | Some ranges =>
      let refs := map (fun x => slice (fst x) (snd x) raw) ranges in
      match refs with
      | [] => lift None
      | first :: _ => exec (command_name first) raw refs ;; mret tt
      end
  | None => emit_error (bs "ERR bad queued command")
  end.

Definition txn_lock (keys : list (bytes * LockType)) : M unit := fun r =>
  '(d, p) ← db_lock (sh_store (shared r)) (store r) keys; Some (tt, with_store r d p).
Definition txn_unlock : M unit := fun r =>
  '(d, p) ← db_unlock (sh_store (shared r)) (store r); Some (tt, with_store r d p).

(** The transaction passed its checks: run the queue under its locks. *)
Definition exec_run (exec : bytes -> bytes -> list bytes -> M Action) (t : TxnState) : M Action :=
  put_txn (MkTxn false (dirty t) [] []) ;;
  let q := queued t in
  emit_array (length q) ;;
  rep ← gets replay;
  when (negb rep) (txn_lock (queued_keys q)) ;;
  when (negb rep) (aof_append TxnStart [] false) ;;
  for_each (exec_queued exec) q ;;
  when (negb rep) txn_unlock ;;
  when (negb rep) (aof_append TxnCommit [] true) ;;
  mret Continue.
Definition check_watches (ws : list (nat * Z)) : M bool := fun r =>
  b ← watch_conflict (watch (shared r)) ws; Some (b, r).
Definition cmd_exec (exec : bytes -> bytes -> list bytes -> M Action) : M Action :=
  t ← get_txn;
  if negb (in_multi t) then emit_error (bs "ERR EXEC without MULTI") ;; mret Continue
  else if dirty t then
    discard ;; emit_error (bs "EXECABORT Transaction discarded because of previous errors.") ;; mret Continue
  else
    conflict ← check_watches (watches t);
    if conflict : bool then discard ;; emit NULL_ARRAY ;; mret Continue
    else exec_run exec t.

(** *** Dispatch *)

(** The clock when a checkpoint ends. *)
Definition cmd_save (clock : Z) : M unit := fun r =>
  res ← shared_checkpoint (shared r) clock;
  match res with
  | inr sh => Some (tt, with_out (with_shared r sh) (out r ++ OK))
  | inl e => Some (tt, with_out r (write_error (out r) (bs "ERR checkpoint failed: " ++ e)))
  end.

Definition cmd_hello : M unit :=
  emit_array 6 ;; emit_bulk (bs "server") ;; emit_bulk (bs "mini-garnet") ;; emit_bulk (bs "version") ;;
  emit_bulk (bs "0.1.0") ;; emit_bulk (bs "proto") ;; emit_int 2.

Definition cmd_unknown name : M unit :=
  emit_error (bs "ERR unknown command '" ++ from_utf8_lossy name ++ bs "' or wrong number of arguments").

(** [exec_command]; [rec] runs a queued command of EXEC.  Guards on the number
    of arguments are the shapes of the argument list. *)
Definition exec_step (clock : Z) (rec : bytes -> bytes -> list bytes -> M Action) (cmd raw : bytes) args : M Action :=
  let go (m : M unit) : M Action := m ;; mret Continue in
  let unknown := go (cmd_unknown (default [] (head args))) in
  let is_ := cmd_is cmd in
  if is_ "PING" then go (match args with _ :: a :: _ => emit_bulk a | _ => emit PONG end) else
  if is_ "ECHO" then match args with [_; a] => go (emit_bulk a) | _ => unknown end else
  if is_ "QUIT" then emit OK ;; mret Close else
  if is_ "SELECT" then go (emit OK) else
  if is_ "HELLO" then go cmd_hello else
  if is_ "COMMAND" then go (emit EMPTY_ARRAY) else
  if is_ "CONFIG" then go (emit EMPTY_ARRAY) else
  if is_ "CLIENT" then go (emit OK) else
  if is_ "INFO" then go (emit_bulk (bs "# Server" ++ crlf ++ bs "mini_garnet:1" ++ crlf)) else
  if is_ "RESET" then go (discard ;; emit_simple (bs "RESET")) else
  if is_ "DBSIZE" then
    go (live ← live_keys; emit_int (wrap_i64 (Z.of_nat (length live)))) else
  if is_ "FLUSHDB" || is_ "FLUSHALL" then
    go (flush_db ;; emit OK) else
  if is_ "GET" then match args with [_; k] => go (cmd_get k) | _ => unknown end else
  if is_ "SET" then go (cmd_set raw args) else
  if is_ "SETNX" then match args with [_; k; v] => go (cmd_setnx raw k v) | _ => unknown end else
  if is_ "SETEX" then match args with [_; k; t; v] => go (cmd_setex raw k t v false) | _ => unknown end else
  if is_ "PSETEX" then match args with [_; k; t; v] => go (cmd_setex raw k t v true) | _ => unknown end else
  if is_ "GETSET" then match args with [_; k; v] => go (cmd_getset raw k v) | _ => unknown end else
  if is_ "GETDEL" then match args with [_; k] => go (cmd_getdel raw k) | _ => unknown end else
  if is_ "GETEX" then go (cmd_getex raw args) else
  if is_ "APPEND" then match args with [_; k; v] => go (cmd_rmw_int raw k Append v 0) | _ => unknown end else
  if is_ "STRLEN" then match args with [_; k] => go (cmd_read_int k Strlen) | _ => unknown end else
  if is_ "GETRANGE" || is_ "SUBSTR" then match args with [_; k; s; e] => go (cmd_getrange k s e) | _ => unknown end else
  if is_ "SETRANGE" then match args with [_; k; o; v] => go (cmd_setrange raw k o v) | _ => unknown end else
  if is_ "INCR" then match args with [_; k] => go (cmd_incr raw k 1) | _ => unknown end else
  if is_ "DECR" then match args with [_; k] => go (cmd_incr raw k (-1)) | _ => unknown end else
  if is_ "INCRBY" then
    match args with
    | [_; k; d] => match parse_i64 d with Some d => go (cmd_incr raw k d) | None => go (emit_error ERR_NOT_INT) end
    | _ => unknown
    end else
  if is_ "DECRBY" then
    match args with
    | [_; k; d] => match parse_i64 d with
                   | Some d => go (cmd_incr raw k (wrap_i64 (- d)))
                   | None => go (emit_error ERR_NOT_INT)
                   end
    | _ => unknown
    end else
  if is_ "MSET" then
    if (3 <=? length args)%nat && (length args mod 2 =? 1)%nat then go (cmd_mset raw args) else unknown else
  if is_ "MGET" then if (2 <=? length args)%nat then go (cmd_mget args) else unknown else
  if is_ "DEL" || is_ "UNLINK" then if (2 <=? length args)%nat then go (cmd_del raw args) else unknown else
  if is_ "EXISTS" then if (2 <=? length args)%nat then go (cmd_exists args) else unknown else
  if is_ "EXPIRE" then match args with [_; k; t] => go (cmd_expire raw k t 1000 false) | _ => unknown end else
  if is_ "PEXPIRE" then match args with [_; k; t] => go (cmd_expire raw k t 1 false) | _ => unknown end else
  if is_ "EXPIREAT" then match args with [_; k; t] => go (cmd_expire raw k t 1000 true) | _ => unknown end else
  if is_ "PEXPIREAT" then match args with [_; k; t] => go (cmd_expire raw k t 1 true) | _ => unknown end else
  if is_ "TTL" then match args with [_; k] => go (cmd_ttl k false) | _ => unknown end else
  if is_ "PTTL" then match args with [_; k] => go (cmd_ttl k true) | _ => unknown end else
  if is_ "PERSIST" then match args with [_; k] => go (cmd_persist raw k) | _ => unknown end else
  if is_ "TYPE" then match args with [_; k] => go (cmd_type k) | _ => unknown end else
  if is_ "KEYS" then match args with [_; p] => go (cmd_keys p) | _ => unknown end else
  if is_ "SCAN" then if (2 <=? length args)%nat then go (cmd_scan args) else unknown else
  if is_ "MULTI" then go cmd_multi else
  if is_ "EXEC" then cmd_exec rec else
  if is_ "DISCARD" then
    go (t ← get_txn;
        if in_multi t then discard ;; emit OK else emit_error (bs "ERR DISCARD without MULTI")) else
  if is_ "WATCH" then if (2 <=? length args)%nat then go (cmd_watch args) else unknown else
  if is_ "UNWATCH" then
    go (t ← get_txn; put_txn (MkTxn (in_multi t) (dirty t) (queued t) []) ;; emit OK) else
  if is_ "SAVE" || is_ "BGSAVE" then go (cmd_save clock) else
  if is_ "BGREWRITEAOF" then go (emit OK) else
  if is_ "LASTSAVE" then
    go (ms ← gets (fun r => last_save_ms (shared r)); emit_int (Z.quot (i64_of_u64 ms) 1000)) else
  unknown.

(** EXEC and MULTI are never queued, so one level of EXEC suffices. *)
Fixpoint exec_command (depth : nat) (clock : Z) (cmd raw : bytes) args : M Action :=
  match depth with
  | O => lift None
  | S depth => exec_step clock (exec_command depth clock) cmd raw args
  end.
Definition DEPTH : nat := 2.

Definition control_command (cmd : bytes) : bool :=
  one_of cmd ["EXEC"; "DISCARD"; "MULTI"; "WATCH"; "RESET"; "QUIT"]%string.
(** [dispatch]: [clock] is the wall clock. *)
Definition dispatch (clock : Z) (raw : bytes) args : M Action :=
  match args with
  | [] => mret Continue
  | first :: _ =>
      rep ← gets replay;
      when (negb rep) (modify_ (fun r => with_now r clock)) ;;
      let cmd := command_name first in
      t ← get_txn;
      if in_multi t && negb (control_command cmd) then
        match validate_queueable cmd with
        | Some err => put_txn (MkTxn (in_multi t) true (queued t) (watches t)) ;; emit_error err ;; mret Continue
        | None => put_txn (MkTxn (in_multi t) (dirty t) (queued t ++ [raw]) (watches t)) ;;
                  emit QUEUED ;; mret Continue
        end
      else exec_command DEPTH clock cmd raw args
  end.

(** [run]: encode, parse, dispatch, and return the reply. *)
Definition run (clock : Z) (parts : list bytes) : M bytes :=
  let raw := encode_command parts in
  modify_ (fun r => with_out r []) ;;
  (match parse_command raw 0 with
   | inr (Some (slices, _)) => dispatch clock raw (map (arg_bytes raw) slices) ;; mret tt
   | _ => mret tt
   end) ;;
  gets out.

(** *** Replay *)

Definition dispatch_replay (clock : Z) (raw : bytes) args (ts : Z) : M unit :=
  modify_ (fun r => with_now r ts) ;;
  exec_command DEPTH clock (command_name (default [] (head args))) raw args ;; mret tt.
Definition replay_multi_begin (ts : Z) : M unit :=
  modify_ (fun r => with_now r ts) ;;
  t ← get_txn; put_txn (MkTxn true false [] (watches t)).
Definition replay_multi_exec (clock : Z) : M unit := cmd_exec (exec_command DEPTH clock) ;; mret tt.
End Dispatch.
