(* ===== verification/CommandsSpec.v ===== *)
(** * The session's state machine

    Commands as programs over a few primitives, so that what a command can and
    cannot touch is one induction; the invariant of a session; optimistic
    watches; the options of SET. *)

From S2P Require Import Prelude Hash Resp RespSpec Session Functions Store Aof Shared Commands.

#[local] Opaque hash64.

Section Programs.
Context {D P : Type} `{Database D P}.
Abbreviation M := (M D P).
Abbreviation Resp := (RespSession D P).
Implicit Types (r : Resp) (key raw : bytes) (args : list bytes).

(** ** Programs *)

(** A reply writer only appends. *)
Definition appends (f : bytes -> bytes) : Prop := forall o, f o = o ++ f [].
Lemma emits_append b v n : appends (fun o => o ++ b) /\ appends (fun o => write_bulk o b) /\
  appends (fun o => write_integer o v) /\ appends (fun o => write_error o b) /\
  appends (fun o => write_simple o b) /\ appends (fun o => write_array_header o n).
Proof.
  unfold appends, write_bulk, write_bulk_header, write_integer, write_error, write_simple, write_array_header, write_i64_digits.
  split_and!; intros o; by rewrite <- ?app_assoc.
Qed.

(** Built from the clock, the database, the log, the watch table and the reply. *)
Inductive prog : forall {A : Type}, M A -> Prop :=
  | prog_ret {A} (x : A) : prog (mret x)
  | prog_bind {A B} (m : M A) (f : A -> M B) : prog m -> (forall x, prog (f x)) -> prog (m ≫= f)
  | prog_fail {A} : prog (lift (None : option A))
  | prog_now : prog (gets r_now)
  | prog_replay : prog (gets replay)
  | prog_scratch : prog (gets out_scratch)
  | prog_shared {A} (f : Shared D -> A) : prog (gets (fun r => f (shared r)))
  | prog_reply f : appends f -> prog (reply f)
  | prog_clear : prog clear_scratch
  | prog_call f : prog (call f)
  | prog_append op raw wait : prog (aof_append op raw wait)
  | prog_bump key : prog (bump_watch key)
  | prog_live : prog live_keys
  | prog_flush : prog flush_db.

Lemma prog_for_each {A} (f : A -> M unit) l : (forall x, prog (f x)) -> prog (for_each f l).
Proof. intros Hf. induction l; simpl; [constructor|]. by constructor. Qed.
Lemma prog_count f keys n : (forall k, prog (f k)) -> prog (count_keys f keys n).
Proof. intros Hf. revert n. induction keys; intros n; simpl; [constructor|]. by constructor. Qed.

Ltac prog :=
  repeat (cbv beta zeta; intros;
    lazymatch goal with
    | |- prog (mbind _ _) => apply prog_bind
    | |- prog (mret _) => apply prog_ret
    | |- prog (lift None) => apply prog_fail
    | |- prog (gets r_now) => apply prog_now
    | |- prog (gets replay) => apply prog_replay
    | |- prog (gets out_scratch) => apply prog_scratch
    | |- prog (emit _) => apply prog_reply, emits_append; exact [] || exact 0 || exact 0%nat
    | |- prog (emit_bulk _) => apply prog_reply, emits_append; exact [] || exact 0 || exact 0%nat
    | |- prog (emit_int _) => apply prog_reply, emits_append; exact [] || exact 0 || exact 0%nat
    | |- prog (emit_error _) => apply prog_reply, emits_append; exact [] || exact 0 || exact 0%nat
    | |- prog (emit_simple _) => apply prog_reply, emits_append; exact [] || exact 0 || exact 0%nat
    | |- prog (emit_array _) => apply prog_reply, emits_append; exact [] || exact 0 || exact 0%nat
    | |- prog clear_scratch => apply prog_clear
    | |- prog (store_read _ _) => apply prog_call
    | |- prog (store_upsert _ _) => apply prog_call
    | |- prog (store_rmw _ _) => apply prog_call
    | |- prog (store_delete _) => apply prog_call
    | |- prog (aof_append _ _ _) => apply prog_append
    | |- prog (bump_watch _) => apply prog_bump
    | |- prog live_keys => apply prog_live
    | |- prog flush_db => apply prog_flush
    | |- prog (for_each _ _) => apply prog_for_each
    | |- prog (count_keys _ _ _) => apply prog_count
    | |- prog (when _ _) => unfold when at 1
    | |- prog (log_write _) => unfold log_write
    | |- prog (after_write _ _) => unfold after_write
    | |- prog (if ?b then _ else _) => destruct b
    | |- prog (match ?x with _ => _ end) => destruct x
    | _ => fail
    end).

Lemma prog_mset args : prog (mset_pairs args).
Proof.
  remember (length args) as n eqn:En. revert args En. induction (lt_wf n) as [n _ IH]. intros args ->.
  destruct args as [|k [|v args]]; cbn [mset_pairs]; prog.
  intros ?. eapply (IH (length args)); [simpl; lia|done].
Qed.

(** The commands that act on the transaction or persist the store. *)
Definition txn_names : list string :=
  ["RESET"; "MULTI"; "EXEC"; "DISCARD"; "WATCH"; "UNWATCH"; "SAVE"; "BGSAVE"]%string.
Ltac unfold_handlers := unfold cmd_unknown, cmd_hello, cmd_read_int, cmd_getrange, cmd_set, cmd_setnx, cmd_setex,
  cmd_getset, cmd_getdel, cmd_getex, cmd_setrange, cmd_rmw_int, cmd_incr, cmd_mset, cmd_mget, cmd_del, cmd_exists,
  cmd_expire, cmd_ttl, cmd_persist, cmd_type, cmd_scan, cmd_keys, cmd_get, del_one, exists_one.
Lemma exec_step_prog clock (rec : bytes -> bytes -> list bytes -> M Action) cmd raw args :
  one_of cmd txn_names = false -> prog (exec_step clock rec cmd raw args).
Proof.
  intros Hc. unfold exec_step. cbv zeta.
  repeat lazymatch goal with |- prog (if ?b then _ else _) =>
    destruct b eqn:E;
    [first [solve [try (apply orb_true_iff in E as [E|E]); apply bool_decide_eq_true in E; subst cmd; discriminate Hc]
           |clear E Hc; unfold_handlers; prog]|clear E] end.
  - apply prog_mset.
  - apply (prog_shared last_save_ms).
  - unfold cmd_unknown. prog.
Qed.

(** ** The watch table *)

Record table_ok (w : WatchTable) : Prop := {
  wt_mask : exists k, 0 <= k /\ wmask w = Z.ones k /\ Z.of_nat (length (slots w)) = 2 ^ k;
  wt_slots : Forall is_u64 (slots w) }.

Lemma watch_new_ok n : table_ok (watch_new n).
Proof.
  unfold watch_new. split; cbn [slots wmask].
  - destruct (Z.leb_spec n 1) as [Hn|Hn]; [exists 0; by vm_compute|].
    exists (Z.log2_up n). pose proof (Z.log2_up_nonneg n). split; [done|]. rewrite Z.ones_equiv. split; [lia|].
    rewrite length_replicate, Z2Nat.id; [done|]. apply Z.pow_nonneg. lia.
  - apply Forall_replicate. by vm_compute.
Qed.
Lemma slot_in_table w key : table_ok w -> (slot_of_key w key < length (slots w))%nat.
Proof.
  intros [(k & Hk & Hm & Hl) _]. unfold slot_of_key. rewrite Hm. pose proof (land_ones_bound (hash64 key) k Hk). lia.
Qed.
Lemma watch_bump_ok w key : table_ok w -> exists w', watch_bump w key = Some w' /\ table_ok w' /\
  wmask w' = wmask w /\ length (slots w') = length (slots w) /\
  slots w' = alter (fun v => wrap64 (v + 1)) (slot_of_key w key) (slots w).
Proof.
  intros Hw. destruct (lookup_lt_is_Some_2 _ _ (slot_in_table w key Hw)) as [v Hv].
  destruct Hw as [(k & Hk & Hm & Hl) Hs]. unfold watch_bump. rewrite Hv. cbn [mbind option_bind].
  eexists. split; [done|]. cbn [slots wmask]. rewrite length_insert. split_and!; [|done|done|].
  - split; cbn [slots wmask]; [exists k; by rewrite length_insert|]. apply Forall_insert; [done|]. apply wrap64_range.
  - apply list_eq. intros i. rewrite list_lookup_alter. destruct (decide (i = slot_of_key w key)) as [->|Hne].
    + rewrite list_lookup_insert_eq by (by eapply lookup_lt_Some). by rewrite decide_True, Hv.
    + by rewrite list_lookup_insert_ne, decide_False.
Qed.

(** ** What a program leaves alone *)

Definition same_session r r' : Prop :=
  txn r' = txn r /\ replay r' = replay r /\ r_now r' = r_now r /\
  wmask (watch (shared r')) = wmask (watch (shared r)) /\
  length (slots (watch (shared r'))) = length (slots (watch (shared r))) /\
  (table_ok (watch (shared r)) -> table_ok (watch (shared r'))).

Lemma prog_session {A} (m : M A) : prog m -> forall r x r', m r = Some (x, r') -> same_session r r'.
Proof.
  unfold same_session. induction 1 as [|A B m f Hm IHm Hf IHf| | | | | | | | | | | |]; intros r y r' E; try (injection E as <- <-; by split_and!).
  - unfold mbind, M_bind in E. destruct (m r) as [[x r1]|] eqn:Em; [|done]. cbn [mbind option_bind] in E.
    destruct (IHm _ _ _ Em) as (A1 & A2 & A3 & A4 & A5 & A6). destruct (IHf _ _ _ _ E) as (B1 & B2 & B3 & B4 & B5 & B6).
    split_and!; try congruence. auto.
  - done.
  - unfold call in E. destruct (f _ _ _) as [[[[s o] d] p]|]; [|done]. cbn in E. by injection E as <- <-.
  - unfold aof_append in E. destruct (sh_aof _); [|by injection E as <- <-]. destruct (enqueue _ _ _ _).
    destruct (if _ : bool then _ else _) in E; [|done]. cbn in E. by injection E as <- <-.
  - unfold bump_watch in E. destruct (watch_bump _ _) as [w|] eqn:Ew; [|done]. cbn in E. injection E as <- <-.
    cbn. unfold watch_bump in Ew. destruct (slots _ !! _) eqn:Es in Ew; [|done]. injection Ew as <-. cbn.
    rewrite length_insert. split_and!; try done. intros Hw.
    destruct (watch_bump_ok _ key Hw) as (w' & Ew & Hw' & _). unfold watch_bump in Ew. rewrite Es in Ew. by injection Ew as <-.
  - unfold live_keys in E. destruct (db_live _ _) as [[[ks d] p]|]; [|done]. cbn in E. by injection E as <- <-.
Qed.

(** ** The invariant of a session *)

(** A queued command parses to a command that EXEC may run. *)
Definition queue_ok raw : Prop :=
  match parse_ranges raw with
  | Some ((s, e) :: _) => control_command (command_name (slice s e raw)) = false
  | _ => False
  end.
Record session_ok r : Prop := {
  so_table : table_ok (watch (shared r));
  so_queue : Forall queue_ok (queued (txn r));
  so_idle : in_multi (txn r) = false -> queued (txn r) = [] /\ dirty (txn r) = false;
  so_watches : Forall (fun w => (fst w < length (slots (watch (shared r))))%nat) (watches (txn r)) }.

Lemma session_new_ok (sh : Shared D) : table_ok (watch sh) -> session_ok (resp_session_new sh).
Proof. intros Ht. by split. Qed.

Lemma session_same r r' : session_ok r -> same_session r r' -> session_ok r'.
Proof.
  intros [H1 H2 H3 H4] (E1 & _ & _ & _ & E5 & E6). split; rewrite ?E1, ?E5; auto.
Qed.
Lemma session_txn r t : session_ok r -> Forall queue_ok (queued t) ->
  (in_multi t = false -> queued t = [] /\ dirty t = false) ->
  (watches t = [] \/ watches t = watches (txn r)) -> session_ok (with_txn r t).
Proof. intros [H1 H2 H3 H4] Hq Hi Hw. split; try done. cbn. by destruct Hw as [->| ->]. Qed.

(** [m] keeps the invariant. *)
Definition keeps_ok {A} (m : M A) : Prop := forall r x r', session_ok r -> m r = Some (x, r') -> session_ok r'.
Lemma keeps_prog {A} (m : M A) : prog m -> keeps_ok m.
Proof. intros Hp r x r' Hr E. eapply session_same; [done|]. by eapply prog_session. Qed.
Lemma keeps_bind {A B} (m : M A) (f : A -> M B) : keeps_ok m -> (forall x, keeps_ok (f x)) -> keeps_ok (m ≫= f).
Proof.
  intros Hm Hf r y r' Hr E. unfold mbind, M_bind in E. destruct (m r) as [[x r1]|] eqn:Em; [|done].
  cbn [mbind option_bind] in E. eapply Hf; [by eapply Hm|done].
Qed.
(** A step that reads the transaction first. *)
Lemma keeps_txn {A} (f : TxnState -> M A) :
  (forall r x r', session_ok r -> f (txn r) r = Some (x, r') -> session_ok r') -> keeps_ok (get_txn ≫= f).
Proof. intros Hf r x r' Hr E. by eapply Hf. Qed.
Lemma keeps_put t : Forall queue_ok (queued t) -> (in_multi t = false -> queued t = [] /\ dirty t = false) ->
  watches t = [] -> keeps_ok (put_txn t).
Proof. intros H1 H2 H3 r x r' Hr E. injection E as <- <-. by apply session_txn; [..|left]. Qed.
Lemma put_then {A} t (m : M A) r x r' : session_ok (with_txn r t) -> keeps_ok m ->
  (put_txn t ;; m) r = Some (x, r') -> session_ok r'.
Proof. intros Hr Hm E. exact (Hm _ _ _ Hr E). Qed.
Lemma keeps_discard : keeps_ok discard.
Proof. apply keeps_put; [constructor|done|done]. Qed.

Lemma keeps_watch key : keeps_ok (watch_one key).
Proof.
  intros r x r' Hr E. unfold watch_one, slot_version in E. destruct (slots _ !! _) as [v|] eqn:Es; [|done].
  cbn in E. injection E as <- <-. destruct Hr as [H1 H2 H3 H4]. split; cbn; try done.
  apply Forall_app_2; [done|]. apply Forall_cons_2; [|done]. by apply slot_in_table.
Qed.
Lemma keeps_for_each {A} (f : A -> M unit) l : (forall x, x ∈ l -> keeps_ok (f x)) -> keeps_ok (for_each f l).
Proof.
  induction l as [|x l IH]; intros Hf; simpl; [apply keeps_prog; constructor|].
  apply keeps_bind; [apply Hf; by left|]. intros _. apply IH. intros y Hy. apply Hf. by right.
Qed.
Lemma keeps_save clock : keeps_ok (cmd_save clock).
Proof.
  intros r x r' Hr E. unfold cmd_save, shared_checkpoint in E. eapply session_same; [done|].
  destruct (negb _); [by injection E as <- <-|]. destruct (db_checkpoint _ _) as [[e|d]|]; [| |done]; by injection E as <- <-.
Qed.

Ltac as_prog Hr := let E := fresh in intros E; eapply keeps_prog; [|exact Hr|exact E]; prog.
Ltac keep_local := first [apply keeps_discard | apply keeps_prog; prog; fail | apply keeps_bind; [|intros ?]; keep_local].

(** Every command that may be queued, and the control commands but EXEC. *)
Lemma keeps_step clock (rec : bytes -> bytes -> list bytes -> M Action) cmd raw args : cmd_is cmd "EXEC" = false ->
  keeps_ok (exec_step clock rec cmd raw args).
Proof.
  intros Hne. destruct (one_of cmd txn_names) eqn:Hc; [|by apply keeps_prog, exec_step_prog].
  assert (Hunknown : keeps_ok (cmd_unknown (default [] (head args)) ;; mret Continue)).
  { apply keeps_prog. unfold cmd_unknown. prog. }
  unfold one_of, txn_names in Hc. cbn [existsb] in Hc. rewrite !orb_true_iff in Hc.
  destruct Hc as [Hc|[Hc|[Hc|[Hc|[Hc|[Hc|[Hc|[Hc|Hc]]]]]]]]; try done; try (by rewrite Hc in Hne);
    apply bool_decide_eq_true in Hc; subst cmd; unfold exec_step; cbv zeta;
    repeat lazymatch goal with |- keeps_ok (if ?b then _ else _) =>
             lazymatch b with context [cmd_is _ _] => let v := eval vm_compute in b in change b with v; cbv iota end end.
  - keep_local.
  - apply keeps_bind; [|intros ?; keep_local]. unfold cmd_multi. apply keeps_txn. intros r x r' Hr.
    destruct (in_multi (txn r)); [as_prog Hr|]. apply put_then; [by apply session_txn; [..|right]|keep_local].
  - apply keeps_bind; [|intros ?; keep_local]. apply keeps_txn. intros r x r' Hr.
    destruct (in_multi (txn r)); [|as_prog Hr].
    assert (Hk : keeps_ok (discard ;; emit OK)) by keep_local. by apply Hk.
  - destruct (2 <=? length args)%nat; [|exact Hunknown]. apply keeps_bind; [|intros ?; keep_local]. unfold cmd_watch.
    apply keeps_txn. intros r x r' Hr. destruct (in_multi (txn r)); [as_prog Hr|].
    assert (Hk : keeps_ok (for_each watch_one (tail args) ;; emit OK)); [|by apply Hk].
    apply keeps_bind; [|intros ?; keep_local]. apply keeps_for_each. intros k _. apply keeps_watch.
  - apply keeps_bind; [|intros ?; keep_local]. apply keeps_txn. intros r x r' Hr.
    apply put_then; [|keep_local]. destruct Hr as [H1 H2 H3 H4]. apply session_txn; [by split|done|done|by left].
  - apply keeps_bind; [apply keeps_save|intros ?; keep_local].
  - apply keeps_bind; [apply keeps_save|intros ?; keep_local].
Qed.

Lemma parse_ranges_arguments raw s e rs : parse_ranges raw = Some ((s, e) :: rs) ->
  map (fun x => slice (fst x) (snd x) raw) ((s, e) :: rs) = slice s e raw :: map (fun x => slice (fst x) (snd x) raw) rs.
Proof. done. Qed.
Lemma keeps_queued depth clock raw : queue_ok raw -> keeps_ok (exec_queued (exec_command (S depth) clock) raw).
Proof.
  unfold queue_ok, exec_queued. destruct (parse_ranges raw) as [[|[s e] rs]|] eqn:Ep; try done. intros Hc.
  cbv zeta. cbn [map fst snd exec_command]. apply keeps_bind; [|intros ?; keep_local]. apply keeps_step.
  unfold control_command, one_of in Hc. cbn [existsb] in Hc. by apply orb_false_iff in Hc as [Hc _].
Qed.
Lemma keeps_lock keys : keeps_ok (txn_lock keys).
Proof.
  intros r x r' Hr E. unfold txn_lock in E. destruct (db_lock _ _ _) as [[d p]|]; [|done]. cbn in E.
  injection E as <- <-. by eapply session_same; [exact Hr|].
Qed.
Lemma keeps_unlock : keeps_ok txn_unlock.
Proof.
  intros r x r' Hr E. unfold txn_unlock in E. destruct (db_unlock _ _) as [[d p]|]; [|done]. cbn in E.
  injection E as <- <-. by eapply session_same; [exact Hr|].
Qed.
Lemma keeps_exec depth clock : keeps_ok (cmd_exec (exec_command (S depth) clock)).
Proof.
  unfold cmd_exec. apply keeps_txn. intros r x r' Hr.
  destruct (negb (in_multi (txn r))); [as_prog Hr|].
  destruct (dirty (txn r)) eqn:Ed; [assert (Hk : keeps_ok (discard ;; emit_error (bs "EXECABORT Transaction discarded because of previous errors.") ;; mret Continue)) by keep_local; by apply Hk|].
  unfold check_watches. unfold mbind at 1, M_bind at 1. destruct (watch_conflict _ _) as [[]|]; cbn [mbind option_bind]; [| |done].
  - assert (Hk : keeps_ok (discard ;; emit NULL_ARRAY ;; mret Continue)) by keep_local. by apply Hk.
  - unfold exec_run. cbv zeta. apply put_then; [by apply session_txn; [..|left]|].
    apply keeps_bind; [keep_local|intros ?]. apply keeps_bind; [keep_local|intros rep].
    apply keeps_bind; [destruct rep; cbn [negb when]; [keep_local|apply keeps_lock]|intros _].
    apply keeps_bind; [keep_local|intros _]. apply keeps_bind.
    { apply keeps_for_each. intros raw Hin. apply keeps_queued. destruct Hr as [_ Hq _ _]. rewrite Forall_forall in Hq. by apply Hq. }
    intros _. apply keeps_bind; [destruct rep; cbn [negb when]; [keep_local|apply keeps_unlock]|intros _]. keep_local.
Qed.

Lemma keeps_now now : keeps_ok (modify_ (fun r => with_now r now)).
Proof. intros r x r' [] E. by injection E as <- <-. Qed.
Lemma keeps_command depth clock cmd raw args : keeps_ok (exec_command (S (S depth)) clock cmd raw args).
Proof.
  cbn [exec_command]. destruct (cmd_is cmd "EXEC") eqn:E; [|by apply keeps_step].
  apply bool_decide_eq_true in E as ->. apply keeps_exec.
Qed.
Lemma keeps_dispatch clock raw ranges : parse_ranges raw = Some ranges ->
  keeps_ok (dispatch clock raw (map (fun x => slice (fst x) (snd x) raw) ranges)).
Proof.
  intros Hp. destruct ranges as [|[s e] rs]; [apply (keeps_prog (mret Continue)); prog|].
  cbn [map fst snd dispatch].
  apply keeps_bind; [keep_local|intros rep]. apply keeps_bind; [destruct rep; cbn [negb when]; [keep_local|apply keeps_now]|intros _].
  cbv zeta. apply keeps_txn. intros r x r' Hr. set (cmd := command_name _).
  destruct (in_multi (txn r) && negb (control_command cmd)) eqn:Ec; [|by apply keeps_command].
  apply andb_true_iff in Ec as [Hm Hc]. apply negb_true_iff in Hc. destruct Hr as [H1 H2 H3 H4].
  destruct (validate_queueable cmd); (apply put_then; [apply session_txn; [done| | |by right]|keep_local]); cbn; try done.
  - by rewrite Hm.
  - apply Forall_app_2; [done|]. apply Forall_cons_2; [|done]. unfold queue_ok. by rewrite Hp.
  - by rewrite Hm.
Qed.

(** C17. Type safety of the session: starting from a new session, dispatching
    any command keeps the session well formed.  Outside MULTI nothing is queued
    and the dirty flag is clear; every queued command parses, to a command EXEC
    may run; every watched slot is a slot of the table, whose mask matches its
    size; so EXEC neither meets an unparsable command nor indexes out of the
    watch table. *)
Theorem dispatch_preserves_session r clock raw ranges a r' : session_ok r -> parse_ranges raw = Some ranges ->
  dispatch clock raw (map (fun x => slice (fst x) (snd x) raw) ranges) r = Some (a, r') ->
  session_ok r' /\ is_Some (watch_conflict (watch (shared r')) (watches (txn r'))).
Proof.
  intros Hr Hp E. assert (Hr' : session_ok r') by exact (keeps_dispatch _ _ _ Hp _ _ _ Hr E).
  split; [done|]. destruct Hr' as [_ _ _ Hw]. induction Hw as [|[s v] ws Hs _ IH]; [done|]. cbn [watch_conflict].
  destruct (lookup_lt_is_Some_2 _ _ Hs) as [v' Hv]. unfold version_at. cbn in Hv. rewrite Hv. cbn [mbind option_bind].
  by destruct (negb _).
Qed.
End Programs.

(** ** Optimistic watches *)

Definition hits (w : WatchTable) (s : nat) (keys : list bytes) : Z :=
  Z.of_nat (length (List.filter (fun k => (slot_of_key w k =? s)%nat) keys)).

Lemma bump_all_slots keys : forall w w', table_ok w -> bump_all w keys = Some w' ->
  table_ok w' /\ wmask w' = wmask w /\
  forall s v, slots w !! s = Some v -> slots w' !! s = Some (wrap64 (v + hits w s keys)).
Proof.
  induction keys as [|k keys IH]; intros w w' Hw; cbn [bump_all].
  { intros [= <-]. split_and!; try done. intros s v Hv. unfold hits. cbn. rewrite Z.add_0_r, wrap64_id; [done|].
    destruct Hw as [_ Hs]. rewrite Forall_lookup in Hs. by eapply Hs. }
  destruct (watch_bump_ok w k Hw) as (w1 & -> & Hw1 & Hm & Hl & Hs). cbn [mbind option_bind]. intros E.
  destruct (IH w1 w' Hw1 E) as (Hw' & Hm' & Hv'). split; [done|]. split; [congruence|]. intros s v Hv.
  assert (Hh : forall s, hits w1 s keys = hits w s keys) by (intros; unfold hits, slot_of_key; by rewrite Hm).
  unfold hits at 1. cbn [List.filter]. destruct (Nat.eqb_spec (slot_of_key w k) s) as [Heq|Hne].
  - rewrite (Hv' s (wrap64 (v + 1))), Hh.
    + f_equal. unfold wrap64. rewrite Z.add_mod_idemp_l by done. f_equal. cbn [length]. unfold hits. lia.
    + by rewrite Hs, Heq, list_lookup_alter, decide_True, Hv by done.
  - rewrite (Hv' s v), Hh; [done|]. by rewrite Hs, list_lookup_alter, decide_False.
Qed.

Lemma version_changed v n : is_u64 v -> 0 <= n < 2 ^ 64 -> (wrap64 (v + n) =? v) = (n =? 0).
Proof.
  intros Hv Hn. unfold is_u64, wrap64, two64 in *. destruct (Z.eqb_spec n 0) as [->|H0].
  - rewrite Z.add_0_r, Z.mod_small by done. apply Z.eqb_refl.
  - apply Z.eqb_neq. destruct (Z.lt_ge_cases (v + n) (2 ^ 64)).
    + rewrite Z.mod_small by lia. lia.
    + replace (v + n) with (v + n - 2 ^ 64 + 1 * 2 ^ 64) by lia. rewrite Z.mod_add by done. rewrite Z.mod_small by lia. lia.
Qed.

(** Some watched slot is that of a key written since. *)
Definition written_since (w : WatchTable) (keys : list bytes) (ws : list (nat * Z)) : bool :=
  existsb (fun p => existsb (fun k => (slot_of_key w k =? fst p)%nat) keys) ws.
Lemma hits_zero w s keys : (hits w s keys =? 0) = negb (existsb (fun k => (slot_of_key w k =? s)%nat) keys).
Proof.
  unfold hits. induction keys as [|k keys IH]; [done|]. cbn [List.filter existsb].
  destruct (slot_of_key w k =? s)%nat; [|done]. cbn [length negb orb]. apply Z.eqb_neq. lia.
Qed.
Lemma watch_conflict_written w keys w' ws : table_ok w -> bump_all w keys = Some w' -> Z.of_nat (length keys) < 2 ^ 64 ->
  Forall (fun p => slots w !! fst p = Some (snd p)) ws -> watch_conflict w' ws = Some (written_since w keys ws).
Proof.
  intros Hw E Hk. destruct (bump_all_slots keys w w' Hw E) as (_ & _ & Hv).
  induction 1 as [|[s v] ws Hs _ IH]; [done|]. cbn [fst snd] in Hs. cbn [watch_conflict]. unfold version_at.
  rewrite (Hv s v Hs). cbn [mbind option_bind]. rewrite version_changed, hits_zero, negb_involutive.
  - unfold written_since in *. cbn [existsb fst]. by destruct (existsb _ keys).
  - destruct Hw as [_ Hu]. rewrite Forall_lookup in Hu. by eapply Hu.
  - unfold hits. split; [lia|]. pose proof (List.filter_length_le (fun k => (slot_of_key w k =? s)%nat) keys). lia.
Qed.

Section Watches.
Context {D P : Type} `{HDB : Database D P}.

(** C19. Optimistic locking: if the watched slots were read from table [w] and
    the keys [keys] have been written since, EXEC replies the null array,
    touching nothing but the transaction, exactly when some watched slot is the
    slot of a written key; otherwise it runs the queue.  (Another key of the
    same slot aborts it too; 2^64 writes could hide one.) *)
Theorem exec_aborts_iff_written (r : RespSession D P) exec w keys : table_ok w ->
  bump_all w keys = Some (watch (shared r)) -> Z.of_nat (length keys) < 2 ^ 64 ->
  Forall (fun p => slots w !! fst p = Some (snd p)) (watches (txn r)) ->
  in_multi (txn r) = true -> dirty (txn r) = false ->
  cmd_exec exec r = if written_since w keys (watches (txn r))
                    then Some (Continue, with_out (with_txn r txn_default) (out r ++ NULL_ARRAY))
                    else exec_run exec (txn r) r.
Proof.
  intros Hw E Hk Hws Hm Hd. unfold cmd_exec, get_txn, gets, check_watches. unfold mbind at 1, M_bind at 1.
  cbn [mbind option_bind]. rewrite Hm, Hd. cbn [negb]. unfold mbind at 1, M_bind at 1.
  rewrite (watch_conflict_written w keys _ _ Hw E Hk Hws). cbn [mbind option_bind]. by destruct (written_since _ _ _).
Qed.
End Watches.

(** ** Expiry arguments *)

(** The timestamp an expiry argument means. *)
Definition meant_expiry (keyword : bytes) (t now : Z) : Z :=
  if eq_ignore_ascii_case keyword (bs "EX") then now + t * 1000
  else if eq_ignore_ascii_case keyword (bs "PX") then now + t
  else if eq_ignore_ascii_case keyword (bs "EXAT") then t * 1000
  else t.

Lemma wrap_i64_eq z : exists q, wrap_i64 z = z + q * 2 ^ 64.
Proof.
  unfold wrap_i64, two64. pose proof (Z.div_mod (z + 2 ^ 63) (2 ^ 64) ltac:(done)).
  exists (- ((z + 2 ^ 63) / 2 ^ 64)). lia.
Qed.
Lemma wrap_i64_add x q : wrap_i64 (x + q * 2 ^ 64) = wrap_i64 x.
Proof. unfold wrap_i64, two64. f_equal. rewrite <- Z.add_assoc, (Z.add_comm (q * _)), Z.add_assoc. by apply Z.mod_add. Qed.

(** The timestamp is the one meant whenever that fits 64 bits; a larger one
    wraps, and a far future PX comes out before the epoch. *)
Lemma expire_at_ms_exact keyword t now : is_i64 t -> is_i64 now ->
  expire_at_ms keyword t now = wrap_i64 (meant_expiry keyword t now) /\
  (is_i64 (meant_expiry keyword t now) -> expire_at_ms keyword t now = meant_expiry keyword t now).
Proof.
  intros Ht Hn. assert (E : expire_at_ms keyword t now = wrap_i64 (meant_expiry keyword t now)).
  { unfold expire_at_ms, meant_expiry. destruct (eq_ignore_ascii_case keyword (bs "EX")).
    - destruct (wrap_i64_eq (t * 1000)) as [q ->]. by rewrite Z.add_assoc, wrap_i64_add.
    - destruct (eq_ignore_ascii_case _ _); [done|]. destruct (eq_ignore_ascii_case _ _); [done|]. by rewrite wrap_i64_id. }
  split; [done|]. intros H. by rewrite E, wrap_i64_id.
Qed.
Example expiry_overflows : expire_at_ms (bs "px") i64_max 1000 = i64_min + 999.
Proof. vm_compute. reflexivity. Qed.

(** ** Witnesses *)

#[local] Existing Instance map_db.
Definition words (parts : list string) : bytes := encode_command (map bs parts).

Definition demo_shared : Shared (gmap bytes bytes) := shared_new ∅ false false false Never [].

Lemma dispatch_preserves_session_witness : exists a r',
  let r := resp_session_new demo_shared in
  dispatch 5 (words ["MULTI"]%string) [bs "MULTI"] r = Some (a, r') /\ session_ok r'.
Proof.
  destruct (dispatch 5 (words ["MULTI"]%string) [bs "MULTI"] (resp_session_new demo_shared)) as [[a r']|] eqn:E;
    [|vm_compute in E; discriminate].
  destruct (parse_ranges (words ["MULTI"]%string)) as [ranges|] eqn:Ep; [|vm_compute in Ep; discriminate].
  exists a, r'. split; [done|]. refine (proj1 (dispatch_preserves_session (resp_session_new demo_shared) 5 _ ranges a r' _ Ep _)).
  - apply session_new_ok, watch_new_ok.
  - rewrite <- E. vm_compute in Ep. injection Ep as <-. vm_compute. reflexivity.
Defined.

Lemma exec_aborts_iff_written_witness :
  let w := watch_new 4 in
  exists w', bump_all w [bs "a"] = Some w' /\ forall exec,
    let r := with_txn (resp_session_new (MkShared (∅ : gmap bytes bytes) None false w' false 0))
               (MkTxn true false [] [(slot_of_key w (bs "a"), 0)]) in
    cmd_exec exec r = Some (Continue, with_out (with_txn r txn_default) NULL_ARRAY).
Proof.
  intros w. destruct (bump_all w [bs "a"]) as [w'|] eqn:E; [|vm_compute in E; discriminate]. exists w'. split; [done|].
  intros exec r. rewrite (exec_aborts_iff_written r exec w [bs "a"]).
  - change (watches (txn r)) with [(slot_of_key w (bs "a"), 0)]. assert (E1 : written_since w [bs "a"] [(slot_of_key w (bs "a"), 0)] = true).
    { unfold written_since. cbn [existsb fst]. by rewrite Nat.eqb_refl. }
    rewrite E1. reflexivity.
  - apply watch_new_ok.
  - exact E.
  - by vm_compute.
  - apply Forall_cons_2; [vm_compute; reflexivity|apply Forall_nil_2].
  - reflexivity.
  - reflexivity.
Defined.
