(* ===== verification/CommandsTrace.v ===== *)
(** * What a command does to the shared state

    Commands run over a database that records the calls it receives; a
    computation is summarised by an effect, the calls it makes, the watch slots
    it bumps and the entries it logs, and each handler is proved to stay within
    the keys it names and to keep its books.  Then EXEC: two-phase locking and
    the bracket it writes. *)

From S2P Require Import Prelude Resp Session Functions Store Aof Shared Commands CommandsSpec.

(** ** Recording a database *)

Inductive Event :=
  | Locked (keys : list (bytes * LockType))
  | Unlocked
  | Touched (key : bytes) (write : bool) (s : Status)
  | Removed (key : bytes) (s : Status)
  (** calls on the whole store, which take no latch: the scan of the live keys,
      the clearing of the index, a checkpoint that was taken *)
  | Listed
  | Cleared
  | Saved.

Definition traced {D P} (H : Database D P) : Database (D * list Event) P := {|
  db_session := fun d => db_session (fst d);
  db_read := fun d p k i o =>
    '(s, o, d', p) ← db_read (fst d) p k i o; Some (s, o, (d', snd d ++ [Touched k false s]), p);
  db_upsert := fun d p k i o =>
    '(s, o, d', p) ← db_upsert (fst d) p k i o; Some (s, o, (d', snd d ++ [Touched k true s]), p);
  db_rmw := fun d p k i o =>
    '(s, o, d', p) ← db_rmw (fst d) p k i o; Some (s, o, (d', snd d ++ [Touched k true s]), p);
  db_delete := fun d p k =>
    '(s, d', p) ← db_delete (fst d) p k; Some (s, (d', snd d ++ [Removed k s]), p);
  db_live := fun d p => '(keys, d', p) ← db_live (fst d) p; Some (keys, (d', snd d ++ [Listed]), p);
  db_clear := fun d => (db_clear (fst d), snd d ++ [Cleared]);
  db_lock := fun d p keys => '(d', p) ← db_lock (fst d) p keys; Some ((d', snd d ++ [Locked keys]), p);
  db_unlock := fun d p => '(d', p) ← db_unlock (fst d) p; Some ((d', snd d ++ [Unlocked]), p);
  db_checkpoint := fun d a =>
    res ← db_checkpoint (fst d) a;
    Some (match res with inl e => inl e | inr d' => inr (d', snd d ++ [Saved]) end) |}.

(** What the books rely on in the statuses of a read-modify-write: GETDEL
    changes a record only to delete it, and PERSIST reports 1 when it wrote. *)
Class HonestStatus {D P} (H : Database D P) := {
  getdel_status : forall d p k v n e now o s o' d' p',
    db_rmw d p k (Input GetDel v n e now) o = Some (s, o', d', p') -> is_updated s = true -> s = Deleted;
  persist_status : forall d p k v n e now o s o' d' p',
    db_rmw d p k (Input Persist v n e now) o = Some (s, o', d', p') -> is_updated s = true ->
    has_int o' = true /\ int o' = 1 }.

(** ** Effects *)

Record Effect := Eff { ev : list Event; bumped : list bytes; logged : list AofEntry }.
Definition no_effect : Effect := Eff [] [] [].
Definition then_ (e e' : Effect) : Effect :=
  Eff (ev e ++ ev e') (bumped e ++ bumped e') (logged e ++ logged e').

Section Trace.
Context {D0 P : Type} {HDB : Database D0 P}.
#[local] Instance DB : Database (D0 * list Event) P := traced HDB.
Abbreviation D := (D0 * list Event)%type.
Abbreviation M := (M D P).
Abbreviation Resp := (RespSession D P).
Implicit Types (r : Resp) (key raw : bytes) (args : list bytes) (e : Effect).

Definition trace_of r : list Event := snd (sh_store (shared r)).

(** [r'] is [r] after [e]; a checkpoint truncates the log. *)
Record effect r e r' : Prop := {
  eff_events : trace_of r' = trace_of r ++ ev e;
  eff_watch : bump_all (watch (shared r)) (bumped e) = Some (watch (shared r'));
  eff_aof : Saved ∉ ev e -> log_grows (sh_aof (shared r)) (sh_aof (shared r')) (logged e);
  eff_now : r_now r' = r_now r;
  eff_replay : replay r' = replay r }.

Lemma effect_none r r' : trace_of r' = trace_of r -> watch (shared r') = watch (shared r) ->
  sh_aof (shared r') = sh_aof (shared r) -> r_now r' = r_now r -> replay r' = replay r -> effect r no_effect r'.
Proof.
  intros H1 H2 H3 H4 H5. split; [by rewrite app_nil_r|by rewrite H2|intros _; rewrite H3; apply log_grows_refl|done..].
Qed.

Lemma effect_then r1 e r2 e' r3 : effect r1 e r2 -> effect r2 e' r3 -> effect r1 (then_ e e') r3.
Proof.
  intros [A1 A2 A3 A4 A5] [B1 B2 B3 B4 B5]. split; cbn [ev bumped logged then_].
  - by rewrite B1, A1, app_assoc.
  - by rewrite bump_all_app, A2.
  - intros [Hn1 Hn2]%not_elem_of_app. eapply log_grows_trans; auto.
  - congruence.
  - congruence.
Qed.

(** ** A logic of effects

    [does m Q]: whenever [m] returns, at time [now] and in replay mode or not,
    it has an effect in [Q]. *)
Section Logic.
Context (now : Z) (rep : bool).

Definition does {A} (m : M A) (Q : A -> Effect -> Prop) : Prop := forall r x r',
  r_now r = now -> replay r = rep -> m r = Some (x, r') -> exists e, effect r e r' /\ Q x e.

Lemma does_mono {A} (m : M A) (Q Q' : A -> Effect -> Prop) : does m Q -> (forall x e, Q x e -> Q' x e) -> does m Q'.
Proof. intros H HQ r x r' Hn Hr E. destruct (H r x r' Hn Hr E) as (e & ? & ?). eauto. Qed.

Lemma does_bind {A B} (m : M A) (f : A -> M B) (Q : B -> Effect -> Prop) :
  does m (fun x e => does (f x) (fun y e' => Q y (then_ e e'))) -> does (m ≫= f) Q.
Proof.
  intros H r y r' Hn Hr E. unfold mbind, M_bind in E. destruct (m r) as [[x r1]|] eqn:Em; [|done].
  cbn [mbind option_bind] in E. destruct (H r x r1 Hn Hr Em) as (e1 & H1 & HQ).
  destruct (HQ r1 y r') as (e2 & H2 & HQ2); [by rewrite (eff_now _ _ _ H1)|by rewrite (eff_replay _ _ _ H1)|done|].
  exists (then_ e1 e2). split; [by eapply effect_then|done].
Qed.

Lemma does_fail {A} (Q : A -> Effect -> Prop) : does (lift None) Q.
Proof. intros r x r' _ _ E. done. Qed.

(** A step that leaves the shared state and the clock alone. *)
Lemma does_local {A} (f : Resp -> A * Resp) (Q : A -> Effect -> Prop) :
  (forall r, shared (snd (f r)) = shared r /\ r_now (snd (f r)) = r_now r /\ replay (snd (f r)) = replay r) ->
  (forall r, r_now r = now -> replay r = rep -> Q (fst (f r)) no_effect) -> does (fun r => Some (f r)) Q.
Proof.
  intros Hf HQ r x r' Hn Hr E. injection E as E. exists no_effect. destruct (Hf r) as (Hs & Hnow & Hrep).
  specialize (HQ r Hn Hr). rewrite E in *. cbn [fst snd] in *. split; [|done].
  apply effect_none; unfold trace_of; by rewrite ?Hs.
Qed.

Lemma does_ret {A} (x : A) (Q : A -> Effect -> Prop) : Q x no_effect -> does (mret x) Q.
Proof. intros H. by apply (does_local (fun r => (x, r))). Qed.
Lemma does_now (Q : Z -> Effect -> Prop) : Q now no_effect -> does (gets r_now) Q.
Proof. intros H. apply (does_local (fun r => (r_now r, r))); [done|]. by intros r <- _. Qed.
Lemma does_replay (Q : bool -> Effect -> Prop) : Q rep no_effect -> does (gets replay) Q.
Proof. intros H. apply (does_local (fun r => (replay r, r))); [done|]. by intros r _ <-. Qed.
Lemma does_gets {A} (f : Resp -> A) (Q : A -> Effect -> Prop) : (forall x, Q x no_effect) -> does (gets f) Q.
Proof. intros H. by apply (does_local (fun r => (f r, r))). Qed.
Lemma does_reply f (Q : unit -> Effect -> Prop) : Q tt no_effect -> does (reply f) Q.
Proof. intros H. by apply (does_local (fun r => (tt, with_out r (f (out r))))). Qed.
Lemma does_put_txn t (Q : unit -> Effect -> Prop) : Q tt no_effect -> does (put_txn t) Q.
Proof. intros H. by apply (does_local (fun r => (tt, with_txn r t))). Qed.
Lemma does_clear_scratch (Q : unit -> Effect -> Prop) : Q tt no_effect -> does clear_scratch Q.
Proof. intros H. unfold clear_scratch, modify_. by apply (does_local (fun r => (tt, _))). Qed.

(** Calls into the database. *)
Lemma does_call f (event : Status -> Event) (Q : Status -> Effect -> Prop) :
  (forall d p o s o' d' p', f d p o = Some (s, o', d', p') -> snd d' = snd d ++ [event s]) ->
  (forall s, Q s (Eff [event s] [] [])) -> does (call f) Q.
Proof.
  intros Hf HQ r x r' Hn Hr E. unfold call in E. destruct (f _ _ _) as [[[[s o'] d'] p']|] eqn:Ef; [|done].
  cbn [mbind option_bind] in E. injection E as <- <-. exists (Eff [event s] [] []). split; [|done].
  split; cbn [ev bumped logged]; try done; [|intros _; apply log_grows_refl]. unfold trace_of. by rewrite <- (Hf _ _ _ _ _ _ _ Ef).
Qed.
Lemma does_read key i (Q : Status -> Effect -> Prop) :
  (forall s, Q s (Eff [Touched key false s] [] [])) -> does (store_read key i) Q.
Proof.
  apply does_call. intros d p o s o' d' p'. cbn. destruct (db_read _ _ _ _ _) as [[[[? ?] ?] ?]|]; [|done].
  cbn. by intros [= <- <- <- <-].
Qed.
Lemma does_upsert key i (Q : Status -> Effect -> Prop) :
  (forall s, Q s (Eff [Touched key true s] [] [])) -> does (store_upsert key i) Q.
Proof.
  apply does_call. intros d p o s o' d' p'. cbn. destruct (db_upsert _ _ _ _ _) as [[[[? ?] ?] ?]|]; [|done].
  cbn. by intros [= <- <- <- <-].
Qed.
Lemma does_rmw key i (Q : Status -> Effect -> Prop) :
  (forall s, Q s (Eff [Touched key true s] [] [])) -> does (store_rmw key i) Q.
Proof.
  apply does_call. intros d p o s o' d' p'. cbn. destruct (db_rmw _ _ _ _ _) as [[[[? ?] ?] ?]|]; [|done].
  cbn. by intros [= <- <- <- <-].
Qed.
Lemma does_delete key (Q : Status -> Effect -> Prop) :
  (forall s, Q s (Eff [Removed key s] [] [])) -> does (store_delete key) Q.
Proof.
  apply does_call. intros d p o s o' d' p'. cbn. destruct (db_delete _ _ _) as [[[? ?] ?]|]; [|done].
  cbn. by intros [= <- <- <- <-].
Qed.
Lemma does_lock keys (Q : unit -> Effect -> Prop) : Q tt (Eff [Locked keys] [] []) -> does (txn_lock keys) Q.
Proof.
  intros HQ r x r' Hn Hr E. unfold txn_lock in E. cbn in E. destruct (db_lock _ _ _) as [[d' p']|]; [|done].
  cbn in E. injection E as <- <-. eexists. split; [|exact HQ]. split; try done. intros _. apply log_grows_refl.
Qed.
Lemma does_unlock (Q : unit -> Effect -> Prop) : Q tt (Eff [Unlocked] [] []) -> does txn_unlock Q.
Proof.
  intros HQ r x r' Hn Hr E. unfold txn_unlock in E. cbn in E. destruct (db_unlock _ _) as [[d' p']|]; [|done].
  cbn in E. injection E as <- <-. eexists. split; [|exact HQ]. split; try done. intros _. apply log_grows_refl.
Qed.
(** Calls on the whole store. *)
Lemma does_live (Q : list bytes -> Effect -> Prop) : (forall keys, Q keys (Eff [Listed] [] [])) -> does live_keys Q.
Proof.
  intros HQ r x r' Hn Hr E. unfold live_keys in E. cbn in E. destruct (db_live _ _) as [[[keys d'] p']|]; [|done].
  cbn in E. injection E as <- <-. eexists. split; [|apply HQ]. split; try done. intros _. apply log_grows_refl.
Qed.
Lemma does_flush (Q : unit -> Effect -> Prop) : Q tt (Eff [Cleared] [] []) -> does flush_db Q.
Proof.
  intros HQ r x r' Hn Hr E. injection E as <- <-. eexists. split; [|exact HQ]. split; try done. intros _. apply log_grows_refl.
Qed.
Lemma does_save clock (Q : unit -> Effect -> Prop) : Q tt no_effect -> Q tt (Eff [Saved] [] []) -> does (cmd_save clock) Q.
Proof.
  intros H0 H1 r x r' Hn Hr E. unfold cmd_save, shared_checkpoint in E.
  destruct (negb _); [injection E as <- <-; exists no_effect; split; [by apply effect_none|done]|]. cbn in E.
  destruct (db_checkpoint _ _) as [[e|d]|]; cbn in E; [| |done]; injection E as <- <-.
  - exists no_effect. split; [by apply effect_none|done].
  - eexists. split; [|exact H1]. split; try done. intros []. by left.
Qed.

(** Books. *)
Lemma does_bump key (Q : unit -> Effect -> Prop) : Q tt (Eff [] [key] []) -> does (bump_watch key) Q.
Proof.
  intros HQ r x r' Hn Hr E. unfold bump_watch in E. destruct (watch_bump _ _) as [w|] eqn:Ew; [|done].
  cbn in E. injection E as <- <-. eexists. split; [|exact HQ]. split; try done; cbn.
  - unfold trace_of. by rewrite app_nil_r.
  - by rewrite Ew.
  - intros _. apply log_grows_refl.
Qed.

Lemma does_append op raw wait (Q : unit -> Effect -> Prop) :
  Q tt (Eff [] [] [Entry op now raw]) -> does (aof_append op raw wait) Q.
Proof.
  intros HQ r x r' Hn Hr E. unfold aof_append in E. destruct (sh_aof (shared r)) as [a|] eqn:Ea.
  - destruct (enqueue a op (r_now r) raw) as [end_ a1] eqn:Ee.
    destruct (if _ : bool then _ else _) as [a2|] eqn:Ew in E; [|done]. cbn in E. injection E as <- <-.
    eexists. split; [|exact HQ]. split; cbn; try done; [unfold trace_of; by rewrite app_nil_r|].
    intros _. rewrite Ea. intros es0 H0 [He _]%Forall_cons. rewrite <- Hn in *.
    destruct (enqueue_holds a es0 _ _ _ _ _ H0 He Ee) as (H1 & _).
    destruct (wait && _); [by eapply wait_holds|by injection Ew as <-].
  - injection E as <- <-. eexists. split; [|exact HQ]. split; cbn; try done; [unfold trace_of; by rewrite app_nil_r|].
    intros _. by rewrite Ea.
Qed.

(** One step of symbolic execution. *)
Ltac does_step :=
  lazymatch goal with
  | |- does (mbind _ _) _ => apply does_bind
  | |- does (mret _) _ => apply does_ret
  | |- does (lift None) _ => apply does_fail
  | |- does (gets r_now) _ => apply does_now
  | |- does (gets replay) _ => apply does_replay
  | |- does (gets _) _ => apply does_gets; intros ?
  | |- does get_txn _ => apply does_gets; intros ?
  | |- does (reply _) _ => apply does_reply
  | |- does (emit _) _ => apply does_reply
  | |- does (emit_bulk _) _ => apply does_reply
  | |- does (emit_int _) _ => apply does_reply
  | |- does (emit_error _) _ => apply does_reply
  | |- does (emit_simple _) _ => apply does_reply
  | |- does (emit_array _) _ => apply does_reply
  | |- does (put_txn _) _ => apply does_put_txn
  | |- does discard _ => apply does_put_txn
  | |- does clear_scratch _ => apply does_clear_scratch
  | |- does (store_read _ _) _ => apply does_read; intros ?
  | |- does (store_upsert _ _) _ => apply does_upsert; intros ?
  | |- does (store_rmw _ _) _ => apply does_rmw; intros ?
  | |- does (store_delete _) _ => apply does_delete; intros ?
  | |- does (bump_watch _) _ => apply does_bump
  | |- does (aof_append _ _ _) _ => apply does_append
  | |- does live_keys _ => apply does_live; intros ?
  | |- does flush_db _ => apply does_flush
  | |- does (cmd_save _) _ => apply does_save
  | |- does (when ?b _) _ => unfold when at 1
  | |- does (log_write _) _ => unfold log_write at 1
  | |- does (after_write _ _) _ => unfold after_write at 1
  | |- does (if ?b then _ else _) _ => destruct b eqn:?
  | |- does (match ?x with _ => _ end) _ => destruct x eqn:?
  end.

(** ** Handlers

    [post strict nx K whole raw e]: the calls of [e] are on keys [K] allows
    (with [true] to write) or on the whole store as [whole] allows, nothing is
    logged in replay and otherwise at most the command, once; and, if [strict],
    every call that changed a record has its key's watch slot bumped and the
    command logged, and clearing the index does neither.  With [nx] (the rule of
    SETNX) only a record that was created counts as changed. *)
Section Handlers.
Context (strict nx : bool) (K : bytes -> bool -> Prop) (whole : Event -> Prop) (raw : bytes).

Definition allowed (v : Event) : Prop :=
  match v with
  | Touched k w _ => K k w
  | Removed k _ => K k true
  | Locked _ | Unlocked => False
  | Listed | Cleared | Saved => whole v
  end.
Definition entry : AofEntry := Entry AofCommand now raw.
Definition kept_books (e : Effect) (v : Event) : Prop :=
  match v with
  | Touched k true s => is_updated s = true -> (nx = true -> s = Created) -> k ∈ bumped e /\ (rep = false -> logged e = [entry])
  | Removed k s => s = Deleted -> k ∈ bumped e /\ (rep = false -> logged e = [entry])
  | Cleared => bumped e = [] /\ logged e = []
  | _ => True
  end.
Record post e : Prop := {
  post_keys : Forall allowed (ev e);
  post_log : logged e = [] \/ (rep = false /\ logged e = [entry]);
  post_books : strict = true -> Forall (kept_books e) (ev e) }.
Abbreviation fine m := (does m (fun _ e => post e)) (only parsing).

(** Closing an effect: keys, log, books. *)
Ltac each := repeat apply Forall_cons_2; try apply Forall_nil_2; simpl.
Ltac member := simpl; rewrite ?elem_of_app, ?elem_of_cons in *; tauto.
Ltac book := first [done | intros; congruence | solve [intros; exfalso; auto] | intros; split; [member|intros; first [reflexivity|congruence]]].
Ltac books :=
  lazymatch goal with
  | |- post _ => split; cbn [then_ no_effect ev bumped logged app];
      [each; eauto
      |first [by left | right; split; [congruence|done]]
      |intros; each; book]
  end.
Ltac handler := intros; repeat (cbv beta zeta; does_step); books.

Lemma cmd_get_fine k : K k false -> fine (cmd_get k).
Proof. unfold cmd_get. handler. Qed.
Lemma cmd_read_int_fine k op : K k false -> fine (cmd_read_int k op).
Proof. unfold cmd_read_int. handler. Qed.
Lemma cmd_getrange_fine k s t : K k false -> fine (cmd_getrange k s t).
Proof. unfold cmd_getrange. handler. Qed.
Lemma cmd_ttl_fine k ms : K k false -> fine (cmd_ttl k ms).
Proof. unfold cmd_ttl. handler. Qed.
Lemma cmd_type_fine k : K k false -> fine (cmd_type k).
Proof. unfold cmd_type. handler. Qed.
Lemma cmd_rmw_int_fine k op v d : K k true -> fine (cmd_rmw_int raw k op v d).
Proof. unfold cmd_rmw_int. handler. Qed.

Lemma cmd_incr_fine k d : K k true -> fine (cmd_incr raw k d).
Proof. unfold cmd_incr. handler. Qed.
Lemma cmd_setrange_fine k o v : K k true -> fine (cmd_setrange raw k o v).
Proof. unfold cmd_setrange, cmd_rmw_int. handler. Qed.
Lemma cmd_expire_fine k t u at_ : K k true -> fine (cmd_expire raw k t u at_).
Proof. unfold cmd_expire. handler. Qed.
Lemma cmd_setex_fine k t v ms : K k true -> fine (cmd_setex raw k t v ms).
Proof. unfold cmd_setex. handler. Qed.
Lemma cmd_getset_fine k v : K k true -> fine (cmd_getset raw k v).
Proof. unfold cmd_getset. handler. Qed.
(** A read-modify-write whose output the handler goes on to use. *)
Lemma does_rmw_out key i (f : Status -> StringOutput -> M unit) (Q : unit -> Effect -> Prop) :
  (forall s o d p o0 d' p', db_rmw (Database := HDB) d p key i o0 = Some (s, o, d', p') ->
     does (f s o) (fun y e => Q y (then_ (Eff [Touched key true s] [] []) e))) ->
  does (store_rmw key i ≫= fun s => gets out_scratch ≫= f s) Q.
Proof.
  intros HQ r x r' Hn Hr E. unfold mbind at 1, M_bind, store_rmw, call in E. cbn in E.
  destruct (db_rmw _ _ _ _ _) as [[[[s o'] d'] p']|] eqn:Ed; [|done]. cbn in E. unfold mbind, M_bind in E. cbn in E.
  specialize (HQ _ _ _ _ _ _ _ Ed (with_store (with_scratch r o') (d', snd (sh_store (shared r)) ++ [Touched key true s]) p') x r').
  destruct (HQ Hn Hr E) as (e & [H1 H2 H3 H4 H5] & HQe).
  eexists. split; [|exact HQe]. split; try done.
  - unfold trace_of in *. cbn [then_ ev] in *. rewrite H1. cbn. by rewrite <- app_assoc.
  - intros Hn'. apply H3. intros Hin. apply Hn'. by right.
Qed.
Lemma cmd_getdel_fine k : (strict = true -> HonestStatus HDB) -> K k true -> fine (cmd_getdel raw k).
Proof.
  intros HS HK. unfold cmd_getdel. destruct strict eqn:Es; [|handler]. specialize (HS eq_refl).
  do 4 does_step. apply does_rmw_out. intros s o d p o0 d' p' E.
  pose proof (getdel_status _ _ _ _ _ _ _ _ _ _ _ _ E) as HE.
  destruct s; try discriminate (HE eq_refl); cbn; repeat (cbv beta zeta; does_step); books.
Qed.
Lemma cmd_persist_fine k : (strict = true -> HonestStatus HDB) -> K k true -> fine (cmd_persist raw k).
Proof.
  intros HS HK. unfold cmd_persist. destruct strict eqn:Est; [|handler]. specialize (HS eq_refl).
  do 2 does_step. apply does_rmw_out. intros s o d p o0 d' p' E.
  pose proof (persist_status _ _ _ _ _ _ _ _ _ _ _ _ E) as HE.
  destruct (is_updated s) eqn:Es; [destruct (HE eq_refl) as [H1 H2]; rewrite H1, H2|]; cbn;
    repeat (cbv beta zeta; does_step); books.
Qed.
Lemma cmd_setnx_fine k v : nx = true -> K k true -> fine (cmd_setnx raw k v).
Proof.
  intros Hnx HK. unfold cmd_setnx. do 4 does_step. cbv zeta. destruct (bool_decide_reflect (s = Created)) as [->|Hs]; handler.
Qed.
Lemma flush_fine : whole Cleared -> fine (flush_db ;; emit OK).
Proof. handler. Qed.
Lemma save_fine clock : whole Saved -> fine (cmd_save clock).
Proof. handler. Qed.
Lemma dbsize_fine : whole Listed -> fine (live ← live_keys; emit_int (wrap_i64 (Z.of_nat (length live)))).
Proof. handler. Qed.
Lemma cmd_getex_fine args : (forall k w, args !! 1%nat = Some k -> K k w) -> fine (cmd_getex raw args).
Proof.
  intros HK. destruct args as [|a0 [|k args]]; [by apply does_fail..|].
  pose proof (HK k true eq_refl). pose proof (HK k false eq_refl).
  unfold cmd_getex. destruct args; [by apply cmd_get_fine|]. handler.
Qed.
Lemma cmd_set_fine args : (forall k, args !! 1%nat = Some k -> K k true) -> fine (cmd_set raw args).
Proof. intros HK. destruct args as [|a0 [|k args]]; [| |pose proof (HK k eq_refl)]; unfold cmd_set; handler. Qed.

(** Commands over several keys: a loop's effect is [post] with no entry. *)
Definition quiet e : Prop := Forall (fun v => match v with Touched k w _ => K k w /\ w = false | Listed => whole v | _ => False end) (ev e) /\ logged e = [].
Lemma quiet_none : quiet no_effect.
Proof. done. Qed.
Lemma quiet_then e e' : quiet e -> quiet e' -> quiet (then_ e e').
Proof. intros [H1 H2] [H3 H4]. split; cbn; [by apply Forall_app_2|by rewrite H2, H4]. Qed.
Lemma quiet_post e : quiet e -> post e.
Proof.
  intros [H1 H2]. split; [|by left|intros _]; (eapply Forall_impl; [exact H1|]); intros []; simpl; try done.
  - by intros [? ->].
  - by intros [_ ->].
Qed.
Lemma for_each_quiet {A} (f : A -> M unit) l : Forall (fun x => does (f x) (fun _ e => quiet e)) l ->
  does (for_each f l) (fun _ e => quiet e).
Proof.
  induction 1 as [|x l Hx _ IH]; simpl; [by apply does_ret|]. apply does_bind. eapply does_mono; [exact Hx|].
  intros ? e He. eapply does_mono; [exact IH|]. intros ? e' He'. by apply quiet_then.
Qed.
Ltac quiet_handler := intros; repeat (cbv beta zeta; does_step); (split; cbn; [each; eauto|done]).
Lemma cmd_mget_fine args : Forall (fun k => K k false) (tail args) -> fine (cmd_mget args).
Proof.
  intros H. unfold cmd_mget. do 2 does_step. eapply does_mono; [apply for_each_quiet|].
  - eapply Forall_impl; [exact H|]. intros k Hk. unfold cmd_get. quiet_handler.
  - intros ? e He. by apply quiet_post, quiet_then.
Qed.
Lemma count_exists_quiet keys n : Forall (fun k => K k false) keys -> does (count_keys exists_one keys n) (fun _ e => quiet e).
Proof.
  intros H. revert n. induction H as [|k keys Hk _ IH]; intros n; simpl; [by apply does_ret|].
  apply does_bind. apply (does_mono _ (fun _ e => quiet e)); [unfold exists_one; quiet_handler|].
  intros b e He. eapply does_mono; [apply IH|]. intros ? e' He'. by apply quiet_then.
Qed.
Lemma cmd_exists_fine args : Forall (fun k => K k false) (tail args) -> fine (cmd_exists args).
Proof.
  intros H. unfold cmd_exists. does_step. eapply does_mono; [by apply count_exists_quiet|].
  intros n e He. does_step. apply quiet_post. by apply quiet_then.
Qed.
Lemma cmd_keys_fine p : whole Listed -> fine (cmd_keys p).
Proof.
  intros HL. unfold cmd_keys. do 2 does_step. cbv zeta. do 2 does_step. eapply does_mono; [apply for_each_quiet|].
  - apply Forall_forall. intros k _. quiet_handler.
  - intros ? e He. apply quiet_post, quiet_then; [split; cbn; [each|]; done|by apply quiet_then].
Qed.

(** The calls of a loop that writes, before the command is logged: every
    record changed has its slot bumped. *)
Record looped e : Prop := {
  lo_keys : Forall allowed (ev e);
  lo_log : logged e = [];
  lo_books : Forall (fun v => match v with
                              | Touched k true s => is_updated s = true -> k ∈ bumped e
                              | Removed k s => s = Deleted -> k ∈ bumped e
                              | Cleared => False
                              | _ => True end) (ev e) }.
Lemma looped_then e e' : looped e -> looped e' -> looped (then_ e e').
Proof.
  intros [A1 A2 A3] [B1 B2 B3]. split; cbn [then_ ev logged bumped]; [by apply Forall_app_2|by rewrite A2, B2|].
  apply Forall_app_2; (eapply Forall_impl; [eassumption|]); intros [| |k []| | | |]; simpl; intros; try done; member.
Qed.
Lemma looped_none : looped no_effect.
Proof. by split. Qed.
(** Then the command is logged. *)
Lemma looped_post e e' : looped e -> ev e' = [] -> logged e' = (if rep then [] else [entry]) -> post (then_ e e').
Proof.
  intros [A1 A2 A3] B1 B2. split; cbn [then_ ev logged bumped]; rewrite ?B1, ?A2, ?app_nil_r; [done| |intros _].
  - rewrite B2. destruct rep; [by left|by right].
  - eapply Forall_impl; [exact A3|]. intros [| |k []| | | |]; cbn [kept_books then_ bumped logged]; rewrite ?A2, ?B2; simpl; try done;
      (intros H Hs; specialize (H Hs); split; [member|by intros ->]).
Qed.
Fixpoint evens (l : list bytes) : list bytes := match l with x :: _ :: l => x :: evens l | _ => [] end.
Lemma mset_pairs_looped args : Forall (fun k => K k true) (evens args) ->
  does (mset_pairs args) (fun _ e => looped e).
Proof.
  remember (length args) as n eqn:En. revert args En. induction (lt_wf n) as [n _ IH]. intros args -> HK.
  destruct args as [|k [|v args]]; cbn [mset_pairs]; [by apply does_ret..|]. apply Forall_cons in HK as [Hk HK].
  do 6 does_step. eapply does_mono; [eapply (IH (length args)); [simpl; lia|done|done]|]. intros ? e He.
  change (looped (then_ (Eff [Touched k true s] [k] []) e)). apply looped_then; [|done]. split; cbn; [each; done|done|each; intros; member].
Qed.
Lemma log_write_does (Q : unit -> Effect -> Prop) :
  (forall e, ev e = [] -> bumped e = [] -> logged e = (if rep then [] else [entry]) -> Q tt e) -> does (log_write raw) Q.
Proof. intros HQ. does_step. do 2 does_step. destruct rep; does_step; by apply HQ. Qed.
Lemma cmd_mset_fine args : Forall (fun k => K k true) (evens (tail args)) -> fine (cmd_mset raw args).
Proof.
  intros H. unfold cmd_mset. does_step. eapply does_mono; [by apply mset_pairs_looped|].
  intros ? e He. do 2 does_step. apply log_write_does. intros e' E1 E2 E3.
  apply looped_post; [done|done|]. cbn. by rewrite E3.
Qed.

Lemma count_del keys n : Forall (fun k => K k true) keys ->
  does (count_keys del_one keys n) (fun n' e => looped e /\ n <= n' /\
    (n' = n -> Forall (fun v => exists k s, v = Removed k s /\ s <> Deleted) (ev e))).
Proof.
  intros H. revert n. induction H as [|k keys Hk _ IH]; intros n; simpl; [apply does_ret; split; [apply looped_none|done]|].
  does_step. unfold del_one. do 2 does_step. destruct (bool_decide_reflect (s = Deleted)) as [->|Hs]; repeat does_step.
  - eapply does_mono; [apply IH|]. intros n' e (H1 & H2 & H3). split; [|split; [lia|intros; lia]].
    change (looped (then_ (Eff [Removed k Deleted] [k] []) e)). apply looped_then; [|done]. split; cbn; [each; done|done|each; intros; member].
  - eapply does_mono; [apply IH|]. intros n' e (H1 & H2 & H3). split; [|split; [lia|]].
    + change (looped (then_ (Eff [Removed k s] [] []) e)). apply looped_then; [|done]. split; cbn; [each; done|done|each; intros; congruence].
    + intros Hn. cbn. apply Forall_cons_2; [by eexists _, _|by apply H3].
Qed.
Lemma cmd_del_fine args : Forall (fun k => K k true) (tail args) -> fine (cmd_del raw args).
Proof.
  intros H. unfold cmd_del. does_step. eapply does_mono; [by apply count_del|]. intros n e (H1 & H2 & H3).
  do 2 does_step. unfold when. destruct (Z.ltb_spec 0 n).
  - apply log_write_does. intros e' E1 E2 E3. apply looped_post; [done|done|]. cbn. by rewrite E3.
  - does_step. destruct H1 as [A1 A2 A3]. split; cbn; rewrite ?app_nil_r; [done|by left|]. intros _.
    eapply Forall_impl; [apply H3; lia|]. by intros v (k & s & -> & Hs).
Qed.

Lemma go_fine (m : M unit) : fine m -> does (m ;; mret Continue) (fun _ e => post e).
Proof.
  intros H. apply does_bind. eapply does_mono; [exact H|]. intros ? e [H1 H2 H3]. apply does_ret.
  split; cbn; rewrite ?app_nil_r; try done. intros Hs. eapply Forall_impl; [by apply H3|].
  intros [| |k []| | | |]; cbn; rewrite ?app_nil_r; done.
Qed.
Lemma local_fine {A} (m : M A) : does m (fun _ e => e = no_effect) -> does m (fun _ e => post e).
Proof. intros H. eapply does_mono; [exact H|]. intros ? e ->. split; [constructor|by left|constructor]. Qed.
End Handlers.

(** ** One command *)

(** The keys [keys] locks: exclusively, or shared for a read. *)
Definition covered (keys : list (bytes * LockType)) (k : bytes) (w : bool) : Prop :=
  (k, Exclusive) ∈ keys \/ (w = false /\ (k, Store.Shared) ∈ keys).
(** The commands that call on the whole store, latching nothing. *)
Definition whole_store (c : bytes) (v : Event) : Prop :=
  match v with
  | Listed => one_of c ["KEYS"; "SCAN"; "DBSIZE"]%string = true
  | Cleared => one_of c ["FLUSHDB"; "FLUSHALL"]%string = true
  | Saved => one_of c ["SAVE"; "BGSAVE"]%string = true
  | _ => False
  end.
Definition arguments raw (ranges : list (nat * nat)) : list bytes := map (fun x => slice (fst x) (snd x) raw) ranges.

Lemma cmd_is_eq cmd s : cmd_is cmd s = true -> cmd = bs s.
Proof. apply bool_decide_eq_true. Qed.

Lemma step_by_map {A B} (f : A -> B) fuel step l : map f (step_by fuel step l) = step_by fuel step (map f l).
Proof.
  revert l. induction fuel as [|fuel IH]; intros [|x l]; try done. cbn [step_by map]. f_equal. rewrite IH. f_equal.
  change (f x :: map f l) with (map f (x :: l)). symmetry. apply skipn_map.
Qed.
Lemma step_by_one {A} fuel (l : list A) : (length l <= fuel)%nat -> step_by fuel 1 l = l.
Proof. revert l. induction fuel as [|fuel IH]; intros [|x l] H; simpl in *; try done; try lia. f_equal. apply IH. lia. Qed.
Lemma step_by_evens fuel l : (length l <= fuel)%nat -> forall k, k ∈ evens l -> k ∈ step_by fuel 2 l.
Proof.
  revert l. induction fuel as [|fuel IH]; intros [|x [|y l]] H k Hk; cbn in *; try done; try lia; try by apply elem_of_nil in Hk.
  apply elem_of_cons in Hk as [->|Hk]; apply elem_of_cons; [by left|right]. rewrite drop_0.
  apply IH; [lia|done].
Qed.
Lemma keys_from_arguments raw ranges from step lock :
  keys_from raw ranges from step lock =
  map (fun k => (k, lock)) (step_by (length ranges) step (drop from (arguments raw ranges))).
Proof.
  unfold keys_from, arguments. rewrite <- (map_map (fun x => slice (fst x) (snd x) raw) (fun k => (k, lock))).
  assert (E : drop (Nat.min from (length ranges)) ranges = drop from ranges).
  { destruct (Nat.min_spec from (length ranges)) as [[? ->]|[? ->]]; [done|]. by rewrite !drop_ge by lia. }
  by rewrite step_by_map, E, <- skipn_map.
Qed.

Section Command.
Context (raw : bytes) (ranges : list (nat * nat)).
Abbreviation args := (arguments raw ranges).
Abbreviation cmd := (command_name (default [] (head args))).
Abbreviation keys := (command_keys raw ranges).

Lemma command_keys_arguments : ranges <> [] -> keys =
  let at_ := fun lock step => map (fun k => (k, lock)) (step_by (length ranges) step (tail args)) in
  if one_of cmd ["GET"; "STRLEN"; "GETRANGE"; "SUBSTR"; "TTL"; "PTTL"; "EXISTS"; "TYPE"; "MGET"]%string then at_ Store.Shared 1%nat
  else if one_of cmd ["DEL"; "UNLINK"]%string then at_ Exclusive 1%nat
  else if one_of cmd ["MSET"]%string then at_ Exclusive 2%nat
  else if (2 <=? length ranges)%nat then at_ Exclusive (length ranges) else [].
Proof.
  intros H. destruct ranges as [|[s e] rs] eqn:E; [done|]. unfold command_keys. by rewrite !keys_from_arguments.
Qed.

Lemma nonempty_tail k : k ∈ tail args -> ranges <> [].
Proof. intros Hk E. unfold arguments in Hk. rewrite E in Hk. by apply elem_of_nil in Hk. Qed.
Lemma covered_at (lock : LockType) l k w : keys = map (fun k => (k, lock)) l -> k ∈ l ->
  (lock = Exclusive \/ w = false) -> covered keys k w.
Proof.
  intros E Hk Hl. unfold covered. rewrite E. assert (Hin : (k, lock) ∈ map (fun k => (k, lock)) l).
  { apply list_elem_of_In, in_map_iff. exists k. split; [done|by apply list_elem_of_In]. }
  destruct lock; [right|by left]. destruct Hl as [Hl|Hl]; by split.
Qed.
Lemma length_tail_args : (length (tail args) <= length ranges)%nat.
Proof. unfold arguments. destruct ranges; simpl; rewrite ?length_map; lia. Qed.

Definition reader_names : list string :=
  ["GET"; "STRLEN"; "GETRANGE"; "SUBSTR"; "TTL"; "PTTL"; "EXISTS"; "TYPE"; "MGET"]%string.
(** Every argument is a key that is read. *)
Lemma covered_reads : one_of cmd reader_names = true -> Forall (fun k => covered keys k false) (tail args).
Proof.
  intros Hc. apply Forall_forall. intros k Hk. eapply covered_at; [|exact Hk|by right].
  rewrite command_keys_arguments by (by eapply nonempty_tail). cbv zeta. fold reader_names. rewrite Hc.
  rewrite step_by_one by apply length_tail_args. done.
Qed.
(** Every argument is a key that is written. *)
Lemma covered_deletes : one_of cmd reader_names = false -> one_of cmd ["DEL"; "UNLINK"]%string = true ->
  Forall (fun k => covered keys k true) (tail args).
Proof.
  intros Hr Hc. apply Forall_forall. intros k Hk. eapply (covered_at Exclusive); [|exact Hk|by left].
  rewrite command_keys_arguments by (by eapply nonempty_tail). cbv zeta. fold reader_names. rewrite Hr, Hc.
  rewrite step_by_one by apply length_tail_args. done.
Qed.
(** Every other argument is a key that is written. *)
Lemma covered_pairs : one_of cmd reader_names = false -> one_of cmd ["DEL"; "UNLINK"]%string = false ->
  one_of cmd ["MSET"]%string = true -> Forall (fun k => covered keys k true) (evens (tail args)).
Proof.
  intros Hr Hd Hc. apply Forall_forall. intros k Hk. eapply (covered_at Exclusive); [|apply (step_by_evens (length ranges)); [apply length_tail_args|exact Hk]|by left].
  assert (ranges <> []) by (intros E; unfold arguments in Hk; rewrite E in Hk; by apply elem_of_nil in Hk).
  rewrite command_keys_arguments by done. cbv zeta. fold reader_names. rewrite Hr, Hd, Hc. reflexivity.
Qed.
(** The first argument is the key. *)
Lemma covered_first k w : one_of cmd reader_names = false -> one_of cmd ["DEL"; "UNLINK"]%string = false ->
  one_of cmd ["MSET"]%string = false -> args !! 1%nat = Some k -> covered keys k w.
Proof.
  intros Hr Hd Hc Hk. unfold arguments in Hk. destruct ranges as [|x [|y rs]] eqn:E; try done. rewrite <- E in *.
  eapply (covered_at Exclusive [k]); [|by left|by left].
  rewrite command_keys_arguments by (by rewrite E). cbv zeta. fold reader_names. rewrite Hr, Hd, Hc.
  unfold arguments. rewrite E in Hk |- *. injection Hk as <-. cbn [Nat.leb length tail map step_by drop].
  by rewrite drop_ge by (rewrite length_map; lia).
Qed.

(** What each shape of command may touch. *)
Record lockable (c : bytes) args (ks : list (bytes * LockType)) : Prop := {
  lk_reads : one_of c reader_names = true -> Forall (fun k => covered ks k false) (tail args);
  lk_deletes : one_of c reader_names = false -> one_of c ["DEL"; "UNLINK"]%string = true ->
    Forall (fun k => covered ks k true) (tail args);
  lk_pairs : one_of c reader_names = false -> one_of c ["DEL"; "UNLINK"]%string = false ->
    one_of c ["MSET"]%string = true -> Forall (fun k => covered ks k true) (evens (tail args));
  lk_first : forall k w, one_of c reader_names = false -> one_of c ["DEL"; "UNLINK"]%string = false ->
    one_of c ["MSET"]%string = false -> args !! 1%nat = Some k -> covered ks k w }.
Lemma command_lockable : lockable cmd args keys.
Proof. split; [apply covered_reads|apply covered_deletes|apply covered_pairs|apply covered_first]. Qed.
End Command.

Lemma first_key k w c args ks : lockable c args ks -> one_of c reader_names = false ->
  one_of c ["DEL"; "UNLINK"; "MSET"]%string = false -> args !! 1%nat = Some k -> covered ks k w.
Proof.
  intros HL Hr Hd Hk. unfold one_of in Hd. cbn [existsb] in Hd. rewrite !orb_false_iff in Hd.
  apply (lk_first _ _ _ HL); [done|unfold one_of; cbn [existsb]; rewrite !orb_false_iff; tauto..|done].
Qed.
Lemma read_key k c args ks : lockable c args ks -> one_of c reader_names = true -> args !! 1%nat = Some k -> covered ks k false.
Proof.
  intros HL Hc Hk. pose proof (lk_reads _ _ _ HL Hc) as H. destruct args as [|a [|b l]]; try done.
  injection Hk as ->. by apply Forall_cons in H as [H _].
Qed.
Lemma watch_local keys : does (for_each watch_one keys) (fun _ e => e = no_effect).
Proof.
  induction keys as [|k keys IH]; simpl; [by apply does_ret|]. apply does_bind.
  intros r x r' Hn Hr E. unfold watch_one in E. destruct (slot_version _ _) as [sv|]; [|done].
  cbn in E. injection E as <- <-. exists no_effect. split; [by apply effect_none|].
  eapply does_mono; [exact IH|]. by intros ? e ->.
Qed.

Ltac key_fact := first [eapply first_key; [eassumption|vm_compute; reflexivity..|reflexivity]
                       |eapply read_key; [eassumption|vm_compute; reflexivity|reflexivity]].
Ltac key_arg := eapply first_key; [eassumption|vm_compute; reflexivity..|eassumption].
Ltac local_arm := apply local_fine; repeat (cbv beta zeta; does_step); reflexivity.
Ltac arm :=
  lazymatch goal with
  | |- does (?m ≫= fun _ => mret Continue) _ => apply go_fine; lazymatch m with
      | cmd_get _ => apply cmd_get_fine; key_fact
      | cmd_read_int _ _ => apply cmd_read_int_fine; key_fact
      | cmd_getrange _ _ _ => apply cmd_getrange_fine; key_fact
      | cmd_ttl _ _ => apply cmd_ttl_fine; key_fact
      | cmd_type _ => apply cmd_type_fine; key_fact
      | cmd_rmw_int _ _ _ _ _ => apply cmd_rmw_int_fine; key_fact
      | cmd_incr _ _ _ => apply cmd_incr_fine; key_fact
      | cmd_setrange _ _ _ _ => apply cmd_setrange_fine; key_fact
      | cmd_expire _ _ _ _ _ => apply cmd_expire_fine; key_fact
      | cmd_setex _ _ _ _ _ => apply cmd_setex_fine; key_fact
      | cmd_getset _ _ _ => apply cmd_getset_fine; key_fact
      | cmd_getdel _ _ => apply cmd_getdel_fine; [done|key_fact]
      | cmd_persist _ _ => apply cmd_persist_fine; [done|key_fact]
      | cmd_setnx _ _ _ => apply cmd_setnx_fine; [vm_compute; reflexivity|key_fact]
      | cmd_keys _ => apply cmd_keys_fine; vm_compute; reflexivity
      | flush_db ;; _ => apply flush_fine; vm_compute; reflexivity
      | cmd_save _ => apply save_fine; vm_compute; reflexivity
      | live_keys ≫= _ => apply dbsize_fine; vm_compute; reflexivity
      | _ => local_arm
      end
  | |- _ => local_arm
  end.
Ltac shapes := match goal with |- does (match ?args with _ => _ end) _ =>
    is_var args; destruct args as [|? [|? [|? [|? [|? ?]]]]] end.

Lemma exec_step_outcome clock (rec : bytes -> bytes -> list bytes -> M Action) raw c args ks strict :
  (strict = true -> HonestStatus HDB) -> lockable c args ks -> one_of c ["EXEC"]%string = false ->
  does (exec_step clock rec c raw args) (fun _ e => post strict (cmd_is c "SETNX") (covered ks) (whole_store c) raw e).
Proof.
  intros HS HL Hne. unfold exec_step. cbv zeta. unfold cmd_unknown, cmd_hello, cmd_multi, discard.
  repeat match goal with |- does (if ?b then _ else _) _ =>
           destruct b eqn:E;
           [try (apply orb_true_iff in E as [E|E]); apply cmd_is_eq in E; subst c; try discriminate Hne;
            first [shapes; first [solve [arm]|idtac]| solve [arm] | idtac] |clear E]
         end.
  - apply go_fine, cmd_set_fine. intros. key_arg.
  - apply go_fine, cmd_getex_fine. intros. key_arg.
  - destruct (parse_i64 _); arm.
  - destruct (parse_i64 _); arm.
  - destruct (_ && _); [|arm]. apply go_fine, cmd_mset_fine, (lk_pairs _ _ _ HL); vm_compute; reflexivity.
  - destruct (_ <=? _)%nat; [|arm]. apply go_fine, cmd_mget_fine, (lk_reads _ _ _ HL). vm_compute; reflexivity.
  - destruct (_ <=? _)%nat; [|arm]. apply go_fine, cmd_del_fine, (lk_deletes _ _ _ HL); vm_compute; reflexivity.
  - destruct (_ <=? _)%nat; [|arm]. apply go_fine, cmd_del_fine, (lk_deletes _ _ _ HL); vm_compute; reflexivity.
  - destruct (_ <=? _)%nat; [|arm]. apply go_fine, cmd_exists_fine, (lk_reads _ _ _ HL). vm_compute; reflexivity.
  - destruct (_ <=? _)%nat; [|arm]. apply go_fine. unfold cmd_scan. cbv zeta. do 4 does_step.
    eapply does_mono; [by apply (cmd_keys_fine strict false (covered ks) (whole_store (bs "SCAN")) raw)|]. intros ? [] He. exact He.
  - destruct (_ <=? _)%nat; [|arm]. apply go_fine, local_fine. unfold cmd_watch. do 2 does_step. does_step; [by does_step|].
    does_step. eapply does_mono; [apply watch_local|]. intros ? e ->. by does_step.
  - arm.
Qed.

(** ** EXEC *)

(** The name a queued command runs under. *)
Definition name_of raw : bytes :=
  match parse_ranges raw with
  | Some ranges => command_name (default [] (head (arguments raw ranges)))
  | None => []
  end.
(** The call [v] of the command named [c] changed the record of [k]; a SETNX
    counts when it created the key. *)
Definition changed (c : bytes) (v : Event) (k : bytes) : Prop :=
  match v with
  | Touched k' true s => k' = k /\ is_updated s = true /\ (cmd_is c "SETNX" = true -> s = Created)
  | Removed k' s => k' = k /\ s = Deleted
  | _ => False
  end.
(** The books of the command [raw] run with effect [e]: each key it changed has
    its slot bumped, and then the command is logged, once; nothing else is ever
    logged, and clearing the index leaves no trace in either book. *)
Record recorded raw e : Prop := {
  rec_log : logged e = [] \/ logged e = [entry raw];
  rec_changed : forall v k, v ∈ ev e -> changed (name_of raw) v k -> k ∈ bumped e /\ logged e = [entry raw];
  rec_cleared : Cleared ∈ ev e -> bumped e = [] /\ logged e = [] }.

Lemma kept_changed c raw e v k : kept_books (cmd_is c "SETNX") raw e v -> changed c v k ->
  k ∈ bumped e /\ (rep = false -> logged e = [entry raw]).
Proof. destruct v as [| |k' [] s|k' s| | |]; simpl; try done; [intros H (-> & H1 & H2); auto|intros H (-> & ->); auto]. Qed.
Lemma post_recorded raw K whole e : rep = false -> post true (cmd_is (name_of raw) "SETNX") K whole raw e -> recorded raw e.
Proof.
  intros Hrep [_ H2 H3]. specialize (H3 eq_refl). rewrite Forall_forall in H3. split.
  - destruct H2 as [?|[_ ?]]; auto.
  - intros v k Hv Hc. destruct (kept_changed _ _ _ _ _ (H3 v Hv) Hc) as [? H]. auto.
  - apply H3.
Qed.

(** The calls a queued command may make under the latches [ks]. *)
Definition under_latches ks raw (calls : list Event) : Prop :=
  Forall (allowed (covered ks) (whole_store (name_of raw))) calls.
Lemma covered_mono ks ks' k w : (forall x, x ∈ ks -> x ∈ ks') -> covered ks k w -> covered ks' k w.
Proof. unfold covered. intros H [?|[??]]; [left|right]; auto. Qed.

(** One queued command, with its books if the statuses can be relied on. *)
Record queued_run (honest : bool) ks raw e : Prop := {
  qr_calls : under_latches ks raw (ev e);
  qr_books : honest = true -> recorded raw e }.
Lemma not_exec raw : queue_ok raw -> one_of (name_of raw) ["EXEC"]%string = false.
Proof.
  unfold queue_ok, name_of, arguments. destruct (parse_ranges raw) as [[|[s e] rs]|]; [done| |done]. cbn [map head default from_option id fst snd].
  unfold control_command, one_of. cbn [existsb]. rewrite !orb_false_iff. tauto.
Qed.

Lemma then_none e : then_ e no_effect = e.
Proof. destruct e. unfold then_. cbn. by rewrite !app_nil_r. Qed.
Definition total (runs : list Effect) : Effect := foldr then_ no_effect runs.
Lemma total_parts runs : ev (total runs) = concat (map ev runs) /\
  bumped (total runs) = concat (map bumped runs) /\ logged (total runs) = concat (map logged runs).
Proof. unfold total. induction runs as [|e runs (H1 & H2 & H3)]; [done|]. cbn. by rewrite H1, H2, H3. Qed.

Lemma exec_queued_run honest depth clock raw ks : rep = false -> (honest = true -> HonestStatus HDB) -> queue_ok raw ->
  (forall ranges, parse_ranges raw = Some ranges -> forall x, x ∈ command_keys raw ranges -> x ∈ ks) ->
  does (exec_queued (exec_command (S depth) clock) raw) (fun _ e => queued_run honest ks raw e).
Proof.
  intros Hrep HS Hq Hks. pose proof (not_exec raw Hq) as Hne. unfold exec_queued.
  destruct (parse_ranges raw) as [ranges|] eqn:Ep; [|by unfold queue_ok in Hq; rewrite Ep in Hq].
  cbv zeta. fold (arguments raw ranges). pose proof (command_lockable raw ranges) as HL.
  assert (Hn : name_of raw = command_name (default [] (head (arguments raw ranges)))) by (unfold name_of; by rewrite Ep).
  destruct (arguments raw ranges) as [|first rest]; [by apply does_fail|]. apply does_bind. cbn [exec_command].
  rewrite Hn in Hne. eapply does_mono; [by apply (exec_step_outcome clock _ _ _ _ (command_keys raw ranges) honest)|].
  intros ? e He. apply does_ret. rewrite then_none. change (head (first :: rest)) with (Some first) in Hn. cbn [default from_option id] in Hn.
  rewrite <- Hn in He. split.
  - unfold under_latches. eapply Forall_impl; [exact (post_keys _ _ _ _ _ _ He)|].
    intros []; simpl; try done; by apply covered_mono, Hks.
  - intros ->. by eapply post_recorded.
Qed.

Lemma exec_queue_runs honest depth clock q ks : rep = false -> (honest = true -> HonestStatus HDB) -> Forall queue_ok q ->
  (forall x, x ∈ queued_keys q -> x ∈ ks) ->
  does (for_each (exec_queued (exec_command (S depth) clock)) q)
    (fun _ e => exists runs, e = total runs /\ Forall2 (queued_run honest ks) q runs).
Proof.
  intros Hrep HS. induction q as [|raw q IH]; intros Hq Hks; cbn [for_each].
  { apply does_ret. exists []. by split. }
  apply Forall_cons in Hq as [Hr Hq]. unfold queued_keys in Hks. cbn [map concat] in Hks. apply does_bind. eapply does_mono.
  { apply (exec_queued_run honest depth clock raw ks Hrep HS Hr). intros ranges Ep y Hy. apply Hks. rewrite Ep. apply elem_of_app. by left. }
  intros ? e He. eapply does_mono; [apply IH; [done|]|].
  { intros y Hy. apply Hks, elem_of_app. by right. }
  intros ? e' (runs & -> & Hruns). exists (e :: runs). split; [done|by constructor].
Qed.

Lemma exec_run_outcome honest depth clock t : rep = false -> (honest = true -> HonestStatus HDB) -> Forall queue_ok (queued t) ->
  does (exec_run (exec_command (S depth) clock) t) (fun _ e => exists runs,
    Forall2 (queued_run honest (queued_keys (queued t))) (queued t) runs /\
    ev e = Locked (queued_keys (queued t)) :: concat (map ev runs) ++ [Unlocked] /\
    bumped e = concat (map bumped runs) /\
    logged e = Entry TxnStart now [] :: concat (map logged runs) ++ [Entry TxnCommit now []]).
Proof.
  intros Hrep HS Ht. unfold exec_run. cbv zeta. do 6 does_step. rewrite Hrep. cbn [negb when].
  apply does_bind, does_lock. apply does_bind, does_append.
  apply does_bind. eapply does_mono; [by apply (exec_queue_runs honest depth clock _ (queued_keys (queued t)) Hrep HS Ht)|]. intros ? e (runs & -> & H).
  apply does_bind, does_unlock. apply does_bind, does_append. apply does_ret. exists runs.
  destruct (total_parts runs) as (E1 & E2 & E3). cbn [then_ no_effect ev bumped logged app]. rewrite E1, E2, E3, !app_nil_r. by split_and!.
Qed.
End Logic.

(** An EXEC that passes its checks, with a queue as [dispatch] makes it
    ([session_ok]). *)
Definition committing r : Prop :=
  in_multi (txn r) = true /\ dirty (txn r) = false /\ replay r = false /\
  watch_conflict (watch (shared r)) (watches (txn r)) = Some false /\ Forall queue_ok (queued (txn r)).

Lemma committing_run r exec : committing r -> cmd_exec exec r = exec_run exec (txn r) r.
Proof.
  intros (Hm & Hd & _ & Hw & _). unfold cmd_exec, get_txn, gets, check_watches. unfold mbind at 1, M_bind at 1.
  cbn [mbind option_bind]. rewrite Hm, Hd. cbn [negb]. unfold mbind at 1, M_bind at 1. by rewrite Hw.
Qed.
Lemma committing_outcome honest r depth clock a r' : (honest = true -> HonestStatus HDB) -> committing r ->
  cmd_exec (exec_command (S depth) clock) r = Some (a, r') ->
  exists e runs, effect r e r' /\ let q := queued (txn r) in
    Forall2 (queued_run (r_now r) honest (queued_keys q)) q runs /\
    ev e = Locked (queued_keys q) :: concat (map ev runs) ++ [Unlocked] /\
    bumped e = concat (map bumped runs) /\
    logged e = Entry TxnStart (r_now r) [] :: concat (map logged runs) ++ [Entry TxnCommit (r_now r) []].
Proof.
  intros HS Hc E. rewrite (committing_run r _ Hc) in E. destruct Hc as (_ & _ & Hr & _ & Ht).
  destruct (exec_run_outcome (r_now r) (replay r) honest depth clock (txn r) Hr HS Ht r a r' eq_refl eq_refl E)
    as (e & He & runs & H). by exists e, runs.
Qed.

(** C13. EXEC is two-phase: every lock the transaction needs is taken in one
    step before its first command and released after its last.  In between the
    queued commands run in order, and each call one of them makes is either on a
    key that is locked, exclusively unless the call only reads, or a call on the
    whole store, which no lock covers: the scan of a queued KEYS, SCAN or
    DBSIZE, the clearing of the index by FLUSHDB or FLUSHALL, the checkpoint of
    SAVE or BGSAVE.  (Clearing also zeroes the latch words that are held, which
    the release then wraps: Latch.clear_then_unlock_wedges_bucket.) *)
Theorem exec_two_phase_locking r depth clock a r' : committing r ->
  cmd_exec (exec_command (S depth) clock) r = Some (a, r') ->
  exists runs : list (list Event),
    trace_of r' = trace_of r ++ Locked (queued_keys (queued (txn r))) :: concat runs ++ [Unlocked] /\
    Forall2 (under_latches (queued_keys (queued (txn r)))) (queued (txn r)) runs.
Proof.
  intros Hc E. destruct (committing_outcome false r depth clock a r') as (e & runs & He & H1 & H2 & _); [done..|].
  exists (map ev runs). split; [by rewrite (eff_events _ _ _ He), H2|]. apply Forall2_fmap_r.
  eapply Forall2_impl; [exact H1|]. by intros raw e' [? _].
Qed.

(** C36. A transaction reaches the log as one bracket: a start entry, the
    entries of the queued commands in the order they were queued, and a commit
    entry, all stamped with the transaction's time.  Every queued command that
    changed a record has its entry there, once, and the watch slots of the keys
    it changed are bumped; a queued FLUSHDB or FLUSHALL leaves neither.  Only a
    checkpoint taken by a queued SAVE or BGSAVE, which truncates the log in
    mid-bracket, is excepted; a SETNX counts as a change when it created its
    key. *)
Theorem exec_logs_one_bracket r depth clock action r' log log' es : HonestStatus HDB -> committing r ->
  cmd_exec (exec_command (S depth) clock) r = Some (action, r') ->
  sh_aof (shared r) = Some log -> sh_aof (shared r') = Some log' -> aof_holds log es ->
  Forall (fun raw => entry_ok (Entry AofCommand (r_now r) raw)) (queued (txn r)) -> is_i64 (r_now r) ->
  exists runs, trace_of r' =
      trace_of r ++ Locked (queued_keys (queued (txn r))) :: concat (map ev runs) ++ [Unlocked] /\
    bump_all (watch (shared r)) (concat (map bumped runs)) = Some (watch (shared r')) /\
    Forall2 (recorded (r_now r)) (queued (txn r)) runs /\
    (Saved ∉ concat (map ev runs) -> aof_holds log'
      (es ++ Entry TxnStart (r_now r) [] :: concat (map logged runs) ++ [Entry TxnCommit (r_now r) []])).
Proof.
  intros HS Hc E Ea Ea' Hes Hok Hnow.
  destruct (committing_outcome true r depth clock action r') as (e & runs & He & H1 & H2 & H3 & H4); [done..|].
  assert (Hrec : Forall2 (recorded (r_now r)) (queued (txn r)) runs).
  { eapply Forall2_impl; [exact H1|]. intros raw e' [_ H]. by apply H. }
  exists runs. split; [by rewrite (eff_events _ _ _ He), H2|]. split; [by rewrite <- H3, (eff_watch _ _ _ He)|]. split; [exact Hrec|].
  intros Hs. pose proof (eff_aof _ _ _ He) as Hg. rewrite Ea, Ea', H2, H4 in Hg. apply Hg; [|done|].
  { intros [?|[?|?%list_elem_of_singleton]%elem_of_app]%elem_of_cons; [discriminate|by apply Hs|discriminate]. }
  apply Forall_cons_2; [done|]. apply Forall_app_2; [|by apply Forall_cons_2].
  clear - Hrec Hok. induction Hrec as [|raw e' q runs [Hlog _ _] _ IH]; [constructor|].
  apply Forall_cons in Hok as [Hr Hok]. cbn. apply Forall_app_2; [|by apply IH].
  destruct Hlog as [->| ->]; [constructor|by apply Forall_cons_2].
Qed.

(** C14. Outside a transaction, whenever a command changed a record, the watch
    slot of the record's key was bumped and the command is logged, exactly once,
    at the session's time; nothing else is ever logged.  A SETNX counts when it
    created the key.  FLUSHDB and FLUSHALL, alone, clear the index: they bump no
    slot and log nothing.  SAVE and BGSAVE, alone, take a checkpoint, which
    truncates the log. *)
Theorem writes_keep_the_books r clock rec raw ranges action r' : HonestStatus HDB ->
  let args := arguments raw ranges in
  let cmd := command_name (default [] (head args)) in
  one_of cmd ["EXEC"]%string = false ->
  exec_step clock rec cmd raw args r = Some (action, r') ->
  exists calls bumps entries, trace_of r' = trace_of r ++ calls /\
    bump_all (watch (shared r)) bumps = Some (watch (shared r')) /\
    (Saved ∉ calls -> log_grows (sh_aof (shared r)) (sh_aof (shared r')) entries) /\
    (entries = [] \/ entries = [Entry AofCommand (r_now r) raw] /\ replay r = false) /\
    (forall v k, v ∈ calls -> changed cmd v k ->
      k ∈ bumps /\ (replay r = false -> entries = [Entry AofCommand (r_now r) raw])) /\
    (Cleared ∈ calls -> one_of cmd ["FLUSHDB"; "FLUSHALL"]%string = true /\ bumps = [] /\ entries = []) /\
    (Saved ∈ calls -> one_of cmd ["SAVE"; "BGSAVE"]%string = true).
Proof.
  intros HS args cmd Hc E.
  destruct (exec_step_outcome (r_now r) (replay r) clock rec raw cmd args (command_keys raw ranges) true) with (r := r) (x := action) (r' := r')
    as (e & [G1 G2 G3 _ _] & [Hkeys Hlog Hbooks]); [done|apply command_lockable|done..|].
  specialize (Hbooks eq_refl). rewrite Forall_forall in Hbooks, Hkeys. exists (ev e), (bumped e), (logged e).
  split_and!; try done.
  - destruct Hlog as [->|[? ->]]; [by left|by right].
  - intros v k Hv. exact (kept_changed _ _ _ _ _ _ _ (Hbooks v Hv)).
  - intros Hv. split; [exact (Hkeys _ Hv)|exact (Hbooks _ Hv)].
  - exact (Hkeys Saved).
Qed.
End Trace.

(** ** Witnesses: a transaction over a map *)

Lemma map_db_honest : HonestStatus map_db.
Proof.
  split; intros d p k v n e now o s o' d' p'; cbn; intros [= <- <- <- <-]; [|done].
  destruct (decide _); [done|discriminate].
Qed.

#[local] Existing Instance map_db.
#[local] Existing Instance DB.
Definition demo_session (q : list bytes) : RespSession (gmap bytes bytes * list Event) unit :=
  let sh := MkShared (∅, []) (Some (aof_open [] Always)) true (watch_new 4) false 0 in
  with_txn (with_now (resp_session_new sh) 1000) (MkTxn true false q []).
Definition demo_queue : list bytes :=
  [words ["SET"; "a"; "1"]; words ["GET"; "b"]; words ["SETNX"; "a"; "2"]; words ["DEL"; "a"]; words ["FLUSHDB"]]%string.
Lemma demo_committing : committing (demo_session demo_queue).
Proof. split_and!; try done. repeat apply Forall_cons_2; try apply Forall_nil_2; vm_compute; reflexivity. Qed.

Lemma exec_two_phase_locking_witness : exists a r' runs, let r := demo_session demo_queue in
  cmd_exec (exec_command 1 0) r = Some (a, r') /\
  trace_of r' = trace_of r ++ Locked (queued_keys demo_queue) :: concat runs ++ [Unlocked] /\
  Forall2 (under_latches (queued_keys demo_queue)) demo_queue runs.
Proof.
  destruct (cmd_exec (exec_command 1 0) (demo_session demo_queue)) as [[a r']|] eqn:E; [|vm_compute in E; discriminate].
  destruct (exec_two_phase_locking (demo_session demo_queue) 0 0 a r' demo_committing E) as (runs & H).
  exists a, r', runs. split; [exact E|exact H].
Defined.

Lemma exec_logs_one_bracket_witness : exists a r' log log' runs, let r := demo_session demo_queue in
  cmd_exec (exec_command 1 0) r = Some (a, r') /\ sh_aof (shared r) = Some log /\ sh_aof (shared r') = Some log' /\
  Forall2 (recorded 1000) demo_queue runs /\
  aof_holds log' (Entry TxnStart 1000 [] :: concat (map logged runs) ++ [Entry TxnCommit 1000 []]).
Proof.
  destruct (cmd_exec (exec_command 1 0) (demo_session demo_queue)) as [[a r']|] eqn:E; [|vm_compute in E; discriminate].
  destruct (sh_aof (shared r')) as [log'|] eqn:El; [|vm_compute in E; injection E as <- <-; discriminate El].
  destruct (exec_logs_one_bracket (demo_session demo_queue) 0 0 a r' (aof_open [] Always) log' [] map_db_honest demo_committing E)
    as (runs & Ht & _ & Hrec & H); [reflexivity|exact El|by apply aof_open_holds| |vm_compute; split; discriminate|].
  - repeat apply Forall_cons_2; try apply Forall_nil_2; vm_compute; repeat split; discriminate.
  - exists a, r', (aof_open [] Always), log', runs. split; [exact E|]. split; [reflexivity|]. split; [exact El|]. split; [exact Hrec|].
    apply H. intros Hs.
    assert (Hin : Saved ∈ trace_of r') by (rewrite Ht; apply elem_of_app; right; right; apply elem_of_app; by left).
    vm_compute in E. injection E as _ <-. vm_compute in Hin.
    repeat (apply elem_of_cons in Hin as [Hin|Hin]; [discriminate Hin|]). by apply elem_of_nil in Hin.
Defined.

Lemma writes_keep_the_books_witness : exists raw ranges a r' calls bumps entries,
  let r := demo_session [] in let cmd := command_name (default [] (head (arguments raw ranges))) in
  exec_step 0 (fun _ _ _ => lift None) cmd raw (arguments raw ranges) r = Some (a, r') /\
  trace_of r' = trace_of r ++ calls /\ bump_all (watch (shared r)) bumps = Some (watch (shared r')) /\
  bs "a" ∈ bumps /\ entries = [Entry AofCommand 1000 raw] /\
  log_grows (sh_aof (shared r)) (sh_aof (shared r')) entries.
Proof.
  set (raw := words ["SET"; "a"; "1"]%string). set (ranges := default [] (parse_ranges raw)).
  destruct (exec_step 0 (fun _ _ _ => lift None) (command_name (default [] (head (arguments raw ranges)))) raw
    (arguments raw ranges) (demo_session [])) as [[a r']|] eqn:E; [|vm_compute in E; discriminate].
  assert (Ht : trace_of r' = [Touched (bs "a") true Created]).
  { clear - E. vm_compute in E. injection E as _ <-. reflexivity. }
  destruct (writes_keep_the_books (demo_session []) 0 (fun _ _ _ => lift None) raw ranges a r' map_db_honest)
    as (calls & bumps & entries & H1 & H2 & H3 & _ & H5 & _); [vm_compute; reflexivity|exact E|].
  assert (Hcalls : calls = [Touched (bs "a") true Created]) by (rewrite Ht in H1; exact (eq_sym H1)). subst calls.
  destruct (H5 (Touched (bs "a") true Created) (bs "a")) as [Hb He]; [by left|by split_and!|].
  exists raw, ranges, a, r', [Touched (bs "a") true Created], bumps, entries.
  split; [exact E|]. split; [exact H1|]. split; [exact H2|]. split; [exact Hb|]. split; [by apply He|].
  apply H3. intros [?|[]%elem_of_nil]%elem_of_cons. discriminate.
Defined.
