(* ===== verification/Replay.v ===== *)
(** * Recovery of the log ([crates/garnet/src/shared.rs], second half)

    Replaying the append-only file through a session in replay mode, and what
    the transaction brackets of the log amount to. *)

From S2P Require Import Prelude Resp Session Functions Store Aof Shared Commands CommandsSpec.

Section Replay.
Context {D P : Type} `{HDB : Database D P}.
Abbreviation M := (M D P).
Abbreviation Resp := (RespSession D P).
Implicit Types (r : Resp) (raw : bytes) (e : AofEntry) (es : list AofEntry).

(** [out.clear()] *)
Definition clear_out : M unit := modify_ (fun r => with_out r []).

Definition replay_one (clock ts : Z) (payload : bytes) : M unit :=
  match parse_command payload 0 with
  | inr (Some (slices, _)) => dispatch_replay clock payload (map (arg_bytes payload) slices) ts
  | _ => mret tt
  end.

(** The two loops of [replay_entries]: [bracket] inside a transaction. *)
Fixpoint replay_entries (clock : Z) (bracket : bool) es : M unit :=
  match es with
  | [] => if bracket then replay_multi_exec clock else mret tt
  | Entry op ts payload :: es =>
      if bracket then
        match op with
        | TxnCommit => replay_multi_exec clock ;; replay_entries clock false es
        | AofCommand => replay_one clock ts payload ;; replay_entries clock true es
        | TxnStart => replay_entries clock true es
        end
      else
        match op with
        | AofCommand => clear_out ;; replay_one clock ts payload ;; replay_entries clock false es
        | TxnStart => clear_out ;; replay_multi_begin ts ;; replay_entries clock true es
        | TxnCommit => replay_entries clock false es
        end
  end.

(** [recover] once the checkpoint, if any, is loaded: the session replaying the
    log is thrown away. *)
Definition recover_log (clock : Z) (sh : Shared D) : option (Shared D) :=
  match sh_aof sh with
  | None => Some sh
  | Some a =>
      let '(es, a) := aof_replay a in
      let sh := set_aof sh (Some a) in
      match es with
      | [] => Some sh
      | _ => '(_, r) ← replay_entries clock false es (with_replay (resp_session_new sh) true); Some (shared r)
      end
  end.

(** ** Replay is flat

    Replaying a command does not depend on the transaction or on the replies so
    far: programs commute with forgetting both. *)

Definition same_data r1 r2 : Prop :=
  shared r1 = shared r2 /\ store r1 = store r2 /\ replay r1 = replay r2 /\ out_scratch r1 = out_scratch r2.
Definition same_state r1 r2 : Prop := same_data r1 r2 /\ r_now r1 = r_now r2.

Definition related {A} (R : Resp -> Resp -> Prop) (x y : option (A * Resp)) : Prop :=
  match x, y with
  | Some (a, r1), Some (b, r2) => a = b /\ R r1 r2
  | None, None => True
  | _, _ => False
  end.
Lemma related_bind {A B} R (m1 m2 : option (A * Resp)) (f1 f2 : A -> Resp -> option (B * Resp)) R' :
  related R m1 m2 -> (forall a r1 r2, R r1 r2 -> related R' (f1 a r1) (f2 a r2)) ->
  related R' ('(a, r) ← m1; f1 a r) ('(a, r) ← m2; f2 a r).
Proof. destruct m1 as [[a r1]|], m2 as [[b r2]|]; try done. intros [-> H] Hf. by apply Hf. Qed.

Lemma prog_same {A} (m : M A) : prog m -> forall r1 r2, same_state r1 r2 -> related same_state (m r1) (m r2).
Proof.
  induction 1 as [|A B m f Hm IHm Hf IHf| | | | | |f _| | | | | |]; intros r1 r2 H; pose proof H as ((E1 & E2 & E3 & E4) & E5);
    try (unfold same_state, same_data; cbn; by split_and!); try (cbn; split; [congruence|exact H]).
  - unfold mbind, M_bind. apply (related_bind same_state); [by apply IHm|]. intros a r1' r2' H'. by apply IHf.
  - done.
  - unfold clear_scratch, modify_, same_state, same_data. cbn. rewrite E4. by split_and!.
  - unfold call. rewrite E1, E2, E4. destruct (f _ _ _) as [[[[s o] d] p]|]; cbn; [|done].
    unfold same_state, same_data. cbn. rewrite ?E1. by split_and!.
  - unfold aof_append. rewrite E1, E5. destruct (sh_aof _) as [a|]; [|by split].
    destruct (enqueue _ _ _ _). destruct (if _ : bool then _ else _); cbn; [|done].
    unfold same_state, same_data. cbn. rewrite ?E1. by split_and!.
  - unfold bump_watch. rewrite E1. destruct (watch_bump _ _); cbn; [|done]. unfold same_state, same_data. cbn. by split_and!.
  - unfold live_keys. rewrite E1, E2. destruct (db_live _ _) as [[[ks d] p]|]; cbn; [|done].
    unfold same_state, same_data. cbn. rewrite ?E1. by split_and!.
  - unfold flush_db, modify_, same_state, same_data. cbn. rewrite ?E1. by split_and!.
Qed.

(** Entries whose command acts on data: all that the log ever holds. *)
Definition data_entry e : Prop :=
  e_op e = AofCommand -> forall slices next, parse_command (payload e) 0 = inr (Some (slices, next)) ->
  one_of (command_name (default [] (head (map (arg_bytes (payload e)) slices)))) txn_names = false.

(** The replay session, inside a bracket or not. *)
Definition inside (b : bool) r : Prop :=
  replay r = true /\ watches (txn r) = [] /\
  (b = true -> in_multi (txn r) = true /\ dirty (txn r) = false /\ queued (txn r) = []).

Lemma replay_one_same clock ts raw b r1 r2 : data_entry (Entry AofCommand ts raw) -> same_data r1 r2 -> inside b r1 ->
  related (fun r1' r2' => same_data r1' r2' /\ inside b r1') (replay_one clock ts raw r1) (replay_one clock ts raw r2).
Proof.
  intros Hd Hs Hi. specialize (Hd eq_refl). cbn [payload] in Hd. unfold replay_one.
  destruct (parse_command raw 0) as [|[[slices next]|]]; [by split| |by split]. specialize (Hd _ _ eq_refl).
  unfold dispatch_replay. set (m := exec_command DEPTH _ _ _ _ ;; mret tt).
  assert (Hm : prog m) by (apply prog_bind; [by apply exec_step_prog|intros; constructor]).
  change (related (fun r1' r2' => same_data r1' r2' /\ inside b r1') (m (with_now r1 ts)) (m (with_now r2 ts))).
  pose proof (prog_same m Hm (with_now r1 ts) (with_now r2 ts)) as H. pose proof (prog_session m Hm (with_now r1 ts)) as Hk.
  destruct (m (with_now r1 ts)) as [[[] r1']|], (m (with_now r2 ts)) as [[[] r2']|]; try (by apply H).
  destruct H as [_ [H _]]; [by split|]. destruct (Hk _ _ eq_refl) as (E1 & E2 & _). cbn in E1, E2.
  split; [done|]. split; [done|]. unfold inside. by rewrite E1, E2.
Qed.

Lemma multi_exec_nothing clock r : inside true r ->
  exists r', replay_multi_exec clock r = Some (tt, r') /\ same_data r' r /\ inside false r'.
Proof.
  intros (Hr & Hw & Ht). destruct (Ht eq_refl) as (Hm & Hd & Hq).
  exists (with_out (with_txn r (MkTxn false false [] [])) (write_array_header (out r) 0)).
  split; [|by repeat split]. unfold replay_multi_exec, cmd_exec, get_txn, gets, check_watches.
  unfold mbind, M_bind. cbn [mbind option_bind]. rewrite Hm, Hd, Hw. cbn [negb watch_conflict mbind option_bind].
  unfold exec_run. unfold mbind, M_bind. rewrite Hd, Hq. cbn. rewrite Hr. reflexivity.
Qed.

Lemma replay_flat clock es : forall b r1 r2, Forall data_entry es -> same_data r1 r2 -> inside b r1 ->
  related same_data (replay_entries clock b es r1)
    (for_each (fun e => replay_one clock (timestamp_ms e) (payload e))
       (List.filter (fun e => bool_decide (e_op e = AofCommand)) es) r2).
Proof.
  induction es as [|[op ts raw] es IH]; intros b r1 r2 Hes Hs Hi; cbn [replay_entries List.filter].
  { destruct b; [|by split]. destruct (multi_exec_nothing clock r1 Hi) as (r' & -> & Hs' & _). split; [done|].
    destruct Hs as (A1 & A2 & A3 & A4), Hs' as (B1 & B2 & B3 & B4). split_and!; congruence. }
  apply Forall_cons in Hes as [He Hes]. destruct op; cbn [e_op]; rewrite ?bool_decide_true, ?bool_decide_false by done; cbn [for_each timestamp_ms payload].
  - (* a command *)
    assert (Hstep : forall r, same_data r r2 -> inside b r -> related same_data
      ((replay_one clock ts raw ;; replay_entries clock b es) r)
      ((replay_one clock ts raw ;; for_each (fun e => replay_one clock (timestamp_ms e) (payload e))
         (List.filter (fun e => bool_decide (e_op e = AofCommand)) es)) r2)).
    { intros r Hr Hb. eapply related_bind; [by eapply replay_one_same|]. intros a r1' r2' [H1 H2]. by apply IH. }
    destruct b; [by apply Hstep|]. apply (Hstep (with_out r1 [])); [done|done].
  - (* a start *)
    destruct b; [by apply IH|]. destruct Hi as (H1 & H2 & H3). apply IH; [done|done|]. split_and!; try done.
  - (* a commit *)
    destruct b; [|by apply IH]. destruct (multi_exec_nothing clock r1 Hi) as (r' & E & H1 & H2).
    unfold mbind, M_bind. rewrite E. apply IH; [done| |done].
    destruct Hs as (A1 & A2 & A3 & A4), H1 as (B1 & B2 & B3 & B4). split_and!; congruence.
Qed.
(** C23. Replaying a log executes each command entry once, in log order, at its
    logged time, and nothing else: the transaction entries, matched or not,
    leave the store, the watch table and the log exactly as without them.  In
    particular the commands of a transaction whose commit entry is missing are
    executed like any others. *)
Theorem replay_is_flat clock es : forall b r1 r2, Forall data_entry es -> same_data r1 r2 -> inside b r1 ->
  related same_data (replay_entries clock b es r1)
    (for_each (fun e => replay_one clock (timestamp_ms e) (payload e))
       (List.filter (fun e => bool_decide (e_op e = AofCommand)) es) r2).
Proof. apply replay_flat. Qed.
End Replay.

(** ** Witness: the log of a transaction cut short *)

#[local] Existing Instance map_db.
Lemma replay_is_flat_witness :
  let es := [Entry TxnStart 5 []; Entry AofCommand 5 (words ["SET"; "a"; "1"]%string)] in
  let r := with_replay (resp_session_new demo_shared) true in
  related same_data (replay_entries 0 false es r)
    (for_each (fun e => replay_one 0 (timestamp_ms e) (payload e)) (tail es) r).
Proof.
  intros es r. apply (replay_is_flat 0 es false r r).
  - apply Forall_cons_2; [intros E; discriminate E|]. apply Forall_cons_2; [|apply Forall_nil_2].
    intros _ slices next E. vm_compute in E. injection E as <- <-. vm_compute. reflexivity.
  - by split_and!.
  - by split_and!.
Defined.
