(* ===== verification/Server.v ===== *)
(** * Connections ([crates/garnet/src/server.rs])

    What a connection thread does with the bytes it reads: the receive buffer,
    the batch of whole commands in it, one flush per batch; admission of
    connections.  Sockets are the sequence of reads and the bytes written; a
    thread runs alone between two reads. *)

From S2P Require Import Prelude Hash Resp RespSpec Session Functions Store Epoch Aof Shared Commands CommandsSpec.

(** ** Admission *)

Definition DEFAULT_MAX_CLIENTS : Z := Z.of_nat MAX_THREADS - 8.
(** [live] connections; one more is accepted, or told there are too many. *)
Definition accept (live maxclients : Z) : bool * Z :=
  if maxclients <=? live then (false, live) else (true, live + 1).
Definition conn_slot_drop (live : Z) : Z := live - 1.
Definition REFUSED : bytes := bs "-ERR max number of clients reached" ++ crlf.

(** ** A connection *)

Definition INITIAL_RECV : Z := 64 * 1024.
Definition MAX_RECV : Z := 512 * 1024 * 1024.

Section Server.
Context {D P : Type} `{HDB : Database D P}.
Abbreviation M := (M D P).
Abbreviation Resp := (RespSession D P).
Implicit Types (r : Resp) (buf data stream : bytes) (head n : nat).
(** the clock when the connection's [n]-th command is dispatched *)
Context (clock : nat -> Z).

(** The commands of [buf] from [head] on: where it stopped, the number of the
    next command, whether to close. *)
Fixpoint batch (fuel : nat) buf head n : M (nat * nat * bool) :=
  match fuel with
  | O => lift None
  | S fuel =>
      match parse_command buf head with
      | inr (Some (slices, next)) =>
          action ← dispatch (clock n) (slice head next buf) (map (arg_bytes buf) slices);
          match action with
          | Close => mret (next, S n, true)
          | Continue => batch fuel buf next (S n)
          end
      | inr None => mret (head, n, false)
      | inl _ => emit_error (bs "ERR Protocol error") ;; mret (head, n, true)
      end
  end.
(** Every command takes at least one byte. *)
Definition run_batch buf head n : M (nat * nat * bool) := batch (S (length buf - head)) buf head n.

(** [recv] is the valid part of the receive buffer, [recv_len] its size. *)
Record Conn := MkConn { recv : bytes; recv_len : Z; served : nat; sess : Resp }.
Definition conn_new (sh : Shared D) : Conn := MkConn [] INITIAL_RECV 0 (resp_session_new sh).

Inductive ConnEnd := Waiting (c : Conn) | Finished (r : Resp) | TooLarge.

(** The size of the buffer the next read goes to. *)
Definition grow (c : Conn) : option Z :=
  if Z.of_nat (length (recv c)) =? recv_len c then
    if MAX_RECV <=? recv_len c then None else Some (Z.min (recv_len c * 2) MAX_RECV)
  else Some (recv_len c).

(** Each iteration of the loop, for the reads to come: an empty one is the end
    of the stream.  [None] is a panic, or a read of more than fits. *)
Fixpoint handle_connection (c : Conn) (reads : list bytes) : option (bytes * ConnEnd) :=
  match grow c with
  | None => Some ([], TooLarge)
  | Some len =>
      match reads with
      | [] => Some ([], Waiting c)
      | [] :: _ => Some ([], Finished (sess c))
      | data :: reads =>
          if len - Z.of_nat (length (recv c)) <? Z.of_nat (length data) then None else
          let buf := recv c ++ data in
          '((head, n, close), r) ← run_batch buf 0 (served c) (with_out (sess c) []);
          if close : bool then Some (out r, Finished r) else
          '(sent, e) ← handle_connection (MkConn (drop head buf) len n r) reads;
          Some (out r ++ sent, e)
      end
  end.

(** ** Replies accumulate

    Whatever is dispatched only appends to the send buffer. *)
Inductive session_prog : forall {A : Type}, M A -> Prop :=
  | sp_prog {A} (m : M A) : prog m -> session_prog m
  | sp_bind {A B} (m : M A) (f : A -> M B) : session_prog m -> (forall x, session_prog (f x)) -> session_prog (m ≫= f)
  | sp_get : session_prog get_txn
  | sp_put t : session_prog (put_txn t)
  | sp_check ws : session_prog (check_watches ws)
  | sp_watch key : session_prog (watch_one key)
  | sp_lock keys : session_prog (txn_lock keys)
  | sp_unlock : session_prog txn_unlock
  | sp_now now : session_prog (modify_ (fun r => with_now r now))
  | sp_save now : session_prog (cmd_save now).

(** [m] after the replies [o] already in the buffer. *)
Definition accumulates {A} (m : M A) : Prop := forall r o,
  m (with_out r o) = ('(x, r') ← m (with_out r []); Some (x, with_out r' (o ++ out r'))).

Lemma with_out_same r : with_out r (out r) = r.
Proof. by destruct r. Qed.
Lemma accumulates_silent {A} (m : M A) : (forall r o, m (with_out r o) = ('(x, r') ← m r; Some (x, with_out r' o))) ->
  accumulates m.
Proof.
  intros H r o. rewrite (H r o), (H r []). destruct (m r) as [[x r']|]; [|done]. cbn. by rewrite app_nil_r.
Qed.
Lemma accumulates_bind {A B} (m : M A) (f : A -> M B) : accumulates m -> (forall x, accumulates (f x)) -> accumulates (m ≫= f).
Proof.
  intros Hm Hf r o. unfold mbind, M_bind. rewrite Hm. destruct (m (with_out r [])) as [[x r']|]; [|done].
  cbn [mbind option_bind]. rewrite Hf. rewrite <- (with_out_same r') at 2. rewrite (Hf x r' (out r')).
  destruct (f x (with_out r' [])) as [[y r2]|]; [|done]. cbn. by rewrite app_assoc.
Qed.
#[local] Arguments enqueue : simpl never.
#[local] Arguments wait_committed : simpl never.
#[local] Arguments watch_bump : simpl never.
#[local] Arguments watch_conflict : simpl never.
#[local] Arguments slot_version : simpl never.
#[local] Arguments shared_checkpoint : simpl never.

Lemma prog_accumulates {A} (m : M A) : prog m -> accumulates m.
Proof.
  induction 1 as [|A B m f _ IHm _ IHf| | | | | |f Hf| | | | | |];
    [|by apply accumulates_bind| | | | | |intros r o; unfold reply, modify_; cbn; by rewrite (Hf o)|..];
    apply accumulates_silent; intros r o; try done.
  - unfold call. cbn. by destruct (f _ _ _) as [[[[s o1] d] p]|].
  - unfold aof_append. cbn. destruct (sh_aof _); [|done]. destruct (enqueue _ _ _ _). by destruct (if _ : bool then _ else _).
  - unfold bump_watch. cbn. by destruct (watch_bump _ _).
  - unfold live_keys. cbn. by destruct (db_live _ _) as [[[ks d] p]|].
Qed.
Lemma session_accumulates {A} (m : M A) : session_prog m -> accumulates m.
Proof.
  induction 1; [by apply prog_accumulates|by apply accumulates_bind|..];
    [apply accumulates_silent; intros r o..|]; try done.
  - unfold check_watches. cbn. by destruct (watch_conflict _ _).
  - unfold watch_one. cbn. by destruct (slot_version _ _).
  - unfold txn_lock. cbn. by destruct (db_lock _ _ _) as [[d p]|].
  - unfold txn_unlock. cbn. by destruct (db_unlock _ _) as [[d p]|].
  - intros r o. unfold cmd_save. cbn. destruct (shared_checkpoint _ _) as [[e|sh]|]; [|done..].
    cbn. unfold write_error. by rewrite <- !app_assoc.
Qed.

Ltac session_prog :=
  repeat (cbv beta zeta; intros;
    lazymatch goal with
    | |- session_prog (mbind _ _) => apply sp_bind
    | |- session_prog get_txn => apply sp_get
    | |- session_prog (put_txn _) => apply sp_put
    | |- session_prog (check_watches _) => apply sp_check
    | |- session_prog (watch_one _) => apply sp_watch
    | |- session_prog (txn_lock _) => apply sp_lock
    | |- session_prog txn_unlock => apply sp_unlock
    | |- session_prog (cmd_save _) => apply sp_save
    | |- session_prog discard => apply sp_put
    | |- session_prog (modify_ _) => apply sp_now
    | |- session_prog (when _ _) => unfold when at 1
    | |- session_prog (mret _) => apply sp_prog, prog_ret
    | |- session_prog (lift None) => apply sp_prog, prog_fail
    | |- session_prog (gets replay) => apply sp_prog, prog_replay
    | |- session_prog (aof_append _ _ _) => apply sp_prog, prog_append
    | |- session_prog (if ?b then _ else _) => destruct b
    | |- session_prog (match ?x with _ => _ end) => destruct x
    | |- session_prog _ => apply sp_prog, prog_reply, emits_append; exact [] || exact 0 || exact 0%nat
    | _ => fail
    end).
Lemma for_each_session {A} (f : A -> M unit) l : (forall x, session_prog (f x)) -> session_prog (for_each f l).
Proof. intros Hf. induction l; simpl; [apply sp_prog, prog_ret|]. by apply sp_bind. Qed.
Lemma session_step clk (rec : bytes -> bytes -> list bytes -> M Action) cmd raw args :
  (forall c raw args, session_prog (rec c raw args)) -> session_prog (exec_step clk rec cmd raw args).
Proof.
  intros Hrec. destruct (one_of cmd txn_names) eqn:Hc; [|by apply sp_prog, exec_step_prog].
  unfold one_of, txn_names in Hc. cbn [existsb] in Hc. rewrite !orb_true_iff in Hc.
  destruct Hc as [Hc|[Hc|[Hc|[Hc|[Hc|[Hc|[Hc|[Hc|Hc]]]]]]]]; try done;
    apply bool_decide_eq_true in Hc; subst cmd; unfold exec_step; cbv zeta;
    repeat lazymatch goal with |- session_prog (if ?b then _ else _) =>
             lazymatch b with context [cmd_is _ _] => let v := eval vm_compute in b in change b with v; cbv iota end end;
    unfold cmd_multi, cmd_watch, cmd_exec, exec_run, cmd_unknown, log_write; session_prog.
  - apply for_each_session. intros q. unfold exec_queued. session_prog. apply Hrec.
  - apply for_each_session. intros k. session_prog.
Qed.
Lemma session_command depth clk : forall cmd raw args, session_prog (exec_command depth clk cmd raw args).
Proof. induction depth as [|depth IH]; intros cmd raw args; [apply sp_prog, prog_fail|]. by apply session_step. Qed.
Lemma session_dispatch clk raw args : session_prog (dispatch clk raw args).
Proof.
  unfold dispatch. destruct args as [|first args]; session_prog. apply session_command.
Qed.
Lemma batch_accumulates fuel : forall buf head n, accumulates (batch fuel buf head n).
Proof.
  induction fuel as [|fuel IH]; intros buf head n; [apply prog_accumulates, prog_fail|]. cbn [batch].
  destruct (parse_command buf head) as [e|[[slices next]|]].
  - apply session_accumulates. session_prog.
  - apply accumulates_bind; [apply session_accumulates, session_dispatch|]. intros [].
    + apply IH.
    + apply prog_accumulates, prog_ret.
  - apply prog_accumulates, prog_ret.
Qed.

(** ** Batches and buffers *)

Lemma bind_ext {A B} (m : M A) (f g : A -> M B) r : (forall x r, f x r = g x r) -> (m ≫= f) r = (m ≫= g) r.
Proof. intros H. unfold mbind, M_bind. by destruct (m r) as [[x r']|]; [apply H|]. Qed.

(** More fuel than bytes is enough. *)
Lemma batch_fuel fuel : forall fuel' buf head n r, (length buf - head < fuel)%nat -> (length buf - head < fuel')%nat ->
  batch fuel buf head n r = batch fuel' buf head n r.
Proof.
  induction fuel as [|fuel IH]; intros fuel' buf head n r Hf Hf'; [lia|]. destruct fuel' as [|fuel']; [lia|]. cbn [batch].
  destruct (parse_command buf head) as [e|[[slices next]|]] eqn:E; [done| |done].
  apply parse_command_bounds in E as [Hb _]. apply bind_ext. intros [] r'; [|done]. apply IH; lia.
Qed.
Lemma run_batch_next buf head n r slices next : parse_command buf head = inr (Some (slices, next)) ->
  run_batch buf head n r = (action ← dispatch (clock n) (slice head next buf) (map (arg_bytes buf) slices);
    match action with Close => mret (next, S n, true) | Continue => run_batch buf next (S n) end) r.
Proof.
  intros E. unfold run_batch at 1. cbn [batch]. rewrite E. apply parse_command_bounds in E as [Hb _].
  apply bind_ext. intros [] r'; [|done]. apply batch_fuel; lia.
Qed.
Lemma run_batch_stop buf head n r : parse_command buf head = inr None -> run_batch buf head n r = Some ((head, n, false), r).
Proof. intros E. unfold run_batch. cbn [batch]. by rewrite E. Qed.

(** Induction over the commands of a buffer. *)
Lemma run_batch_ind (Q : nat -> nat -> Resp -> option (nat * nat * bool * Resp) -> Prop) buf :
  (forall head n r, parse_command buf head = inr None -> Q head n r (Some ((head, n, false), r))) ->
  (forall head n r e, parse_command buf head = inl e -> Q head n r (run_batch buf head n r)) ->
  (forall head n r slices next, parse_command buf head = inr (Some (slices, next)) ->
     dispatch (clock n) (slice head next buf) (map (arg_bytes buf) slices) r = None -> Q head n r None) ->
  (forall head n r slices next r', parse_command buf head = inr (Some (slices, next)) ->
     dispatch (clock n) (slice head next buf) (map (arg_bytes buf) slices) r = Some (Close, r') ->
     Q head n r (Some ((next, S n, true), r'))) ->
  (forall head n r slices next r', parse_command buf head = inr (Some (slices, next)) ->
     dispatch (clock n) (slice head next buf) (map (arg_bytes buf) slices) r = Some (Continue, r') ->
     Q next (S n) r' (run_batch buf next (S n) r') -> Q head n r (run_batch buf next (S n) r')) ->
  forall head n r, Q head n r (run_batch buf head n r).
Proof.
  intros H1 H2 H3 H4 H5 head. remember (length buf - head)%nat as k eqn:Ek. revert head Ek.
  induction (lt_wf k) as [k _ IH]. intros head -> n r.
  destruct (parse_command buf head) as [e|[[slices next]|]] eqn:E; [by eapply H2| |rewrite run_batch_stop by done; by apply H1].
  rewrite (run_batch_next _ _ _ _ _ _ E). unfold mbind, M_bind.
  destruct (dispatch _ _ _ _) as [[[] r']|] eqn:Ed; cbn [mbind option_bind]; [|by eapply H4|by eapply H3].
  eapply H5; [done|done|]. apply parse_command_bounds in E as [Hb _]. eapply IH; [|done]. lia.
Qed.

Lemma run_batch_bounds buf head n r h n1 c r1 : (head <= length buf)%nat -> run_batch buf head n r = Some ((h, n1, c), r1) ->
  (head <= h <= length buf)%nat /\ (c = false -> parse_command buf h = inr None).
Proof.
  intros Hh E. revert Hh E. apply (run_batch_ind (fun head n r m => (head <= length buf)%nat -> m = Some ((h, n1, c), r1) ->
    (head <= h <= length buf)%nat /\ (c = false -> parse_command buf h = inr None)) buf).
  - intros head' n' r' Ep Hh [= <- <- <- <-]. by split.
  - intros head' n' r' e Ep Hh. unfold run_batch. cbn [batch]. rewrite Ep. cbn. intros [= <- <- <- <-]. by split.
  - done.
  - intros head' n' r' sl next r2 Ep _ Hh [= <- <- <- <-]. apply parse_command_bounds in Ep as [? _]. split; [lia|done].
  - intros head' n' r' sl next r2 Ep _ IH Hh E. apply parse_command_bounds in Ep as [? _].
    destruct (IH ltac:(lia) E). split; [lia|done].
Qed.

(** More bytes behind: the batch goes on where it stopped. *)
Lemma run_batch_app buf more head n r h n1 c r1 : run_batch buf head n r = Some ((h, n1, c), r1) ->
  run_batch (buf ++ more) head n r = (if c then Some ((h, n1, true), r1) else run_batch (buf ++ more) h n1 r1).
Proof.
  apply (run_batch_ind (fun head n r m => m = Some ((h, n1, c), r1) ->
    run_batch (buf ++ more) head n r = (if c then Some ((h, n1, true), r1) else run_batch (buf ++ more) h n1 r1)) buf).
  - by intros head' n' r' _ [= <- <- <- <-].
  - intros head' n' r' e Ep. unfold run_batch. cbn [batch]. pose proof (parse_command_app buf more head') as Ha.
    rewrite Ha by (by rewrite Ep). rewrite Ep. cbn. by intros [= <- <- <- <-].
  - done.
  - intros head' n' r' sl next r2 Ep Ed [= <- <- <- <-]. destruct (parse_command_more _ more _ _ _ Ep) as (Ep' & Es & Ea).
    rewrite (run_batch_next _ _ _ _ _ _ Ep'). unfold mbind, M_bind. by rewrite Es, Ea, Ed.
  - intros head' n' r' sl next r2 Ep Ed IH E. rewrite <- (IH E). destruct (parse_command_more _ more _ _ _ Ep) as (Ep' & Es & Ea).
    rewrite (run_batch_next _ _ _ _ _ _ Ep'). unfold mbind, M_bind. by rewrite Es, Ea, Ed.
Qed.
(** A batch of more bytes returns only if one of fewer does. *)
Lemma run_batch_prefix buf more head n r : is_Some (run_batch (buf ++ more) head n r) -> is_Some (run_batch buf head n r).
Proof.
  apply (run_batch_ind (fun head n r m => is_Some (run_batch (buf ++ more) head n r) -> is_Some m) buf).
  - by eexists.
  - intros head' n' r' e Ep _. unfold run_batch. cbn [batch]. rewrite Ep. by eexists.
  - intros head' n' r' sl next Ep Ed Hs. exfalso. destruct (parse_command_more _ more _ _ _ Ep) as (Ep' & Es & Ea).
    rewrite (run_batch_next _ _ _ _ _ _ Ep') in Hs. unfold mbind, M_bind in Hs. rewrite Es, Ea, Ed in Hs. by destruct Hs.
  - by eexists.
  - intros head' n' r' sl next r2 Ep Ed IH Hs. apply IH. destruct (parse_command_more _ more _ _ _ Ep) as (Ep' & Es & Ea).
    rewrite (run_batch_next _ _ _ _ _ _ Ep') in Hs. unfold mbind, M_bind in Hs. by rewrite Es, Ea, Ed in Hs.
Qed.
Lemma parse_rest buf h : (h <= length buf)%nat -> parse_command buf h = inr None -> parse_command (drop h buf) 0 = inr None.
Proof.
  intros Hh E. pose proof (parse_command_shift (take h buf) (drop h buf) 0) as Hs.
  rewrite take_drop, length_take, Nat.add_0_r, Nat.min_l in Hs by lia. rewrite E in Hs.
  by destruct (parse_command (drop h buf) 0) as [|[[]|]].
Qed.
(** What lies before the position does not matter. *)
Lemma run_batch_shift pre buf head n r :
  run_batch (pre ++ buf) (length pre + head) n r =
  ('((h, n, c), r) ← run_batch buf head n r; Some (((length pre + h)%nat, n, c), r)).
Proof.
  apply (run_batch_ind (fun head n r m => run_batch (pre ++ buf) (length pre + head) n r =
    ('((h, n, c), r) ← m; Some (((length pre + h)%nat, n, c), r))) buf).
  - intros head' n' r' Ep. apply run_batch_stop. by rewrite parse_command_shift, Ep.
  - intros head' n' r' e Ep. unfold run_batch. cbn [batch]. rewrite parse_command_shift, Ep. done.
  - intros head' n' r' sl next Ep Ed. pose proof (parse_command_shift pre buf head') as Ep'. rewrite Ep in Ep'.
    rewrite (run_batch_next _ _ _ _ _ _ Ep'). unfold mbind, M_bind. rewrite slice_shift, args_shift.
    by rewrite Ed.
  - intros head' n' r' sl next r2 Ep Ed. pose proof (parse_command_shift pre buf head') as Ep'. rewrite Ep in Ep'.
    rewrite (run_batch_next _ _ _ _ _ _ Ep'). unfold mbind, M_bind. by rewrite slice_shift, args_shift, Ed.
  - intros head' n' r' sl next r2 Ep Ed IH. rewrite <- IH. pose proof (parse_command_shift pre buf head') as Ep'. rewrite Ep in Ep'.
    rewrite (run_batch_next _ _ _ _ _ _ Ep'). unfold mbind, M_bind. by rewrite slice_shift, args_shift, Ed.
Qed.

(** The rest of a batch, with an empty reply buffer and without the bytes
    already dispatched. *)
Lemma batch_rest_eq buf more h n r : (h <= length buf)%nat ->
  run_batch (buf ++ more) h n r =
  ('((h2, n2, c2), r2) ← run_batch (drop h buf ++ more) 0 n (with_out r []);
   Some (((h + h2)%nat, n2, c2), with_out r2 (out r ++ out r2))).
Proof.
  intros Hh. assert (Es : buf ++ more = take h buf ++ (drop h buf ++ more)) by (by rewrite app_assoc, take_drop).
  assert (El : length (take h buf) = h) by (rewrite length_take; lia).
  pose proof (run_batch_shift (take h buf) (drop h buf ++ more) 0 n r) as Hs.
  rewrite <- Es, El, Nat.add_0_r in Hs. rewrite Hs.
  pose proof (batch_accumulates (S (length (drop h buf ++ more) - 0)) (drop h buf ++ more) 0 n r (out r)) as Ha.
  rewrite with_out_same in Ha. fold (run_batch (drop h buf ++ more) 0 n) in Ha. rewrite Ha.
  by destruct (run_batch (drop h buf ++ more) 0 n (with_out r [])) as [[[[h2 n2] c2] r2]|].
Qed.
Lemma batch_rest buf more h n r : (h <= length buf)%nat -> is_Some (run_batch (buf ++ more) h n r) ->
  is_Some (run_batch (drop h buf ++ more) 0 n (with_out r [])).
Proof.
  intros Hh. rewrite batch_rest_eq by done. intros Hs.
  destruct (run_batch (drop h buf ++ more) 0 n _) as [x|]; [by eexists|by destruct Hs].
Qed.

(** The replies to a stream that arrives in one piece, in a buffer that holds it. *)
Definition whole (c : Conn) stream : option (nat * nat * bool * Resp) :=
  run_batch (recv c ++ stream) 0 (served c) (with_out (sess c) []).

(** The connection ended as the batch did: the same session, the bytes after
    the last command still to come. *)
Definition ended_as (e : ConnEnd) stream head n (close : bool) r : Prop :=
  match e with
  | Waiting c => close = false /\ recv c = drop head stream /\ served c = n /\ with_out (sess c) [] = with_out r []
  | Finished r' => close = true /\ with_out r' [] = with_out r []
  | TooLarge => False
  end.

Lemma handle_whole reads : forall c sent e, parse_command (recv c) 0 = inr None -> Forall (fun data => data <> []) reads ->
  handle_connection c reads = Some (sent, e) -> e <> TooLarge ->
  exists head n close r, whole c (concat reads) = Some ((head, n, close), r) /\ out r = sent /\
    ended_as e (recv c ++ concat reads) head n close r.
Proof.
  induction reads as [|data reads IH]; intros c sent e Hc Hr E He; cbn [handle_connection] in E;
    destruct (grow c) as [len|]; try (by injection E as <- <-).
  - injection E as <- <-. unfold whole. cbn [concat]. rewrite app_nil_r.
    exists 0%nat, (served c), false, (with_out (sess c) []). rewrite run_batch_stop by done. by split_and!.
  - apply Forall_cons in Hr as [Hd Hr]. destruct data as [|b data]; [done|]. set (d := b :: data) in *. clearbody d.
    cbv zeta in E. destruct (_ <? _); [done|]. set (buf := recv c ++ d) in *.
    destruct (run_batch buf 0 (served c) (with_out (sess c) [])) as [[[[h n1] cl] r1]|] eqn:Eb; [|done].
    cbn [mbind option_bind] in E. unfold whole. cbn [concat]. rewrite (app_assoc (recv c) d). fold buf.
    rewrite (run_batch_app _ (concat reads) _ _ _ _ _ _ _ Eb).
    destruct (run_batch_bounds _ _ _ _ _ _ _ _ (Nat.le_0_l _) Eb) as [Hh Hstop].
    destruct cl.
    { injection E as <- <-. by exists h, n1, true, r1. }
    destruct (handle_connection _ reads) as [[sent2 e2]|] eqn:E2; [|done]. cbn in E. injection E as <- <-.
    destruct (IH (MkConn (drop h buf) len n1 r1) _ _ (parse_rest buf h (proj2 Hh) (Hstop eq_refl)) Hr E2 He) as (h2 & n2 & c2 & r2 & Ew & Eo & Hend).
    unfold whole in Ew. cbn [recv served sess] in Ew, Hend.
    rewrite (batch_rest_eq _ _ _ _ _ (proj2 Hh)), Ew. cbn [mbind option_bind].
    exists (h + h2)%nat, n2, c2, (with_out r2 (out r1 ++ out r2)). split; [done|]. split; [cbn; by rewrite Eo|].
    assert (Ed : forall x, drop (h + x) (buf ++ concat reads) = drop x (drop h buf ++ concat reads)).
    { intros x. rewrite <- drop_drop, drop_app_le by lia. done. }
    destruct e2 as [c'|r'|]; [|done|done]. cbn in Hend |- *. rewrite Ed. exact Hend.
Qed.

(** C15. The replies do not depend on how the bytes arrive: whatever the reads a
    connection's commands are spread over, and however the receive buffer is
    grown and compacted on the way, what is sent, the session left behind and
    the bytes still to be completed are those of the whole stream in one buffer;
    unless a command outgrows the largest buffer. *)
Theorem replies_independent_of_chunks sh reads sent e : Forall (fun data => data <> []) reads ->
  handle_connection (conn_new sh) reads = Some (sent, e) -> e <> TooLarge ->
  exists head n close r, whole (conn_new sh) (concat reads) = Some ((head, n, close), r) /\ out r = sent /\
    ended_as e (concat reads) head n close r.
Proof. intros Hr E He. by apply (handle_whole reads (conn_new sh)). Qed.

(** ** The buffer and the session *)

Record conn_ok (c : Conn) : Prop := {
  cn_fits : Z.of_nat (length (recv c)) <= recv_len c;
  cn_size : INITIAL_RECV <= recv_len c <= MAX_RECV;
  cn_session : session_ok (sess c) }.

Lemma grow_spec c : conn_ok c ->
  match grow c with
  | Some len => Z.of_nat (length (recv c)) < len /\ INITIAL_RECV <= len <= MAX_RECV
  | None => Z.of_nat (length (recv c)) = MAX_RECV
  end.
Proof.
  intros [H1 H2 _]. unfold grow, INITIAL_RECV, MAX_RECV in *.
  destruct (Z.eqb_spec (Z.of_nat (length (recv c))) (recv_len c)) as [E|E]; [|lia].
  destruct (Z.leb_spec (512 * 1024 * 1024) (recv_len c)); lia.
Qed.

(** The command EXEC would parse again is the one that was dispatched. *)
Lemma raw_ranges buf head slices next : parse_command buf head = inr (Some (slices, next)) ->
  exists rs, parse_ranges (slice head next buf) = Some rs /\
    map (arg_bytes buf) slices = map (fun x => slice (fst x) (snd x) (slice head next buf)) rs.
Proof.
  intros E. destruct (parse_command_bounds _ _ _ _ E) as [Hb _]. set (raw := slice head next buf).
  assert (Ebuf : buf = (take head buf ++ raw) ++ drop next buf).
  { unfold raw, slice. rewrite <- app_assoc. rewrite <- (take_drop head buf) at 1. f_equal.
    rewrite <- (take_drop (next - head) (drop head buf)) at 1. f_equal. rewrite drop_drop. f_equal. lia. }
  assert (Hl : length (take head buf) = head) by (rewrite length_take; lia).
  assert (Hr : length raw = (next - head)%nat) by (unfold raw; rewrite length_slice; lia).
  assert (Et : parse_command (take head buf ++ raw) head = inr (Some (slices, next))).
  { apply (parse_command_trunc _ (drop next buf)); [by rewrite <- Ebuf|]. rewrite length_app. lia. }
  destruct (parse_command_more _ (drop next buf) _ _ _ Et) as (_ & _ & Ea). rewrite <- Ebuf in Ea.
  pose proof (parse_command_shift (take head buf) raw 0) as Hs. rewrite Hl, Nat.add_0_r, Et in Hs.
  unfold parse_ranges. destruct (parse_command raw 0) as [|[[sl n]|]]; try done. injection Hs as -> _.
  eexists. split; [done|]. by rewrite Ea, args_shift, map_map.
Qed.

Lemma keeps_run_batch buf head n r x r' : session_ok r -> run_batch buf head n r = Some (x, r') -> session_ok r'.
Proof.
  apply (run_batch_ind (fun head n r m => session_ok r -> m = Some (x, r') -> session_ok r') buf).
  - by intros ? ? ? _ Hr [= <- <-].
  - intros head' n' r1 e Ep Hr E. unfold run_batch in E. cbn [batch] in E. rewrite Ep in E. injection E as <- <-.
    by apply (session_same r1).
  - done.
  - intros head' n' r1 sl next r2 Ep Ed Hr [= <- <-]. destruct (raw_ranges _ _ _ _ Ep) as (rs & Hrs & Ea).
    rewrite Ea in Ed. by eapply keeps_dispatch.
  - intros head' n' r1 sl next r2 Ep Ed IH Hr E. apply IH; [|done]. destruct (raw_ranges _ _ _ _ Ep) as (rs & Hrs & Ea).
    rewrite Ea in Ed. by eapply keeps_dispatch.
Qed.

(** Whatever a client sends, the buffer stays within its bounds and the session
    well formed. *)
Lemma connection_ok reads : forall c sent e, conn_ok c -> handle_connection c reads = Some (sent, e) ->
  match e with Waiting c' => conn_ok c' | Finished r => session_ok r | TooLarge => True end.
Proof.
  induction reads as [|data reads IH]; intros c sent e Hc E; cbn [handle_connection] in E; pose proof (grow_spec c Hc) as Hg;
    destruct (grow c) as [len|]; try (by injection E as <- <-).
  destruct data as [|b data]; [injection E as <- <-; apply Hc|]. set (d := b :: data) in *. clearbody d. cbv zeta in E.
  destruct (Z.ltb_spec (len - Z.of_nat (length (recv c))) (Z.of_nat (length d))); [done|].
  destruct (run_batch _ 0 (served c) _) as [[[[h n1] cl] r1]|] eqn:Eb; [|done]. cbn [mbind option_bind] in E.
  assert (Hr : session_ok r1) by (eapply keeps_run_batch; [|exact Eb]; by apply (session_same (sess c)); [apply Hc|]).
  destruct cl; [by injection E as <- <-|].
  destruct (handle_connection _ reads) as [[sent2 e2]|] eqn:E2; [|done]. cbn in E. injection E as <- <-.
  eapply IH; [|exact E2]. split; cbn; [|apply Hg|done]. rewrite length_drop, length_app. lia.
Qed.
End Server.

(** ** Admission bounds the connections *)

(** Connections come and go; a refused one is closed at once. *)
Inductive admission (maxclients : Z) : Z -> Z -> Prop :=
  | admit_conn live : admission maxclients live (snd (accept live maxclients))
  | end_conn live : 0 < live -> admission maxclients live (conn_slot_drop live).
Lemma admission_bounded maxclients live live' : rtc (admission maxclients) live live' ->
  0 <= live <= maxclients -> 0 <= live' <= maxclients.
Proof.
  induction 1 as [|l0 l1 l2 Hs _ IH]; [done|]. intros H. apply IH. destruct Hs as [l|l Hl]; cbn.
  - unfold accept. destruct (Z.leb_spec maxclients l); cbn; lia.
  - unfold conn_slot_drop. lia.
Qed.

(** ** A run over a map *)

#[local] Existing Instance map_db.
Definition demo_reads : list bytes :=
  let stream := words ["SET"; "a"; "1"]%string ++ words ["GET"; "a"]%string ++ bs "PING" ++ crlf in
  [take 10 stream; take 27 (drop 10 stream); drop 37 stream].
Lemma replies_independent_of_chunks_witness : exists sent e head n close r,
  handle_connection (fun _ => 0) (conn_new demo_shared) demo_reads = Some (sent, e) /\
  whole (fun _ => 0) (conn_new demo_shared) (concat demo_reads) = Some ((head, n, close), r) /\ out r = sent /\ n = 3%nat.
Proof.
  destruct (handle_connection (fun _ => 0) (conn_new demo_shared) demo_reads) as [[sent e]|] eqn:E; [|vm_compute in E; discriminate].
  destruct (replies_independent_of_chunks (fun _ => 0) demo_shared demo_reads sent e) as (head & n & close & r & H1 & H2 & _).
  - repeat constructor; discriminate.
  - exact E.
  - intros ->. vm_compute in E. discriminate.
  - exists sent, e, head, n, close, r. split; [done|]. split; [exact H1|]. split; [done|].
    assert (En : option_map (fun x => snd (fst (fst x))) (whole (fun _ => 0) (conn_new demo_shared) (concat demo_reads)) = Some 3%nat)
      by (vm_compute; reflexivity).
    rewrite H1 in En. by injection En.
Defined.
