(* ===== verification/StoreDb.v ===== *)
(** * The store as the database of the commands

    The store implements [Database], the class the command layer is written
    against, and keeps the promise about statuses the bookkeeping of writes
    relies on; then whole commands run against the real store. *)

From S2P Require Import Prelude Record Resp Hash Index Latch Epoch Log Session Functions Store Txn Scan Checkpoint.
From S2P Require Import Aof Shared Commands CommandsSpec CommandsTrace Replay Server.

#[local] Opaque hash64.

(** The store, and the checkpoint file of its directory. *)
Record StoreDir := Dir { sd_store : Store; sd_meta : option bytes }.
Definition set_dir_store (d : StoreDir) (st : Store) : StoreDir := Dir st (sd_meta d).

(** Attempts of an operation: one more than an undisturbed one can need. *)
Definition RETRIES : nat := 6.

(** [tid] is the thread serving the connection. *)
Definition store_db (tid : Z) : Database StoreDir Session := {|
  db_session := fun d => new_session (sd_store d) tid;
  db_read := fun d se k i o =>
    '(s, o, st, se) ← read RETRIES (sd_store d) se k i o; Some (s, o, set_dir_store d st, se);
  db_upsert := fun d se k i o =>
    '(s, o, st, se) ← upsert RETRIES (sd_store d) se k i o; Some (s, o, set_dir_store d st, se);
  db_rmw := fun d se k i o =>
    '(s, o, st, se) ← rmw RETRIES (sd_store d) se k i o; Some (s, o, set_dir_store d st, se);
  db_delete := fun d se k =>
    '(s, _, st, se) ← delete_key RETRIES (sd_store d) se k output_default; Some (s, set_dir_store d st, se);
  db_live := fun d se =>
    '(recs, st, se) ← scan_live (sd_store d) se; Some (map (fun x => c_key (snd x)) recs, set_dir_store d st, se);
  db_clear := fun d => set_dir_store d (set_index (sd_store d) (clear (st_index (sd_store d))));
  db_lock := fun d se keys => '(st, se) ← Txn.txn_lock (sd_store d) se keys; Some (set_dir_store d st, se);
  db_unlock := fun d se => '(st, se) ← Txn.txn_unlock (sd_store d) se; Some (set_dir_store d st, se);
  db_checkpoint := fun d a =>
    r ← take_checkpoint RETRIES (sd_store d) a;
    Some (match r with inl e => inl e | inr (_, file, st) => inr (Dir st (Some file)) end) |}.

(** ** Statuses

    What [good] statuses and outputs one attempt can end with, read off the code
    whatever the state. *)
Section Statuses.
Context (i : StringInput) (good : Status -> StringOutput -> Prop).
Implicit Types (st : Store) (se : Session) (k : bytes) (out : StringOutput).

Definition ends {A} (x : option ((Op * StringOutput) * A)) : Prop :=
  forall s out a, x = Some ((OpDone s, out), a) -> good s out.

Lemma ends_bind {A B} (m : option A) (f : A -> option ((Op * StringOutput) * B)) :
  (forall a, m = Some a -> ends (f a)) -> ends (m ≫= f).
Proof. intros H s out b E. destruct m as [a|]; [|done]. by apply (H a eq_refl s out b). Qed.
Lemma ends_done {A} s out (a : A) : good s out -> ends (Some ((OpDone s, out), a)).
Proof. intros H s' out' a' [= <- <- <-]. done. Qed.
Lemma ends_again {A} o out (a : A) : (forall s, o <> OpDone s) -> ends (Some ((o, out), a)).
Proof. intros H s' out' a' [= -> _ _]. by destruct (H s'). Qed.
Lemma ends_latch txn b excl st body : (forall st, ends (body st)) -> forall out, ends (latch txn b excl st (OpRetryLater, out) body).
Proof.
  intros H out. unfold latch. destruct txn; [apply H|]. apply ends_bind. intros [[] ix] _; [|by apply ends_again].
  apply ends_bind. intros [[o out'] st'] E. apply ends_bind. intros ix' _ s out'' a E'. injection E' as -> -> _. by eapply H.
Qed.

(** Enough that every ending of an update is good. *)
Record updates_good : Prop := {
  ug_not_found : forall out, good NotFound out;
  ug_other : forall out, good Found out /\ good Canceled out /\ good Error out;
  ug_initial : forall k out, fst (need_initial_update k i out) = false;
  ug_in_place : forall k rec out rec' out', in_place_updater k i rec out = Some (Updated, rec', out') -> good InPlaceUpdated out';
  ug_delete_now : forall k rec out rec' out', in_place_updater k i rec out = Some (DeleteNow, rec', out') ->
    good Deleted (post_deleter k out');
  ug_delete_copy : forall k src out out1, need_copy_update k i src out = (DeleteCopy, out1) ->
    good Deleted (post_deleter k out1);
  ug_copy : forall k src src' rec out out1 rec' out', need_copy_update k i src out = (Copy, out1) ->
    copy_updater k i src' rec out1 = Some (rec', out') -> good CopyUpdated out' }.
Context (HG : updates_good).

Lemma rmw_initial_ends st se slot entry k out : ends (rmw_initial st se slot entry k i out).
Proof.
  unfold rmw_initial. pose proof (ug_initial HG k out) as H. destruct (need_initial_update k i out) as [go out'].
  cbn in H. subst go. cbn [negb]. apply ends_done, HG.
Qed.
Ltac walk := repeat (cbv zeta; first
  [ apply ends_bind; intros ? ? | by apply ends_again | apply ends_done; first [apply HG | assumption | eapply HG; eassumption]
  | match goal with |- ends (let '(_, _) := ?x in _) => destruct x eqn:? end
  | match goal with |- ends (match ?x with _ => _ end) => destruct x eqn:? end ]).
Lemma delete_rcu_ends st se slot entry k out old : good Deleted (post_deleter k out) ->
  ends (delete_rcu st se slot entry k out old).
Proof. intros H. unfold delete_rcu, done_, again. walk. Qed.
Lemma rmw_copy_ends st se slot entry k out old seal : ends (rmw_copy st se slot entry k i out old seal).
Proof.
  unfold rmw_copy, done_, again. apply ends_bind. intros src _. destruct (need_copy_update _ _ _ _) as [[] out1] eqn:E;
    [walk|walk|]. apply delete_rcu_ends. by eapply (ug_delete_copy HG).
Qed.
Lemma internal_rmw_ends st se k hash out disk : ends (internal_rmw st se k hash i out disk).
Proof.
  unfold internal_rmw, done_, again. apply ends_bind. intros [slot ix] _. apply ends_latch. intros st1.
  apply ends_bind. intros entry _. cbv zeta. apply ends_bind. intros t _. destruct t as [addr|addr].
  - apply ends_bind. intros rec _. destruct (cpr_gate _ _ _ _) as [op|] eqn:Eg.
    { apply ends_again. intros s ->. unfold cpr_gate in Eg. destruct (_ && _); [done|]. by destruct (is_closed _). }
    destruct (is_tombstone _); [apply rmw_initial_ends|]. destruct (_ <=? addr).
    + destruct (cpr_blocks_in_place _ _ _ _); [apply rmw_copy_ends|]. apply ends_bind. intros [[r rec'] out'] E.
      destruct r; try apply rmw_copy_ends; try (apply ends_bind; intros st2 _); try apply rmw_initial_ends; apply ends_done; first [apply HG | by eapply (ug_in_place HG) | by eapply (ug_delete_now HG)].
    + destruct (_ <=? addr); [by apply ends_again|apply rmw_copy_ends].
  - destruct (on_disk _ _); [|apply rmw_initial_ends]. destruct disk as [[src seen]|]; [|by apply ends_again].
    apply ends_bind. intros [] _; [|by apply ends_again]. destruct src as [old|]; [|apply rmw_initial_ends].
    destruct (negb _); [apply rmw_copy_ends|apply rmw_initial_ends].
Qed.

Lemma rmw_loop_ends fuel : forall st se k hash out disk n s out' st' se',
  rmw_loop fuel st se k hash i out disk n = Some (s, out', st', se') -> good s out'.
Proof.
  induction fuel as [|fuel IH]; intros st se k hash out disk n s out' st' se' E; [done|]. cbn [rmw_loop] in E.
  destruct (protected st se _) as [[[[r out1] st1] se1]|] eqn:Ep; [|done]. cbn [mbind option_bind] in E.
  assert (Hend : forall s, r = OpDone s -> good s out1).
  { intros s1 ->. unfold protected in Ep. destruct (protect _ _ _) as [[[v idx] e]|]; [|done]. cbn [mbind option_bind] in Ep.
    destruct (internal_rmw _ _ _ _ _ _ _) as [[[o2 out2] st2]|] eqn:Ei; [|done]. cbn [mbind option_bind] in Ep.
    destruct (unprotect _ _ _) as [[idx' e']|]; [|done]. cbn [mbind option_bind] in Ep. injection Ep as -> -> _ _.
    by eapply internal_rmw_ends. }
  destruct r as [s1| | |addr latest|].
  - injection E as <- <- _ _. by apply Hend.
  - destruct (handle_retry _ _ _) as [[[[] n'] st2]|]; [by eapply IH| |done]. injection E as <- <- _ _. apply HG.
  - destruct (handle_retry _ _ _) as [[[[] n'] st2]|]; [by eapply IH| |done]. injection E as <- <- _ _. apply HG.
  - destruct (find_on_disk _ _ _ _) as [image|]; [|done]. cbn [mbind option_bind] in E. by eapply IH.
  - destruct (handle_retry _ _ _) as [[[[] n'] st2]|]; [by eapply IH| |done]. injection E as <- <- _ _. apply HG.
Qed.
End Statuses.

Lemma rmw_ends st se k i good out fuel s out' st' se' : updates_good i good ->
  rmw fuel st se k i out = Some (s, out', st', se') -> good s out'.
Proof. intros HG E. by eapply (rmw_loop_ends i good HG). Qed.
#[local] Arguments rmw : simpl never.

(** The store keeps the promise the commands' bookkeeping relies on, from
    any state: GETDEL changes a record only to delete it, and PERSIST reports 1
    whenever it wrote. *)
Theorem store_statuses_honest tid : HonestStatus (store_db tid).
Proof.
  split; intros d p k v n e now o s o' d' p' E; cbn [db_rmw store_db] in E;
    destruct (rmw _ _ _ _ _ _) as [[[[s1 o1] st1] se1]|] eqn:Er in E; try done; cbn in E; injection E as -> -> _ _.
  - refine (rmw_ends _ _ _ _ (fun s _ => is_updated s = true -> s = Deleted) _ _ _ _ _ _ _ Er).
    split; try done; cbn.
    + intros k0 rec out rec' out' E. unfold str_in_place_updater in E. cbn in E. by destruct (expired _ _).
    + intros k0 src src' rec out out1 rec' out' E. unfold str_need_copy_update in E. cbn in E. by destruct (expired _ _).
  - refine (rmw_ends _ _ _ _ (fun s o => is_updated s = true -> has_int o = true /\ int o = 1) _ _ _ _ _ _ _ Er).
    split; try done; cbn.
    + intros k0 rec out rec' out' E _. unfold str_in_place_updater in E. cbn in E. destruct (expired _ _); [done|].
      destruct (_ && _); [|done]. by injection E as _ <-.
    + intros k0 rec out rec' out' E. unfold str_in_place_updater in E. cbn in E. destruct (expired _ _); [done|]. by destruct (_ && _).
    + intros k0 src out out1 E. unfold str_need_copy_update in E. cbn in E. by destruct (expired _ _).
    + intros k0 src src' rec out out1 rec' out' _ E _. unfold str_copy_updater, str_copy_write in E. cbn in E.
      destruct (write_val _ _); [|done]. cbn in E. by destruct (c_has_slot _); injection E as _ <-.
Qed.

(** ** Recovery of the server

    [Shared::recover]: the checkpoint of the directory, if there is one, then the
    log; the log address stored in the checkpoint is not used. *)
Definition recover_shared (tid clock : Z) (sh : Shared StoreDir) : option (bytes + Shared StoreDir) :=
  if negb (persist sh) then Some (inr sh) else
  let d := sh_store sh in
  loaded ← (match sd_meta d with
            | Some file =>
                match read_from file with
                | inl e => Some (inl e)
                | inr info => st ← recover (sd_store d) info; Some (inr (set_dir_store d st))
                end
            | None => Some (inr d)
            end);
  match loaded with
  | inl e => Some (inl e)
  | inr d => sh ← recover_log (HDB := store_db tid) clock (set_store sh d); Some (inr sh)
  end.

(** A new process over the files the old one left. *)
Definition reboot (tid clock : Z) (sh : Shared StoreDir) : option (Shared StoreDir) :=
  st ← store_new 1 9 4 2;
  let old := sh_store sh in
  let st := set_log st (set_device (st_log st) (device (st_log (sd_store old)))) in
  let log := match sh_aof sh with Some a => file a | None => [] end in
  r ← recover_shared tid clock (shared_new (Dir st (sd_meta old)) (persist sh) (bool_decide (is_Some (sh_aof sh))) (aof_commit_wait sh) Always log);
  match r with inr sh => Some sh | inl _ => None end.

(** ** Whole commands against the store *)

(** The replies to a sequence of commands of one connection, at time [clock]. *)
Fixpoint replies (clock : Z) (cmds : list (list string)) (r : RespSession StoreDir Session)
    : option (list bytes * Shared StoreDir) :=
  match cmds with
  | [] => Some ([], shared r)
  | c :: cmds => '(reply, r) ← run (H := store_db 7) clock (map bs c) r; '(rest, sh) ← replies clock cmds r; Some (reply :: rest, sh)
  end.
Definition server (aof : bool) : option (Shared StoreDir) :=
  st ← store_new 1 9 4 2; Some (shared_new (Dir st None) true aof aof Always []).
Definition connect (sh : Shared StoreDir) : RespSession StoreDir Session := resp_session_new (H := store_db 7) sh.

(** A reply, its line ends written [|]. *)
Definition lines (s : string) : bytes := concat (map (fun b => if b =? 124 then [13; 10] else [b]) (bs s)).

Example store_session : (sh ← server false; fst <$> replies 1000 [
    ["SET"; "a"; "1"]; ["INCR"; "a"]; ["APPEND"; "a"; "xyz"]; ["GET"; "a"]; ["SET"; "b"; "v"; "PX"; "500"];
    ["DBSIZE"]; ["GETDEL"; "a"]; ["GET"; "a"]; ["EXISTS"; "a"; "b"]; ["PERSIST"; "b"]; ["TTL"; "b"]; ["KEYS"; "*"];
    ["MULTI"]; ["SET"; "c"; "1"]; ["INCRBY"; "c"; "41"]; ["EXEC"]; ["SAVE"]; ["GET"; "c"]]%string (connect sh))
  = Some (map lines ["+OK|"; ":2|"; ":4|"; "$4|2xyz|"; "+OK|"; ":2|"; "$4|2xyz|"; "$-1|"; ":1|"; ":1|"; ":-1|"; "*1|$1|b|";
    "+OK|"; "+QUEUED|"; "+QUEUED|"; "*2|+OK|:42|"; "+OK|"; "$2|42|"]%string).
Proof. vm_compute. reflexivity. Qed.

(** A checkpoint, writes after it, and a restart: the checkpoint and the log
    together give back every write. *)
Example restart_session :
  (sh ← server true;
   '(_, sh) ← replies 1000 [["SET"; "a"; "1"]; ["SET"; "b"; "2"]; ["SAVE"]; ["INCR"; "a"]; ["DEL"; "b"]; ["SET"; "c"; "3"]]%string (connect sh);
   sh ← reboot 8 2000 sh;
   fst <$> replies 2000 [["MGET"; "a"; "b"; "c"]; ["DBSIZE"]]%string (connect sh))
  = Some (map lines ["*3|$1|2|$-1|$1|3|"; ":2|"]%string).
Proof. vm_compute. reflexivity. Qed.

(** FLUSHDB is not logged, so what it deleted is back after a restart. *)
Example flush_comes_back :
  (sh ← server true;
   '(before, sh) ← replies 1000 [["SET"; "a"; "1"]; ["FLUSHDB"]; ["GET"; "a"]]%string (connect sh);
   sh ← reboot 8 2000 sh;
   '(after, _) ← replies 2000 [["GET"; "a"]]%string (connect sh); Some (before, after))
  = Some (map lines ["+OK|"; "+OK|"; "$-1|"]%string, map lines ["$1|1|"]%string).
Proof. vm_compute. reflexivity. Qed.

(** SET with NX and GET overwrites an existing value. *)
Example set_nx_get_overwrites :
  (sh ← server false; fst <$> replies 1000 [["SET"; "a"; "1"]; ["SET"; "a"; "2"; "NX"; "GET"]; ["GET"; "a"]]%string (connect sh))
  = Some (map lines ["+OK|"; "$1|1|"; "$1|2|"]%string).
Proof. vm_compute. reflexivity. Qed.

(** A pipeline that arrives in three reads: the replies of the third read's
    batch include the command the second one left unfinished. *)
Example pipelined_connection :
  (sh ← server false;
   let stream := encode_command [bs "SET"; bs "k"; bs "hello"] ++ encode_command [bs "STRLEN"; bs "k"] ++ bs "QUIT" ++ crlf in
   '(sent, e) ← handle_connection (HDB := store_db 7) (fun _ => 1000) (conn_new (HDB := store_db 7) sh)
     [take 20 stream; take 30 (drop 20 stream); drop 50 stream];
   Some (sent, match e with Finished _ => true | _ => false end))
  = Some (lines "+OK|:5|+OK|", true).
Proof. vm_compute. reflexivity. Qed.
