(* ===== verification/Config.v ===== *)
(** * Settings and start-up ([crates/garnet/src/main.rs], [shared.rs], [lib.rs])

    The command line, the settings it leaves, and the server they start: a new
    store over the files of the directory, the log, and recovery. *)

From S2P Require Import Prelude Record Resp Hash Index Latch Epoch Log Session Functions Store Txn Scan Checkpoint.
From S2P Require Import Aof Shared Commands Replay Server StoreDb.

#[local] Opaque hash64.

(** ** Settings of the store *)

(** [mutable_fraction] is a binary64 in units of 2^-53; the product with the
    number of frames, a power of two, is exact. *)
Record LogSettings := MkLogSettings { s_page_bits : Z; s_memory_pages : Z; mutable_fraction : Z }.
Definition NINE_TENTHS : Z := 8106479329266893.
Definition log_settings_default : LogSettings := MkLogSettings 20 64 NINE_TENTHS.
Definition mutable_of (buffer_size fraction : Z) : Z := (buffer_size * fraction + (2 ^ 53 - 1)) / 2 ^ 53.
Definition log_of_settings (s : LogSettings) : option HybridLog :=
  log_new (s_page_bits s) (s_memory_pages s) (mutable_of (2 ^ Z.log2_up (Z.max (s_memory_pages s) 2)) (mutable_fraction s)).

Record StoreSettings := MkStoreSettings { index_buckets : Z; log_settings : LogSettings }.
Definition store_settings_default : StoreSettings := MkStoreSettings (2 ^ 16) log_settings_default.
Definition store_settings_small : StoreSettings := MkStoreSettings (2 ^ 12) (MkLogSettings 16 8 NINE_TENTHS).
(** [Store::new] on settings. *)
Definition store_of_settings (s : StoreSettings) : option Store :=
  let ls := log_settings s in
  store_new (index_buckets s) (s_page_bits ls) (s_memory_pages ls)
    (mutable_of (2 ^ Z.log2_up (Z.max (s_memory_pages ls) 2)) (mutable_fraction ls)).

(** ** The command line *)

Record Config := MkConfig {
  bind : bytes; dir : bytes; cfg_persist : bool; cfg_aof : bool; cfg_commit_wait : bool;
  commit_mode : CommitMode; cfg_store : StoreSettings; maxclients : Z }.

(** [tmp] is the directory for data under the system's temporary directory. *)
Definition config_default (tmp : bytes) : Config :=
  MkConfig (bs "127.0.0.1:6379") tmp false false false (Interval 100) store_settings_default DEFAULT_MAX_CLIENTS.

(** [usize::from_str]: an optional plus sign, then at least one digit, no
    overflow. *)
Fixpoint usize_digits (v : Z) (s : bytes) : option Z :=
  match s with
  | [] => Some v
  | c :: s => if is_ascii_digit c then let v := v * 10 + (c - 48) in if v <? two64 then usize_digits v s else None
              else None
  end.
Definition usize_from_str (s : bytes) : option Z :=
  match s with
  | [] => None
  | c :: s' => if c =? 43 then match s' with [] => None | _ => usize_digits 0 s' end else usize_digits 0 s
  end.

Definition set_bind (c : Config) (b : bytes) : Config :=
  MkConfig b (dir c) (cfg_persist c) (cfg_aof c) (cfg_commit_wait c) (commit_mode c) (cfg_store c) (maxclients c).
Definition set_dir (c : Config) (d : bytes) : Config :=
  MkConfig (bind c) d (cfg_persist c) (cfg_aof c) (cfg_commit_wait c) (commit_mode c) (cfg_store c) (maxclients c).
Definition set_maxclients (c : Config) (n : Z) : Config :=
  MkConfig (bind c) (dir c) (cfg_persist c) (cfg_aof c) (cfg_commit_wait c) (commit_mode c) (cfg_store c) n.
Definition set_persist (c : Config) : Config :=
  MkConfig (bind c) (dir c) true (cfg_aof c) (cfg_commit_wait c) (commit_mode c) (cfg_store c) (maxclients c).
Definition set_cfg_aof (c : Config) : Config :=
  MkConfig (bind c) (dir c) (cfg_persist c) true (cfg_commit_wait c) (commit_mode c) (cfg_store c) (maxclients c).
Definition set_commit_wait (c : Config) : Config :=
  MkConfig (bind c) (dir c) (cfg_persist c) true true Always (cfg_store c) (maxclients c).
Definition set_cfg_store (c : Config) (s : StoreSettings) : Config :=
  MkConfig (bind c) (dir c) (cfg_persist c) (cfg_aof c) (cfg_commit_wait c) (commit_mode c) s (maxclients c).

(** [parse_args], the program's name dropped; [None] is the exit after
    [--help]. *)
Fixpoint parse_args (cfg : Config) (args : list bytes) : option Config :=
  match args with
  | [] => Some cfg
  | a :: rest =>
      let flag s := bool_decide (a = bs s) in
      if flag "--bind" then match rest with v :: rest => parse_args (set_bind cfg v) rest | [] => Some cfg end else
      if flag "--port" then
        match rest with v :: rest => parse_args (set_bind cfg (bs "127.0.0.1:" ++ v)) rest | [] => Some cfg end else
      if flag "--dir" then match rest with v :: rest => parse_args (set_dir cfg v) rest | [] => Some cfg end else
      if flag "--maxclients" then
        match rest with
        | v :: rest => parse_args (match usize_from_str v with Some n => set_maxclients cfg n | None => cfg end) rest
        | [] => Some cfg
        end else
      if flag "--persist" then parse_args (set_persist cfg) rest else
      if flag "--aof" then parse_args (set_cfg_aof cfg) rest else
      if flag "--aof-commit-wait" then parse_args (set_commit_wait cfg) rest else
      if flag "--help" || flag "-h" then None else
      parse_args cfg rest
  end%string.

(** ** Start-up *)

(** What the directory holds: the device, the checkpoint's metadata, the log. *)
Record Files := MkFiles { f_device : gmap Z cell; f_meta : option bytes; f_log : bytes }.

(** [Shared::new]: without [persist] the device is a new [MemDevice]. *)
Definition shared_of (cfg : Config) (files : Files) : option (Shared StoreDir) :=
  st ← store_of_settings (cfg_store cfg);
  let st := if cfg_persist cfg then set_log st (set_device (st_log st) (f_device files)) else st in
  Some (shared_new (Dir st (f_meta files)) (cfg_persist cfg) (cfg_aof cfg) (cfg_commit_wait cfg) (commit_mode cfg) (f_log files)).

Inductive Start := Exit | Failed (e : bytes) | Serving (sh : Shared StoreDir) (max : Z).
(** [main]: everything before [serve]. *)
Definition main_ (tmp : bytes) (tid clock : Z) (args : list bytes) (files : Files) : option Start :=
  match parse_args (config_default tmp) args with
  | None => Some Exit
  | Some cfg =>
      sh ← shared_of cfg files;
      r ← recover_shared tid clock sh;
      Some (match r with inl e => Failed e | inr sh => Serving sh (maxclients cfg) end)
  end.

(** ** The settings that result *)

(** What every option keeps, the parsed settings have. *)
Lemma parse_args_ind (Q : Config -> Prop) :
  (forall c v, Q c -> Q (set_bind c v)) -> (forall c v, Q c -> Q (set_dir c v)) -> (forall c n, Q c -> Q (set_maxclients c n)) ->
  (forall c, Q c -> Q (set_persist c)) -> (forall c, Q c -> Q (set_cfg_aof c)) -> (forall c, Q c -> Q (set_commit_wait c)) ->
  forall args c c', parse_args c args = Some c' -> Q c -> Q c'.
Proof.
  intros H1 H2 H3 H4 H5 H6 args. remember (length args) as n eqn:En. revert args En.
  induction (lt_wf n) as [n _ IH]. intros args -> c c' E Hc. destruct args as [|a rest]; cbn [parse_args] in E; [by injection E as <-|].
  assert (Hrest : forall d, Q d -> parse_args d rest = Some c' -> Q c') by (intros d Hd Ed; eapply IH; [|reflexivity|exact Ed|exact Hd]; simpl; lia).
  assert (Hvalue : forall f, (forall v, Q (f v)) -> match rest with v :: r => parse_args (f v) r | [] => Some c end = Some c' -> Q c').
  { intros f Hf Ef. destruct rest as [|v r]; [by injection Ef as <-|]. eapply IH; [|reflexivity|exact Ef|apply Hf]. simpl; lia. }
  repeat case_bool_decide; try done;
    try exact (Hvalue _ (fun v => H1 c v Hc) E); try exact (Hvalue (fun v => set_bind c (bs "127.0.0.1:" ++ v)) (fun v => H1 c _ Hc) E);
    try exact (Hvalue _ (fun v => H2 c v Hc) E); try (eapply Hrest; [|exact E]; by auto).
  eapply (Hvalue (fun v => match usize_from_str v with Some n => set_maxclients c n | None => c end)); [|exact E].
  intros v. destruct (usize_from_str v); [by apply H3|done].
Qed.

(** A server that acknowledges after the commit has a log that commits every
    write; the store's settings are not on the command line. *)
Lemma parse_args_ok tmp args cfg : parse_args (config_default tmp) args = Some cfg ->
  (cfg_commit_wait cfg = true -> cfg_aof cfg = true /\ commit_mode cfg = Always) /\
  cfg_store cfg = store_settings_default.
Proof.
  intros E. refine (parse_args_ind (fun c => (cfg_commit_wait c = true -> cfg_aof c = true /\ commit_mode c = Always) /\
    cfg_store c = store_settings_default) _ _ _ _ _ _ args _ cfg E _); try done; intros c [Hw Hs]; split; try done.
  intros Hc. by destruct (Hw Hc).
Qed.

(** Later options win; a value flag at the end is ignored, like what is unknown. *)
Example command_line : parse_args (config_default (bs "/tmp/d"))
    (map bs ["--port"; "6399"; "--nonsense"; "--maxclients"; "many"; "--maxclients"; "+12"; "--persist"; "--bind"]%string)
  = Some (MkConfig (bs "127.0.0.1:6399") (bs "/tmp/d") true false false (Interval 100) store_settings_default 12).
Proof. vm_compute. reflexivity. Qed.

(** The default store: 64 frames, 58 of them mutable; 65536 buckets. *)
Lemma store_default_new : exists l, log_of_settings log_settings_default = Some l /\
  buffer_size l = 64 /\ mutable_pages l = 58 /\ page_size l = 2 ^ 20.
Proof. by eexists. Qed.

(** Without [--persist] start-up ignores the log, whatever [--aof] says: the
    commands a server with [--aof] logged are not executed by the next one. *)
Lemma log_alone_not_replayed tmp tid clock args files cfg st : parse_args (config_default tmp) args = Some cfg ->
  cfg_persist cfg = false -> store_of_settings (cfg_store cfg) = Some st ->
  exists sh, main_ tmp tid clock args files = Some (Serving sh (maxclients cfg)) /\ sd_store (sh_store sh) = st.
Proof.
  intros Ea Hp Es. unfold main_, shared_of. rewrite Ea, Es, Hp. cbn [mbind option_bind]. by eexists.
Qed.

(** One command to a server, then what a restart over the same files answers. *)
Definition tiny : StoreSettings := MkStoreSettings 1 (MkLogSettings 9 4 (2 ^ 52)).
Definition restarted (args : list string) : option (list bytes) :=
  cfg ← parse_args (config_default (bs "/tmp/d")) (map bs args);
  let cfg := set_cfg_store cfg tiny in
  sh ← shared_of cfg (MkFiles ∅ None []);
  '(_, sh) ← replies 1000 [["SET"; "a"; "1"]]%string (connect sh);
  let d := sh_store sh in
  sh' ← shared_of cfg (MkFiles (device (st_log (sd_store d))) (sd_meta d) (match sh_aof sh with Some a => file a | None => [] end));
  r ← recover_shared 8 2000 sh';
  match r with inr sh => fst <$> replies 2000 [["GET"; "a"]]%string (connect sh) | inl _ => None end.
Example log_needs_persist :
  restarted ["--aof-commit-wait"]%string = Some [lines "$-1|"%string] /\
  restarted ["--aof-commit-wait"; "--persist"]%string = Some [lines "$1|1|"%string].
Proof. split; vm_compute; reflexivity. Qed.
