(* ===== verification/Keyspace.v ===== *)
(** * What an operation does to a key, value by value

    Values and expirations instead of records: what a read, a blind write, a
    read-modify-write and a delete of the string data type do to the binding of
    their key, whatever attempts of the store it took, and the class that
    promises it of a database. *)

From S2P Require Import Prelude Record Resp RespSpec Session Functions FunctionsSpec Store StoreInv StoreSpec StoreAttempt StoreRefine Shared.

(** A value and its expiration, 0 if it has none. *)
Abbreviation entry := (bytes * Z)%type.
Definition entry_of (c : cell) : entry := (c_value c, c_expiration c).

Definition stale (now : Z) (e : entry) : bool := negb (snd e =? 0) && (snd e <=? now).
(** The binding as a client sees it at time [now]. *)
Definition seen (now : Z) (v : option entry) : option entry := e ← v; if stale now e then None else Some e.

Lemma expired_stale c now : expired c now = stale now (entry_of c).
Proof.
  unfold expired, stale. cbn [entry_of snd]. destruct (c_has_slot c) eqn:Es; [done|].
  by rewrite no_slot_expiration.
Qed.

Section Ops.
Context (i : StringInput).
Implicit Types (v : option entry) (e : entry) (o : StringOutput) (s : Status).
Let now := now_ms i.

(** ** Reads *)

Definition read_reply e o : StringOutput :=
  match op i with
  | GetRange a b => let '(x, y) := range_bounds a b (length (fst e)) in set_bytes o (slice x y (fst e))
  | Exists => o
  | Strlen => set_int o (Z.of_nat (length (fst e)))
  | Ttl ms => set_int o (if snd e =? 0 then -1 else
                let rem := Z.max (wrap_i64 (snd e - now)) 0 in
                if ms : bool then rem else Z.quot (wrap_i64 (rem + 999)) 1000)
  | _ => set_bytes o (fst e)
  end.
Definition read_result v o : Status * StringOutput :=
  match seen now v with Some e => (Found, read_reply e o) | None => (NotFound, o) end.

(** ** Read-modify-write *)

(** The operations that act on a live key only. *)
Definition needs_key : bool := match op i with SetXx | GetDel | GetEx | Expire | Persist => true | _ => false end.
(** The expirations a live key may end with: where its record lies decides
    which path is taken, and the paths disagree (see [ttl_path_independent]). *)
Definition ttl_after (old : Z) : list Z :=
  [spec_ttl i old;
   match op i with
   | Set_ | Expire | GetEx => in_expiration i
   | Persist => 0
   | _ => if negb (in_expiration i =? 0) then in_expiration i else old
   end].
(** No binding a client can see, before and after. *)
Definition still_absent v v' : Prop := seen now v = None /\ (v' = v \/ v' = None).

Definition initial_reply o : StringOutput :=
  match op i with
  | IncrBy => set_int o (delta i)
  | SetRange offset => set_int o (Z.of_nat (offset + length (operand i)))
  | Append => set_int o (Z.of_nat (length (operand i)))
  | _ => o
  end.

Inductive rmw_outcome : option entry -> Status -> option entry -> StringOutput -> Prop :=
| ro_updated v e x ttl s o : seen now v = Some e -> spec_value i (fst e) = Some x -> ttl ∈ ttl_after (snd e) ->
    s = InPlaceUpdated \/ s = CopyUpdated ->
    rmw_outcome v s (Some (x, ttl)) (spec_reply i (fst e) o)
| ro_kept v e s o : seen now v = Some e ->
    op i = SetNx \/ op i = Persist /\ snd e = 0 \/ op i = IncrBy /\ incr_result i (fst e) = None ->
    s = Found \/ s = Canceled -> rmw_outcome v s v o
| ro_deleted v e o : seen now v = Some e -> op i = GetDel -> rmw_outcome v Deleted None (set_bytes o (fst e))
| ro_absent v v' s o : still_absent v v' -> needs_key = true -> s = NotFound \/ s = Canceled -> rmw_outcome v s v' o
| ro_created v s o : seen now v = None -> needs_key = false -> s = Created \/ is_Some v /\ s = CopyUpdated ->
    (is_set_get (op i) = true -> has_bytes o = false /\ s = Created) ->
    rmw_outcome v s (Some (initial_value i, in_expiration i)) (initial_reply o)
(** An expired record out of place: GETEX brings it back, empty; SET with GET
    does nothing. *)
| ro_revived v o : is_Some v -> seen now v = None -> op i = GetEx ->
    rmw_outcome v CopyUpdated (Some ([], in_expiration i)) (set_bytes o [])
| ro_ignored v o : is_Some v -> seen now v = None -> is_set_get (op i) = true -> rmw_outcome v Canceled v o.
End Ops.

(** ** What the store's effects do to values *)

Section Outcomes.
Context (nv : bool) (k : bytes) (i : StringInput) (Hi : input_ok i).
Let now := now_ms i.

Lemma entry_of_modified c : entry_of (modified c) = entry_of c.
Proof. done. Qed.
Lemma replaced_entry c v e c' : replaced c v e c' -> entry_of c' = (v, e).
Proof. intros (<- & _ & <- & _). done. Qed.
Lemma seen_live c : expired c now = false -> seen now (Some (entry_of c)) = Some (entry_of c).
Proof. intros Hx. rewrite expired_stale in Hx. cbn. by rewrite Hx. Qed.
Lemma seen_expired c : expired c now = true -> seen now (Some (entry_of c)) = None.
Proof. intros Hx. rewrite expired_stale in Hx. cbn. by rewrite Hx. Qed.

Lemma reader_result c out b out' : cell_ok c -> str_reader k i c out = Some (b, out') ->
  read_result i (Some (entry_of c)) out = (if b then Found else NotFound, out').
Proof.
  intros Hc. unfold str_reader, read_result. fold now. destruct (expired c now) eqn:Hx.
  { intros [= <- <-]. by rewrite seen_expired. }
  rewrite seen_live by done. unfold read_reply. fold now. cbn [entry_of fst snd]. pose proof (length_c_value c (ok_vlen _ Hc)) as Hl.
  rewrite !Hl. intros H. destruct (op i) eqn:Ho; try (by injection H as <- <-).
  - destruct (range_bounds _ _ _) as [a z]. destruct (_ && _); [|done]. by injection H as <- <-.
  - injection H as <- <-. destruct (c_has_slot c) eqn:Es; cbn [negb orb]; [done|].
    by rewrite (no_slot_expiration c Es).
Qed.

(** *** A blind write *)

Lemma initial_writer_entry prev c out out1 : size_ok (str_upsert_size k i) ->
  str_initial_writer k i (c_init prev nv (str_upsert_size k i) k) out = Some (c, out1) ->
  entry_of c = (operand i, in_expiration i) /\ out1 = out.
Proof.
  intros Hs. destruct (c_init_sized prev nv (str_upsert_size k i) k eq_refl Hs) as (_ & Hcap & Hslot & Hok).
  unfold str_initial_writer. destruct (write_val_spec _ (operand i) Hok ltac:(rewrite Hcap; simpl; lia)) as (c' & -> & Hw).
  cbn [mbind option_bind]. intros [= <- <-]. split; [|done]. simpl in Hslot.
  destruct (negb (in_expiration i =? 0)) eqn:En.
  - rewrite (replaced_entry _ _ _ _ (written_put _ _ _ (in_expiration i) Hw ltac:(apply Hi))). by rewrite Hslot.
  - rewrite (replaced_entry _ _ _ _ (written_replaced _ _ _ _ Hw eq_refl)). rewrite no_slot_expiration by done.
    f_equal. apply negb_false_iff, Z.eqb_eq in En. done.
Qed.

Lemma in_place_writer_entry c b c' out out' : cell_ok c -> str_in_place_writer k i c out = Some (b, c', out') ->
  out' = out /\ if b then entry_of c' = (operand i, in_expiration i) else c' = c.
Proof.
  intros Hok. unfold str_in_place_writer. destruct (Nat.ltb_spec (c_cap c) (length (operand i))); [by intros [= <- <- <-]|].
  destruct (c_has_slot c) eqn:Es.
  - destruct (put_write c (in_expiration i) (operand i) Hok ltac:(apply Hi) ltac:(lia)) as (c1 & -> & Hr).
    cbn [mbind option_bind]. intros [= <- <- <-]. split; [done|]. rewrite Es in Hr. by eapply replaced_entry.
  - destruct (Z.eqb_spec (in_expiration i) 0) as [E0|]; cbn [negb]; [|by intros [= <- <- <-]].
    destruct (write_val_spec c (operand i) Hok ltac:(lia)) as (c1 & -> & Hw).
    cbn [mbind option_bind]. intros [= <- <- <-]. split; [done|].
    rewrite (replaced_entry _ _ _ _ (written_replaced _ _ _ _ Hw eq_refl)), no_slot_expiration by done. by rewrite E0.
Qed.

Lemma upsert_tries v out s v' out' : size_ok (str_upsert_size k i) -> (forall c, v = Some c -> cell_ok c) ->
  tries (upsert_effect (F := StringFunctions) nv k i) v out s v' out' ->
  entry_of <$> v' = Some (operand i, in_expiration i) /\ (s = Created \/ s = InPlaceUpdated) /\ out' = out.
Proof.
  intros Hs Hok HT. induction HT as [v out s v' out' H|v out v1 out1 s v' out' H _ IH].
  - assert (Hw : forall o o', write_effect (F := StringFunctions) nv k i o (Some s) v' o' ->
      entry_of <$> v' = Some (operand i, in_expiration i) /\ s = Created /\ o' = o).
    { intros o o' Hw. inversion Hw as [prev c c' ? o1 ? E1 E2]; subst.
      destruct (initial_writer_entry prev c o o1 Hs E1) as [Ee ->]. injection E2 as <- <-. cbn [fmap option_fmap option_map].
      change (entry_of (published c)) with (entry_of c). by rewrite Ee. }
    inversion H as [c c' o o' E|c c' o o1 ? ? ? E Hw'|c c' o o' E|? ? ? ? ? Hw'|]; subst.
    + destruct (in_place_writer_entry _ _ _ _ _ (Hok c eq_refl) E) as [-> Ee].
      cbn [fmap option_fmap option_map]. rewrite entry_of_modified, Ee. split; [done|]. split; [by right|done].
    + destruct (in_place_writer_entry _ _ _ _ _ (Hok c eq_refl) E) as [-> _].
      destruct (Hw _ _ Hw') as (? & -> & ->). split; [done|]. by split; [left|].
    + destruct (Hw _ _ Hw') as (? & -> & ->). split; [done|]. by split; [left|].
  - assert (v1 = v /\ out1 = out) as [-> ->]; [|by apply IH].
    inversion H as [|c c' o o1 ? ? ? E Hw|c c' o o' E|? ? ? ? ? Hw|]; subst; try done.
    + by inversion Hw.
    + destruct (in_place_writer_entry _ _ _ _ _ (Hok c eq_refl) E) as [-> ->]. done.
    + by inversion Hw.
Qed.

(** *** A read-modify-write *)

Lemma initial_write_reply c c' o o' : str_initial_write i c o = Some (c', o') ->
  o' = match op i with SetGet _ => set_has_bytes o false | _ => initial_reply i o end.
Proof.
  unfold str_initial_write, initial_reply. destruct (op i); cbv zeta; intros H;
    repeat (match type of H with (?m ≫= _) = _ => destruct m; cbn [mbind option_bind] in H; [|done] end); by injection H as <- <-.
Qed.

Lemma initial_entry prev c o o' : size_ok (str_initial_size k i) ->
  str_initial_updater k i (c_init prev nv (str_initial_size k i) k) o = Some (c, o') ->
  entry_of c = (initial_value i, in_expiration i) /\
  o' = match op i with SetGet _ => set_has_bytes o false | _ => initial_reply i o end.
Proof.
  intros Hs E. pose proof (c_init_sized prev nv (str_initial_size k i) k eq_refl Hs) as Hsz.
  destruct (initial_updater_spec k i _ o Hi Hsz) as (c1 & o1 & E1 & _ & Hr). rewrite E in E1. injection E1 as <- <-. split.
  - rewrite (replaced_entry _ _ _ _ Hr). destruct Hsz as (_ & _ & -> & _). simpl.
    by destruct (Z.eqb_spec (in_expiration i) 0) as [->|].
  - unfold str_initial_updater in E. destruct (str_initial_write _ _ _) as [[c2 o2]|] eqn:Ew; [|done].
    cbn [mbind option_bind] in E. injection E as _ <-. by eapply initial_write_reply.
Qed.

(** No live binding: the key is absent, or the attempt found it expired in
    place. *)
Lemma initial_outcome v out s v' out' : size_ok (str_initial_size k i) -> seen now v = None ->
  initial_effect (F := StringFunctions) nv k i out (Some s) v' out' ->
  rmw_outcome i v s (entry_of <$> v') out'.
Proof.
  intros Hs Hv H. inversion H as [o o' En|o o' En|prev c c' o o1 o2 o' En Eu Ep]; subst.
  - apply ro_absent; [by split; [|right]| |by left]. unfold needs_key. cbn in En. unfold str_need_initial_update in En.
    by destruct (op i).
  - injection Ep as <- <-. destruct (initial_entry _ _ _ _ Hs Eu) as [Ee Eo].
    assert (En' : needs_key i = false /\ o1 = out).
    { unfold needs_key. cbn in En. unfold str_need_initial_update in En. destruct (op i); by injection En as <-. }
    destruct En' as [En' ->]. cbn [fmap option_fmap option_map]. change (entry_of (published c)) with (entry_of c). rewrite Ee.
    assert (Hcr : o2 = initial_reply i o2 \/ is_set_get (op i) = false) by (unfold initial_reply; destruct (op i); auto).
    destruct (is_set_get (op i)) eqn:Eg.
    + assert (E2 : o2 = initial_reply i o2) by (by destruct Hcr). rewrite E2.
      apply ro_created; [done|done|by left|]. intros _. split; [|done]. rewrite Eo. by destruct (op i).
    + assert (E2 : o2 = initial_reply i out) by (rewrite Eo; by destruct (op i)). rewrite E2.
      apply ro_created; [done|done|by left|]. by rewrite Eg.
Qed.

Lemma copy_ttl_after c : expired c now = false -> copy_ttl i c ∈ ttl_after i (c_expiration c).
Proof. intros Hx. unfold copy_ttl, ttl_after. fold now. rewrite Hx. right. left. Qed.

Lemma copy_live c out d out1 : expired c now = false -> str_need_copy_update k i c out = (d, out1) ->
  match d with
  | CancelCopy => op i = SetNx \/ op i = IncrBy /\ incr_result i (c_value c) = None
  | DeleteCopy => op i = GetDel /\ out1 = set_bytes out (c_value c)
  | Copy => True
  end.
Proof.
  unfold str_need_copy_update. fold now. intros ->. fold (incr_result i (c_value c)).
  destruct (op i); try (by intros [= <- <-]; auto).
  destruct (incr_result _ _); intros [= <- <-]; auto.
Qed.

Lemma copy_expired c out d out1 : expired c now = true -> is_write (op i) = true ->
  str_need_copy_update k i c out = (d, out1) -> out1 = out /\
  match d with
  | CancelCopy => needs_key i = true /\ op i <> GetEx \/ is_set_get (op i) = true
  | DeleteCopy => False
  | Copy => needs_key i = false /\ is_set_get (op i) = false \/ op i = GetEx
  end.
Proof.
  unfold str_need_copy_update, needs_key. fold now. intros -> Hw. destruct (op i); intros [= <- <-]; try done; split; auto.
Qed.

(** What the copy of an expired record starts from. *)
Lemma copy_expired_value c v out : expired c now = true -> needs_key i = false -> is_set_get (op i) = false ->
  copy_value i c = Some v -> v = initial_value i /\ copy_ttl i c = in_expiration i /\
  match op i with
  | IncrBy => set_int out (wrap_i64 (incr_source c i + delta i))
  | Expire => out
  | _ => spec_reply i (old_val c i) out
  end = initial_reply i out.
Proof.
  intros Hx Hn Hg. unfold copy_value, copy_ttl, initial_value, initial_reply, spec_reply, old_val, incr_source. fold now. rewrite Hx.
  assert (Hd : wrap_i64 (0 + delta i) = delta i) by (apply wrap_i64_id, Hi). unfold needs_key in Hn.
  destruct (op i) as [| | | | | | | |[]| | | | | | | |]; try done; rewrite ?Hd; intros Hv;
    (split; [first [by injection Hv as <- | by rewrite Hv]|]); (split; [by destruct (Z.eqb_spec (in_expiration i) 0) as [->|]|]); try done.
  cbn [length]. by rewrite Nat.max_0_r.
Qed.

Hypothesis Hwr : is_write (op i) = true.

Lemma copy_outcome c out s v' out' : cell_ok c -> size_ok (str_copy_size k i c) ->
  copy_effect (F := StringFunctions) nv k i c out (Some s) v' out' ->
  rmw_outcome i (Some (entry_of c)) s (entry_of <$> v') out'.
Proof.
  intros Hc Hsz H. destruct (expired c now) eqn:Hx.
  - pose proof (seen_expired c Hx) as Hv.
    inversion H as [c0 o o' En|c0 o o1 En|c0 d o o' En Hd|prev c0 c1 c' o o1 o2 o' En Eu Ep]; subst;
      destruct (copy_expired c _ _ _ Hx Hwr En) as [-> Hd]; [| |].
    + destruct Hd as [[Hn _]|Hg]; [|by apply ro_ignored].
      apply ro_absent; [by split; [|left]|done|by right].
    + done.
    + injection Ep as <- <-. pose proof (c_init_sized prev nv (str_copy_size k i c) k eq_refl Hsz) as Hsized.
      destruct (copy_updater_spec k i c _ out out Hc Hi En Hsized) as (v & new & o3 & E & Hcv & Hr & _ & _ & Ho).
      change (str_copy_updater k i c (c_init prev nv (str_copy_size k i c) k) out = Some (c1, o2)) in Eu.
      rewrite E in Eu. injection Eu as <- <-. cbn [fmap option_fmap option_map]. change (entry_of (published new)) with (entry_of new).
      rewrite (replaced_entry _ _ _ _ Hr). destruct Hd as [[Hn Hg]|Ho2].
      * destruct (copy_expired_value c v out Hx Hn Hg Hcv) as (-> & -> & Er). rewrite Ho, Er.
        apply ro_created; [done|done|by right; split; [eexists|]|by rewrite Hg].
      * unfold copy_value, copy_ttl, spec_reply, old_val in *. rewrite Ho2 in *. unfold now in Hx. rewrite Hx in *.
        injection Hcv as <-. rewrite Ho. by apply ro_revived; [eexists|..].
  - pose proof (seen_live c Hx) as Hv.
    inversion H as [c0 o o' En|c0 o o1 En|c0 d o o' En Hd|prev c0 c1 c' o o1 o2 o' En Eu Ep]; subst.
    + cbn [fmap option_fmap option_map]. eapply ro_kept; [exact Hv| |by right].
      destruct (copy_live c _ _ _ Hx En) as [?|?]; auto.
    + destruct (copy_live c _ _ _ Hx En) as [Ho ->]. by eapply (ro_deleted i _ (entry_of c)).
    + injection Ep as <- <-. pose proof (c_init_sized prev nv (str_copy_size k i c) k eq_refl Hsz) as Hsized.
      destruct (copy_updater_spec k i c _ out o1 Hc Hi En Hsized) as (v & new & o3 & E & _ & Hr & _ & Hsp & _).
      change (str_copy_updater k i c (c_init prev nv (str_copy_size k i c) k) o1 = Some (c1, o2)) in Eu.
      rewrite E in Eu. injection Eu as <- <-. cbn [fmap option_fmap option_map]. change (entry_of (published new)) with (entry_of new).
      rewrite (replaced_entry _ _ _ _ Hr). destruct (Hsp Hx Hwr) as [Hval ->].
      eapply (ro_updated i _ (entry_of c)); [exact Hv|exact Hval|by apply copy_ttl_after|by right].
Qed.

Lemma in_place_not_expired c out r c' out' : str_in_place_updater k i c out = Some (r, c', out') ->
  if decide (r = Expired) then expired c now = true /\ c' = c /\ out' = out else expired c now = false.
Proof.
  unfold str_in_place_updater. fold now. destruct (expired c now); [by intros [= <- <- <-]|].
  intros H. case_decide as E; [|done]. subst r. exfalso. revert H.
  destruct (op i); cbv zeta; repeat (case_match || (unfold mbind, option_bind)); naive_solver.
Qed.

Lemma rmw_attempt v out s v' out' : (forall c, v = Some c -> cell_ok c) -> size_ok (str_initial_size k i) ->
  (forall c, v = Some c -> size_ok (str_copy_size k i c)) ->
  rmw_effect (F := StringFunctions) nv k i v out (Some s) v' out' ->
  rmw_outcome i (entry_of <$> v) s (entry_of <$> v') out'.
Proof.
  intros Hok Hs0 Hsc H.
  inversion H as [c c' o o' E|c c' o o' E|c c' o o' E|c c' o o1 ? ? ? E Hin|c c' o o1 ? ? ? E Hc|c o ? ? ? Hc|o ? ? ? Hin|]; subst;
    cbn [fmap option_fmap option_map].
  all: try (destruct (in_place_updater_spec k i c out (Hok c eq_refl) Hi) as (r & c1 & o2 & E1 & Ho);
            pose proof (in_place_not_expired _ _ _ _ _ E) as Hx; change (str_in_place_updater k i c out) with (in_place_updater k i c out) in E1;
            rewrite E in E1; injection E1 as <- <- <-; cbn in Hx).
  - pose proof (seen_live c Hx) as Hv. destruct Ho as (x & Hx1 & Hr & ->). rewrite entry_of_modified, (replaced_entry _ _ _ _ Hr).
    eapply (ro_updated i _ (entry_of c)); [exact Hv|exact Hx1|by left|by left].
  - destruct Ho as [-> Ho]. eapply ro_kept; [by apply seen_live| |by left]. exact Ho.
  - destruct Ho as (-> & Ho & ->). by eapply (ro_deleted i _ (entry_of c)); [apply seen_live|].
  - destruct Hx as (Hx & -> & ->). eapply initial_outcome; [done|by apply seen_expired|done].
  - cbn in Ho. subst c'. by apply (copy_outcome c o1); [apply Hok|apply Hsc|].
  - by apply (copy_outcome c out); [apply Hok|apply Hsc|].
  - by eapply initial_outcome.
Qed.

Lemma rmw_refused v out v1 out1 : (forall c, v = Some c -> cell_ok c) ->
  rmw_effect (F := StringFunctions) nv k i v out None v1 out1 ->
  v1 = v \/ v1 = None /\ seen now (entry_of <$> v) = None.
Proof.
  intros Hok H. inversion H as [| | |c c' o o1 ? ? ? E Hin|c c' o o1 ? ? ? E Hc|c o ? ? ? Hc|o ? ? ? Hin|]; subst; auto.
  - right. split; [by inversion Hin|]. pose proof (in_place_not_expired _ _ _ _ _ E) as Hx. cbn in Hx. by apply seen_expired, Hx.
  - left. destruct (in_place_updater_spec k i c out (Hok c eq_refl) Hi) as (r & c1 & o2 & E1 & Ho).
    change (str_in_place_updater k i c out) with (in_place_updater k i c out) in E1. rewrite E in E1. injection E1 as <- <- <-.
    cbn in Ho. subst c'. by inversion Hc.
  - left. by inversion Hc.
  - left. by inversion Hin.
Qed.

Lemma outcome_from_stale v s v' o : seen now v = None -> rmw_outcome i None s v' o -> rmw_outcome i v s v' o.
Proof.
  intros Hv H. inversion H as [? ? ? ? ? ? Hl|? ? ? ? Hl|? ? ? Hl|? ? ? ? [_ Ha] Hn Hs|? ? ? _ Hn Hs Hg|? ? [? ?]|? ? [? ?]]; subst; try done.
  - apply ro_absent; [|done|done]. split; [done|]. right. by destruct Ha as [->| ->].
  - apply ro_created; try done. destruct Hs as [->|[[? ?] _]]; [by left|done].
Qed.

Lemma rmw_tries v out s v' out' : (forall c, v = Some c -> cell_ok c) -> size_ok (str_initial_size k i) ->
  (forall c, v = Some c -> size_ok (str_copy_size k i c)) ->
  tries (rmw_effect (F := StringFunctions) nv k i) v out s v' out' ->
  rmw_outcome i (entry_of <$> v) s (entry_of <$> v') out'.
Proof.
  intros Hok Hs0 Hsc HT. induction HT as [v out s v' out' H|v out v1 out1 s v' out' H _ IH]; [by eapply rmw_attempt|].
  destruct (rmw_refused _ _ _ _ Hok H) as [->|[-> Hv]]; [by apply IH|].
  apply outcome_from_stale; [done|]. by apply IH.
Qed.
End Outcomes.

(** ** The promise of a database

    [holds n d p K]: [d], for the connection's [p], holds the bindings [K] (the
    expired ones included) and has room for [n] more writes.  [room_for k n]: a
    record of key [k] with a value of [n] bytes can be stored. *)

(** Room for a value is enough for what [i] may make of the old one. *)
Definition need (i : StringInput) (v : option entry) : nat :=
  (length (operand i) + match op i with SetRange offset => offset | _ => 0 end +
   match v with Some e => length (fst e) | None => 0 end + 21)%nat.

Definition bind_entry (k : bytes) (v : option entry) (K : gmap bytes entry) : gmap bytes entry :=
  partial_alter (fun _ => v) k K.

Class Keyspace {D P : Type} (H : Database D P) (holds : nat -> D -> P -> gmap bytes entry -> Prop)
    (room_for : bytes -> nat -> Prop) : Prop := {
  ks_weaken : forall n d p K, holds (S n) d p K -> holds n d p K;
  ks_room : forall k m n, (m <= n)%nat -> room_for k n -> room_for k m;
  ks_read : forall n d p K k i o, holds n d p K -> input_ok i ->
    exists d' p', db_read d p k i o =
      Some (fst (read_result i (K !! k) o), snd (read_result i (K !! k) o), d', p') /\ holds n d' p' K;
  ks_upsert : forall n d p K k i o, holds (S n) d p K -> input_ok i -> room_for k (length (operand i)) ->
    exists s d' p', db_upsert d p k i o = Some (s, o, d', p') /\ (s = Created \/ s = InPlaceUpdated) /\
      holds n d' p' (bind_entry k (Some (operand i, in_expiration i)) K);
  ks_rmw : forall n d p K k i o, holds (S n) d p K -> input_ok i -> is_write (op i) = true ->
    room_for k (need i (K !! k)) ->
    exists s o' d' p' v, db_rmw d p k i o = Some (s, o', d', p') /\ rmw_outcome i (K !! k) s v o' /\
      holds n d' p' (bind_entry k v K);
  ks_delete : forall n d p K k, holds (S n) d p K -> room_for k 0%nat ->
    exists d' p', db_delete d p k = Some (if K !! k is Some _ then Deleted else NotFound, d', p') /\ holds n d' p' (delete k K) }.

(** Around a transaction: [holds] outside, [locked] inside. *)
Class Transactions {D P : Type} (H : Database D P) (holds locked : nat -> D -> P -> gmap bytes entry -> Prop) : Prop := {
  kt_lock : forall n d p K keys, holds n d p K -> exists d' p', db_lock d p keys = Some (d', p') /\ locked n d' p' K;
  kt_unlock : forall n d p K, locked n d p K -> exists d' p', db_unlock d p = Some (d', p') /\ holds n d' p' K }.
