(* ===== verification/StoreKeyspace.v ===== *)
(** * The store keeps the promise

    The store, as the database of the commands, holds values and expirations as
    [Keyspace] says, with a budget of pages and overflow buckets that bounds
    the writes it is sure to have room for. *)

From S2P Require Import Prelude Record Resp RespSpec Session Functions FunctionsSpec Hash Index IndexSpec Latch Epoch Log.
From S2P Require Import LogSpec LogLive LogTiling Store StoreInv StoreSpec StoreAttempt StoreRefine StoreOps Txn TxnStore Scan Checkpoint.
From S2P Require Import Aof Shared Keyspace Commands StoreDb.

#[local] Opaque hash64.

(** ** Sizes *)

(** A record of key [k] and a value of at most [n] bytes, with an expiration,
    fits a page of [2 ^ bits] bytes. *)
Definition page_holds (bits : Z) (k : bytes) (n : nat) : Prop :=
  size_ok (SizeInfo (length k) n true) /\ total_size_of (SizeInfo (length k) n true) + PAGE_HEADER_SIZE <= 2 ^ bits.

Lemma page_holds_sizes bits k n size : page_holds bits k n -> key_len_of size = length k ->
  (value_cap_of size <= n)%nat -> size_ok size /\ total_size_of size + PAGE_HEADER_SIZE <= 2 ^ bits.
Proof.
  intros [[H1 H2] H3] Hk Hv. cbn [key_len_of value_cap_of] in *. split; [split; lia|].
  enough (total_size_of size <= total_size_of (SizeInfo (length k) n true)) by lia.
  unfold total_size_of. cbn [key_len_of value_cap_of has_expiration_of]. rewrite Hk.
  assert (HF : FIXED_HEADER_SIZE = 24%nat) by done. assert (HE : EXPIRATION_SIZE = 8%nat) by done. rewrite HF, HE.
  rewrite !align8_eq by (destruct (has_expiration_of size); lia).
  apply Z.mul_le_mono_nonneg_l; [lia|]. apply Z.div_le_mono; [lia|]. destruct (has_expiration_of size); lia.
Qed.
Lemma page_holds_fits l k n size : page_holds (page_bits l) k n -> key_len_of size = length k ->
  (value_cap_of size <= n)%nat -> fits l size.
Proof. intros Hp Hk Hv. by destruct (page_holds_sizes _ _ _ _ Hp Hk Hv). Qed.
Lemma page_holds_le bits k m n : (m <= n)%nat -> page_holds bits k n -> page_holds bits k m.
Proof. intros Hmn Hp. by apply (page_holds_sizes _ _ _ (SizeInfo (length k) m true) Hp). Qed.

Lemma digit_len_bound v : (i64_digit_len v <= 21)%nat.
Proof.
  assert (Hb : forall f n u, (digit_len_loop f n u <= n + f)%nat).
  { induction f as [|f IH]; intros n u; simpl; [lia|]. destruct (0 <? u); [|lia]. specialize (IH (n + 1)%nat (u / 10)). lia. }
  unfold i64_digit_len. cbv zeta. destruct (Z.abs v =? 0); [lia|].
  specialize (Hb 20%nat (if v <? 0 then 1%nat else 0%nat) (Z.abs v)). destruct (v <? 0); lia.
Qed.

Lemma initial_size_need k i v : (value_cap_of (str_initial_size k i) <= need i v)%nat.
Proof. unfold need. simpl. pose proof (digit_len_bound (delta i)). destruct (op i); lia. Qed.
Lemma copy_size_need k i c : cell_ok c -> (value_cap_of (str_copy_size k i c) <= need i (Some (entry_of c)))%nat.
Proof.
  intros Hc. unfold need, str_copy_size, old_val. cbn [value_cap_of entry_of fst].
  pose proof (digit_len_bound (wrap_i64 (incr_source c i + delta i))).
  destruct (op i), (expired c (now_ms i)); simpl; lia.
Qed.

(** ** What the store holds *)

(** Room for [n] more writes: each takes at most a page and an overflow bucket. *)
Definition budget (n : nat) (st : Store) : Prop :=
  tail_page (st_log st) + Z.of_nat n + 1 < 2 ^ 31 /\
  (tail_page (st_log st) + Z.of_nat n + 2) * page_size (st_log st) <= 2 ^ 48 /\
  overflow_next (st_index st) + Z.of_nat n <= Z.of_nat (length (overflow (st_index st))) + 1.

Lemma budget_room n st : 0 <= page_bits (st_log st) -> budget n st -> room (st_log st).
Proof.
  intros Hb (H1 & H2 & _). split; [lia|]. etransitivity; [|exact H2].
  apply Z.mul_le_mono_nonneg_r; [|lia]. unfold page_size. apply Z.pow_nonneg. lia.
Qed.
Lemma budget_indexable n st k : budget (S n) st -> indexable (st_index st) k.
Proof. intros (_ & _ & H). right. lia. Qed.
Lemma budget_spent n k st st' : page_bits (st_log st') = page_bits (st_log st) -> 0 <= page_bits (st_log st) ->
  budget (S n) st -> spent k st st' -> budget n st'.
Proof.
  intros Eb Hb (H1 & H2 & H3) [Ht Ha]. pose proof (ar_length _ _ _ Ha) as El. pose proof (arena_le _ _ _ Ha).
  unfold budget, page_size in *. rewrite Eb, El. split; [lia|]. split; [|lia]. etransitivity; [|exact H2].
  apply Z.mul_le_mono_nonneg_r; [|lia]. apply Z.pow_nonneg. lia.
Qed.
Lemma budget_weaken n st : 0 <= page_bits (st_log st) -> budget (S n) st -> budget n st.
Proof.
  intros Hb (H1 & H2 & H3). split; [lia|]. split; [|lia]. etransitivity; [|exact H2].
  apply Z.mul_le_mono_nonneg_r; [|lia]. unfold page_size. apply Z.pow_nonneg. lia.
Qed.

(** ** Reads allocate nothing *)

Record unspent (st st' : Store) : Prop := {
  us_tail : tail (st_log st') = tail (st_log st);
  us_bits : page_bits (st_log st') = page_bits (st_log st);
  us_arena : same_arena (st_index st) (st_index st') }.

#[local] Instance unspent_preorder : PreOrder unspent.
Proof.
  split; [by intros st; split|]. intros x y z [T1 B1 [L1 N1]] [T2 B2 [L2 N2]].
  split; [congruence..|]. split; congruence.
Qed.

Lemma run_actions_tail as_ : forall l l', run_actions l as_ = Some l' -> tail l' = tail l /\ page_bits l' = page_bits l.
Proof.
  induction as_ as [|a as_ IH]; intros l l' H; [by injection H as <-|].
  destruct (run_action l a) as [l1|] eqn:E1.
  2:{ exfalso. revert H. unfold run_actions. cbn [foldl mbind option_bind]. rewrite E1. clear. by induction as_. }
  assert (H1 : run_actions l1 as_ = Some l') by (unfold run_actions in *; cbn [foldl mbind option_bind] in *; by rewrite E1 in H).
  destruct (IH _ _ H1) as [-> ->]. clear -E1.
  destruct a as [ro|h|]; simpl in E1; [| |by injection E1 as <-].
  - unfold on_pages_marked_read_only, flush_until, mbind, option_bind in E1. split_match E1; by injection E1 as <-.
  - unfold on_pages_closed, mbind, option_bind in E1. cbv zeta in E1. split_match E1; by injection E1 as <-.
Qed.

Lemma handle_retry_unspent st o n go n' st' : handle_retry st o n = Some (go, n', st') -> unspent st st'.
Proof.
  unfold handle_retry. destruct (_ <? _); [by intros [= _ _ <-]|].
  destruct o; try done; try by intros [= _ _ <-]. unfold log_bump_current_epoch.
  destruct (bump_current_epoch _) as [[v ready] e]. destruct (run_actions _ _) as [l|] eqn:E; [|done].
  apply run_actions_tail in E as [??]. by intros [= _ _ <-].
Qed.

Lemma latch_shared_unspent {A} txn b st (busy : A) body r st' :
  (forall st0 x, body st0 = Some x -> snd x = st0) ->
  latch txn b false st busy body = Some (r, st') -> unspent st st'.
Proof.
  intros Hb. unfold latch. destruct txn; [by intros <-%Hb|]. unfold try_lock_shared, unlock_shared.
  destruct (latch_word (st_index st) b) as [w|]; [|done]. cbn [mbind option_bind]. destruct (lock_shared_spin _ _) as [[] w1]; cbn [mbind option_bind].
  - destruct (body (set_index st _)) as [[r1 st1]|] eqn:Eb; [|done]. apply Hb in Eb. cbn in Eb. subst st1. cbn [mbind option_bind].
    destruct (latch_word (st_index (set_index st _)) b) as [w2|]; [|done]. cbn [mbind option_bind]. intros [= <- <-].
    by repeat split.
  - intros [= <- <-]. split; [done..|]. apply store_word_arena.
Qed.

Lemma internal_read_unspent {Input Out} `{SessionFunctions Input Out} st se k h (i : Input) (out : Out) x st' : internal_read st se k h i out = Some (x, st') -> unspent st st'.
Proof.
  unfold internal_read. destruct (find_tag _ _) as [[slot|]|]; cbn [mbind option_bind]; [| |done].
  2:{ unfold done_. by intros [= _ <-]. }
  apply latch_shared_unspent. clear. intros st [r st'] E. unfold done_, again, mbind, option_bind in E.
  split_match E; by injection E as _ <-.
Qed.

Lemma protected_unspent {A} st se (body : Store -> Session -> option (A * Store)) x st' se' :
  (forall st se x st', body st se = Some (x, st') -> unspent st st') ->
  protected st se body = Some (x, st', se') -> unspent st st'.
Proof.
  intros Hb. unfold protected. destruct (protect _ _ _) as [[[v idx] e]|]; [|done]. cbn [mbind option_bind].
  destruct (body _ _) as [[r st1]|] eqn:Eb; [|done]. cbn [mbind option_bind]. apply Hb in Eb as [T B A1].
  destruct (unprotect _ _ _) as [[idx' e']|]; [|done]. cbn [mbind option_bind]. intros [= <- <- <-]. by split.
Qed.

Lemma read_unspent {Input Out} `{SessionFunctions Input Out} fuel k h (i : Input) : forall st se (out : Out) n s out' st' se',
  read_loop fuel st se k h i out n = Some (s, out', st', se') -> unspent st st'.
Proof.
  induction fuel as [|fuel IH]; intros st se out n s out' st' se' E; [done|]. cbn [read_loop] in E.
  destruct (protected st se _) as [[[[r out1] st1] se1]|] eqn:Ep; [|done]. cbn [mbind option_bind] in E.
  apply protected_unspent in Ep; [|by intros ? ? ? ?; apply internal_read_unspent]. etransitivity; [exact Ep|].
  assert (Hretry : forall r, (z ← handle_retry st1 r n; let '(go, attempts, st2) := (z : bool * Z * Store) in
    if go then read_loop fuel st2 se1 k h i out1 attempts else Some (Error, out1, st2, se1)) = Some (s, out', st', se') ->
    unspent st1 st').
  { clear E. intros r1 E1. destruct (handle_retry _ _ _) as [[[go n1] st2]|] eqn:Eh; [|done].
    cbn [mbind option_bind] in E1. apply handle_retry_unspent in Eh. etransitivity; [exact Eh|].
    destruct go; [by eapply IH|]. by injection E1 as _ _ <- _. }
  destruct r; try by eapply Hretry.
  - by injection E as _ _ <- _.
  - unfold mbind, option_bind in E. split_match E; by injection E as _ _ <- _.
Qed.

Lemma budget_unspent n st st' : budget n st -> unspent st st' -> budget n st'.
Proof. intros Hb [T B [L N]]. unfold budget, tail_page, page_size in *. by rewrite T, B, L, N. Qed.

Section Holds.
Context {fl : floor} {rs : reserved}.
(** A session outside a transaction, or inside: what the operations keep. *)
Variable mode : Store -> Session -> Prop.
Hypothesis mode_kept : forall st se st' se', kept st st' -> txn_mode se' = txn_mode se -> same_session se se' ->
  mode st se -> mode st' se'.

(** The bindings of the abstract map, expired ones included. *)
Record store_holds (bits : Z) (n : nat) (d : StoreDir) (se : Session) (K : gmap bytes entry) : Prop := {
  sh_map : exists R M, store_ok (sd_store d) R M /\ K = entry_of <$> M;
  sh_ready : ready (sd_store d) se;
  sh_mode : mode (sd_store d) se;
  sh_bits : page_bits (st_log (sd_store d)) = bits;
  sh_budget : budget n (sd_store d) }.

Lemma bound_cell st R M k c : store_ok st R M -> M !! k = Some c -> cell_ok c.
Proof.
  intros Hok Hk. destruct (so_newest _ _ _ k Hok) as (r & Hn & Hv & _). rewrite Hk in Hv.
  destruct r as [a|]; [|done]. unfold value_of in Hv. cbn [mbind option_bind] in Hv.
  destruct (R !! a) as [d|] eqn:Ed; [|done]. cbn [mbind option_bind] in Hv. destruct (is_tombstone _); [done|].
  injection Hv as ->. apply (so_cells _ _ _ Hok _ _ Ed).
Qed.

Lemma bits_pos st R M : store_ok st R M -> 0 <= page_bits (st_log st).
Proof. intros Hok. pose proof (config_bits _ (lo_config _ _ (so_log _ _ _ Hok))). lia. Qed.

Lemma bind_entry_map k v M : bind_entry k (entry_of <$> v) (entry_of <$> M) = entry_of <$> bind_key k v M.
Proof.
  apply map_eq. intros k'. unfold bind_entry, bind_key. destruct (decide (k = k')) as [<-|Hne].
  - by rewrite lookup_partial_alter_eq, lookup_fmap, lookup_partial_alter_eq.
  - by rewrite lookup_partial_alter_ne, !lookup_fmap, lookup_partial_alter_ne.
Qed.

(** What an operation that performed [T] on [k] leaves. *)
Lemma performed_holds bits n d se R M k T st' se' (Q : option cell -> Prop) :
  page_bits (st_log (sd_store d)) = bits -> store_ok (sd_store d) R M -> budget (S n) (sd_store d) ->
  mode (sd_store d) se -> same_session se se' ->
  performed (sd_store d) se M k T st' se' -> (forall v, T v -> Q v) ->
  exists v, Q v /\ store_holds bits n (set_dir_store d st') se' (bind_entry k (entry_of <$> v) (entry_of <$> M)).
Proof.
  intros Hb Hok Hbud Hmode Hlocks (R' & v & Hok' & HT & Hr & Hk & Htx & Hsp) HQ. exists v. split; [by apply HQ|].
  pose proof (bits_pos _ _ _ Hok) as Hp. split; cbn [sd_store set_dir_store].
  - exists R', (bind_key k v M). split; [done|]. apply bind_entry_map.
  - done.
  - by eapply mode_kept.
  - by rewrite (kp_bits _ _ Hk).
  - eapply budget_spent; [apply (kp_bits _ _ Hk)|done..].
Qed.

Lemma store_rmw_fits bits st R M k i : store_ok st R M -> page_bits (st_log st) = bits -> input_ok i ->
  page_holds bits k (need i ((entry_of <$> M) !! k)) -> rmw_fits k i (st_log st) (M !! k).
Proof.
  intros Hok <- Hi Hp. split.
  - eapply page_holds_fits; [exact Hp|done|apply initial_size_need].
  - eapply page_holds_fits; [exact Hp|done|simpl; lia].
  - exists (fun c => M !! k = Some c). split; [done|]. split.
    + intros c c' o o' Hc E. destruct (in_place_updater_spec k i c o (bound_cell _ _ _ _ _ Hok Hc) Hi) as (r & c1 & o1 & E1 & Ho).
      change (str_in_place_updater k i c o = Some (NeedCopy, c', o')) in E. rewrite E in E1. injection E1 as <- <- <-.
      cbn in Ho. by subst c'.
    + intros c Hc Hco. eapply page_holds_fits; [exact Hp|done|]. rewrite lookup_fmap, Hc. by apply copy_size_need.
Qed.

Lemma store_callable bits n d se K i : store_holds bits n d se K -> input_ok i ->
  exists R M, callable (input_ok := input_ok) (sd_store d) se R M i RETRIES /\ K = entry_of <$> M /\ page_bits (st_log (sd_store d)) = bits.
Proof.
  intros [(R & M & Hok & ->) Hr Hmode Hb Hbud] Hi. exists R, M. split; [|done]. split_and!; try done.
  eapply budget_room; [by eapply bits_pos|exact Hbud].
Qed.

Lemma store_mode_keyspace tid bits : Keyspace (store_db tid) (store_holds bits) (page_holds bits).
Proof.
  split.
  - intros n d se K [(R & M & Hok & ->) Hr Hmode Hb Hbud]. split; try done; [by exists R, M|].
    eapply budget_weaken; [by eapply bits_pos|done].
  - intros k m n Hmn. by apply page_holds_le.
  - intros n d se K k i o Hh Hi. destruct (store_callable _ _ _ _ _ i Hh Hi) as (R & M & Hc & -> & Hb).
    destruct (read_performs _ _ _ _ k i o RETRIES Hc) as (s & o' & st' & se' & E & R' & v & Hok' & HT & Hr' & Hk & Htx & _).
    apply tries_read in HT as [-> HT]. rewrite bind_key_same in Hok'.
    assert (Hres : read_result i ((entry_of <$> M) !! k) o = (s, o')).
    { rewrite lookup_fmap. destruct (M !! k) as [c|] eqn:Ek; [|destruct HT as [-> ->]; done].
      destruct HT as (b & Er & ->). eapply reader_result; [|exact Er]. by eapply bound_cell; [apply Hc|]. }
    rewrite Hres. exists (set_dir_store d st'), se'. cbn [db_read store_db]. rewrite E. split; [done|].
    split; cbn [sd_store set_dir_store]; [by exists R', M|done| |by rewrite (kp_bits _ _ Hk)|].
    { eapply mode_kept; [exact Hk|exact Htx|by eapply read_locks|apply Hh]. }
    eapply budget_unspent; [apply Hh|]. unfold read in E. by eapply read_unspent.
  - intros n d se K k i o Hh Hi Hp. destruct (store_callable _ _ _ _ _ i Hh Hi) as (R & M & Hc & -> & Hb).
    pose proof Hc as (Hok & _).
    destruct (upsert_performs _ _ _ _ k i o RETRIES Hc) as (s & o' & st' & se' & E & HP).
    { eapply page_holds_fits; [rewrite Hb; exact Hp|done|done]. }
    { eapply budget_indexable. apply Hh. }
    assert (Hsz : size_ok (str_upsert_size k i)).
    { eapply (page_holds_fits (st_log (sd_store d))); [rewrite Hb; exact Hp|done|done]. }
    destruct (performed_holds bits n d se R M k _ st' se' _ Hb Hok ltac:(apply Hh) ltac:(apply Hh) ltac:(by eapply upsert_locks) HP
      (fun v HT => upsert_tries _ k i Hi _ _ _ _ _ Hsz (fun c => bound_cell _ _ _ _ _ Hok) HT)) as (v & (Ev & Hs & ->) & Hh').
    exists s, (set_dir_store d st'), se'. cbn [db_upsert store_db]. rewrite E. split; [done|]. split; [done|]. by rewrite <- Ev.
  - intros n d se K k i o Hh Hi Hw Hp. destruct (store_callable _ _ _ _ _ i Hh Hi) as (R & M & Hc & -> & Hb).
    pose proof Hc as (Hok & _). pose proof (store_rmw_fits _ _ _ _ _ _ Hok Hb Hi Hp) as Hfit.
    destruct (rmw_performs _ _ _ _ k i o RETRIES Hc Hfit) as (s & o' & st' & se' & E & HP).
    { eapply budget_indexable. apply Hh. }
    assert (Hsz : forall c, M !! k = Some c -> size_ok (str_copy_size k i c)).
    { intros c Ec. destruct Hfit as [_ _ (Q & HQ & _ & Hf)]. apply Hf; [by apply HQ|by eapply bound_cell]. }
    destruct (performed_holds bits n d se R M k _ st' se' _ Hb Hok ltac:(apply Hh) ltac:(apply Hh) ltac:(by eapply rmw_locks) HP
      (fun v HT => rmw_tries _ k i Hi Hw _ _ _ _ _ (fun c => bound_cell _ _ _ _ _ Hok) (proj1 (rf_initial _ _ _ _ Hfit)) Hsz HT))
      as (v & Ho & Hh').
    exists s, o', (set_dir_store d st'), se', (entry_of <$> v). cbn [db_rmw store_db]. rewrite E. split; [done|].
    rewrite lookup_fmap. by split.
  - intros n d se K k Hh Hp.
    destruct (store_callable _ _ _ _ _ (input_read Get 0) Hh ltac:(done)) as (R & M & Hc & -> & Hb). pose proof Hc as (Hok & _).
    destruct (delete_performs _ _ _ _ k (input_read Get 0) output_default RETRIES Hc) as (s & o' & st' & se' & E & HP).
    { eapply page_holds_fits; [rewrite Hb; exact Hp|done|simpl; lia]. }
    destruct (performed_holds bits n d se R M k _ st' se' _ Hb Hok ltac:(apply Hh) ltac:(apply Hh) ltac:(by eapply delete_locks) HP
      (fun v HT => tries_delete _ _ _ _ _ _ HT)) as (v & [-> Hs] & Hh').
    exists (set_dir_store d st'), se'. cbn [db_delete store_db]. rewrite E. split; [|done].
    rewrite lookup_fmap. by destruct (M !! k), Hs as [-> _].
Qed.
End Holds.

(** ** The store outside and inside a transaction *)

(** The session of the thread [tid]. *)
Definition resting (tid : Z) (st : Store) (se : Session) : Prop := idle st se /\ se_tid se = tid.
Definition locking (tid : Z) (st : Store) (se : Session) : Prop := in_txn st se /\ se_tid se = tid.
Lemma resting_kept tid st se st' se' : kept st st' -> txn_mode se' = txn_mode se -> same_session se se' ->
  resting tid st se -> resting tid st' se'.
Proof. intros _ Em [El Et] [[H1 H2] H3]. split; [split|]; congruence. Qed.
Lemma locking_kept tid st se st' se' : kept st st' -> txn_mode se' = txn_mode se -> same_session se se' ->
  locking tid st se -> locking tid st' se'.
Proof. intros Hk Em Hs [H1 H2]. split; [by eapply in_txn_kept|]. destruct Hs. congruence. Qed.

Section Modes.
Context {fl : floor} {rs : reserved} (tid bits : Z).
#[export] Instance store_keyspace : Keyspace (store_db tid) (store_holds (resting tid) bits) (page_holds bits).
Proof. apply store_mode_keyspace, resting_kept. Qed.
#[export] Instance store_txn_keyspace : Keyspace (store_db tid) (store_holds (locking tid) bits) (page_holds bits).
Proof. apply store_mode_keyspace, locking_kept. Qed.

Lemma relatched_holds mode mode' n d se se' K ix' : store_holds mode bits n d se K -> relatched (sd_store d) ix' ->
  ready (set_index (sd_store d) ix') se' -> mode' (set_index (sd_store d) ix') se' ->
  store_holds mode' bits n (set_dir_store d (set_index (sd_store d) ix')) se' K.
Proof.
  intros [(R & M & Hok & ->) _ _ Hb Hbud] Hrl Hr' Hm'. split; try done.
  - exists R, M. split; [|done]. by apply Hrl.
  - destruct (rl_arena _ _ Hrl) as [El En]. unfold budget in *. cbn [sd_store set_dir_store set_index st_log st_index]. by rewrite El, En.
Qed.
#[export] Instance store_transactions : Transactions (store_db tid) (store_holds (resting tid) bits) (store_holds (locking tid) bits).
Proof.
  split.
  - intros n d se K keys Hh. destruct (sh_map _ _ _ _ _ _ Hh) as (R & M & Hok & _).
    destruct (sh_mode _ _ _ _ _ _ Hh) as [Hm Et].
    destruct (txn_lock_store _ _ _ _ keys Hok (sh_ready _ _ _ _ _ _ Hh) Hm) as (ix' & se' & E & Hrl & Hr' & Hm' & Et').
    eexists _, se'. cbn [db_lock store_db]. rewrite E. split; [reflexivity|]. eapply relatched_holds; [done..|]. split; [done|congruence].
  - intros n d se K Hh. destruct (sh_map _ _ _ _ _ _ Hh) as (R & M & Hok & _).
    destruct (sh_mode _ _ _ _ _ _ Hh) as [Hm Et].
    destruct (txn_unlock_store _ _ _ _ Hok (sh_ready _ _ _ _ _ _ Hh) Hm) as (ix' & se' & E & Hrl & Hr' & Hm' & Et').
    eexists _, se'. cbn [db_unlock store_db]. rewrite E. split; [reflexivity|]. eapply relatched_holds; [done..|]. split; [done|congruence].
Qed.
End Modes.

(** ** A new store

    Whatever records an earlier one left on the device: addresses start over. *)

#[local] Existing Instance from_creation.

Lemma log_new_device bits mem mutable l dev : log_new bits mem mutable = Some l -> log_ok l ∅ ->
  (forall a, 0 <= a < FIRST_VALID_ADDRESS -> dev !! a = None) -> log_ok (set_device l dev) ∅.
Proof.
  intros E [H1 H2 H3 H4 H5 H6 H7 H8] Hd. split; try done.
  1: by destruct H1. 1: by destruct H2. 1: by destruct H3.
  intros a Ha. assert (Ef : flushed_until_address l = FIRST_VALID_ADDRESS).
  { unfold log_new in E. destruct (_ && _); [|done]. by injection E as <-. }
  change (flushed_until_address (set_device l dev)) with (flushed_until_address l) in Ha.
  change (device (set_device l dev)) with dev. by rewrite Hd by lia.
Qed.
Lemma store_new_device (rs : reserved) buckets bits mem mutable st tid dev : store_new buckets bits mem mutable = Some st ->
  store_ok st ∅ ∅ -> ready st (new_session st tid) -> (forall a, 0 <= a < FIRST_VALID_ADDRESS -> dev !! a = None) ->
  let st' := set_log st (set_device (st_log st) dev) in store_ok st' ∅ ∅ /\ ready st' (new_session st' tid).
Proof.
  intros E Hok Hr Hd st'. split.
  - apply store_set_log; try done.
    + unfold store_new in E. destruct (log_new bits mem mutable) as [l|] eqn:El; [|done]. injection E as <-.
      eapply log_new_device; [exact El|apply (so_log _ _ _ Hok)|done].
    + destruct (so_lively _ _ _ Hok). by split.
    + destruct (so_layout _ _ _ Hok) as [Ht Hc Hb]. split; [by destruct Ht|by destruct Hc|done].
  - destruct Hr. by split.
Qed.

(** It holds nothing, and has room for as many writes as its overflow arena has
    buckets and the log addresses. *)
Lemma store_new_holds (rs : reserved) buckets bits mem mutable st dev tid meta n : store_new buckets bits mem mutable = Some st ->
  buckets <= 2 ^ 40 -> tid <> 0 -> (forall a, 0 <= a < FIRST_VALID_ADDRESS -> dev !! a = None) ->
  (forall x, x ∈ Reserved -> (fst x < MAX_THREADS)%nat /\ fst x <> slot_start tid /\ snd x = 0) ->
  Z.of_nat n <= Z.max (buckets * 2) 1024 -> Z.of_nat n + 1 < 2 ^ 31 -> (Z.of_nat n + 2) * 2 ^ bits <= 2 ^ 48 ->
  let st' := set_log st (set_device (st_log st) dev) in store_holds (resting tid) bits n (Dir st' meta) (new_session st' tid) ∅.
Proof.
  intros E Hb Htid Hdev Hrs Hn Hpages Hbits st'. destruct (store_new_reserved rs _ _ _ _ _ tid E Hb Htid Hrs) as (Hok & Hr & _).
  destruct (store_new_device rs _ _ _ _ _ _ dev E Hok Hr Hdev) as [Hok' Hr']. fold st' in Hok', Hr'.
  unfold store_new, log_new in E. destruct (Z.leb_spec 9 bits), (Z.leb_spec bits 30); cbn [andb negb] in E; try done.
  cbn [mbind option_bind] in E. injection E as <-. split; cbn [sd_store]; try done.
  { exists ∅, ∅. split; [done|]. by rewrite fmap_empty. }
  unfold st', budget, tail_page, page_size. cbn [st_log st_index set_log set_device set_flushed tail page_bits index_new overflow overflow_next].
  destruct (pack_unpack 0 FIRST_VALID_ADDRESS) as [-> _]; [done|done|]. cbn [fst].
  assert (Hsize : Z.max (buckets * 2) 1024 <= Z.max (next_power_of_two (Z.max buckets 2) * 2) 1024).
  { unfold next_power_of_two. destruct (Z.leb_spec (Z.max buckets 2) 1); [lia|].
    pose proof (Z.log2_log2_up_spec (Z.max buckets 2) ltac:(lia)). lia. }
  rewrite length_replicate, Z2Nat.id by lia. split_and!; [done|done|lia].
Qed.
