(* ===== verification/Answers.v ===== *)
(** * What the commands answer

    The reference the command layer is compared with: the bindings of the keys,
    a value and an expiration each, and for every command that reads or writes
    string keys its reply and the bindings it leaves, with no store, no records
    and no callbacks.  [None] is a command left out (transactions, scans,
    administration), or one whose answer the code makes depend on where the
    record happens to lie (see the findings). *)

From S2P Require Import Prelude Resp Session Functions FunctionsSpec Commands Keyspace.

(** Replies. *)
Definition bulk (v : bytes) : bytes := write_bulk [] v.
Definition int_ (z : Z) : bytes := write_integer [] z.
Definition err (e : bytes) : bytes := write_error [] e.
Definition simple (s : string) : bytes := write_simple [] (bs s).
Definition header (n : nat) : bytes := write_array_header [] n.

(** The expiration a live key with expiration [old] is left with. *)
Definition next_ttl (keep : bool) (expiration old : Z) : option Z :=
  if keep then if expiration =? 0 then Some old else None
  else if expiration =? 0 then if old =? 0 then Some 0 else None
  else Some expiration.

Section Answers.
Context (now : Z).
Implicit Types (K : gmap bytes entry) (k v : bytes) (args : list bytes).

Definition live K k : option entry := seen now (K !! k).
(** Bound to a value that has expired, which the store may still hold. *)
Definition lingering K k : bool := if K !! k is Some e then stale now e else false.

Definition answer_get K k : bytes := if live K k is Some e then bulk (fst e) else NULL_BULK.

Definition answer_set K k v (o : SetOpts) : option (bytes * gmap bytes entry) :=
  let set e := <[k := (v, e)]> K in
  let expiration := so_expiration o in
  if so_get o then
    if lingering K k then None else
    match live K k with
    | None => Some (NULL_BULK, set expiration)
    | Some (old, ttl) => ttl ← next_ttl (so_keep_ttl o) expiration ttl; Some (bulk old, set ttl)
    end
  else if so_nx o then
    if live K k is Some _ then Some (NULL_BULK, K) else Some (OK, set expiration)
  else if so_xx o then
    match live K k with
    | None => Some (NULL_BULK, K)
    | Some (_, ttl) => ttl ← next_ttl false expiration ttl; Some (OK, set ttl)
    end
  else if so_keep_ttl o then
    match live K k with
    | None => Some (OK, set expiration)
    | Some (_, ttl) => ttl ← next_ttl true expiration ttl; Some (OK, set ttl)
    end
  else Some (OK, set expiration).

Definition answer_setnx K k v : option (bytes * gmap bytes entry) :=
  if lingering K k then None else
  if live K k is Some _ then Some (int_ 0, K) else Some (int_ 1, <[k := (v, 0)]> K).

Definition answer_setex K k (time : bytes) v (ms : bool) : option (bytes * gmap bytes entry) :=
  match (t ← parse_i64 time; if 0 <? t then Some t else None) with
  | None => Some (err (bs "ERR invalid expire time in 'setex' command"), K)
  | Some t => Some (OK, <[k := (v, wrap_i64 (now + (if ms then t else wrap_i64 (t * 1000))))]> K)
  end.

Definition answer_getdel K k : bytes * gmap bytes entry :=
  if live K k is Some e then (bulk (fst e), delete k K) else (NULL_BULK, K).

Definition answer_getex K k (opts : list bytes) : option (bytes * gmap bytes entry) :=
  match getex_opts opts now 0 with
  | inl e => Some (err e, K)
  | inr expiration =>
      if lingering K k then None else
      match live K k with
      | Some (v, _) => Some (bulk v, <[k := (v, expiration)]> K)
      | None => Some (NULL_BULK, K)
      end
  end.

(** INCR and its kin: an absent key counts as 0. *)
Definition answer_incr K k (delta : Z) : option (bytes * gmap bytes entry) :=
  let '(cur, ttl) := match live K k with Some (v, ttl) => (parse_i64 v, ttl) | None => (Some 0, 0) end in
  match (n ← cur; checked_i64 (n + delta)) with
  | None => Some (err ERR_NOT_INT, K)
  | Some n => v ← I64Buf_fmt n; Some (int_ n, <[k := (v, ttl)]> K)
  end.

(** APPEND and SETRANGE: the new value from the old one, empty if absent. *)
Definition answer_edit K k (f : bytes -> bytes) : bytes * gmap bytes entry :=
  let '(v, ttl) := default ([], 0) (live K k) in
  (int_ (Z.of_nat (length (f v))), <[k := (f v, ttl)]> K).
Definition answer_setrange K k (offset : bytes) v : bytes * gmap bytes entry :=
  match (o ← parse_i64 offset; if 0 <=? o then Some o else None) with
  | None => (err (bs "ERR offset is out of range"), K)
  | Some o => answer_edit K k (setrange (Z.to_nat o) v)
  end.
Definition answer_getrange K k (s e : bytes) : bytes :=
  match parse_i64 s, parse_i64 e with
  | Some s, Some e =>
      let v := if live K k is Some x then fst x else [] in
      let '(a, b) := range_bounds s e (length v) in bulk (slice a b v)
  | _, _ => err ERR_NOT_INT
  end.

Definition answer_expire K k (time : bytes) (unit_ : Z) (at_ : bool) : bytes * gmap bytes entry :=
  match parse_i64 time with
  | None => (err ERR_NOT_INT, K)
  | Some t =>
      match live K k with
      | None => (int_ 0, K)
      | Some (v, _) =>
          (int_ 1, <[k := (v, if at_ then wrap_i64 (t * unit_) else wrap_i64 (now + wrap_i64 (t * unit_)))]> K)
      end
  end.
Definition answer_ttl K k (ms : bool) : bytes :=
  int_ (match live K k with
        | None => -2
        | Some (_, ttl) =>
            if ttl =? 0 then -1 else
            let rem := Z.max (wrap_i64 (ttl - now)) 0 in
            if ms then rem else Z.quot (wrap_i64 (rem + 999)) 1000
        end).
Definition answer_persist K k : option (bytes * gmap bytes entry) :=
  match live K k with
  | None => Some (int_ 0, K)
  | Some (v, ttl) => if ttl =? 0 then None else Some (int_ 1, <[k := (v, 0)]> K)
  end.

(** Several keys. *)
Fixpoint set_pairs K args : gmap bytes entry :=
  match args with k :: v :: args => set_pairs (<[k := (v, 0)]> K) args | _ => K end.
Fixpoint del_keys K (keys : list bytes) (n : Z) : option (Z * gmap bytes entry) :=
  match keys with
  | [] => Some (n, K)
  | k :: keys => if lingering K k then None else
                 del_keys (delete k K) keys (if K !! k is Some _ then n + 1 else n)
  end.
Fixpoint count_live K (keys : list bytes) (n : Z) : Z :=
  match keys with [] => n | k :: keys => count_live K keys (if live K k is Some _ then n + 1 else n) end.

Definition answer_unknown args : bytes :=
  err (bs "ERR unknown command '" ++ from_utf8_lossy (default [] (head args)) ++ bs "' or wrong number of arguments").

(** The command named [cmd]; [args] starts with its name as sent. *)
Definition answer K (cmd : bytes) args : option (bytes * gmap bytes entry) :=
  let is_ := cmd_is cmd in
  let says b := Some (b, K) in
  let unknown := says (answer_unknown args) in
  if is_ "PING" then says (match args with _ :: a :: _ => bulk a | _ => PONG end) else
  if is_ "ECHO" then match args with [_; a] => says (bulk a) | _ => unknown end else
  if is_ "QUIT" then None else
  if is_ "SELECT" then says OK else
  if is_ "HELLO" then
    says (header 6 ++ bulk (bs "server") ++ bulk (bs "mini-garnet") ++ bulk (bs "version") ++ bulk (bs "0.1.0") ++
          bulk (bs "proto") ++ int_ 2) else
  if is_ "COMMAND" then says EMPTY_ARRAY else
  if is_ "CONFIG" then says EMPTY_ARRAY else
  if is_ "CLIENT" then says OK else
  if is_ "INFO" then says (bulk (bs "# Server" ++ crlf ++ bs "mini_garnet:1" ++ crlf)) else
  if is_ "RESET" then None else
  if is_ "DBSIZE" then None else
  if is_ "FLUSHDB" || is_ "FLUSHALL" then None else
  if is_ "GET" then match args with [_; k] => says (answer_get K k) | _ => unknown end else
  if is_ "SET" then
    match args with
    | _ :: k :: v :: opts =>
        match parse_set_opts opts now with inl e => says (err e) | inr o => answer_set K k v o end
    | _ => says (err (bs "ERR wrong number of arguments for 'set' command"))
    end else
  if is_ "SETNX" then match args with [_; k; v] => answer_setnx K k v | _ => unknown end else
  if is_ "SETEX" then match args with [_; k; t; v] => answer_setex K k t v false | _ => unknown end else
  if is_ "PSETEX" then match args with [_; k; t; v] => answer_setex K k t v true | _ => unknown end else
  if is_ "GETSET" then
    match args with [_; k; v] => answer_set K k v (MkOpts 0 false false true false) | _ => unknown end else
  if is_ "GETDEL" then match args with [_; k] => Some (answer_getdel K k) | _ => unknown end else
  if is_ "GETEX" then
    match args with
    | [_; k] => says (answer_get K k)
    | _ :: k :: opts => answer_getex K k opts
    | _ => None
    end else
  if is_ "APPEND" then match args with [_; k; v] => Some (answer_edit K k (fun x => x ++ v)) | _ => unknown end else
  if is_ "STRLEN" then
    match args with
    | [_; k] => says (int_ (if live K k is Some e then Z.of_nat (length (fst e)) else 0))
    | _ => unknown
    end else
  if is_ "GETRANGE" || is_ "SUBSTR" then
    match args with [_; k; s; e] => says (answer_getrange K k s e) | _ => unknown end else
  if is_ "SETRANGE" then match args with [_; k; o; v] => Some (answer_setrange K k o v) | _ => unknown end else
  if is_ "INCR" then match args with [_; k] => answer_incr K k 1 | _ => unknown end else
  if is_ "DECR" then match args with [_; k] => answer_incr K k (-1) | _ => unknown end else
  if is_ "INCRBY" then
    match args with
    | [_; k; d] => match parse_i64 d with Some d => answer_incr K k d | None => says (err ERR_NOT_INT) end
    | _ => unknown
    end else
  if is_ "DECRBY" then
    match args with
    | [_; k; d] => match parse_i64 d with
                   | Some d => answer_incr K k (wrap_i64 (- d))
                   | None => says (err ERR_NOT_INT)
                   end
    | _ => unknown
    end else
  if is_ "MSET" then
    if (3 <=? length args)%nat && (length args mod 2 =? 1)%nat then Some (OK, set_pairs K (tail args)) else unknown else
  if is_ "MGET" then
    if (2 <=? length args)%nat then says (header (length args - 1) ++ concat (map (answer_get K) (tail args)))
    else unknown else
  if is_ "DEL" || is_ "UNLINK" then
    if (2 <=? length args)%nat then '(n, K) ← del_keys K (tail args) 0; Some (int_ n, K) else unknown else
  if is_ "EXISTS" then
    if (2 <=? length args)%nat then says (int_ (count_live K (tail args) 0)) else unknown else
  if is_ "EXPIRE" then match args with [_; k; t] => Some (answer_expire K k t 1000 false) | _ => unknown end else
  if is_ "PEXPIRE" then match args with [_; k; t] => Some (answer_expire K k t 1 false) | _ => unknown end else
  if is_ "EXPIREAT" then match args with [_; k; t] => Some (answer_expire K k t 1000 true) | _ => unknown end else
  if is_ "PEXPIREAT" then match args with [_; k; t] => Some (answer_expire K k t 1 true) | _ => unknown end else
  if is_ "TTL" then match args with [_; k] => says (answer_ttl K k false) | _ => unknown end else
  if is_ "PTTL" then match args with [_; k] => says (answer_ttl K k true) | _ => unknown end else
  if is_ "PERSIST" then match args with [_; k] => answer_persist K k | _ => unknown end else
  if is_ "TYPE" then
    match args with
    | [_; k] => says (if live K k is Some _ then simple "string" else simple "none")
    | _ => unknown
    end else
  if is_ "KEYS" then None else
  if is_ "SCAN" then None else
  if is_ "MULTI" then None else
  if is_ "EXEC" then None else
  if is_ "DISCARD" then None else
  if is_ "WATCH" then None else
  if is_ "UNWATCH" then None else
  if is_ "SAVE" || is_ "BGSAVE" then None else
  if is_ "BGREWRITEAOF" then says OK else
  if is_ "LASTSAVE" then None else
  unknown.
End Answers.

(** The keys a command names, and the bytes a record of one of them may come to
    hold. *)
Fixpoint pair_keys (args : list bytes) : list bytes :=
  match args with k :: _ :: args => k :: pair_keys args | _ => [] end.
Definition request_keys (cmd : bytes) (args : list bytes) : list bytes :=
  if one_of cmd ["MGET"; "EXISTS"; "DEL"; "UNLINK"]%string then tail args
  else if cmd_is cmd "MSET" then pair_keys (tail args) else take 1 (tail args).
Definition request_offset (cmd : bytes) (args : list bytes) : nat :=
  match args with
  | [_; _; o; _] => if cmd_is cmd "SETRANGE" then Z.to_nat (default 0 (parse_i64 o)) else 0
  | _ => 0
  end.
Definition request_size (K : gmap bytes entry) (cmd : bytes) (args : list bytes) (k : bytes) : nat :=
  (sum_list_with length args + request_offset cmd args + (if K !! k is Some e then length (fst e) else 0) + 21)%nat.

(** ** Transactions *)

(** What a client of one connection can tell: the bindings, and inside MULTI
    whether a command was refused and the commands queued. *)
Record Client := MkClient { bindings : gmap bytes entry; multi : option (bool * list (list bytes)) }.

Definition name_of (args : list bytes) : bytes := command_name (default [] (head args)).

(** The commands of a transaction, all at the time of EXEC. *)
Fixpoint answers_all (now : Z) (K : gmap bytes entry) (q : list (list bytes)) : option (bytes * gmap bytes entry) :=
  match q with
  | [] => Some ([], K)
  | args :: q => '(b, K) ← answer now K (name_of args) args; '(b', K) ← answers_all now K q; Some (b ++ b', K)
  end.

(** One request of a client; WATCH, and QUIT that ends the connection, are left out. *)
Definition respond (now : Z) (c : Client) (args : list bytes) : option (bytes * Client) :=
  let is_ := cmd_is (name_of args) in
  let K := bindings c in
  match multi c with
  | None =>
      if is_ "MULTI" then Some (OK, MkClient K (Some (false, []))) else
      if is_ "EXEC" then Some (err (bs "ERR EXEC without MULTI"), c) else
      if is_ "DISCARD" then Some (err (bs "ERR DISCARD without MULTI"), c) else
      if is_ "RESET" then Some (simple "RESET", c) else
      '(b, K) ← answer now K (name_of args) args; Some (b, MkClient K None)
  | Some (refused, q) =>
      if is_ "MULTI" then Some (err (bs "ERR MULTI calls can not be nested"), c) else
      if is_ "EXEC" then
        if refused : bool
        then Some (err (bs "EXECABORT Transaction discarded because of previous errors."), MkClient K None)
        else '(b, K) ← answers_all now K q; Some (header (length q) ++ b, MkClient K None)
      else if is_ "DISCARD" then Some (OK, MkClient K None) else
      if is_ "RESET" then Some (simple "RESET", MkClient K None) else
      if one_of (name_of args) ["WATCH"; "QUIT"]%string then None else
      if one_of (name_of args) ["SUBSCRIBE"; "UNSUBSCRIBE"; "PSUBSCRIBE"]%string
      then Some (err (bs "ERR command not allowed in transaction"), MkClient K (Some (true, q)))
      else Some (QUEUED, MkClient K (Some (refused, q ++ [args])))
  end.

(** A conversation: each command with the clock when it is dispatched. *)
Definition script := list (Z * list bytes).
Fixpoint answers (c : Client) (l : script) : option (bytes * Client) :=
  match l with
  | [] => Some ([], c)
  | (now, args) :: l => '(b, c) ← respond now c args; '(b', c) ← answers c l; Some (b ++ b', c)
  end.

(** The commands on data that a request has executed, each at its time: those of
    a transaction when EXEC runs it. *)
Definition executed (now : Z) (c : Client) (args : list bytes) : list (Z * list bytes) :=
  match multi c with
  | None => if one_of (name_of args) ["MULTI"; "EXEC"; "DISCARD"; "RESET"]%string then [] else [(now, args)]
  | Some (refused, q) => if cmd_is (name_of args) "EXEC" && negb refused then map (pair now) q else []
  end.
Fixpoint history (c : Client) (l : script) : list (Z * list bytes) :=
  match l with
  | [] => []
  | (now, args) :: l => executed now c args ++
      match respond now c args with Some (_, c) => history c l | None => [] end
  end.
(** What executing them one by one leaves. *)
Fixpoint bindings_after (K : gmap bytes entry) (h : list (Z * list bytes)) : option (gmap bytes entry) :=
  match h with
  | [] => Some K
  | (now, args) :: h => '(_, K) ← answer now K (name_of args) args; bindings_after K h
  end.

(** The records a command, a transaction and a conversation need room for: a key
    and the bytes of its value. *)
Definition command_demands K (args : list bytes) : list (bytes * nat) :=
  map (fun k => (k, request_size K (name_of args) args k)) (request_keys (name_of args) args).
Fixpoint queue_demands (now : Z) K (q : list (list bytes)) : list (bytes * nat) :=
  match q with
  | [] => []
  | args :: q => command_demands K args ++
      match answer now K (name_of args) args with Some (_, K) => queue_demands now K q | None => [] end
  end.
Definition demands (now : Z) (c : Client) (args : list bytes) : list (bytes * nat) :=
  match multi c with
  | None => command_demands (bindings c) args
  | Some (refused, q) => if cmd_is (name_of args) "EXEC" then queue_demands now (bindings c) q else []
  end.
Fixpoint script_demands (c : Client) (l : script) : list (bytes * nat) :=
  match l with
  | [] => []
  | (now, args) :: l => demands now c args ++
      match respond now c args with Some (_, c) => script_demands c l | None => [] end
  end.

(** ** What a conversation executed *)

(** The room its commands need, one after the other, and their words. *)
Fixpoint history_demands (K : gmap bytes entry) (h : list (Z * list bytes)) : list (bytes * nat) :=
  match h with
  | [] => []
  | (now, args) :: h => command_demands K args ++
      match answer now K (name_of args) args with Some (_, K) => history_demands K h | None => [] end
  end.
Definition word_count (q : list (list bytes)) : nat := sum_list_with length q.
Definition waiting (m : option (bool * list (list bytes))) : list (list bytes) := if m is Some (refused, q) then q else [].
(** At most one write for each word of a command. *)
Definition cost (l : script) : nat := word_count (map snd l).
Fixpoint ordered (now : Z) (h : list (Z * list bytes)) : Prop :=
  match h with [] => True | (t, args) :: h => now <= t /\ ordered t h end.

Lemma ordered_later now now' h : now' <= now -> ordered now h -> ordered now' h.
Proof. destruct h as [|[t args] h]; [done|]. cbn [ordered]. intros ? []. split; [lia|done]. Qed.
Lemma bindings_after_app K h h' : bindings_after K (h ++ h') = (K1 ← bindings_after K h; bindings_after K1 h').
Proof.
  revert K. induction h as [|[now args] h IH]; intros K; [done|]. cbn [app bindings_after].
  destruct (answer now K _ args) as [[b K1]|]; [|done]. cbn [mbind option_bind]. apply IH.
Qed.
Lemma history_demands_app (P : bytes * nat -> Prop) K h h' K1 : bindings_after K h = Some K1 -> Forall P (history_demands K h) ->
  Forall P (history_demands K1 h') -> Forall P (history_demands K (h ++ h')).
Proof.
  revert K. induction h as [|[now args] h IH]; intros K; cbn [app bindings_after history_demands]; [by intros [= ->]|].
  destruct (answer now K _ args) as [[b K2]|]; [|done]. cbn [mbind option_bind]. intros Ha [H1 H2]%Forall_app H3.
  apply Forall_app. split; [done|by apply IH].
Qed.
(** A prefix needs no more. *)
Lemma history_demands_take (P : bytes * nat -> Prop) j : forall K h, Forall P (history_demands K h) -> Forall P (history_demands K (take j h)).
Proof.
  induction j as [|j IH]; intros K [|[now args] h]; cbn [take history_demands]; try done.
  intros [H1 H2]%Forall_app. apply Forall_app. split; [done|]. destruct (answer _ _ _ _) as [[b K1]|]; [by apply IH|done].
Qed.
Lemma ordered_take j : forall now h, ordered now h -> ordered now (take j h).
Proof. induction j as [|j IH]; intros now [|[t args] h]; cbn [take ordered]; try done. intros []. auto. Qed.
Lemma words_app q q' : word_count (q ++ q') = (word_count q + word_count q')%nat.
Proof. apply sum_list_with_app. Qed.
Lemma words_take j (h : list (Z * list bytes)) : (word_count (map snd (take j h)) <= word_count (map snd h))%nat.
Proof. rewrite <- (take_drop j h) at 2. rewrite map_app, words_app. lia. Qed.

Lemma queue_history now K q : bindings_after K (map (pair now) q) = snd <$> answers_all now K q /\
  history_demands K (map (pair now) q) = queue_demands now K q /\ word_count (map snd (map (pair now) q)) = word_count q /\
  Forall (fun x => fst x = now) (map (pair now) q).
Proof.
  revert K. induction q as [|args q IH]; intros K; cbn [map bindings_after history_demands answers_all queue_demands]; [done|].
  destruct (answer now K _ args) as [[b K1]|]; cbn [mbind option_bind].
  - destruct (IH K1) as (-> & -> & Hw & Hf). split_and!; [by destruct (answers_all _ _ _) as [[]|]|done| |by constructor].
    unfold word_count in *. cbn [sum_list_with snd map]. by rewrite Hw.
  - destruct (IH K) as (_ & _ & Hw & Hf). split_and!; [done..| |by constructor]. unfold word_count in *. cbn [sum_list_with snd map]. by rewrite Hw.
Qed.

(** One request: what it executed accounts for the bindings. *)
Lemma executed_spec (P : bytes * nat -> Prop) now c args b c' : respond now c args = Some (b, c') -> Forall P (demands now c args) ->
  bindings_after (bindings c) (executed now c args) = Some (bindings c') /\
  Forall P (history_demands (bindings c) (executed now c args)) /\
  (word_count (map snd (executed now c args)) + word_count (waiting (multi c')) <= word_count (waiting (multi c)) + length args)%nat /\
  Forall (fun x => fst x = now) (executed now c args).
Proof.
  unfold respond, demands, executed. destruct c as [K [[refused q]|]]; cbn [bindings multi waiting].
  - destruct (cmd_is _ "MULTI") eqn:E1.
    { apply bool_decide_eq_true in E1. rewrite E1. change (cmd_is (bs "MULTI") "EXEC") with false. intros [= <- <-] _. split_and!; try done; unfold word_count; cbn; lia. }
    destruct (cmd_is _ "EXEC") eqn:E2.
    { destruct refused; cbn [andb negb].
      - intros [= <- <-] _. split_and!; try done; unfold word_count; cbn; lia.
      - destruct (queue_history now K q) as (Hb & Hd & Hw & Hf). rewrite Hb, Hd, Hw.
        destruct (answers_all now K q) as [[b1 K1]|]; [|done]. intros [= <- <-] HP. split_and!; try done; unfold word_count; cbn; lia. }
    cbn [andb]. destruct (cmd_is _ "DISCARD"); [intros [= <- <-] _; split_and!; try done; unfold word_count; cbn; lia|].
    destruct (cmd_is _ "RESET"); [intros [= <- <-] _; split_and!; try done; unfold word_count; cbn; lia|].
    destruct (one_of _ _); [done|]. destruct (one_of _ _); intros [= <- <-] _; split_and!; try done.
    + unfold word_count. cbn. lia.
    + cbn [multi waiting]. rewrite words_app. unfold word_count. cbn. lia.
  - unfold one_of. cbn [existsb].
    destruct (cmd_is _ "MULTI"); [intros [= <- <-] _; split_and!; try done; cbn [map word_count sum_list_with waiting multi]; unfold word_count; cbn; lia|].
    destruct (cmd_is _ "EXEC"); [intros [= <- <-] _; split_and!; try done; cbn [map word_count sum_list_with waiting multi]; unfold word_count; cbn; lia|].
    destruct (cmd_is _ "DISCARD"); [intros [= <- <-] _; split_and!; try done; cbn [map word_count sum_list_with waiting multi]; unfold word_count; cbn; lia|].
    destruct (cmd_is _ "RESET"); [intros [= <- <-] _; split_and!; try done; cbn [map word_count sum_list_with waiting multi]; unfold word_count; cbn; lia|]. cbn [orb].
    cbn [bindings_after history_demands]. destruct (answer now K _ args) as [[b1 K1]|]; [|done]. intros [= <- <-] HP.
    cbn [mbind option_bind bindings multi waiting]. split_and!; [done|by rewrite app_nil_r| |by constructor].
    unfold word_count. cbn [map sum_list_with snd]. lia.
Qed.

(** Sets, an increment, an expiration seen before and after it is due, and a
    transaction. *)
Definition demo_script : script :=
  map (fun c => (fst c, map bs (snd c)))
    [(1000, ["set"; "n"; "41"]); (1001, ["INCR"; "n"]); (1002, ["APPEND"; "n"; "0"]); (1003, ["GET"; "n"]);
     (1004, ["PEXPIRE"; "n"; "50"]); (1005, ["PTTL"; "n"]); (1006, ["MULTI"]); (1007, ["SET"; "m"; "1"; "PX"; "9"]);
     (1008, ["mget"; "n"; "m"]); (1009, ["EXEC"]); (1100, ["GET"; "n"]); (1101, ["MGET"; "n"; "m"])]%string.
Example demo_answers : fst <$> answers (MkClient ∅ None) demo_script =
  Some (OK ++ int_ 42 ++ int_ 3 ++ bulk (bs "420") ++ int_ 1 ++ int_ 49 ++ OK ++ QUEUED ++ QUEUED ++
        header 2 ++ OK ++ (header 2 ++ bulk (bs "420") ++ bulk (bs "1")) ++
        NULL_BULK ++ header 2 ++ NULL_BULK ++ NULL_BULK).
Proof. by vm_compute. Qed.
