(* ===== verification/CommandsKeyspace.v ===== *)
(** * The commands answer as the reference does

    Every command that reads or writes string keys, run by the command layer
    against any database that keeps the promise of [Keyspace], replies what
    [Answers.answer] says and leaves the bindings it says: a command at a time,
    by a weakest precondition over the handlers' monad. *)

From S2P Require Import Prelude Resp RespSpec Session Functions FunctionsSpec Store Aof Shared Commands CommandsSpec Keyspace Answers.

(** What the database holds stands for the bindings of the reference: it may
    have dropped expired ones. *)
Definition stands (now : Z) (K Ks : gmap bytes entry) : Prop :=
  forall k, K !! k = Ks !! k \/ K !! k = None /\ seen now (Ks !! k) = None.

#[export] Instance stands_preorder now : PreOrder (stands now).
Proof.
  split; [by left|]. intros x y z H1 H2 k. destruct (H1 k) as [->|[-> E1]]; [apply H2|].
  destruct (H2 k) as [<-|[Ey Ez]]; [by right|by right].
Qed.
Lemma stands_bind now K Ks k v : stands now K Ks -> stands now (bind_entry k v K) (bind_entry k v Ks).
Proof.
  intros H k'. unfold bind_entry. destruct (decide (k = k')) as [<-|Hne];
    [left; by rewrite !lookup_partial_alter_eq|]. rewrite !lookup_partial_alter_ne by done. apply H.
Qed.
Lemma stands_later now now' K Ks : now <= now' -> stands now K Ks -> stands now' K Ks.
Proof.
  intros Hle H k. destruct (H k) as [|[? Hs]]; [by left|right]. split; [done|].
  destruct (Ks !! k) as [e|]; [|done]. unfold seen, stale in *. cbn [mbind option_bind] in *.
  destruct (Z.eqb_spec (snd e) 0); simpl in *; [done|].
  destruct (Z.leb_spec (snd e) now); [|done]. by destruct (Z.leb_spec (snd e) now'); [|lia].
Qed.
(** Dropping, or keeping, a binding no client sees. *)
Lemma stands_absent now K k v : seen now (K !! k) = None -> v = K !! k \/ v = None -> stands now (bind_entry k v K) K.
Proof.
  intros Hs Hv k'. unfold bind_entry. destruct (decide (k = k')) as [<-|Hne];
    [rewrite lookup_partial_alter_eq|left; by rewrite lookup_partial_alter_ne].
  destruct Hv as [->| ->]; auto.
Qed.
Lemma bind_some k e K : bind_entry k (Some e) K = <[k := e]> K.
Proof. done. Qed.
Lemma bind_none k K : bind_entry k None K = delete k K.
Proof. done. Qed.
Lemma bind_same k K : bind_entry k (K !! k) K = K.
Proof.
  apply map_eq. intros k'. unfold bind_entry. destruct (decide (k = k')) as [<-|?];
    [by rewrite lookup_partial_alter_eq|by rewrite lookup_partial_alter_ne].
Qed.

(** Whatever is read from an argument is an [i64]. *)
Lemma checked_i64_range z v : checked_i64 z = Some v -> is_i64 v.
Proof. unfold checked_i64. destruct (in_i64 z) eqn:E; [|done]. intros [= <-]. by apply in_i64_spec. Qed.
Lemma from_digits_range neg ds : forall v z, is_i64 v -> from_digits neg v ds = Some z -> is_i64 z.
Proof.
  induction ds as [|c ds IH]; intros v z Hv; cbn [from_digits]; [by intros [= <-]|].
  destruct (is_ascii_digit c); [|done]. destruct (checked_i64 (v * 10)) as [v1|]; [|done]. cbn [mbind option_bind].
  destruct (checked_i64 _) as [v2|] eqn:E; [|done]. cbn [mbind option_bind]. apply IH. by eapply checked_i64_range.
Qed.
Lemma parse_i64_range s z : parse_i64 s = Some z -> is_i64 z.
Proof.
  unfold parse_i64, i64_from_str. destruct (from_utf8 s) as [cs|]; [|done]. cbn [mbind option_bind].
  destruct (trim cs) as [|c l]; [done|]. intros H. destruct ((c =? 43) || (c =? 45)); [destruct l|];
    try done; by eapply from_digits_range; [|exact H].
Qed.

Lemma need_none i v : (need i None <= need i v)%nat.
Proof. unfold need. lia. Qed.

(** What a session does not change while it runs commands: its transaction,
    whether it replays, and the log there was when it began. *)
Record Mode := MkMode { m_txn : TxnState; m_replay : bool; m_log : option Aof }.
(** What it leaves behind: the replies in its buffer and the entries it logged. *)
Record Trail := MkTrail { sent : bytes; noted : list AofEntry }.
Definition says (w : Trail) (b : bytes) : Trail := MkTrail (sent w ++ b) (noted w).
Definition notes (w : Trail) (es : list AofEntry) : Trail := MkTrail (sent w) (noted w ++ es).
(** The note of the command [raw], unless it is replayed. *)
Definition jots (now : Z) (tx : Mode) (raw : bytes) (w : Trail) : Trail :=
  if m_replay tx then w else notes w [Entry AofCommand now raw].
Lemma says_app w b b' : says (says w b) b' = says w (b ++ b').
Proof. unfold says. cbn [sent noted]. by rewrite app_assoc. Qed.
Lemma says_nil w : says w [] = w.
Proof. unfold says. rewrite app_nil_r. by destruct w. Qed.
Lemma says_jots now tx raw w b : says (jots now tx raw w) b = jots now tx raw (says w b).
Proof. unfold jots. by destruct (m_replay tx). Qed.

Section Conversation.
Context {D P : Type} {HDB : Database D P} {holds : nat -> D -> P -> gmap bytes entry -> Prop}
  {room_for : bytes -> nat -> Prop} {HK : Keyspace HDB holds room_for}.
Abbreviation M := (M D P).
Abbreviation Resp := (RespSession D P).
Implicit Types (i : StringInput) (r : Resp) (K : gmap bytes entry) (s : StringOutput) (w : Trail) (key raw : bytes) (n : nat).

(** Nobody is left waiting for the append-only log: acknowledging after the
    commit goes with committing every write. *)
Definition unwaited (sh : Shared D) : Prop := forall a, sh_aof sh = Some a -> aof_commit_wait sh = true ->
  mode a = Always /\ committed a <= written a.

Lemma enqueue_always a o ts p end_ a' : enqueue a o ts p = (end_, a') -> mode a = Always -> committed a <= written a ->
  mode a' = Always /\ committed a' = end_ /\ written a' = end_.
Proof.
  unfold enqueue. set (x := MkAof _ _ _ _ _ _). intros E Hm Hc. assert (Hx : mode x = Always) by done.
  set (y := if _ <=? _ then flush_buffer x else x) in E. assert (Hy : mode y = Always /\ committed y = committed x /\
    written y + Z.of_nat (length (buf y)) = written x + Z.of_nat (length (buf x)) /\ written x <= written y).
  { unfold y. destruct (_ <=? _); [|split_and!; [done..|lia]]. destruct (flush_buffer_end x) as (-> & -> & -> & ->).
    split_and!; [done|done|simpl; lia|lia]. }
  destruct Hy as (Hy1 & Hy2 & Hy3 & Hy4). rewrite Hy1 in E. injection E as <- <-.
  destruct (aof_commit_end y) as (-> & -> & -> & _); [rewrite Hy2; etransitivity; [exact Hc|exact Hy4]|]. by rewrite Hy3.
Qed.

Section At.
Context (now : Z) (tx : Mode).

(** A session in the mode [tx], [n] writes left, with [s] in its scratch and [w]
    said so far, whose database stands for [K]. *)
Record serves n K s w r : Prop := {
  sv_now : r_now r = now;
  sv_holds : exists K0, holds n (sh_store (shared r)) (store r) K0 /\ stands now K0 K;
  sv_replay : replay r = m_replay tx;
  sv_log : unwaited (shared r);
  sv_table : table_ok (watch (shared r));
  sv_txn : txn r = m_txn tx;
  sv_scratch : out_scratch r = s;
  sv_out : out r = sent w;
  sv_book : logs (m_log tx) (sh_aof (shared r)) (noted w) }.

Definition wp {A} (m : M A) n K s w (Q : A -> nat -> gmap bytes entry -> StringOutput -> Trail -> Prop) : Prop :=
  forall r, serves n K s w r -> exists x r' n' K' s' w', m r = Some (x, r') /\ serves n' K' s' w' r' /\ Q x n' K' s' w'.

Lemma wp_mono {A} (m : M A) n K s w (Q Q' : A -> nat -> gmap bytes entry -> StringOutput -> Trail -> Prop) :
  wp m n K s w Q -> (forall x n K s w, Q x n K s w -> Q' x n K s w) -> wp m n K s w Q'.
Proof. intros H HQ r Hr. destruct (H r Hr) as (x & r' & n' & K' & s' & w' & ? & ? & ?). exists x, r', n', K', s', w'. auto. Qed.
Lemma wp_ret {A} (x : A) n K s w (Q : A -> nat -> gmap bytes entry -> StringOutput -> Trail -> Prop) :
  Q x n K s w -> wp (mret x) n K s w Q.
Proof. intros HQ r Hr. by exists x, r, n, K, s, w. Qed.
Lemma wp_bind {A B} (m : M A) (f : A -> M B) n K s w (Q : B -> nat -> gmap bytes entry -> StringOutput -> Trail -> Prop) :
  wp m n K s w (fun x n K s w => wp (f x) n K s w Q) -> wp (m ≫= f) n K s w Q.
Proof.
  intros H r Hr. destruct (H r Hr) as (x & r1 & n1 & K1 & s1 & w1 & E & Hr1 & H1).
  destruct (H1 r1 Hr1) as (y & r2 & n2 & K2 & s2 & w2 & E2 & Hr2 & HQ).
  exists y, r2, n2, K2, s2, w2. split; [|done]. unfold mbind, M_bind. by rewrite E.
Qed.

Implicit Types (Q : unit -> nat -> gmap bytes entry -> StringOutput -> Trail -> Prop).

Lemma wp_now n K s w (Q : Z -> nat -> gmap bytes entry -> StringOutput -> Trail -> Prop) :
  Q now n K s w -> wp (gets r_now) n K s w Q.
Proof. intros HQ r Hr. exists now, r, n, K, s, w. unfold gets. by rewrite (sv_now _ _ _ _ _ Hr). Qed.
Lemma wp_scratch n K s w (Q : StringOutput -> nat -> gmap bytes entry -> StringOutput -> Trail -> Prop) :
  Q s n K s w -> wp (gets out_scratch) n K s w Q.
Proof. intros HQ r Hr. exists s, r, n, K, s, w. unfold gets. by rewrite (sv_scratch _ _ _ _ _ Hr). Qed.
Lemma wp_clear n K s w Q : Q tt n K (Output [] (has_bytes s) (int s) (has_int s)) w -> wp clear_scratch n K s w Q.
Proof.
  intros HQ r Hr. eexists tt, _, n, K, _, w. split; [done|]. split; [|exact HQ].
  destruct Hr as [? ? ? ? ? ? Es ? ?]. split; try done. cbn. by rewrite Es.
Qed.
Lemma wp_reply (f : bytes -> bytes) b n K s w Q : appends f -> f [] = b -> Q tt n K s (says w b) -> wp (reply f) n K s w Q.
Proof.
  intros Hf <- HQ r Hr. eexists tt, _, n, K, s, _. split; [done|]. split; [|exact HQ].
  destruct Hr as [? ? ? ? ? ? ? Ew ?]. split; try done. cbn. by rewrite Ew, Hf.
Qed.

(** The store calls. *)
Lemma wp_call (f : D -> P -> StringOutput -> option (Status * StringOutput * D * P)) n K s w (Q : Status -> nat -> gmap bytes entry -> StringOutput -> Trail -> Prop) :
  (forall d p K0, holds n d p K0 -> stands now K0 K ->
     exists st s' d' p' n' K1 K', f d p s = Some (st, s', d', p') /\ holds n' d' p' K1 /\ stands now K1 K' /\ Q st n' K' s' w) ->
  wp (call f) n K s w Q.
Proof.
  intros H r [Hn (K0 & Hh & Hst) Hre Hl Ht Hi Hs Hw Hbk].
  destruct (H _ _ _ Hh Hst) as (st & s' & d' & p' & n' & K1 & K' & E & Hh' & Hst' & HQ).
  eexists st, _, n', K', s', w. split; [unfold call; by rewrite Hs, E|]. split; [|done].
  split; try done. by exists K1.
Qed.

Lemma stands_read i s K0 K k : now_ms i = now -> stands now K0 K -> read_result i (K0 !! k) s = read_result i (K !! k) s.
Proof. intros Hi H. destruct (H k) as [->|[-> E]]; [done|]. unfold read_result. by rewrite Hi, E. Qed.

Lemma wp_read key i n K s w (Q : Status -> nat -> gmap bytes entry -> StringOutput -> Trail -> Prop) :
  input_ok i -> now_ms i = now ->
  Q (fst (read_result i (K !! key) s)) n K (snd (read_result i (K !! key) s)) w -> wp (store_read key i) n K s w Q.
Proof.
  intros Hi Hn HQ. apply wp_call. intros d p K0 Hh Hst. destruct (ks_read _ _ _ _ key i s Hh Hi) as (d' & p' & E & Hh').
  rewrite (stands_read i s K0 K key Hn Hst) in E. eexists _, _, d', p', n, K0, K. split_and!; [exact E|done..].
Qed.
Lemma wp_upsert key i n K s w (Q : Status -> nat -> gmap bytes entry -> StringOutput -> Trail -> Prop) :
  input_ok i -> room_for key (length (operand i)) ->
  (forall st, st = Created \/ st = InPlaceUpdated -> Q st n (<[key := (operand i, in_expiration i)]> K) s w) ->
  wp (store_upsert key i) (S n) K s w Q.
Proof.
  intros Hi Hr HQ. apply wp_call. intros d p K0 Hh Hst.
  destruct (ks_upsert _ _ _ _ key i s Hh Hi Hr) as (st & d' & p' & E & Hs & Hh').
  eexists st, s, d', p', n, _, _. split; [exact E|]. split; [exact Hh'|].
  split; [by apply stands_bind|]. by apply HQ.
Qed.
Lemma wp_rmw key i n K s w (Q : Status -> nat -> gmap bytes entry -> StringOutput -> Trail -> Prop) :
  input_ok i -> now_ms i = now -> is_write (op i) = true -> room_for key (need i (K !! key)) ->
  (forall st v s', rmw_outcome i (K !! key) st v s' -> Q st n (bind_entry key v K) s' w) ->
  wp (store_rmw key i) (S n) K s w Q.
Proof.
  intros Hi Hn Hw Hr HQ. apply wp_call. intros d p K0 Hh Hst.
  assert (Hr0 : room_for key (need i (K0 !! key))).
  { destruct (Hst key) as [->|[-> _]]; [done|]. eapply ks_room; [apply need_none|done]. }
  destruct (ks_rmw _ _ _ _ key i s Hh Hi Hw Hr0) as (st & s' & d' & p' & v & E & Ho & Hh').
  eexists st, s', d', p', n, _, _. split; [exact E|]. split; [exact Hh'|]. split; [by apply stands_bind|].
  apply HQ. destruct (Hst key) as [<-|[E0 Hs]]; [done|]. rewrite E0 in Ho. apply outcome_from_stale; [by rewrite Hn|done].
Qed.
Lemma wp_delete key n K s w (Q : Status -> nat -> gmap bytes entry -> StringOutput -> Trail -> Prop) :
  lingering now K key = false -> room_for key 0 ->
  Q (if K !! key is Some _ then Deleted else NotFound) n (delete key K) s w -> wp (store_delete key) (S n) K s w Q.
Proof.
  intros Hl Hr HQ. apply wp_call. intros d p K0 Hh Hst. destruct (ks_delete _ _ _ _ key Hh Hr) as (d' & p' & E & Hh').
  assert (Hkey : K0 !! key = K !! key).
  { destruct (Hst key) as [|[-> Hs]]; [done|]. unfold lingering in Hl. destruct (K !! key) as [e|]; [|done].
    unfold seen in Hs. cbn [mbind option_bind] in Hs. by rewrite Hl in Hs. }
  rewrite Hkey in E. rewrite E. eexists _, s, d', p', n, (delete key K0), (delete key K). split; [done|]. split; [exact Hh'|].
  split; [by apply (stands_bind _ _ _ key None)|done].
Qed.

(** The bookkeeping of a write. *)
Lemma wp_append op raw wait n K s w Q : Q tt n K s (notes w [Entry op now raw]) -> wp (aof_append op raw wait) n K s w Q.
Proof.
  intros HQ r Hr. pose proof Hr as [Hn Hh Hre Hl Ht Hi Hs Hw Hbk].
  unfold aof_append. destruct (sh_aof (shared r)) as [a|] eqn:Ea.
  2:{ eexists tt, r, n, K, s, _. split; [done|]. split; [|exact HQ]. split; try done. rewrite Ea. by eapply logs_absent. }
  rewrite Hn. destruct (enqueue _ _ _ _) as [end_ a1] eqn:Ee.
  assert (Hend : aof_commit_wait (shared r) = true -> mode a1 = Always /\ committed a1 = end_ /\ written a1 = end_).
  { intros Ec. destruct (Hl a Ea Ec) as [Hm Hc]. by eapply enqueue_always. }
  assert (Hw' : (if wait && aof_commit_wait (shared r) then wait_committed a1 end_ else Some a1) = Some a1).
  { destruct wait; [|done]. cbn [andb]. destruct (aof_commit_wait (shared r)); [|done].
    destruct (Hend eq_refl) as (_ & Hc & _). unfold wait_committed. by rewrite Hc, Z.leb_refl. }
  rewrite Hw'. cbn [mbind option_bind]. eexists tt, _, n, K, s, _. split; [done|]. split; [|exact HQ]. split; try done.
  - intros a' [= <-] Hc. destruct (Hend Hc) as (Hm1 & Hc1 & Hw1). split; [done|lia].
  - cbn [shared with_shared set_aof sh_aof]. eapply logs_append; [exact Hbk|exact Ee|by left].
Qed.
Lemma wp_log_write raw n K s w Q : Q tt n K s (jots now tx raw w) -> wp (log_write raw) n K s w Q.
Proof.
  intros HQ. apply wp_bind. intros r Hr. exists (m_replay tx), r, n, K, s, w. unfold gets. rewrite (sv_replay _ _ _ _ _ Hr).
  split; [done|]. split; [done|]. unfold jots in HQ. destruct (m_replay tx); [by apply wp_ret|by apply wp_append].
Qed.
Lemma wp_bump key n K s w Q : Q tt n K s w -> wp (bump_watch key) n K s w Q.
Proof.
  intros HQ r [Hn Hh Hre Hl Ht Hi Hs Hw Hbk]. destruct (watch_bump_ok _ key Ht) as (w' & E & Ht' & _).
  eexists tt, _, n, K, s, w. unfold bump_watch. rewrite E. split; [done|]. by split.
Qed.
Lemma wp_after_write key raw n K s w Q : Q tt n K s (jots now tx raw w) -> wp (after_write key raw) n K s w Q.
Proof. intros HQ. apply wp_bind, wp_bump. by apply wp_log_write. Qed.

Lemma wp_emit b n K s w Q : Q tt n K s (says w b) -> wp (emit b) n K s w Q.
Proof. apply wp_reply; [apply (emits_append b 0 0)|done]. Qed.
Lemma wp_emit_bulk b n K s w Q : Q tt n K s (says w (bulk b)) -> wp (emit_bulk b) n K s w Q.
Proof. apply wp_reply; [apply (emits_append b 0 0)|done]. Qed.
Lemma wp_emit_int v n K s w Q : Q tt n K s (says w (int_ v)) -> wp (emit_int v) n K s w Q.
Proof. apply wp_reply; [apply (emits_append [] v 0)|done]. Qed.
Lemma wp_emit_error b n K s w Q : Q tt n K s (says w (err b)) -> wp (emit_error b) n K s w Q.
Proof. apply wp_reply; [apply (emits_append b 0 0)|done]. Qed.
Lemma wp_emit_simple b n K s w Q : Q tt n K s (says w (write_simple [] b)) -> wp (emit_simple b) n K s w Q.
Proof. apply wp_reply; [apply (emits_append b 0 0)|done]. Qed.
Lemma wp_emit_array m n K s w Q : Q tt n K s (says w (header m)) -> wp (emit_array m) n K s w Q.
Proof. apply wp_reply; [apply (emits_append [] 0 m)|done]. Qed.

(** More room, and bindings no client sees, do no harm. *)
Lemma serves_weaken n n' K K' s w r : (n' <= n)%nat -> stands now K K' -> serves n K s w r -> serves n' K' s w r.
Proof.
  intros Hle Hst [? (K0 & Hh & H0) ? ? ? ? ? ? ?]. split; try done. exists K0. split; [|by etransitivity].
  induction Hle; [done|]. apply IHHle. by apply ks_weaken.
Qed.
Lemma wp_weaken {A} (m : M A) n n' K K' s w (Q : A -> nat -> gmap bytes entry -> StringOutput -> Trail -> Prop) :
  (n' <= n)%nat -> stands now K K' -> wp m n' K' s w Q -> wp m n K s w Q.
Proof. intros Hle Hst H r Hr. by apply H, (serves_weaken n n' K K'). Qed.

(** [m] replies [b] and turns [K] into [K'], with at most [cost] writes; and
    unless it logs the command, [K] is what it was. *)
Definition went (raw : bytes) (n : nat) w K (b : bytes) K' (n1 : nat) (K1 : gmap bytes entry) (w1 : Trail) : Prop :=
  (n <= n1)%nat /\ stands now K1 K' /\ (w1 = says w b /\ K' = K \/ w1 = jots now tx raw (says w b)).
Definition yields (raw : bytes) (cost : nat) K (m : M unit) (b : bytes) (K' : gmap bytes entry) : Prop := forall n s w,
  wp m (cost + n) K s w (fun _ n1 K1 _ w1 => went raw n w K b K' n1 K1 w1).
(** [m] only replies. *)
Definition utters K (m : M unit) (b : bytes) : Prop := forall n s w,
  wp m n K s w (fun _ n1 K1 _ w1 => n1 = n /\ K1 = K /\ w1 = says w b).

Lemma utters_seq K m1 m2 b1 b2 : utters K m1 b1 -> utters K m2 b2 -> utters K (m1 ;; m2) (b1 ++ b2).
Proof.
  intros H1 H2 n s w. apply wp_bind. eapply wp_mono; [apply H1|]. intros [] n1 K1 s1 w1 (-> & -> & ->).
  rewrite <- says_app. apply H2.
Qed.
Lemma utters_yields raw K m b : utters K m b -> yields raw 0 K m b K.
Proof. intros H n s w. eapply wp_mono; [apply H|]. intros [] n1 K1 s1 w1 (-> & -> & ->). split_and!; [done|reflexivity|by left]. Qed.
Lemma yields_cost raw c c' K m b K' : (c <= c')%nat -> yields raw c K m b K' -> yields raw c' K m b K'.
Proof. intros Hle H n s w. eapply wp_weaken; [|reflexivity|apply H]. lia. Qed.
End At.

Ltac step := lazymatch goal with
  | |- wp _ _ (mbind _ _) _ _ _ _ _ => apply wp_bind
  | |- wp _ _ (mret _) _ _ _ _ _ => apply wp_ret
  | |- wp _ _ (gets r_now) _ _ _ _ _ => apply wp_now
  | |- wp _ _ (gets out_scratch) _ _ _ _ _ => apply wp_scratch
  | |- wp _ _ clear_scratch _ _ _ _ _ => apply wp_clear
  | |- wp _ _ (emit _) _ _ _ _ _ => apply wp_emit
  | |- wp _ _ (emit_bulk _) _ _ _ _ _ => apply wp_emit_bulk
  | |- wp _ _ (emit_int _) _ _ _ _ _ => apply wp_emit_int
  | |- wp _ _ (emit_error _) _ _ _ _ _ => apply wp_emit_error
  | |- wp _ _ (emit_simple _) _ _ _ _ _ => apply wp_emit_simple
  | |- wp _ _ (emit_array _) _ _ _ _ _ => apply wp_emit_array
  | |- wp _ _ (after_write _ _) _ _ _ _ _ => apply wp_after_write
  | |- wp _ _ (log_write _) _ _ _ _ _ => apply wp_log_write
  | |- wp _ _ (bump_watch _) _ _ _ _ _ => apply wp_bump
  | |- wp _ _ (when true _) _ _ _ _ _ => cbn [when]
  | |- wp _ _ (when false _) _ _ _ _ _ => cbn [when]
  | |- wp _ _ (store_read _ _) _ _ _ _ _ => apply wp_read; [|reflexivity|]
  | |- wp _ _ (store_upsert _ _) _ _ _ _ _ => apply wp_upsert; [| |intros ? Hst]
  | |- wp _ _ (store_rmw _ _) _ _ _ _ _ => apply wp_rmw; [|reflexivity|reflexivity| |intros st x o Ho]
  end.
Ltac steps := repeat (step; cbv beta zeta).

Section Handlers.
Context (now : Z) (Hnow : is_i64 now) (tx : Mode) (raw : bytes).
Implicit Types (b : bytes) (args : list bytes).

(** *** Reads *)

Lemma zero_i64 : is_i64 0. Proof. done. Qed.
#[local] Hint Resolve zero_i64 : core.
Lemma make_ok o v d e : is_i64 d -> is_i64 e -> match o with GetRange a b => is_i64 a /\ is_i64 b | _ => True end ->
  input_ok (Input o v d e now).
Proof. by intros. Qed.
Ltac input := apply make_ok; auto.

Ltac reads k := intros n s w; unfold live; steps; [input|]; unfold read_result; cbn [now_ms input_read input_simple];
  destruct (seen now (_ !! k)) as [[v e]|]; cbn [fst snd]; steps.
Ltac finish := split_and!; [lia|reflexivity|first [by left|by right]].

Lemma utters_get K k : utters now tx K (cmd_get k) (answer_get now K k).
Proof. unfold cmd_get, answer_get. reads k; done. Qed.
Lemma yields_get K k : yields now tx raw 0 K (cmd_get k) (answer_get now K k) K.
Proof. apply utters_yields, utters_get. Qed.
Lemma yields_strlen K k : yields now tx raw 0 K (cmd_read_int k Strlen)
  (int_ (if live now K k is Some e then Z.of_nat (length (fst e)) else 0)) K.
Proof. unfold cmd_read_int. reads k; finish. Qed.
Lemma yields_getrange K k (a b : bytes) : yields now tx raw 0 K (cmd_getrange k a b) (answer_getrange now K k a b) K.
Proof.
  unfold cmd_getrange, answer_getrange. destruct (parse_i64 a) as [x|] eqn:Ex; [|intros n s w; steps; finish].
  destruct (parse_i64 b) as [y|] eqn:Ey; [|intros n s w; steps; finish].
  intros n s w. unfold live. steps; [input; by split; eapply parse_i64_range|]. unfold read_result; cbn [now_ms input_read input_simple].
  destruct (seen now (K !! k)) as [[v e]|]; cbn [fst snd read_reply op input_read input_simple].
  - destruct (range_bounds _ _ _) as [i j]. steps. finish.
  - steps. assert (Hz : range_bounds x y 0 = (0%nat, 0%nat)) by done. cbn [length]. rewrite Hz. finish.
Qed.
Lemma yields_ttl K k ms : yields now tx raw 0 K (cmd_ttl k ms) (answer_ttl now K k ms) K.
Proof. unfold cmd_ttl, answer_ttl. reads k; finish. Qed.
Lemma yields_type K k : yields now tx raw 0 K (cmd_type k) (if live now K k is Some _ then simple "string" else simple "none") K.
Proof. unfold cmd_type. reads k; case_bool_decide; try done; steps; finish. Qed.

(** *** Blind writes *)

Lemma yields_setex K k (t v : bytes) ms b K' : room_for k (length v) -> answer_setex now K k t v ms = Some (b, K') ->
  yields now tx raw 1 K (cmd_setex raw k t v ms) b K'.
Proof.
  intros Hr. unfold cmd_setex, answer_setex. destruct (_ ← parse_i64 t; _) as [z|]; intros [= <- <-] n s w; steps; try finish.
  - input. apply wrap_i64_range.
  - done.
Qed.

(** *** Read-modify-writes *)

Lemma outcome_cases i v st x o : rmw_outcome i v st x o ->
  match seen (now_ms i) v with
  | Some e =>
      (exists nv nt o0, spec_value i (fst e) = Some nv /\ nt ∈ ttl_after i (snd e) /\
         (st = InPlaceUpdated \/ st = CopyUpdated) /\ x = Some (nv, nt) /\ o = spec_reply i (fst e) o0) \/
      ((op i = SetNx \/ op i = Persist /\ snd e = 0 \/ op i = IncrBy /\ incr_result i (fst e) = None) /\
         (st = Found \/ st = Canceled) /\ x = v) \/
      (op i = GetDel /\ st = Deleted /\ x = None /\ exists o0, o = set_bytes o0 (fst e))
  | None =>
      (needs_key i = true /\ (st = NotFound \/ st = Canceled) /\ (x = v \/ x = None)) \/
      (needs_key i = false /\ (st = Created \/ is_Some v /\ st = CopyUpdated) /\
         x = Some (initial_value i, in_expiration i) /\
         exists o0, o = initial_reply i o0 /\ (is_set_get (op i) = true -> has_bytes o0 = false /\ st = Created)) \/
      (is_Some v /\ (op i = GetEx \/ is_set_get (op i) = true))
  end.
Proof.
  intros [v' e nv nt st' o0 Hl Hx Hin Hst|v' e st' o0 Hl Hk Hst|v' e o0 Hl Hop|v' x' st' o0 [Hl Hab] Hn Hst|
    v' st' o0 Hl Hn Hst Hg|v' o0 Hs Hl Hop|v' o0 Hs Hl Hop]; rewrite Hl.
  - left. by exists nv, nt, o0.
  - right. by left.
  - do 2 right. split_and!; eauto.
  - by left.
  - right. left. split_and!; eauto.
  - do 2 right. auto.
  - do 2 right. auto.
Qed.
(** By whether the key is live and what became of it. *)
Ltac outcomes Ho K k := apply outcome_cases in Ho; cbn [now_ms input_read input_simple] in Ho;
  let El := fresh "Hl" in destruct (seen now (K !! k)) as [[v1 ttl]|] eqn:El; cbn [fst snd] in Ho;
  [destruct Ho as [(nv & nt & o0 & Hx & Hin & Hst & -> & ->)|[(Hk & Hst & ->)|(Hop & -> & -> & o0 & ->)]]
  |destruct Ho as [(Hn & Hst & Hab)|[(Hn & Hst & -> & o0 & -> & Hg)|(Hv & Hop)]]]; try discriminate;
  
  try match goal with H : _ \/ _ /\ _ \/ _ |- _ => by destruct H as [?|[[??]|[??]]] end;
  try match goal with H : op _ = _ \/ _ |- _ => by destruct H end.

Lemma lingering_absent K k : lingering now K k = false -> seen now (K !! k) = None -> K !! k = None.
Proof. unfold lingering, seen. destruct (K !! k) as [e|]; [|done]. cbn [mbind option_bind]. by intros ->. Qed.
Ltac decided := repeat case_bool_decide; try discriminate; try done; cbn [when is_updated]; steps.

Lemma yields_setnx K k v b K' : room_for k (need (input_simple SetNx v now) (K !! k)) ->
  answer_setnx now K k v = Some (b, K') -> yields now tx raw 1 K (cmd_setnx raw k v) b K'.
Proof.
  intros Hr. unfold answer_setnx, cmd_setnx, live. destruct (lingering now K k) eqn:El; [done|].
  intros Ha n s w. steps; [input|done|]. outcomes Ho K k; injection Ha as <- <-.
  - rewrite bind_same. destruct Hst as [->| ->]; decided; finish.
  - destruct Hst as [->|[[e He] _]]; [|by rewrite (lingering_absent K k El Hl) in He]. decided; finish.
Qed.

Lemma ttl_same i old t x : ttl_after i old = [t; t] -> x ∈ ttl_after i old -> x = t.
Proof. by intros -> [->|[->|[]%not_elem_of_nil]%elem_of_cons]%elem_of_cons. Qed.
Lemma next_ttl_only i keep old t x :
  match op i with SetXx | SetGet false => keep = false | SetKeepTtl | SetGet true => keep = true | _ => False end ->
  next_ttl keep (in_expiration i) old = Some t -> x ∈ ttl_after i old -> x = t.
Proof.
  intros Hop Hn Hx. apply (ttl_same i old t) in Hx; [done|]. unfold next_ttl, ttl_after, spec_ttl in *.
  destruct (op i) as [| | | | | | | |[]| | | | | | | |]; try done; subst keep;
    destruct (Z.eqb_spec (in_expiration i) 0) as [E|]; cbn [negb]; try done; try (by injection Hn as <-).
  all: destruct (Z.eqb_spec old 0) as [->|]; [|done]; injection Hn as <-; congruence.
Qed.
Ltac status st b := replace (is_updated st) with b by
  match goal with H : st = _ \/ _ |- _ => by destruct H as [->|H]; [|first [rewrite H|destruct H as [_ H]; rewrite H]] end.

Lemma yields_getdel K k : room_for k (need (input_read GetDel now) (K !! k)) ->
  yields now tx raw 1 K (cmd_getdel raw k) (fst (answer_getdel now K k)) (snd (answer_getdel now K k)).
Proof.
  intros Hr. unfold answer_getdel, cmd_getdel, live. intros n s w. steps; [input|done|]. outcomes Ho K k.
  - decided. finish.
  - destruct Hst as [->| ->]; decided; (split_and!; [lia|by apply stands_absent|by left]).
Qed.

Lemma yields_incr K k d b K' : is_i64 d -> room_for k (need (Input IncrBy [] d 0 now) (K !! k)) ->
  answer_incr now K k d = Some (b, K') -> yields now tx raw 1 K (cmd_incr raw k d) b K'.
Proof.
  intros Hd Hr Ha n s w. unfold cmd_incr. steps; [input|done|]. unfold answer_incr, live in Ha. outcomes Ho K k.
  - unfold spec_value, incr_result in Hx. cbn [op delta] in Hx.
    destruct (parse_i64 v1) as [cur|] eqn:Ev; [|done]. cbn [mbind option_bind] in Hx, Ha.
    destruct (checked_i64 (cur + d)) as [m|] eqn:Em; [|done]. cbn [mbind option_bind] in Hx, Ha. rewrite Hx in Ha.
    injection Ha as <- <-. apply (ttl_same _ _ ttl) in Hin as ->; [|done]. status st true. steps.
    unfold spec_reply, incr_result. cbn [op delta]. rewrite Ev. cbn [mbind option_bind]. rewrite Em. finish.
  - destruct Hk as [?|[[? _]|[_ Hk]]]; [done..|]. unfold incr_result in Hk. cbn [fst delta] in Hk.
    rewrite Hk in Ha. injection Ha as <- <-. rewrite bind_same. status st false. steps. finish.
  - cbn [mbind option_bind] in Ha. rewrite Z.add_0_l in Ha. unfold checked_i64 in Ha.
    rewrite (proj2 (in_i64_spec d) Hd) in Ha. destruct (I64Buf_fmt d) as [v|] eqn:Ev; [|done]. injection Ha as <- <-.
    status st true. unfold initial_value. cbn [op delta in_expiration]. rewrite Ev. steps. finish.
Qed.

Lemma yields_append K k v : room_for k (need (Input Append v 0 0 now) (K !! k)) ->
  yields now tx raw 1 K (cmd_rmw_int raw k Append v 0) (fst (answer_edit now K k (fun x => x ++ v)))
    (snd (answer_edit now K k (fun x => x ++ v))).
Proof.
  intros Hr n s w. unfold cmd_rmw_int, answer_edit, live. steps; [input|done|]. outcomes Ho K k.
  - apply (ttl_same _ _ ttl) in Hin as ->; [|done]. injection Hx as <-. status st true. steps. cbn. rewrite length_app. finish.
  - status st true. steps. finish.
Qed.
Lemma yields_setrange K k (t v : bytes) :
  (forall o, parse_i64 t = Some o -> room_for k (need (Input (SetRange (Z.to_nat o)) v 0 0 now) (K !! k))) ->
  yields now tx raw 1 K (cmd_setrange raw k t v) (fst (answer_setrange now K k t v)) (snd (answer_setrange now K k t v)).
Proof.
  intros Hr n s w. unfold cmd_setrange, answer_setrange. destruct (parse_i64 t) as [z|]; cbn [mbind option_bind]; [|steps; finish].
  destruct (0 <=? z); [|steps; finish]. specialize (Hr z eq_refl).
  unfold cmd_rmw_int, answer_edit, live. steps; [input|done|]. outcomes Ho K k.
  - apply (ttl_same _ _ ttl) in Hin as ->; [|done]. injection Hx as <-. status st true. steps. cbn. rewrite length_setrange. finish.
  - status st true. steps. cbn [default fst snd]. rewrite length_setrange. cbn [length]. rewrite Nat.max_0_r. finish.
Qed.

Lemma yields_expire K k (t : bytes) u at_ : room_for k (need (Input Expire [] 0 0 now) (K !! k)) ->
  yields now tx raw 1 K (cmd_expire raw k t u at_) (fst (answer_expire now K k t u at_)) (snd (answer_expire now K k t u at_)).
Proof.
  intros Hr n s w. unfold cmd_expire, answer_expire, live. destruct (parse_i64 t) as [z|]; [|steps; finish].
  steps; [input; destruct at_; apply wrap_i64_range|exact Hr|]. outcomes Ho K k.
  - eapply ttl_same in Hin as ->; [|reflexivity]. injection Hx as <-. status st true. steps. finish.
  - status st false. steps. split_and!; [lia|by apply stands_absent|by left].
Qed.

Lemma yields_persist K k b K' : room_for k (need (Input Persist [] 0 0 now) (K !! k)) ->
  answer_persist now K k = Some (b, K') -> yields now tx raw 1 K (cmd_persist raw k) b K'.
Proof.
  intros Hr Ha n s w. unfold cmd_persist, answer_persist, live in *. steps; [input|exact Hr|]. outcomes Ho K k.
  - apply (ttl_same _ _ 0) in Hin as ->; [|done]. injection Hx as <-. status st true. cbn [int has_int spec_reply set_int op andb Z.eqb Pos.eqb].
    destruct (ttl =? 0); [done|]. injection Ha as <- <-. steps. finish.
  - destruct Hk as [?|[[_ Ht]|[? _]]]; [done| |done]. rewrite Ht in Ha. done.
  - injection Ha as <- <-. status st false. cbn [andb]. steps. split_and!; [lia|by apply stands_absent|by left].
Qed.

Lemma is_i64_expire kw t : is_i64 t -> is_i64 (expire_at_ms kw t now).
Proof. intros Ht. unfold expire_at_ms. repeat case_match; try apply wrap_i64_range. done. Qed.
Lemma parse_set_opts_range opts o : parse_set_opts opts now = inr o -> is_i64 (so_expiration o).
Proof.
  unfold parse_set_opts.
  enough (H : forall m opts o0, (length opts < m)%nat -> is_i64 (so_expiration o0) -> parse_set_opts_loop opts now o0 = inr o -> is_i64 (so_expiration o))
    by (by apply (H (S (length opts))); [lia|]).
  induction m as [|m IH]; intros [|opt l] o0 Hm Ho; try (simpl in Hm; lia); cbn [parse_set_opts_loop].
  { destruct (_ && _); [done|]. by intros [= <-]. }
  simpl in Hm. do 4 (destruct (eq_ignore_ascii_case _ _); [apply IH; [lia|done]|]).
  destruct (is_expiry_keyword opt); [|done]. destruct l as [|arg l]; [done|]. destruct (parse_i64 arg) as [t|] eqn:Et; [|done].
  apply IH; [simpl in Hm; lia|]. apply is_i64_expire. by eapply parse_i64_range.
Qed.
Lemma getex_opts_range opts e : getex_opts opts now 0 = inr e -> is_i64 e.
Proof.
  enough (H : forall m opts e0, (length opts < m)%nat -> is_i64 e0 -> getex_opts opts now e0 = inr e -> is_i64 e)
    by (by apply (H (S (length opts))); [lia|]).
  induction m as [|m IH]; intros [|opt l] e0 Hm He; try (simpl in Hm; lia); cbn [getex_opts]; [by intros [= <-]|].
  simpl in Hm. destruct (eq_ignore_ascii_case _ _); [apply IH; [lia|done]|]. destruct l as [|arg l]; [done|].
  destruct (is_expiry_keyword opt); [|done]. destruct (parse_i64 arg) as [t|] eqn:Et; [|done].
  apply IH; [simpl in Hm; lia|]. apply is_i64_expire. by eapply parse_i64_range.
Qed.

Lemma yields_getex K name k opts b K' : opts <> [] -> room_for k (need (Input GetEx [] 0 0 now) (K !! k)) ->
  answer_getex now K k opts = Some (b, K') -> yields now tx raw 1 K (cmd_getex raw (name :: k :: opts)) b K'.
Proof.
  intros Hne Hr Ha n s w. unfold cmd_getex, answer_getex, live in *. destruct opts as [|opt opts]; [done|].
  step. step. pose proof (getex_opts_range (opt :: opts)) as He. destruct (getex_opts _ _ _) as [e|e].
  { steps. injection Ha as <- <-. finish. }
  destruct (lingering now K k) eqn:El; [done|]. steps; [input|exact Hr|]. outcomes Ho K k.
  - eapply ttl_same in Hin as ->; [|reflexivity]. injection Hx as <-. injection Ha as <- <-. status st true. steps. finish.
  - injection Ha as <- <-. status st false. steps. split_and!; [lia|by apply stands_absent|by left].
  - by rewrite (lingering_absent K k El Hl) in Hv; destruct Hv.
Qed.

Lemma yields_set K name k v opts b K' : room_for k (length v) -> room_for k (need (Input Set_ v 0 0 now) (K !! k)) ->
  match parse_set_opts opts now with inl e => Some (err e, K) | inr o => answer_set now K k v o end = Some (b, K') ->
  yields now tx raw 1 K (cmd_set raw (name :: k :: v :: opts)) b K'.
Proof.
  intros Hr0 Hr Ha n s w. unfold cmd_set, answer_set, live in *. step. step.
  pose proof (parse_set_opts_range opts) as Hexp. destruct (parse_set_opts opts now) as [e|[e nx xx get keep]].
  { steps. injection Ha as <- <-. finish. }
  specialize (Hexp _ eq_refl). cbn [so_expiration so_nx so_xx so_get so_keep_ttl set_op] in *.
  destruct get; [|destruct nx; [|destruct xx; [|destruct keep]]]; cbv zeta; unfold set_op;
    cbn [so_expiration so_nx so_xx so_get so_keep_ttl]; rewrite ?bool_decide_false by done; cbn [orb].
  - destruct (lingering now K k) eqn:El; [done|]. steps; [input|exact Hr|]. outcomes Ho K k.
    + destruct (next_ttl keep e ttl) as [t|] eqn:En; [|done]. injection Ha as <- <-. injection Hx as <-.
      eapply (next_ttl_only _ keep) in Hin as ->; [|by destruct keep|exact En]. cbn [has_bytes spec_reply set_bytes op].
      status st true. steps. finish.
    + injection Ha as <- <-. destruct Hg as [Hg ->]; [done|]. cbn [initial_reply op]. rewrite Hg. decided. finish.
    + by rewrite (lingering_absent K k El Hl) in Hv; destruct Hv.
  - steps; [input|exact Hr|]. outcomes Ho K k; injection Ha as <- <-.
    + rewrite bind_same. status st false. decided. finish.
    + status st true. decided. finish.
  - steps; [input|exact Hr|]. outcomes Ho K k.
    + destruct (next_ttl false e ttl) as [t|] eqn:En; [|done]. injection Ha as <- <-. injection Hx as <-.
      eapply (next_ttl_only _ false) in Hin as ->; [|done|exact En]. status st true. decided. finish.
    + injection Ha as <- <-. status st false. decided. split_and!; [lia|by apply stands_absent|by left].
  - steps; [input|exact Hr|]. outcomes Ho K k.
    + destruct (next_ttl true e ttl) as [t|] eqn:En; [|done]. injection Ha as <- <-. injection Hx as <-.
      eapply (next_ttl_only _ true) in Hin as ->; [|done|exact En]. status st true. decided. finish.
    + injection Ha as <- <-. status st true. decided. finish.
  - rewrite !bool_decide_true by done. injection Ha as <- <-. steps; [input|done|]. status st true. cbn [orb]. steps. finish.
Qed.

Lemma yields_getset K k v b K' : room_for k (need (Input (SetGet false) v 0 0 now) (K !! k)) ->
  answer_set now K k v (MkOpts 0 false false true false) = Some (b, K') -> yields now tx raw 1 K (cmd_getset raw k v) b K'.
Proof.
  intros Hr Ha n s w. unfold cmd_getset, answer_set, live in *. cbn [so_get so_expiration so_keep_ttl] in Ha.
  destruct (lingering now K k) eqn:El; [done|]. steps; [input|exact Hr|]. outcomes Ho K k.
  - destruct (next_ttl false 0 ttl) as [t|] eqn:En; [|done]. injection Ha as <- <-. injection Hx as <-.
    eapply (next_ttl_only _ false) in Hin as ->; [|done|exact En]. cbn [has_bytes spec_reply set_bytes op input_simple]. steps. finish.
  - injection Ha as <- <-. destruct Hg as [Hg ->]; [done|]. cbn [initial_reply op input_simple]. rewrite Hg. steps. finish.
  - by rewrite (lingering_absent K k El Hl) in Hv; destruct Hv.
Qed.

(** *** Several keys *)

Lemma utters_mget K keys : utters now tx K (for_each cmd_get keys) (concat (map (answer_get now K) keys)).
Proof.
  induction keys as [|k keys IH]; cbn [for_each map concat].
  - intros n s w. steps. by rewrite says_nil.
  - apply utters_seq; [apply utters_get|exact IH].
Qed.

Lemma wp_exists K keys : forall c n s w (Q : Z -> nat -> gmap bytes entry -> StringOutput -> Trail -> Prop),
  (forall s, Q (count_live now K keys c) n K s w) -> wp now tx (count_keys exists_one keys c) n K s w Q.
Proof.
  induction keys as [|k keys IH]; intros c n s w Q HQ; cbn [count_keys count_live] in *; [by apply wp_ret|].
  unfold exists_one. steps; [input|]. unfold read_result, live in *. cbn [now_ms input_read input_simple].
  destruct (seen now (K !! k)) as [e|]; cbn [fst snd]; case_bool_decide; try done; by apply IH.
Qed.

Lemma wp_del K' keys : forall K c m n s w (Q : Z -> nat -> gmap bytes entry -> StringOutput -> Trail -> Prop),
  (forall k, k ∈ keys -> room_for k 0) -> del_keys now K keys c = Some (m, K') ->
  (forall s, Q m n K' s w) -> wp now tx (count_keys del_one keys c) (length keys + n) K s w Q.
Proof.
  induction keys as [|k keys IH]; intros K c m n s w Q Hr Hd HQ; cbn [count_keys del_keys length Nat.add] in *.
  { injection Hd as <- <-. by apply wp_ret. }
  destruct (lingering now K k) eqn:El; [done|]. apply wp_bind. unfold del_one. apply wp_bind. apply wp_delete; [done|apply Hr; by left|].
  destruct (K !! k) as [e|] eqn:Ek; case_bool_decide; try done; steps; (eapply IH; [intros; apply Hr; by right|exact Hd|exact HQ]).
Qed.
Lemma del_keys_counts K' keys : forall K c m, del_keys now K keys c = Some (m, K') -> c <= m /\ (m = c -> K' = K).
Proof.
  induction keys as [|k keys IH]; intros K c m; cbn [del_keys]; [by intros [= <- <-]|].
  destruct (lingering now K k); [done|]. intros [Hle He]%IH. destruct (K !! k) eqn:Ek; [split; [lia|intros ->; lia]|].
  split; [done|]. intros ->. rewrite He by done. by apply delete_id.
Qed.
Lemma yields_del K args b K' : (forall k, k ∈ tail args -> room_for k 0) ->
  ('(n, K1) ← del_keys now K (tail args) 0; Some (int_ n, K1)) = Some (b, K') ->
  yields now tx raw (length (tail args)) K (cmd_del raw args) b K'.
Proof.
  intros Hr Ha n s w. destruct (del_keys now K (tail args) 0) as [[m K1]|] eqn:Ed; [|done]. injection Ha as <- <-.
  unfold cmd_del. step. eapply wp_del; [exact Hr|exact Ed|]. intros s1. steps. pose proof (del_keys_counts _ _ _ _ _ Ed) as [Hm He]. unfold when.
  destruct (Z.ltb_spec 0 m); steps; [finish|]. rewrite He by lia. finish.
Qed.

Lemma wp_mset_pairs m : forall K args n s w, (length args < m)%nat -> (forall k, k ∈ pair_keys args -> room_for k (sum_list_with length args)) ->
  wp now tx (mset_pairs args) (length args + n) K s w (fun _ n1 K1 _ w1 => (n <= n1)%nat /\ stands now K1 (set_pairs K args) /\ w1 = w).
Proof.
  induction m as [|m IH]; intros K [|k [|v args]] n s w Hm Hr; cbn [length mset_pairs set_pairs] in *; try lia;
    try (steps; split_and!; [lia|reflexivity|done]).
  steps; [input|eapply ks_room; [|apply (Hr k); by left]; simpl; lia|].
  eapply (wp_weaken _ _ _ _ (length args + n)); [exact (Nat.le_succ_diag_r _)|reflexivity|apply IH; [lia|]].
  intros k' Hk'. eapply ks_room; [|apply Hr; by right]. simpl. lia.
Qed.

(** *** A command *)

Definition step_post n w K b K' (a : Action) (n1 : nat) (K1 : gmap bytes entry) (_ : StringOutput) (w1 : Trail) : Prop :=
  a = Continue /\ went now tx raw n w K b K' n1 K1 w1.

Lemma go_does c len K m b K' : (c <= len)%nat -> yields now tx raw c K m b K' -> forall n s w,
  wp now tx (m ;; mret Continue) (len + n) K s w (step_post n w K b K').
Proof.
  intros Hc H n s w. apply (yields_cost now tx raw c len) in H; [|done]. step. eapply wp_mono; [apply H|].
  intros [] n1 K1 s1 w1 Hpost. by apply wp_ret.
Qed.
Lemma yields_emit K m b : (forall n s w Q, Q tt n K s (says w b) -> wp now tx m n K s w Q) -> yields now tx raw 0 K m b K.
Proof. intros H n s w. apply H. finish. Qed.
Lemma yields_unknown K args : yields now tx raw 0 K (cmd_unknown (default [] (head args))) (answer_unknown args) K.
Proof. apply yields_emit. intros. by apply wp_emit_error. Qed.
Lemma yields_hello K : yields now tx raw 0 K cmd_hello
  (header 6 ++ bulk (bs "server") ++ bulk (bs "mini-garnet") ++ bulk (bs "version") ++ bulk (bs "0.1.0") ++
   bulk (bs "proto") ++ int_ 2) K.
Proof. intros n s w. unfold cmd_hello. steps. rewrite !says_app. finish. Qed.
Lemma yields_mget_all K args : yields now tx raw 0 K (cmd_mget args) (header (length args - 1) ++ concat (map (answer_get now K) (tail args))) K.
Proof. apply utters_yields, utters_seq; [|apply utters_mget]. intros n s w. steps. done. Qed.
Lemma yields_exists K args : yields now tx raw 0 K (cmd_exists args) (int_ (count_live now K (tail args) 0)) K.
Proof. intros n s w. unfold cmd_exists. step. apply wp_exists. intros s1. steps. finish. Qed.
Lemma yields_mset K args : (forall k, k ∈ pair_keys (tail args) -> room_for k (sum_list_with length (tail args))) ->
  yields now tx raw (length (tail args)) K (cmd_mset raw args) OK (set_pairs K (tail args)).
Proof.
  intros Hr n s w. unfold cmd_mset. step. eapply wp_mono; [by apply (wp_mset_pairs (S (length (tail args)))); [lia|]|].
  intros [] n1 K1 s1 w1 (Hn & Hst & ->). steps. split_and!; [done|done|by right].
Qed.

Lemma one_key cmd args : one_of cmd ["MGET"; "EXISTS"; "DEL"; "UNLINK"; "MSET"]%string = false ->
  request_keys cmd args = take 1 (tail args).
Proof.
  unfold request_keys, one_of. cbn [existsb]. rewrite !orb_false_iff. intros (-> & -> & -> & -> & -> & _). done.
Qed.

Lemma yields_pair (c : nat) K (m : M unit) (p : bytes * gmap bytes entry) b K' : yields now tx raw c K m (fst p) (snd p) -> Some p = Some (b, K') ->
  yields now tx raw c K m b K'.
Proof. by intros H [= ->]. Qed.

(** One key, and room for it: what a handler's lemma asks for. *)
Ltac named E := unfold cmd_is in E; repeat rewrite orb_true_iff in E; rewrite ?bool_decide_eq_true in E;
  first [destruct E as [E|E]|idtac]; subst.
Ltac shapes := repeat match goal with
  | |- context [match ?l with [] => _ | _ => _ end] => is_var l; destruct l
  | |- match parse_i64 ?d with _ => _ end = Some _ -> _ => destruct (parse_i64 d) eqn:?
  | |- (if (_ <=? _)%nat then _ else _) = Some _ -> _ => destruct (_ <=? _)%nat
  | |- (if (_ <=? _)%nat && ?b then _ else _) = Some _ -> _ => destruct ((_ <=? _)%nat && b)
  end.
Ltac single E Hroom := rewrite one_key; [by left|by named E].
Ltac room E Hroom := eapply ks_room; [|apply Hroom; single E Hroom]; unfold need, request_size; simpl; lia.
Ltac handler E Hroom :=
  lazymatch goal with
  | |- yields _ _ _ _ _ (cmd_get _) _ _ => apply yields_get
  | |- yields _ _ _ _ _ (cmd_read_int _ _) _ _ => apply yields_strlen
  | |- yields _ _ _ _ _ (cmd_getrange _ _ _) _ _ => apply yields_getrange
  | |- yields _ _ _ _ _ (cmd_ttl _ _) _ _ => apply yields_ttl
  | |- yields _ _ _ _ _ (cmd_type _) _ _ => apply yields_type
  | |- yields _ _ _ _ _ cmd_hello _ _ => apply yields_hello
  | |- yields _ _ _ _ _ (cmd_unknown _) _ _ => apply yields_unknown
  | |- yields _ _ _ _ _ (cmd_mget _) _ _ => apply yields_mget_all
  | |- yields _ _ _ _ _ (cmd_exists _) _ _ => apply yields_exists
  | |- yields _ _ _ _ _ (cmd_mset _ _) _ _ => apply yields_mset
  | |- yields _ _ _ _ _ (cmd_del _ _) _ _ => eapply yields_del; [|eassumption]
  | |- yields _ _ _ _ _ (cmd_setex _ _ _ _ _) _ _ => eapply yields_setex; [room E Hroom|eassumption]
  | |- yields _ _ _ _ _ (cmd_setnx _ _ _) _ _ => eapply yields_setnx; [room E Hroom|eassumption]
  | |- yields _ _ _ _ _ (cmd_getset _ _ _) _ _ => eapply yields_getset; [room E Hroom|eassumption]
  | |- yields _ _ _ _ _ (cmd_persist _ _) _ _ => eapply yields_persist; [room E Hroom|eassumption]
  | |- yields _ _ _ _ _ (cmd_set _ (_ :: _ :: _ :: _)) _ _ => eapply yields_set; [room E Hroom|room E Hroom|eassumption]
  | |- yields _ _ _ _ _ (cmd_getex _ [_; _]) _ _ => apply yields_get
  | |- yields _ _ _ _ _ (cmd_getex _ _) _ _ => eapply yields_getex; [done|room E Hroom|eassumption]
  | |- yields _ _ _ _ _ (cmd_incr _ _ _) _ _ =>
      eapply yields_incr; [first [done|by eapply parse_i64_range|apply wrap_i64_range]|room E Hroom|eassumption]
  | |- yields _ _ _ _ _ (cmd_getdel _ _) _ _ => eapply yields_pair; [apply yields_getdel; room E Hroom|eassumption]
  | |- yields _ _ _ _ _ (cmd_rmw_int _ _ _ _ _) _ _ => eapply yields_pair; [apply yields_append; room E Hroom|eassumption]
  | |- yields _ _ _ _ _ (cmd_setrange _ _ _ _) _ _ => eapply yields_pair; [apply yields_setrange|eassumption]
  | |- yields _ _ _ _ _ (cmd_expire _ _ _ _ _) _ _ => eapply yields_pair; [apply yields_expire; room E Hroom|eassumption]
  | |- _ => apply yields_emit; intros; first [by apply wp_emit|by apply wp_emit_bulk|by apply wp_emit_error]
  end.
Ltac branch E Hroom := try discriminate; shapes; try discriminate;
  intros Ha; try injection Ha as <- <-; (eapply go_does; [|handler E Hroom]; try (simpl; lia)).

Lemma step_answers clock rec cmd K args b K' n s w :
  answer now K cmd args = Some (b, K') ->
  (forall k, k ∈ request_keys cmd args -> room_for k (request_size K cmd args k)) ->
  wp now tx (exec_step clock rec cmd raw args) (length args + n) K s w (step_post n w K b K').
Proof.
  unfold exec_step, answer. cbv zeta. intros Ha Hroom. revert Ha.
  repeat (match goal with |- (if ?b then _ else _) = _ -> _ => destruct b eqn:E end; [first [branch E Hroom|shelve]; shelve|clear E]).
  { branch E Hroom. }
  Unshelve.
  - intros o Ho. eapply ks_room; [|apply Hroom; single E Hroom]. unfold need, request_size, request_offset. rewrite E, Ho. simpl. lia.
  - destruct args; simpl; lia.
  - intros k Hk. eapply ks_room; [|apply Hroom; by named E]. unfold request_size. destruct args; simpl; lia.
  - destruct args; simpl; lia.
  - intros k Hk. eapply ks_room; [|apply Hroom; by named E]. lia.
Qed.
End Handlers.
End Conversation.
