(* ===== verification/Conversation.v ===== *)
(** * A conversation with the server, from bytes to bytes

    A client sends the commands of a script over one connection, in any pieces;
    what it reads back is what the reference answers, and every command executed
    is in the log or changed nothing.  The layers meet here: the
    connection and its buffer, the RESP parser, the dispatcher and its handlers
    ([CommandsKeyspace]), and the store ([StoreKeyspace]). *)

From S2P Require Import Prelude Hash Resp RespSpec Session Functions FunctionsSpec Record Index IndexSpec Latch Epoch Log LogSpec LogLive Store StoreInv StoreRefine StoreOps Txn TxnStore Checkpoint Aof Shared Commands CommandsSpec Replay Server StoreDb Config Keyspace StoreKeyspace Answers CommandsKeyspace.

#[local] Opaque hash64.

(** The bytes a client sends for a script. *)
Definition stream_of (l : script) : bytes := concat (map (fun c => encode_command (snd c)) l).

(** Clocks do not run backwards, and commands can be framed. *)
Fixpoint timely (now : Z) (l : script) : Prop :=
  match l with
  | [] => True
  | (t, args) :: l => now <= t /\ is_i64 t /\ args <> [] /\ Z.of_nat (length args) <= 1024 * 1024 /\
      Z.of_nat (length (encode_command args)) < 2 ^ 32 /\ timely t l
  end.

(** The time of the last command. *)
Fixpoint until (now : Z) (l : script) : Z := match l with [] => now | (t, _) :: l => until t l end.
Lemma until_app now l l' : until now (l ++ l') = until (until now l) l'.
Proof. revert now. induction l as [|[t args] l IH]; intros now; cbn [app until]; [done|apply IH]. Qed.
Lemma timely_app now l l' : timely now (l ++ l') <-> timely now l /\ timely (until now l) l'.
Proof. revert now. induction l as [|[t args] l IH]; intros now; cbn [app timely until]; [tauto|]. rewrite IH. tauto. Qed.

(** The frame [raw] of a command, as EXEC takes it from its queue. *)
Definition framed (raw : bytes) (args : list bytes) : Prop := args <> [] /\ Z.of_nat (length raw) < 2 ^ 32 /\
  exists ranges, parse_ranges raw = Some ranges /\ map (fun x => slice (fst x) (snd x) raw) ranges = args.

Lemma frame_words args : (length args <= length (encode_command args))%nat /\
  Forall (fun d => (length d <= length (encode_command args))%nat) args.
Proof.
  unfold encode_command. rewrite foldl_write_bulk, length_app. set (h := length (write_array_header _ _)). clearbody h.
  enough (H : (length args <= length (foldl write_bulk [] args))%nat /\
    Forall (fun d => (length d <= length (foldl write_bulk [] args))%nat) args).
  { split; [lia|]. eapply Forall_impl; [apply H|]. cbn. lia. }
  induction args as [|a args [IH1 IH2]]; [by split; [|constructor]|]. cbn [foldl]. rewrite foldl_write_bulk, length_app. cbn [length].
  assert (length a < length (write_bulk [] a))%nat by (unfold write_bulk, crlf; rewrite !length_app; cbn [length]; lia).
  split; [lia|]. apply Forall_cons. split; [lia|]. eapply Forall_impl; [exact IH2|]. cbn. lia.
Qed.
Lemma frame_lengths args : Z.of_nat (length (encode_command args)) < 2 ^ 32 -> Forall (fun d => Z.of_nat (length d) <= i64_max) args.
Proof. intros H. eapply Forall_impl; [apply frame_words|]. unfold i64_max. cbn. lia. Qed.

Lemma encode_framed args : args <> [] -> Z.of_nat (length (encode_command args)) < 2 ^ 32 -> Z.of_nat (length args) <= 1024 * 1024 ->
  framed (encode_command args) args.
Proof.
  intros Hne Hraw Hn. pose proof (frame_lengths _ Hraw) as Hl. split; [done|]. split; [done|]. destruct (encode_parses [] args [] Hn Hl) as (sl & Ep & Ea).
  cbn [app length] in Ep, Ea. rewrite app_nil_r in Ep, Ea. unfold parse_ranges. rewrite Ep. eexists. split; [done|].
  rewrite map_map. exact Ea.
Qed.

(** No read and no command longer than this half of the receive buffer, which
    then never grows. *)
Definition FRAME : Z := 32 * 1024.
Definition small_frames (l : script) : Prop := Forall (fun x => Z.of_nat (length (encode_command (snd x))) <= FRAME) l.
Definition paced (reads : list bytes) (l : script) : Prop := small_frames l /\
  Forall (fun data => data <> [] /\ Z.of_nat (length data) <= FRAME) reads /\ concat reads = stream_of l.

Lemma small_frame args : Z.of_nat (length (encode_command args)) <= FRAME ->
  Z.of_nat (length args) <= 1024 * 1024 /\ Forall (fun d => Z.of_nat (length d) <= i64_max) args.
Proof. unfold FRAME. intros H. pose proof (frame_words args) as [Hn _]. split; [lia|]. apply frame_lengths. lia. Qed.

Lemma frame_next buf rest head sl next l : parse_command buf head = inr (Some (sl, next)) -> small_frames l ->
  drop head buf ++ rest = stream_of l -> exists l', drop next buf ++ rest = stream_of l' /\ small_frames l'.
Proof.
  intros Ep Hs E. destruct (parse_command_bounds _ _ _ _ Ep) as [Hb _].
  destruct l as [|[t args] l]; [apply app_eq_nil in E as [E%(f_equal length) _]; rewrite length_drop in E; cbn in E; lia|].
  apply Forall_cons in Hs as [Hf Hs]. cbn [snd] in Hf. destruct (small_frame _ Hf) as [Hn Hd]. exists l. split; [|done].
  set (e := encode_command args) in *. change (stream_of ((t, args) :: l)) with (e ++ stream_of l) in E.
  destruct (parse_command_more _ rest _ _ _ Ep) as (Ep' & _ & _).
  assert (Eb : buf ++ rest = take head buf ++ e ++ stream_of l) by (rewrite <- E, app_assoc; f_equal; by rewrite take_drop).
  assert (Eh : length (take head buf) = head) by (rewrite length_take; lia).
  destruct (encode_parses (take head buf) args (stream_of l) Hn Hd) as (sl' & Ep2 & _). fold e in Ep2.
  rewrite <- Eb, Eh, Ep' in Ep2. injection Ep2 as _ ->.
  rewrite <- drop_app_le by lia. rewrite Eb, app_assoc, drop_app_length'; [done|]. rewrite length_app. lia.
Qed.

Lemma frame_rest buf rest head l : parse_command buf head = inr None -> small_frames l ->
  drop head buf ++ rest = stream_of l -> Z.of_nat (length (drop head buf)) <= FRAME.
Proof.
  intros Ep Hs E. destruct l as [|[t args] l]; [apply app_eq_nil in E as [-> _]; done|].
  apply Forall_cons in Hs as [Hf Hs]. cbn [snd] in Hf. destruct (small_frame _ Hf) as [Hn Hd].
  set (e := encode_command args) in *. change (stream_of ((t, args) :: l)) with (e ++ stream_of l) in E.
  destruct (Nat.le_gt_cases (length (drop head buf)) (length e)) as [|Hgt]; [lia|]. exfalso.
  assert (Ed : drop head buf = e ++ drop (length e) (drop head buf)).
  { apply (f_equal (take (length e))) in E. rewrite take_app_le, take_app_length in E by lia.
    rewrite <- E at 1. by rewrite take_drop. }
  assert (Eh : length (take head buf) = head) by (rewrite length_take; rewrite length_drop in Hgt; lia).
  destruct (encode_parses (take head buf) args (drop (length e) (drop head buf)) Hn Hd) as (sl & Ep2 & _).
  fold e in Ep2. rewrite <- Ed, take_drop, Eh, Ep in Ep2. done.
Qed.

(** The transaction of the session, for a client's. *)
Definition txn_of (m : option (bool * list (list bytes))) (raws : list bytes) : TxnState :=
  match m with None => txn_default | Some (refused, q) => MkTxn true refused raws [] end.

(** *** The log of the commands executed

    [booked K h es K']: from the bindings [K], executing [h] leads to [K'] and the
    entries [es] say so: each command is either logged or changed nothing. *)
Inductive booked : gmap bytes entry -> list (Z * list bytes) -> list AofEntry -> gmap bytes entry -> Prop :=
  | bk_nil K : booked K [] [] K
  | bk_bracket K o ts h es K' : o <> AofCommand -> is_i64 ts -> booked K h es K' -> booked K h (Entry o ts [] :: es) K'
  | bk_noted K now raw args b K1 h es K' : is_i64 now -> framed raw args -> answer now K (name_of args) args = Some (b, K1) ->
      booked K1 h es K' -> booked K ((now, args) :: h) (Entry AofCommand now raw :: es) K'
  | bk_silent K now args b h es K' : answer now K (name_of args) args = Some (b, K) -> booked K h es K' ->
      booked K ((now, args) :: h) es K'.

Lemma booked_app K h es K1 h' es' K2 : booked K h es K1 -> booked K1 h' es' K2 -> booked K (h ++ h') (es ++ es') K2.
Proof. intros H H'. induction H; cbn [app]; [done|eapply bk_bracket; eauto|eapply bk_noted; eauto|eapply bk_silent; eauto]. Qed.
Lemma booked_after K h es K' : booked K h es K' -> bindings_after K h = Some K'.
Proof.
  induction 1 as [| |? ? ? ? ? ? ? ? ? _ _ E _ IH|? ? ? ? ? ? ? E _ IH]; cbn [bindings_after]; try done; by rewrite E.
Qed.
(** Any prefix of the entries is the log of a prefix of the commands. *)
Lemma booked_prefix K h es K' : booked K h es K' -> forall k, exists j K1, booked K (take j h) (take k es) K1.
Proof.
  induction 1 as [K|K o ts h es K' Ho Ht H IH|K now raw args b K1 h es K' Hi Hf E H IH|K now args b h es K' E H IH]; intros k.
  - exists 0%nat, K. rewrite !take_nil. constructor.
  - destruct k as [|k]; [exists 0%nat, K; constructor|]. destruct (IH k) as (j & K2 & Hb). exists j, K2. by apply bk_bracket.
  - destruct k as [|k]; [exists 0%nat, K; constructor|]. destruct (IH k) as (j & K2 & Hb). exists (S j), K2. by eapply bk_noted.
  - destruct (IH k) as (j & K2 & Hb). exists (S j), K2. by eapply bk_silent.
Qed.
Lemma booked_ok K h es K' : booked K h es K' -> Forall entry_ok es.
Proof.
  induction 1; try done; apply Forall_cons; (split; [split; cbn [payload timestamp_ms]; [|done]|done]); [done|].
  by match goal with H : framed _ _ |- _ => destruct H as (_ & ? & _) end.
Qed.

Section Conversation.
Context {D P : Type} {HDB : Database D P} {holds locked : nat -> D -> P -> gmap bytes entry -> Prop}
  {room_for : bytes -> nat -> Prop} {HK : Keyspace HDB holds room_for} {HL : Keyspace HDB locked room_for}
  {HT : Transactions HDB holds locked}.
Abbreviation Resp := (RespSession D P).
Implicit Types (r : Resp) (K : gmap bytes entry) (c : Client) (s : StringOutput) (w : Trail) (n : nat).

Abbreviation roomy := (Forall (fun x : bytes * nat => room_for (fst x) (snd x))).
Abbreviation serves := (serves (holds := holds)).

Lemma serves_later now now' (tx : Mode) n K s w r : now <= now' -> serves now tx n K s w r -> serves now' tx n K s w (with_now r now').
Proof.
  intros Hle [? (K0 & Hh & Hst) ? ? ? ? ? ? ?]. split; try done. exists K0. split; [done|by eapply stands_later].
Qed.
Lemma serves_txn now t t' rep log n K s w r : serves now (MkMode t rep log) n K s w r ->
  serves now (MkMode t' rep log) n K s w (with_txn r t').
Proof. intros [? ? ? ? ? ? ? ? ?]. by split. Qed.

Lemma command_roomy K args : roomy (command_demands K args) ->
  forall k, k ∈ request_keys (name_of args) args -> room_for k (request_size K (name_of args) args k).
Proof. unfold command_demands. rewrite Forall_map, Forall_forall. cbn [fst snd]. auto. Qed.

(** *** The queue of a transaction *)

Lemma queued_yields now tx raw args K b K' : is_i64 now -> framed raw args -> answer now K (name_of args) args = Some (b, K') ->
  roomy (command_demands K args) -> yields (holds := locked) now tx raw (length args) K (exec_queued (exec_command 1 now) raw) b K'.
Proof.
  intros Hi (Hne & _ & ranges & Ep & Ea) Hans Hr n s w. unfold exec_queued. rewrite Ep. cbv zeta. rewrite Ea.
  destruct args as [|first args]; [done|]. apply wp_bind.
  eapply wp_mono; [exact (step_answers now Hi tx raw _ _ _ _ _ _ _ n s w Hans (command_roomy _ _ Hr))|].
  intros a n1 K1 s1 w1 (-> & Hpost). by apply wp_ret.
Qed.

Lemma notes_nil w : notes w [] = w.
Proof. unfold notes. rewrite app_nil_r. by destruct w. Qed.
(** What a command that is not replayed leaves in the log. *)
Lemma went_booked now t log raw args n w K b K' n1 K1 w1 : went now (MkMode t false log) raw n w K b K' n1 K1 w1 ->
  is_i64 now -> framed raw args -> answer now K (name_of args) args = Some (b, K') ->
  (n <= n1)%nat /\ stands now K1 K' /\ exists es, w1 = notes (says w b) es /\ booked K [(now, args)] es K'.
Proof.
  intros (Hn & Hst & Hw) Hi Hf Ha. split; [done|]. split; [done|]. destruct Hw as [[-> ->]| ->].
  - exists []. rewrite notes_nil. split; [done|]. econstructor; [exact Ha|constructor].
  - eexists. split; [reflexivity|]. econstructor; [done..|exact Ha|constructor].
Qed.

Lemma queue_books now t log (Hi : is_i64 now) raws q : Forall2 framed raws q -> forall K b K' n s w, answers_all now K q = Some (b, K') ->
  roomy (queue_demands now K q) ->
  wp (holds := locked) now (MkMode t false log) (for_each (exec_queued (exec_command 1 now)) raws) (word_count q + n) K s w
    (fun _ n1 K1 _ w1 => (n <= n1)%nat /\ stands now K1 K' /\ exists es, w1 = notes (says w b) es /\ booked K (map (pair now) q) es K').
Proof.
  induction 1 as [|raw args raws q Hf _ IH]; intros K b K' n s w; cbn [answers_all queue_demands for_each].
  - intros [= <- <-] _. apply wp_ret. split; [done|]. split; [reflexivity|]. exists []. rewrite notes_nil, says_nil. split; [done|constructor].
  - destruct (answer now K _ args) as [[b1 K1]|] eqn:E1; [|done]. cbn [mbind option_bind].
    destruct (answers_all now K1 q) as [[b2 K2]|] eqn:E2; [|done]. intros [= <- <-] [Hr Hq]%Forall_app.
    apply wp_bind. change (word_count (args :: q)) with (length args + word_count q)%nat. rewrite <- Nat.add_assoc.
    eapply wp_mono; [by eapply queued_yields|].
    intros [] n1 K3 s1 w1 Hw. destruct (went_booked _ _ _ _ _ _ _ _ _ _ _ _ _ Hw Hi Hf E1) as (Hn & Hst & es & -> & Hb).
    eapply wp_weaken; [exact Hn|exact Hst|]. eapply wp_mono; [by apply IH|].
    intros [] n2 K4 s2 w2 (Hn2 & Hst2 & es2 & -> & Hb2). split; [done|]. split; [done|]. exists (es ++ es2).
    split; [unfold notes, says; cbn [sent noted]; by rewrite !app_assoc|]. by apply (booked_app _ _ _ _ _ _ _ Hb Hb2).
Qed.

Lemma ran {A B} (m : M D P A) (f : A -> M D P B) r x r' : m r = Some (x, r') -> (m ≫= f) r = f x r'.
Proof. unfold mbind, M_bind. by intros ->. Qed.

Lemma lock_serves now tx n K s w r keys : serves now tx n K s w r ->
  exists r', txn_lock keys r = Some (tt, r') /\ CommandsKeyspace.serves (holds := locked) now tx n K s w r'.
Proof.
  intros [? (K0 & Hh & Hst) ? ? ? ? ? ? ?]. destruct (kt_lock _ _ _ _ keys Hh) as (d' & p' & E & Hl).
  eexists. unfold txn_lock. rewrite E. split; [reflexivity|]. split; try done. by exists K0.
Qed.
Lemma unlock_serves now tx n K s w r : CommandsKeyspace.serves (holds := locked) now tx n K s w r ->
  exists r', txn_unlock r = Some (tt, r') /\ serves now tx n K s w r'.
Proof.
  intros [? (K0 & Hh & Hst) ? ? ? ? ? ? ?]. destruct (kt_unlock _ _ _ _ Hh) as (d' & p' & E & Hl).
  eexists. unfold txn_unlock. rewrite E. split; [reflexivity|]. split; try done. by exists K0.
Qed.

(** One step known to change only the reply buffer. *)
Lemma wp_run now tx (m : M D P unit) n K s w w' r :
  (forall Q, Q tt n K s w' -> wp (holds := holds) now tx m n K s w Q) -> serves now tx n K s w r ->
  exists r', m r = Some (tt, r') /\ serves now tx n K s w' r'.
Proof.
  intros H Hr. destruct (H (fun _ n1 K1 s1 w1 => (n1, K1, s1, w1) = (n, K, s, w')) eq_refl r Hr)
    as ([] & r' & n1 & K1 & s1 & w1 & E & Hr' & [= -> -> -> ->]). by exists r'.
Qed.

(** The modes of a connection, from the log [log]. *)
Context (log : option Aof).
Abbreviation mode_of t := (MkMode t false log).

Lemma notes_notes w es es' : notes (notes w es) es' = notes w (es ++ es').
Proof. unfold notes. cbn [sent noted]. by rewrite app_assoc. Qed.
Lemma says_notes w b es : says (notes w es) b = notes (says w b) es.
Proof. done. Qed.

Lemma exec_answers now t raws q n K s w r b K' : is_i64 now -> Forall2 framed raws q -> serves now (mode_of t) (word_count q + n) K s w r ->
  answers_all now K q = Some (b, K') -> roomy (queue_demands now K q) ->
  exists s' r' es, exec_run (exec_command 1 now) (MkTxn true false raws []) r = Some (Continue, r') /\
    serves now (mode_of txn_default) n K' s' (notes (says w (header (length q) ++ b)) es) r' /\ booked K (map (pair now) q) es K'.
Proof.
  intros Hi Hf Hr Hans Hroom. unfold exec_run. cbv zeta. cbn [queued dirty]. apply (serves_txn _ _ txn_default) in Hr.
  erewrite ran by reflexivity. rewrite (Forall2_length _ _ _ Hf).
  destruct (wp_run now _ (emit_array (length q)) _ K s w _ _ (fun Q => wp_emit_array _ _ _ _ _ _ _ Q) Hr) as (r1 & E1 & Hr1).
  rewrite (ran _ _ _ _ _ E1). erewrite ran by reflexivity. rewrite (sv_replay _ _ _ _ _ _ _ Hr1). cbn [m_replay negb when].
  destruct (lock_serves _ _ _ _ _ _ _ (queued_keys raws) Hr1) as (r2 & E2 & Hr2). rewrite (ran _ _ _ _ _ E2).
  set (w1 := notes (says w (header (length q))) [Entry TxnStart now []]).
  destruct (wp_append (holds := locked) now (mode_of txn_default) TxnStart [] false (word_count q + n) K s (says w (header (length q)))
    (fun _ n' K' s' w' => (n', K', s', w') = (word_count q + n, K, s, w1)%nat) eq_refl r2 Hr2)
    as ([] & r3 & ? & ? & ? & ? & E3 & Hr3 & [= -> -> -> ->]). rewrite (ran _ _ _ _ _ E3).
  destruct (queue_books now txn_default log Hi raws q Hf K b K' n s _ Hans Hroom r3 Hr3)
    as ([] & r4 & n4 & K4 & s4 & w4 & E4 & Hr4 & Hn4 & Hst & es & -> & Hb). rewrite (ran _ _ _ _ _ E4).
  destruct (unlock_serves _ _ _ _ _ _ _ Hr4) as (r5 & E5 & Hr5). rewrite (ran _ _ _ _ _ E5).
  destruct (wp_run now _ (aof_append TxnCommit [] true) _ K4 s4 _ _ _ (fun Q => wp_append _ _ _ _ _ _ _ _ _ Q) Hr5) as (r6 & E6 & Hr6).
  rewrite (ran _ _ _ _ _ E6). exists s4, r6, (Entry TxnStart now [] :: es ++ [Entry TxnCommit now []]). split; [done|]. split.
  - unfold w1 in Hr6. rewrite says_notes, !notes_notes, says_app in Hr6. by eapply serves_weaken.
  - apply bk_bracket; [done..|]. rewrite <- (app_nil_r (map _ _)). eapply booked_app; [exact Hb|]. apply bk_bracket; [done..|constructor].
Qed.

(** *** A client *)

(** The session stands for the client [c]: its bindings, its transaction, and
    room for the queued commands besides [n] writes; at time [now], which the
    next command will read from the clock. *)
Definition attends now n c s w r : Prop := exists raws, Forall2 framed raws (waiting (multi c)) /\
  serves now (mode_of (txn_of (multi c) raws)) (word_count (waiting (multi c)) + n) (bindings c) s w (with_now r now).
Lemma attends_intro now n c s w r raws : Forall2 framed raws (waiting (multi c)) ->
  serves now (mode_of (txn_of (multi c) raws)) (word_count (waiting (multi c)) + n) (bindings c) s w r -> attends now n c s w r.
Proof.
  intros Hf Hr. exists raws. split; [done|]. assert (with_now r now = r) as ->; [|done].
  destruct r. unfold with_now. cbn. f_equal. symmetry. apply (sv_now _ _ _ _ _ _ _ Hr).
Qed.
(** The reply [b] was given, and what [h] did to the bindings logged. *)
Definition attended now n c (b : bytes) (h : list (Z * list bytes)) c' w r : Prop := exists s es,
  attends now n c' s (notes (says w b) es) r /\ booked (bindings c) h es (bindings c').
Lemma just_attended now n c b c' s w r : attends now n c' s (says w b) r -> bindings c = bindings c' -> attended now n c b [] c' w r.
Proof. intros H E. exists s, []. rewrite notes_nil. split; [done|]. rewrite E. constructor. Qed.

Lemma named_cmd cmd x : cmd_is cmd x = true -> cmd = bs x.
Proof. apply bool_decide_eq_true. Qed.

Lemma dispatch_run now (tx : TxnState) n K s w clock raw args r : serves now (mode_of tx) n K s w (with_now r now) -> now <= clock -> args <> [] ->
  serves clock (mode_of tx) n K s w (with_now r clock) /\
  dispatch clock raw args r =
    (if in_multi tx && negb (control_command (name_of args)) then
       match validate_queueable (name_of args) with
       | Some e => put_txn (MkTxn (in_multi tx) true (queued tx) (watches tx)) ;; emit_error e ;; mret Continue
       | None => put_txn (MkTxn (in_multi tx) (dirty tx) (queued tx ++ [raw]) (watches tx)) ;; emit QUEUED ;; mret Continue
       end
     else exec_command DEPTH clock (name_of args) raw args) (with_now r clock).
Proof.
  intros Hr Hle Hne. pose proof (serves_later _ _ _ _ _ _ _ _ Hle Hr : serves clock (mode_of tx) n K s w (with_now r clock)) as Hr1.
  split; [done|]. pose proof (sv_replay _ _ _ _ _ _ _ Hr1) as Erep. pose proof (sv_txn _ _ _ _ _ _ _ Hr1) as Etx.
  cbn [replay txn with_now m_replay m_txn] in Erep, Etx.
  destruct args as [|first args]; [done|]. unfold dispatch. erewrite ran by reflexivity.
  rewrite Erep. cbn [negb when]. erewrite ran by reflexivity. cbv zeta. erewrite ran by reflexivity.
  cbn [txn with_now]. rewrite Etx. reflexivity.
Qed.

Lemma replied now tx (m : M D P unit) b n K s w r : (forall Q, Q tt n K s (says w b) -> wp (holds := holds) now tx m n K s w Q) ->
  serves now tx n K s w r -> exists r', (m ;; mret Continue) r = Some (Continue, r') /\ serves now tx n K s (says w b) r'.
Proof.
  intros H Hr. destruct (wp_run now tx m n K s w (says w b) r H Hr) as (r' & E & Hr'). exists r'. by rewrite (ran _ _ _ _ _ E).
Qed.

(** The commands that are not queued. *)
Lemma control_steps clock raw args : let exec cmd := exec_command (D := D) (P := P) DEPTH clock (bs cmd) raw args in
  exec "MULTI"%string = (cmd_multi ;; mret Continue) /\ exec "EXEC"%string = cmd_exec (exec_command 1 clock) /\
  exec "DISCARD"%string = ((t ← get_txn; if in_multi t then discard ;; emit OK
                     else emit_error (bs "ERR DISCARD without MULTI")) ;; mret Continue) /\
  exec "RESET"%string = (discard ;; emit_simple (bs "RESET") ;; mret Continue).
Proof. cbv zeta. split_and!; reflexivity. Qed.

Lemma multi_run (tx : TxnState) r : txn r = tx -> (cmd_multi ;; mret Continue) r =
  (if in_multi tx then emit_error (bs "ERR MULTI calls can not be nested") ;; mret Continue
   else put_txn (MkTxn true false [] (watches tx)) ;; emit OK ;; mret Continue) r.
Proof. intros E. unfold cmd_multi, mbind, M_bind, get_txn, gets. rewrite E. cbn. by destruct (in_multi tx). Qed.
Lemma discard_run (tx : TxnState) r : txn r = tx ->
  ((t ← get_txn; if in_multi t then discard ;; emit OK else emit_error (bs "ERR DISCARD without MULTI")) ;; mret Continue) r =
  (if in_multi tx then discard ;; emit OK ;; mret Continue else emit_error (bs "ERR DISCARD without MULTI") ;; mret Continue) r.
Proof. intros E. unfold mbind, M_bind, get_txn, gets. rewrite E. cbn. by destruct (in_multi tx). Qed.
Lemma exec_refused (tx : TxnState) rec r : txn r = tx -> in_multi tx = false ->
  cmd_exec rec r = (emit_error (bs "ERR EXEC without MULTI") ;; mret Continue) r.
Proof. intros E Em. unfold cmd_exec, mbind, M_bind, get_txn, gets. rewrite E. cbn. by rewrite Em. Qed.
Lemma exec_aborted (tx : TxnState) rec r : txn r = tx -> in_multi tx = true -> dirty tx = true -> cmd_exec rec r =
  (discard ;; emit_error (bs "EXECABORT Transaction discarded because of previous errors.") ;; mret Continue) r.
Proof. intros E Em Ed. unfold cmd_exec, mbind, M_bind, get_txn, gets. rewrite E. cbn. by rewrite Em, Ed. Qed.
Lemma exec_passed raws rec r : txn r = MkTxn true false raws [] -> cmd_exec rec r = exec_run rec (MkTxn true false raws []) r.
Proof. intros E. unfold cmd_exec, mbind, M_bind, get_txn, gets. rewrite E. done. Qed.

(** A change of the transaction and a reply. *)
Lemma put_replied now t0 t (m : M D P unit) b n c0 c s w r raws : (forall n K s w Q, Q tt n K s (says w b) -> wp (holds := holds) now (mode_of t) m n K s w Q) ->
  Forall2 framed raws (waiting (multi c)) -> t = txn_of (multi c) raws -> bindings c0 = bindings c ->
  serves now (mode_of t0) (word_count (waiting (multi c)) + n) (bindings c) s w r ->
  exists r', (put_txn t ;; m ;; mret Continue) r = Some (Continue, r') /\ attended now n c0 b [] c w r'.
Proof.
  intros H Hf Ht Hc Hr. apply (serves_txn _ _ t) in Hr. destruct (replied _ _ m b _ _ s w _ (H _ _ _ _) Hr) as (r' & E & Hr').
  exists r'. split; [exact E|]. apply (just_attended _ _ _ _ _ s); [|done]. apply (attends_intro _ _ _ _ _ _ raws); [done|]. by rewrite <- Ht.
Qed.
Lemma just_replied now t (m : M D P unit) b n c0 c s w r raws : (forall n K s w Q, Q tt n K s (says w b) -> wp (holds := holds) now (mode_of t) m n K s w Q) ->
  Forall2 framed raws (waiting (multi c)) -> t = txn_of (multi c) raws -> bindings c0 = bindings c ->
  serves now (mode_of t) (word_count (waiting (multi c)) + n) (bindings c) s w r ->
  exists r', (m ;; mret Continue) r = Some (Continue, r') /\ attended now n c0 b [] c w r'.
Proof.
  intros H Hf Ht Hc Hr. destruct (replied _ _ m b _ _ s w _ (H _ _ _ _) Hr) as (r' & E & Hr').
  exists r'. split; [exact E|]. apply (just_attended _ _ _ _ _ s); [|done]. apply (attends_intro _ _ _ _ _ _ raws); [done|]. by rewrite <- Ht.
Qed.

(** Inside MULTI. *)
Lemma multi_answers clock raw args refused q raws n K s w r b c' :
  is_i64 clock -> framed raw args -> Forall2 framed raws q ->
  serves clock (mode_of (MkTxn true refused raws [])) (word_count q + (length args + n)) K s w r ->
  respond clock (MkClient K (Some (refused, q))) args = Some (b, c') -> roomy (demands clock (MkClient K (Some (refused, q))) args) ->
  exists r', (if negb (control_command (name_of args)) then
       match validate_queueable (name_of args) with
       | Some e => put_txn (MkTxn true true raws []) ;; emit_error e ;; mret Continue
       | None => put_txn (MkTxn true refused (raws ++ [raw]) []) ;; emit QUEUED ;; mret Continue
       end
     else exec_command DEPTH clock (name_of args) raw args) r = Some (Continue, r') /\
    attended clock n (MkClient K (Some (refused, q))) b (executed clock (MkClient K (Some (refused, q))) args) c' w r'.
Proof.
  intros Hi Hraw Hf Hr. unfold respond, demands, executed. cbn [multi bindings]. generalize (name_of args). intros cmd.
  destruct (control_steps clock raw args) as (Sm & Se & Sd & Sr). pose proof (sv_txn _ _ _ _ _ _ _ Hr) as Etx.
  assert (Hr1 : serves clock (mode_of (MkTxn true refused raws [])) (word_count q + n) K s w r) by (eapply serves_weaken; [|reflexivity|exact Hr]; lia).
  assert (Hr0 : serves clock (mode_of (MkTxn true refused raws [])) (word_count [] + n) K s w r) by (eapply serves_weaken; [|reflexivity|exact Hr1]; simpl; lia).
  destruct (cmd_is cmd "MULTI") eqn:E1.
  { apply named_cmd in E1 as ->. intros [= <- <-] _. change (negb (control_command _)) with false. cbv iota. rewrite Sm, (multi_run _ _ Etx).
    eapply (just_replied _ _ _ _ _ _ (MkClient K (Some (refused, q)))); [intros; by apply wp_emit_error|exact Hf|reflexivity|reflexivity|exact Hr1]. }
  destruct (cmd_is cmd "EXEC") eqn:E2.
  { apply named_cmd in E2 as ->. change (negb (control_command _)) with false. cbv iota. rewrite Se. destruct refused.
    - intros [= <- <-] _. rewrite (exec_aborted _ _ _ Etx) by done.
      eapply (put_replied _ _ _ _ _ _ _ (MkClient K None)); [intros; by apply wp_emit_error|constructor|reflexivity|reflexivity|exact Hr0].
    - destruct (answers_all _ _ _) as [[b1 K1]|] eqn:Ea; [|done]. intros [= <- <-] Hroom. rewrite (exec_passed _ _ _ Etx).
      destruct (exec_answers _ _ _ _ _ _ _ _ _ _ _ Hi Hf Hr1 Ea Hroom) as (s' & r' & es & E & Hr' & Hb). exists r'. split; [done|].
      exists s', es. split; [|exact Hb]. apply (attends_intro _ _ _ _ _ _ []); [constructor|done]. }
  destruct (cmd_is cmd "DISCARD") eqn:E3.
  { apply named_cmd in E3 as ->. intros [= <- <-] _. change (negb (control_command _)) with false. cbv iota. rewrite Sd, (discard_run _ _ Etx).
    eapply (put_replied _ _ _ _ _ _ _ (MkClient K None)); [intros; by apply wp_emit|constructor|reflexivity|reflexivity|exact Hr0]. }
  destruct (cmd_is cmd "RESET") eqn:E4.
  { apply named_cmd in E4 as ->. intros [= <- <-] _. change (negb (control_command _)) with false. cbv iota. rewrite Sr.
    eapply (put_replied _ _ _ _ _ _ _ (MkClient K None)); [intros; by apply wp_emit_simple|constructor|reflexivity|reflexivity|exact Hr0]. }
  unfold control_command, validate_queueable, one_of. cbn [existsb]. rewrite E1, E2, E3, E4. cbn [orb].
  destruct (cmd_is cmd "WATCH"), (cmd_is cmd "QUIT"); try done. cbn [orb negb].
  destruct (_ || _); intros [= <- <-] _.
  - eapply (put_replied _ _ _ _ _ _ _ (MkClient K (Some (true, q)))); [intros; by apply wp_emit_error|exact Hf|reflexivity|reflexivity|exact Hr1].
  - eapply (put_replied _ _ _ _ _ _ _ (MkClient K (Some (refused, q ++ [args])))); [intros; by apply wp_emit| |done|done|].
    + by apply Forall2_app; [|constructor].
    + cbn [multi waiting bindings]. unfold word_count in *. rewrite sum_list_with_app. cbn [sum_list_with]. by rewrite Nat.add_0_r, <- Nat.add_assoc.
Qed.

(** Outside. *)
Lemma plain_answers clock raw args n K s w r b c' : is_i64 clock -> framed raw args -> serves clock (mode_of txn_default) (length args + n) K s w r ->
  respond clock (MkClient K None) args = Some (b, c') -> roomy (demands clock (MkClient K None) args) ->
  exists r', exec_command DEPTH clock (name_of args) raw args r = Some (Continue, r') /\
    attended clock n (MkClient K None) b (executed clock (MkClient K None) args) c' w r'.
Proof.
  intros Hi Hraw Hr Hans Hroom. generalize Hans (command_roomy K args Hroom). clear Hans Hroom.
  unfold respond, executed. cbn [multi bindings]. remember (name_of args) as cmd eqn:Ecmd.
  destruct (control_steps clock raw args) as (Sm & Se & Sd & Sr). pose proof (sv_txn _ _ _ _ _ _ _ Hr) as Etx.
  assert (Hr0 : serves clock (mode_of txn_default) (word_count [] + n) K s w r) by (eapply serves_weaken; [|reflexivity|exact Hr]; simpl; lia).
  destruct (cmd_is cmd "MULTI") eqn:E1.
  { apply named_cmd in E1 as ->. intros [= <- <-] _. rewrite Sm, (multi_run _ _ Etx).
    eapply (put_replied _ _ _ _ _ _ _ (MkClient K (Some (false, [])))); [intros; by apply wp_emit|constructor|reflexivity|reflexivity|exact Hr0]. }
  destruct (cmd_is cmd "EXEC") eqn:E2.
  { apply named_cmd in E2 as ->. intros [= <- <-] _. rewrite Se, (exec_refused _ _ _ Etx) by done.
    eapply (just_replied _ _ _ _ _ _ (MkClient K None)); [intros; by apply wp_emit_error|constructor|reflexivity|reflexivity|exact Hr0]. }
  destruct (cmd_is cmd "DISCARD") eqn:E3.
  { apply named_cmd in E3 as ->. intros [= <- <-] _. rewrite Sd, (discard_run _ _ Etx).
    eapply (just_replied _ _ _ _ _ _ (MkClient K None)); [intros; by apply wp_emit_error|constructor|reflexivity|reflexivity|exact Hr0]. }
  destruct (cmd_is cmd "RESET") eqn:E4.
  { apply named_cmd in E4 as ->. intros [= <- <-] _. rewrite Sr.
    eapply (put_replied _ _ _ _ _ _ _ (MkClient K None)); [intros; by apply wp_emit_simple|constructor|reflexivity|reflexivity|exact Hr0]. }
  destruct (answer _ _ cmd _) as [[b1 K1]|] eqn:Ea; [|done]. intros [= <- <-] Hroom.
  destruct (step_answers clock Hi (mode_of txn_default) raw clock (exec_command 1 clock) cmd K args b1 K1 n s w Ea Hroom _ Hr)
    as (a & r' & n' & K2 & s' & w' & E & Hr' & -> & Hw).
  unfold one_of. cbn [existsb]. rewrite E1, E2, E3, E4. cbn [orb].
  rewrite Ecmd in Ea. destruct (went_booked _ _ _ _ _ _ _ _ _ _ _ _ _ Hw Hi Hraw Ea) as (Hn & Hst & es & -> & Hb).
  exists r'. split; [exact E|]. exists s', es. split; [|exact Hb]. apply (attends_intro _ _ _ _ _ _ []); [constructor|]. by eapply serves_weaken.
Qed.

Lemma dispatch_answers now clock raw args n c s w r b c' : attends now (length args + n) c s w r -> now <= clock -> is_i64 clock ->
  framed raw args -> respond clock c args = Some (b, c') -> roomy (demands clock c args) ->
  exists r', dispatch clock raw args r = Some (Continue, r') /\ attended clock n c b (executed clock c args) c' w r'.
Proof.
  intros (raws & Hf & Hr) Hle Hi Hraw Hans Hroom. destruct (dispatch_run _ _ _ _ _ _ _ raw args _ Hr Hle (proj1 Hraw)) as [Hr1 ->].
  destruct c as [K [[refused q]|]]; cbn [multi bindings waiting txn_of in_multi] in *; cbn [andb].
  - by eapply multi_answers.
  - apply Forall2_nil_inv_r in Hf as ->. by eapply plain_answers.
Qed.

(** *** A whole script in one buffer *)

Lemma batch_answers (clk : nat -> Z) (l : script) : forall pre m now n c s w r b c',
  attends now (cost l + n) c s w r -> timely now l -> (forall j x, l !! j = Some x -> clk (m + j)%nat = fst x) ->
  answers c l = Some (b, c') -> roomy (script_demands c l) ->
  exists r', run_batch clk (pre ++ stream_of l) (length pre) m r =
      Some ((length (pre ++ stream_of l), (m + length l)%nat, false), r') /\ attended (until now l) n c b (history c l) c' w r'.
Proof.
  induction l as [|[t args] l IH]; intros pre m now n c s w r b c' Hr Ht Hclk Ha Hfit.
  - injection Ha as <- <-. exists r. cbn [stream_of map concat history until]. rewrite !app_nil_r, Nat.add_0_r. split.
    { apply run_batch_stop. unfold parse_command. by rewrite (proj2 (Nat.leb_le _ _) (le_n _)). }
    eapply just_attended; [|done]. rewrite says_nil. exact Hr.
  - cbn [timely answers script_demands history] in *. destruct Ht as (Hle & Hi & Hne & Hnum & Hlen & Ht). apply Forall_app in Hfit as [Hroom Hfit].
    destruct (respond t c args) as [[b1 c1]|] eqn:E1; [|done]. cbn [mbind option_bind] in Ha.
    destruct (answers c1 l) as [[b2 c2]|] eqn:E2; [|done]. injection Ha as <- <-.
    set (e := encode_command args). assert (Es : stream_of ((t, args) :: l) = e ++ stream_of l) by done. rewrite Es.
    destruct (encode_parses pre args (stream_of l) Hnum (frame_lengths _ Hlen)) as (sl & Ep & Eargs). fold e in Ep, Eargs.
    rewrite (run_batch_next _ _ _ _ _ _ _ Ep), Eargs, slice_app_middle.
    assert (Hr' : attends now (length args + (cost l + n)) c s w r).
    { revert Hr. unfold cost. cbn [sum_list_with snd]. by rewrite Nat.add_assoc. }
    pose proof (Hclk 0%nat _ eq_refl) as Hc0. rewrite Nat.add_0_r in Hc0. cbn [fst] in Hc0. rewrite Hc0.
    destruct (dispatch_answers now t e args _ c s w r b1 c1 Hr' Hle Hi (encode_framed _ Hne Hlen Hnum) E1 Hroom)
      as (r1 & Ed & s1 & es1 & Hr1 & Hb1).
    unfold mbind, M_bind. rewrite Ed. cbn [mbind option_bind].
    destruct (IH (pre ++ e) (S m) t n c1 s1 _ r1 b2 c2 Hr1 Ht) as (r' & E & s' & es & Hs' & Hb); [|done..|].
    { intros j x Hj. rewrite <- (Hclk (S j) x Hj). f_equal. lia. }
    exists r'. rewrite <- app_assoc, length_app in E. rewrite E. split; [do 4 f_equal; simpl; lia|].
    exists s', (es1 ++ es). split; [|by eapply booked_app]. by rewrite says_notes, notes_notes, says_app in Hs'.
Qed.

Lemma batch_aligned (clk : nat -> Z) buf rest l h n1 cl r1 : small_frames l -> forall head n r,
  run_batch clk buf head n r = Some ((h, n1, cl), r1) -> drop head buf ++ rest = stream_of l ->
  exists l', drop h buf ++ rest = stream_of l' /\ small_frames l'.
Proof.
  intros Hs head n r E. revert E. revert l Hs.
  apply (run_batch_ind clk (fun head n r m => forall l, small_frames l -> m = Some ((h, n1, cl), r1) -> drop head buf ++ rest = stream_of l ->
    exists l', drop h buf ++ rest = stream_of l' /\ small_frames l') buf).
  - intros head' n' r' _ l Hs [= <- <- <- <-]. by exists l.
  - intros head' n' r' e Ep l Hs. unfold run_batch. cbn [batch]. rewrite Ep. cbn. intros [= <- <- <- <-]. by exists l.
  - done.
  - intros head' n' r' sl next r2 Ep _ l Hs [= <- <- <- <-] E. by eapply frame_next.
  - intros head' n' r' sl next r2 Ep _ IH l Hs E Ed. destruct (frame_next _ _ _ _ _ _ Ep Hs Ed) as (l' & El & Hs'). by eapply IH.
Qed.

(** With small frames and reads, the buffer always has room for the next. *)
Lemma handle_paced (clk : nat -> Z) reads : forall conn l, Forall (fun data => data <> [] /\ Z.of_nat (length data) <= FRAME) reads ->
  recv_len conn = INITIAL_RECV -> small_frames l -> recv conn ++ concat reads = stream_of l ->
  parse_command (recv conn) 0 = inr None -> is_Some (whole clk conn (concat reads)) ->
  exists sent e, handle_connection clk conn reads = Some (sent, e) /\ e <> TooLarge /\
    forall conn', e = Waiting conn' -> recv_len conn' = INITIAL_RECV.
Proof.
  induction reads as [|data reads IH]; intros conn l Hr Hlen Hs El Hc Hw;
    pose proof (frame_rest _ _ 0 l Hc Hs El) as Hroom; rewrite drop_0 in Hroom; unfold FRAME in *;
    cbn [handle_connection]; unfold grow; rewrite Hlen;
    (destruct (Z.eqb_spec (Z.of_nat (length (recv conn))) INITIAL_RECV) as [E|_]; [unfold INITIAL_RECV in E; lia|]).
  { eexists _, _. split; [reflexivity|]. split; [done|]. by intros ? [= <-]. }
  apply Forall_cons in Hr as [[Hd Hdl] Hr]. destruct data as [|b data]; [done|]. set (d := b :: data) in *. clearbody d.
  cbv zeta. cbn [concat] in *. unfold INITIAL_RECV in *.
  destruct (Z.ltb_spec (64 * 1024 - Z.of_nat (length (recv conn))) (Z.of_nat (length d))); [lia|].
  set (buf := recv conn ++ d) in *. unfold whole in Hw. rewrite app_assoc in Hw, El. fold buf in Hw, El.
  destruct (run_batch_prefix _ _ _ _ _ _ Hw) as [[[[h n1] cl] r1] Eb]. rewrite Eb. cbn [mbind option_bind].
  destruct cl; [by eexists _, _; split|].
  destruct (run_batch_bounds _ _ _ _ _ _ _ _ _ (Nat.le_0_l _) Eb) as [Hh Hstop].
  destruct (batch_aligned clk buf (concat reads) l h n1 false r1 Hs 0 _ _ Eb) as (l' & El' & Hs'); [by rewrite drop_0|].
  destruct (IH (MkConn (drop h buf) (64 * 1024) n1 r1) l') as (sent & e & E & He); cbn [recv recv_len]; try done.
  - by apply parse_rest; [lia|apply Hstop].
  - rewrite (run_batch_app _ _ (concat reads) _ _ _ _ _ _ _ Eb) in Hw. unfold whole. cbn [recv served sess].
    apply (batch_rest clk buf (concat reads) h n1 r1); [lia|exact Hw].
  - rewrite E. by eexists _, _.
Qed.

(** Over a connection, in any pieces, to the last byte. *)
Lemma connection_answers (clk : nat -> Z) (l : script) conn reads now n c s b c' :
  recv conn = [] -> recv_len conn = INITIAL_RECV ->
  attends now (cost l + n) c s (MkTrail [] []) (with_out (sess conn) []) -> timely now l ->
  (forall j x, l !! j = Some x -> clk (served conn + j)%nat = fst x) -> answers c l = Some (b, c') -> roomy (script_demands c l) ->
  paced reads l ->
  exists conn', handle_connection clk conn reads = Some (b, Waiting conn') /\ served conn' = (served conn + length l)%nat /\
    recv conn' = [] /\ recv_len conn' = INITIAL_RECV /\
    attended (until now l) n c b (history c l) c' (MkTrail [] []) (with_out (sess conn') b).
Proof.
  intros Hrecv Hlen Hr Ht Hclk Ha Hfit (Hsmall & Hreads & Hcat).
  destruct (batch_answers clk l [] (served conn) now n c s _ _ b c' Hr Ht Hclk Ha Hfit) as (r & E & Hat).
  cbn [app length] in E.
  assert (Hw : whole clk conn (concat reads) = Some ((length (stream_of l), (served conn + length l)%nat, false), r)).
  { unfold whole. by rewrite Hrecv, Hcat. }
  assert (Hout : out r = b) by (destruct Hat as (s' & es & (raws & _ & Hs) & _); apply (sv_out _ _ _ _ _ _ _ Hs)).
  assert (Hp : parse_command (recv conn) 0 = inr None) by (by rewrite Hrecv).
  destruct (handle_paced clk reads conn l Hreads Hlen Hsmall) as (sent & e & Eh & He & Hlen'); [by rewrite Hrecv|done|by rewrite Hw|].
  apply (Forall_impl _ (fun data => data <> [])) in Hreads; [|by intros ? []].
  destruct (handle_whole clk reads conn sent e Hp Hreads Eh He) as (h & m & cl & r' & Hw' & <- & Hend).
  rewrite Hw in Hw'. injection Hw' as <- <- <- <-. destruct e as [conn'|r1|]; [|by destruct Hend|done].
  destruct Hend as (_ & Hrecv' & Hserved & Hsess). exists conn'. rewrite Eh, Hout. split; [done|].
  split; [done|]. split; [rewrite Hrecv', Hrecv, Hcat; apply drop_all|]. split; [by apply Hlen'|].
  assert (Er : with_out (sess conn') b = r); [|by rewrite Er].
  change (with_out (sess conn') b) with (with_out (with_out (sess conn') []) b). rewrite Hsess, <- Hout. by destruct r.
Qed.

(** C8. A request to any database that keeps the promises of [Keyspace] and
    [Transactions], in whatever state, inside MULTI or not: the reply appended
    to the buffer is the one the reference gives; what the database then holds
    stands for the bindings of the reference, and the session's transaction for
    the client's; and every command it executed either is in the log, with the
    time it ran at, or changed nothing. *)
Theorem command_answers now clock raw args n c s w r b c' : attends now (length args + n) c s w r -> now <= clock -> is_i64 clock ->
  framed raw args -> respond clock c args = Some (b, c') -> roomy (demands clock c args) ->
  exists r', dispatch clock raw args r = Some (Continue, r') /\ attended clock n c b (executed clock c args) c' w r'.
Proof. apply dispatch_answers. Qed.
End Conversation.

(** ** The server *)

#[local] Existing Instance from_creation.
#[local] Existing Instance nothing_reserved.

(** The server [sh] is ready for a connection by the thread [tid]: its store
    stands for [K] and has room for [n] writes. *)
Definition open_for (tid now : Z) (n : nat) (K : gmap bytes entry) (sh : Shared StoreDir) : Prop :=
  attends (holds := store_holds (resting tid) 20) (sh_aof sh) now n (MkClient K None) output_default
    (MkTrail [] []) (resp_session_new (H := store_db tid) sh).

Lemma open_converses tid now0 n K sh (clk : nat -> Z) (l : script) reads b c' : open_for tid now0 (cost l + n) K sh ->
  timely now0 l -> (forall j x, l !! j = Some x -> clk j = fst x) -> answers (MkClient K None) l = Some (b, c') ->
  Forall (fun x => page_holds 20 (fst x) (snd x)) (script_demands (MkClient K None) l) ->
  paced reads l ->
  exists conn, handle_connection (HDB := store_db tid) clk (conn_new (HDB := store_db tid) sh) reads = Some (b, Waiting conn) /\
    (served conn = length l)%nat /\ recv conn = [] /\
    attended (holds := store_holds (resting tid) 20) (sh_aof sh) (until now0 l) n (MkClient K None) b (history (MkClient K None) l) c'
      (MkTrail [] []) (with_out (sess conn) b).
Proof.
  intros Ho Ht Hclk Hans Hfit Hpaced.
  destruct (connection_answers (HK := store_keyspace tid 20) (HL := store_txn_keyspace tid 20) (HT := store_transactions tid 20)
    (sh_aof sh) clk l (conn_new (HDB := store_db tid) sh) reads now0 n _ _ b c' eq_refl eq_refl Ho Ht Hclk Hans Hfit Hpaced)
    as (conn & E & Hn & Hrecv & _ & Hat). by exists conn.
Qed.

(** As many writes as a new server has room for. *)
Definition CAPACITY : Z := 131072.

(** A new store over whatever an earlier one left on the device. *)
Definition fresh_store (dev : gmap Z cell) : option Store :=
  st ← store_of_settings store_settings_default; Some (set_log st (set_device (st_log st) dev)).
Definition clean (dev : gmap Z cell) : Prop := forall a, 0 <= a < FIRST_VALID_ADDRESS -> dev !! a = None.
Lemma fresh_holds (rs : reserved) dev tid meta n : clean dev -> tid <> 0 -> Z.of_nat n <= CAPACITY ->
  (forall x, x ∈ Reserved -> (fst x < MAX_THREADS)%nat /\ fst x <> slot_start tid /\ snd x = 0) ->
  exists st, fresh_store dev = Some st /\ store_holds (resting tid) 20 n (Dir st meta) (new_session st tid) ∅.
Proof.
  intros Hd Htid Hn Hrs. unfold fresh_store. destruct (store_of_settings store_settings_default) as [st|] eqn:E; [|done].
  eexists. split; [reflexivity|]. unfold store_of_settings in E. unfold CAPACITY in Hn.
  eapply (store_new_holds rs); [exact E|done|done|done|done|cbn; lia|lia|cbn [s_page_bits]; cbn; lia].
Qed.
Lemma fresh_nothing dev tid meta n : clean dev -> tid <> 0 -> Z.of_nat n <= CAPACITY ->
  exists st, fresh_store dev = Some st /\ store_holds (resting tid) 20 n (Dir st meta) (new_session st tid) ∅.
Proof. intros Hd Ht Hn. apply (fresh_holds nothing_reserved); [done..|]. by intros j ?%not_elem_of_nil. Qed.

Lemma open_intro tid now n K sh K0 : store_holds (resting tid) 20 n (sh_store sh) (new_session (sd_store (sh_store sh)) tid) K0 ->
  stands now K0 K -> unwaited sh -> table_ok (watch sh) -> open_for tid now n K sh.
Proof. intros Hh Hst Hl Ht. exists []. split; [constructor|]. split; try done; [by exists K0|apply logs_refl]. Qed.

(** What [main] makes of its options, before recovery. *)
Lemma main_starts tmp options cfg files : parse_args (config_default tmp) options = Some cfg ->
  exists dev, dev = (if cfg_persist cfg then f_device files else ∅) /\ forall st, fresh_store dev = Some st ->
    let sh := shared_new (Dir st (f_meta files)) (cfg_persist cfg) (cfg_aof cfg) (cfg_commit_wait cfg) (commit_mode cfg) (f_log files) in
    unwaited sh /\ table_ok (watch sh) /\ forall tid0 clock0, main_ tmp tid0 clock0 options files =
      (r ← recover_shared tid0 clock0 sh; Some (match r with inl e => Failed e | inr sh => Serving sh (maxclients cfg) end)).
Proof.
  intros Ea. eexists. split; [reflexivity|]. intros st Est sh. destruct (parse_args_ok _ _ _ Ea) as [Hwait Hst]. split; [|split].
  - intros a. unfold sh, shared_new. cbn [sh_aof aof_commit_wait]. intros Ha Hw. destruct (Hwait Hw) as [Hao Hm].
    rewrite Hao in Ha. injection Ha as <-. by rewrite Hm.
  - by apply watch_new_ok.
  - intros tid0 clock0. unfold main_, shared_of. rewrite Ea, Hst. unfold fresh_store in Est.
    destruct (store_of_settings store_settings_default) as [st0|] eqn:Es; [|done]. cbn [mbind option_bind] in Est |- *.
    injection Est as Est. unfold sh. rewrite <- Est. destruct (cfg_persist cfg); [done|].
    assert (set_log st0 (set_device (st_log st0) ∅) = st0) as ->; [|done].
    unfold store_of_settings in Es. revert Es. unfold store_new, log_new. destruct (_ && _); [|done]. by intros [= <-].
Qed.

(** A server that starts without data. *)
Definition without_data (cfg : Config) (files : Files) : Prop :=
  cfg_persist cfg = true -> f_meta files = None /\ clean (f_device files) /\ f_log files = [].
Lemma server_starts tmp tid0 clock0 options cfg files : parse_args (config_default tmp) options = Some cfg -> without_data cfg files ->
  exists sh st dev, main_ tmp tid0 clock0 options files = Some (Serving sh (maxclients cfg)) /\
    sh_aof sh = (if cfg_aof cfg then Some (aof_open (f_log files) (commit_mode cfg)) else None) /\
    sh_store sh = Dir st (f_meta files) /\ clean dev /\ fresh_store dev = Some st /\ unwaited sh /\ table_ok (watch sh).
Proof.
  intros Ea Hp. unfold without_data in Hp. destruct (main_starts tmp options cfg files Ea) as (dev & Edev & Hmain).
  assert (Hdev : clean dev) by (rewrite Edev; destruct (cfg_persist cfg); [by apply Hp|by intros a _]).
  destruct (fresh_nothing dev 1 (f_meta files) 0 Hdev) as (st & Est & _); [lia|by vm_compute|].
  destruct (Hmain st Est) as (Hl & Hw & Em). specialize (Em tid0 clock0). set (sh := shared_new _ _ _ _ _ _) in *.
  assert (Erec : recover_shared tid0 clock0 sh = Some (inr sh)).
  { unfold recover_shared, sh. cbn [persist shared_new]. destruct (cfg_persist cfg); cbn [negb]; [|done].
    destruct (Hp eq_refl) as (-> & _ & ->). cbn [sh_store sd_meta shared_new mbind option_bind].
    unfold recover_log. cbn [sh_aof shared_new set_store]. by destruct (cfg_aof cfg). }
  rewrite Erec in Em. cbn [mbind option_bind] in Em. exists sh, st, dev. by split_and!.
Qed.
(** What the store of a session that attended to a client holds. *)
Lemma attended_holds (tid : Z) log now n c b h c' w r :
  attended (holds := store_holds (resting tid) 20) log now n c b h c' w r ->
  exists K', store_holds (resting tid) 20 0 (sh_store (shared r)) (store r) K' /\ stands now K' (bindings c').
Proof.
  intros (s & es & (raws & _ & Hs) & _).
  apply (serves_weaken (HK := store_keyspace tid 20) now _ _ 0 _ _ _ _ _ (Nat.le_0_l _) (reflexivity _)) in Hs.
  exact (sv_holds _ _ _ _ _ _ _ Hs).
Qed.

(** C1. A client of a server that starts without data (it keeps no checkpoint, or
    finds none and an empty log), whatever its other options: it sends a script
    of commands over one connection, in any pieces, and reads back, to the byte,
    what the reference answers, every reply and nothing else; and the store is
    left with the bindings of the reference. *)
Theorem conversation_with_server tmp tid0 clock0 options cfg files tid (clk : nat -> Z) (l : script) reads b c' :
  parse_args (config_default tmp) options = Some cfg ->
  without_data cfg files -> tid <> 0 ->
  timely 0 l -> (forall j x, l !! j = Some x -> clk j = fst x) ->
  answers (MkClient ∅ None) l = Some (b, c') ->
  Forall (fun x => page_holds 20 (fst x) (snd x)) (script_demands (MkClient ∅ None) l) ->
  paced reads l -> Z.of_nat (cost l) <= CAPACITY ->
  exists sh conn K', main_ tmp tid0 clock0 options files = Some (Serving sh (maxclients cfg)) /\
    handle_connection (HDB := store_db tid) clk (conn_new (HDB := store_db tid) sh) reads = Some (b, Waiting conn) /\
    (served conn = length l)%nat /\ recv conn = [] /\
    store_holds (resting tid) 20 0 (sh_store (shared (sess conn))) (store (sess conn)) K' /\ stands (until 0 l) K' (bindings c').
Proof.
  intros Ea Hp Htid Ht Hclk Hans Hfit Hpaced Hc.
  destruct (server_starts tmp tid0 clock0 options cfg files Ea Hp) as (sh & st & dev & Em & _ & Esh & Hdev & Est & Hl & Hw).
  destruct (fresh_nothing dev tid (f_meta files) (cost l + 0) Hdev Htid ltac:(lia)) as (st' & Est' & Hh).
  assert (st' = st) as -> by congruence. rewrite <- Esh in Hh.
  assert (Ho : open_for tid 0 (cost l + 0) ∅ sh).
  { eapply open_intro; [|reflexivity|done|done]. rewrite Esh in Hh |- *. exact Hh. }
  destruct (open_converses tid 0 0 ∅ sh clk l reads b c' Ho Ht Hclk Hans Hfit Hpaced) as (conn & E & Hn & Hrecv & Hat).
  destruct (attended_holds tid _ _ _ _ _ _ _ _ _ Hat) as (K' & Hh' & Hst). by exists sh, conn, K'.
Qed.

(** ** Witnesses *)

Definition page_test (bits : Z) (k : bytes) (n : nat) : bool :=
  (Z.of_nat (length k) <? 2 ^ 32) && (Z.of_nat n <? 2 ^ 32) &&
  (total_size_of (SizeInfo (length k) n true) + PAGE_HEADER_SIZE <=? 2 ^ bits).
Lemma page_test_ok bits k n : page_test bits k n = true -> page_holds bits k n.
Proof. unfold page_test, page_holds, size_ok. cbn [key_len_of value_cap_of]. rewrite !andb_true_iff. lia. Qed.

Definition demo_clock (j : nat) : Z := if (demo_script : script) !! j is Some c then fst c else 0.
Definition demo_reads : list bytes := [take 40 (stream_of demo_script); drop 40 (stream_of demo_script)].

Lemma demo_timely : timely 0 demo_script.
Proof. cbn [timely demo_script map fst snd]. repeat apply conj; try lia; done. Qed.

Lemma demo_paced : paced demo_reads demo_script.
Proof.
  split; [apply (bool_decide_unpack _); by vm_compute|]. split; [apply (bool_decide_unpack _); by vm_compute|].
  unfold demo_reads. cbn [concat]. rewrite app_nil_r. apply take_drop.
Qed.

(** The test of a script's demands. *)
Definition fits_test (room_test : bytes -> nat -> bool) (ds : list (bytes * nat)) : bool :=
  forallb (fun x => room_test (fst x) (snd x)) ds.
Lemma fits_test_ok bits ds : fits_test (page_test bits) ds = true -> Forall (fun x => page_holds bits (fst x) (snd x)) ds.
Proof.
  unfold fits_test. rewrite forallb_forall. intros H. apply Forall_forall. intros x Hx. apply page_test_ok, H. by apply list_elem_of_In.
Qed.

(** The script sent in two pieces, the first ending inside a command. *)
Lemma conversation_with_server_witness : exists sh conn b,
  main_ (bs "/tmp/d") 7 500 [bs "--persist"; bs "--aof-commit-wait"] (MkFiles ∅ None []) = Some (Serving sh DEFAULT_MAX_CLIENTS) /\
  handle_connection (HDB := store_db 8) demo_clock (conn_new (HDB := store_db 8) sh) demo_reads = Some (b, Waiting conn) /\
  fst <$> answers (MkClient ∅ None) demo_script = Some b.
Proof.
  destruct (answers (MkClient ∅ None) demo_script) as [[b c']|] eqn:Ha; [|vm_compute in Ha; discriminate].
  destruct (conversation_with_server (bs "/tmp/d") 7 500 [bs "--persist"; bs "--aof-commit-wait"]
    (set_commit_wait (set_persist (config_default (bs "/tmp/d")))) (MkFiles ∅ None []) 8 demo_clock demo_script demo_reads b c')
    as (sh & conn & K' & E1 & E2 & _).
  - vm_compute. reflexivity.
  - intros _. split; [reflexivity|]. split; [by intros a _|reflexivity].
  - lia.
  - exact demo_timely.
  - intros j d Hj. unfold demo_clock. by rewrite Hj.
  - exact Ha.
  - apply fits_test_ok. vm_compute. reflexivity.
  - exact demo_paced.
  - by vm_compute.
  - exists sh, conn, b. split; [exact E1|]. split; [exact E2|]. reflexivity.
Defined.

(** EXEC of an increment of a value that is not there yet, on a small store. *)
Lemma command_answers_witness : exists r s' r', dispatch (H := store_db 7) 1000 (encode_command [bs "exec"]) [bs "exec"] r = Some (Continue, r') /\
  attends (holds := store_holds (resting 7) 12) None 1000 0 (MkClient {[bs "n" := (bs "-5", 0)]} None) (fst s') (snd s') r' /\
  sent (snd s') = header 1 ++ int_ (-5).
Proof.
  destruct (store_new 64 12 4 2) as [st|] eqn:E; [|discriminate E].
  set (q := map bs ["incrby"; "n"; "-5"]%string). set (c := MkClient ∅ (Some (false, [q]))).
  set (r := with_txn (resp_session_new (H := store_db 7)
      (shared_new (Dir (set_log st (set_device (st_log st) ∅)) None) false false false Never []))
    (MkTxn true false [encode_command q] [])).
  destruct (command_answers (HK := store_keyspace 7 12) (HL := store_txn_keyspace 7 12) (HT := store_transactions 7 12) None
    0 1000 (encode_command [bs "exec"]) [bs "exec"] 0 c output_default (MkTrail [] []) r
    (header 1 ++ int_ (-5)) (MkClient {[bs "n" := (bs "-5", 0)]} None)) as (r' & E1 & s' & es & E2 & _).
  - exists [encode_command q]. split; [constructor; [|constructor]; by apply encode_framed|].
    split; try done; [|by apply watch_new_ok]. exists ∅. split; [|done].
    eapply (store_new_holds nothing_reserved); [exact E|done|done|by intros a _|by intros j ?%not_elem_of_nil|done..].
  - lia.
  - vm_compute. split; discriminate.
  - by apply encode_framed.
  - vm_compute. reflexivity.
  - apply fits_test_ok. vm_compute. reflexivity.
  - eexists r, (s', _), r'. split; [exact E1|]. split; [exact E2|reflexivity].
Defined.
