(* ===== verification/Clients.v ===== *)
(** * Several clients

    A server with any number of connections, each served by its own thread, as
    long as they take turns: one client's script is served to the end before the
    next client's.  Each reads what the reference answers, with the bindings
    shared and the transaction its own. *)

From S2P Require Import Prelude Hash Resp RespSpec Session Functions FunctionsSpec Record Index IndexSpec Latch Epoch Log LogSpec LogLive Store StoreInv StoreRefine StoreOps Txn TxnStore Checkpoint.
From S2P Require Import Aof Shared Commands CommandsSpec Server StoreDb Config Keyspace StoreKeyspace Answers CommandsKeyspace Conversation.

#[local] Opaque hash64.

(** ** Turns *)

Abbreviation Connection := (Conn (D := StoreDir) (P := Session)).
(** A connection and the thread that serves it. *)
Record Peer := MkPeer { peer_tid : Z; peer_conn : Connection }.
(** Whose turn it is, what it sends, and in which pieces. *)
Record Turn := MkTurn { t_peer : nat; t_script : script; t_reads : list bytes }.

Definition script_clock (l : script) (j : nat) : Z := if l !! j is Some x then fst x else 0.
Lemma script_clock_lookup (l : script) j x : l !! j = Some x -> script_clock l j = fst x.
Proof. unfold script_clock. by intros ->. Qed.

(** The sessions work on the one shared state. *)
Definition attach (sh : Shared StoreDir) (c : Connection) : Connection := MkConn (recv c) (recv_len c) (served c) (with_shared (sess c) sh).
Definition take_turn (sh : Shared StoreDir) (p : Peer) (t : Turn) : option (bytes * Peer * Shared StoreDir) :=
  '(b, e) ← handle_connection (HDB := store_db (peer_tid p)) (fun m => script_clock (t_script t) (m - served (peer_conn p)))
    (attach sh (peer_conn p)) (t_reads t);
  if e is Waiting c then Some (b, MkPeer (peer_tid p) c, shared (sess c)) else None.
Fixpoint take_turns (sh : Shared StoreDir) (ps : list Peer) (ts : list Turn) : option (list bytes * list Peer * Shared StoreDir) :=
  match ts with
  | [] => Some ([], ps, sh)
  | t :: ts => p ← ps !! t_peer t; '(b, p, sh) ← take_turn sh p t;
      '(bs, ps, sh) ← take_turns sh (<[t_peer t := p]> ps) ts; Some (b :: bs, ps, sh)
  end.
Definition join (sh : Shared StoreDir) (tid : Z) : Peer := MkPeer tid (conn_new (HDB := store_db tid) sh).

(** The same for the reference: the bindings are shared, each client has its own
    transaction. *)
Definition Multi : Type := option (bool * list (list bytes)).
Fixpoint answers_in_turn (K : gmap bytes entry) (ms : list Multi) (ts : list Turn) : option (list bytes * gmap bytes entry * list Multi) :=
  match ts with
  | [] => Some ([], K, ms)
  | t :: ts => m ← ms !! t_peer t; '(b, c) ← answers (MkClient K m) (t_script t);
      '(bs, K, ms) ← answers_in_turn (bindings c) (<[t_peer t := multi c]> ms) ts; Some (b :: bs, K, ms)
  end.
(** What the turns execute, and the room they need. *)
Fixpoint turn_history (K : gmap bytes entry) (ms : list Multi) (ts : list Turn) : list (Z * list bytes) :=
  match ts with
  | [] => []
  | t :: ts => if ms !! t_peer t is Some m then history (MkClient K m) (t_script t) ++
      match answers (MkClient K m) (t_script t) with
      | Some (_, c) => turn_history (bindings c) (<[t_peer t := multi c]> ms) ts
      | None => []
      end else []
  end.
Fixpoint turn_demands (K : gmap bytes entry) (ms : list Multi) (ts : list Turn) : list (bytes * nat) :=
  match ts with
  | [] => []
  | t :: ts => if ms !! t_peer t is Some m then script_demands (MkClient K m) (t_script t) ++
      match answers (MkClient K m) (t_script t) with
      | Some (_, c) => turn_demands (bindings c) (<[t_peer t := multi c]> ms) ts
      | None => []
      end else []
  end.
Definition all_scripts (ts : list Turn) : script := concat (map t_script ts).

(** ** The slots of the threads *)

(** Every slot but [idx], with its owner. *)
Definition rest_of {A} (e : LightEpoch A) (idx : nat) : list (nat * Z) :=
  filter (fun x => fst x <> idx) (imap (fun j s => (j, s_owner s)) (table e)).
Lemma rest_of_spec {A} (e : LightEpoch A) idx x : x ∈ rest_of e idx <-> fst x <> idx /\ owned e x.
Proof.
  unfold rest_of, owned. rewrite list_elem_of_filter, elem_of_lookup_imap. split.
  - intros [Hne (j & s & -> & Hs)]. split; [done|]. by exists s.
  - intros [Hne (s & Hs & Ho)]. split; [done|]. exists (fst x), s. split; [|done]. rewrite Ho. by destruct x.
Qed.

Lemma claim_slot_owner {A} fuel (e : LightEpoch A) tid i idx e' : claim_slot fuel e tid i = Some (idx, e') -> owned e (idx, 0).
Proof.
  revert i. induction fuel as [|fuel IH]; intros i; cbn [claim_slot]; [done|]. cbv zeta.
  set (j := ((slot_start tid + i) mod MAX_THREADS)%nat). clearbody j.
  destruct (table e !! j) as [s|] eqn:Es; [|done]. destruct (Z.eqb_spec (s_owner s) 0); [|apply IH].
  intros [= <- <-]. by exists s.
Qed.
(** The slot a thread uses next is free, or its own and cached. *)
Lemma my_slot_free {A} (e : LightEpoch A) tid cached idx e' : tid <> 0 -> my_slot e tid cached = Some (idx, e') ->
  owned e (idx, 0) \/ cached = Some idx /\ owned e (idx, tid).
Proof.
  intros Htid. unfold my_slot. destruct cached as [k|]; [|intros H; left; by eapply claim_slot_owner].
  destruct (Z.eqb_spec (owner_at e k) tid) as [E|]; [|intros H; left; by eapply claim_slot_owner].
  intros [= <- _]. right. split; [done|]. unfold owner_at in E. destruct (table e !! k) as [s|] eqn:Es; [|done]. by exists s.
Qed.
Lemma my_slot_unique {A} (e : LightEpoch A) tid j idx e' : owned e (j, tid) -> my_slot e tid (Some j) = Some (idx, e') -> idx = j.
Proof. intros (s & Hs & Ho) H. cbn [fst snd] in *. rewrite (my_slot_owned _ _ _ _ Hs Ho) in H. by injection H as <- _. Qed.
Lemma owned_fun {A} (e : LightEpoch A) j o o' : owned e (j, o) -> owned e (j, o') -> o = o'.
Proof. intros (s & Hs & Ho) (s' & Hs' & Ho'). cbn [fst snd] in *. congruence. Qed.

Definition slot_of (p : Peer) : option nat := se_slot (store (sess (peer_conn p))).
(** Whoever owns a slot is one of the peers, and knows it; or is in [gone], the
    threads that serve none, such as the one that recovered. *)
Definition known {A} (e : LightEpoch A) (gone : list (nat * Z)) (ps : list Peer) : Prop := forall j o, owned e (j, o) -> o <> 0 ->
  (j, o) ∈ gone \/ exists i p, ps !! i = Some p /\ peer_tid p = o /\ slot_of p = Some j.

Lemma finds_slot {A} (e : LightEpoch A) gone ps i p : length (table e) = MAX_THREADS -> (length gone + length ps <= MAX_THREADS)%nat -> known e gone ps ->
  ps !! i = Some p -> is_Some (my_slot e (peer_tid p) (slot_of p)).
Proof.
  intros Hlen Hps Hk Hp. destruct (my_slot e (peer_tid p) (slot_of p)) as [x|] eqn:E; [by eexists|exfalso].
  assert (Hmine : forall j, slot_of p = Some j -> ~ owned e (j, peer_tid p)).
  { intros j Ej (s & Hs & Ho). cbn [fst snd] in *. rewrite Ej, (my_slot_owned _ _ _ _ Hs Ho) in E. done. }
  assert (Hclaim : claim_slot MAX_THREADS e (peer_tid p) 0 = None).
  { unfold my_slot in E. destruct (slot_of p) as [j|]; [by destruct (_ =? _)|done]. }
  assert (Hall : Some <$> seq 0 MAX_THREADS ⊆+ ((fun x => Some (fst x)) <$> gone) ++ (slot_of <$> delete i ps)).
  { apply NoDup_submseteq; [apply NoDup_fmap_2; [by intros ? ? [=]|apply NoDup_seq]|].
    intros o (j & -> & Hj)%list_elem_of_fmap. apply elem_of_seq in Hj.
    destruct (lookup_lt_is_Some_2 (table e) j ltac:(lia)) as [s Hs]. assert (Ho : owned e (j, s_owner s)) by by exists s.
    destruct (decide (s_owner s = 0)) as [Hz|Hz].
    { rewrite Hz in Ho. destruct (claim_slot_free _ (peer_tid p) _ Hlen Ho) as [? Ec]. by rewrite Ec in Hclaim. }
    apply elem_of_app. destruct (Hk _ _ Ho Hz) as [Hg|(i' & q & Hq & Etid & Eslot)].
    { left. apply list_elem_of_fmap. by exists (j, s_owner s). }
    right. rewrite <- Eslot. apply list_elem_of_fmap_2.
    assert (i' <> i) as Hne. { intros ->. rewrite Hp in Hq. injection Hq as <-. apply (Hmine _ Eslot). by rewrite Etid. }
    apply list_elem_of_lookup. destruct (Nat.lt_ge_cases i' i).
    - exists i'. by rewrite list_lookup_delete_lt.
    - exists (i' - 1)%nat. rewrite list_lookup_delete_ge by lia. by replace (S (i' - 1)) with i' by lia. }
  apply submseteq_length in Hall. rewrite length_app, !length_fmap, length_seq, length_delete in Hall by by eexists.
  apply lookup_lt_Some in Hp. lia.
Qed.

(** After a turn of [p]: its slot is its own or still free, the rest as before. *)
Lemma known_after {A} (e e' : LightEpoch A) gone ps i p q idx e1 e2 : length (table e) = MAX_THREADS -> length (table e') = MAX_THREADS ->
  known e gone ps -> ps !! i = Some p -> peer_tid p <> 0 -> my_slot e (peer_tid p) (slot_of p) = Some (idx, e1) ->
  peer_tid q = peer_tid p -> my_slot e' (peer_tid q) (slot_of q) = Some e2 ->
  (forall x, x ∈ rest_of e idx -> fst e2 <> fst x /\ owned e' x) -> known e' gone (<[i := q]> ps).
Proof.
  intros Hlen Hlen' Hk Hp Htid Hs Et Hs' Hrest j o Ho Hz. pose proof (lookup_lt_Some _ _ _ Hp) as Hi. destruct e2 as [idx' e2]. cbn [fst] in Hrest.
  assert (Hq : peer_tid q <> 0) by congruence.
  assert (Hold : forall j, is_Some (table e' !! j) -> exists o, owned e (j, o)).
  { intros j' H. apply lookup_lt_is_Some in H. destruct (lookup_lt_is_Some_2 (table e) j' ltac:(lia)) as [s Hs0]. by exists (s_owner s), s. }
  assert (idx' = idx) as ->.
  { destruct (decide (idx' = idx)) as [|Hne]; [done|exfalso].
    destruct (my_slot_spec _ _ _ _ _ Hq Hs') as ((s & Hi' & _) & Hep & _). specialize (Hep idx'). rewrite Hi' in Hep.
    destruct (Hold idx') as [o' Ho']; [by destruct (table e' !! idx')|]. by destruct (Hrest (idx', o')) as [? _]; [by apply rest_of_spec|]. }
  destruct (decide (j = idx)) as [->|Hne].
  - right. exists i, q. rewrite list_lookup_insert_eq by done. split; [done|].
    destruct (my_slot_free _ _ _ _ _ Hq Hs') as [Hf|[Hc Hf]]; [by destruct Hz; eapply owned_fun|].
    split; [by eapply owned_fun|done].
  - destruct (Hold j) as [o' Ho']; [destruct Ho as (s & Hs0 & _); by eexists|].
    destruct (Hrest (j, o')) as [_ Ho2]; [by apply rest_of_spec|]. assert (o' = o) as -> by (by eapply owned_fun).
    destruct (Hk _ _ Ho' Hz) as [|(i' & p' & Hp' & Et' & Es')]; [by left|right].
    destruct (decide (i' = i)) as [->|Hii]; [|exists i', p'; by rewrite list_lookup_insert_ne].
    exfalso. rewrite Hp in Hp'. injection Hp' as <-. rewrite Es', Et' in Hs. by apply Hne; symmetry; eapply my_slot_unique.
Qed.

(** ** Between two turns *)

#[local] Existing Instance from_creation.
Abbreviation store_of sh := (sd_store (sh_store sh)).
Abbreviation epoch_of sh := (epoch (st_log (store_of sh))).

(** The state the threads share, at [now]: the store stands for [K], has room for
    [n] writes and nobody is inside; the slots are those of [ps]; and since [log]
    the log has grown by [es]. *)
Record serving (now : Z) (n : nat) (K : gmap bytes entry) (log : option Aof) (es : list AofEntry) (gone : list (nat * Z))
    (ps : list Peer) (sh : Shared StoreDir) : Prop := {
  sg_map : exists R M, store_ok (store_of sh) R M /\ stands now (entry_of <$> M) K;
  sg_quiet : nobody_inside (st_log (store_of sh));
  sg_current : 0 < current (epoch_of sh);
  sg_free : latch_free (st_index (store_of sh));
  sg_table : length (table (epoch_of sh)) = MAX_THREADS;
  sg_known : known (epoch_of sh) gone ps;
  sg_bits : page_bits (st_log (store_of sh)) = 20;
  sg_budget : budget n (store_of sh);
  sg_log : unwaited sh;
  sg_watch : table_ok (watch sh);
  sg_book : logs log (sh_aof sh) es }.

(** A connection with nothing unread, whose client is at [m]. *)
Record awaits (m : Multi) (p : Peer) : Prop := {
  aw_txn : exists raws, Forall2 framed raws (waiting m) /\ txn (sess (peer_conn p)) = txn_of m raws;
  aw_recv : recv (peer_conn p) = [];
  aw_len : recv_len (peer_conn p) = INITIAL_RECV;
  aw_replay : replay (sess (peer_conn p)) = false;
  aw_tid : peer_tid p <> 0;
  aw_session : (txn_mode (store (sess (peer_conn p))) = false /\ txn_locks (store (sess (peer_conn p))) = []) /\
    se_tid (store (sess (peer_conn p))) = peer_tid p }.

Lemma turn_starts now n K log es gone ps sh i p m : serving now (word_count (waiting m) + n) K log es gone ps sh -> (length gone + length ps <= MAX_THREADS)%nat ->
  ps !! i = Some p -> awaits m p ->
  exists idx e1, my_slot (epoch_of sh) (peer_tid p) (slot_of p) = Some (idx, e1) /\
    attends (holds := store_holds (rs := rest_of (epoch_of sh) idx) (resting (peer_tid p)) 20) (sh_aof sh) now n (MkClient K m)
      (out_scratch (sess (peer_conn p))) (MkTrail [] []) (with_out (sess (attach sh (peer_conn p))) []).
Proof.
  intros [(R & M & Hok & Hst) Hq Hc Hf Ht Hk Hb Hbud Hl Hw _] Hps Hp [(raws & Hfr & Etx) _ _ Hrep Htid (Hidle & Etid)].
  destruct (finds_slot _ _ _ _ _ Ht Hps Hk Hp) as [[idx e1] Hs]. exists idx, e1. split; [done|]. exists raws. split; [done|].
  cbn [multi bindings].
  split; cbn [shared with_now with_out attach sess with_shared store replay txn out m_replay m_txn m_log sent noted]; try assumption; try reflexivity; [|apply logs_refl].
  exists (entry_of <$> M). split; [|exact Hst]. split; [by exists R, M| |by split|assumption|assumption].
  split; rewrite ?Etid; try assumption; [by exists (idx, e1)|intros _; exact Hf|].
  intros idx' e' x Hs' Hx. change (se_slot (store (sess (peer_conn p)))) with (slot_of p) in Hs'. rewrite Hs in Hs'. injection Hs' as <- <-.
  apply rest_of_spec in Hx as [Hne Ho]. by split.
Qed.

Lemma turn_ends now now' n n' K log es gone ps sh i p m idx e1 b h c' conn : serving now n' K log es gone ps sh ->
  ps !! i = Some p -> awaits m p -> my_slot (epoch_of sh) (peer_tid p) (slot_of p) = Some (idx, e1) ->
  recv conn = [] -> recv_len conn = INITIAL_RECV ->
  attended (holds := store_holds (rs := rest_of (epoch_of sh) idx) (resting (peer_tid p)) 20) (sh_aof sh) now' n (MkClient K m) b h c'
    (MkTrail [] []) (with_out (sess conn) b) ->
  let q := MkPeer (peer_tid p) conn in
  exists es', serving now' (word_count (waiting (multi c')) + n) (bindings c') log (es ++ es') gone (<[i := q]> ps) (shared (sess conn)) /\
    awaits (multi c') q /\ booked K h es' (bindings c').
Proof.
  intros Hsv Hp Haw Hs Hrecv Hlen (s & es' & (raws & Hfr & Hr) & Hb) q. exists es'.
  destruct Hr as [_ (K0 & [(R & M & Hok & ->) Hready [Hidle Etid] Hbits Hbud] & Hst) Hrep Hl Hw Etx _ _ Hbook].
  cbn [shared store replay txn with_now with_out m_replay m_txn m_log noted notes says app] in *.
  destruct Hready as [Hq Hc _ [[idx' e'] Hs'] Hf Hrs Ht]. rewrite Etid in Hs', Hrs.
  split; [|split; [|done]].
  - split; try done; [by exists R, M|by apply Hf; destruct Hidle| |exact (logs_trans _ _ _ _ _ (sg_book _ _ _ _ _ _ _ _ Hsv) Hbook)].
    apply (known_after (epoch_of sh) _ gone ps i p q idx e1 (idx', e')); try done; [apply Hsv..|apply Haw|].
    intros x Hx. by apply (Hrs idx' e' x Hs').
  - split; try done. { by exists raws. } apply Haw.
Qed.

Definition all_waiting (ms : list Multi) : nat := sum_list_with (fun m => word_count (waiting m)) ms.
Lemma all_waiting_at ms i m : ms !! i = Some m ->
  exists n, all_waiting ms = (word_count (waiting m) + n)%nat /\ forall m', all_waiting (<[i := m']> ms) = (word_count (waiting m') + n)%nat.
Proof.
  unfold all_waiting. revert i. induction ms as [|m0 ms IH]; intros [|i] Hm; try done.
  - injection Hm as ->. by eexists.
  - destruct (IH i Hm) as (n & E & E'). exists (word_count (waiting m0) + n)%nat. split; [cbn [sum_list_with]; rewrite E; lia|].
    intros m'. change (<[S i:=m']> (m0 :: ms)) with (m0 :: <[i:=m']> ms). cbn [sum_list_with]. rewrite E'. lia.
Qed.

Lemma turns_answered ts : forall now n K ms log es gone ps sh bs K' ms',
  serving now (all_waiting ms + (cost (all_scripts ts) + n)) K log es gone ps sh -> Forall2 awaits ms ps -> (length gone + length ps <= MAX_THREADS)%nat ->
  answers_in_turn K ms ts = Some (bs, K', ms') -> timely now (all_scripts ts) ->
  Forall (fun x => page_holds 20 (fst x) (snd x)) (turn_demands K ms ts) -> Forall (fun t => paced (t_reads t) (t_script t)) ts ->
  exists ps' sh' es', take_turns sh ps ts = Some (bs, ps', sh') /\
    serving (until now (all_scripts ts)) (all_waiting ms' + n) K' log (es ++ es') gone ps' sh' /\ Forall2 awaits ms' ps' /\
    booked K (turn_history K ms ts) es' K'.
Proof.
  induction ts as [|[i l reads] ts IH]; intros now n K ms log es gone ps sh bs K' ms' Hsv Haw Hps Ha Ht Hfit Hpaced.
  { injection Ha as <- <- <-. exists ps, sh, []. rewrite app_nil_r. split_and!; try done. constructor. }
  cbn [answers_in_turn t_peer t_script turn_demands turn_history take_turns] in *.
  destruct (ms !! i) as [m|] eqn:Em; [|done]. cbn [mbind option_bind] in Ha.
  destruct (answers (MkClient K m) l) as [[b c]|] eqn:E1; [|done]. cbn [mbind option_bind] in Ha.
  destruct (answers_in_turn (bindings c) (<[i:=multi c]> ms) ts) as [[[bs2 K2] ms2]|] eqn:E2; [|done]. injection Ha as <- <- <-.
  destruct (Forall2_lookup_l _ _ _ _ _ Haw Em) as (p & Hp & Hawp). rewrite Hp. cbn [mbind option_bind].
  change (all_scripts (MkTurn i l reads :: ts)) with (l ++ all_scripts ts) in *.
  apply timely_app in Ht as [Ht1 Ht2]. apply Forall_app in Hfit as [Hfit1 Hfit2]. apply Forall_cons in Hpaced as [Hp1 Hp2]. cbn [t_reads t_script] in Hp1.
  destruct (all_waiting_at _ _ _ Em) as (nw & Ew & Ew').
  set (n1 := (nw + (cost (all_scripts ts) + n))%nat).
  assert (Hcost : (all_waiting ms + (cost (l ++ all_scripts ts) + n))%nat = (word_count (waiting m) + (cost l + n1))%nat).
  { unfold n1, cost. rewrite Ew, map_app, words_app. lia. }
  rewrite Hcost in Hsv. destruct (turn_starts _ _ _ _ _ _ _ _ _ _ _ Hsv Hps Hp Hawp) as (idx & e1 & Hs & Hat).
  destruct (connection_answers (HK := store_keyspace (rs := rest_of (epoch_of sh) idx) (peer_tid p) 20)
    (HL := store_txn_keyspace (rs := rest_of (epoch_of sh) idx) (peer_tid p) 20) (HT := store_transactions (rs := rest_of (epoch_of sh) idx) (peer_tid p) 20) (sh_aof sh) (fun m => script_clock l (m - served (peer_conn p))) l (attach sh (peer_conn p))
    reads now n1 (MkClient K m) (out_scratch (sess (peer_conn p))) b c) as (conn & Eh & _ & Hrecv & Hlen & Hatt); [apply Hawp..|exact Hat|exact Ht1| |exact E1|exact Hfit1|exact Hp1|].
  { intros j x Hj. cbn [attach served]. rewrite Nat.add_comm, Nat.add_sub. by apply script_clock_lookup. }
  unfold take_turn. cbn [t_script t_reads]. rewrite Eh. cbn [mbind option_bind].
  destruct (turn_ends _ _ _ _ _ _ _ _ _ _ _ _ _ _ _ _ _ _ _ Hsv Hp Hawp Hs Hrecv Hlen Hatt) as (es1 & Hsv2 & Haw2 & Hb1).
  unfold n1 in Hsv2. rewrite Nat.add_assoc, <- Ew' in Hsv2.
  destruct (IH _ _ _ _ _ _ _ _ _ bs2 K2 ms2 Hsv2) as (ps' & sh' & es2 & Et & Hsv3 & Haw3 & Hb2); try assumption.
  { by apply Forall2_insert. } { by rewrite length_insert. }
  exists ps', sh', (es1 ++ es2). rewrite Et. split; [done|]. split; [|split; [done|by eapply booked_app]].
  rewrite <- app_assoc in Hsv3. by rewrite until_app.
Qed.

(** ** The server and its clients *)

Lemma serving_opens (rs : reserved) tid se gone now n K0 K ps sh : store_holds (resting tid) 20 n (sh_store sh) se K0 -> stands now K0 K ->
  unwaited sh -> table_ok (watch sh) -> known (epoch_of sh) gone ps -> serving now n K (sh_aof sh) [] gone ps sh.
Proof.
  intros [(R & M & Hok & ->) [Hq Hc _ _ Hf _ Ht] [[Hm _] _] Hb Hbud] Hst Hl Hw Hk.
  split; try assumption; [by exists R, M|by apply Hf|apply logs_refl].
Qed.
Lemma join_awaits sh tid : tid <> 0 -> awaits None (join sh tid).
Proof. intros H. split; try done. by exists []. Qed.
Lemma joined_await sh tids : Forall (fun tid => tid <> 0) tids -> Forall2 awaits (replicate (length tids) None) (join sh <$> tids).
Proof. induction 1 as [|tid tids Ht _ IH]; cbn; constructor; [by apply join_awaits|exact IH]. Qed.
Lemma none_waiting n : all_waiting (replicate n None) = 0%nat.
Proof. induction n as [|n IH]; [done|]. exact IH. Qed.

Lemma fresh_slots dev st x : fresh_store dev = Some st -> owned (epoch (st_log st)) x -> snd x = 0.
Proof.
  unfold fresh_store, store_of_settings, store_new. destruct (log_new _ _ _) as [l|] eqn:El; [|done]. cbn [mbind option_bind].
  intros [= <-] (s & Hs & <-). destruct (log_new_positions _ _ _ _ El) as (_ & _ & _ & Et).
  cbn [st_log set_log set_device set_flushed epoch] in Hs. rewrite Et in Hs. by apply lookup_replicate in Hs as [-> _].
Qed.
(** Nobody has claimed a slot of a new server. *)
Lemma server_opens tmp tid0 clock0 options cfg files tids n : parse_args (config_default tmp) options = Some cfg -> without_data cfg files ->
  Z.of_nat n <= CAPACITY ->
  exists sh, main_ tmp tid0 clock0 options files = Some (Serving sh (maxclients cfg)) /\
    sh_aof sh = (if cfg_aof cfg then Some (aof_open (f_log files) (commit_mode cfg)) else None) /\
    serving 0 n ∅ (sh_aof sh) [] [] (join sh <$> tids) sh.
Proof.
  intros Ea Hp Hn. destruct (server_starts tmp tid0 clock0 options cfg files Ea Hp) as (sh & st & dev & Em & Eaof & Esh & Hdev & Est & Hl & Hw).
  destruct (fresh_nothing dev 1 (f_meta files) n Hdev ltac:(lia) Hn) as (st' & Est' & Hh). assert (st' = st) as -> by congruence.
  exists sh. split; [done|]. split; [done|]. rewrite <- Esh in Hh. eapply (serving_opens nothing_reserved); [exact Hh|reflexivity|done|done|].
  intros j o Ho Hz. rewrite Esh in Ho. by apply (fresh_slots _ _ _ Est) in Ho.
Qed.

(** C2. Any number of clients up to the size of the epoch table, each on its own
    connection and thread, take turns on a server that starts without data, in
    any order, each turn a script in any pieces, transactions left open from turn
    to turn or not.  Every client reads, turn by turn, what the reference answers
    it: the bindings are those everybody's commands left, the transaction is its
    own. *)
Theorem clients_take_turns tmp tid0 clock0 options cfg files tids ts bs K ms :
  parse_args (config_default tmp) options = Some cfg -> without_data cfg files ->
  Forall (fun tid => tid <> 0) tids -> (length tids <= MAX_THREADS)%nat ->
  answers_in_turn ∅ (replicate (length tids) None) ts = Some (bs, K, ms) -> timely 0 (all_scripts ts) ->
  Forall (fun x => page_holds 20 (fst x) (snd x)) (turn_demands ∅ (replicate (length tids) None) ts) ->
  Forall (fun t => paced (t_reads t) (t_script t)) ts -> Z.of_nat (cost (all_scripts ts)) <= CAPACITY ->
  exists sh ps sh' R M, main_ tmp tid0 clock0 options files = Some (Serving sh (maxclients cfg)) /\
    take_turns sh (join sh <$> tids) ts = Some (bs, ps, sh') /\
    store_ok (store_of sh') R M /\ stands (until 0 (all_scripts ts)) (entry_of <$> M) K.
Proof.
  intros Ea Hp Htids Hlen Ha Ht Hfit Hpaced Hc.
  destruct (server_opens tmp tid0 clock0 options cfg files tids (cost (all_scripts ts) + 0) Ea Hp ltac:(lia)) as (sh & Em & _ & Hsv).
  pose proof (joined_await sh tids Htids) as Haw.
  destruct (turns_answered ts 0 0%nat ∅ (replicate (length tids) None) (sh_aof sh) [] [] (join sh <$> tids) sh bs K ms) as (ps & sh' & es & Et & Hsv' & _); try assumption.
  { by rewrite none_waiting. } { by rewrite length_fmap. }
  destruct (sg_map _ _ _ _ _ _ _ _ Hsv') as (R & M & Hok & Hst). by exists sh, ps, sh', R, M.
Qed.

(** ** Witness: a transaction of one client, and another client in between *)

Definition words_at (l : list (Z * list string)) : script := map (fun c => (fst c, map bs (snd c))) l.
Definition demo_turns : list Turn :=
  map (fun x => let l := words_at (snd x) in MkTurn (fst x) l [stream_of l])
    [(0%nat, [(1000, ["SET"; "n"; "5"]); (1001, ["MULTI"]); (1002, ["INCR"; "n"])]);
     (1%nat, [(1003, ["INCR"; "n"])]); (0%nat, [(1004, ["EXEC"])])]%string.

Lemma whole_read (l : script) : small_frames l -> stream_of l <> [] -> Z.of_nat (length (stream_of l)) <= FRAME -> paced [stream_of l] l.
Proof. intros Hs Hne Hl. split; [done|]. split; [by constructor|]. cbn [concat]. by rewrite app_nil_r. Qed.
Definition whole_test (t : Turn) : bool :=
  bool_decide (t_reads t = [stream_of (t_script t)]) && bool_decide (stream_of (t_script t) <> []) &&
  bool_decide (small_frames (t_script t)) && bool_decide (Z.of_nat (length (stream_of (t_script t))) <= FRAME).
Lemma whole_test_ok ts : forallb whole_test ts = true -> Forall (fun t => paced (t_reads t) (t_script t)) ts.
Proof.
  rewrite forallb_forall. intros H. apply Forall_forall. intros t Ht. apply list_elem_of_In, H in Ht. unfold whole_test in Ht.
  rewrite !andb_true_iff, !bool_decide_eq_true in Ht. destruct Ht as [[[-> ?] ?] ?]. by apply whole_read.
Qed.

Lemma clients_take_turns_witness : exists sh ps sh',
  main_ (bs "/tmp/d") 7 500 [bs "--aof"] (MkFiles ∅ None []) = Some (Serving sh DEFAULT_MAX_CLIENTS) /\
  take_turns sh (join sh <$> [8; 9]) demo_turns = Some ([OK ++ OK ++ QUEUED; int_ 6; header 1 ++ int_ 7], ps, sh').
Proof.
  destruct (clients_take_turns (bs "/tmp/d") 7 500 [bs "--aof"] (set_cfg_aof (config_default (bs "/tmp/d"))) (MkFiles ∅ None []) [8; 9]
    demo_turns [OK ++ OK ++ QUEUED; int_ 6; header 1 ++ int_ 7] {[bs "n" := (bs "7", 0)]} [None; None])
    as (sh & ps & sh' & R & M & E1 & E2 & _).
  - vm_compute. reflexivity.
  - intros E. discriminate E.
  - by repeat constructor.
  - vm_compute. lia.
  - vm_compute. reflexivity.
  - cbn [timely all_scripts demo_turns words_at concat map t_script fst snd app]. repeat apply conj; try lia; done.
  - apply fits_test_ok. vm_compute. reflexivity.
  - apply whole_test_ok. vm_compute. reflexivity.
  - by vm_compute.
  - by exists sh, ps, sh'.
Defined.
