(* ===== verification/Restart.v ===== *)
(** * After a crash

    What a restarted server makes of the log an earlier one wrote: replaying any
    prefix of the bytes that reached the log file brings back the bindings the
    reference had after a prefix of the commands executed, and the server goes
    on from there. *)

From S2P Require Import Prelude Hash Resp RespSpec Session Functions FunctionsSpec Record Index IndexSpec Latch Epoch Log LogSpec Store StoreInv StoreRefine StoreOps Txn TxnStore Checkpoint.
From S2P Require Import Aof Shared Commands CommandsSpec Replay Server StoreDb Config Keyspace StoreKeyspace Answers CommandsKeyspace Conversation Clients.

#[local] Opaque hash64.

(** ** What the log says of a conversation *)

Lemma timely_until now l : timely now l -> now <= until now l /\ Forall (fun x => fst x <= until now l) l.
Proof.
  revert now. induction l as [|[t args] l IH]; intros now; cbn [timely until]; [split; [lia|constructor]|].
  intros (Hle & _ & _ & _ & _ & Ht). destruct (IH t Ht) as [H1 H2]. split; [lia|]. by constructor.
Qed.
Lemma ordered_app now T h h' : ordered now h -> now <= T -> Forall (fun x => fst x <= T) h -> ordered T h' -> ordered now (h ++ h').
Proof.
  revert now. induction h as [|[t args] h IH]; intros now Hh Hle HT Hh'; [by eapply ordered_later|].
  destruct Hh as [H1 H2]. apply Forall_cons in HT as [H3 H4]. split; [done|]. by apply IH.
Qed.
Lemma all_at now (h : list (Z * list bytes)) : Forall (fun x => fst x = now) h -> ordered now h.
Proof. induction 1 as [|[t args] h E _ IH]; [done|]. cbn in *. subst. split; [lia|done]. Qed.

Lemma history_spec (P : bytes * nat -> Prop) l : forall now c b c', answers c l = Some (b, c') -> timely now l ->
  Forall P (script_demands c l) -> bindings_after (bindings c) (history c l) = Some (bindings c') /\
  ordered now (history c l) /\ Forall P (history_demands (bindings c) (history c l)) /\
  (word_count (map snd (history c l)) + word_count (waiting (multi c')) <= word_count (waiting (multi c)) + cost l)%nat /\
  Forall (fun x => fst x <= until now l) (history c l).
Proof.
  induction l as [|[t args] l IH]; intros now c b c' Ha Ht HP; cbn [answers timely script_demands history until] in *.
  { injection Ha as <- <-. split_and!; try done. unfold cost, word_count. cbn. lia. }
  destruct Ht as (Hle & Hi & _ & _ & _ & Ht). apply Forall_app in HP as [HP1 HP2]. destruct (timely_until _ _ Ht) as [Hu _].
  destruct (respond t c args) as [[b1 c1]|] eqn:E1; [|done]. cbn [mbind option_bind] in Ha.
  destruct (answers c1 l) as [[b2 c2]|] eqn:E2; [|done]. injection Ha as <- <-.
  destruct (executed_spec P t c args b1 c1 E1 HP1) as (Hb & Hd & Hw & Hf).
  destruct (IH t c1 b2 c2 E2 Ht HP2) as (Hb2 & Ho2 & Hd2 & Hw2 & HT2). split_and!.
  - by rewrite bindings_after_app, Hb.
  - apply (ordered_later t); [done|]. apply (ordered_app t t); [by apply all_at|lia| |done].
    eapply Forall_impl; [exact Hf|]. intros x ->. lia.
  - by eapply history_demands_app.
  - rewrite map_app, words_app. unfold cost, word_count in *. cbn [map snd sum_list_with] in *. lia.
  - apply Forall_app. split; [|exact HT2]. eapply Forall_impl; [exact Hf|]. by intros x ->.
Qed.

Lemma turn_history_spec (P : bytes * nat -> Prop) ts : forall now K ms bs K' ms', answers_in_turn K ms ts = Some (bs, K', ms') ->
  timely now (all_scripts ts) -> Forall P (turn_demands K ms ts) -> bindings_after K (turn_history K ms ts) = Some K' /\
  ordered now (turn_history K ms ts) /\ Forall P (history_demands K (turn_history K ms ts)) /\
  (word_count (map snd (turn_history K ms ts)) <= all_waiting ms + cost (all_scripts ts))%nat /\
  Forall (fun x => fst x <= until now (all_scripts ts)) (turn_history K ms ts).
Proof.
  induction ts as [|[i l reads] ts IH]; intros now K ms bs K' ms' Ha Ht HP; cbn [answers_in_turn turn_demands turn_history t_peer t_script] in *.
  { injection Ha as <- <- <-. split_and!; try done. unfold word_count. cbn. lia. }
  change (all_scripts (MkTurn i l reads :: ts)) with (l ++ all_scripts ts) in *. rewrite until_app.
  destruct (ms !! i) as [m|] eqn:Em; [|done]. cbn [mbind option_bind] in Ha.
  destruct (answers (MkClient K m) l) as [[b c]|] eqn:E1; [|done]. cbn [mbind option_bind] in Ha.
  destruct (answers_in_turn (bindings c) _ ts) as [[[bs2 K2] ms2]|] eqn:E2; [|done]. injection Ha as <- <- <-.
  apply timely_app in Ht as [Ht1 Ht2]. apply Forall_app in HP as [HP1 HP2]. destruct (timely_until _ _ Ht1) as [Hu1 _].
  destruct (timely_until _ _ Ht2) as [Hu2 _]. destruct (all_waiting_at _ _ _ Em) as (nw & Ew & Ew'). specialize (Ew' (multi c)).
  destruct (history_spec P l now _ _ _ E1 Ht1 HP1) as (Hb & Ho & Hd & Hw & HT).
  destruct (IH _ _ _ _ _ _ E2 Ht2 HP2) as (Hb2 & Ho2 & Hd2 & Hw2 & HT2). cbn [bindings multi] in *. split_and!.
  - by rewrite bindings_after_app, Hb.
  - by apply (ordered_app now (until now l)).
  - by eapply history_demands_app.
  - rewrite map_app, words_app. unfold cost in *. rewrite map_app, words_app. lia.
  - apply Forall_app. split; [|exact HT2]. eapply Forall_impl; [exact HT|]. cbn. lia.
Qed.

(** ** Replaying it *)

Section Replay.
Context {D P : Type} {HDB : Database D P} {holds : nat -> D -> P -> gmap bytes entry -> Prop}
  {room_for : bytes -> nat -> Prop} {HK : Keyspace HDB holds room_for}.
Abbreviation Resp := (RespSession D P).
Implicit Types (r : Resp) (K : gmap bytes entry) (s : StringOutput) (w : Trail) (n : nat) (t : TxnState).
Abbreviation roomy := (Forall (fun x : bytes * nat => room_for (fst x) (snd x))).
Abbreviation serves := (serves (holds := holds)).

Lemma replay_one_serves clock now ts t log raw args n K s w r b K' :
  serves now (MkMode t true log) (length args + n) K s w r -> now <= ts -> is_i64 ts -> framed raw args ->
  answer ts K (name_of args) args = Some (b, K') -> roomy (command_demands K args) ->
  exists s' w' r', replay_one clock ts raw r = Some (tt, r') /\ serves ts (MkMode t true log) n K' s' w' r'.
Proof.
  intros Hr Hle Hi (Hne & _ & ranges & Ep & Ea) Hans Hroom. pose proof (serves_later _ _ _ _ _ _ _ _ Hle Hr) as Hr1.
  unfold parse_ranges in Ep. unfold replay_one. destruct (parse_command raw 0) as [|[[sl next]|]]; try done. injection Ep as <-.
  rewrite map_map in Ea. cbn [fst snd] in Ea. change (map (arg_bytes raw) sl = args) in Ea. rewrite Ea. unfold dispatch_replay.
  destruct (step_answers ts Hi (MkMode t true log) raw clock (exec_command 1 clock) (name_of args) K args b K' n s w Hans
    (command_roomy _ _ Hroom) _ Hr1) as (a & r' & n' & K2 & s' & w' & E & Hr' & -> & Hn & Hst & _).
  exists s', w', r'. split; [|by eapply serves_weaken].
  unfold mbind, M_bind, modify_. cbn [mbind option_bind].
  change (exec_command DEPTH clock (command_name (default [] (head args))) raw args (with_now r ts) = Some (Continue, r')) in E.
  by rewrite E.
Qed.

(** The commands in a log, one after the other. *)
Definition replay_commands (clock : Z) (es : list AofEntry) : M D P unit :=
  for_each (fun e => replay_one clock (timestamp_ms e) (payload e)) (List.filter (fun e => bool_decide (e_op e = AofCommand)) es).

Lemma log_replays clock t log K h es K' : booked K h es K' -> forall now n s w r T,
  serves now (MkMode t true log) (word_count (map snd h) + n) K s w r -> ordered now h -> roomy (history_demands K h) ->
  now <= T -> Forall (fun x => fst x <= T) h ->
  exists now' s' w' r', replay_commands clock es r = Some (tt, r') /\ serves now' (MkMode t true log) n K' s' w' r' /\ now' <= T.
Proof.
  unfold replay_commands.
  induction 1 as [K|K o ts h es K' Ho Hi Hb IH|K ts raw args b K1 h es K' Hi Hf Ha Hb IH|K ts args b h es K' Ha Hb IH];
    intros now n s w r T Hr Hord Hroom HT HTs; cbn [List.filter e_op].
  - by exists now, s, w, r.
  - rewrite bool_decide_false by done. by eapply IH.
  - rewrite bool_decide_true by done. cbn [for_each timestamp_ms payload]. destruct Hord as [Hle Hord].
    cbn [history_demands] in Hroom. rewrite Ha in Hroom. apply Forall_app in Hroom as [Hroom1 Hroom2].
    apply Forall_cons in HTs as [Hts HTs]. cbn [fst] in Hts.
    assert (Hr0 : serves now (MkMode t true log) (length args + (word_count (map snd h) + n)) K s w r).
    { revert Hr. unfold word_count. cbn [map snd sum_list_with]. by rewrite Nat.add_assoc. }
    destruct (replay_one_serves clock _ _ _ _ _ _ _ _ _ _ _ _ _ Hr0 Hle Hi Hf Ha Hroom1) as (s1 & w1 & r1 & E & Hr1).
    rewrite (ran _ _ _ _ _ E). by eapply IH.
  - destruct Hord as [Hle Hord]. cbn [history_demands] in Hroom. rewrite Ha in Hroom. apply Forall_app in Hroom as [_ Hroom2].
    apply Forall_cons in HTs as [_ HTs]. apply (IH now n s w r T); try done; [|by apply (ordered_later ts)].
    eapply serves_weaken; [|reflexivity|exact Hr]. unfold word_count. cbn [map snd sum_list_with]. lia.
Qed.

Lemma answered_data K now args b K' : answer now K (name_of args) args = Some (b, K') -> one_of (name_of args) txn_names = false.
Proof.
  destruct (one_of _ _) eqn:E; [|done]. unfold one_of, txn_names in E. cbn [existsb] in E. rewrite !orb_true_iff in E.
  intros H. exfalso. repeat destruct E as [E|E]; try done; apply bool_decide_eq_true in E; rewrite E in H; discriminate H.
Qed.
Lemma booked_data K h es K' : booked K h es K' -> Forall data_entry es.
Proof.
  induction 1 as [|K o ts h es K' Ho Hi Hb IH|K ts raw args b K1 h es K' Hi Hf Ha Hb IH|]; try done; apply Forall_cons; (split; [|done]).
  - by intros ?%Ho.
  - intros _ slices next Ep. cbn [payload] in *. destruct Hf as (_ & _ & ranges & Er & Ea). unfold parse_ranges in Er. rewrite Ep in Er.
    injection Er as <-. rewrite map_map in Ea. change (map (arg_bytes raw) slices = args) in Ea. rewrite Ea.
    exact (answered_data _ _ _ _ _ Ha).
Qed.
End Replay.

(** ** Recovery *)

#[local] Existing Instance from_creation.
#[local] Existing Instance nothing_reserved.

(** The slots of the epoch table but one, which the thread that replays claims;
    a thread that comes after it finds one of the others. *)
Definition others (i0 : nat) : list (nat * Z) := (fun j => (j, 0)) <$> filter (fun j => j <> i0) (seq 0 MAX_THREADS).
Lemma others_spec i0 x : x ∈ others i0 <-> (fst x < MAX_THREADS)%nat /\ fst x <> i0 /\ snd x = 0.
Proof.
  unfold others. rewrite list_elem_of_fmap. split.
  - intros (j & -> & [Hj Hs]%list_elem_of_filter). apply elem_of_seq in Hs. cbn. lia.
  - intros (H1 & H2 & H3). exists (fst x). split; [by destruct x; cbn in *; subst|]. apply list_elem_of_filter.
    rewrite elem_of_seq. split; [done|lia].
Qed.

(** Only the thread that replayed holds a slot then. *)
Lemma others_known {A} (e : LightEpoch A) i0 ps : (forall x, x ∈ others i0 -> owned e x) -> length (table e) = MAX_THREADS ->
  exists o, known e [(i0, o)] ps.
Proof.
  intros Hf Hlen. exists (if table e !! i0 is Some s then s_owner s else 0). intros j o Ho Hz. left. apply list_elem_of_singleton.
  destruct (decide (j = i0)) as [->|Hne]; [destruct Ho as (s & Hs & Ho); cbn [fst snd] in *; rewrite Hs; by subst|].
  destruct Hz. eapply owned_fun; [exact Ho|]. apply Hf, others_spec. split; [|done]. destruct Ho as (s & Hs & _).
  apply lookup_lt_Some in Hs. cbn [fst] in *. by rewrite <- Hlen.
Qed.

(** What reached the log, and maybe not all of it: a prefix of the entries. *)
Lemma reopened_prefix a es n md : aof_holds a es -> exists k,
  aof_replay (aof_open (take n (file a)) md) = (take k es, aof_open (take n (file a)) md) /\
  (buf a = [] -> (length (file a) <= n)%nat -> (length es <= k)%nat).
Proof.
  intros [Hb _ _ _ Hes]. set (m := (n `min` length (file a))%nat).
  assert (E : take n (file a) = take m (encode_all es)).
  { rewrite <- Hb, take_app_le by lia. unfold m. destruct (Nat.le_gt_cases n (length (file a))).
    - by rewrite Nat.min_l. - rewrite Nat.min_r by lia. by rewrite !take_ge by lia. }
  assert (Hm : (m <= length (encode_all es))%nat) by (rewrite <- Hb, length_app; lia).
  destruct (reopened_replay es m md Hes Hm) as (k & Er & Hmax). rewrite E. exists k. split; [done|].
  intros Hbuf Hn. rewrite Hbuf, app_nil_r in Hb. apply Hmax; [done|]. rewrite take_ge, <- Hb by done. lia.
Qed.

Lemma set_aof_same {D} (sh : Shared D) a : sh_aof sh = Some a -> set_aof sh (Some a) = sh.
Proof. destruct sh. cbn. by intros ->. Qed.
Lemma recovers tid0 clock0 sh a h es K n T : sh_aof sh = Some a -> aof_replay a = (es, a) -> unwaited sh -> table_ok (watch sh) ->
  store_holds (rs := others (slot_start tid0)) (resting tid0) 20 (word_count (map snd h) + n) (sh_store sh) (new_session (sd_store (sh_store sh)) tid0) ∅ ->
  booked ∅ h es K -> ordered 0 h -> Forall (fun x => page_holds 20 (fst x) (snd x)) (history_demands ∅ h) ->
  0 <= T -> Forall (fun x => fst x <= T) h ->
  exists sh', recover_log (HDB := store_db tid0) clock0 sh = Some sh' /\
    forall ps, exists o, serving T n K (sh_aof sh') [] [(slot_start tid0, o)] ps sh'.
Proof.
  intros Ea Er Hu Hw Hh Hb Hord Hroom HT HTs. set (r0 := with_replay (resp_session_new (H := store_db tid0) sh) true).
  assert (Erec : recover_log (HDB := store_db tid0) clock0 sh = ('(_, r) ← replay_entries (HDB := store_db tid0) clock0 false es r0; Some (shared r))).
  { unfold recover_log. rewrite Ea, Er. rewrite (set_aof_same sh a Ea). by destruct es. }
  assert (Hr0 : serves (holds := store_holds (rs := others (slot_start tid0)) (resting tid0) 20) 0
    (MkMode txn_default true (sh_aof sh)) (word_count (map snd h) + n) ∅ output_default (MkTrail [] []) r0).
  { split; try done; [by exists ∅|apply logs_refl]. }
  destruct (log_replays (HK := store_keyspace (rs := others (slot_start tid0)) tid0 20) clock0 txn_default (sh_aof sh) ∅ h es K Hb
    0 n _ _ r0 T Hr0 Hord Hroom HT HTs) as (now' & s' & w' & r' & E & Hr' & Hle).
  pose proof (replay_flat (HDB := store_db tid0) clock0 es false r0 r0 (booked_data _ _ _ _ Hb)) as Hflat. unfold replay_commands in E.
  rewrite E in Hflat. destruct (replay_entries clock0 false es r0) as [[[] r'']|] eqn:E2; [|by destruct Hflat].
  destruct Hflat as [_ (Esh & _)]; [by split_and!..|]. rewrite Erec. eexists. split; [reflexivity|]. rewrite Esh.
  intros ps. destruct (sv_holds _ _ _ _ _ _ _ Hr') as (K0 & Hh' & Hst).
  destruct Hh' as [Hm [Hq Hc Ht [[idx e'] Hs] Hf Hrs Htab] Hmode Hb' Hbud].
  destruct (others_known (epoch_of (shared r')) (slot_start tid0) ps) as [o Hk]; [|done|].
  { intros x Hx. apply (Hrs _ _ x Hs Hx). }
  exists o. eapply (serving_opens (others (slot_start tid0))); [split; [exact Hm|split; [exact Hq|exact Hc|exact Ht|by eexists|exact Hf|exact Hrs|exact Htab]|exact Hmode|exact Hb'|exact Hbud]
    |by eapply stands_later|apply Hr'|apply Hr'|exact Hk].
Qed.

(** Nothing is ever written below the first record. *)
Lemma serving_clean now n K log es gone ps sh : serving now n K log es gone ps sh -> clean (device (st_log (store_of sh))).
Proof.
  intros Hs a Ha. destruct (sg_map _ _ _ _ _ _ _ _ Hs) as (R & M & Hok & _). pose proof (so_log _ _ _ Hok) as Hl.
  destruct (lo_marks _ _ Hl) as [_ _ _ Hfirst Hfl _ _ _].
  pose proof (lo_dev _ _ Hl a ltac:(lia)) as Hd. destruct (R !! a) as [x|] eqn:Er; [apply (lo_dom _ _ Hl) in Er; lia|].
  by destruct (device _ !! a).
Qed.

(** A restart over part of the log. *)
Lemma restarts tmp options cfg a h es K0 room T crash dev tid0 clock0 :
  parse_args (config_default tmp) options = Some cfg -> cfg_persist cfg = true -> cfg_aof cfg = true ->
  aof_holds a es -> booked ∅ h es K0 -> ordered 0 h -> Forall (fun x => page_holds 20 (fst x) (snd x)) (history_demands ∅ h) ->
  0 <= T -> Forall (fun x => fst x <= T) h -> Z.of_nat (word_count (map snd h) + room) <= CAPACITY -> clean dev -> tid0 <> 0 ->
  exists sh j K, main_ tmp tid0 clock0 options (MkFiles dev None (take crash (file a))) = Some (Serving sh (maxclients cfg)) /\
    bindings_after ∅ (take j h) = Some K /\ (buf a = [] -> (length (file a) <= crash)%nat -> K = K0) /\
    forall ps, exists o, serving T room K (sh_aof sh) [] [(slot_start tid0, o)] ps sh.
Proof.
  intros Ea Hpersist Haof Ha Hb Hord Hroom HT HTs Hc Hdev Htid0. destruct (reopened_prefix a es crash (commit_mode cfg) Ha) as (k & Er & Hfull).
  destruct (main_starts tmp options cfg (MkFiles dev None (take crash (file a))) Ea) as (dev' & Edev & Hmain).
  rewrite Hpersist in Edev. cbn [f_device f_meta f_log] in *. subst dev'.
  destruct (fresh_holds (others (slot_start tid0)) dev tid0 None (word_count (map snd h) + room) Hdev Htid0 Hc) as (st & Est & Hh).
  { intros j Hj. by apply others_spec. }
  destruct (Hmain st Est) as (Hu & Hw & Em). specialize (Em tid0 clock0). rewrite Hpersist, Haof in Hu, Hw, Em. set (sh0 := shared_new _ _ _ _ _ _) in *.
  assert (exists j K, booked ∅ (take j h) (take k es) K /\ (buf a = [] -> (length (file a) <= crash)%nat -> K = K0)) as (j & K & Hbk & HK).
  { destruct (Nat.le_gt_cases (length es) k) as [Hle|Hgt].
    - exists (length h), K0. by rewrite !take_ge.
    - destruct (booked_prefix _ _ _ _ Hb k) as (j & K & Hbk). exists j, K. split; [done|]. intros Hbuf Hlen. specialize (Hfull Hbuf Hlen). lia. }
  pose proof (words_take j h) as Hwords.
  assert (Hh0 : store_holds (rs := others (slot_start tid0)) (resting tid0) 20 (word_count (map snd (take j h)) + room) (sh_store sh0)
    (new_session (sd_store (sh_store sh0)) tid0) ∅).
  { refine (_ (fresh_holds (others (slot_start tid0)) dev tid0 None (word_count (map snd (take j h)) + room) Hdev Htid0 ltac:(lia) _)).
    - intros (st' & Est' & Hh'). assert (st' = st) as -> by congruence. exact Hh'.
    - intros i Hi. by apply others_spec. }
  destruct (recovers tid0 clock0 sh0 _ (take j h) (take k es) K room T eq_refl Er Hu Hw Hh0 Hbk) as (sh & Erec & Hopen);
    [by apply ordered_take|by apply history_demands_take|done|by apply Forall_take|].
  exists sh, j, K. split_and!; [|by eapply booked_after|done|done].
  rewrite Em. change (recover_shared tid0 clock0 sh0) with (x ← recover_log (HDB := store_db tid0) clock0 sh0; Some (@inr bytes _ x)).
  by rewrite Erec.
Qed.

(** ** The theorem *)

(** From [now] on the server stands for [K]: any number of new clients take turns
    with at most [room] words, and each reads what the reference answers from
    [K]. *)
Definition answers_from (now : Z) (room : nat) (K : gmap bytes entry) (sh : Shared StoreDir) : Prop :=
  forall tids ts bs K' ms, Forall (fun tid => tid <> 0) tids -> (length tids < MAX_THREADS)%nat ->
    answers_in_turn K (replicate (length tids) None) ts = Some (bs, K', ms) -> timely now (all_scripts ts) ->
    Forall (fun x => page_holds 20 (fst x) (snd x)) (turn_demands K (replicate (length tids) None) ts) ->
    Forall (fun t => paced (t_reads t) (t_script t)) ts -> (cost (all_scripts ts) <= room)%nat ->
    exists ps sh', take_turns sh (join sh <$> tids) ts = Some (bs, ps, sh').
Lemma serving_answers now room K log i0 sh : (forall ps, exists o, serving now room K log [] [(i0, o)] ps sh) -> answers_from now room K sh.
Proof.
  intros Hsv tids ts bs K' ms Htids Hlen Ha Ht Hfit Hpaced Hc. destruct (Hsv (join sh <$> tids)) as [o Hs].
  destruct (turns_answered ts now (room - cost (all_scripts ts)) K (replicate (length tids) None) log [] [(i0, o)] (join sh <$> tids) sh bs K' ms)
    as (ps & sh' & es & Et & _); try assumption.
  { rewrite none_waiting. cbn [Nat.add]. by rewrite Nat.add_comm, Nat.sub_add. } { by apply joined_await. } { rewrite length_fmap. cbn [length]. lia. }
  by exists ps, sh'.
Qed.

(** C3. Any number of clients have taken turns on a server run with --persist and
    a log (--aof or --aof-commit-wait; without --persist nothing is replayed),
    no SAVE among their commands, when it crashes, and of its log file only the
    first [crash] bytes are left, whatever is left of the device.  Restarted
    with the same options it serves again, and holds what the reference holds after some prefix of the commands
    executed: after all of them if the file is whole and nothing stayed in the
    log's buffer, which is always so when every write is committed.  New clients
    are answered to the byte as the reference answers from there, clocks going on
    from where they were. *)
Theorem restart_recovers_prefix tmp tid0 clock0 options cfg dev tids ts bs K ms (room : nat) :
  parse_args (config_default tmp) options = Some cfg -> cfg_persist cfg = true -> cfg_aof cfg = true -> clean dev ->
  Forall (fun tid => tid <> 0) tids -> (length tids <= MAX_THREADS)%nat ->
  answers_in_turn ∅ (replicate (length tids) None) ts = Some (bs, K, ms) -> timely 0 (all_scripts ts) ->
  Forall (fun x => page_holds 20 (fst x) (snd x)) (turn_demands ∅ (replicate (length tids) None) ts) ->
  Forall (fun t => paced (t_reads t) (t_script t)) ts -> Z.of_nat (cost (all_scripts ts) + room) <= CAPACITY ->
  exists sh ps sh' a, main_ tmp tid0 clock0 options (MkFiles dev None []) = Some (Serving sh (maxclients cfg)) /\
    take_turns sh (join sh <$> tids) ts = Some (bs, ps, sh') /\
    sh_aof sh' = Some a /\ clean (device (st_log (store_of sh'))) /\ (commit_mode cfg = Always -> buf a = []) /\
    forall crash dev2 tid1 clock1, clean dev2 -> tid1 <> 0 -> exists sh2 j K2,
      main_ tmp tid1 clock1 options (MkFiles dev2 None (take crash (file a))) = Some (Serving sh2 (maxclients cfg)) /\
      bindings_after ∅ (take j (turn_history ∅ (replicate (length tids) None) ts)) = Some K2 /\
      (buf a = [] -> (length (file a) <= crash)%nat -> K2 = K) /\
      answers_from (until 0 (all_scripts ts)) room K2 sh2.
Proof.
  intros Ea Hpersist Haof Hdev Htids Hlen Ha Ht Hfit Hpaced Hc. set (ms0 := replicate (length tids) None) in *.
  destruct (server_opens tmp tid0 clock0 options cfg (MkFiles dev None []) tids (cost (all_scripts ts) + 0) Ea ltac:(done) ltac:(lia))
    as (sh & Em & Eaof & Hsv).
  destruct (turns_answered ts 0 0%nat ∅ ms0 (sh_aof sh) [] [] (join sh <$> tids) sh bs K ms) as (ps & sh' & es & Et & Hsv' & _ & Hb); try assumption.
  { unfold ms0. by rewrite none_waiting. } { by apply joined_await. } { by rewrite length_fmap. }
  destruct (sg_book _ _ _ _ _ _ _ _ Hsv') as [Hg _ Hbuf]. cbn [app] in Hg. rewrite Eaof, Haof in Hg, Hbuf. cbn [f_log] in Hg, Hbuf.
  destruct (sh_aof sh') as [a|] eqn:Ela; [|by destruct Hg].
  pose proof (booked_ok _ _ _ _ Hb) as Hes. specialize (Hg [] (aof_open_holds [] _ [] eq_refl (Forall_nil_2 _)) Hes). cbn [app] in Hg.
  destruct (turn_history_spec _ ts 0 _ _ _ _ _ Ha Ht Hfit) as (_ & Hord & Hroom & Hwords & Htimes).
  assert (Ew : all_waiting ms0 = 0%nat) by apply none_waiting. rewrite Ew in Hwords. destruct (timely_until _ _ Ht) as [Hu _].
  exists sh, ps, sh', a. split_and!; try done; [by eapply serving_clean|by intros Hal; eapply Hbuf|].
  intros crash dev2 tid1 clock1 Hdev2 Htid1.
  destruct (restarts tmp options cfg a _ es K room (until 0 (all_scripts ts)) crash dev2 tid1 clock1 Ea Hpersist Haof Hg Hb Hord Hroom Hu Htimes)
    as (sh2 & j & K2 & E2 & Hj & HK & Hopen); [lia|done..|].
  exists sh2, j, K2. split_and!; [done..|by eapply serving_answers].
Qed.

(** ** Witness: a transaction and two clients before the crash, a third after it *)

Definition turns_after : list Turn :=
  let l := words_at [(2000, ["INCR"; "n"]); (2001, ["STRLEN"; "n"])]%string in [MkTurn 0 l [stream_of l]].

Lemma restart_recovers_prefix_witness : exists sh ps sh' a sh2 ps2 sh2',
  let options := [bs "--persist"; bs "--aof-commit-wait"] in
  main_ (bs "/tmp/d") 7 500 options (MkFiles ∅ None []) = Some (Serving sh DEFAULT_MAX_CLIENTS) /\
  take_turns sh (join sh <$> [8; 9]) demo_turns = Some ([OK ++ OK ++ QUEUED; int_ 6; header 1 ++ int_ 7], ps, sh') /\
  sh_aof sh' = Some a /\
  main_ (bs "/tmp/d") 11 1500 options (MkFiles (device (st_log (store_of sh'))) None (file a)) = Some (Serving sh2 DEFAULT_MAX_CLIENTS) /\
  take_turns sh2 (join sh2 <$> [10]) turns_after = Some ([int_ 8 ++ int_ 1], ps2, sh2').
Proof.
  destruct (restart_recovers_prefix (bs "/tmp/d") 7 500 [bs "--persist"; bs "--aof-commit-wait"]
    (set_commit_wait (set_persist (config_default (bs "/tmp/d")))) ∅ [8; 9] demo_turns
    [OK ++ OK ++ QUEUED; int_ 6; header 1 ++ int_ 7] {[bs "n" := (bs "7", 0)]} [None; None] 100)
    as (sh & ps & sh' & a & E1 & E2 & Ea & Hd & Hbuf & Hre).
  - vm_compute. reflexivity.
  - reflexivity.
  - reflexivity.
  - by intros z _.
  - by repeat constructor.
  - vm_compute. lia.
  - vm_compute. reflexivity.
  - cbn [timely all_scripts demo_turns words_at concat map t_script fst snd app]. repeat apply conj; try lia; done.
  - apply fits_test_ok. vm_compute. reflexivity.
  - apply whole_test_ok. vm_compute. reflexivity.
  - by vm_compute.
  - destruct (Hre (length (file a)) (device (st_log (store_of sh'))) 11 1500 Hd) as (sh2 & j & K & E3 & _ & HK & Hnext); [lia|].
    rewrite take_ge in E3 by lia. rewrite (HK (Hbuf eq_refl) (le_n _)) in Hnext.
    destruct (Hnext [10] turns_after [int_ 8 ++ int_ 1] {[bs "n" := (bs "8", 0)]} [None]) as (ps2 & sh2' & E4).
    + by repeat constructor.
    + vm_compute. lia.
    + vm_compute. reflexivity.
    + cbn [timely until all_scripts demo_turns turns_after words_at concat map t_script fst snd app]. repeat apply conj; try lia; done.
    + apply fits_test_ok. vm_compute. reflexivity.
    + apply whole_test_ok. vm_compute. reflexivity.
    + vm_compute. lia.
    + exists sh, ps, sh', a, sh2, ps2, sh2'. by split_and!.
Defined.
